(* ===== verification/_CoqProject ===== *)
-Q . S2P
Prelude.v
GoStrings.v
GoUrl.v
ServicesConfig.v
UrlParser.v
GoNet.v
ClientIP.v
FileSizeCache.v
SessionLimiter.v
SessionLimiterConc.v
SessionLimiterCaps.v
SessionLimiterSeq.v
RetryReader.v
GoFloat.v
GoHttp.v
Claims.v
ManifestRewriter.v
LazyMap.v
Clients.v
K8s.v
ServiceLocation.v
ServiceLocationSpec.v
HttpProxy.v
RetryTransport.v
RetryTransportSpec.v
HybridBucket.v
HybridBucketSpec.v
HybridBucketLive.v
HybridBucketFleet.v
ClickHouse.v
ResponseWriters.v
AccessHistory.v
Web.v
WebSpec.v
Server.v
ReverseProxy.v
ReverseProxySpec.v
SentRequests.v
EndToEnd.v
Flags.v
Startup.v
