(* ===== verification/Prelude.v ===== *)
(** * A verification library for torrent-http-proxy

    torrent-http-proxy serves the files of torrents over HTTP.  A request
    [/infohash/path~mod:extra/rest?token=...&api-key=...] is parsed into a
    Source, its JWT is checked, the session limiter admits it or not, a pod of
    the service is chosen by the infohash, and a reverse proxy forwards the
    request to the pod through a transport that follows redirects and resumes
    broken downloads on another pod.  Responses are learned from (file sizes)
    and rewritten (manifests of paying and free users), the writes to the client
    are throttled through a token bucket shared in Redis, and every served
    request leaves a record in ClickHouse.

    ** Files and sources

    The definitions keep the names of the Go code in src/; the operation of a
    file is in the module named beside it.  A struct is a Record, an enum or a
    set of constants an Inductive type or its strings, a Go map a gmap (or a
    function where only a lookup is used), an [int64] a [Z] with its wrap-around
    ([int64], [wrap_u]), a [float64] an element of the class [GoFloat] with the
    instances [binary64] and [rational], an [error] a value of [outcome], a
    panic [Panic].  What the code reads from outside is an argument: the time,
    the order in which Go ranges over a map, random numbers, the answers of the
    Kubernetes API, of probes, of Redis, of the database and of the network.

    - Prelude: outcomes, machine integers, generic lemmas, hints.
    - GoStrings, GoUrl, GoNet, GoFloat, GoHttp: the parts of the Go standard
      library that the program uses (strings, strconv, net/url, net, floating
      point, headers, requests and responses).
    - ServicesConfig: services/services_config.go.
    - UrlParser: services/url_parser.go.
    - ClientIP: [parseClientIP], [sameSubnet], [getIP] of services/web.go and
      [subnetKey] of services/session_limiter.go.
    - FileSizeCache: services/file_size_cache.go.
    - SessionLimiter: services/session_limiter.go as the code composes it, on a
      heap of session, path and hash objects; SessionLimiterConc: the atomic
      steps of the same handlers and their interleavings; SessionLimiterCaps: the
      caps of a session id over these interleavings; SessionLimiterSeq: the
      abstract admission specification, histories of whole handlers, and that
      the handlers are runs of the steps.
    - RetryReader: the retrying body and the range parsers of
      services/retry_transport.go; RetryTransport: its [RoundTrip] and reconnect
      function; RetryTransportSpec: the retry request and the resumed stream.
    - Claims: services/claims.go; ManifestRewriter: services/manifest_rewriter.go
      and services/rules.go.
    - LazyMap: the interface that github.com/webtor-io/lazymap gives its
      clients, as a class with laws ([KeepsEntries] adds that no entry leaves
      before it expires), and an instance; K8s: services/k8s;
      Clients: services/k8s/client.go and services/clickhouse_db.go.
    - ServiceLocation: services/service_location.go and services/resolver.go;
      ServiceLocationSpec: what they guarantee.
    - HttpProxy: services/http_proxy.go.
    - HybridBucket: services/hybrid_bucket.go with its Lua script; reading the
      clock and the call of the script are two sections, so that calls overtake
      each other; HybridBucketSpec: the account of the tokens of one bucket, a
      lone caller, the probe;
      HybridBucketLive: all callers return under a fair schedule;
      HybridBucketFleet: all buckets of a session on all pods, and the pool.
    - ClickHouse: services/clickhouse.go.
    - ResponseWriters: services/response_writer_interceptor.go and
      services/throttled_request_writer.go.
    - AccessHistory: services/access_history.go, with SHA-1.
    - Web: the mux handler and [proxyHTTP] of services/web.go, and
      services/speedtest.go; WebSpec: what the handlers guarantee.
    - ReverseProxy: httputil.ReverseProxy as [HTTPProxy.get] configures it, with
      the transports above; ReverseProxySpec: headers, termination, and the file
      a client receives; SentRequests: the requests one client request causes.
    - EndToEnd: the whole path from the mux to the pods.
    - Server: [Web.Serve], [Close], and the handlers of the mux.
    - Flags: the flags of every Register function, and github.com/urfave/cli as
      a class with laws; Startup: configure.go, main.go and the constructors.

    ** How the parts meet

    Web calls UrlParser, Claims, SessionLimiter (which asks FileSizeCache),
    HybridBucket's pool, ServiceLocation through HttpProxy, and ClickHouse, in
    the order of the code.  It leaves the reverse proxy open as a function
    [serve]; ReverseProxy defines [ServeHTTP], and the instance [serves_laws]
    of EndToEnd shows that a [serve] computed by it has the laws [ServeLaws]
    that WebSpec asks for.  RetryReader is proved against the
    classes [Upstream] and [HonestEnd]; RetryTransportSpec derives them for the
    real reconnect function from [HonestPods], which says what HTTP promises of
    a range request.  The caches are proved against [LazyMap].  The limiter's
    script is proved against [LuaNumbers], with exact rationals as the instance.

    ** What the theorems show

    - Requests: a request reaches a pod only with accepted claims, for the bound
      torrent and subnet, admitted by the limiter, with the trusted headers
      overwritten; retries and redirects carry nothing more; without accepted
      claims no handler sends a body or changes anything
      (request_end_to_end, proxied_request_spec, requests_sent, redirects_safe,
      nothing_without_claims).
    - Downloads: what a client receives is the file, byte for byte, over broken
      connections, and serving ends (client_receives_file, reads_stream,
      retry_same_resource, read_all_recovers,
      ServeHTTP_returns).
    - Limits: over whole handlers the session limiter refines its specification,
      every admission is given back, and a session is known exactly while it has
      a request in flight (Acquire_refines_verdict, limiter_released,
      no_session_leak); over the atomic sections its counters are exact, a
      hashState keeps its cap, and a session id exceeds its caps at most by the
      requests that overlap between a check and its count, as long as no session
      is dropped under a request (counters_exact, big_files_cap, session_caps);
      the bandwidth of a session is bounded over all callers on all pods, up to
      the calls that overtake each other, callers return, and Redis comes back
      into use (fleet_limit, callers_return, probe_exact).
    - Locations: where a hash goes, roles, probes, fallbacks
      (distributeByHash_spec, role_respected, probed_location,
      GetFallback_excludes).
    - Data: URLs, manifests, sizes, statistics, response headers, accounting
      (Parse_well_formed, Parse_total, Parse_appended_segment,
      RewriteManifest_segments, grace_cutoff, modifyResponse_spec, answer_cors,
      cache_bounded, Add_batches, store_atomic, records_accounted,
      stat_recorded, interceptor_spec, speedtest_spec).
    - Start-up: components are made, served and closed in order whatever fails,
      and what the server is by default (startup_order, default_server).
    - Edges that the code does not handle are closed examples, so that a change
      of the code shows up: total_cap_races, big_cap_races, ip_window_forgotten,
      extractMod_extra_leak, resolution_edges, reconnect_edges,
      retry_path_spliced, add_races, limiter_edges, connection_strips_trusted,
      clock_skew_refills, overtaken_call_refills, local_ignores_roles,
      pool_name_collision, client_error_sticks, pprof_left_open.

    ** Fuel and bounds

    The loops of [Parse] and [extractMod] have the length of the path as fuel
    and never run out (Parse_total).  [Wait] takes fuel that is shown to be
    enough by Wait_returns.  [drain] and [copyResponse] take fuel;
    ServeHTTP_returns shows that some amount is enough and that more does not
    change the result.  The redirect loop has its ten hops and the probing
    resolution its three tries as in the code.

    ** Not modelled

    The servers of common-services, client-go, database/sql and urfave/cli
    (arguments or classes with the behaviour they document); logging and
    Prometheus metrics other than the size counter; the timeouts and dialers of
    the http.Transport values beyond their settings; protocol upgrades, 1xx
    responses and trailers of the reverse proxy; which handler net/http's mux
    chooses (the theorem about the handlers holds for every choice).  JWT
    verification, YAML, bytefmt and lazymap are other people's code: parameters
    with the behaviour they document; so is that [Commit] of database/sql fails
    exactly when nothing is committed ([tx_law]).  The answer 501 for a proxy
    that is nil is left out, since [HTTPProxy.Get] returns no nil proxy without
    an error.  Fewer than 2^31 requests are in flight, and the pods of a fleet
    agree on the time (clock_skew_refills shows why).

    ** To do

    One schedule in which the atomic sections of the limiter, of the bucket and
    of the statistics interleave within requests; the buckets of a fleet while
    Redis fails for some pods. *)

From stdpp Require Export prelude strings gmap list sorting pretty.
From Stdlib Require Export Ascii ZArith Lia.

(** ** Scope of the development *)

Declare Scope thp_scope.
Delimit Scope thp_scope with thp.
#[global] Open Scope thp_scope.

(** ** Errors and outcomes

    A Go function of type [(T, error)] that may also panic returns an
    [outcome T].  [error] keeps the chain built by [errors.Wrap], so that the
    text of [Error()] and the root cause can both be recovered. *)

Inductive error :=
  | ErrNew (msg : string)
  | ErrWrap (msg : string) (cause : error).

#[export] Instance error_eq_dec : EqDecision error.
Proof. solve_decision. Defined.

Fixpoint error_text (e : error) : string :=
  match e with
  | ErrNew m => m
  | ErrWrap m c => m +:+ ": " +:+ error_text c
  end.

Fixpoint error_root (e : error) : error :=
  match e with
  | ErrNew _ => e
  | ErrWrap _ c => error_root c
  end.

Inductive outcome (A : Type) :=
  | Ok (a : A)
  | Err (e : error)
  | Panic (why : string).
Arguments Ok {A} a.
Arguments Err {A} e.
Arguments Panic {A} why.

#[export] Instance outcome_eq_dec `{EqDecision A} : EqDecision (outcome A).
Proof. solve_decision. Defined.

#[export] Instance outcome_ret : MRet outcome := λ A a, Ok a.
#[export] Instance outcome_bind : MBind outcome := λ A B f m,
  match m with
  | Ok a => f a
  | Err e => Err e
  | Panic w => Panic w
  end.
#[export] Instance outcome_fmap : FMap outcome := λ A B f m,
  match m with
  | Ok a => Ok (f a)
  | Err e => Err e
  | Panic w => Panic w
  end.

(** [errors.Wrap(err, msg)] applied to the error of a call. *)
Definition wrap_err {A} (msg : string) (m : outcome A) : outcome A :=
  match m with
  | Err e => Err (ErrWrap msg e)
  | _ => m
  end.

Definition is_ok {A} (m : outcome A) : bool :=
  match m with Ok _ => true | _ => false end.

Lemma bind_ok {A B} (m : outcome A) (f : A → outcome B) b :
  (m ≫= f) = Ok b ↔ ∃ a, m = Ok a ∧ f a = Ok b.
Proof. destruct m; naive_solver. Qed.

Lemma wrap_err_ok {A} msg (m : outcome A) a : wrap_err msg m = Ok a ↔ m = Ok a.
Proof. destruct m; naive_solver. Qed.

(** ** Lists *)

Lemma filter_length_mono {A} (P Q : A → Prop) `{∀ x, Decision (P x), ∀ x, Decision (Q x)} (l : list A) :
  (∀ x, P x → Q x) → length (filter P l) ≤ length (filter Q l).
Proof.
  intros HPQ. induction l as [|x l IH]; [done|]. rewrite !filter_cons.
  destruct (decide (P x)); [rewrite decide_True by auto; simpl; lia|].
  destruct (decide (Q x)); simpl; lia.
Qed.

(** ** Machine integers

    Go's [int], [int32], [int64] are modelled as [Z] with their wrap-around
    written out. *)

Definition wrap_s (w z : Z) : Z := (z + 2 ^ (w - 1)) mod 2 ^ w - 2 ^ (w - 1).
Definition wrap_u (w z : Z) : Z := z mod 2 ^ w.
Abbreviation int32 := (wrap_s 32).
Abbreviation int64 := (wrap_s 64).
Definition in_s (w z : Z) : Prop := (- 2 ^ (w - 1) ≤ z < 2 ^ (w - 1))%Z.

Lemma wrap_s_small w z : (0 < w)%Z → in_s w z → wrap_s w z = z.
Proof.
  intros Hw [??]. unfold wrap_s.
  assert (2 ^ w = 2 * 2 ^ (w - 1))%Z.
  { rewrite <-Z.pow_succ_r by lia. f_equal. lia. }
  rewrite Z.mod_small; lia.
Qed.

Lemma wrap_s_range w z : (0 < w)%Z → in_s w (wrap_s w z).
Proof.
  intros Hw. unfold wrap_s, in_s.
  assert (2 ^ w = 2 * 2 ^ (w - 1))%Z.
  { rewrite <-Z.pow_succ_r by lia. f_equal. lia. }
  assert (0 < 2 ^ (w - 1))%Z by (apply Z.pow_pos_nonneg; lia).
  pose proof (Z.mod_pos_bound (z + 2 ^ (w - 1)) (2 ^ w)). lia.
Qed.

Lemma wrap_s_add w a b : (0 < w)%Z → wrap_s w (wrap_s w a + b) = wrap_s w (a + b).
Proof.
  intros Hw. unfold wrap_s. f_equal.
  replace ((a + 2 ^ (w - 1)) mod 2 ^ w - 2 ^ (w - 1) + b + 2 ^ (w - 1))%Z
    with ((a + 2 ^ (w - 1)) mod 2 ^ w + b)%Z by lia.
  rewrite Zplus_mod_idemp_l. f_equal. lia.
Qed.

(** ** Lists and maps *)

Lemma Permutation_elem_of {A} (l k : list A) x : l ≡ₚ k → x ∈ l ↔ x ∈ k.
Proof. by intros ->. Qed.

Lemma list_find_first {A} (P : A → Prop) `{∀ x, Decision (P x)} l x y :
  (∀ z, z ∈ l → P z → z = y) → y ∈ l → P y →
  list_find P l = Some x → x.2 = y.
Proof.
  intros Huniq Hin HP Hf. destruct x as [i z].
  apply list_find_Some in Hf as (Hz & HPz & _).
  apply Huniq; [|done]. by eapply list_elem_of_lookup_2.
Qed.

(** ** Tactics and hints *)

(** Reduce a hypothesis [m ≫= f = Ok b] to its successful steps. *)
Ltac outcome_step :=
  match goal with
  | H : mbind _ _ = Ok _ |- _ => apply bind_ok in H as (? & ? & ?)
  | H : wrap_err _ _ = Ok _ |- _ => apply wrap_err_ok in H
  | H : Ok _ = Ok _ |- _ => injection H as H
  | H : Err _ = Ok _ |- _ => discriminate H
  | H : Panic _ = Ok _ |- _ => discriminate H
  end.

Create HintDb thp.
