(* ===== verification/GoStrings.v ===== *)
(** * Go strings and the parts of [strings], [bytes], [strconv] the program uses

    A Go [string] or [[]byte] is a sequence of bytes, here a [string] of 8-bit
    [ascii].  Operations that the source applies to a one-byte separator take
    that byte as an [ascii].  An index of -1 is [None].  The tables of package
    [unicode] are a parameter ([GoUnicode]); ASCII text does not consult
    them. *)

From S2P Require Import Prelude.

(** ** Slicing *)

Fixpoint str_take (n : nat) (s : string) : string :=
  match n, s with
  | S n, String c s => String c (str_take n s)
  | _, _ => ""
  end.

Fixpoint str_drop (n : nat) (s : string) : string :=
  match n, s with
  | S n, String _ s => str_drop n s
  | _, _ => s
  end.

(** [occurs c s]: the byte [c] is one of the bytes of [s]. *)
Fixpoint occurs (c : ascii) (s : string) : bool :=
  match s with
  | "" => false
  | String d s => bool_decide (c = d) || occurs c s
  end.

Abbreviation slen := String.length.

Lemma str_app_cons c s t : String c s +:+ t = String c (s +:+ t).
Proof. reflexivity. Qed.
Lemma str_app_nil_l t : "" +:+ t = t.
Proof. reflexivity. Qed.
Lemma str_app_nil_r s : s +:+ "" = s.
Proof. induction s as [|c s IH]; [done|]. by rewrite str_app_cons, IH. Qed.
Lemma str_app_assoc s t u : s +:+ (t +:+ u) = (s +:+ t) +:+ u.
Proof. induction s as [|c s IH]; [done|]. by rewrite !str_app_cons, IH. Qed.
Lemma slen_app s t : slen (s +:+ t) = slen s + slen t.
Proof. induction s as [|c s IH]; [done|]. rewrite str_app_cons. simpl. lia. Qed.
Lemma str_app_inj_l s t u : s +:+ t = s +:+ u → t = u.
Proof. induction s as [|c s IH]; [done|]. rewrite !str_app_cons. intros [=]. auto. Qed.

Lemma str_app_inj_len s s' t t' :
  slen s = slen s' → s +:+ t = s' +:+ t' → s = s' ∧ t = t'.
Proof.
  revert s'. induction s as [|c s IH]; intros [|c' s'] Hl Heq; try done.
  rewrite !str_app_cons in Heq. injection Heq as -> Heq. injection Hl as Hl.
  destruct (IH s') as [-> ->]; auto.
Qed.

Lemma take_drop_str n s : str_take n s +:+ str_drop n s = s.
Proof.
  revert s. induction n as [|n IH]; intros [|c s]; try done.
  simpl. by rewrite str_app_cons, IH.
Qed.
Lemma str_take_app s t : str_take (slen s) (s +:+ t) = s.
Proof. induction s as [|c s IH]; [by destruct t|]. rewrite str_app_cons. simpl. by rewrite IH. Qed.
Lemma str_drop_app s t : str_drop (slen s) (s +:+ t) = t.
Proof. induction s as [|c s IH]; [by destruct t|]. rewrite str_app_cons. simpl. done. Qed.
Lemma str_take_ge n s : slen s ≤ n → str_take n s = s.
Proof.
  revert s. induction n as [|n IH]; intros [|c s] H; simpl in *; try done; [lia|].
  rewrite IH; [done|lia].
Qed.
Lemma slen_take n s : slen (str_take n s) = n `min` slen s.
Proof. revert s. induction n as [|n IH]; intros [|c s]; simpl; auto. Qed.
Lemma str_drop_0 s : str_drop 0 s = s.
Proof. by destruct s. Qed.
Lemma str_take_take n m s : str_take n (str_take m s) = str_take (n `min` m) s.
Proof.
  revert m s. induction n as [|n IH]; intros [|m] [|c s]; simpl; try done.
  by rewrite IH.
Qed.

Lemma occurs_app c s t : occurs c (s +:+ t) = occurs c s || occurs c t.
Proof.
  induction s as [|d s IH]; [done|]. rewrite str_app_cons. simpl. rewrite IH.
  by rewrite orb_assoc.
Qed.

Lemma occurs_take c n s : occurs c s = false → occurs c (str_take n s) = false.
Proof.
  revert s. induction n as [|n IH]; intros [|d s]; simpl; try done.
  rewrite !orb_false_iff. intros [? ?]. auto.
Qed.

(** ** Indexing

    [String.get i s] is the byte [s[i]], [None] out of range. *)

Lemma get_take k n s : k < n → String.get k (str_take n s) = String.get k s.
Proof.
  revert k s. induction n as [|n IH]; intros k [|c s] Hk; simpl; [lia|lia|done|].
  destruct k; [done|]. apply IH. lia.
Qed.
Lemma get_app_mid s c t : String.get (slen s) (s +:+ String c t) = Some c.
Proof. induction s as [|d s IH]; [done|]. rewrite str_app_cons. apply IH. Qed.
Lemma get_app_ge s t k : slen s ≤ k → String.get k (s +:+ t) = String.get (k - slen s) t.
Proof.
  revert k. induction s as [|d s IH]; intros k Hk; simpl in *; [by rewrite Nat.sub_0_r|].
  destruct k as [|k]; [lia|]. apply IH. lia.
Qed.
Lemma get_occurs c s k : String.get k s = Some c → occurs c s = true.
Proof.
  revert k. induction s as [|d s IH]; intros k Hk; [done|]. simpl. apply orb_true_iff.
  destruct k; simpl in *; [left; simplify_eq; by apply bool_decide_eq_true_2|eauto].
Qed.
Lemma get_lt c s k : String.get k s = Some c → k < slen s.
Proof.
  revert k. induction s as [|d s IH]; intros [|k]; simpl; try done; [lia|].
  intros H. apply IH in H. lia.
Qed.

(** ** Prefixes and suffixes *)

Fixpoint has_prefix (s p : string) {struct p} : bool :=
  match p, s with
  | "", _ => true
  | String c p, String d s => bool_decide (c = d) && has_prefix s p
  | _, "" => false
  end.

Definition has_suffix (s p : string) : bool :=
  (slen p <=? slen s) && bool_decide (str_drop (slen s - slen p) s = p).

Definition trim_prefix (s p : string) : string :=
  if has_prefix s p then str_drop (slen p) s else s.

Lemma has_prefix_spec s p : has_prefix s p = true ↔ ∃ t, s = p +:+ t.
Proof.
  revert s. induction p as [|c p IH]; intros s.
  - split; [by exists s|by destruct s].
  - destruct s as [|d s]; simpl; [split; [done|by intros [t ?]]|].
    rewrite andb_true_iff, bool_decide_eq_true, IH. split.
    + intros [-> [t ->]]. by exists t.
    + intros [t H]. rewrite str_app_cons in H. injection H as -> ->. eauto.
Qed.
Lemma has_prefix_app p t : has_prefix (p +:+ t) p = true.
Proof. apply has_prefix_spec. eauto. Qed.
Lemma trim_prefix_app p t : trim_prefix (p +:+ t) p = t.
Proof. unfold trim_prefix. by rewrite has_prefix_app, str_drop_app. Qed.

Lemma has_suffix_spec s p : has_suffix s p = true ↔ ∃ t, s = t +:+ p.
Proof.
  unfold has_suffix. rewrite andb_true_iff, Nat.leb_le, bool_decide_eq_true. split.
  - intros [_ H]. exists (str_take (slen s - slen p) s).
    rewrite <-H at 2. by rewrite take_drop_str.
  - intros [t ->]. rewrite slen_app. split; [lia|].
    replace (slen t + slen p - slen p) with (slen t) by lia. apply str_drop_app.
Qed.

(** ** Substring search *)

(** [strings.Index(s, sub)] *)
Fixpoint index (s sub : string) : option nat :=
  if has_prefix s sub then Some 0
  else match s with
       | "" => None
       | String _ s => S <$> index s sub
       end.

Definition contains (s sub : string) : bool := bool_decide (is_Some (index s sub)).

(** [strings.LastIndex(s, c)] for a one-byte [c] *)
Fixpoint last_index (s : string) (c : ascii) : option nat :=
  match s with
  | "" => None
  | String d s =>
      match last_index s c with
      | Some i => Some (S i)
      | None => if bool_decide (c = d) then Some 0 else None
      end
  end.

(** [strings.IndexByte(s, c)] *)
Fixpoint index_byte (s : string) (c : ascii) : option nat :=
  match s with
  | "" => None
  | String d s => if bool_decide (c = d) then Some 0 else S <$> index_byte s c
  end.

Lemma index_sound s sub i :
  index s sub = Some i →
  str_take i s +:+ sub +:+ str_drop (i + slen sub) s = s ∧
  slen (str_take i s) = i.
Proof.
  revert i. induction s as [|c s IH]; intros i; simpl.
  - destruct sub; simpl; [by intros [= <-]|done].
  - destruct (has_prefix (String c s) sub) eqn:Hp.
    + intros [= <-]. apply has_prefix_spec in Hp as [t Ht]. rewrite Ht.
      simpl. by rewrite str_drop_app.
    + rewrite fmap_Some. intros (j & Hj & ->). destruct (IH j Hj) as [Heq Hl].
      simpl. rewrite str_app_cons, Heq, Hl. done.
Qed.

Lemma index_first s sub i a b :
  index s sub = Some i → s = a +:+ sub +:+ b → i ≤ slen a.
Proof.
  revert i a. induction s as [|c s IH]; intros i a Hi Heq; simpl in Hi.
  - destruct sub; simplify_eq/=. lia.
  - destruct (has_prefix (String c s) sub) eqn:Hp; [simplify_eq; lia|].
    apply fmap_Some in Hi as (j & Hj & ->).
    destruct a as [|d a].
    + rewrite str_app_nil_l in Heq. by rewrite Heq, has_prefix_app in Hp.
    + rewrite str_app_cons in Heq. injection Heq as -> ->.
      specialize (IH j a Hj eq_refl). simpl. lia.
Qed.

Lemma index_prefix s sub : has_prefix s sub = true → index s sub = Some 0.
Proof. intros H. destruct s; simpl; by rewrite H. Qed.

Lemma index_app a sub b : is_Some (index (a +:+ sub +:+ b) sub).
Proof.
  induction a as [|c a IH].
  - rewrite str_app_nil_l, index_prefix; [eauto|apply has_prefix_app].
  - rewrite str_app_cons. simpl. case_match; [eauto|]. by apply fmap_is_Some.
Qed.

Lemma contains_spec s sub : contains s sub = true ↔ ∃ a b, s = a +:+ sub +:+ b.
Proof.
  unfold contains. rewrite bool_decide_eq_true. split.
  - intros [i Hi]. apply index_sound in Hi as [<- _]. eauto.
  - intros (a & b & ->). apply index_app.
Qed.

Lemma last_index_Some s c i :
  last_index s c = Some i ↔
  ∃ a b, s = a +:+ String c b ∧ slen a = i ∧ occurs c b = false.
Proof.
  revert i. induction s as [|d s IH]; intros i; simpl.
  - split; [done|]. intros (a & b & H & _). by destruct a.
  - split.
    + destruct (last_index s c) as [j|] eqn:Hl.
      * intros [= <-]. destruct (proj1 (IH j) eq_refl) as (a & b & -> & <- & ?).
        by exists (String d a), b.
      * case_bool_decide as Hd; [|done]. intros [= <-]. subst d.
        exists "", s. split; [done|]. split; [done|].
        clear -Hl. revert Hl. induction s as [|e s IH]; simpl; [done|].
        destruct (last_index s c); [done|]. case_bool_decide; [done|]. auto.
    + intros (a & b & Heq & Hi & Hb). destruct a as [|e a].
      * rewrite str_app_nil_l in Heq. injection Heq as -> ->. simpl in Hi. subst i.
        destruct (last_index b c) as [j|] eqn:Hl.
        -- exfalso. destruct (proj1 (IH j) eq_refl) as (a' & b' & -> & _ & _).
           rewrite occurs_app in Hb. simpl in Hb.
           rewrite bool_decide_eq_true_2, orb_true_r in Hb; done.
        -- by rewrite bool_decide_eq_true_2.
      * rewrite str_app_cons in Heq. injection Heq as -> ->. simpl in Hi. subst i.
        by rewrite (proj2 (IH (slen a))) by eauto.
Qed.

Lemma last_index_None s c : last_index s c = None ↔ occurs c s = false.
Proof.
  induction s as [|d s IH]; simpl; [done|].
  destruct (last_index s c); simpl.
  - split; [done|]. rewrite orb_false_iff. intros [_ H]. by apply IH in H.
  - case_bool_decide; simpl; [done|]. by rewrite <-IH.
Qed.

Lemma last_index_lt s c i : last_index s c = Some i → i < slen s.
Proof.
  rewrite last_index_Some. intros (a & b & -> & <- & _). rewrite slen_app. simpl. lia.
Qed.

(** The positions [last_index] looks at, in a prefix of a string. *)
Lemma last_index_take_Some s c n i :
  last_index (str_take n s) c = Some i →
  i < n ∧ String.get i s = Some c ∧ ∀ j, i < j < n → String.get j s ≠ Some c.
Proof.
  intros H. apply last_index_Some in H as (a & b & Heq & <- & Hb).
  assert (slen a < n) as Hlt.
  { pose proof (slen_take n s) as Hl. rewrite Heq, slen_app in Hl. simpl in Hl. lia. }
  split; [done|]. split.
  - rewrite <-(get_take _ n) by done. rewrite Heq. apply get_app_mid.
  - intros j Hj Ht. rewrite <-(get_take _ n), Heq, get_app_ge in Ht by lia.
    destruct (j - slen a) as [|m] eqn:Hm; [lia|].
    simpl in Ht. apply get_occurs in Ht. congruence.
Qed.

Lemma last_index_take_None s c n j :
  last_index (str_take n s) c = None → j < n → String.get j s ≠ Some c.
Proof.
  intros H Hj Ht. apply last_index_None in H.
  rewrite <-(get_take _ n) in Ht by done. apply get_occurs in Ht. congruence.
Qed.

(** ** Splitting *)

(** Text before and after the first [c], when there is one. *)
Fixpoint cut (s : string) (c : ascii) : option (string * string) :=
  match s with
  | "" => None
  | String d s =>
      if bool_decide (c = d) then Some ("", s)
      else match cut s c with
           | Some (a, b) => Some (String d a, b)
           | None => None
           end
  end.

(** [strings.SplitN(s, c, 2)] *)
Definition split_n2 (s : string) (c : ascii) : list string :=
  match cut s c with
  | Some (a, b) => [a; b]
  | None => [s]
  end.

(** [strings.Split(s, c)] *)
Fixpoint split (s : string) (c : ascii) : list string :=
  match s with
  | "" => [""]
  | String d s =>
      if bool_decide (c = d) then "" :: split s c
      else match split s c with
           | w :: ws => String d w :: ws
           | [] => [String d ""]
           end
  end.

(** [bytes.SplitAfter(s, c)] *)
Fixpoint split_after (s : string) (c : ascii) : list string :=
  match s with
  | "" => [""]
  | String d s =>
      if bool_decide (c = d) then String d "" :: split_after s c
      else match split_after s c with
           | w :: ws => String d w :: ws
           | [] => [String d ""]
           end
  end.

(** [strings.Join(ws, sep)] *)
Fixpoint join (sep : string) (ws : list string) : string :=
  match ws with
  | [] => ""
  | [w] => w
  | w :: ws => w +:+ sep +:+ join sep ws
  end.

Fixpoint concat_str (ws : list string) : string :=
  match ws with
  | [] => ""
  | w :: ws => w +:+ concat_str ws
  end.

Lemma cut_Some s c a b :
  cut s c = Some (a, b) ↔ s = a +:+ String c b ∧ occurs c a = false.
Proof.
  revert a b. induction s as [|d s IH]; intros a b; simpl.
  - split; [done|]. intros [H _]. by destruct a.
  - case_bool_decide as Hd.
    + subst d. split.
      * by intros [= <- <-].
      * intros [Heq Ho]. destruct a as [|e a].
        -- rewrite str_app_nil_l in Heq. by injection Heq as ->.
        -- rewrite str_app_cons in Heq. injection Heq as -> ->. simpl in Ho.
           by rewrite bool_decide_eq_true_2 in Ho.
    + split.
      * destruct (cut s c) as [[a' b']|] eqn:Hc; [|done]. intros [= <- <-].
        destruct (proj1 (IH a' b') eq_refl) as [-> ?].
        rewrite str_app_cons. simpl. by rewrite bool_decide_eq_false_2.
      * intros [Heq Ho]. destruct a as [|e a].
        -- rewrite str_app_nil_l in Heq. by injection Heq as ->.
        -- rewrite str_app_cons in Heq. injection Heq as -> ->.
           simpl in Ho. apply orb_false_iff in Ho as [_ Ho].
           by rewrite (proj2 (IH a b)).
Qed.

Lemma cut_None s c : cut s c = None ↔ occurs c s = false.
Proof.
  induction s as [|d s IH]; simpl; [done|]. case_bool_decide; simpl; [done|].
  rewrite <-IH. destruct (cut s c) as [[]|]; naive_solver.
Qed.

Lemma split_n2_app a b c : occurs c a = false → split_n2 (a +:+ String c b) c = [a; b].
Proof. intros H. unfold split_n2. by rewrite (proj2 (cut_Some _ _ a b)). Qed.
Lemma split_n2_none s c : occurs c s = false → split_n2 s c = [s].
Proof. intros H. unfold split_n2. by rewrite (proj2 (cut_None _ _)). Qed.
Lemma split_n2_head s c : ∃ a r, split_n2 s c = a :: r ∧ occurs c a = false.
Proof.
  unfold split_n2. destruct (cut s c) as [[a b]|] eqn:H.
  - apply cut_Some in H as [-> H]. eauto.
  - apply cut_None in H. eauto.
Qed.

Lemma split_nonempty s c : split s c ≠ [].
Proof. destruct s; simpl; [done|]. case_bool_decide; [done|]. by destruct (split s c). Qed.

Lemma join_split s c : join (String c "") (split s c) = s.
Proof.
  induction s as [|d s IH]; simpl; [done|].
  pose proof (split_nonempty s c) as Hne.
  case_bool_decide as Hd.
  - subst d. destruct (split s c) as [|w ws]; [done|]. cbn [join].
    rewrite str_app_nil_l, str_app_cons, str_app_nil_l. by f_equal.
  - destruct (split s c) as [|w ws]; [done|].
    destruct ws as [|w' ws]; cbn [join] in *; [by rewrite IH|].
    by rewrite str_app_cons, IH.
Qed.

Lemma split_no_sep s c w : w ∈ split s c → occurs c w = false.
Proof.
  revert w. induction s as [|d s IH]; simpl; intros w.
  - by rewrite list_elem_of_singleton; intros ->.
  - case_bool_decide as Hd.
    + rewrite elem_of_cons. intros [->|?]; auto.
    + pose proof (split_nonempty s c). destruct (split s c) as [|v vs]; [done|].
      rewrite elem_of_cons. intros [->|?]; [|apply IH; by right].
      simpl. rewrite bool_decide_eq_false_2 by done. apply IH. by left.
Qed.

Lemma split_app a b c : occurs c a = false → split (a +:+ String c b) c = a :: split b c.
Proof.
  induction a as [|d a IH]; intros Ho.
  - rewrite str_app_nil_l. simpl. by rewrite bool_decide_eq_true_2.
  - rewrite str_app_cons. simpl in *. apply orb_false_iff in Ho as [Hd Ho].
    by rewrite Hd, IH.
Qed.
Lemma split_none s c : occurs c s = false → split s c = [s].
Proof.
  induction s as [|d s IH]; intros Ho; simpl in *; [done|].
  apply orb_false_iff in Ho as [Hd Ho]. by rewrite Hd, IH.
Qed.
Lemma split_join ws c :
  ws ≠ [] → Forall (λ w, occurs c w = false) ws → split (join (String c "") ws) c = ws.
Proof.
  intros Hne Hall. induction Hall as [|w ws Hw Hall IH]; [done|].
  destruct ws as [|w' ws]; cbn [join].
  - by apply split_none.
  - rewrite str_app_cons, str_app_nil_l, split_app by done. f_equal. by apply IH.
Qed.

Lemma split_after_nonempty s c : split_after s c ≠ [].
Proof.
  destruct s; simpl; [done|]. case_bool_decide; [done|]. by destruct (split_after s c).
Qed.

Lemma concat_split_after s c : concat_str (split_after s c) = s.
Proof.
  induction s as [|d s IH]; simpl; [done|].
  pose proof (split_after_nonempty s c).
  case_bool_decide; [simpl; by rewrite str_app_cons, str_app_nil_l, IH|].
  destruct (split_after s c) as [|w ws]; [done|]. simpl in *. by rewrite str_app_cons, IH.
Qed.

Lemma concat_str_app ws vs : concat_str (ws ++ vs) = concat_str ws +:+ concat_str vs.
Proof. induction ws as [|w ws IH]; simpl; [done|]. by rewrite IH, str_app_assoc. Qed.

(** ** Replacing, mapping, trimming *)

(** [bytes.Replace(s, old, new, 1)] for a non-empty [old] *)
Definition replace_first (s old new : string) : string :=
  match index s old with
  | Some i => str_take i s +:+ new +:+ str_drop (i + slen old) s
  | None => s
  end.

Fixpoint str_map (f : ascii → ascii) (s : string) : string :=
  match s with
  | "" => ""
  | String c s => String (f c) (str_map f s)
  end.

(** [strings.ReplaceAll(s, a, b)] for one-byte [a] and [b] *)
Definition replace_byte (a b : ascii) (s : string) : string :=
  str_map (λ c, if bool_decide (c = a) then b else c) s.

Fixpoint str_rev_onto (s acc : string) : string :=
  match s with
  | "" => acc
  | String c s => str_rev_onto s (String c acc)
  end.
Definition str_rev (s : string) : string := str_rev_onto s "".

(** [strings.TrimLeft(s, cutset)] for an ASCII cutset *)
Fixpoint trim_left (s cutset : string) : string :=
  match s with
  | "" => ""
  | String c s' => if occurs c cutset then trim_left s' cutset else s
  end.

(** [strings.TrimRight(s, cutset)] for an ASCII cutset *)
Definition trim_right (s cutset : string) : string :=
  str_rev (trim_left (str_rev s) cutset).

Definition byte (c : ascii) : N := N_of_ascii c.
Definition in_range (lo hi : N) (c : ascii) : bool := (lo <=? byte c)%N && (byte c <=? hi)%N.
Definition is_ascii (c : ascii) : bool := (byte c <? 128)%N.
Fixpoint all_bytes (f : ascii → bool) (s : string) : bool :=
  match s with
  | "" => true
  | String c s => f c && all_bytes f s
  end.

(** The white space of [unicode.IsSpace], by the bytes of its UTF-8 encoding:
    one byte; U+0085 and U+00A0; U+1680, U+2000..U+200A, U+2028, U+2029,
    U+202F, U+205F and U+3000. *)
Definition space1 (c : ascii) : bool := in_range 9 13 c || bool_decide (byte c = 32)%N.
Definition space2 (c d : ascii) : bool :=
  bool_decide (byte c = 194)%N && (bool_decide (byte d = 133)%N || bool_decide (byte d = 160)%N).
Definition space3 (c d e : ascii) : bool :=
  match byte c, byte d with
  | 225, 154 => bool_decide (byte e = 128)
  | 226, 128 => in_range 128 138 e || bool_decide (byte e = 168)
                || bool_decide (byte e = 169) || bool_decide (byte e = 175)
  | 226, 129 => bool_decide (byte e = 159)
  | 227, 128 => bool_decide (byte e = 128)
  | _, _ => false
  end%N.

Fixpoint trim_space_left (s : string) : string :=
  match s with
  | "" => ""
  | String c s1 =>
      if space1 c then trim_space_left s1 else
      match s1 with
      | "" => s
      | String d s2 =>
          if space2 c d then trim_space_left s2 else
          match s2 with
          | "" => s
          | String e s3 => if space3 c d e then trim_space_left s3 else s
          end
      end
  end.

(** The same on a reversed string, whose encodings read backwards. *)
Fixpoint trim_space_back (s : string) : string :=
  match s with
  | "" => ""
  | String c s1 =>
      if space1 c then trim_space_back s1 else
      match s1 with
      | "" => s
      | String d s2 =>
          if space2 d c then trim_space_back s2 else
          match s2 with
          | "" => s
          | String e s3 => if space3 e d c then trim_space_back s3 else s
          end
      end
  end.

(** [strings.TrimSpace(s)] *)
Definition trim_space (s : string) : string :=
  str_rev (trim_space_back (str_rev (trim_space_left s))).

(** ** Case

    [strings.ToLower] and [strings.ToUpper] have a path of their own for ASCII
    text; other text goes through the Unicode tables. *)
Class GoUnicode := {
  uni_lower : string → string;
  uni_upper : string → string
}.

Definition lower_byte (c : ascii) : ascii :=
  if in_range 65 90 c then ascii_of_N (byte c + 32) else c.
Definition upper_byte (c : ascii) : ascii :=
  if in_range 97 122 c then ascii_of_N (byte c - 32) else c.
Definition to_lower `{GoUnicode} (s : string) : string :=
  if all_bytes is_ascii s then str_map lower_byte s else uni_lower s.
Definition to_upper `{GoUnicode} (s : string) : string :=
  if all_bytes is_ascii s then str_map upper_byte s else uni_upper s.

(** ** Numbers *)

Definition digit_val (c : ascii) : option Z :=
  if in_range 48 57 c then Some (Z.of_N (byte c) - 48)%Z
  else if in_range 97 122 c then Some (Z.of_N (byte c) - 87)%Z
  else if in_range 65 90 c then Some (Z.of_N (byte c) - 55)%Z
  else None.

Fixpoint digits_onto (base : Z) (acc : Z) (s : string) : option Z :=
  match s with
  | "" => Some acc
  | String c s =>
      match digit_val c with
      | Some d => if (d <? base)%Z then digits_onto base (acc * base + d)%Z s else None
      | None => None
      end
  end.

(** [strconv.ParseInt(s, base, 64)]; [None] stands for a syntax or range
    error. [strconv.Atoi] is base 10 on a 64-bit platform. *)
Definition parse_int (base : Z) (s : string) : option Z :=
  let signed (neg : bool) (r : string) : option Z :=
    match r with
    | "" => None
    | _ =>
        n ← digits_onto base 0 r;
        if neg then guard (n ≤ 2 ^ 63)%Z;; Some (- n)%Z
        else guard (n < 2 ^ 63)%Z;; Some n
    end in
  match s with
  | "" => None
  | String c r =>
      if bool_decide (c = "+"%char) then signed false r
      else if bool_decide (c = "-"%char) then signed true r
      else signed false s
  end.
Definition atoi : string → option Z := parse_int 10.

(** [strconv.Itoa] and the verb [%d] *)
Definition itoa (z : Z) : string := pretty z.

Definition is_digit (c : ascii) : bool := in_range 48 57 c.

Lemma all_bytes_pretty_go x s :
  all_bytes is_digit s = true → all_bytes is_digit (pretty_N_go x s) = true.
Proof.
  revert s. induction (N.lt_wf_0 x) as [x _ IH]; intros s Hs.
  destruct (decide (0 < x)%N) as [Hx|Hx].
  - rewrite pretty_N_go_step by done. apply IH; [by apply N.div_lt|].
    simpl. rewrite Hs, andb_true_r. unfold pretty_N_char. by repeat case_match.
  - by replace x with 0%N by lia.
Qed.

Lemma digit_val_pretty x : (x < 10)%N → digit_val (pretty_N_char x) = Some (Z.of_N x).
Proof.
  intros Hx.
  assert (x = 0 ∨ x = 1 ∨ x = 2 ∨ x = 3 ∨ x = 4 ∨ x = 5 ∨ x = 6 ∨ x = 7 ∨ x = 8 ∨ x = 9)%N
    as Hc by lia.
  by repeat (destruct Hc as [->|Hc]; [done|]); subst x.
Qed.

Lemma digits_onto_pretty_go x s :
  digits_onto 10 0 (pretty_N_go x s) = digits_onto 10 (Z.of_N x) s.
Proof.
  revert s. induction (N.lt_wf_0 x) as [x _ IH]; intros s.
  destruct (decide (0 < x)%N) as [Hx|Hx].
  - rewrite pretty_N_go_step by done. rewrite IH by (by apply N.div_lt).
    assert (x `mod` 10 < 10)%N by (by apply N.mod_lt).
    simpl. rewrite digit_val_pretty by done.
    destruct (Z.ltb_spec (Z.of_N (x `mod` 10)) 10); [|lia].
    f_equal. pose proof (N.div_mod x 10). lia.
  - by replace x with 0%N by lia.
Qed.

Lemma digits_onto_pretty_N (x : N) : digits_onto 10 0 (pretty x) = Some (Z.of_N x).
Proof.
  unfold pretty, pretty_N. case_decide as Hx; [by subst|].
  by rewrite digits_onto_pretty_go.
Qed.

Lemma pretty_N_digits (x : N) :
  ∃ c s, pretty x = String c s ∧ all_bytes is_digit (String c s) = true.
Proof.
  assert (all_bytes is_digit (pretty x) = true) as Hd.
  { unfold pretty, pretty_N. case_decide; [done|]. by apply all_bytes_pretty_go. }
  destruct (pretty x) as [|c s] eqn:E; [|eauto].
  pose proof (digits_onto_pretty_N x) as Hp. rewrite E in Hp. simpl in Hp.
  injection Hp as Hp. replace x with 0%N in E by lia. discriminate.
Qed.

(** A digit is not a sign. *)
Lemma digit_not_sign c :
  is_digit c = true → c ≠ "+"%char ∧ c ≠ "-"%char.
Proof. intros H. split; intros ->; discriminate. Qed.

Lemma parse_int_unsigned base c s :
  c ≠ "+"%char → c ≠ "-"%char →
  parse_int base (String c s) =
    (n ← digits_onto base 0 (String c s); guard (n < 2 ^ 63)%Z;; Some n).
Proof. intros ??. unfold parse_int. by rewrite !bool_decide_eq_false_2. Qed.

(** [strconv.ParseInt] reads back what [%d] prints. *)
Lemma parse_int_itoa z : in_s 64 z → parse_int 10 (itoa z) = Some z.
Proof.
  intros [Hlo Hhi]. unfold itoa. destruct z as [|p|p].
  - done.
  - change (pretty (Z.pos p)) with (pretty (N.pos p)).
    destruct (pretty_N_digits (N.pos p)) as (c & s & E & Hd).
    pose proof (digits_onto_pretty_N (N.pos p)) as Hp. rewrite E in *.
    simpl in Hd. apply andb_true_iff in Hd as [Hc _].
    destruct (digit_not_sign c Hc).
    rewrite parse_int_unsigned, Hp by done. simpl. by rewrite option_guard_True.
  - change (pretty (Z.neg p)) with ("-" +:+ pretty (N.pos p)).
    destruct (pretty_N_digits (N.pos p)) as (c & s & E & Hd).
    pose proof (digits_onto_pretty_N (N.pos p)) as Hp. rewrite E in *.
    rewrite str_app_cons, str_app_nil_l. cbn [parse_int].
    rewrite bool_decide_eq_false_2, bool_decide_eq_true_2 by done.
    rewrite Hp. simpl. rewrite option_guard_True by lia. done.
Qed.

Lemma digit_val_range c d : digit_val c = Some d → (0 ≤ d < 36)%Z.
Proof.
  unfold digit_val, in_range. repeat case_match; intros; simplify_eq;
    repeat match goal with H : _ && _ = true |- _ => apply andb_true_iff in H as [?%N.leb_le ?%N.leb_le] end;
    lia.
Qed.

(** The value of [n] digits is below [base ^ n]. *)
Lemma digits_onto_range base acc s v :
  (0 < base)%Z → (0 ≤ acc)%Z → digits_onto base acc s = Some v →
  (acc * base ^ Z.of_nat (slen s) ≤ v < (acc + 1) * base ^ Z.of_nat (slen s))%Z.
Proof.
  intros Hb. revert acc. induction s as [|c s IH]; intros acc Hacc Hv.
  - simpl in *. simplify_eq. lia.
  - simpl in Hv. destruct (digit_val c) as [d|] eqn:Hd; [|done].
    apply digit_val_range in Hd. destruct (Z.ltb_spec d base); [|done].
    apply IH in Hv; [|nia]. simpl slen. rewrite Nat2Z.inj_succ, Z.pow_succ_r by lia.
    set (P := (base ^ Z.of_nat (slen s))%Z) in *.
    assert (0 < P)%Z by (apply Z.pow_pos_nonneg; lia). nia.
Qed.

#[export] Hint Resolve has_prefix_app : thp.

(** Case tables for concrete inputs: no byte above 127 changes case. *)
Definition demo_unicode : GoUnicode := {| uni_lower := λ s, s; uni_upper := λ s, s |}.
