(* ===== verification/GoUrl.v ===== *)
(** * Go's [net/url] query and path escaping, and [filepath.Clean]

    The functions of the Go standard library through which the program reads
    the query of a request, escapes a path and normalises the path of a
    modifier. *)

From S2P Require Import Prelude GoStrings.

(** ** URLs

    The fields of [url.URL] the program reads or writes; [Path] is decoded. *)
Record URL := mkURL { url_path : string; url_raw_query : string }.

Definition hex_val (c : ascii) : option N :=
  match digit_val c with
  | Some d => if (d <? 16)%Z then Some (Z.to_N d) else None
  | None => None
  end.

(** [url.QueryUnescape] *)
Fixpoint query_unescape (s : string) : option string :=
  match s with
  | "" => Some ""
  | String c s1 =>
      if bool_decide (c = "%"%char) then
        match s1 with
        | String h (String l s2) =>
            h ← hex_val h; l ← hex_val l; r ← query_unescape s2;
            Some (String (ascii_of_N (h * 16 + l)) r)
        | _ => None
        end
      else
        r ← query_unescape s1;
        Some (String (if bool_decide (c = "+"%char) then " "%char else c) r)
  end.

(** One [&]-separated piece of a query, by [url.ParseQuery]: pieces with a
    semicolon, empty pieces and pieces that do not unescape are skipped. *)
Definition query_pair (piece : string) : option (string * string) :=
  if occurs ";" piece then None
  else if bool_decide (piece = "") then None
  else
    let '(k, v) := match cut piece "=" with Some kv => kv | None => (piece, "") end in
    k ← query_unescape k; v ← query_unescape v; Some (k, v).

Definition parse_query (raw : string) : list (string * string) :=
  omap query_pair (split raw "&").

(** [url.Query().Get(key)]: the first value of the key, or [""] *)
Definition query_get (u : URL) (key : string) : string :=
  match filter (λ kv, kv.1 = key) (parse_query (url_raw_query u)) with
  | kv :: _ => kv.2
  | [] => ""
  end.

(** [url.PathEscape] *)
Definition path_safe (c : ascii) : bool :=
  in_range 48 57 c || in_range 65 90 c || in_range 97 122 c || occurs c "-_.~$&+:=@".
Definition hex_digit (n : N) : ascii :=
  ascii_of_N (if (n <? 10)%N then 48 + n else 55 + n).
Fixpoint path_escape (s : string) : string :=
  match s with
  | "" => ""
  | String c s =>
      if path_safe c then String c (path_escape s)
      else String "%" (String (hex_digit (byte c / 16))
                      (String (hex_digit (byte c mod 16)) (path_escape s)))
  end.

(** ** [filepath.Clean] on a rooted path

    Elements are processed left to right on a stack: empty elements and [.]
    are dropped, [..] removes the element before it and is dropped at the
    root. *)
Definition clean_push (stack : list string) (e : string) : list string :=
  if bool_decide (e = "") || bool_decide (e = ".") then stack
  else if bool_decide (e = "..") then tail stack
  else e :: stack.

Definition clean_elems (s : string) : list string :=
  reverse (foldl clean_push [] (split s "/")).

Definition filepath_clean (s : string) : string := "/" +:+ join "/" (clean_elems s).

(** An element a cleaned path may contain. *)
Definition plain_elem (e : string) : Prop :=
  e ≠ "" ∧ e ≠ "." ∧ e ≠ ".." ∧ occurs "/" e = false.

Lemma clean_push_plain stack e :
  occurs "/" e = false → Forall plain_elem stack → Forall plain_elem (clean_push stack e).
Proof.
  intros He Hs. unfold clean_push.
  repeat case_bool_decide; simpl; try done.
  - by destruct Hs.
  - by constructor.
Qed.

Lemma clean_fold_plain es stack :
  Forall (λ e, occurs "/" e = false) es → Forall plain_elem stack →
  Forall plain_elem (foldl clean_push stack es).
Proof.
  intros Hes. revert stack. induction Hes as [|e es He Hes IH]; intros stack Hs; simpl; [done|].
  apply IH. by apply clean_push_plain.
Qed.

Lemma clean_elems_plain s : Forall plain_elem (clean_elems s).
Proof.
  unfold clean_elems. apply Forall_reverse, clean_fold_plain; [|done].
  apply Forall_forall. intros e He. by eapply split_no_sep.
Qed.

Lemma clean_fold_id es stack :
  Forall plain_elem es → foldl clean_push stack es = reverse es ++ stack.
Proof.
  intros Hes. revert stack.
  induction Hes as [|e es (? & ? & ? & _) Hes IH]; intros stack; simpl; [done|].
  rewrite IH. unfold clean_push. rewrite !bool_decide_eq_false_2 by done. simpl.
  by rewrite reverse_cons, <-app_assoc.
Qed.

(** The elements of a cleaned path are the elements it was printed from. *)
Lemma split_clean es :
  Forall plain_elem es →
  split ("/" +:+ join "/" es) "/" = match es with [] => [""; ""] | _ => "" :: es end.
Proof.
  intros Hes. destruct es as [|e es]; [done|].
  rewrite str_app_cons, str_app_nil_l. change (String "/" ?s) with ("" +:+ String "/" s).
  rewrite split_app by done. f_equal. apply split_join; [done|].
  eapply Forall_impl; [exact Hes|]. by intros ? (? & ? & ? & ?).
Qed.

Lemma clean_elems_clean s : clean_elems (filepath_clean s) = clean_elems s.
Proof.
  unfold filepath_clean. pose proof (clean_elems_plain s) as Hp.
  set (es := clean_elems s) in *. unfold clean_elems.
  rewrite split_clean by done. destruct es as [|e es]; [done|].
  change (foldl clean_push [] ("" :: e :: es)) with (foldl clean_push [] (e :: es)).
  rewrite clean_fold_id, app_nil_r by done. by rewrite reverse_involutive.
Qed.

(** [filepath.Clean] is idempotent. *)
Lemma filepath_clean_idem s : filepath_clean (filepath_clean s) = filepath_clean s.
Proof. unfold filepath_clean at 1. by rewrite clean_elems_clean. Qed.

Lemma filepath_clean_rooted s : has_prefix (filepath_clean s) "/" = true.
Proof. apply has_prefix_app. Qed.
