(* ===== verification/ServicesConfig.v ===== *)
(** * services/services_config.go

    The services configuration: a map from an edge type ([default], a modifier
    name, or [<modifier>-<role>]) to the settings of the service behind it.
    Go ranges over a map in an unspecified order; every definition that ranges
    takes the order as an argument, and [ranges] says which orders are
    possible. *)

From S2P Require Import Prelude.

(** The two string types of the configuration keep any string of the YAML
    file; the program compares them with these constants. *)
Definition Hash : string := "Hash".
Definition NodeHash : string := "NodeHash".
Definition Kubernetes : string := "Kubernetes".
Definition Environment : string := "Environment".

Record ServiceConfig := mkServiceConfig {
  cfg_Name : string;
  Distribution : string;
  EndpointsProvider : string;
  PreferLocalNode : bool;
  Headers : gmap string string
}.

#[export] Instance ServiceConfig_eq_dec : EqDecision ServiceConfig.
Proof. solve_decision. Defined.

Abbreviation ServicesConfig := (gmap string ServiceConfig).

(** [order] is an order in which Go may range over the map [m]. *)
Definition ranges {A} (m : gmap string A) (order : list string) : Prop :=
  order ≡ₚ (map_to_list m).*1.

Definition GetMods (order : list string) : list string :=
  filter (λ k, k ≠ "default") order.

Definition GetMod (s : ServicesConfig) (name : string) : option ServiceConfig := s !! name.

Fixpoint GetDefault (s : ServicesConfig) (order : list string) : option ServiceConfig :=
  match order with
  | [] => None
  | k :: ks => if decide (k = "default") then s !! k else GetDefault s ks
  end.

(** The loop of [LoadServicesConfigFromYAML]; a YAML [null] entry is a nil
    pointer, whose dereference panics. *)
Definition fill_defaults (c : ServiceConfig) : ServiceConfig :=
  mkServiceConfig (cfg_Name c)
    (if decide (Distribution c = "") then Hash else Distribution c)
    (if decide (EndpointsProvider c = "") then Kubernetes else EndpointsProvider c)
    (PreferLocalNode c) (Headers c).

Fixpoint load_loop (order : list string) (m : gmap string (option ServiceConfig))
  : outcome (gmap string (option ServiceConfig)) :=
  match order with
  | [] => Ok m
  | k :: ks =>
      match m !! k with
      | Some (Some c) => load_loop ks (<[k := Some (fill_defaults c)]> m)
      | Some None => Panic "invalid memory address or nil pointer dereference"
      | None => load_loop ks m
      end
  end.

(** Reading the file and decoding YAML are not code of the program. *)
Definition LoadServicesConfigFromYAML
    (read_file : string → outcome string)
    (unmarshal : string → outcome (gmap string (option ServiceConfig)))
    (order : gmap string (option ServiceConfig) → list string)
    (filename : string) : outcome (gmap string (option ServiceConfig)) :=
  if decide (filename = "") then Err (ErrNew "no config file provided") else
  data ← read_file filename;
  s ← unmarshal data;
  load_loop (order s) s.

(** ** Ranging *)

Lemma ranges_elem {A} (m : gmap string A) order k :
  ranges m order → k ∈ order ↔ is_Some (m !! k).
Proof.
  intros Hr. rewrite (Permutation_elem_of _ _ k Hr).
  rewrite list_elem_of_fmap. split.
  - intros ([k' v] & -> & H). apply elem_of_map_to_list in H. simpl. eauto.
  - intros [v Hv]. exists (k, v). by rewrite elem_of_map_to_list.
Qed.

Lemma ranges_NoDup {A} (m : gmap string A) order : ranges m order → NoDup order.
Proof. unfold ranges. intros ->. apply NoDup_fst_map_to_list. Qed.

Lemma ranges_canonical {A} (m : gmap string A) : ranges m (map_to_list m).*1.
Proof. by unfold ranges. Qed.

Lemma GetMods_elem (s : ServicesConfig) order t :
  ranges s order → t ∈ GetMods order ↔ t ≠ "default" ∧ is_Some (s !! t).
Proof.
  intros Hr. unfold GetMods. by rewrite list_elem_of_filter, (ranges_elem s).
Qed.

(** ** Loading *)

Definition load_entry (e : option ServiceConfig) : option ServiceConfig := fill_defaults <$> e.

Lemma load_loop_spec order (m m' : gmap string (option ServiceConfig)) :
  NoDup order →
  load_loop order m = Ok m' ↔
  (∀ k, k ∈ order → m !! k ≠ Some None) ∧
  (∀ k, m' !! k = if decide (k ∈ order) then load_entry <$> m !! k else m !! k).
Proof.
  intros Hnd. revert m. induction Hnd as [|k ks Hk Hnd IH]; intros m; cbn [load_loop].
  - split.
    + intros [= <-]. split; [set_solver|]. intros k. case_decide; [set_solver|done].
    + intros [_ H]. f_equal. apply map_eq. intros k. rewrite H.
      case_decide; [set_solver|done].
  - assert (∀ (o : option (option ServiceConfig)) j, m !! k = o → o ≠ Some None →
      (∀ m1 : gmap string (option ServiceConfig), m1 !! j = (if decide (k = j) then load_entry <$> o else m !! j) →
      (if decide (j ∈ ks) then load_entry <$> m1 !! j else m1 !! j)
      = (if decide (j ∈ k :: ks) then load_entry <$> m !! j else m !! j))) as Hstep.
    { intros o j Ho Hne m1 ->. destruct (decide (k = j)) as [->|Hkj].
      - rewrite decide_False by done. rewrite decide_True by (by left). by rewrite Ho.
      - destruct (decide (j ∈ ks)); [rewrite decide_True by (by right)|
          rewrite decide_False by (rewrite elem_of_cons; naive_solver)]; done. }
    destruct (m !! k) as [[c|]|] eqn:Hmk.
    + rewrite IH. apply Morphisms_Prop.and_iff_morphism.
      * split; intros H j Hj.
        -- apply elem_of_cons in Hj as [->|Hj]; [by rewrite Hmk|].
           specialize (H j Hj). by rewrite lookup_insert_ne in H by (by intros ->).
        -- rewrite lookup_insert_ne by (by intros ->). apply H. by right.
      * apply forall_proper; intros j.
        erewrite (Hstep (Some (Some c)) j); [done|done|done|].
        rewrite lookup_insert. by case_decide.
    + split; [done|]. intros [H _]. exfalso. apply (H k); [by left|done].
    + rewrite IH. apply Morphisms_Prop.and_iff_morphism.
      * split; intros H j Hj; [|apply H; by right].
        apply elem_of_cons in Hj as [->|Hj]; [by rewrite Hmk|auto].
      * apply forall_proper; intros j.
        erewrite (Hstep None j); [done|done|done|]. case_decide; [by subst|done].
Qed.

Lemma fill_defaults_idem c : fill_defaults (fill_defaults c) = fill_defaults c.
Proof. destruct c; unfold fill_defaults; simpl; repeat case_decide; congruence. Qed.
