(* ===== verification/UrlParser.v ===== *)
(** * services/url_parser.go

    A request path [/<hash or mod>/<path>~<mod>[:<extra>]/<rest>~...] is split
    into a [Source].  [extractMod] cuts the rightmost [~] segment whose type is
    a configured modifier; [Parse] then strips the remaining ones to find the
    origin path. *)

From S2P Require Import Prelude GoStrings GoUrl ServicesConfig.

Record Mod := mkMod {
  mod_Type : string;
  mod_Path : string;
  mod_Extra : string;
  mod_Name : string
}.

Record Source := mkSource {
  src_Type : string;
  src_Name : string;
  InfoHash : string;
  src_Path : string;
  OriginPath : string;
  Token : string;
  ApiKey : string;
  Query : string;
  src_Mod : option Mod
}.

#[export] Instance Mod_eq_dec : EqDecision Mod.
Proof. solve_decision. Defined.
#[export] Instance Source_eq_dec : EqDecision Source.
Proof. solve_decision. Defined.

Definition GetKey (s : Source) : string :=
  let key := InfoHash s +:+ src_Type s in
  match src_Mod s with
  | Some m => key +:+ src_Path s +:+ mod_Type m +:+ mod_Extra m
  | None => key
  end.

Definition GetEdgeType (s : Source) : string :=
  match src_Mod s with Some m => mod_Type m | None => src_Type s end.

Definition GetEdgeName (s : Source) : string :=
  match src_Mod s with Some m => mod_Name m | None => src_Name s end.

(** ** Hashes *)

(** The character class [[0-9a-f]]. *)
Definition hash_byte (c : ascii) : bool := in_range 48 57 c || in_range 97 102 c.

Fixpoint hash_run (s : string) : nat :=
  match s with
  | "" => 0
  | String c s => if hash_byte c then S (hash_run s) else 0
  end.

(** [regexp.MatchString("[0-9a-f]{5,40}", hash)]: the expression has no
    anchors, so it matches at any position that starts five hash bytes. *)
Fixpoint checkHash (hash : string) : bool :=
  (5 <=? hash_run hash) ||
  match hash with
  | "" => false
  | String _ s => checkHash s
  end.

(** ** Modifiers *)

(** The loop over [GetMods()] that both functions run: the first modifier
    equal to [t] in iteration order. *)
Definition match_mod (order : list string) (t : string) : option string :=
  snd <$> list_find (λ v, t = v) (GetMods order).

(** The fields the loop of [extractMod] leaves behind. *)
Record found := mkFound {
  f_newPath : string;
  f_p : list string;
  f_t : string;
  f_e : string;
  f_name : string
}.

(** The first two string slices of an iteration: [p] and [t] before the colon
    is split off. *)
Definition seg_parts (last : string) : list string := split_n2 last "/".
Definition seg_head (last : string) : string := default "" (head (seg_parts last)).

Section parser.
Context (configs : ServicesConfig).

(** The [for] loop of [extractMod]; [orders k] is the order in which the
    [k]-th call of [GetMods] ranges, [e] the variable of the source, which an
    iteration assigns only when its segment has a colon.  [index] decreases at
    every iteration, so [S index] is enough fuel. *)
Fixpoint extract_loop (fuel : nat) (orders : nat → list string) (path : string)
    (index : nat) (e : string) : outcome (option found) :=
  match fuel with
  | 0 => Panic "out of fuel"
  | S fuel =>
      match last_index (str_take index path) "~" with
      | None => Ok None
      | Some index =>
          let first := str_take index path in
          let last := str_drop (index + 1) path in
          let p := seg_parts last in
          let t := seg_head last in
          let ee := split_n2 t ":" in
          let '(t, e) := match ee with [t; e] => (t, e) | _ => (t, e) end in
          match match_mod (orders fuel) t with
          | Some v =>
              match GetMod configs v with
              | Some c => Ok (Some (mkFound first p t e (cfg_Name c)))
              | None => Panic "invalid memory address or nil pointer dereference"
              end
          | None => extract_loop fuel orders path index e
          end
      end
  end.

Definition extractMod (orders : nat → list string) (path : string)
  : outcome (string * option Mod) :=
  if negb (occurs "~" path) then Ok (path, None) else
  r ← extract_loop (S (slen path)) orders path (slen path) "";
  match r with
  | None => Ok (path, None)
  | Some f =>
      let modPath := "/" +:+ match f_p f with [_; rest] => rest | _ => "" end in
      let modPath := filepath_clean modPath in
      Ok (f_newPath f, Some (mkMod (f_t f) modPath (f_e f) (f_name f)))
  end.

(** The second loop of [Parse]; every iteration shortens [originPath]. *)
Fixpoint origin_loop (fuel : nat) (orders : nat → nat → list string) (originPath : string)
  : outcome string :=
  match fuel with
  | 0 => Panic "out of fuel"
  | S fuel =>
      r ← extractMod (orders fuel) originPath;
      match r with
      | (originPath, None) => Ok originPath
      | (originPath, Some _) => origin_loop fuel orders originPath
      end
  end.

(** The orders of the map iterations of one call of [Parse]: of its own call
    of [GetMods], of the first call of [extractMod] and of those of the loop. *)
Record parse_orders := mkOrders {
  o_type : list string;
  o_first : nat → list string;
  o_loop : nat → nat → list string
}.

Definition Parse (o : parse_orders) (url : URL) : outcome Source :=
  let urlPath := url_path url in
  if decide (urlPath = "") then Err (ErrNew "Empty url") else
  let p := split_n2 (str_drop 1 urlPath) "/" in
  let hash := default "" (head p) in
  if decide (hash = "") then Err (ErrNew "Empty hash") else
  let sourceType := default "default" (match_mod (o_type o) hash) in
  match GetMod configs sourceType with
  | None => Panic "invalid memory address or nil pointer dereference"
  | Some c =>
      let sourceName := cfg_Name c in
      if bool_decide (sourceType = "default") && negb (checkHash hash)
      then Err (ErrNew ("Wrong hash=" +:+ hash)) else
      let path := "/" +:+ match p with [_; rest] => rest | _ => "" end in
      m ← wrap_err ("failed to extract mod from path=" +:+ path)
            (extractMod (o_first o) path);
      let '(newPath, mod_) := m in
      originPath ← wrap_err ("failed to extract mod from path=" +:+ path)
            (origin_loop (S (slen newPath)) (o_loop o) newPath);
      Ok (mkSource sourceType sourceName hash newPath originPath
            (query_get url "token") (query_get url "api-key") (url_raw_query url) mod_)
  end.

(** ** Iteration orders do not matter *)

Definition valid_orders (o : parse_orders) : Prop :=
  ranges configs (o_type o) ∧ (∀ i, ranges configs (o_first o i)) ∧
  (∀ i j, ranges configs (o_loop o i j)).

(** [t] is a configured modifier. *)
Definition is_mod (t : string) : Prop := t ≠ "default" ∧ is_Some (configs !! t).
#[export] Instance is_mod_dec t : Decision (is_mod t).
Proof. unfold is_mod. apply _. Defined.

Lemma match_mod_spec order t :
  ranges configs order → match_mod order t = if decide (is_mod t) then Some t else None.
Proof.
  intros Hr. unfold match_mod. destruct (list_find _ _) as [[i v]|] eqn:Hf.
  - apply list_find_Some in Hf as (Hv & <- & _). apply list_elem_of_lookup_2 in Hv.
    apply (GetMods_elem configs) in Hv; [|done]. by rewrite decide_True.
  - apply list_find_None in Hf. rewrite Forall_forall in Hf.
    rewrite decide_False; [done|]. intros Hm.
    apply (Hf t); [|done]. by apply (GetMods_elem configs).
Qed.

(** ** What [extractMod] finds

    A declarative account of the loop: the segment after the tilde at
    position [i] has a type and perhaps a colon with an extra; the modifier is
    the one of the rightmost segment whose type is configured. *)

Definition tilde_at (path : string) (i : nat) : Prop := String.get i path = Some "~"%char.
Definition seg_type (path : string) (i : nat) : string :=
  default "" (head (split_n2 (seg_head (str_drop (i + 1) path)) ":")).
Definition seg_colon (path : string) (i : nat) : option string :=
  match split_n2 (seg_head (str_drop (i + 1) path)) ":" with [_; e] => Some e | _ => None end.
Definition seg_rest (path : string) (i : nat) : string :=
  match seg_parts (str_drop (i + 1) path) with [_; rest] => rest | _ => "" end.
Definition mod_at (path : string) (i : nat) : Prop :=
  tilde_at path i ∧ is_mod (seg_type path i).
#[export] Instance tilde_at_dec path i : Decision (tilde_at path i).
Proof. unfold tilde_at. apply _. Defined.
#[export] Instance mod_at_dec path i : Decision (mod_at path i).
Proof. unfold mod_at. apply _. Defined.

(** The rightmost position below [n] that starts a modifier. *)
Definition rightmost_mod (path : string) (n : nat) : option nat :=
  last (filter (mod_at path) (seq 0 n)).

(** The extra of the first segment at or after [n] that has a colon. *)
Definition extra_from (path : string) (n : nat) : string :=
  default "" (head (omap (λ i, if decide (tilde_at path i) then seg_colon path i else None)
                      (seq n (slen path - n)))).

Definition mod_from (path : string) (i : nat) : Mod :=
  mkMod (seg_type path i) (filepath_clean ("/" +:+ seg_rest path i)) (extra_from path i)
    (default "" (cfg_Name <$> configs !! seg_type path i)).

Lemma filter_seq_none (P : nat → Prop) `{∀ i, Decision (P i)} a n :
  (∀ i, a ≤ i < a + n → ¬ P i) → filter P (seq a n) = [].
Proof.
  revert a. induction n as [|n IH]; intros a Hn; [done|].
  simpl. rewrite filter_cons_False by (apply Hn; lia). apply IH. intros i Hi. apply Hn. lia.
Qed.

Lemma rightmost_mod_step path i n :
  i < n → (∀ j, i < j < n → ¬ tilde_at path j) →
  rightmost_mod path n = if decide (mod_at path i) then Some i else rightmost_mod path i.
Proof.
  intros Hi Hn. unfold rightmost_mod.
  replace n with (i + S (n - i - 1)) by lia. rewrite seq_app. simpl.
  rewrite filter_app, filter_cons, (filter_seq_none _ (S i)).
  - case_decide; [by rewrite last_snoc|by rewrite app_nil_r].
  - intros j Hj [Ht _]. apply (Hn j); [lia|done].
Qed.

Lemma extra_from_step path i n :
  tilde_at path i → i < n ≤ slen path → (∀ j, i < j < n → ¬ tilde_at path j) →
  extra_from path i = default (extra_from path n) (seg_colon path i).
Proof.
  intros Ht Hi Hn. unfold extra_from.
  replace (slen path - i) with (S (n - i - 1) + (slen path - n)) by lia.
  rewrite seq_app, omap_app. replace (i + S (n - i - 1)) with n by lia.
  simpl. rewrite decide_True by done.
  assert (∀ m a, (∀ j, a ≤ j < a + m → ¬ tilde_at path j) →
    omap (λ i, if decide (tilde_at path i) then seg_colon path i else None) (seq a m) = [])
    as Hnone.
  { induction m as [|m IH]; intros a Ha; [done|]. simpl.
    rewrite decide_False by (apply Ha; lia). apply IH. intros j Hj. apply Ha. lia. }
  rewrite Hnone by (intros j Hj; apply Hn; lia). by destruct (seg_colon path i).
Qed.

Definition found_at (path : string) (i : nat) : found :=
  mkFound (str_take i path) (seg_parts (str_drop (i + 1) path)) (seg_type path i)
    (extra_from path i) (default "" (cfg_Name <$> configs !! seg_type path i)).

(** The type and the extra one iteration computes from the segment after [i]. *)
Lemma seg_split path i e :
  match split_n2 (seg_head (str_drop (i + 1) path)) ":" with
  | [t; e] => (t, e)
  | _ => (seg_head (str_drop (i + 1) path), e)
  end = (seg_type path i, default e (seg_colon path i)).
Proof.
  unfold seg_type, seg_colon, split_n2.
  by destruct (cut (seg_head (str_drop (i + 1) path)) ":") as [[]|].
Qed.

Lemma extract_loop_spec fuel orders path index e :
  (∀ i, ranges configs (orders i)) → index < fuel → index ≤ slen path →
  e = extra_from path index →
  extract_loop fuel orders path index e = Ok (found_at path <$> rightmost_mod path index).
Proof.
  intros Hr. revert index e. induction fuel as [|fuel IH]; intros index e Hf Hi ->; [lia|].
  cbn [extract_loop]. destruct (last_index (str_take index path) "~") as [i|] eqn:Hl.
  - apply last_index_take_Some in Hl as (Hlt & Ht & Hbetween).
    cbv zeta. rewrite seg_split, match_mod_spec by done.
    rewrite (rightmost_mod_step path i index) by done.
    rewrite <-(extra_from_step path i index) by (done || lia).
    destruct (decide (is_mod (seg_type path i))) as [Hm|Hm].
    + rewrite decide_True by done. destruct Hm as [Hd [c Hc]].
      unfold GetMod, found_at. rewrite Hc. simpl. by rewrite Hc.
    + rewrite decide_False by (by intros [_ ?]). apply IH; [lia|lia|done].
  - unfold rightmost_mod. rewrite filter_seq_none; [done|].
    intros i Hlt [Ht _]. apply (last_index_take_None path "~"%char index i); [done|lia|done].
Qed.

Lemma extra_from_end path : extra_from path (slen path) = "".
Proof. unfold extra_from. by rewrite Nat.sub_diag. Qed.

(** The result of [extractMod] in closed form. *)
Lemma extractMod_closed orders path :
  (∀ i, ranges configs (orders i)) →
  extractMod orders path =
    Ok (match rightmost_mod path (slen path) with
        | None => (path, None)
        | Some i => (str_take i path, Some (mod_from path i))
        end).
Proof.
  intros Hr. unfold extractMod. destruct (occurs "~" path) eqn:Ho; cbn [negb].
  - rewrite extract_loop_spec; [|done|lia|lia|by rewrite extra_from_end].
    simpl. by destruct (rightmost_mod path (slen path)).
  - unfold rightmost_mod. rewrite filter_seq_none; [done|].
    intros i _ [Ht _]. apply get_occurs in Ht. congruence.
Qed.

Lemma rightmost_mod_Some path n i :
  rightmost_mod path n = Some i → i < n ∧ mod_at path i ∧ ∀ j, i < j < n → ¬ mod_at path j.
Proof.
  unfold rightmost_mod. induction n as [|n IH]; [done|].
  rewrite seq_S, filter_app, filter_cons, filter_nil. cbn [Nat.add]. case_decide as Hd.
  - rewrite last_snoc. intros [= ->]. split; [lia|]. split; [done|]. intros j Hj. lia.
  - rewrite app_nil_r. intros H. destruct (IH H) as (? & ? & Hj). split; [lia|].
    split; [done|]. intros j ?. destruct (decide (j = n)) as [->|]; [done|]. apply Hj. lia.
Qed.

Lemma rightmost_mod_None path n :
  rightmost_mod path n = None ↔ ∀ j, j < n → ¬ mod_at path j.
Proof.
  unfold rightmost_mod. rewrite last_None. split.
  - intros H j Hj Hm. assert (j ∈ filter (mod_at path) (seq 0 n)) as Hin.
    { apply list_elem_of_filter. split; [done|]. apply elem_of_seq. lia. }
    rewrite H in Hin. by apply elem_of_nil in Hin.
  - intros H. apply filter_seq_none. intros j Hj. apply H. lia.
Qed.

(** ** The origin path *)

Fixpoint strip_mods (fuel : nat) (path : string) : string :=
  match fuel with
  | 0 => path
  | S fuel =>
      match rightmost_mod path (slen path) with
      | None => path
      | Some i => strip_mods fuel (str_take i path)
      end
  end.

Definition origin_of (path : string) : string := strip_mods (S (slen path)) path.

Lemma origin_loop_closed fuel orders path :
  (∀ i j, ranges configs (orders i j)) → slen path < fuel →
  origin_loop fuel orders path = Ok (strip_mods fuel path).
Proof.
  intros Hr. revert path. induction fuel as [|fuel IH]; intros path Hf; [lia|].
  simpl. rewrite extractMod_closed by done. simpl.
  destruct (rightmost_mod path (slen path)) as [i|] eqn:Hm; [|done].
  apply rightmost_mod_Some in Hm as (Hi & _). apply IH. rewrite slen_take. lia.
Qed.

(** Stripping ends at a prefix without modifiers. *)
Lemma strip_mods_spec fuel path :
  slen path < fuel →
  rightmost_mod (strip_mods fuel path) (slen (strip_mods fuel path)) = None ∧
  has_prefix path (strip_mods fuel path) = true ∧
  (has_prefix path "/" = true → has_prefix (strip_mods fuel path) "/" = true).
Proof.
  revert path. induction fuel as [|fuel IH]; intros path Hf; [lia|].
  cbn [strip_mods]. destruct (rightmost_mod path (slen path)) as [i|] eqn:Hm.
  - apply rightmost_mod_Some in Hm as (Hi & [Ht _] & _).
    destruct (IH (str_take i path)) as (H1 & H2 & H3); [rewrite slen_take; lia|].
    split; [done|]. split.
    + apply has_prefix_spec in H2 as [t Ht']. apply has_prefix_spec.
      exists (t +:+ str_drop i path). by rewrite str_app_assoc, <-Ht', take_drop_str.
    + intros Hp. apply H3. apply has_prefix_spec in Hp as [t ->]. rewrite str_app_cons in *.
      destruct i as [|i]; [discriminate Ht|]. done.
  - split; [done|]. split; [|done]. apply has_prefix_spec. exists "". by rewrite str_app_nil_r.
Qed.

(** ** [Parse] in closed form *)

Definition url_hash (url : URL) : string :=
  default "" (head (split_n2 (str_drop 1 (url_path url)) "/")).
Definition url_rest (url : URL) : string :=
  "/" +:+ match split_n2 (str_drop 1 (url_path url)) "/" with [_; rest] => rest | _ => "" end.
Definition source_type (hash : string) : string :=
  if decide (is_mod hash) then hash else "default".

Definition parse_closed (url : URL) : outcome Source :=
  if decide (url_path url = "") then Err (ErrNew "Empty url") else
  if decide (url_hash url = "") then Err (ErrNew "Empty hash") else
  match configs !! source_type (url_hash url) with
  | None => Panic "invalid memory address or nil pointer dereference"
  | Some c =>
      if bool_decide (source_type (url_hash url) = "default") && negb (checkHash (url_hash url))
      then Err (ErrNew ("Wrong hash=" +:+ url_hash url)) else
      let path := url_rest url in
      let '(newPath, m) :=
        match rightmost_mod path (slen path) with
        | None => (path, None)
        | Some i => (str_take i path, Some (mod_from path i))
        end in
      Ok (mkSource (source_type (url_hash url)) (cfg_Name c) (url_hash url) newPath
            (origin_of newPath) (query_get url "token") (query_get url "api-key")
            (url_raw_query url) m)
  end.

Lemma Parse_closed o url : valid_orders o → Parse o url = parse_closed url.
Proof.
  intros (Ht & Hf & Hl). unfold Parse, parse_closed, GetMod. fold (url_hash url).
  rewrite match_mod_spec by done.
  replace (default "default" (if decide (is_mod (url_hash url)) then Some (url_hash url) else None))
    with (source_type (url_hash url)) by (unfold source_type; by case_decide).
  destruct (decide (url_path url = "")); [done|].
  destruct (decide (url_hash url = "")); [done|].
  destruct (configs !! source_type (url_hash url)); [|done].
  destruct (bool_decide _ && _); [done|]. fold (url_rest url).
  rewrite extractMod_closed by done. cbn [wrap_err mbind outcome_bind].
  destruct (match rightmost_mod _ _ with Some _ => _ | None => _ end) as [newPath m].
  cbv beta iota. rewrite origin_loop_closed; [done|done|lia].
Qed.

End parser.

(** ** A modified path with one more segment *)

(** A segment [~t:x/rest]; a token contains none of the separators. *)
Definition token (t : string) : Prop :=
  occurs "/" t = false ∧ occurs ":" t = false ∧ occurs "~" t = false.

Definition segment (t x rest : string) : string := t +:+ ":" +:+ x +:+ "/" +:+ rest.

Section append.
Context (configs : ServicesConfig) (p t x rest : string).
Hypothesis Ht : token t.
Hypothesis Hx : occurs "/" x = false ∧ occurs "~" x = false.
Hypothesis Hrest : occurs "~" rest = false.
Let path := p +:+ String "~" (segment t x rest).

Lemma segment_no_tilde : occurs "~" (segment t x rest) = false.
Proof.
  destruct Ht as (_ & _ & Ht'), Hx as [_ Hx']. unfold segment.
  by rewrite !occurs_app, Ht', Hx', Hrest.
Qed.

Lemma append_drop : str_drop (slen p + 1) path = segment t x rest.
Proof.
  unfold path. replace (slen p + 1) with (slen (p +:+ "~")) by (rewrite slen_app; done).
  replace (p +:+ String "~" (segment t x rest)) with ((p +:+ "~") +:+ segment t x rest)
    by (by rewrite <-str_app_assoc, str_app_cons, str_app_nil_l).
  apply str_drop_app.
Qed.

Lemma append_parts : seg_parts (segment t x rest) = [t +:+ ":" +:+ x; rest].
Proof.
  destruct Ht as (Ht' & _), Hx as [Hx' _]. unfold seg_parts, segment.
  replace (t +:+ ":" +:+ x +:+ "/" +:+ rest) with ((t +:+ ":" +:+ x) +:+ String "/" rest)
    by (by rewrite <-!str_app_assoc, str_app_cons, str_app_nil_l).
  apply split_n2_app. by rewrite !occurs_app, Ht', Hx'.
Qed.

Lemma append_colon : split_n2 (seg_head (str_drop (slen p + 1) path)) ":" = [t; x].
Proof.
  rewrite append_drop. unfold seg_head. rewrite append_parts. simpl.
  replace (t +:+ ":" +:+ x) with (t +:+ String ":" x)
    by (by rewrite str_app_cons, str_app_nil_l).
  apply split_n2_app. by destruct Ht as (_ & ? & _).
Qed.

Lemma append_tilde : tilde_at path (slen p).
Proof. apply get_app_mid. Qed.

Lemma append_last j : slen p < j < slen path → ¬ tilde_at path j.
Proof.
  intros [Hlo _] H. unfold tilde_at, path in H. rewrite get_app_ge in H by lia.
  destruct (j - slen p) as [|k] eqn:E; [lia|]. simpl in H. apply get_occurs in H.
  by rewrite segment_no_tilde in H.
Qed.

Lemma append_mod_from :
  mod_from configs path (slen p) =
    mkMod t (filepath_clean ("/" +:+ rest)) x (default "" (cfg_Name <$> configs !! t)).
Proof.
  assert (slen p < slen path) by (unfold path; rewrite slen_app; simpl; lia).
  unfold mod_from.
  assert (seg_type path (slen p) = t) as -> by (unfold seg_type; by rewrite append_colon).
  assert (seg_rest path (slen p) = rest) as ->
    by (unfold seg_rest; rewrite append_drop; by rewrite append_parts).
  rewrite (extra_from_step path (slen p) (slen path)) by
    (apply append_tilde || lia || apply append_last).
  by unfold seg_colon; rewrite append_colon.
Qed.

Lemma append_rightmost :
  is_mod configs t → rightmost_mod configs path (slen path) = Some (slen p).
Proof.
  intros Hm. assert (slen p < slen path) by (unfold path; rewrite slen_app; simpl; lia).
  rewrite (rightmost_mod_step _ _ (slen p)) by (done || apply append_last).
  rewrite decide_True; [done|]. split; [apply append_tilde|].
  unfold seg_type. by rewrite append_colon.
Qed.
End append.

Lemma checkHash_spec hash :
  checkHash hash = true ↔
  ∃ a m b, hash = a +:+ m +:+ b ∧ slen m = 5 ∧ all_bytes hash_byte m = true.
Proof.
  assert (∀ n s, n ≤ hash_run s ↔ slen (str_take n s) = n ∧ all_bytes hash_byte (str_take n s) = true)
    as Hrun.
  { induction n as [|n IH]; intros [|c s]; simpl; [split; [done|lia]..| |].
    - split; [lia|intros [? _]; lia].
    - destruct (hash_byte c); simpl; [rewrite <-Nat.succ_le_mono, IH; naive_solver lia|].
      split; [lia|naive_solver]. }
  induction hash as [|c s IH].
  - split; [done|]. intros (a & m & b & H & Hl & _).
    assert (slen (a +:+ m +:+ b) = 0) as Hz by (by rewrite <-H).
    rewrite !slen_app in Hz. lia.
  - cbn [checkHash]. rewrite orb_true_iff, Nat.leb_le, Hrun, IH. split.
    + intros [[Hl Ha]|(a & m & b & -> & Hl & Ha)].
      * exists "", (str_take 5 (String c s)), (str_drop 5 (String c s)).
        by rewrite str_app_nil_l, take_drop_str.
      * exists (String c a), m, b. by rewrite str_app_cons.
    + intros (a & m & b & Heq & Hl & Ha). destruct a as [|d a].
      * left. rewrite str_app_nil_l in Heq. rewrite Heq, <-Hl, str_take_app. done.
      * right. rewrite str_app_cons in Heq. injection Heq as -> ->. eauto 10.
Qed.

(** ** Properties *)

(** The Source [Parse] computes does not depend on the orders in which Go
    ranges over the services map. *)
Theorem Parse_order_irrelevant configs o1 o2 url :
  valid_orders configs o1 → valid_orders configs o2 →
  Parse configs o1 url = Parse configs o2 url.
Proof. intros H1 H2. by rewrite !Parse_closed. Qed.

(** C32: with a [default] service configured, [Parse] always returns: it never
    panics and both of its loops end.  It fails exactly on an empty path, on
    an empty hash, and on a first segment that is neither a modifier nor
    accepted by [checkHash]. *)
Theorem Parse_total configs o url :
  valid_orders configs o → is_Some (configs !! "default") →
  match Parse configs o url with
  | Ok s => url_path url ≠ "" ∧ InfoHash s = url_hash url ∧ url_hash url ≠ "" ∧
            (is_mod configs (url_hash url) ∨ checkHash (url_hash url) = true)
  | Err e => (url_path url = "" ∧ e = ErrNew "Empty url") ∨
             (url_path url ≠ "" ∧ url_hash url = "" ∧ e = ErrNew "Empty hash") ∨
             (¬ is_mod configs (url_hash url) ∧ checkHash (url_hash url) = false ∧
              e = ErrNew ("Wrong hash=" +:+ url_hash url))
  | Panic _ => False
  end.
Proof.
  intros Ho [c Hd]. rewrite Parse_closed by done. unfold parse_closed, source_type.
  destruct (decide (url_path url = "")); [by left|].
  destruct (decide (url_hash url = "")); [by right; left|].
  destruct (decide (is_mod configs (url_hash url))) as [Hm|Hm].
  - destruct Hm as [Hne [c' Hc]]. rewrite Hc, bool_decide_eq_false_2 by done. simpl.
    destruct (match rightmost_mod _ _ _ with Some _ => _ | None => _ end).
    repeat split; try done. left. split; [done|by eexists].
  - rewrite Hd. rewrite bool_decide_eq_true_2 by done.
    destruct (checkHash (url_hash url)) eqn:Hh; simpl; [|by right; right].
    destruct (match rightmost_mod _ _ _ with Some _ => _ | None => _ end).
    repeat split; try done. by right.
Qed.

Lemma Parse_no_panic configs o url w :
  valid_orders configs o → is_Some (configs !! "default") → Parse configs o url ≠ Panic w.
Proof.
  intros Ho [c Hd]. rewrite Parse_closed by done. unfold parse_closed, source_type.
  case_decide; [done|]. case_decide; [done|].
  destruct (decide (is_mod configs (url_hash url))) as [[_ [c' Hc]]|_]; [rewrite Hc|rewrite Hd];
    by repeat case_match.
Qed.

Lemma Parse_shape configs o url s :
  valid_orders configs o → Parse configs o url = Ok s →
  has_prefix (src_Path s) "/" = true ∧
  has_prefix (OriginPath s) "/" = true ∧
  has_prefix (src_Path s) (OriginPath s) = true ∧
  has_prefix (url_rest url) (src_Path s) = true ∧
  (∀ i, ¬ mod_at configs (OriginPath s) i) ∧
  match src_Mod s with
  | None => src_Path s = url_rest url
  | Some m => is_mod configs (mod_Type m) ∧
      cfg_Name <$> configs !! mod_Type m = Some (mod_Name m) ∧
      ∃ es, mod_Path m = "/" +:+ join "/" es ∧ Forall plain_elem es
  end.
Proof.
  intros Ho. rewrite Parse_closed by done. unfold parse_closed.
  destruct (decide (url_path url = "")); [done|].
  destruct (decide (url_hash url = "")); [done|].
  destruct (configs !! source_type _ _); [|done]. destruct (bool_decide _ && _); [done|].
  assert (∀ q, has_prefix q "/" = true → has_prefix (origin_of configs q) "/" = true ∧
    has_prefix q (origin_of configs q) = true ∧ ∀ i, ¬ mod_at configs (origin_of configs q) i)
    as Horig.
  { intros q Hq. destruct (strip_mods_spec configs (S (slen q)) q) as (Hn & Hp & Hr); [lia|].
    split; [by apply Hr|]. split; [done|]. rewrite rightmost_mod_None in Hn.
    intros i [Hi Hm]. apply (Hn i); [by eapply get_lt|done]. }
  destruct (rightmost_mod configs (url_rest url) (slen (url_rest url))) as [i|] eqn:Hi;
    intros [= <-]; cbn [src_Path OriginPath src_Mod].
  - apply rightmost_mod_Some in Hi as (Hlt & [Ht Hm] & _).
    assert (has_prefix (str_take i (url_rest url)) "/" = true) as Hp.
    { destruct i as [|i]; [discriminate Ht|done]. }
    destruct (Horig _ Hp) as (? & ? & ?). split; [done|]. split; [done|]. split; [done|].
    split; [apply has_prefix_spec; eexists; symmetry; apply take_drop_str|].
    split; [done|]. split; [done|]. cbn [mod_Type mod_Name mod_Path mod_from].
    split; [destruct Hm as [_ [c Hc]]; by rewrite Hc|].
    eexists; split; [done|apply clean_elems_plain].
  - destruct (Horig (url_rest url)) as (? & ? & ?); [apply has_prefix_app|].
    do 3 (split; [done|]). split; [|done].
    apply has_prefix_spec. exists "". by rewrite str_app_nil_r.
Qed.

(** C10: a parsed Source is well formed.  Its paths are rooted, the origin path
    is a prefix of the path in which no modifier is left, and its modifier is
    configured and carries the configured name and a cleaned, rooted path that
    has no empty, [.] or [..] element. *)
Theorem Parse_well_formed configs o url s :
  valid_orders configs o → Parse configs o url = Ok s →
  has_prefix (src_Path s) "/" = true ∧
  has_prefix (OriginPath s) "/" = true ∧
  has_prefix (src_Path s) (OriginPath s) = true ∧
  has_prefix (url_rest url) (src_Path s) = true ∧
  (∀ i, ¬ mod_at configs (OriginPath s) i) ∧
  match src_Mod s with
  | None => src_Path s = url_rest url
  | Some m => is_mod configs (mod_Type m) ∧
      cfg_Name <$> configs !! mod_Type m = Some (mod_Name m) ∧
      ∃ es, mod_Path m = "/" +:+ join "/" es ∧ Forall plain_elem es
  end.
Proof. apply Parse_shape. Qed.

(** The functional behaviour of [extractMod].  Without a configured
    modifier the path is returned whole; otherwise it is cut at the rightmost
    [~] whose segment type is configured, and the Mod carries that type, the
    cleaned rest of its segment, the configured name, and the extra of the
    first segment at or to the right of the cut that has a colon. *)
Theorem extractMod_spec configs orders path :
  (∀ i, ranges configs (orders i)) →
  (extractMod configs orders path = Ok (path, None) ∧ ∀ i, ¬ mod_at configs path i) ∨
  (∃ i, mod_at configs path i ∧ (∀ j, i < j → ¬ mod_at configs path j) ∧
        extractMod configs orders path = Ok (str_take i path, Some (mod_from configs path i))).
Proof.
  intros Hr. rewrite extractMod_closed by done.
  destruct (rightmost_mod configs path (slen path)) as [i|] eqn:Hi.
  - right. exists i. apply rightmost_mod_Some in Hi as (Hlt & Hm & Hj).
    split; [done|]. split; [|done]. intros j Hlt' [Ht ?].
    apply (Hj j); [|done]. split; [done|]. by eapply get_lt.
  - left. split; [done|]. intros i [Ht ?]. rewrite rightmost_mod_None in Hi.
    apply (Hi i); [by eapply get_lt|done].
Qed.

(** C33: round trip of the chaining syntax.  Appending [~t:x/rest] to any path
    of a valid URL parses to the unmodified path, the modifier [t], the extra
    [x] and the cleaned [/rest]. *)
Theorem Parse_appended_segment configs o hash p t x rest q c :
  valid_orders configs o → configs !! "default" = Some c →
  occurs "/" hash = false → ¬ is_mod configs hash → checkHash hash = true →
  is_mod configs t → token t → occurs "/" x = false ∧ occurs "~" x = false →
  occurs "~" rest = false →
  ∃ s, Parse configs o
         (mkURL ("/" +:+ hash +:+ "/" +:+ p +:+ String "~" (segment t x rest)) q) = Ok s ∧
    InfoHash s = hash ∧ src_Type s = "default" ∧ src_Path s = "/" +:+ p ∧
    src_Mod s = Some (mkMod t (filepath_clean ("/" +:+ rest)) x
                        (default "" (cfg_Name <$> configs !! t))) ∧
    GetEdgeType s = t.
Proof.
  intros Ho Hc Hh Hnm Hck Hm Ht Hx Hr. rewrite Parse_closed by done. unfold parse_closed.
  set (url := mkURL _ _).
  assert (split_n2 (str_drop 1 (url_path url)) "/" = [hash; p +:+ String "~" (segment t x rest)])
    as Hsplit by (by apply split_n2_app).
  assert (url_hash url = hash) as -> by (unfold url_hash; by rewrite Hsplit).
  assert (url_rest url = ("/" +:+ p) +:+ String "~" (segment t x rest)) as ->
    by (unfold url_rest; rewrite Hsplit; by rewrite str_app_assoc).
  destruct (decide (url_path url = "")) as [|_]; [done|].
  rewrite decide_False by (by intros ->).
  unfold source_type. rewrite decide_False, Hc by done. rewrite Hck, andb_false_r.
  rewrite append_rightmost by done. rewrite append_mod_from by done.
  rewrite str_take_app. eexists. split; [done|]. done.
Qed.

(** ** Concrete inputs

    A configuration with two modifiers, and the orders that range over it the
    way [map_to_list] does. *)
Definition demo_service (name : string) : ServiceConfig :=
  mkServiceConfig name Hash Kubernetes false ∅.
Definition demo_config : ServicesConfig :=
  {["default" := demo_service "torrent-web-seeder";
    "hls" := demo_service "content-transcoder";
    "dp" := demo_service "download-progress"]}.
Definition demo_order : list string := ["hls"; "default"; "dp"].
Definition demo_orders : parse_orders :=
  mkOrders demo_order (λ _, demo_order) (λ _ _, demo_order).
Definition canonical_orders : parse_orders :=
  let l := (map_to_list demo_config).*1 in mkOrders l (λ _, l) (λ _ _, l).

Lemma demo_ranges : ranges demo_config demo_order.
Proof.
  apply NoDup_Permutation; [apply (bool_decide_unpack _); by vm_compute|
                            apply NoDup_fst_map_to_list|].
  intros k. unfold demo_order. rewrite !elem_of_cons, elem_of_nil. split.
  - intros Hk. apply (ranges_elem demo_config _ k (ranges_canonical _)).
    by destruct Hk as [->|[->|[->|[]]]]; vm_compute; eexists.
  - intros Hk. apply (ranges_elem demo_config _ k (ranges_canonical _)) in Hk.
    destruct Hk as [v Hv]. unfold demo_config in Hv.
    rewrite !lookup_insert in Hv. repeat case_decide; subst; auto.
    apply lookup_singleton_Some in Hv as [<- _]. auto.
Qed.

Lemma demo_valid : valid_orders demo_config demo_orders.
Proof. split; [|split]; intros; apply demo_ranges. Qed.
Lemma canonical_valid : valid_orders demo_config canonical_orders.
Proof. split; [|split]; intros; apply ranges_canonical. Qed.

Definition demo_hash : string := "08ada5a7a6183aae1e09d831df6748d566095a10".
Definition demo_url : URL :=
  mkURL ("/" +:+ demo_hash +:+ "/Sintel/Sintel.mp4~hls:es,ru/seg/../index.m3u8")
        "token=a.b%2Dc&api-key=k".

Example Parse_order_irrelevant_witness :
  Parse demo_config demo_orders demo_url = Parse demo_config canonical_orders demo_url.
Proof. exact (Parse_order_irrelevant _ _ _ demo_url demo_valid canonical_valid). Defined.

Example Parse_demo :
  Parse demo_config demo_orders demo_url =
    Ok (mkSource "default" "torrent-web-seeder" demo_hash "/Sintel/Sintel.mp4"
          "/Sintel/Sintel.mp4" "a.b-c" "k" "token=a.b%2Dc&api-key=k"
          (Some (mkMod "hls" "/index.m3u8" "es,ru" "content-transcoder"))).
Proof. by vm_compute. Qed.

Example Parse_total_witness :
  ∃ s, Parse demo_config demo_orders demo_url = Ok s ∧ InfoHash s = demo_hash.
Proof.
  assert (is_Some (demo_config !! "default")) as Hd by (vm_compute; eexists; reflexivity).
  pose proof (Parse_total demo_config demo_orders demo_url demo_valid Hd) as H.
  destruct (Parse demo_config demo_orders demo_url) as [s|e|w] eqn:E.
  - exists s. split; [reflexivity|]. destruct H as (_ & H & _). rewrite H. reflexivity.
  - vm_compute in E. discriminate E.
  - destruct H.
Defined.

Example Parse_well_formed_witness :
  ∃ s, Parse demo_config demo_orders demo_url = Ok s ∧ has_prefix (OriginPath s) "/" = true.
Proof.
  destruct (Parse demo_config demo_orders demo_url) as [s|e|w] eqn:E;
    [|vm_compute in E; discriminate E..].
  exists s. split; [reflexivity|].
  exact (proj1 (proj2 (Parse_well_formed demo_config demo_orders demo_url s demo_valid E))).
Defined.

Example extractMod_spec_witness :
  ∃ i, mod_at demo_config "/a~hls/b~dp/c~zz" i ∧ i = 8.
Proof.
  destruct (extractMod_spec demo_config (λ _, demo_order) "/a~hls/b~dp/c~zz"
              (λ _, demo_ranges)) as [[H _]|(i & Hi & _ & H)].
  - vm_compute in H. discriminate H.
  - exists i. split; [exact Hi|].
    assert (extractMod demo_config (λ _, demo_order) "/a~hls/b~dp/c~zz"
            = Ok ("/a~hls/b", Some (mkMod "dp" "/c~zz" "" "download-progress"))) as E
      by (by vm_compute).
    rewrite H in E. injection E as E _ _ _ _.
    pose proof (get_lt _ _ _ (proj1 Hi)) as Hlt. simpl in Hlt.
    pose proof (slen_take i "/a~hls/b~dp/c~zz") as Hl. rewrite E in Hl. simpl in Hl. lia.
Defined.

Example Parse_appended_segment_witness :
  ∃ s, Parse demo_config demo_orders
         (mkURL ("/" +:+ demo_hash +:+ "/" +:+ "a~dp/b" +:+ String "~" (segment "hls" "es" "i.m3u8")) "")
       = Ok s ∧ GetEdgeType s = "hls".
Proof.
  destruct (Parse_appended_segment demo_config demo_orders demo_hash "a~dp/b" "hls" "es" "i.m3u8" ""
              (demo_service "torrent-web-seeder") demo_valid) as (s & Hs & _ & _ & _ & _ & He);
    [by vm_compute|by vm_compute|by vm_compute; intros [_ [? ?]]|by vm_compute
    |split; [done|by vm_compute; eexists]|by vm_compute|by vm_compute|by vm_compute|].
  exists s. split; [exact Hs|exact He].
Defined.

(** The variable that collects the extra is not reset between iterations,
    so a segment that is no modifier gives its extra to the modifier on its
    left: the [hls] segment of this path has no colon, and its Mod gets the
    extra of the unknown segment [~x:12]. *)
Example extractMod_extra_leak :
  extractMod demo_config (λ _, demo_order) "/a~hls/b~x:12/c"
  = Ok ("/a", Some (mkMod "hls" "/b~x:12/c" "12" "content-transcoder")) ∧
  extractMod demo_config (λ _, demo_order) "/a~hls/b~x/c"
  = Ok ("/a", Some (mkMod "hls" "/b~x/c" "" "content-transcoder")).
Proof. by vm_compute. Qed.
