(* ===== verification/GoNet.v ===== *)
(** * Go's [net]: IP addresses and host:port strings

    [net.ParseIP] (the parsers of [net/netip] behind it), [IP.To4],
    [IP.Mask], [IP.String] and [net.SplitHostPort].  An address is its bytes:
    four or sixteen numbers below 256. *)

From S2P Require Import Prelude GoStrings.

Abbreviation IP := (list N).

(** ** Parsing *)

(** One decimal field: one to three digits, no leading zero, at most 255. *)
Definition parse_octet (w : string) : option N :=
  guard (all_bytes is_digit w = true);;
  guard (w ≠ "");;
  guard (¬ (has_prefix w "0" = true ∧ w ≠ "0"));;
  v ← digits_onto 10 0 w;
  guard (v ≤ 255)%Z;; Some (Z.to_N v).

Definition parse_v4 (s : string) : option IP :=
  match split s "." with
  | [a; b; c; d] =>
      a ← parse_octet a; b ← parse_octet b; c ← parse_octet c; d ← parse_octet d;
      Some [a; b; c; d]
  | _ => None
  end.

Definition is_hex (c : ascii) : bool :=
  in_range 48 57 c || in_range 97 102 c || in_range 65 70 c.

(** The longest prefix of hexadecimal digits, and the rest. *)
Fixpoint hex_span (s : string) : string * string :=
  match s with
  | "" => ("", "")
  | String c s' =>
      if is_hex c then let '(h, r) := hex_span s' in (String c h, r) else ("", s)
  end.

(** The loop of [netip.parseIPv6] over the colon-separated groups: [ip] holds
    the bytes so far, [ell] the position of the ellipsis.  The result is the
    bytes and the ellipsis when the whole string was used. *)
Fixpoint v6_groups (fuel : nat) (ip : IP) (ell : option nat) (s : string)
  : option (IP * option nat) :=
  match fuel with
  | 0 => guard (s = "");; Some (ip, ell)
  | S fuel =>
      let '(h, r) := hex_span s in
      guard (0 < slen h ≤ 4);;
      v ← digits_onto 16 0 h;
      let g := Z.to_N v in
      if has_prefix r "." then
        guard (is_Some ell ∨ length ip = 12);;
        guard (length ip + 4 ≤ 16);;
        q ← parse_v4 s; Some (ip ++ q, ell)
      else
        let ip := ip ++ [(g / 256)%N; (g mod 256)%N] in
        match r with
        | "" => Some (ip, ell)
        | String c r =>
            guard (c = ":"%char);; guard (r ≠ "");;
            match r with
            | String ":" r =>
                guard (ell = None);;
                if decide (r = "") then Some (ip, Some (length ip))
                else v6_groups fuel ip (Some (length ip)) r
            | _ => v6_groups fuel ip ell r
            end
        end
  end.

Definition v6_expand (ip : IP) (ell : option nat) : option IP :=
  match ell with
  | None => guard (length ip = 16);; Some ip
  | Some e =>
      guard (length ip < 16);;
      Some (take e ip ++ replicate (16 - length ip) 0%N ++ drop e ip)
  end.

(** Addresses with a zone are refused by [net.ParseIP]. *)
Definition parse_v6 (s : string) : option IP :=
  guard (occurs "%" s = false);;
  if has_prefix s "::" then
    let s := str_drop 2 s in
    if decide (s = "") then Some (replicate 16 0%N)
    else r ← v6_groups 8 [] (Some 0) s; v6_expand r.1 r.2
  else r ← v6_groups 8 [] None s; v6_expand r.1 r.2.

Definition v4_in_v6 : IP := replicate 10 0%N ++ [255; 255]%N.

(** The first of [.], [:] and [%] decides the family. *)
Fixpoint parse_family (whole s : string) : option IP :=
  match s with
  | "" => None
  | String c s =>
      if bool_decide (c = "."%char) then q ← parse_v4 whole; Some (v4_in_v6 ++ q)
      else if bool_decide (c = ":"%char) then parse_v6 whole
      else if bool_decide (c = "%"%char) then None
      else parse_family whole s
  end.

(** [net.ParseIP]: sixteen bytes, [None] for nil *)
Definition ParseIP (s : string) : option IP := parse_family s s.

(** [IP.To4] *)
Definition To4 (ip : IP) : option IP :=
  if decide (length ip = 4) then Some ip
  else guard (length ip = 16 ∧ take 12 ip = v4_in_v6);; Some (drop 12 ip).

(** [ip.Mask(net.CIDRMask(24, 32))] and [ip.Mask(net.CIDRMask(64, 128))] on
    addresses of the mask's length *)
Definition mask24 (ip : IP) : IP := take 3 ip ++ [0%N].
Definition mask64 (ip : IP) : IP := take 8 ip ++ replicate 8 0%N.

(** ** Printing *)

Definition show_v4 (ip : IP) : string := join "." (map pretty ip).

Fixpoint v6_words (ip : IP) : list N :=
  match ip with
  | a :: b :: ip => (a * 256 + b)%N :: v6_words ip
  | _ => []
  end.

Definition hex_char (n : N) : ascii := ascii_of_N (if (n <? 10)%N then 48 + n else 87 + n).
Definition show_hex (w : N) : string :=
  let d k := (w / 16 ^ k mod 16)%N in
  let drop_zeros := fix go (l : list N) :=
    match l with 0%N :: ((_ :: _) as l) => go l | _ => l end in
  foldr (λ n s, String (hex_char n) s) "" (drop_zeros [d 3; d 2; d 1; d 0]%N).

Fixpoint zero_run (ws : list N) : nat :=
  match ws with 0%N :: ws => S (zero_run ws) | _ => 0 end.

(** The first longest run of at least two zero groups: start and length. *)
Fixpoint best_run (i : nat) (ws : list N) (best : nat * nat) : nat * nat :=
  match ws with
  | [] => best
  | _ :: rest =>
      let n := zero_run ws in
      best_run (S i) rest (if (best.2 <? n) && (2 <=? n) then (i, n) else best)
  end.

Definition show_v6 (ip : IP) : string :=
  let ws := v6_words ip in
  let '(start, n) := best_run 0 ws (0, 0) in
  if decide (n = 0) then join ":" (map show_hex ws)
  else join ":" (map show_hex (take start ws)) +:+ "::" +:+
       join ":" (map show_hex (drop (start + n) ws)).

(** [IP.String], of a nil address too *)
Definition IP_String (ip : option IP) : string :=
  match ip with
  | None => "<nil>"
  | Some ip => match To4 ip with Some q => show_v4 q | None => show_v6 ip end
  end.

(** ** [net.SplitHostPort] *)

Definition SplitHostPort (hostport : string) : option (string * string) :=
  i ← last_index hostport ":";
  let port := str_drop (i + 1) hostport in
  if has_prefix hostport "[" then
    e ← index_byte hostport "]";
    guard (e + 1 = i);;
    guard (occurs "[" (str_drop 1 hostport) = false);;
    guard (occurs "]" (str_drop (e + 1) hostport) = false);;
    Some (str_drop 1 (str_take e hostport), port)
  else
    let host := str_take i hostport in
    guard (occurs ":" host = false);;
    guard (occurs "[" hostport = false);;
    guard (occurs "]" hostport = false);;
    Some (host, port).

(** ** Checks against the documentation of the Go functions *)

Example parse_ips :
  map (λ s, IP_String (ParseIP s))
    ["192.168.1.7"; "::ffff:10.0.0.1"; "2001:db8:0:0:1:0:0:1"; "::"; "::1"; "fe80::1%eth0";
     "1.2.3"; "1.2.3.04"; "256.1.1.1"; "1:2:3:4:5:6:7:8"; "1:2:3:4:5:6:7::"; "1::2::3"; "12345::";
     "64:ff9b::1.2.3.4"]
  = ["192.168.1.7"; "10.0.0.1"; "2001:db8::1:0:0:1"; "::"; "::1"; "<nil>";
     "<nil>"; "<nil>"; "<nil>"; "1:2:3:4:5:6:7:8"; "1:2:3:4:5:6:7:0"; "<nil>"; "<nil>";
     "64:ff9b::102:304"].
Proof. by vm_compute. Qed.

Example split_host_ports :
  map SplitHostPort ["1.2.3.4:80"; "[::1]:80"; "::1:80"; "1.2.3.4"; "[::1]"; ":80"; "a[b:80"]
  = [Some ("1.2.3.4", "80"); Some ("::1", "80"); None; None; None; Some ("", "80"); None].
Proof. by vm_compute. Qed.
