(* ===== verification/ClientIP.v ===== *)
(** * Client addresses: [subnetKey] (services/session_limiter.go) and
    [sameSubnet], [parseClientIP], [getIP] (services/web.go)

    Both parts of the program group client addresses by /24 (IPv4) or /64
    (IPv6) subnets. *)

From S2P Require Import Prelude GoStrings GoNet.

(** The common start of [subnetKey] and [parseClientIP]: trim, and drop a port
    when there is one. *)
Definition host_part (s : string) : string :=
  let s := trim_space s in
  match SplitHostPort s with Some (host, _) => host | None => s end.

Definition subnetKey (raw : string) : string :=
  match ParseIP (host_part raw) with
  | None => raw
  | Some ip =>
      match To4 ip with
      | Some v4 => IP_String (Some (mask24 v4))
      | None => IP_String (Some (mask64 ip))
      end
  end.

Definition parseClientIP (s : string) : option IP := ParseIP (host_part s).

(** [IP.Equal] on two masks of the same length *)
Definition sameSubnet (a b : string) : bool :=
  match parseClientIP a, parseClientIP b with
  | Some ipA, Some ipB =>
      match To4 ipA, To4 ipB with
      | Some v4a, Some v4b => bool_decide (mask24 v4a = mask24 v4b)
      | None, None => bool_decide (mask64 ipA = mask64 ipB)
      | _, _ => false
      end
  | _, _ => true
  end.

(** [Web.getIP]: the first entry of X-Forwarded-For, else the peer address *)
Definition getIP (forwarded remoteAddr : string) : string :=
  if decide (forwarded ≠ "") then default "" (head (split forwarded ",")) else remoteAddr.

(** ** The subnet relation *)

Lemma sameSubnet_sym a b : sameSubnet a b = sameSubnet b a.
Proof.
  unfold sameSubnet. destruct (parseClientIP a), (parseClientIP b); try done.
  repeat case_match; try done; apply bool_decide_ext; naive_solver.
Qed.

Lemma sameSubnet_refl a : sameSubnet a a = true.
Proof.
  unfold sameSubnet. destruct (parseClientIP a); [|done].
  case_match; by apply bool_decide_eq_true_2.
Qed.

(** Addresses that parse and belong to the same subnet get the same key. *)
Lemma sameSubnet_subnetKey a b :
  is_Some (parseClientIP a) → is_Some (parseClientIP b) →
  sameSubnet a b = true → subnetKey a = subnetKey b.
Proof.
  unfold sameSubnet, subnetKey, parseClientIP. intros [ipA ->] [ipB ->].
  destruct (To4 ipA), (To4 ipB); try done; rewrite bool_decide_eq_true; by intros ->.
Qed.
