(* ===== verification/FileSizeCache.v ===== *)
(** * services/file_size_cache.go

    A bounded map from [(infoHash, path)] to the upstream size of the file,
    filled from response headers and read by the session limiter.  The mutex
    makes every operation atomic, so each is a function on the state. *)

From S2P Require Import Prelude GoStrings ServicesConfig.

Record FileKey := mkFileKey { fk_InfoHash : string; fk_Path : string }.

Record FileSizeCache := mkCache { capacity : Z; cache_m : gmap string Z }.

Definition NewFileSizeCache (flag : Z) : FileSizeCache :=
  mkCache (if (flag <=? 0)%Z then 100000 else flag)%Z ∅.

Definition cacheKey (infoHash path : string) : string := infoHash +:+ "|" +:+ path.

Definition Get (c : FileSizeCache) (infoHash path : string) : option Z :=
  cache_m c !! cacheKey infoHash path.

(** [for k := range c.m { delete(c.m, k); toEvict--; if toEvict <= 0 {break} }] *)
Fixpoint evict (order : list string) (toEvict : Z) (m : gmap string Z) : gmap string Z :=
  match order with
  | [] => m
  | k :: ks =>
      let m := delete k m in
      let toEvict := (toEvict - 1)%Z in
      if (toEvict <=? 0)%Z then m else evict ks toEvict m
  end.

Definition evict_count (cap : Z) : Z :=
  let n := Z.quot cap 10 in if (n <? 1)%Z then 1%Z else n.

Definition Set_ (c : FileSizeCache) (order : list string) (infoHash path : string) (size_ : Z)
  : FileSizeCache :=
  if (size_ <=? 0)%Z then c else
  let m :=
    if (capacity c <=? Z.of_nat (size (cache_m c)))%Z
    then evict order (evict_count (capacity c)) (cache_m c)
    else cache_m c in
  mkCache (capacity c) (<[cacheKey infoHash path := size_]> m).

(** [ContentLength] is -1 when unknown. *)
Definition SizeFromHeaders (statusCode contentLength : Z) (contentRange : string) : Z :=
  if (statusCode =? 206)%Z then
    match last_index contentRange "/" with
    | Some i =>
        let tail := str_drop (i + 1) contentRange in
        if decide (tail ≠ "*") then
          match parse_int 10 tail with
          | Some n => if (0 <? n)%Z then n else 0%Z
          | None => 0%Z
          end
        else 0%Z
    | None => 0%Z
    end
  else if ((statusCode =? 200) && (0 <? contentLength))%Z then contentLength
  else 0%Z.

(** ** Eviction *)

Lemma evict_subseteq order n m : evict order n m ⊆ m.
Proof.
  revert n m. induction order as [|k ks IH]; intros n m; simpl; [done|].
  case_match; [apply delete_subseteq|].
  etransitivity; [apply IH|apply delete_subseteq].
Qed.

(** Every step of the loop removes one entry. *)
Lemma evict_size order n m :
  NoDup order → (∀ k, k ∈ order → is_Some (m !! k)) → (1 ≤ n)%Z →
  Z.of_nat (size (evict order n m)) =
    (Z.of_nat (size m) - Z.min n (Z.of_nat (length order)))%Z.
Proof.
  intros Hnd. revert n m. induction Hnd as [|k ks Hk Hnd IH]; intros n m Hin Hn.
  - simpl. lia.
  - assert (size m = S (size (delete k m))) as Hs.
    { destruct (Hin k) as [v Hv]; [by left|].
      rewrite <-(insert_delete_id m k v) at 1 by done.
      by rewrite map_size_insert_None by apply lookup_delete_eq. }
    cbn [evict length]. destruct (Z.leb_spec (n - 1) 0).
    + rewrite Hs. lia.
    + rewrite IH; [rewrite Hs; lia| |lia].
      intros j Hj. rewrite lookup_delete_ne by (by intros ->). apply Hin. by right.
Qed.

Lemma evict_size_ranges order n m :
  ranges m order → (1 ≤ n)%Z →
  Z.of_nat (size (evict order n m)) = (Z.of_nat (size m) - Z.min n (Z.of_nat (size m)))%Z.
Proof.
  intros Hr Hn.
  assert (length order = size m) as Hl.
  { unfold ranges in Hr. apply Permutation_length in Hr.
    rewrite Hr, length_fmap. by rewrite length_map_to_list. }
  rewrite evict_size, Hl; [done|by eapply ranges_NoDup| |done].
  intros k. by rewrite (ranges_elem m).
Qed.

Lemma evict_count_pos cap : (1 ≤ evict_count cap)%Z.
Proof. unfold evict_count. case_match; lia. Qed.

Lemma cacheKey_inj h p h' p' :
  occurs "|" h = false → occurs "|" h' = false → cacheKey h p = cacheKey h' p' → h = h' ∧ p = p'.
Proof.
  unfold cacheKey. intros Hh Hh' Heq.
  assert (cut (h +:+ String "|" p) "|" = Some (h, p)) as E1 by (by apply cut_Some).
  assert (cut (h' +:+ String "|" p') "|" = Some (h', p')) as E2 by (by apply cut_Some).
  rewrite !str_app_cons, !str_app_nil_l in Heq. rewrite Heq, E2 in E1. by injection E1.
Qed.

(** ** Histories *)

(** The caches a program can build: any sequence of [Set_], each with any
    possible eviction order. *)
Inductive reachable (flag : Z) : FileSizeCache → Prop :=
  | reach_new : reachable flag (NewFileSizeCache flag)
  | reach_set c order h p n :
      reachable flag c → ranges (cache_m c) order → reachable flag (Set_ c order h p n).

Lemma Set_size c order h p n :
  ranges (cache_m c) order → (1 ≤ capacity c)%Z →
  (Z.of_nat (size (cache_m c)) ≤ capacity c)%Z →
  (Z.of_nat (size (cache_m (Set_ c order h p n))) ≤ capacity c)%Z.
Proof.
  intros Hr Hc Hs. unfold Set_. case_match; [done|]. cbn [cache_m].
  assert (∀ m : gmap string Z, size (<[cacheKey h p:=n]> m) ≤ S (size m)) as Hins.
  { intros m. destruct (m !! cacheKey h p) eqn:E.
    - rewrite map_size_insert_Some; [lia|eauto].
    - by rewrite map_size_insert_None. }
  destruct (Z.leb_spec (capacity c) (Z.of_nat (size (cache_m c)))).
  - pose proof (evict_size_ranges order (evict_count (capacity c)) _ Hr (evict_count_pos _)).
    pose proof (evict_count_pos (capacity c)).
    specialize (Hins (evict order (evict_count (capacity c)) (cache_m c))). lia.
  - specialize (Hins (cache_m c)). lia.
Qed.

(** C40: the cache stays within its capacity for every history of [Set] calls
    and every order of map iteration during eviction, and it holds only
    positive sizes. *)
Theorem cache_bounded flag c :
  reachable flag c →
  (1 ≤ capacity c)%Z ∧ (Z.of_nat (size (cache_m c)) ≤ capacity c)%Z ∧
  map_Forall (λ _ n, (0 < n)%Z) (cache_m c).
Proof.
  induction 1 as [|c order h p n Hreach (Hc & Hs & Hpos) Hr].
  - unfold NewFileSizeCache. simpl. rewrite map_size_empty.
    destruct (Z.leb_spec flag 0); split; try lia; split; try lia; apply map_Forall_empty.
  - assert (capacity (Set_ c order h p n) = capacity c) as -> by (unfold Set_; by case_match).
    split; [done|]. split; [by apply Set_size|].
    unfold Set_. destruct (Z.leb_spec n 0); [done|]. cbn [cache_m].
    apply map_Forall_insert_2; [done|]. case_match; [|done].
    intros j v Hj. eapply (Hpos j), lookup_weaken; [done|apply evict_subseteq].
Qed.

(** What [Set] does to the map: the new entry is stored; another entry is
    kept or evicted but never changed; nothing is evicted below capacity, and
    at capacity exactly [max 1 (capacity / 10)] entries go (all of them when
    there are fewer). *)
Theorem Set_spec c order h p n :
  ranges (cache_m c) order → (0 < n)%Z →
  ∃ m, cache_m (Set_ c order h p n) = <[cacheKey h p := n]> m ∧ m ⊆ cache_m c ∧
    Get (Set_ c order h p n) h p = Some n ∧
    ((Z.of_nat (size (cache_m c)) < capacity c)%Z → m = cache_m c) ∧
    ((capacity c ≤ Z.of_nat (size (cache_m c)))%Z →
       Z.of_nat (size m) = Z.max 0 (Z.of_nat (size (cache_m c)) - evict_count (capacity c))).
Proof.
  intros Hr Hn. unfold Get, Set_. destruct (Z.leb_spec n 0); [lia|]. cbn [cache_m].
  destruct (Z.leb_spec (capacity c) (Z.of_nat (size (cache_m c)))) as [Hle|Hlt].
  - eexists. split; [done|]. split; [apply evict_subseteq|].
    split; [apply lookup_insert_eq|]. split; [lia|]. intros _.
    rewrite evict_size_ranges by (done || apply evict_count_pos). lia.
  - eexists. split; [done|]. split; [done|]. split; [apply lookup_insert_eq|].
    split; [done|lia].
Qed.

(** [SizeFromHeaders] is never negative, trusts Content-Length only on
    status 200, and on a 206 reads the total that a well-formed Content-Range
    prints. *)
Theorem SizeFromHeaders_spec status len range_start n :
  in_s 64 n → (0 < n)%Z →
  SizeFromHeaders 206 len ("bytes " +:+ range_start +:+ "/" +:+ itoa n) = n ∧
  SizeFromHeaders 206 len ("bytes " +:+ range_start +:+ "/*") = 0%Z ∧
  SizeFromHeaders 200 len range_start = Z.max 0 len ∧
  (status ≠ 200 → status ≠ 206 → SizeFromHeaders status len range_start = 0)%Z.
Proof.
  intros Hn Hpos.
  assert (∀ a b, occurs "/" b = false → last_index (a +:+ "/" +:+ b) "/" = Some (slen a)) as Hlast.
  { intros a b Hb. apply last_index_Some. exists a, b. by rewrite str_app_cons, str_app_nil_l. }
  assert (∀ a b, str_drop (slen a + 1) (a +:+ "/" +:+ b) = b) as Hdrop.
  { intros a b. rewrite str_app_assoc. replace (slen a + 1) with (slen (a +:+ "/"))
      by (rewrite slen_app; done). apply str_drop_app. }
  assert (occurs "/" (itoa n) = false) as Hslash.
  { destruct n as [|q|q]; try lia. change (itoa (Z.pos q)) with (pretty (N.pos q)).
    destruct (pretty_N_digits (N.pos q)) as (ch & s & -> & Hd). revert Hd. clear.
    generalize (String ch s). induction s0 as [|e s0 IH]; [done|].
    simpl. intros [He Hs]%andb_true_iff. rewrite IH by done.
    case_bool_decide; [by subst|done]. }
  assert (itoa n ≠ "*") as Hstar.
  { intros E. pose proof (parse_int_itoa n Hn) as Hp. rewrite E in Hp. discriminate. }
  split; [|split; [|split]].
  - unfold SizeFromHeaders. simpl (206 =? 206)%Z. cbv iota.
    rewrite str_app_assoc, Hlast, Hdrop by done.
    rewrite decide_True by done. rewrite parse_int_itoa by done.
    by destruct (Z.ltb_spec 0 n); [|lia].
  - unfold SizeFromHeaders. simpl (206 =? 206)%Z. cbv iota.
    change ("/*") with ("/" +:+ "*").
    rewrite str_app_assoc, Hlast, Hdrop by done. by rewrite decide_False by naive_solver.
  - unfold SizeFromHeaders. simpl. destruct (Z.ltb_spec 0 len); lia.
  - intros H1 H2. unfold SizeFromHeaders.
    apply Z.eqb_neq in H1 as ->. by apply Z.eqb_neq in H2 as ->.
Qed.

(** ** Concrete inputs *)

Example cache_bounded_witness :
  ∃ c, reachable 1 c ∧ size (cache_m c) = 1 ∧ (Z.of_nat (size (cache_m c)) ≤ capacity c)%Z.
Proof.
  set (c1 := Set_ (NewFileSizeCache 1) [] "h" "/a" 10).
  assert (reachable 1 (Set_ c1 ["h|/a"] "h" "/b" 20)) as Hr.
  { apply reach_set; [apply reach_set; [apply reach_new|unfold ranges; by vm_compute]|].
    unfold ranges. by vm_compute. }
  exists (Set_ c1 ["h|/a"] "h" "/b" 20). split; [exact Hr|]. split; [by vm_compute|].
  exact (proj1 (proj2 (cache_bounded 1 _ Hr))).
Defined.

Example Set_spec_witness :
  Get (Set_ (mkCache 1 {["h|/a" := 10%Z]}) ["h|/a"] "h" "/b" 20) "h" "/b" = Some 20%Z.
Proof.
  assert (ranges ({["h|/a" := 10%Z]} : gmap string Z) ["h|/a"]) as Hr
    by (unfold ranges; by vm_compute).
  destruct (Set_spec (mkCache 1 {["h|/a" := 10%Z]}) ["h|/a"] "h" "/b" 20 Hr eq_refl)
    as (m & _ & _ & H & _). exact H.
Defined.

Example SizeFromHeaders_spec_witness :
  SizeFromHeaders 206 5 ("bytes " +:+ "0-4" +:+ "/" +:+ itoa 123) = 123%Z ∧
  SizeFromHeaders 304 5 "0-4" = 0%Z.
Proof.
  destruct (SizeFromHeaders_spec 304 5 "0-4" 123 ltac:(split; lia) ltac:(lia))
    as (H1 & _ & _ & H4).
  split; [exact H1|]. apply H4; lia.
Defined.
