(* ===== verification/SessionLimiter.v ===== *)
(** * services/session_limiter.go

    The limiter keeps, per session, an in-flight total, one [pathState] per
    (infohash, path) and one [hashState] per infohash.  Goroutines hold
    pointers to these objects across calls, so the objects live in a heap and
    are shared by location.  This file has the data, the operations that run
    under one mutex or are one atomic instruction, and [Acquire] and its
    release closure as the sequences of them the source runs;
    [SessionLimiterConc] interleaves the operations of several goroutines. *)

From S2P Require Import Prelude GoStrings ClientIP.

(** ** Configuration *)

(** [SizeLookup]: [None] when the size is unknown *)
Definition SizeLookup : Type := string → string → option Z.

Record SessionLimiter := mkLimiter {
  maxPerPath : Z;
  maxBigFilesPerHash : Z;
  bigFileThreshold : Z;
  lightExts : gset string;
  maxTotal : Z;
  maxIPsPerSession : Z
}.

Definition ipWindow : Z := 60 * 10 ^ 9.

Definition defaultLightExts : string :=
  ".srt,.vtt,.ass,.ssa,.sub,.idx,.smi,.sbv," +:+
  ".m3u8,.mpd," +:+
  ".jpg,.jpeg,.png,.webp,.gif," +:+
  ".json,.xml,.nfo,.txt," +:+
  ".clpi,.mpls,.bdjo,.bdmv".

Definition parse_ext `{GoUnicode} (ext : string) : option string :=
  let ext := trim_space (to_lower ext) in
  if decide (ext = "") then None
  else if has_prefix ext "." then Some ext
  else Some ("." +:+ ext).

Definition parseLightExts `{GoUnicode} (raw : string) : gset string :=
  list_to_set (omap parse_ext (split raw ",")).

Definition isLightExt `{GoUnicode} (l : SessionLimiter) (path : string) : bool :=
  match last_index path "." with
  | Some i => bool_decide (to_lower (str_drop i path) ∈ lightExts l)
  | None => false
  end.

Definition Enabled (l : SessionLimiter) : bool :=
  ((0 <? maxPerPath l) || (0 <? maxBigFilesPerHash l) || (0 <? maxTotal l)
   || (0 <? maxIPsPerSession l))%Z.

(** [lookup] is what [l.sizeLookup] answers at the time of the call, [None]
    when the field is nil. *)
Definition isBigFile `{GoUnicode} (l : SessionLimiter) (lookup : option SizeLookup)
    (infoHash path : string) : bool :=
  if isLightExt l path then false else
  match lookup with
  | Some f =>
      if (0 <? bigFileThreshold l)%Z then
        match f infoHash path with
        | Some size => (bigFileThreshold l <=? size)%Z
        | None => true
        end
      else true
  | None => true
  end.

(** ** Objects *)

Abbreviation loc := positive.

Record pathState := mkPath { conc : Z; ips : gmap string Z }.
Record hashState := mkHash { activeBigPaths : gmap string Z }.
Record sessionState := mkSession {
  total : Z;
  paths : gmap string loc;
  hashes : gmap string loc
}.

(** [sessions] is the map of the limiter itself; the other maps are the
    objects; [next] is the first unused location. *)
Record heap := mkHeap {
  sessions : gmap string loc;
  sess_at : gmap loc sessionState;
  path_at : gmap loc pathState;
  hash_at : gmap loc hashState;
  next : loc
}.

Definition new_session : sessionState := mkSession 0 ∅ ∅.
Definition new_path : pathState := mkPath 0 ∅.
Definition new_hash : hashState := mkHash ∅.
Definition empty_heap : heap := mkHeap ∅ ∅ ∅ ∅ 1.

Definition get_sess (h : heap) (s : loc) : sessionState := default new_session (sess_at h !! s).
Definition get_path (h : heap) (p : loc) : pathState := default new_path (path_at h !! p).
Definition get_hash (h : heap) (x : loc) : hashState := default new_hash (hash_at h !! x).

Definition set_sess (h : heap) (s : loc) (v : sessionState) : heap :=
  mkHeap (sessions h) (<[s := v]> (sess_at h)) (path_at h) (hash_at h) (next h).
Definition set_path (h : heap) (p : loc) (v : pathState) : heap :=
  mkHeap (sessions h) (sess_at h) (<[p := v]> (path_at h)) (hash_at h) (next h).
Definition set_hash (h : heap) (x : loc) (v : hashState) : heap :=
  mkHeap (sessions h) (sess_at h) (path_at h) (<[x := v]> (hash_at h)) (next h).
Definition set_sessions (h : heap) (m : gmap string loc) : heap :=
  mkHeap m (sess_at h) (path_at h) (hash_at h) (next h).
Definition bump (h : heap) : heap :=
  mkHeap (sessions h) (sess_at h) (path_at h) (hash_at h) (next h + 1)%positive.

(** ** Operations under a mutex *)

(** [l.getSession(sessionID)] *)
Definition getSession (h : heap) (sessionID : string) : heap * loc :=
  match sessions h !! sessionID with
  | Some s => (h, s)
  | None =>
      let s := next h in
      (bump (set_sessions (set_sess h s new_session) (<[sessionID := s]> (sessions h))), s)
  end.

(** [s.getPath(key)] *)
Definition getPath (h : heap) (s : loc) (key : string) : heap * loc :=
  let st := get_sess h s in
  match paths st !! key with
  | Some p => (h, p)
  | None =>
      let p := next h in
      (bump (set_path (set_sess h s (mkSession (total st) (<[key := p]> (paths st)) (hashes st)))
               p new_path), p)
  end.

(** [s.getHash(infoHash)] *)
Definition getHash (h : heap) (s : loc) (infoHash : string) : heap * loc :=
  let st := get_sess h s in
  match hashes st !! infoHash with
  | Some x => (h, x)
  | None =>
      let x := next h in
      (bump (set_hash (set_sess h s (mkSession (total st) (paths st) (<[infoHash := x]> (hashes st))))
               x new_hash), x)
  end.

(** [m[k]++] and the read [m[k]] of a Go map of ints *)
Definition map_get (m : gmap string Z) (k : string) : Z := default 0%Z (m !! k).
Definition map_add (m : gmap string Z) (k : string) (d : Z) : gmap string Z :=
  <[k := int64 (map_get m k + d)]> m.

(** [h.tryAddBig(path, maxBig)]; its release closure is [releaseBig] on the
    same object and path. *)
Definition tryAddBig (h : heap) (x : loc) (path : string) (maxBig : Z) : heap * bool :=
  let m := activeBigPaths (get_hash h x) in
  if bool_decide (m !! path = None) && (0 <? maxBig)%Z && (maxBig <=? Z.of_nat (size m))%Z
  then (h, false)
  else (set_hash h x (mkHash (map_add m path 1)), true).

Definition releaseBig (h : heap) (x : loc) (path : string) : heap :=
  let m := map_add (activeBigPaths (get_hash h x)) path (-1) in
  set_hash h x (mkHash (if (map_get m path <=? 0)%Z then delete path m else m)).

(** [p.trackIP(ip, window)] at the time [now], in nanoseconds *)
Definition trackIP (h : heap) (p : loc) (ip : string) (window now : Z) : heap * Z :=
  let st := get_path h p in
  let cutoff := (now - window)%Z in
  let m := filter (λ kt, ¬ (kt.2 < cutoff)%Z) (<[subnetKey ip := now]> (ips st)) in
  (set_path h p (mkPath (conc st) m), Z.of_nat (size m)).

(** [s.total.Add(d)] and [ps.conc.Add(d)], on 32-bit counters *)
Definition addTotal (h : heap) (s : loc) (d : Z) : heap * Z :=
  let st := get_sess h s in
  let v := int32 (total st + d) in
  (set_sess h s (mkSession v (paths st) (hashes st)), v).
Definition addConc (h : heap) (p : loc) (d : Z) : heap :=
  let st := get_path h p in
  set_path h p (mkPath (int32 (conc st + d)) (ips st)).

(** The last section of the release closure, under [l.mu]. *)
Definition dropSession (h : heap) (sessionID : string) (s : loc) : heap :=
  if (total (get_sess h s) <=? 0)%Z then set_sessions h (delete sessionID (sessions h)) else h.

(** ** [Acquire] *)

Record req := mkReq { sessionID : string; infoHash : string; path : string; ip : string }.

Definition pathKey (r : req) : string := infoHash r +:+ "|" +:+ path r.

(** The objects a release closure captures; [tk_big] is the hashState whose
    slot [releaseHash] gives back, [None] for a light file. *)
Record ticket := mkTicket { tk_req : req; tk_s : loc; tk_big : option loc; tk_p : loc }.

Inductive release :=
  | NoRelease
  | Release (t : ticket).

Definition releaseHash (h : heap) (big : option loc) (path : string) : heap :=
  match big with Some x => releaseBig h x path | None => h end.

(** [Acquire] run by one goroutine without interruption: the release closure,
    or the reason of the rejection. *)
Definition Acquire `{GoUnicode} (l : SessionLimiter) (lookup : option SizeLookup) (now : Z)
    (h : heap) (r : req) : heap * (release + string) :=
  if decide (sessionID r = "") then (h, inl NoRelease) else
  let '(h, s) := getSession h (sessionID r) in
  if ((0 <? maxTotal l) && (maxTotal l <=? total (get_sess h s)))%Z then (h, inr "total") else
  let '(h, big) :=
    if isBigFile l lookup (infoHash r) (path r) then
      let '(h, x) := getHash h s (infoHash r) in
      let '(h, ok) := tryAddBig h x (path r) (maxBigFilesPerHash l) in
      (h, if ok then inl (Some x) else inr tt)
    else (h, inl None) in
  match big with
  | inr _ => (h, inr "bigfiles")
  | inl big =>
      let '(h, p) := getPath h s (pathKey r) in
      if ((0 <? maxPerPath l) && (maxPerPath l <=? conc (get_path h p)))%Z
      then (releaseHash h big (path r), inr "path") else
      let '(h, n) :=
        if (0 <? maxIPsPerSession l)%Z && bool_decide (ip r ≠ "")
        then trackIP h p (ip r) ipWindow now else (h, 0%Z) in
      if (0 <? maxIPsPerSession l)%Z && bool_decide (ip r ≠ "") && (maxIPsPerSession l <? n)%Z
      then (releaseHash h big (path r), inr "ips") else
      let '(h, _) := addTotal h s 1 in
      let h := addConc h p 1 in
      (h, inl (Release (mkTicket r s big p)))
  end.

(** The release closure. *)
Definition run_release (h : heap) (t : release) : heap :=
  match t with
  | NoRelease => h
  | Release t =>
      let h := addConc h (tk_p t) (-1) in
      let h := releaseHash h (tk_big t) (path (tk_req t)) in
      let '(h, newTotal) := addTotal h (tk_s t) (-1) in
      if (newTotal <=? 0)%Z then dropSession h (sessionID (tk_req t)) (tk_s t) else h
  end.

(** ** Reading the heap after a write *)

Lemma get_sess_set h s v s' :
  get_sess (set_sess h s v) s' = if decide (s = s') then v else get_sess h s'.
Proof.
  unfold get_sess, set_sess; simpl. destruct (decide (s = s')) as [<-|].
  - by rewrite lookup_insert_eq.
  - by rewrite lookup_insert_ne.
Qed.
Lemma get_path_set h p v p' :
  get_path (set_path h p v) p' = if decide (p = p') then v else get_path h p'.
Proof.
  unfold get_path, set_path; simpl. destruct (decide (p = p')) as [<-|].
  - by rewrite lookup_insert_eq.
  - by rewrite lookup_insert_ne.
Qed.
Lemma get_hash_set h x v x' :
  get_hash (set_hash h x v) x' = if decide (x = x') then v else get_hash h x'.
Proof.
  unfold get_hash, set_hash; simpl. destruct (decide (x = x')) as [<-|].
  - by rewrite lookup_insert_eq.
  - by rewrite lookup_insert_ne.
Qed.

(** The active set of a hashState and its count for a path. *)
Definition active (h : heap) (x : loc) : gmap string Z := activeBigPaths (get_hash h x).

Lemma active_set h x m x' :
  active (set_hash h x (mkHash m)) x' = if decide (x = x') then m else active h x'.
Proof. unfold active. rewrite get_hash_set. by case_decide. Qed.

(** Two heaps with the same counters. *)
Record same_counters (h h' : heap) : Prop := mkSame {
  same_total s : total (get_sess h' s) = total (get_sess h s);
  same_conc p : conc (get_path h' p) = conc (get_path h p);
  same_active x : active h' x = active h x
}.

(** Every location stored in the heap has been allocated, and the location to
    be allocated next counts nothing. *)
Record refs_below (h : heap) : Prop := mkRefs {
  ok_sessions id s : sessions h !! id = Some s → (s < next h)%positive;
  ok_paths s k p : paths (get_sess h s) !! k = Some p → (p < next h)%positive;
  ok_hashes s k x : hashes (get_sess h s) !! k = Some x → (x < next h)%positive
}.

Record heap_ok (h : heap) : Prop := mkHeapOk {
  ok_refs : refs_below h;
  ok_fresh_total : total (get_sess h (next h)) = 0%Z;
  ok_fresh_conc : conc (get_path h (next h)) = 0%Z;
  ok_fresh_active : active h (next h) = ∅
}.

Lemma refs_below_frame h h' :
  sessions h' ⊆ sessions h → next h' = next h →
  (∀ s, paths (get_sess h' s) = paths (get_sess h s) ∧ hashes (get_sess h' s) = hashes (get_sess h s)) →
  refs_below h → refs_below h'.
Proof.
  intros Hsub Hn Href [R1 R2 R3]. split; rewrite Hn.
  - intros id s Hs. eapply R1, lookup_weaken; [exact Hs|done].
  - intros s k p. rewrite (proj1 (Href s)). apply R2.
  - intros s k x. rewrite (proj2 (Href s)). apply R3.
Qed.

Lemma getSession_frame h id h' s :
  heap_ok h → getSession h id = (h', s) →
  same_counters h h' ∧ refs_below h' ∧ (next h ≤ next h')%positive ∧ (s < next h')%positive.
Proof.
  intros [Hr Ht Hc Ha]. destruct Hr as [Hs Hp Hh]. unfold getSession.
  destruct (sessions h !! id) as [s0|] eqn:E; intros [= <- <-].
  { split; [done|]. split; [done|]. eauto with lia. }
  set (h' := bump _).
  assert (∀ s', get_sess h' s' = if decide (next h = s') then new_session else get_sess h s')
    as Hget by exact (get_sess_set h (next h) new_session).
  split; [|split; [|simpl; lia]].
  - split; [intros s'; rewrite Hget; by case_decide; subst|done|done].
  - split; intros *; rewrite ?Hget; simpl; rewrite ?lookup_insert;
      repeat case_decide; intros Hk; simplify_eq/=; try lia;
      (apply Hs in Hk || apply Hp in Hk || apply Hh in Hk); lia.
Qed.

Lemma getPath_frame h s key h' p :
  heap_ok h → getPath h s key = (h', p) →
  same_counters h h' ∧ refs_below h' ∧ (next h ≤ next h')%positive ∧ (p < next h')%positive.
Proof.
  intros [Hr Ht Hc Ha]. destruct Hr as [Hs Hp Hh]. unfold getPath.
  destruct (paths (get_sess h s) !! key) as [p0|] eqn:E; intros [= <- <-].
  { split; [done|]. split; [done|]. eauto with lia. }
  set (v := mkSession _ _ _). set (h' := bump _).
  assert (∀ s', get_sess h' s' = if decide (s = s') then v else get_sess h s')
    as Hget by exact (get_sess_set h s v).
  assert (∀ p', get_path h' p' = if decide (next h = p') then new_path else get_path h p')
    as Hgetp by exact (get_path_set (set_sess h s v) (next h) new_path).
  split; [|split; [|simpl; lia]].
  - split; intros q; [rewrite Hget|rewrite Hgetp|done]; by case_decide; subst.
  - split; intros *; rewrite ?Hget; repeat case_decide; simpl; rewrite ?lookup_insert;
      repeat case_decide; intros Hk; simplify_eq/=; try lia;
      (apply Hs in Hk || apply Hp in Hk || apply Hh in Hk); lia.
Qed.

Lemma getHash_frame h s key h' x :
  heap_ok h → getHash h s key = (h', x) →
  same_counters h h' ∧ refs_below h' ∧ (next h ≤ next h')%positive ∧ (x < next h')%positive.
Proof.
  intros [Hr Ht Hc Ha]. destruct Hr as [Hs Hp Hh]. unfold getHash.
  destruct (hashes (get_sess h s) !! key) as [x0|] eqn:E; intros [= <- <-].
  { split; [done|]. split; [done|]. eauto with lia. }
  set (v := mkSession _ _ _). set (h' := bump _).
  assert (∀ s', get_sess h' s' = if decide (s = s') then v else get_sess h s')
    as Hget by exact (get_sess_set h s v).
  assert (∀ x', active h' x' = if decide (next h = x') then ∅ else active h x')
    as Hgeth by exact (active_set (set_sess h s v) (next h) ∅).
  split; [|split; [|simpl; lia]].
  - split; intros q; [rewrite Hget|done|rewrite Hgeth]; by case_decide; subst.
  - split; intros *; rewrite ?Hget; repeat case_decide; simpl; rewrite ?lookup_insert;
      repeat case_decide; intros Hk; simplify_eq/=; try lia;
      (apply Hs in Hk || apply Hp in Hk || apply Hh in Hk); lia.
Qed.

Lemma trackIP_frame h p ip w t :
  same_counters h (trackIP h p ip w t).1 ∧
  next (trackIP h p ip w t).1 = next h ∧ sessions (trackIP h p ip w t).1 = sessions h ∧
  (∀ s, get_sess (trackIP h p ip w t).1 s = get_sess h s).
Proof.
  unfold trackIP; simpl. split; [|done].
  split; [done| |done]. intros p'. rewrite get_path_set. by case_decide; subst.
Qed.

(** The counters after the atomic adds. *)
Lemma addTotal_total h s d s' :
  total (get_sess (addTotal h s d).1 s') =
    if decide (s = s') then int32 (total (get_sess h s) + d) else total (get_sess h s').
Proof. unfold addTotal; simpl. rewrite get_sess_set. by case_decide. Qed.
Lemma addTotal_refs h s d s' :
  paths (get_sess (addTotal h s d).1 s') = paths (get_sess h s') ∧
  hashes (get_sess (addTotal h s d).1 s') = hashes (get_sess h s').
Proof. unfold addTotal; simpl. rewrite get_sess_set. by case_decide; subst. Qed.
Lemma addConc_conc h p d p' :
  conc (get_path (addConc h p d) p') =
    if decide (p = p') then int32 (conc (get_path h p) + d) else conc (get_path h p').
Proof. unfold addConc. rewrite get_path_set. by case_decide. Qed.

Lemma map_get_add m k d k' :
  map_get (map_add m k d) k' = if decide (k = k') then int64 (map_get m k + d) else map_get m k'.
Proof.
  unfold map_get at 1, map_add. rewrite lookup_insert. by case_decide.
Qed.

Lemma int32_small z : (0 ≤ z < 2 ^ 31)%Z → int32 z = z.
Proof. intros ?. apply wrap_s_small; [lia|]. split; simpl; lia. Qed.
Lemma int64_small z : (-1 ≤ z ≤ 2 ^ 31)%Z → int64 z = z.
Proof. intros ?. apply wrap_s_small; [lia|]. split; simpl; lia. Qed.

(** ** The big-file slots *)

(** A well-formed active set: positive counts, within the cap. *)
Definition slots_ok (maxBig : Z) (m : gmap string Z) : Prop :=
  map_Forall (λ _ n, 0 < n)%Z m ∧ (0 < maxBig → Z.of_nat (size m) ≤ maxBig)%Z.

Lemma map_get_nonneg m k : map_Forall (λ _ n, 0 < n)%Z m → (0 ≤ map_get m k)%Z.
Proof.
  intros H. unfold map_get. destruct (m !! k) eqn:E; simpl; [|lia].
  apply H in E. simpl in E. lia.
Qed.

Lemma tryAddBig_spec h x k maxBig h' :
  slots_ok maxBig (active h x) → (map_get (active h x) k < 2 ^ 31)%Z →
  tryAddBig h x k maxBig = (h', true) →
  active h' x = <[k := (map_get (active h x) k + 1)%Z]> (active h x) ∧
  slots_ok maxBig (active h' x) ∧ h' = set_hash h x (mkHash (active h' x)).
Proof.
  intros [Hpos Hcap] Hlt. pose proof (map_get_nonneg _ k Hpos) as Hnn. unfold tryAddBig.
  change (activeBigPaths (get_hash h x)) with (active h x).
  destruct (bool_decide _ && _ && _) eqn:E; intros [= <-].
  assert (active (set_hash h x (mkHash (map_add (active h x) k 1))) x =
          <[k := (map_get (active h x) k + 1)%Z]> (active h x)) as Ha.
  { rewrite active_set, decide_True by done. unfold map_add. by rewrite int64_small by lia. }
  split; [done|]. split.
  - rewrite Ha. split; [apply map_Forall_insert_2; [lia|done]|]. intros Hm.
    destruct (active h x !! k) as [n|] eqn:Ek.
    + rewrite map_size_insert_Some by eauto. by apply Hcap.
    + rewrite map_size_insert_None by done. rewrite bool_decide_eq_true_2 in E by done.
      simpl in E. apply andb_false_iff in E as [E|E]; lia.
  - rewrite Ha. unfold map_add. by rewrite int64_small by lia.
Qed.

Lemma tryAddBig_false h x k maxBig h' :
  tryAddBig h x k maxBig = (h', false) →
  h' = h ∧ active h x !! k = None ∧ (0 < maxBig ≤ Z.of_nat (size (active h x)))%Z.
Proof.
  unfold tryAddBig. change (activeBigPaths (get_hash h x)) with (active h x).
  destruct (bool_decide _ && _ && _) eqn:E; intros [= <-].
  rewrite !andb_true_iff, bool_decide_eq_true in E. split; [done|]. split; [tauto|lia].
Qed.

Lemma releaseBig_spec h x k maxBig :
  slots_ok maxBig (active h x) → (0 < map_get (active h x) k < 2 ^ 31)%Z →
  (∀ k', map_get (active (releaseBig h x k) x) k' =
     if decide (k = k') then map_get (active h x) k - 1 else map_get (active h x) k')%Z ∧
  slots_ok maxBig (active (releaseBig h x k) x) ∧
  releaseBig h x k = set_hash h x (mkHash (active (releaseBig h x k) x)).
Proof.
  intros [Hpos Hcap] Hn. set (n := map_get (active h x) k) in *.
  assert (active h x !! k = Some n) as Hk.
  { unfold n, map_get in *. by destruct (active h x !! k); [|simpl in Hn; lia]. }
  set (m := if (n - 1 <=? 0)%Z then delete k (active h x) else <[k := (n - 1)%Z]> (active h x)).
  assert (releaseBig h x k = set_hash h x (mkHash m)) as Hrel.
  { unfold releaseBig. change (activeBigPaths (get_hash h x)) with (active h x).
    rewrite map_get_add, decide_True by done. fold n. unfold map_add. fold n.
    rewrite int64_small by lia.
    replace (n + -1)%Z with (n - 1)%Z by lia. unfold m. case_match; [|done]. by rewrite delete_insert_eq. }
  rewrite Hrel, active_set, decide_True by done. split; [|split; [|done]].
  - intros k'. unfold m, map_get. destruct (Z.leb_spec (n - 1) 0).
    + rewrite lookup_delete. case_decide; simpl; [lia|done].
    + rewrite lookup_insert. by case_decide.
  - unfold m. destruct (Z.leb_spec (n - 1) 0); split.
    + by apply map_Forall_delete.
    + intros Hm. specialize (Hcap Hm). rewrite map_size_delete_Some by eauto. lia.
    + apply map_Forall_insert_2; [lia|done].
    + intros Hm. rewrite map_size_insert_Some by eauto. by apply Hcap.
Qed.
