(* ===== verification/SessionLimiterConc.v ===== *)
(** * The session limiter under concurrency

    Every request is a goroutine that runs [Acquire], serves, and runs the
    release closure.  Its program counter [pc] stands between two critical
    sections or atomic instructions of services/session_limiter.go, so one
    [exec] step is one of them and a schedule may interleave goroutines at any
    of these points.  (The last section of the release closure loads the total
    and deletes the session under [l.mu]; an [Add] of another goroutine
    between the two commutes with the deletion, so the section is one step.) *)

From S2P Require Import Prelude GoStrings ClientIP SessionLimiter.

Inductive pc :=
  | Start (r : req)
  | GotSession (r : req) (s : loc)
  | TotalOk (r : req) (s : loc)
  | GotHash (r : req) (s : loc) (x : loc)
  | Slotted (r : req) (s : loc) (big : option loc)
  | GotPath (r : req) (s : loc) (big : option loc) (p : loc)
  | ConcOk (r : req) (s : loc) (big : option loc) (p : loc)
  | Rejecting (r : req) (big : option loc) (why : string)
  | Entering (r : req) (s : loc) (big : option loc) (p : loc)
  | Counted (r : req) (s : loc) (big : option loc) (p : loc)
  | Held (t : ticket)
  | Leaving (t : ticket)
  | Unslotted (t : ticket)
  | Dropping (t : ticket)
  | Done (outcome : option string).

(** The environment of a step: the clock and the size cache. *)
Record env := mkEnv { now : Z; lookup : option SizeLookup }.

Section exec.
Context `{GoUnicode} (l : SessionLimiter).

(** One step of a goroutine; [None] when it has finished. *)
Definition exec (e : env) (c : pc) (h : heap) : option (heap * pc) :=
  match c with
  | Start r =>
      if decide (sessionID r = "") then Some (h, Done None)
      else let '(h, s) := getSession h (sessionID r) in Some (h, GotSession r s)
  | GotSession r s =>
      if ((0 <? maxTotal l) && (maxTotal l <=? total (get_sess h s)))%Z
      then Some (h, Done (Some "total")) else Some (h, TotalOk r s)
  | TotalOk r s =>
      if isBigFile l (lookup e) (infoHash r) (path r)
      then let '(h, x) := getHash h s (infoHash r) in Some (h, GotHash r s x)
      else Some (h, Slotted r s None)
  | GotHash r s x =>
      let '(h, ok) := tryAddBig h x (path r) (maxBigFilesPerHash l) in
      Some (h, if ok then Slotted r s (Some x) else Done (Some "bigfiles"))
  | Slotted r s big =>
      let '(h, p) := getPath h s (pathKey r) in Some (h, GotPath r s big p)
  | GotPath r s big p =>
      if ((0 <? maxPerPath l) && (maxPerPath l <=? conc (get_path h p)))%Z
      then Some (h, Rejecting r big "path") else Some (h, ConcOk r s big p)
  | ConcOk r s big p =>
      if (0 <? maxIPsPerSession l)%Z && bool_decide (ip r ≠ "") then
        let '(h, n) := trackIP h p (ip r) ipWindow (now e) in
        Some (h, if (maxIPsPerSession l <? n)%Z then Rejecting r big "ips" else Entering r s big p)
      else Some (h, Entering r s big p)
  | Rejecting r big why => Some (releaseHash h big (path r), Done (Some why))
  | Entering r s big p => Some ((addTotal h s 1).1, Counted r s big p)
  | Counted r s big p => Some (addConc h p 1, Held (mkTicket r s big p))
  | Held t => Some (addConc h (tk_p t) (-1), Leaving t)
  | Leaving t => Some (releaseHash h (tk_big t) (path (tk_req t)), Unslotted t)
  | Unslotted t =>
      let '(h, newTotal) := addTotal h (tk_s t) (-1) in
      Some (h, if (newTotal <=? 0)%Z then Dropping t else Done None)
  | Dropping t => Some (dropSession h (sessionID (tk_req t)) (tk_s t), Done None)
  | Done _ => None
  end.

(** A system of goroutines over the limiter. *)
Record sys := mkSys { hp : heap; thr : list pc }.

Inductive step : sys → sys → Prop :=
  | step_thread h cs i c e h' c' :
      cs !! i = Some c → exec e c h = Some (h', c') →
      step (mkSys h cs) (mkSys h' (<[i := c']> cs)).

Definition initial (x : sys) : Prop :=
  hp x = empty_heap ∧ Forall (λ c, ∃ r, c = Start r) (thr x).

Inductive reachable : sys → Prop :=
  | reach_init x : initial x → reachable x
  | reach_step x y : reachable x → step x y → reachable y.

(** ** Counting goroutines *)

Definition count (f : pc → bool) (cs : list pc) : Z :=
  foldr (λ c n, Z.b2z (f c) + n)%Z 0%Z cs.

Lemma count_insert f cs i c c' :
  cs !! i = Some c →
  count f (<[i := c']> cs) = (count f cs - Z.b2z (f c) + Z.b2z (f c'))%Z.
Proof.
  revert i. induction cs as [|d cs IH]; intros [|i]; simpl; try done.
  - intros [= ->]. lia.
  - intros Hi. rewrite IH by done. lia.
Qed.

Lemma count_nonneg f cs : (0 ≤ count f cs)%Z.
Proof. induction cs as [|c cs IH]; simpl; [lia|]. destruct (f c); simpl; lia. Qed.

Lemma count_length f cs : (count f cs ≤ Z.of_nat (length cs))%Z.
Proof. induction cs as [|c cs IH]; simpl; [lia|]. destruct (f c); simpl; lia. Qed.

Lemma count_zero f cs : Forall (λ c, f c = false) cs → count f cs = 0%Z.
Proof. induction 1 as [|c cs Hc _ IH]; simpl; [done|]. by rewrite Hc, IH. Qed.

Lemma count_pos f cs i c : cs !! i = Some c → f c = true → (0 < count f cs)%Z.
Proof.
  revert i. induction cs as [|d cs IH]; intros [|i]; simpl; try done.
  - intros [= ->] ->. pose proof (count_nonneg f cs). simpl. lia.
  - intros Hi Hc. specialize (IH i Hi Hc). destruct (f d); simpl; lia.
Qed.

(** What a goroutine contributes to each counter. *)
Definition counts_total (s : loc) (c : pc) : bool :=
  match c with
  | Counted _ s' _ _ => bool_decide (s = s')
  | Held t | Leaving t | Unslotted t => bool_decide (s = tk_s t)
  | _ => false
  end.
Definition counts_conc (p : loc) (c : pc) : bool :=
  match c with Held t => bool_decide (p = tk_p t) | _ => false end.
Definition counts_big (x : loc) (k : string) (c : pc) : bool :=
  match c with
  | Slotted r _ big | GotPath r _ big _ | ConcOk r _ big _ | Rejecting r big _
  | Entering r _ big _ | Counted r _ big _ => bool_decide (big = Some x ∧ path r = k)
  | Held t | Leaving t => bool_decide (tk_big t = Some x ∧ path (tk_req t) = k)
  | _ => false
  end.

(** The locations a goroutine holds. *)
Definition pc_locs (c : pc) : list loc :=
  match c with
  | Start _ | Done _ => []
  | GotSession _ s | TotalOk _ s => [s]
  | GotHash _ s x => [s; x]
  | Slotted _ s big => s :: option_list big
  | GotPath _ s big p | ConcOk _ s big p | Entering _ s big p | Counted _ s big p =>
      s :: p :: option_list big
  | Rejecting _ big _ => option_list big
  | Held t | Leaving t | Unslotted t | Dropping t => tk_s t :: tk_p t :: option_list (tk_big t)
  end.

Lemma counts_total_loc s c : counts_total s c = true → s ∈ pc_locs c.
Proof. destruct c; simpl; try done; rewrite bool_decide_eq_true; intros ->; set_solver. Qed.
Lemma counts_conc_loc p c : counts_conc p c = true → p ∈ pc_locs c.
Proof. destruct c; simpl; try done; rewrite bool_decide_eq_true; intros ->; set_solver. Qed.
Lemma counts_big_loc x k c : counts_big x k c = true → x ∈ pc_locs c.
Proof.
  destruct c; simpl; try done; rewrite bool_decide_eq_true; intros [-> _]; set_solver.
Qed.

(** ** The invariant *)

Record inv (x : sys) : Prop := mkInv {
  inv_total s : total (get_sess (hp x) s) = count (counts_total s) (thr x);
  inv_conc p : conc (get_path (hp x) p) = count (counts_conc p) (thr x);
  inv_big q k : map_get (active (hp x) q) k = count (counts_big q k) (thr x);
  inv_pos q : map_Forall (λ _ n, 0 < n)%Z (active (hp x) q);
  inv_cap q : (0 < maxBigFilesPerHash l → Z.of_nat (size (active (hp x) q)) ≤ maxBigFilesPerHash l)%Z;
  inv_refs : refs_below (hp x);
  inv_locs i c q : thr x !! i = Some c → q ∈ pc_locs c → (q < next (hp x))%positive
}.

Lemma count_fresh f x :
  inv x → (∀ c, f c = true → next (hp x) ∈ pc_locs c) → count f (thr x) = 0%Z.
Proof.
  intros Hi Hf. apply count_zero, Forall_lookup. intros i c Hc.
  destruct (f c) eqn:E; [|done]. apply Hf in E.
  pose proof (inv_locs x Hi i c _ Hc E). lia.
Qed.

Lemma inv_heap_ok x : inv x → heap_ok (hp x).
Proof.
  intros Hi. split.
  - by apply inv_refs.
  - rewrite (inv_total x Hi). apply count_fresh; [done|]. intros c. apply counts_total_loc.
  - rewrite (inv_conc x Hi). apply count_fresh; [done|]. intros c. apply counts_conc_loc.
  - apply map_eq. intros k. rewrite lookup_empty.
    destruct (active (hp x) (next (hp x)) !! k) as [n|] eqn:E; [|done].
    pose proof (inv_pos x Hi _ _ _ E). simpl in *.
    assert (map_get (active (hp x) (next (hp x))) k = n) as Hn by (unfold map_get; by rewrite E).
    rewrite (inv_big x Hi), count_fresh in Hn; [lia|done|].
    intros c. apply counts_big_loc.
Qed.

(** What one step of a goroutine does to the counters. *)
Record delta (h : heap) (c : pc) (h' : heap) (c' : pc) : Prop := mkDelta {
  d_total s : total (get_sess h' s) =
    (total (get_sess h s) - Z.b2z (counts_total s c) + Z.b2z (counts_total s c'))%Z;
  d_conc p : conc (get_path h' p) =
    (conc (get_path h p) - Z.b2z (counts_conc p c) + Z.b2z (counts_conc p c'))%Z;
  d_big q k : map_get (active h' q) k =
    (map_get (active h q) k - Z.b2z (counts_big q k c) + Z.b2z (counts_big q k c'))%Z;
  d_pos q : map_Forall (λ _ n, 0 < n)%Z (active h' q);
  d_cap q : (0 < maxBigFilesPerHash l → Z.of_nat (size (active h' q)) ≤ maxBigFilesPerHash l)%Z;
  d_refs : refs_below h';
  d_next : (next h ≤ next h')%positive;
  d_locs q : q ∈ pc_locs c' → (q < next h')%positive
}.

Lemma delta_inv h cs i c h' c' :
  inv (mkSys h cs) → cs !! i = Some c → delta h c h' c' → inv (mkSys h' (<[i := c']> cs)).
Proof.
  intros Hi Hc D. split; cbn [hp thr].
  - intros s. rewrite (d_total _ _ _ _ D), (count_insert _ _ _ c) by done.
    pose proof (inv_total _ Hi s) as E. simpl in E. lia.
  - intros p. rewrite (d_conc _ _ _ _ D), (count_insert _ _ _ c) by done.
    pose proof (inv_conc _ Hi p) as E. simpl in E. lia.
  - intros q k. rewrite (d_big _ _ _ _ D), (count_insert _ _ _ c) by done.
    pose proof (inv_big _ Hi q k) as E. simpl in E. lia.
  - apply D.
  - apply D.
  - apply D.
  - intros j d q Hj Hq. destruct (decide (i = j)) as [<-|Hij].
    + rewrite list_lookup_insert_eq in Hj by (by eapply lookup_lt_Some).
      injection Hj as <-. by apply D.
    + rewrite list_lookup_insert_ne in Hj by done.
      pose proof (inv_locs _ Hi j d q Hj Hq). pose proof (d_next _ _ _ _ D). simpl in *. lia.
Qed.

(** A step that moves no counter. *)
Lemma delta_quiet h cs i c h' c' :
  inv (mkSys h cs) → cs !! i = Some c →
  same_counters h h' → refs_below h' → (next h ≤ next h')%positive →
  (∀ s, counts_total s c' = counts_total s c) → (∀ p, counts_conc p c' = counts_conc p c) →
  (∀ q k, counts_big q k c' = counts_big q k c) →
  (∀ q, q ∈ pc_locs c' → q ∈ pc_locs c ∨ (q < next h')%positive) →
  delta h c h' c'.
Proof.
  intros Hi Hc [St Sc Sa] Hr Hn Ht Hcc Hb Hl. split; try done.
  - intros s. rewrite St, Ht. lia.
  - intros p. rewrite Sc, Hcc. lia.
  - intros q k. rewrite Sa, Hb. lia.
  - intros q. rewrite Sa. apply (inv_pos _ Hi).
  - intros q. rewrite Sa. apply (inv_cap _ Hi).
  - intros q Hq. destruct (Hl q Hq) as [H1|]; [|done].
    pose proof (inv_locs _ Hi i c q Hc H1). simpl in *. lia.
Qed.

(** ** Every step preserves the invariant *)

(** Unfold the counting predicates of the two program counters of a step. *)
Ltac pcs := cbn [counts_total counts_conc counts_big pc_locs tk_s tk_p tk_big tk_req] in *.

Ltac loc_solver := intros ? ?; set_solver.

Section preserve.
Context (h : heap) (cs : list pc) (i : nat) (c : pc).
Hypothesis Hinv : inv (mkSys h cs).
Hypothesis Hc : cs !! i = Some c.
Hypothesis Hlen : (Z.of_nat (length cs) < 2 ^ 31 - 1)%Z.

Lemma held_loc q : q ∈ pc_locs c → (q < next h)%positive.
Proof. apply (inv_locs _ Hinv i). done. Qed.

Lemma slots_inv x : slots_ok (maxBigFilesPerHash l) (active h x).
Proof. split; [apply (inv_pos _ Hinv)|apply (inv_cap _ Hinv)]. Qed.

Lemma total_bounds s : (Z.b2z (counts_total s c) ≤ total (get_sess h s) < 2 ^ 31 - 1)%Z.
Proof.
  pose proof (inv_total _ Hinv s) as E. simpl in E. rewrite E.
  pose proof (count_length (counts_total s) cs). pose proof (count_nonneg (counts_total s) cs).
  destruct (counts_total s c) eqn:F; simpl; [|lia].
  pose proof (count_pos (counts_total s) cs i c Hc F). lia.
Qed.
Lemma conc_bounds p : (Z.b2z (counts_conc p c) ≤ conc (get_path h p) < 2 ^ 31 - 1)%Z.
Proof.
  pose proof (inv_conc _ Hinv p) as E. simpl in E. rewrite E.
  pose proof (count_length (counts_conc p) cs). pose proof (count_nonneg (counts_conc p) cs).
  destruct (counts_conc p c) eqn:F; simpl; [|lia].
  pose proof (count_pos (counts_conc p) cs i c Hc F). lia.
Qed.
Lemma big_bounds x k : (Z.b2z (counts_big x k c) ≤ map_get (active h x) k < 2 ^ 31 - 1)%Z.
Proof.
  pose proof (inv_big _ Hinv x k) as E. simpl in E. rewrite E.
  pose proof (count_length (counts_big x k) cs). pose proof (count_nonneg (counts_big x k) cs).
  destruct (counts_big x k c) eqn:F; simpl; [|lia].
  pose proof (count_pos (counts_big x k) cs i c Hc F). lia.
Qed.

Lemma exec_delta_quiet h' c' :
  same_counters h h' → refs_below h' → (next h ≤ next h')%positive →
  (∀ s, counts_total s c' = counts_total s c) → (∀ p, counts_conc p c' = counts_conc p c) →
  (∀ q k, counts_big q k c' = counts_big q k c) →
  (∀ q, q ∈ pc_locs c' → q ∈ pc_locs c ∨ (q < next h')%positive) →
  delta h c h' c'.
Proof. by eapply delta_quiet. Qed.

(** The heap is unchanged. *)
Lemma exec_delta_same c' :
  (∀ s, counts_total s c' = counts_total s c) → (∀ p, counts_conc p c' = counts_conc p c) →
  (∀ q k, counts_big q k c' = counts_big q k c) →
  (∀ q, q ∈ pc_locs c' → q ∈ pc_locs c) → delta h c h c'.
Proof.
  intros. apply exec_delta_quiet; try done; [apply (inv_refs _ Hinv)|by auto].
Qed.

Lemma exec_delta_total s d c' :
  (∀ q, counts_conc q c' = counts_conc q c) → (∀ q k, counts_big q k c' = counts_big q k c) →
  (∀ q, q ∈ pc_locs c' → q ∈ pc_locs c) → (-1 ≤ d ≤ 1)%Z →
  (0 ≤ total (get_sess h s) + d)%Z →
  (∀ s', Z.b2z (counts_total s' c') - Z.b2z (counts_total s' c) = if decide (s = s') then d else 0)%Z →
  delta h c (addTotal h s d).1 c'.
Proof.
  intros Hcc Hb Hl Hd Hnn Ht. pose proof (total_bounds s) as Hs.
  split; try (by apply slots_inv); try done.
  - intros s'. rewrite addTotal_total. specialize (Ht s'). case_decide; subst; [|lia].
    rewrite int32_small; lia.
  - intros q. rewrite Hcc. change (get_path (addTotal h s d).1 q) with (get_path h q). lia.
  - intros q k. rewrite Hb. change (active (addTotal h s d).1 q) with (active h q). lia.
  - apply (refs_below_frame h); [done|done|apply addTotal_refs|apply (inv_refs _ Hinv)].
  - intros q Hq. apply held_loc. auto.
Qed.

Lemma exec_delta_conc p d c' :
  (∀ q, counts_total q c' = counts_total q c) → (∀ q k, counts_big q k c' = counts_big q k c) →
  (∀ q, q ∈ pc_locs c' → q ∈ pc_locs c) → (-1 ≤ d ≤ 1)%Z →
  (0 ≤ conc (get_path h p) + d)%Z →
  (∀ p', Z.b2z (counts_conc p' c') - Z.b2z (counts_conc p' c) = if decide (p = p') then d else 0)%Z →
  delta h c (addConc h p d) c'.
Proof.
  intros Ht Hb Hl Hd Hnn Hcc. pose proof (conc_bounds p) as Hs.
  split; try (by apply slots_inv); try done.
  - intros q. rewrite Ht. change (get_sess (addConc h p d) q) with (get_sess h q). lia.
  - intros p'. rewrite addConc_conc. specialize (Hcc p'). case_decide; subst; [|lia].
    rewrite int32_small; lia.
  - intros q k. rewrite Hb. change (active (addConc h p d) q) with (active h q). lia.
  - apply (refs_below_frame h); [done..|apply (inv_refs _ Hinv)].
  - intros q Hq. apply held_loc. auto.
Qed.

(** A release of the big-file slot the goroutine holds, if any. *)
Lemma exec_delta_release big k c' :
  (∀ q, counts_total q c' = counts_total q c) → (∀ q, counts_conc q c' = counts_conc q c) →
  (∀ x k', counts_big x k' c = bool_decide (big = Some x ∧ k = k')) →
  (∀ x k', counts_big x k' c' = false) →
  (∀ q, q ∈ pc_locs c' → q ∈ pc_locs c) →
  delta h c (releaseHash h big k) c'.
Proof.
  intros Ht Hcc Hb Hb' Hl. destruct big as [x|]; simpl.
  - pose proof (big_bounds x k) as Hn. rewrite Hb, bool_decide_eq_true_2 in Hn by done. simpl in Hn.
    destruct (releaseBig_spec h x k (maxBigFilesPerHash l) (slots_inv x)) as (Hg & Hs & Heq); [lia|].
    revert Hg Hs Heq. generalize (active (releaseBig h x k) x). intros m Hg Hs ->.
    assert (∀ q, active (set_hash h x (mkHash m)) q = if decide (x = q) then m else active h q)
      as Ha by (apply active_set).
    split; try done.
    + intros s. rewrite Ht. change (get_sess (set_hash _ _ _) s) with (get_sess h s). lia.
    + intros p. rewrite Hcc. change (get_path (set_hash _ _ _) p) with (get_path h p). lia.
    + intros q k'. rewrite Ha, Hb, Hb'. destruct (decide (x = q)) as [<-|Hq].
      * rewrite Hg. case_decide; subst.
        -- rewrite bool_decide_eq_true_2 by done. simpl. lia.
        -- rewrite bool_decide_eq_false_2 by naive_solver. simpl. lia.
      * rewrite bool_decide_eq_false_2 by naive_solver. simpl. lia.
    + intros q. rewrite Ha. case_decide; [apply Hs|apply slots_inv].
    + intros q. rewrite Ha. case_decide; [apply Hs|apply slots_inv].
    + apply (refs_below_frame h); [done..|apply (inv_refs _ Hinv)].
    + intros q Hq. apply held_loc. auto.
  - apply exec_delta_same; try done. intros q k'. rewrite Hb, Hb'.
    rewrite bool_decide_eq_false_2; [done|naive_solver].
Qed.

(** Steps that only allocate. *)
Lemma exec_delta_alloc h' q0 c' :
  same_counters h h' ∧ refs_below h' ∧ (next h ≤ next h')%positive ∧ (q0 < next h')%positive →
  (∀ s, counts_total s c' = counts_total s c) → (∀ p, counts_conc p c' = counts_conc p c) →
  (∀ q k, counts_big q k c' = counts_big q k c) →
  (∀ q, q ∈ pc_locs c' → q ∈ pc_locs c ∨ q = q0) →
  delta h c h' c'.
Proof.
  intros (H1 & H2 & H3 & H4) Ht Hcc Hb Hl. apply exec_delta_quiet; try done.
  intros q Hq. destruct (Hl q Hq) as [?| ->]; auto.
Qed.

End preserve.

Lemma exec_delta_try h cs i r s x h' :
  inv (mkSys h cs) → cs !! i = Some (GotHash r s x) → (Z.of_nat (length cs) < 2 ^ 31 - 1)%Z →
  tryAddBig h x (path r) (maxBigFilesPerHash l) = (h', true) →
  delta h (GotHash r s x) h' (Slotted r s (Some x)).
Proof.
  intros Hinv Hc Hlen Htry.
  pose proof (big_bounds h cs i _ Hinv Hc Hlen x (path r)) as Hn.
  pose proof (slots_inv h cs Hinv) as slots_inv.
  pose proof (held_loc h cs i _ Hinv Hc) as held_loc.
  destruct (tryAddBig_spec h x (path r) (maxBigFilesPerHash l) h' (slots_inv x))
    as (Ha & Hs & Heq); [lia|done|].
  revert Ha Hs Heq. generalize (active h' x). intros m Hm Hs Hh; subst m h'.
  split; pcs; try done.
  - intros q. change (get_sess (set_hash _ _ _) q) with (get_sess h q). simpl. lia.
  - intros q. change (get_path (set_hash _ _ _) q) with (get_path h q). simpl. lia.
  - intros q k. rewrite active_set. destruct (decide (x = q)) as [<-|Hq].
    + unfold map_get at 1. rewrite lookup_insert. case_decide; subst; simpl.
      * rewrite bool_decide_eq_true_2 by done. simpl. lia.
      * rewrite bool_decide_eq_false_2 by naive_solver. simpl. unfold map_get. lia.
    + rewrite bool_decide_eq_false_2 by naive_solver. simpl. lia.
  - intros q. rewrite active_set. case_decide; [apply Hs|apply slots_inv].
  - intros q. rewrite active_set. case_decide; [apply Hs|apply slots_inv].
  - apply (refs_below_frame h); [done..|apply (inv_refs _ Hinv)].
Qed.

Lemma exec_delta e h cs i c h' c' :
  inv (mkSys h cs) → cs !! i = Some c → (Z.of_nat (length cs) < 2 ^ 31 - 1)%Z →
  exec e c h = Some (h', c') → delta h c h' c'.
Proof.
  intros Hinv Hc Hlen. pose proof (inv_heap_ok _ Hinv) as Hok. cbn [hp] in Hok.
  pose proof (exec_delta_same h cs i c Hinv Hc) as Lsame.
  pose proof (exec_delta_alloc h cs i c Hinv Hc) as Lalloc.
  pose proof (exec_delta_quiet h cs i c Hinv Hc) as Lquiet.
  pose proof (exec_delta_release h cs i c Hinv Hc Hlen) as Lrelease.
  pose proof (exec_delta_total h cs i c Hinv Hc Hlen) as Ltotal.
  pose proof (exec_delta_conc h cs i c Hinv Hc Hlen) as Lconc.
  pose proof (total_bounds h cs i c Hinv Hc Hlen) as Bt.
  pose proof (conc_bounds h cs i c Hinv Hc Hlen) as Bc.
  destruct c as [r|r s|r s|r s x|r s big|r s big p|r s big p|r big why|r s big p|r s big p
                |t|t|t|t|o] eqn:Ec; cbn [exec].
  - case_decide; [intros [= <- <-]; apply Lsame; done|].
    destruct (getSession h (sessionID r)) as [h1 s] eqn:E. intros [= <- <-].
    apply (Lalloc _ s); [by eapply getSession_frame|done..|loc_solver].
  - case_match; intros [= <- <-]; apply Lsame; try done; loc_solver.
  - case_match; [|intros [= <- <-]; apply Lsame; try done; loc_solver].
    destruct (getHash h s (infoHash r)) as [h1 x] eqn:E. intros [= <- <-].
    apply (Lalloc _ x); [by eapply getHash_frame|done..|loc_solver].
  - destruct (tryAddBig _ _ _ _) as [h1 []] eqn:E; intros [= <- <-].
    + by eapply exec_delta_try.
    + apply tryAddBig_false in E as [-> _]. apply Lsame; try done; loc_solver.
  - destruct (getPath h s (pathKey r)) as [h1 p] eqn:E. intros [= <- <-].
    apply (Lalloc _ p); [by eapply getPath_frame|done..|loc_solver].
  - case_match; intros [= <- <-]; apply Lsame; try done; loc_solver.
  - destruct (trackIP_frame h p (ip r) ipWindow (now e)) as (Hsame & Hn & Hss & Hgs).
    case_match; [|intros [= <- <-]; apply Lsame; try done; loc_solver].
    destruct (trackIP _ _ _ _ _) as [h1 n]. cbn [fst] in *. intros [= <- <-].
    assert (refs_below h1) by (apply (refs_below_frame h); [by rewrite Hss|done| |apply Hok];
                               intros s'; by rewrite Hgs).
    case_match; apply Lquiet; try done; try lia; intros q ?; left; set_solver.
  - intros [= <- <-]. apply Lrelease; try done; loc_solver.
  - intros [= <- <-]. pose proof (Bt s) as Hb. pcs. simpl in Hb.
    apply Ltotal; try done; try lia; try loc_solver.
    intros s'. pcs. case_decide; [subst; by rewrite bool_decide_eq_true_2|].
    by rewrite bool_decide_eq_false_2 by congruence.
  - intros [= <- <-]. pose proof (Bc p) as Hb. pcs. simpl in Hb.
    apply Lconc; try done; try lia; try loc_solver.
    intros p'. pcs. case_decide; [subst; by rewrite bool_decide_eq_true_2|].
    by rewrite bool_decide_eq_false_2 by congruence.
  - intros [= <- <-]. pose proof (Bc (tk_p t)) as Hb. pcs.
    rewrite bool_decide_eq_true_2 in Hb by done. simpl in Hb.
    apply Lconc; try done; try lia; try loc_solver.
    intros p'. pcs. case_decide; [subst; by rewrite bool_decide_eq_true_2|].
    by rewrite bool_decide_eq_false_2 by congruence.
  - intros [= <- <-]. apply Lrelease; try done; loc_solver.
  - pose proof (Bt (tk_s t)) as Hb. pcs.
    rewrite bool_decide_eq_true_2 in Hb by done. simpl in Hb.
    assert (∀ d, (∀ s, counts_total s d = false) → (∀ s, counts_conc s d = false) →
      (∀ s k, counts_big s k d = false) → (∀ q, q ∈ pc_locs d → q ∈ pc_locs (Unslotted t)) →
      delta h (Unslotted t) (addTotal h (tk_s t) (-1)).1 d) as Hd.
    { intros d H1 H2 H3 H4. apply Ltotal; try done; try lia.
      intros s'. rewrite H1. pcs. case_decide; [subst; by rewrite bool_decide_eq_true_2|].
      by rewrite bool_decide_eq_false_2 by congruence. }
    destruct (addTotal h (tk_s t) (-1)) as [h1 n]. cbn [fst] in *. intros [= <- <-].
    case_match; apply Hd; try done; loc_solver.
  - intros [= <- <-]. unfold dropSession. apply Lquiet; try done.
    + by case_match.
    + case_match; [|apply Hok]. apply (refs_below_frame h); [|done..|apply Hok].
      simpl. apply delete_subseteq.
    + by case_match.
    + loc_solver.
  - done.
Qed.

Lemma inv_initial x : initial x → inv x.
Proof.
  destruct x as [h cs]. intros [Hh Hs]. simpl in *. subst h.
  assert (∀ f, (∀ r, f (Start r) = false) → count f cs = 0%Z) as Hz.
  { intros f Hf. apply count_zero. eapply Forall_impl; [exact Hs|].
    intros c [r ->]. apply Hf. }
  split; simpl.
  - intros s. by rewrite Hz.
  - intros p. by rewrite Hz.
  - intros q k. by rewrite Hz.
  - intros q. apply map_Forall_empty.
  - intros q Hm. change (active empty_heap q) with (∅ : gmap string Z). rewrite map_size_empty. lia.
  - by split.
  - intros i c q Hc Hq. rewrite Forall_forall in Hs.
    destruct (Hs c (list_elem_of_lookup_2 _ _ _ Hc)) as [r ->]. set_solver.
Qed.

Lemma reachable_length x y : reachable x → step x y → length (thr y) = length (thr x).
Proof. intros _ Hst. destruct Hst. simpl. by rewrite length_insert. Qed.

Lemma reachable_inv x :
  reachable x → (Z.of_nat (length (thr x)) < 2 ^ 31 - 1)%Z → inv x.
Proof.
  induction 1 as [x Hx|x y Hx IH Hst]; [by intros; apply inv_initial|].
  rewrite (reachable_length x y) by done. intros Hl. specialize (IH Hl).
  destruct Hst as [h cs i c e h' c' Hc He]. eapply delta_inv; [done..|].
  by eapply exec_delta.
Qed.

End exec.

(** ** Running a schedule *)

Definition run_one `{GoUnicode} (l : SessionLimiter) (e : env) (i : nat) (x : sys) : option sys :=
  c ← thr x !! i;
  '(h', c') ← exec l e c (hp x);
  Some (mkSys h' (<[i := c']> (thr x))).

Fixpoint run_schedule `{GoUnicode} (l : SessionLimiter) (e : env) (sched : list nat) (x : sys)
  : option sys :=
  match sched with
  | [] => Some x
  | i :: sched => x ← run_one l e i x; run_schedule l e sched x
  end.

Lemma run_schedule_reachable `{GoUnicode} l e sched x y :
  reachable l x → run_schedule l e sched x = Some y → reachable l y.
Proof.
  revert x. induction sched as [|i sched IH]; intros x Hx Hr; simpl in Hr; [by simplify_eq|].
  destruct (run_one l e i x) as [x'|] eqn:E; [|done]. simpl in Hr. apply (IH x'); [|done].
  eapply reach_step; [done|]. unfold run_one in E. destruct x as [h cs]. simpl in E.
  destruct (cs !! i) as [c|] eqn:Hc; [|done]. simpl in E.
  destruct (exec l e c h) as [[h' c']|] eqn:He; simplify_eq/=.
  by eapply step_thread.
Qed.

(** A goroutine is being served between [Acquire] and its release. *)
Definition serving (s : loc) (c : pc) : bool :=
  match c with Held t => bool_decide (s = tk_s t) | _ => false end.

(** ** Properties *)

(** C12: in every interleaving of any number of goroutines, every counter of
    the limiter equals the number of goroutines it is there to count: the
    total of a session, the concurrency of a path, and the in-flight count of
    every active big file (a path is in the active set exactly while a
    goroutine holds a slot for it). *)
Theorem counters_exact `{GoUnicode} l x :
  reachable l x → (Z.of_nat (length (thr x)) < 2 ^ 31 - 1)%Z →
  (∀ s, total (get_sess (hp x) s) = count (counts_total s) (thr x)) ∧
  (∀ p, conc (get_path (hp x) p) = count (counts_conc p) (thr x)) ∧
  (∀ q k, active (hp x) q !! k =
     let n := count (counts_big q k) (thr x) in if (n =? 0)%Z then None else Some n).
Proof.
  intros Hr Hl. pose proof (reachable_inv l x Hr Hl) as Hi.
  split; [apply (inv_total _ _ Hi)|]. split; [apply (inv_conc _ _ Hi)|].
  intros q k. cbv zeta. rewrite <-(inv_big _ _ Hi). unfold map_get.
  destruct (active (hp x) q !! k) as [n|] eqn:E; simpl; [|done].
  pose proof (inv_pos _ _ Hi q k n E). simpl in *. by destruct (Z.eqb_spec n 0); [lia|].
Qed.

(** The slots of one hashState are within the cap. *)
Lemma slots_capped `{GoUnicode} l x q ks :
  reachable l x → (Z.of_nat (length (thr x)) < 2 ^ 31 - 1)%Z →
  (0 < maxBigFilesPerHash l)%Z → NoDup ks →
  (∀ k, k ∈ ks → ∃ i c, thr x !! i = Some c ∧ counts_big q k c = true) →
  (Z.of_nat (length ks) ≤ maxBigFilesPerHash l)%Z.
Proof.
  intros Hr Hl Hm Hnd Hks. pose proof (reachable_inv l x Hr Hl) as Hi.
  pose proof (inv_cap _ _ Hi q Hm) as Hcap.
  assert (ks ⊆ (map_to_list (active (hp x) q)).*1) as Hsub.
  { intros k Hk. destruct (Hks k Hk) as (i & c & Hc & Hb).
    pose proof (count_pos _ _ i c Hc Hb) as Hpos. rewrite <-(inv_big _ _ Hi) in Hpos.
    unfold map_get in Hpos. destruct (active (hp x) q !! k) as [n|] eqn:E; [|simpl in Hpos; lia].
    apply list_elem_of_fmap. exists (k, n). by rewrite elem_of_map_to_list. }
  apply NoDup_submseteq, submseteq_length in Hsub; [|done].
  rewrite length_fmap, length_map_to_list in Hsub. lia.
Qed.

(** C4: in every interleaving, the number of distinct big files that goroutines
    hold slots for on one [hashState] never exceeds the cap.  Checking and
    reserving are one critical section of the hashState, so no race can overrun
    it.  A hashState belongs to one session object: once a session has been
    dropped under a goroutine that had already looked it up, a second object of
    the same id has a hashState of its own ([big_cap_races]). *)
Theorem big_files_cap `{GoUnicode} l x q ks :
  reachable l x → (Z.of_nat (length (thr x)) < 2 ^ 31 - 1)%Z →
  (0 < maxBigFilesPerHash l)%Z → NoDup ks →
  (∀ k, k ∈ ks → ∃ i c, thr x !! i = Some c ∧ counts_big q k c = true) →
  (Z.of_nat (length ks) ≤ maxBigFilesPerHash l)%Z.
Proof. apply slots_capped. Qed.

(** When every goroutine has finished, every counter is back to zero and
    no big-file slot is held: neither a rejection nor a release leaks. *)
Theorem quiescent_zero `{GoUnicode} l x :
  reachable l x → (Z.of_nat (length (thr x)) < 2 ^ 31 - 1)%Z →
  (∀ i c, thr x !! i = Some c → ∃ o, c = Done o) →
  (∀ s, total (get_sess (hp x) s) = 0%Z) ∧ (∀ p, conc (get_path (hp x) p) = 0%Z) ∧
  (∀ q, active (hp x) q = ∅).
Proof.
  intros Hr Hl Hd. pose proof (reachable_inv l x Hr Hl) as Hi.
  assert (∀ f, (∀ o, f (Done o) = false) → count f (thr x) = 0%Z) as Hz.
  { intros f Hf. apply count_zero, Forall_lookup. intros i c Hc.
    destruct (Hd i c Hc) as [o ->]. apply Hf. }
  split; [intros s; rewrite (inv_total _ _ Hi); by apply Hz|].
  split; [intros p; rewrite (inv_conc _ _ Hi); by apply Hz|].
  intros q. apply map_eq. intros k. rewrite lookup_empty.
  destruct (active (hp x) q !! k) as [n|] eqn:E; [|done].
  pose proof (inv_pos _ _ Hi q k n E) as Hp. pose proof (inv_big _ _ Hi q k) as Hb.
  unfold map_get in Hb. rewrite E, Hz in Hb by done. simpl in *. lia.
Qed.

(** ** Concrete systems *)

#[local] Existing Instance demo_unicode.

Definition demo_limiter : SessionLimiter :=
  mkLimiter 10 1 0 (parseLightExts defaultLightExts) 1 5.
Definition demo_req (p : string) : req := mkReq "sid" "hash" p "203.0.113.7:4242".
Definition demo_env : env := mkEnv 0 None.
Definition demo_sys (n : nat) : sys := mkSys empty_heap (replicate n (Start (demo_req "/a.mp4"))).

Lemma demo_initial n : reachable demo_limiter (demo_sys n).
Proof.
  apply reach_init. split; [done|]. apply Forall_replicate. by eexists.
Qed.

(** The schedule that runs goroutine [i] for [n] steps. *)
Definition solo (i n : nat) : list nat := replicate n i.

Definition demo_run (n : nat) (sched : list nat) : sys :=
  default (demo_sys n) (run_schedule demo_limiter demo_env sched (demo_sys n)).

Lemma demo_run_reachable n sched :
  is_Some (run_schedule demo_limiter demo_env sched (demo_sys n)) →
  reachable demo_limiter (demo_run n sched).
Proof.
  intros [x Hx]. unfold demo_run. rewrite Hx. simpl.
  eapply run_schedule_reachable; [apply demo_initial|done].
Qed.

(** The total cap is checked and counted in two separate instructions, so
    it does not hold under concurrency.  With a cap of one, two goroutines
    that both pass the check before either counts are served at the same time
    by one session; and a goroutine that got its session before the last
    release deleted it is served beside one whose session was created after,
    both under the same session id. *)
Theorem total_cap_races :
  maxTotal demo_limiter = 1%Z ∧
  (∃ x s, reachable demo_limiter x ∧ count (serving s) (thr x) = 2%Z) ∧
  (∃ x t1 t2, reachable demo_limiter x ∧ thr x !! 1 = Some (Held t1) ∧ thr x !! 2 = Some (Held t2) ∧
     tk_s t1 ≠ tk_s t2 ∧ sessionID (tk_req t1) = sessionID (tk_req t2)).
Proof.
  split; [reflexivity|]. split.
  - exists (demo_run 2 (solo 0 2 ++ solo 1 2 ++ solo 0 7 ++ solo 1 7)), 1%positive.
    split; [|by vm_compute]. apply demo_run_reachable. by vm_compute; eexists.
  - set (sched := solo 0 9 ++ solo 1 1 ++ solo 0 4 ++ solo 1 8 ++ solo 2 9).
    assert (reachable demo_limiter (demo_run 3 sched)) as Hr
      by (apply demo_run_reachable; by vm_compute; eexists).
    eexists (demo_run 3 sched), _, _. split; [exact Hr|].
    split; [by vm_compute|]. split; [by vm_compute|]. split; [|reflexivity]. by vm_compute.
Qed.

(** The big-file cap holds of a session object, not of a session id.  With a
    cap of one big file per torrent, the second goroutine looks its session up
    before the first one's release drops it; the third one then gets a new
    session object, and the two are served two different big files of one
    torrent under one session id. *)
Definition big_limiter : SessionLimiter :=
  mkLimiter 10 1 0 (parseLightExts defaultLightExts) 10 5.
Definition big_sys : sys :=
  mkSys empty_heap [Start (demo_req "/a.mp4"); Start (demo_req "/b.mp4"); Start (demo_req "/c.mp4")].

Theorem big_cap_races :
  maxBigFilesPerHash big_limiter = 1%Z ∧
  ∃ x t1 t2, reachable big_limiter x ∧ thr x !! 1 = Some (Held t1) ∧ thr x !! 2 = Some (Held t2) ∧
    sessionID (tk_req t1) = sessionID (tk_req t2) ∧ infoHash (tk_req t1) = infoHash (tk_req t2) ∧
    path (tk_req t1) ≠ path (tk_req t2) ∧ is_Some (tk_big t1) ∧ is_Some (tk_big t2).
Proof.
  split; [reflexivity|].
  destruct (run_schedule big_limiter demo_env (solo 0 9 ++ solo 1 1 ++ solo 0 4 ++ solo 1 8 ++ solo 2 9)
    big_sys) as [x|] eqn:E; [|by vm_compute in E].
  exists x. do 2 eexists. split.
  { eapply run_schedule_reachable; [|exact E]. apply reach_init. split; [done|].
    repeat constructor; by eexists. }
  vm_compute in E. injection E as <-. split; [reflexivity|]. split; [reflexivity|].
  split; [reflexivity|]. split; [reflexivity|]. split; [by vm_compute|]. split; by eexists.
Qed.

(** Two goroutines in service and a third one rejected. *)
Definition demo_served : sys := demo_run 3 (solo 0 2 ++ solo 1 2 ++ solo 0 7 ++ solo 1 7 ++ solo 2 2).

Lemma demo_served_reachable : reachable demo_limiter demo_served.
Proof. apply demo_run_reachable. by vm_compute; eexists. Qed.

Example counters_exact_witness :
  (∀ s, total (get_sess (hp demo_served) s) = count (counts_total s) (thr demo_served)) ∧
  count (counts_total 1%positive) (thr demo_served) = 2%Z.
Proof.
  split; [|by vm_compute].
  exact (proj1 (counters_exact demo_limiter demo_served demo_served_reachable ltac:(by vm_compute))).
Defined.

Example big_files_cap_witness :
  (Z.of_nat (length ["/a.mp4"]) ≤ maxBigFilesPerHash demo_limiter)%Z.
Proof.
  apply (big_files_cap demo_limiter demo_served 2%positive ["/a.mp4"] demo_served_reachable);
    [by vm_compute|by vm_compute|apply NoDup_singleton|].
  intros k Hk. apply list_elem_of_singleton in Hk as ->.
  exists 0. eexists. split; [by vm_compute|by vm_compute].
Defined.

Example quiescent_zero_witness :
  active (hp (demo_run 1 (solo 0 13))) 2%positive = ∅.
Proof.
  assert (reachable demo_limiter (demo_run 1 (solo 0 13))) as Hr
    by (apply demo_run_reachable; by vm_compute; eexists).
  refine (proj2 (proj2 (quiescent_zero demo_limiter _ Hr ltac:(by vm_compute) _)) 2%positive).
  intros [|i] c Hc; vm_compute in Hc; [|discriminate Hc].
  injection Hc as <-. by eexists.
Defined.
