(* ===== verification/SessionLimiterCaps.v ===== *)
(** * The caps of a session, however its requests overlap

    [Acquire] checks a counter and increments it later, so what the total and
    the per-path cap promise depends on how many requests stand between the two
    at once, and on sessions not being dropped under a request that has already
    looked its session up.  Over all interleavings of the atomic steps of
    SessionLimiterConc that respect both, the caps hold of a session id up to
    the number of requests that overlap in this window; the big-file cap holds
    exactly. *)

From S2P Require Import Prelude GoStrings ClientIP SessionLimiter SessionLimiterConc.

(** ** What a goroutine works for, and what it holds *)

(** The request of a goroutine that is inside: it has looked its session up, and
    has not given everything back yet. *)
Definition pc_req (c : pc) : option req :=
  match c with
  | GotSession r _ | TotalOk r _ | GotHash r _ _ | Slotted r _ _ | GotPath r _ _ _
  | ConcOk r _ _ _ | Rejecting r _ _ | Entering r _ _ _ | Counted r _ _ _ => Some r
  | Held t | Leaving t | Unslotted t => Some (tk_req t)
  | Start _ | Dropping _ | Done _ => None
  end.
Definition pc_sess (c : pc) : option loc :=
  match c with
  | GotSession _ s | TotalOk _ s | GotHash _ s _ | Slotted _ s _ | GotPath _ s _ _
  | ConcOk _ s _ _ | Entering _ s _ _ | Counted _ s _ _ => Some s
  | Held t | Leaving t | Unslotted t => Some (tk_s t)
  | _ => None
  end.
Definition pc_path (c : pc) : option loc :=
  match c with
  | GotPath _ _ _ p | ConcOk _ _ _ p | Entering _ _ _ p | Counted _ _ _ p => Some p
  | Held t => Some (tk_p t)
  | _ => None
  end.
Definition pc_big (c : pc) : option loc :=
  match c with
  | GotHash _ _ x => Some x
  | Slotted _ _ b | GotPath _ _ b _ | ConcOk _ _ b _ | Rejecting _ b _ | Entering _ _ b _
  | Counted _ _ b _ => b
  | Held t | Leaving t => tk_big t
  | _ => None
  end.

Definition req_is (P : req → bool) (c : pc) : bool :=
  match pc_req c with Some r => P r | None => false end.
Definition of_id (id : string) (r : req) : bool := bool_decide (sessionID r = id).
Definition of_path (id key : string) (r : req) : bool :=
  bool_decide (sessionID r = id ∧ pathKey r = key).
Definition inside (id : string) (c : pc) : bool := req_is (of_id id) c.

(** The requests of a session that are counted, and those that have passed the
    check of the total and may still be counted. *)
Definition is_counted (c : pc) : bool :=
  match c with Counted _ _ _ _ | Held _ | Leaving _ | Unslotted _ => true | _ => false end.
Definition is_entering (c : pc) : bool :=
  match c with
  | TotalOk _ _ | GotHash _ _ _ | Slotted _ _ _ | GotPath _ _ _ _ | ConcOk _ _ _ _
  | Entering _ _ _ _ => true
  | _ => false
  end.
Definition counted (id : string) (c : pc) : bool := is_counted c && inside id c.
Definition entering (id : string) (c : pc) : bool := is_entering c && inside id c.

(** The requests of a file that are served, and those past the check of the path
    that may still be. *)
Definition is_served (c : pc) : bool := match c with Held _ => true | _ => false end.
Definition is_entering_path (c : pc) : bool :=
  match c with ConcOk _ _ _ _ | Entering _ _ _ _ | Counted _ _ _ _ => true | _ => false end.
Definition served (id key : string) (c : pc) : bool := is_served c && req_is (of_path id key) c.
Definition entering_path (id key : string) (c : pc) : bool :=
  is_entering_path c && req_is (of_path id key) c.

(** A goroutine of a session that holds a slot for a big file of a torrent. *)
Definition holds_slot (id hash file : string) (c : pc) : bool :=
  match c with
  | GotHash _ _ _ => false
  | _ => bool_decide (is_Some (pc_big c)) &&
      req_is (λ r, bool_decide (sessionID r = id ∧ infoHash r = hash ∧ path r = file)) c
  end.

(** ** Runs that respect the sessions *)

(** The next step does not drop a session that another goroutine is inside of. *)
Definition clean (x : sys) (c : pc) : bool :=
  match c with
  | Dropping t =>
      (0 <? total (get_sess (hp x) (tk_s t)))%Z ||
      forallb (λ d, negb (inside (sessionID (tk_req t)) d)) (thr x)
  | _ => true
  end.

(** At most [K] requests of a session, and of a file of it, are between a check
    and its count. *)
Definition overlap (K : Z) (cs : list pc) : Prop :=
  (∀ id, count (entering id) cs ≤ K)%Z ∧ (∀ id key, count (entering_path id key) cs ≤ K)%Z.

Section caps.
Context `{GoUnicode} (l : SessionLimiter).

Inductive orderly (K : Z) : sys → Prop :=
  | ord_init x : initial x → orderly K x
  | ord_step h cs i c e h' c' :
      orderly K (mkSys h cs) → cs !! i = Some c → exec l e c h = Some (h', c') →
      clean (mkSys h cs) c = true → overlap K (<[i := c']> cs) →
      orderly K (mkSys h' (<[i := c']> cs)).

Lemma orderly_reachable K x : orderly K x → reachable l x.
Proof.
  induction 1 as [x Hx|h cs i c e h' c' _ IH Hc He _ _]; [by apply reach_init|].
  eapply reach_step; [exact IH|]. by eapply step_thread.
Qed.

(** ** Every goroutine inside works on the objects of its session id *)

Definition linked (h : heap) (c : pc) : Prop :=
  ∀ r, pc_req c = Some r →
  ∃ s, sessions h !! sessionID r = Some s ∧
    (∀ s', pc_sess c = Some s' → s' = s) ∧
    (∀ p, pc_path c = Some p → paths (get_sess h s) !! pathKey r = Some p) ∧
    (∀ x, pc_big c = Some x → hashes (get_sess h s) !! infoHash r = Some x).

(** The objects of the first heap are those of the second one. *)
Definition extends (h h' : heap) : Prop :=
  ∀ id s, sessions h !! id = Some s →
    sessions h' !! id = Some s ∧
    paths (get_sess h s) ⊆ paths (get_sess h' s) ∧ hashes (get_sess h s) ⊆ hashes (get_sess h' s).

Lemma linked_extends h h' c : extends h h' → linked h c → linked h' c.
Proof.
  intros He Hl r Hr. destruct (Hl r Hr) as (s & Hs & H1 & H2 & H3).
  destruct (He _ _ Hs) as (Hs' & Hp & Hh). exists s. split; [done|]. split; [done|].
  split; intros ? ?; eapply lookup_weaken; eauto.
Qed.

Lemma extends_same h h' :
  sessions h' = sessions h →
  (∀ s, paths (get_sess h' s) = paths (get_sess h s) ∧ hashes (get_sess h' s) = hashes (get_sess h s)) →
  extends h h'.
Proof. intros E1 E2 id s Hs. by rewrite E1, (proj1 (E2 s)), (proj2 (E2 s)). Qed.

Lemma getSession_extends h id h' s :
  refs_below h → getSession h id = (h', s) → extends h h' ∧ sessions h' !! id = Some s.
Proof.
  intros [Hs _ _]. unfold getSession. destruct (sessions h !! id) as [s0|] eqn:E; intros [= <- <-]; [done|].
  split; [|simpl; by rewrite lookup_insert_eq]. intros id' s' Hs'. pose proof (Hs _ _ Hs').
  change (get_sess (bump (set_sessions (set_sess h (next h) new_session) (<[id:=next h]> (sessions h)))) s')
    with (get_sess (set_sess h (next h) new_session) s').
  rewrite get_sess_set, decide_False by lia. cbn [sessions bump set_sessions].
  rewrite lookup_insert_ne by congruence. done.
Qed.

Lemma getPath_extends h s key h' p :
  getPath h s key = (h', p) → extends h h' ∧ paths (get_sess h' s) !! key = Some p.
Proof.
  unfold getPath. destruct (paths (get_sess h s) !! key) as [p0|] eqn:E; intros [= <- <-]; [done|].
  set (v := mkSession _ _ _). set (h' := bump _).
  assert (∀ s', get_sess h' s' = if decide (s = s') then v else get_sess h s')
    as Hget by exact (get_sess_set h s v).
  split; [|rewrite Hget, decide_True by done; simpl; by rewrite lookup_insert_eq].
  intros id s' Hs'. rewrite Hget. split; [done|]. case_decide; subst; [|done].
  split; [by apply insert_subseteq|done].
Qed.

Lemma getHash_extends h s key h' x :
  getHash h s key = (h', x) → extends h h' ∧ hashes (get_sess h' s) !! key = Some x.
Proof.
  unfold getHash. destruct (hashes (get_sess h s) !! key) as [x0|] eqn:E; intros [= <- <-]; [done|].
  set (v := mkSession _ _ _). set (h' := bump _).
  assert (∀ s', get_sess h' s' = if decide (s = s') then v else get_sess h s')
    as Hget by exact (get_sess_set h s v).
  split; [|rewrite Hget, decide_True by done; simpl; by rewrite lookup_insert_eq].
  intros id s' Hs'. rewrite Hget. split; [done|]. case_decide; subst; [|done].
  split; [done|by apply insert_subseteq].
Qed.

Lemma releaseHash_extends h big k : extends h (releaseHash h big k).
Proof. destruct big; [|done]. by apply extends_same. Qed.
Lemma addTotal_extends h s d : extends h (addTotal h s d).1.
Proof. apply extends_same; [done|]. intros s'. apply addTotal_refs. Qed.
Lemma tryAddBig_extends h x k m : extends h (tryAddBig h x k m).1.
Proof. unfold tryAddBig. case_match; [done|]. by apply extends_same. Qed.
Lemma trackIP_extends h p a w t : extends h (trackIP h p a w t).1.
Proof. destruct (trackIP_frame h p a w t) as (_ & _ & E & Eg). apply extends_same; [done|]. intros s. by rewrite Eg. Qed.

(** A step of a goroutine, when it is not a drop: the objects stay, and the
    goroutine stays linked. *)
Lemma exec_linked e c h h' c' :
  refs_below h → linked h c → (∀ t, c ≠ Dropping t) → exec l e c h = Some (h', c') →
  extends h h' ∧ linked h' c'.
Proof.
  intros Hr Hl Hd.
  (* a step that keeps the request and takes no new object *)
  assert (∀ h' c', extends h h' → (∀ r, pc_req c' = Some r → pc_req c = Some r) →
    (∀ s, pc_sess c' = Some s → pc_sess c = Some s) → (∀ p, pc_path c' = Some p → pc_path c = Some p) →
    (∀ x, pc_big c' = Some x → pc_big c = Some x) → extends h h' ∧ linked h' c') as Hkeep.
  { intros h1 c1 He H1 H2 H3 H4. split; [done|]. apply (linked_extends h h1); [done|].
    intros r Hr1. destruct (Hl r (H1 _ Hr1)) as (s & ? & ? & ? & ?). exists s. eauto 10. }
  destruct c as [r|r s|r s|r s x|r s big|r s big p|r s big p|r big why|r s big p|r s big p
                |t|t|t|t|o]; cbn [exec].
  - case_decide; [intros [= <- <-]; by apply Hkeep|].
    destruct (getSession h (sessionID r)) as [h1 s] eqn:E. intros [= <- <-].
    apply getSession_extends in E as [He Hs]; [|done]. split; [done|].
    intros ? [= <-]. exists s. split; [done|]. split; [by intros ? [= ->]|done].
  - case_match; intros [= <- <-]; by apply Hkeep.
  - case_match; [|intros [= <- <-]; by apply Hkeep].
    destruct (getHash h s (infoHash r)) as [h1 x] eqn:E. intros [= <- <-].
    apply getHash_extends in E as [He Hx]. split; [done|].
    destruct (linked_extends h h1 _ He Hl r eq_refl) as (s1 & Hs1 & H1 & _).
    rewrite <-(H1 s eq_refl) in Hs1. intros ? [= <-]. exists s. split; [done|].
    split; [by intros ? [= ->]|]. split; [done|]. by intros ? [= <-].
  - pose proof (tryAddBig_extends h x (path r) (maxBigFilesPerHash l)) as He.
    destruct (tryAddBig _ _ _ _) as [h1 []]; intros [= <- <-]; by apply Hkeep.
  - destruct (getPath h s (pathKey r)) as [h1 p] eqn:E. intros [= <- <-].
    apply getPath_extends in E as [He Hp]. split; [done|].
    destruct (linked_extends h h1 _ He Hl r eq_refl) as (s1 & Hs1 & H1 & _ & H3).
    rewrite <-(H1 s eq_refl) in Hs1, H3. intros ? [= <-]. exists s. split; [done|].
    split; [by intros ? [= ->]|]. split; [by intros ? [= <-]|done].
  - case_match; intros [= <- <-]; by apply Hkeep.
  - pose proof (trackIP_extends h p (ip r) ipWindow (now e)) as He.
    case_match; [|intros [= <- <-]; by apply Hkeep].
    destruct (trackIP _ _ _ _ _) as [h1 n]. intros [= <- <-]. case_match; by apply Hkeep.
  - intros [= <- <-]. apply Hkeep; [apply releaseHash_extends|done..].
  - intros [= <- <-]. apply Hkeep; [apply addTotal_extends|done..].
  - intros [= <- <-]. apply Hkeep; [by apply extends_same|done..].
  - intros [= <- <-]. apply Hkeep; [by apply extends_same|done..].
  - intros [= <- <-]. apply Hkeep; [apply releaseHash_extends|done..].
  - pose proof (addTotal_extends h (tk_s t) (-1)) as He. destruct (addTotal _ _ _) as [h1 n].
    intros [= <- <-]. case_match; by apply Hkeep.
  - by destruct (Hd t).
  - done.
Qed.

(** A drop that nobody is inside of leaves the other sessions alone. *)
Lemma drop_linked h t c :
  inside (sessionID (tk_req t)) c = false ∨ (0 < total (get_sess h (tk_s t)))%Z →
  linked h c → linked (dropSession h (sessionID (tk_req t)) (tk_s t)) c.
Proof.
  intros Hc Hl. unfold dropSession. destruct (Z.leb_spec (total (get_sess h (tk_s t))) 0); [|done].
  destruct Hc as [Hc|]; [|lia]. intros r Hr. destruct (Hl r Hr) as (s & Hs & ?). exists s.
  split; [|done]. cbn [set_sessions sessions]. rewrite lookup_delete_ne; [done|].
  unfold inside, req_is, of_id in Hc. rewrite Hr in Hc. by apply bool_decide_eq_false in Hc.
Qed.

Lemma orderly_linked K x :
  orderly K x → (Z.of_nat (length (thr x)) < 2 ^ 31 - 1)%Z → Forall (linked (hp x)) (thr x).
Proof.
  induction 1 as [x [_ Hs]|h cs i c e h' c' Hx IH Hc He Hcl _].
  { intros _. eapply Forall_impl; [exact Hs|]. by intros c [r ->] ?. }
  cbn [hp thr] in *. rewrite length_insert. intros Hlen. specialize (IH Hlen).
  pose proof (reachable_inv l _ (orderly_reachable K _ Hx) Hlen) as Hinv.
  pose proof (Forall_lookup_1 _ _ _ _ IH Hc) as Hlc.
  destruct c as [| | | | | | | | | | | | |t|] eqn:Ec;
    try (destruct (exec_linked e _ h h' c' (inv_refs _ _ Hinv) Hlc ltac:(done) He) as [Hext Hl'];
         apply Forall_insert; [eapply Forall_impl; [exact IH|]; intros d; by apply linked_extends|done]).
  cbn [exec] in He. injection He as <- <-. cbn [clean hp thr] in Hcl.
  apply Forall_insert; [|done]. rewrite Forall_forall in IH |- *. intros d Hd.
  apply drop_linked; [|by apply IH].
  apply orb_true_iff in Hcl as [Hcl|Hcl]; [right; lia|left]. rewrite forallb_forall in Hcl.
  by apply negb_true_iff, Hcl, list_elem_of_In.
Qed.

(** ** Counting by session id *)

Lemma count_mono f g cs :
  Forall (λ c, f c = true → g c = true) cs → (count f cs ≤ count g cs)%Z.
Proof.
  induction 1 as [|c cs Hc _ IH]; simpl; [lia|].
  destruct (f c); [rewrite Hc by done|destruct (g c)]; simpl; lia.
Qed.

Lemma linked_at h c r :
  linked h c → pc_req c = Some r → ∃ s, sessions h !! sessionID r = Some s ∧
    (∀ s', pc_sess c = Some s' → s' = s) ∧
    (∀ p, pc_path c = Some p → paths (get_sess h s) !! pathKey r = Some p) ∧
    (∀ x, pc_big c = Some x → hashes (get_sess h s) !! infoHash r = Some x).
Proof. auto. Qed.

(** The counted requests of an id are counted by the object of any of its
    goroutines. *)
Lemma counted_total h cs r s :
  Forall (linked h) cs → sessions h !! sessionID r = Some s →
  (count (counted (sessionID r)) cs ≤ count (counts_total s) cs)%Z.
Proof.
  intros Hl Hs. apply count_mono. eapply Forall_impl; [exact Hl|]. intros c Hc.
  unfold counted, inside, req_is, of_id. rewrite andb_true_iff. intros [H1 H2].
  destruct (pc_req c) as [r'|] eqn:Er; [|done]. rewrite bool_decide_eq_true in H2.
  destruct (Hc r' Er) as (s' & Hs' & Hss & _). rewrite H2, Hs in Hs'. injection Hs' as <-.
  destruct c; try done; simpl in *; rewrite bool_decide_eq_true; symmetry; by apply Hss.
Qed.

Lemma served_conc h cs r s p :
  Forall (linked h) cs → sessions h !! sessionID r = Some s →
  paths (get_sess h s) !! pathKey r = Some p →
  (count (served (sessionID r) (pathKey r)) cs ≤ count (counts_conc p) cs)%Z.
Proof.
  intros Hl Hs Hp. apply count_mono. eapply Forall_impl; [exact Hl|]. intros c Hc.
  unfold served, req_is, of_path. rewrite andb_true_iff. intros [H1 H2].
  destruct c; try done. cbn [pc_req] in H2. rewrite bool_decide_eq_true in H2. destruct H2 as [E1 E2].
  destruct (Hc _ eq_refl) as (s' & Hs' & _ & Hpp & _). rewrite E1, Hs in Hs'. injection Hs' as <-.
  simpl. rewrite bool_decide_eq_true. specialize (Hpp _ eq_refl). rewrite E2, Hp in Hpp. congruence.
Qed.

(** ** The caps *)

(** A request is counted, or may still be. *)
Definition weight (id : string) (c : pc) : Z := (Z.b2z (counted id c) + Z.b2z (entering id c))%Z.
Definition weight_path (id key : string) (c : pc) : Z :=
  (Z.b2z (served id key c) + Z.b2z (entering_path id key c))%Z.

Lemma exec_weight e c h h' c' :
  exec l e c h = Some (h', c') →
  (∀ id, weight id c' ≤ weight id c)%Z ∨
  ∃ r s, c = GotSession r s ∧ c' = TotalOk r s ∧ (0 < maxTotal l → total (get_sess h s) < maxTotal l)%Z.
Proof.
  unfold weight, counted, entering, inside, req_is, of_id.
  destruct c; cbn [exec]; intros E;
    try (left; intros id; repeat case_match; simplify_eq/=; repeat case_bool_decide; simpl; lia).
  destruct ((0 <? maxTotal l) && _)%Z eqn:Ec; injection E as <- <-.
  - left. intros id. simpl. lia.
  - right. do 2 eexists. split; [done|]. split; [done|]. apply andb_false_iff in Ec as [Ec|Ec]; lia.
Qed.

Lemma exec_weight_path e c h h' c' :
  exec l e c h = Some (h', c') →
  (∀ id key, weight_path id key c' ≤ weight_path id key c)%Z ∨
  ∃ r s big p, c = GotPath r s big p ∧ c' = ConcOk r s big p ∧
    (0 < maxPerPath l → conc (get_path h p) < maxPerPath l)%Z.
Proof.
  unfold weight_path, served, entering_path, req_is, of_path.
  destruct c; cbn [exec]; intros E;
    try (left; intros id key; repeat case_match; simplify_eq/=; repeat case_bool_decide; simpl; lia).
  destruct ((0 <? maxPerPath l) && _)%Z eqn:Ec; injection E as <- <-.
  - left. intros id key. simpl. lia.
  - right. do 4 eexists. split; [done|]. split; [done|]. apply andb_false_iff in Ec as [Ec|Ec]; lia.
Qed.

Definition capped (K : Z) (cs : list pc) : Prop :=
  (∀ id, 0 < maxTotal l → count (counted id) cs + count (entering id) cs ≤ maxTotal l - 1 + K)%Z ∧
  (∀ id key, 0 < maxPerPath l →
     count (served id key) cs + count (entering_path id key) cs ≤ maxPerPath l - 1 + K)%Z.

Lemma count_start f cs :
  (∀ r, f (Start r) = false) → Forall (λ c, ∃ r, c = Start r) cs → count f cs = 0%Z.
Proof. intros Hf Hs. apply count_zero. eapply Forall_impl; [exact Hs|]. intros c [r ->]. apply Hf. Qed.

Lemma capped_total K h cs i c e h' c' id :
  inv l (mkSys h cs) → Forall (linked h) cs → cs !! i = Some c → exec l e c h = Some (h', c') →
  overlap K (<[i := c']> cs) → (0 < maxTotal l)%Z →
  (count (counted id) cs + count (entering id) cs ≤ maxTotal l - 1 + K)%Z →
  (count (counted id) (<[i := c']> cs) + count (entering id) (<[i := c']> cs) ≤ maxTotal l - 1 + K)%Z.
Proof.
  intros Hinv Hl Hc He [Ho _] Hm Hold. specialize (Ho id).
  rewrite !(count_insert _ _ _ c) in * by done.
  destruct (exec_weight _ _ _ _ _ He) as [Hw|(r & s & -> & -> & Hlt)].
  { specialize (Hw id). unfold weight in Hw. lia. }
  unfold counted, entering, inside, req_is, of_id in Ho, Hold |- *. simpl in Ho, Hold |- *.
  case_bool_decide as Hid; [subst id|simpl in *; lia]. simpl in *.
  destruct (Forall_lookup_1 _ _ _ _ Hl Hc r eq_refl) as (s' & Hs & E & _).
  rewrite <-(E s eq_refl) in Hs.
  pose proof (counted_total h cs r s Hl Hs) as Hle. pose proof (inv_total _ _ Hinv s) as Ht.
  simpl in Ht. specialize (Hlt Hm). unfold counted, inside, req_is, of_id in Hle. lia.
Qed.

Lemma capped_path K h cs i c e h' c' id key :
  inv l (mkSys h cs) → Forall (linked h) cs → cs !! i = Some c → exec l e c h = Some (h', c') →
  overlap K (<[i := c']> cs) → (0 < maxPerPath l)%Z →
  (count (served id key) cs + count (entering_path id key) cs ≤ maxPerPath l - 1 + K)%Z →
  (count (served id key) (<[i := c']> cs) + count (entering_path id key) (<[i := c']> cs)
     ≤ maxPerPath l - 1 + K)%Z.
Proof.
  intros Hinv Hl Hc He [_ Ho] Hm Hold. specialize (Ho id key).
  rewrite !(count_insert _ _ _ c) in * by done.
  destruct (exec_weight_path _ _ _ _ _ He) as [Hw|(r & s & big & p & -> & -> & Hlt)].
  { specialize (Hw id key). unfold weight_path in Hw. lia. }
  unfold served, entering_path, req_is, of_path in Ho, Hold |- *. simpl in Ho, Hold |- *.
  case_bool_decide as Hid; [destruct Hid as [<- <-]|simpl in *; lia]. simpl in *.
  destruct (Forall_lookup_1 _ _ _ _ Hl Hc r eq_refl) as (s' & Hs & E & Hp & _).
  rewrite <-(E s eq_refl) in Hs, Hp.
  pose proof (served_conc h cs r s p Hl Hs (Hp _ eq_refl)) as Hle. pose proof (inv_conc _ _ Hinv p) as Ht.
  simpl in Ht. specialize (Hlt Hm). unfold served, req_is, of_path in Hle. lia.
Qed.

Lemma orderly_capped K x :
  (0 ≤ K)%Z → orderly K x → (Z.of_nat (length (thr x)) < 2 ^ 31 - 1)%Z → capped K (thr x).
Proof.
  intros HK. induction 1 as [x [_ Hs]|h cs i c e h' c' Hx IH Hc He Hcl Ho].
  { intros _. split; intros *; rewrite !count_start by done; lia. }
  cbn [thr] in *. rewrite length_insert. intros Hlen. specialize (IH Hlen).
  pose proof (reachable_inv l _ (orderly_reachable K _ Hx) Hlen) as Hinv.
  pose proof (orderly_linked K _ Hx Hlen) as Hl. cbn [hp thr] in Hl.
  split; intros *; intros Hm;
    [eapply capped_total|eapply capped_path]; try done; by apply IH.
Qed.

(** The slots of a session for a torrent are on one hashState. *)
Lemma one_hashState K x id hash :
  orderly K x → (Z.of_nat (length (thr x)) < 2 ^ 31 - 1)%Z →
  ∃ q, ∀ i c k, thr x !! i = Some c → holds_slot id hash k c = true → counts_big q k c = true.
Proof.
  intros Hx Hlen. pose proof (orderly_linked K x Hx Hlen) as Hl.
  exists (default 1%positive (s ← sessions (hp x) !! id; hashes (get_sess (hp x) s) !! hash)).
  intros i c k Hc Hh. pose proof (Forall_lookup_1 _ _ _ _ Hl Hc) as Hlc.
  assert (∃ r q, pc_req c = Some r ∧ pc_big c = Some q ∧ sessionID r = id ∧ infoHash r = hash ∧ path r = k)
    as (r & q & Hr & Hq & <- & <- & <-).
  { unfold holds_slot, req_is in Hh. destruct c; try done; simpl in *;
      rewrite andb_true_iff, !bool_decide_eq_true in Hh; destruct Hh as ([q ?] & ? & ? & ?); eauto 10. }
  destruct (Hlc r Hr) as (s & Hs & _ & _ & Hb). rewrite Hs. cbn [mbind option_bind].
  rewrite (Hb q Hq). cbn [default].
  destruct c; try done; simpl in Hr, Hq |- *; simplify_eq/=; rewrite bool_decide_eq_true; by rewrite ?Hq.
Qed.

(** C13: what the limiter promises a session.  In every interleaving of any
    number of goroutines in which at most [K] requests of a session at a time
    are between a check and its count, and no session is dropped while another
    of its requests is inside (looked up, not yet ended): a session id never has more than
    [K - 1] requests over its total cap counted, nor over its cap per file
    served, and never holds slots for more big files of a torrent than the cap.
    With [K = 1] all three caps are exact.  ([total_cap_races] reaches the bound
    with [K = 2]; [big_cap_races] shows what a drop does.) *)
Theorem session_caps K x :
  (0 ≤ K)%Z → orderly K x → (Z.of_nat (length (thr x)) < 2 ^ 31 - 1)%Z →
  (∀ id, 0 < maxTotal l → count (counted id) (thr x) ≤ maxTotal l - 1 + K)%Z ∧
  (∀ id key, 0 < maxPerPath l → count (served id key) (thr x) ≤ maxPerPath l - 1 + K)%Z ∧
  (∀ id hash ks, (0 < maxBigFilesPerHash l)%Z → NoDup ks →
     (∀ k, k ∈ ks → ∃ i c, thr x !! i = Some c ∧ holds_slot id hash k c = true) →
     (Z.of_nat (length ks) ≤ maxBigFilesPerHash l)%Z).
Proof.
  intros HK Hx Hlen. destruct (orderly_capped K x HK Hx Hlen) as [H1 H2]. split; [|split].
  - intros id Hm. specialize (H1 id Hm). pose proof (count_nonneg (entering id) (thr x)). lia.
  - intros id key Hm. specialize (H2 id key Hm). pose proof (count_nonneg (entering_path id key) (thr x)). lia.
  - intros id hash ks Hm Hnd Hks. destruct (one_hashState K x id hash Hx Hlen) as [q Hq].
    apply (slots_capped l x q ks (orderly_reachable K x Hx) Hlen Hm Hnd).
    intros k Hk. destruct (Hks k Hk) as (i & c & Hc & Hh). exists i, c. eauto.
Qed.

End caps.

(** ** A concrete run *)

(** One step, when it is clean and leaves at most [K] goroutines of all between
    a check and its count. *)
Definition run_clean `{GoUnicode} (l : SessionLimiter) (K : Z) (e : env) (i : nat) (x : sys) : option sys :=
  c ← thr x !! i;
  '(h', c') ← exec l e c (hp x);
  let cs := <[i := c']> (thr x) in
  if clean x c && (count is_entering cs <=? K)%Z && (count is_entering_path cs <=? K)%Z
  then Some (mkSys h' cs) else None.

Fixpoint run_orderly `{GoUnicode} (l : SessionLimiter) (K : Z) (e : env) (sched : list nat) (x : sys)
  : option sys :=
  match sched with
  | [] => Some x
  | i :: sched => x ← run_clean l K e i x; run_orderly l K e sched x
  end.

Lemma run_orderly_orderly `{GoUnicode} l K e sched x y :
  orderly l K x → run_orderly l K e sched x = Some y → orderly l K y.
Proof.
  revert x. induction sched as [|i sched IH]; intros x Hx Hr; simpl in Hr; [by simplify_eq|].
  destruct (run_clean l K e i x) as [x'|] eqn:E; [|done]. simpl in Hr. apply (IH x'); [|done].
  unfold run_clean in E. destruct x as [h cs]. simpl in E.
  destruct (cs !! i) as [c|] eqn:Hc; [|done]. simpl in E.
  destruct (exec l e c h) as [[h' c']|] eqn:He; [|done]. simpl in E.
  destruct (clean _ c && _ && _) eqn:Ec; [|done]. injection E as <-.
  rewrite !andb_true_iff in Ec. destruct Ec as [[Hcl H1] H2].
  apply (ord_step l K h cs i c e h' c'); try done.
  apply Z.leb_le in H1, H2.
  split; [intros id; etrans; [apply (count_mono _ is_entering)|exact H1]
         |intros id key; etrans; [apply (count_mono _ is_entering_path)|exact H2]];
    apply Forall_true; intros d; unfold entering, entering_path; rewrite andb_true_iff; by intros [? _].
Qed.

#[local] Existing Instance demo_unicode.

(** A cap of one request per session: a request is served; a second one of the
    session is refused; after the first one's release a third one is served. *)
Definition demo_orderly : sys :=
  default (demo_sys 0) (run_orderly demo_limiter 1 demo_env (solo 0 9 ++ solo 1 2 ++ solo 0 4 ++ solo 2 9) (demo_sys 3)).

Example session_caps_witness :
  thr demo_orderly !! 1 = Some (Done (Some "total")) ∧ thr demo_orderly !! 0 = Some (Done None) ∧
  count (counted "sid") (thr demo_orderly) = 1%Z ∧
  (count (counted "sid") (thr demo_orderly) ≤ 1 - 1 + 1)%Z.
Proof.
  split; [by vm_compute|]. split; [by vm_compute|]. split; [by vm_compute|].
  assert (orderly demo_limiter 1 demo_orderly) as Ho.
  { apply (run_orderly_orderly demo_limiter 1 demo_env (solo 0 9 ++ solo 1 2 ++ solo 0 4 ++ solo 2 9) (demo_sys 3)).
    - apply ord_init. split; [done|]. apply Forall_replicate. by eexists.
    - by vm_compute. }
  exact (proj1 (session_caps demo_limiter 1 demo_orderly ltac:(lia) Ho ltac:(by vm_compute)) "sid" ltac:(by vm_compute)).
Defined.
