(* ===== verification/SessionLimiterSeq.v ===== *)
(** * The session limiter with uninterrupted handlers

    [Acquire] and the release closure, each run without interruption, refine
    the interleaved model of [SessionLimiterConc]: they are the solo runs of a
    goroutine.  Under this schedule every cap of the limiter holds, and
    [Acquire] decides as a specification over the list of requests in flight
    says. *)

From S2P Require Import Prelude GoStrings ClientIP SessionLimiter SessionLimiterConc.

Section seq.
Context `{GoUnicode} (l : SessionLimiter).

(** ** Solo runs *)

Definition solo_step (e : env) (a b : heap * pc) : Prop := exec l e a.2 a.1 = Some b.

(** The program counter at which [Acquire] returns. *)
Definition acquired (out : release + string) : pc :=
  match out with
  | inl NoRelease => Done None
  | inl (Release t) => Held t
  | inr why => Done (Some why)
  end.

(** The points from which a goroutine is still inside [Acquire]. *)
Definition acquiring (c : pc) : bool :=
  match c with Leaving _ | Unslotted _ | Dropping _ | Held _ => false | _ => true end.

Definition acq_step (e : env) (a b : heap * pc) : Prop :=
  solo_step e a b ∧ acquiring a.2 = true.

Lemma acq_solo e a b : rtc (acq_step e) a b → rtc (solo_step e) a b.
Proof. apply rtc_subrel. by intros x y [??]. Qed.

Ltac solo := eapply rtc_l; [unfold solo_step; cbn [exec fst snd now lookup]|].
Ltac acq :=
  eapply rtc_l; [split; [unfold solo_step; cbn [exec fst snd now lookup]|reflexivity]|].

Lemma Acquire_solo lk t h r h' out :
  Acquire l lk t h r = (h', out) →
  rtc (acq_step (mkEnv t lk)) (h, Start r) (h', acquired out).
Proof.
  unfold Acquire. case_decide as Hs.
  { intros [= <- <-]. acq; [by rewrite decide_True|]. apply rtc_refl. }
  destruct (getSession h (sessionID r)) as [h1 s] eqn:E1.
  intros HA. acq; [by rewrite decide_False, E1|]. revert HA.
  destruct (_ && (maxTotal l <=? _)%Z) eqn:E2.
  { intros [= <- <-]. acq; [by rewrite E2|]. apply rtc_refl. }
  intros HA. acq; [by rewrite E2|]. revert HA.
  assert (∀ h2 big, (let '(h, p) := getPath h2 s (pathKey r) in
      if ((0 <? maxPerPath l) && (maxPerPath l <=? conc (get_path h p)))%Z
      then (releaseHash h big (path r), inr "path") else
      let '(h, n) :=
        if (0 <? maxIPsPerSession l)%Z && bool_decide (ip r ≠ "")
        then trackIP h p (ip r) ipWindow t else (h, 0%Z) in
      if (0 <? maxIPsPerSession l)%Z && bool_decide (ip r ≠ "") && (maxIPsPerSession l <? n)%Z
      then (releaseHash h big (path r), inr "ips") else
      let '(h, _) := addTotal h s 1 in
      let h := addConc h p 1 in
      (h, inl (Release (mkTicket r s big p)))) = (h', out) →
    rtc (acq_step (mkEnv t lk)) (h2, Slotted r s big) (h', acquired out)) as Htail.
  { intros h2 big. destruct (getPath h2 s (pathKey r)) as [h3 p] eqn:E3.
    intros HA. acq; [by rewrite E3|]. revert HA.
    destruct (_ && (maxPerPath l <=? _)%Z) eqn:E4.
    { intros [= <- <-]. acq; [by rewrite E4|]. acq; [done|]. apply rtc_refl. }
    intros HA. acq; [by rewrite E4|]. revert HA.
    destruct ((0 <? maxIPsPerSession l)%Z && bool_decide (ip r ≠ "")) eqn:E5; cbn [andb].
    - destruct (trackIP h3 p (ip r) ipWindow t) as [h4 n] eqn:E6.
      intros HA. acq; [by rewrite E5, E6|]. revert HA.
      destruct (maxIPsPerSession l <? n)%Z; intros [= <- <-].
      + acq; [done|]. apply rtc_refl.
      + do 2 (acq; [done|]). apply rtc_refl.
    - intros [= <- <-]. acq; [by rewrite E5|]. do 2 (acq; [done|]). apply rtc_refl. }
  destruct (isBigFile l lk (infoHash r) (path r)) eqn:E3.
  - destruct (getHash h1 s (infoHash r)) as [h2 x] eqn:E4.
    destruct (tryAddBig h2 x (path r) (maxBigFilesPerHash l)) as [h3 [|]] eqn:E5; intros HA.
    + acq; [by rewrite E3, E4|]. acq; [by rewrite E5|]. by apply Htail.
    + simplify_eq. acq; [by rewrite E3, E4|]. acq; [by rewrite E5|]. apply rtc_refl.
  - intros HA. acq; [by rewrite E3|]. by apply Htail.
Qed.

Lemma run_release_solo e h t :
  rtc (solo_step e) (h, Held t) (run_release h (Release t), Done None).
Proof.
  unfold run_release. solo; [done|]. solo; [done|].
  destruct (addTotal _ (tk_s t) (-1)) as [h1 n] eqn:E.
  destruct (n <=? 0)%Z eqn:En; (solo; [by rewrite E, En|]).
  - solo; [done|]. apply rtc_refl.
  - apply rtc_refl.
Qed.

(** ** The counting invariant along solo runs *)

Lemma count_perm f cs cs' : cs ≡ₚ cs' → count f cs = count f cs'.
Proof. induction 1; simpl; lia. Qed.

Lemma inv_perm h cs cs' : cs ≡ₚ cs' → inv l (mkSys h cs) → inv l (mkSys h cs').
Proof.
  intros Hp [I1 I2 I3 I4 I5 I6 I7]. split; cbn [hp thr] in *; try done.
  - intros s. by rewrite I1, (count_perm _ _ _ Hp).
  - intros s. by rewrite I2, (count_perm _ _ _ Hp).
  - intros q k. by rewrite I3, (count_perm _ _ _ Hp).
  - intros i c q Hc Hq. apply list_elem_of_lookup_2 in Hc. rewrite <-Hp in Hc.
    apply list_elem_of_lookup in Hc as [j Hj]. by eapply I7.
Qed.

(** A goroutine that counts nothing can come and go. *)
Lemma inv_idle h c cs :
  (∀ s, counts_total s c = false) → (∀ p, counts_conc p c = false) →
  (∀ q k, counts_big q k c = false) → pc_locs c = [] →
  inv l (mkSys h (c :: cs)) ↔ inv l (mkSys h cs).
Proof.
  intros Ht Hc Hb Hl. split; intros [I1 I2 I3 I4 I5 I6 I7]; split; cbn [hp thr] in *; try done.
  - intros s. rewrite I1. simpl. by rewrite Ht.
  - intros s. rewrite I2. simpl. by rewrite Hc.
  - intros q k. rewrite I3. simpl. by rewrite Hb.
  - intros i d q Hd. by apply (I7 (S i) d).
  - intros s. rewrite I1. simpl. by rewrite Ht.
  - intros s. rewrite I2. simpl. by rewrite Hc.
  - intros q k. rewrite I3. simpl. by rewrite Hb.
  - intros [|i] d q; simpl; [intros [= <-]; rewrite Hl; set_solver|apply I7].
Qed.

Lemma solo_inv e h c h' c' cs :
  rtc (solo_step e) (h, c) (h', c') → (Z.of_nat (length (c :: cs)) < 2 ^ 31 - 1)%Z →
  inv l (mkSys h (c :: cs)) → inv l (mkSys h' (c' :: cs)).
Proof.
  intros Hr Hl. remember (h, c) as a. remember (h', c') as b.
  revert h c Heqa Hl. induction Hr as [|a [h1 c1] b Hst Hr IH]; intros h c -> Hl Hi.
  - by simplify_eq.
  - apply (IH Heqb h1 c1); [done|done|].
    change (c1 :: cs) with (<[0 := c1]> (c :: cs)).
    eapply (delta_inv l h (c :: cs) 0 c); [done|done|].
    by apply (exec_delta l e h (c :: cs) 0).
Qed.

(** ** How the heap is wired

    Sessions, path objects and hash objects are found by their keys; no object
    is reachable by two keys. *)

Record wired (h : heap) : Prop := mkWired {
  w_refs : refs_below h;
  w_sessions id id' s : sessions h !! id = Some s → sessions h !! id' = Some s → id = id';
  w_paths s s' k k' p :
    paths (get_sess h s) !! k = Some p → paths (get_sess h s') !! k' = Some p → s = s' ∧ k = k';
  w_hashes s s' k k' x :
    hashes (get_sess h s) !! k = Some x → hashes (get_sess h s') !! k' = Some x → s = s' ∧ k = k';
  w_fresh s : (next h ≤ s)%positive → paths (get_sess h s) = ∅ ∧ hashes (get_sess h s) = ∅
}.

Record extends (h h' : heap) : Prop := mkExt {
  e_sessions : sessions h ⊆ sessions h';
  e_paths s : paths (get_sess h s) ⊆ paths (get_sess h' s);
  e_hashes s : hashes (get_sess h s) ⊆ hashes (get_sess h' s)
}.

#[export] Instance extends_preorder : PreOrder extends.
Proof.
  split; [intros h; split; intros; reflexivity|]. intros h1 h2 h3 [A1 B1 C1] [A2 B2 C2].
  split; [by transitivity (sessions h2)|intros s; etransitivity; [apply B1|apply B2]|
    intros s; etransitivity; [apply C1|apply C2]].
Qed.

(** Operations that touch no map of references. *)
Lemma wired_frame h h' :
  sessions h' = sessions h → next h' = next h →
  (∀ s, paths (get_sess h' s) = paths (get_sess h s) ∧ hashes (get_sess h' s) = hashes (get_sess h s)) →
  wired h → wired h' ∧ extends h h'.
Proof.
  intros Hs Hn Hr [W1 W2 W3 W4 W5]. split.
  - split.
    + apply (refs_below_frame h); [by rewrite Hs|done|done|done].
    + rewrite Hs. apply W2.
    + intros s s' k k' p. rewrite (proj1 (Hr s)), (proj1 (Hr s')). apply W3.
    + intros s s' k k' p. rewrite (proj2 (Hr s)), (proj2 (Hr s')). apply W4.
    + intros s. rewrite Hn, (proj1 (Hr s)), (proj2 (Hr s)). apply W5.
  - split; [by rewrite Hs|intros s; by rewrite (proj1 (Hr s))|intros s; by rewrite (proj2 (Hr s))].
Qed.
Lemma getSession_wired h id h' s :
  wired h → getSession h id = (h', s) →
  wired h' ∧ extends h h' ∧ sessions h' !! id = Some s.
Proof.
  intros W. destruct W as [R W2 W3 W4 W5]. destruct R as [R1 R2 R3]. unfold getSession.
  destruct (sessions h !! id) as [s0|] eqn:E; intros [= <- <-]; [done|].
  set (h' := bump _). destruct (W5 (next h) ltac:(lia)) as [Wp Wh].
  assert (∀ s', paths (get_sess h' s') = paths (get_sess h s') ∧
                hashes (get_sess h' s') = hashes (get_sess h s')) as Href.
  { intros s'. change (get_sess h' s') with (get_sess (set_sess h (next h) new_session) s').
    rewrite get_sess_set. by case_decide; subst. }
  assert (sessions h' = <[id := next h]> (sessions h)) as Hs by done.
  assert (next h' = (next h + 1)%positive) as Hn by done. clearbody h'.
  split; [split|split; [split|]].
  - split; rewrite Hn; intros *; rewrite ?Hs, ?(proj1 (Href _)), ?(proj2 (Href _)); intros Hk.
    + rewrite lookup_insert in Hk. case_decide; [simplify_eq; lia|]. apply R1 in Hk. lia.
    + apply R2 in Hk. lia.
    + apply R3 in Hk. lia.
  - intros i i' s'. rewrite Hs, !lookup_insert. do 2 case_decide; intros; simplify_eq; try done.
    + match goal with H : sessions h !! _ = Some _ |- _ => apply R1 in H end. lia.
    + match goal with H : sessions h !! _ = Some _ |- _ => apply R1 in H end. lia.
    + by eapply W2.
  - intros *. rewrite !(proj1 (Href _)). apply W3.
  - intros *. rewrite !(proj2 (Href _)). apply W4.
  - intros s' Hle. rewrite (proj1 (Href s')), (proj2 (Href s')). apply W5. lia.
  - rewrite Hs. by apply insert_subseteq.
  - intros s'. by rewrite (proj1 (Href s')).
  - intros s'. by rewrite (proj2 (Href s')).
  - rewrite Hs. apply lookup_insert_eq.
Qed.

Lemma getPath_wired h s key h' p :
  wired h → (s < next h)%positive → getPath h s key = (h', p) →
  wired h' ∧ extends h h' ∧ paths (get_sess h' s) !! key = Some p.
Proof.
  intros W Hlt. destruct W as [R W2 W3 W4 W5]. destruct R as [R1 R2 R3]. unfold getPath.
  destruct (paths (get_sess h s) !! key) as [p0|] eqn:E; intros [= <- <-]; [done|].
  set (h' := bump _).
  assert (∀ s', paths (get_sess h' s') =
      (if decide (s = s') then <[key := next h]> (paths (get_sess h s)) else paths (get_sess h s')) ∧
      hashes (get_sess h' s') = hashes (get_sess h s')) as Href.
  { intros s'. change (get_sess h' s') with (get_sess (set_sess h s
      (mkSession (total (get_sess h s)) (<[key := next h]> (paths (get_sess h s)))
         (hashes (get_sess h s)))) s').
    rewrite get_sess_set. by case_decide; subst. }
  assert (sessions h' = sessions h) as Hs by done.
  assert (next h' = (next h + 1)%positive) as Hn by done. clearbody h'.
  assert (∀ s' k p, paths (get_sess h' s') !! k = Some p →
    (s' = s ∧ k = key ∧ p = next h) ∨ paths (get_sess h s') !! k = Some p) as Hp.
  { intros s' k p. rewrite (proj1 (Href s')). case_decide; [subst|auto].
    rewrite lookup_insert. case_decide; intros; simplify_eq; auto. }
  split; [split|split; [split|]].
  - split; rewrite Hn; intros *; rewrite ?Hs, ?(proj2 (Href _)); intros Hk.
    + apply R1 in Hk. lia.
    + apply Hp in Hk as [(-> & -> & ->)|Hk]; [lia|]. apply R2 in Hk. lia.
    + apply R3 in Hk. lia.
  - rewrite Hs. apply W2.
  - intros s1 s2 k1 k2 p [(-> & -> & ->)|H1]%Hp [(-> & -> & Hp2)|H2]%Hp; try done.
    + apply R2 in H2. lia.
    + subst. apply R2 in H1. lia.
    + by eapply W3.
  - intros *. rewrite !(proj2 (Href _)). apply W4.
  - intros s' Hle. rewrite (proj1 (Href s')), (proj2 (Href s')). case_decide; [subst; lia|].
    apply W5. lia.
  - by rewrite Hs.
  - intros s'. rewrite (proj1 (Href s')). case_decide; [subst|done]. by apply insert_subseteq.
  - intros s'. by rewrite (proj2 (Href s')).
  - rewrite (proj1 (Href s)), decide_True by done. apply lookup_insert_eq.
Qed.

Lemma getHash_wired h s key h' x :
  wired h → (s < next h)%positive → getHash h s key = (h', x) →
  wired h' ∧ extends h h' ∧ hashes (get_sess h' s) !! key = Some x.
Proof.
  intros W Hlt. destruct W as [R W2 W3 W4 W5]. destruct R as [R1 R2 R3]. unfold getHash.
  destruct (hashes (get_sess h s) !! key) as [p0|] eqn:E; intros [= <- <-]; [done|].
  set (h' := bump _).
  assert (∀ s', hashes (get_sess h' s') =
      (if decide (s = s') then <[key := next h]> (hashes (get_sess h s)) else hashes (get_sess h s')) ∧
      paths (get_sess h' s') = paths (get_sess h s')) as Href.
  { intros s'. change (get_sess h' s') with (get_sess (set_sess h s
      (mkSession (total (get_sess h s)) (paths (get_sess h s))
         (<[key := next h]> (hashes (get_sess h s))))) s').
    rewrite get_sess_set. by case_decide; subst. }
  assert (sessions h' = sessions h) as Hs by done.
  assert (next h' = (next h + 1)%positive) as Hn by done. clearbody h'.
  assert (∀ s' k p, hashes (get_sess h' s') !! k = Some p →
    (s' = s ∧ k = key ∧ p = next h) ∨ hashes (get_sess h s') !! k = Some p) as Hp.
  { intros s' k p. rewrite (proj1 (Href s')). case_decide; [subst|auto].
    rewrite lookup_insert. case_decide; intros; simplify_eq; auto. }
  split; [split|split; [split|]].
  - split; rewrite Hn; intros *; rewrite ?Hs, ?(proj2 (Href _)); intros Hk.
    + apply R1 in Hk. lia.
    + apply R2 in Hk. lia.
    + apply Hp in Hk as [(-> & -> & ->)|Hk]; [lia|]. apply R3 in Hk. lia.
  - rewrite Hs. apply W2.
  - intros *. rewrite !(proj2 (Href _)). apply W3.
  - intros s1 s2 k1 k2 p [(-> & -> & ->)|H1]%Hp [(-> & -> & Hp2)|H2]%Hp; try done.
    + apply R3 in H2. lia.
    + subst. apply R3 in H1. lia.
    + by eapply W4.
  - intros s' Hle. rewrite (proj1 (Href s')), (proj2 (Href s')). case_decide; [subst; lia|].
    apply W5. lia.
  - by rewrite Hs.
  - intros s'. by rewrite (proj2 (Href s')).
  - intros s'. rewrite (proj1 (Href s')). case_decide; [subst|done]. by apply insert_subseteq.
  - rewrite (proj1 (Href s)), decide_True by done. apply lookup_insert_eq.
Qed.


(** ** Where the objects of a request are *)

Definition at_session (h : heap) (r : req) (s : loc) : Prop :=
  sessions h !! sessionID r = Some s.
Definition at_hash (h : heap) (r : req) (s : loc) (big : option loc) : Prop :=
  match big with Some x => hashes (get_sess h s) !! infoHash r = Some x | None => True end.
Definition at_path (h : heap) (r : req) (s p : loc) : Prop :=
  paths (get_sess h s) !! pathKey r = Some p.

Definition pc_located (h : heap) (c : pc) : Prop :=
  match c with
  | Start _ | Done _ | Rejecting _ _ _ => True
  | GotSession r s | TotalOk r s => at_session h r s
  | GotHash r s x => at_session h r s ∧ at_hash h r s (Some x)
  | Slotted r s big => at_session h r s ∧ at_hash h r s big
  | GotPath r s big p | ConcOk r s big p | Entering r s big p | Counted r s big p =>
      at_session h r s ∧ at_hash h r s big ∧ at_path h r s p
  | Held t | Leaving t | Unslotted t | Dropping t =>
      at_session h (tk_req t) (tk_s t) ∧ at_hash h (tk_req t) (tk_s t) (tk_big t) ∧
      at_path h (tk_req t) (tk_s t) (tk_p t)
  end.

Lemma pc_located_extends h h' c : extends h h' → pc_located h c → pc_located h' c.
Proof.
  intros [E1 E2 E3].
  assert (∀ r s, at_session h r s → at_session h' r s) as A1
    by (intros r s Hs; by eapply lookup_weaken).
  assert (∀ r s big, at_hash h r s big → at_hash h' r s big) as A2
    by (intros r s [x|]; [intros Hs; by eapply lookup_weaken, E3|done]).
  assert (∀ r s p, at_path h r s p → at_path h' r s p) as A3
    by (intros r s p Hs; by eapply lookup_weaken, E2).
  destruct c; cbn [pc_located]; intros; destruct_and?; auto.
Qed.

(** A goroutine [c] beside requests in flight. *)
Record good (h : heap) (c : pc) (ts : list ticket) : Prop := mkGood {
  g_inv : inv l (mkSys h (c :: (Held <$> ts)));
  g_wired : wired h;
  g_pc : pc_located h c;
  g_ts : Forall (λ t, pc_located h (Held t)) ts
}.

Definition few (ts : list ticket) : Prop := (Z.of_nat (length ts) < 2 ^ 31 - 2)%Z.

Lemma releaseHash_frame h big k :
  sessions (releaseHash h big k) = sessions h ∧ next (releaseHash h big k) = next h ∧
  (∀ s, get_sess (releaseHash h big k) s = get_sess h s) ∧
  (∀ p, get_path (releaseHash h big k) p = get_path h p).
Proof. by destruct big. Qed.

Lemma tryAddBig_frame h x k m :
  sessions (tryAddBig h x k m).1 = sessions h ∧ next (tryAddBig h x k m).1 = next h ∧
  (∀ s, get_sess (tryAddBig h x k m).1 s = get_sess h s) ∧
  (∀ p, get_path (tryAddBig h x k m).1 p = get_path h p).
Proof. unfold tryAddBig. by case_match. Qed.

(** Every step except the deletion of a session keeps the wiring, and leaves
    the goroutine at the objects it holds. *)
Lemma exec_wired e h c h' c' :
  exec l e c h = Some (h', c') → (∀ t, c ≠ Dropping t) →
  (∀ q, q ∈ pc_locs c → (q < next h)%positive) →
  wired h → pc_located h c → wired h' ∧ extends h h' ∧ pc_located h' c'.
Proof.
  intros He Hnd Hl W Hp.
  assert (∀ h', sessions h' = sessions h → next h' = next h →
    (∀ s, paths (get_sess h' s) = paths (get_sess h s) ∧
          hashes (get_sess h' s) = hashes (get_sess h s)) →
    (pc_located h c → pc_located h c') → wired h' ∧ extends h h' ∧ pc_located h' c') as Hframe.
  { intros h2 H1 H2 H3 H4. destruct (wired_frame h h2 H1 H2 H3 W) as [W2 E2].
    eauto using pc_located_extends. }
  destruct c as [r|r s|r s|r s x|r s big|r s big p|r s big p|r big why|r s big p|r s big p|t|t|t|t|o];
    cbn [exec pc_locs] in He, Hl.
  - case_decide; [simplify_eq; by apply Hframe|].
    destruct (getSession h (sessionID r)) as [h1 s] eqn:E. simplify_eq.
    by apply getSession_wired in E.
  - case_match; simplify_eq; by apply Hframe.
  - case_match; [|simplify_eq; apply Hframe; by try split].
    destruct (getHash h s (infoHash r)) as [h1 x] eqn:E. simplify_eq.
    apply getHash_wired in E as (W1 & E1 & Hx); [|done|apply Hl; set_solver].
    split; [done|]. split; [done|]. split; [|done].
    by apply (pc_located_extends h h' (TotalOk r s)).
  - pose proof (tryAddBig_frame h x (path r) (maxBigFilesPerHash l)) as (F1 & F2 & F3 & _).
    destruct (tryAddBig h x (path r) _) as [h1 ok] eqn:E. simplify_eq/=.
    apply Hframe; [done|done|intros s'; by rewrite F3|]. by destruct ok.
  - destruct (getPath h s (pathKey r)) as [h1 p] eqn:E. simplify_eq.
    apply getPath_wired in E as (W1 & E1 & Hx); [|done|apply Hl; set_solver].
    split; [done|]. split; [done|].
    apply (pc_located_extends h h' (Slotted r s big)) in Hp as [P1 P2]; [|done]. done.
  - case_match; simplify_eq; by apply Hframe.
  - case_match; [|simplify_eq; by apply Hframe].
    destruct (trackIP h p (ip r) ipWindow (now e)) as [h1 n] eqn:E.
    pose proof (trackIP_frame h p (ip r) ipWindow (now e)) as (_ & F1 & F2 & F3).
    rewrite E in *. simplify_eq/=. apply Hframe; [done|done|intros s'; by rewrite F3|].
    by case_match.
  - simplify_eq. destruct (releaseHash_frame h big (path r)) as (F1 & F2 & F3 & _).
    apply Hframe; [done|done|intros s'; by rewrite F3|done].
  - simplify_eq. apply Hframe; [done|done|apply addTotal_refs|done].
  - simplify_eq. by apply Hframe.
  - simplify_eq. by apply Hframe.
  - simplify_eq. destruct (releaseHash_frame h (tk_big t) (path (tk_req t))) as (F1 & F2 & F3 & _).
    apply Hframe; [done|done|intros s'; by rewrite F3|done].
  - destruct (addTotal h (tk_s t) (-1)) as [h1 n] eqn:E.
    pose proof (addTotal_refs h (tk_s t) (-1)) as F. rewrite E in F. simplify_eq/=.
    assert (h' = (addTotal h (tk_s t) (-1)).1) as -> by (by rewrite E).
    apply Hframe; [done|done|done|by case_match].
  - by destruct (Hnd t).
  - done.
Qed.

Lemma good_step e h c h' c' ts :
  good h c ts → few ts → exec l e c h = Some (h', c') → (∀ t, c ≠ Dropping t) →
  good h' c' ts ∧ extends h h'.
Proof.
  intros [I W P T] Hf He Hnd. unfold few in Hf.
  destruct (exec_wired e h c h' c' He Hnd) as (W' & E' & P'); try done.
  { intros q. by apply (inv_locs _ _ I 0). }
  split; [|done]. split; [|done|done|].
  - eapply solo_inv; [by apply rtc_once|simpl; rewrite length_fmap; lia|done].
  - eapply Forall_impl; [exact T|]. intros t. by apply pc_located_extends.
Qed.

(** ** Counting requests in flight by key *)

Definition in_session (id : string) (ts : list ticket) : list ticket :=
  filter (λ t, sessionID (tk_req t) = id) ts.
Definition on_path (id key : string) (ts : list ticket) : list ticket :=
  filter (λ t, sessionID (tk_req t) = id ∧ pathKey (tk_req t) = key) ts.
Definition holds_big (id hash : string) (t : ticket) : Prop :=
  sessionID (tk_req t) = id ∧ infoHash (tk_req t) = hash ∧ tk_big t ≠ None.
#[export] Instance holds_big_dec id hash t : Decision (holds_big id hash t).
Proof. unfold holds_big. apply _. Defined.
Definition big_paths (id hash : string) (ts : list ticket) : gset string :=
  list_to_set ((λ t, path (tk_req t)) <$> filter (holds_big id hash) ts).

Lemma count_held (f : pc → bool) (P : ticket → Prop) `{∀ t, Decision (P t)} ts :
  (∀ t, t ∈ ts → f (Held t) = bool_decide (P t)) →
  count f (Held <$> ts) = Z.of_nat (length (filter P ts)).
Proof.
  induction ts as [|t ts IH]; intros Hf; [done|].
  change (count f (Held <$> t :: ts)) with (Z.b2z (f (Held t)) + count f (Held <$> ts))%Z.
  rewrite (Hf t) by set_solver. rewrite filter_cons, IH by set_solver.
  destruct (decide (P t)); [rewrite bool_decide_eq_true_2 by done|
                            rewrite bool_decide_eq_false_2 by done]; simpl; lia.
Qed.

Section counting.
Context (h : heap) (c : pc) (ts : list ticket).
Hypothesis Hg : good h c ts.

Lemma ticket_located t : t ∈ ts → pc_located h (Held t).
Proof. intros Ht. pose proof (g_ts _ _ _ Hg) as F. rewrite Forall_forall in F. by apply F. Qed.

Lemma session_total r s :
  at_session h r s → counts_total s c = false →
  total (get_sess h s) = Z.of_nat (length (in_session (sessionID r) ts)).
Proof.
  intros Hs Hc. rewrite (inv_total _ _ (g_inv _ _ _ Hg)). simpl. rewrite Hc.
  apply count_held. intros t (T & _)%ticket_located. simpl. apply bool_decide_ext.
  unfold at_session in *. split; intros E; [subst|].
  - by eapply (w_sessions _ (g_wired _ _ _ Hg)).
  - rewrite E in T. congruence.
Qed.

Lemma path_conc r s p :
  at_session h r s → at_path h r s p → counts_conc p c = false →
  conc (get_path h p) = Z.of_nat (length (on_path (sessionID r) (pathKey r) ts)).
Proof.
  intros Hs Hp Hc. rewrite (inv_conc _ _ (g_inv _ _ _ Hg)). simpl. rewrite Hc.
  apply count_held. intros t (T & _ & TP)%ticket_located. simpl. apply bool_decide_ext.
  unfold at_session, at_path in *. split; [intros ->|intros [E1 E2]].
  - destruct (w_paths _ (g_wired _ _ _ Hg) _ _ _ _ _ Hp TP) as [-> ->]. split; [|done].
    by eapply (w_sessions _ (g_wired _ _ _ Hg)).
  - rewrite E1 in T. rewrite E2 in TP. congruence.
Qed.

Lemma hash_active r s x :
  at_session h r s → at_hash h r s (Some x) → (∀ k, counts_big x k c = false) →
  dom (active h x) = big_paths (sessionID r) (infoHash r) ts.
Proof.
  intros Hs Hx Hc. apply set_eq. intros k. rewrite elem_of_dom.
  assert (is_Some (active h x !! k) ↔ (0 < map_get (active h x) k)%Z) as ->.
  { unfold map_get. destruct (active h x !! k) as [n|] eqn:E; simpl; split; intros Hk; try lia.
    - by apply (inv_pos _ _ (g_inv _ _ _ Hg) x k n).
    - by eexists.
    - by destruct Hk. }
  rewrite (inv_big _ _ (g_inv _ _ _ Hg)). simpl. rewrite Hc. simpl.
  rewrite (count_held _ (λ t, holds_big (sessionID r) (infoHash r) t ∧ path (tk_req t) = k)).
  2:{ intros t (T & TH & _)%ticket_located. simpl. apply bool_decide_ext.
      unfold at_session, holds_big in *. split; intros [E1 E2]; (split; [|done]).
      - rewrite E1 in *. simpl in *.
        destruct (w_hashes _ (g_wired _ _ _ Hg) _ _ _ _ _ Hx TH) as [-> ->].
        split; [by eapply (w_sessions _ (g_wired _ _ _ Hg))|done].
      - destruct E1 as (E3 & E4 & E5). destruct (tk_big t) as [y|] eqn:Ey; [|done].
        simpl in *. rewrite E3 in T. rewrite E4 in TH. congruence. }
  unfold big_paths. rewrite elem_of_list_to_set, list_elem_of_fmap. split.
  - intros Hl. destruct (filter _ ts) as [|t tl] eqn:E; [simpl in Hl; lia|].
    assert (t ∈ filter (λ t, holds_big (sessionID r) (infoHash r) t ∧ path (tk_req t) = k) ts)
      as Ht by (rewrite E; set_solver).
    apply list_elem_of_filter in Ht as [[H1 H2] H3]. exists t. split; [done|].
    by apply list_elem_of_filter.
  - intros (t & -> & [H1 H2]%list_elem_of_filter).
    assert (t ∈ filter (λ t', holds_big (sessionID r) (infoHash r) t' ∧
              path (tk_req t') = path (tk_req t)) ts) as Ht by (by apply list_elem_of_filter).
    destruct (filter _ ts); [by apply not_elem_of_nil in Ht|simpl; lia].
Qed.

End counting.

(** ** The specification

    [verdict] decides a request from the list of requests in flight, the
    subnets seen on its path, and whether its file is big. *)

Definition over (cap n : Z) : bool := ((0 <? cap) && (cap <=? n))%Z.

Definition total_full (ts : list ticket) (r : req) : bool :=
  over (maxTotal l) (Z.of_nat (length (in_session (sessionID r) ts))).
Definition bigs_full (big : bool) (ts : list ticket) (r : req) : bool :=
  let bigs := big_paths (sessionID r) (infoHash r) ts in
  big && bool_decide (path r ∉ bigs) && over (maxBigFilesPerHash l) (Z.of_nat (size bigs)).
Definition path_full (ts : list ticket) (r : req) : bool :=
  over (maxPerPath l) (Z.of_nat (length (on_path (sessionID r) (pathKey r) ts))).
Definition ips_full (now : Z) (seen : gmap string Z) (r : req) : bool :=
  ((0 <? maxIPsPerSession l)%Z && bool_decide (ip r ≠ "") &&
   (maxIPsPerSession l <?
      Z.of_nat (size (filter (λ kt, ¬ (kt.2 < now - ipWindow)%Z)
                        (<[subnetKey (ip r) := now]> seen))))%Z).

Definition verdict (big : bool) (now : Z) (seen : gmap string Z) (ts : list ticket) (r : req)
    : option string :=
  if decide (sessionID r = "") then None
  else if total_full ts r then Some "total"
  else if bigs_full big ts r then Some "bigfiles"
  else if path_full ts r then Some "path"
  else if ips_full now seen r then Some "ips"
  else None.

(** The subnets recorded for the path of a request. *)
Definition window (h : heap) (r : req) : gmap string Z :=
  match sessions h !! sessionID r with
  | Some s =>
      match paths (get_sess h s) !! pathKey r with
      | Some p => ips (get_path h p)
      | None => ∅
      end
  | None => ∅
  end.

Lemma window_frame h h' r :
  sessions h' = sessions h → (∀ s, paths (get_sess h' s) = paths (get_sess h s)) →
  (∀ p, get_path h' p = get_path h p) → window h' r = window h r.
Proof.
  intros Hs Hp Hg. unfold window. rewrite Hs. case_match; [|done]. rewrite Hp.
  case_match; [|done]. by rewrite Hg.
Qed.

Lemma window_getSession h r :
  window (getSession h (sessionID r)).1 r = window h r.
Proof.
  unfold getSession. destruct (sessions h !! sessionID r) as [s|] eqn:E; simpl; [done|].
  unfold window. simpl. rewrite lookup_insert_eq, E.
  change (get_sess (bump _) (next h)) with (get_sess (set_sess h (next h) new_session) (next h)).
  by rewrite get_sess_set, decide_True.
Qed.

Lemma window_getHash h r s :
  window (getHash h s (infoHash r)).1 r = window h r.
Proof.
  unfold getHash. destruct (hashes (get_sess h s) !! infoHash r); simpl; [done|].
  apply window_frame; [done| |done]. intros s'.
  change (get_sess (bump _) s') with (get_sess (set_sess h s (mkSession (total (get_sess h s))
    (paths (get_sess h s)) (<[infoHash r := next h]> (hashes (get_sess h s))))) s').
  rewrite get_sess_set. by case_decide; subst.
Qed.

(** [getPath] finds the object that holds the window. *)
Lemma window_getPath h r s h' p :
  wired h → at_session h r s → getPath h s (pathKey r) = (h', p) →
  window h' r = window h r ∧ ips (get_path h' p) = window h r.
Proof.
  intros W Hs. unfold at_session in Hs. unfold getPath.
  destruct (paths (get_sess h s) !! pathKey r) as [p0|] eqn:E; intros [= <- <-].
  { unfold window. by rewrite Hs, E. }
  set (v := mkSession _ _ _). set (h' := bump _).
  assert (get_sess h' s = v) as Hv.
  { change (get_sess h' s) with (get_sess (set_sess h s v) s).
    by rewrite get_sess_set, decide_True. }
  assert (get_path h' (next h) = new_path) as Hn.
  { change (get_path h' (next h)) with (get_path (set_path (set_sess h s v) (next h) new_path) (next h)).
    by rewrite get_path_set, decide_True. }
  unfold window. change (sessions h') with (sessions h). rewrite Hs, Hv. unfold v at 1. simpl.
  by rewrite lookup_insert_eq, E, Hn.
Qed.

(** ** [Acquire] implements the specification *)

Section decision.
Context (e : env) (h0 : heap) (ts : list ticket) (r0 : req).

Definition big : bool := isBigFile l (lookup e) (infoHash r0) (path r0).
Definition answer : option string := verdict big (now e) (window h0 r0) ts r0.

(** What a goroutine knows at each point of [Acquire]. *)
Definition known (h : heap) (c : pc) : Prop :=
  match c with
  | Start r => r = r0 ∧ h = h0
  | GotSession r _ => r = r0 ∧ sessionID r ≠ "" ∧ window h r = window h0 r
  | TotalOk r _ => r = r0 ∧ sessionID r ≠ "" ∧ window h r = window h0 r ∧ total_full ts r = false
  | GotHash r _ _ => r = r0 ∧ sessionID r ≠ "" ∧ window h r = window h0 r ∧
      total_full ts r = false ∧ big = true
  | Slotted r _ b => r = r0 ∧ sessionID r ≠ "" ∧ window h r = window h0 r ∧
      total_full ts r = false ∧ bigs_full big ts r = false ∧ big = bool_decide (b ≠ None)
  | GotPath r _ b p => r = r0 ∧ sessionID r ≠ "" ∧ ips (get_path h p) = window h0 r ∧
      total_full ts r = false ∧ bigs_full big ts r = false ∧ big = bool_decide (b ≠ None)
  | ConcOk r _ b p => r = r0 ∧ sessionID r ≠ "" ∧ ips (get_path h p) = window h0 r ∧
      total_full ts r = false ∧ bigs_full big ts r = false ∧ big = bool_decide (b ≠ None) ∧
      path_full ts r = false
  | Rejecting r _ why => r = r0 ∧ answer = Some why
  | Entering r _ b _ | Counted r _ b _ =>
      r = r0 ∧ sessionID r ≠ "" ∧ answer = None ∧ big = bool_decide (b ≠ None)
  | Held t => tk_req t = r0 ∧ sessionID r0 ≠ "" ∧ answer = None ∧
      big = bool_decide (tk_big t ≠ None)
  | Done (Some why) => answer = Some why
  | Done None => sessionID r0 = ""
  | Leaving _ | Unslotted _ | Dropping _ => False
  end.

Lemma known_step h c h' c' :
  good h c ts → known h c → exec l e c h = Some (h', c') → acquiring c = true → known h' c'.
Proof.
  intros G K He Ha. pose proof (g_pc _ _ _ G) as P.
  destruct c as [r|r s|r s|r s x|r s b|r s b p|r s b p|r b why|r s b p|r s b p|t|t|t|t|o];
    cbn [exec known pc_located acquiring] in *; try done.
  - destruct K as [-> ->]. case_decide; [by simplify_eq|].
    pose proof (window_getSession h0 r0) as Hw.
    destruct (getSession h0 (sessionID r0)) as [h1 s]. by simplify_eq.
  - destruct K as (-> & K1 & K2). change (_ && _)%Z with (over (maxTotal l) (total (get_sess h s))) in He.
    rewrite (session_total _ _ _ G _ _ P eq_refl) in He.
    change (over _ _) with (total_full ts r0) in He.
    destruct (total_full ts r0) eqn:E; simplify_eq; cbn [known]; [|done].
    unfold answer, verdict. by rewrite decide_False, E.
  - destruct K as (-> & K1 & K2 & K3). fold big in He. destruct big eqn:Eb.
    + pose proof (window_getHash h r0 s) as Hw.
      destruct (getHash h s (infoHash r0)) as [h1 x]. simplify_eq/=. by rewrite Hw.
    + simplify_eq/=. unfold bigs_full. by rewrite Eb.
  - destruct K as (-> & K1 & K2 & K3 & Kb). destruct P as [P1 P2].
    pose proof (hash_active _ _ _ G _ _ _ P1 P2 (λ _, eq_refl)) as Hd.
    assert (bigs_full big ts r0 =
      (bool_decide (active h x !! path r0 = None) && (0 <? maxBigFilesPerHash l)%Z &&
       (maxBigFilesPerHash l <=? Z.of_nat (size (active h x)))%Z)) as Hb.
    { unfold bigs_full. rewrite Kb, <-Hd, size_dom. unfold over. simpl. rewrite andb_assoc.
      do 2 f_equal. apply bool_decide_ext. by rewrite not_elem_of_dom. }
    unfold tryAddBig in He. change (activeBigPaths (get_hash h x)) with (active h x) in He.
    rewrite <-Hb in He. destruct (bigs_full big ts r0) eqn:E; simplify_eq/=.
    + unfold answer, verdict. by rewrite decide_False, K3, E.
    + split; [done|]. split; [done|]. split; [by rewrite <-K2|]. done.
  - destruct K as (-> & K1 & K2 & K3 & K4 & K5). destruct P as [P1 P2].
    destruct (getPath h s (pathKey r0)) as [h1 p] eqn:E. simplify_eq/=.
    apply window_getPath in E as [_ E]; [|apply (g_wired _ _ _ G)|done]. by rewrite E.
  - destruct K as (-> & K1 & K2 & K3 & K4 & K5). destruct P as (P1 & P2 & P3).
    change (_ && _)%Z with (over (maxPerPath l) (conc (get_path h p))) in He.
    rewrite (path_conc _ _ _ G _ _ _ P1 P3 eq_refl) in He.
    change (over _ _) with (path_full ts r0) in He.
    destruct (path_full ts r0) eqn:E; simplify_eq/=; [|done].
    unfold answer, verdict. by rewrite decide_False, K3, K4, E.
  - destruct K as (-> & K1 & K2 & K3 & K4 & K5 & K6).
    assert (answer = if ips_full (now e) (window h0 r0) r0 then Some "ips" else None) as Hans.
    { unfold answer, verdict. by rewrite decide_False, K3, K4, K6. }
    unfold ips_full in Hans. destruct ((0 <? maxIPsPerSession l)%Z && _); simplify_eq/=; [|done].
    rewrite K2. destruct (_ <? _)%Z; simpl in *; by rewrite Hans.
  - destruct K as [-> K]. by simplify_eq/=.
  - by simplify_eq/=.
  - destruct K as (-> & K1 & K2 & K3). by simplify_eq/=.
Qed.

End decision.

(** ** Histories of uninterrupted handlers *)

(** [history h ts]: some sequence of whole [Acquire] and release calls, at any
    times and with any size cache, leads to the heap [h] with the requests
    [ts] in flight. *)
Inductive history : heap → list ticket → Prop :=
  | hist_init : history empty_heap []
  | hist_reject h ts lk t r h' why :
      history h ts → Acquire l lk t h r = (h', inr why) → history h' ts
  | hist_free h ts lk t r h' :
      history h ts → Acquire l lk t h r = (h', inl NoRelease) → history h' ts
  | hist_admit h ts lk t r h' tk :
      history h ts → few (tk :: ts) →
      Acquire l lk t h r = (h', inl (Release tk)) → history h' (tk :: ts)
  | hist_release h ts ts' tk :
      history h ts → ts ≡ₚ tk :: ts' → history (run_release h (Release tk)) ts'.

Lemma inv_swap_idle h o c ts :
  inv l (mkSys h (Done o :: (Held <$> c :: ts))) ↔ inv l (mkSys h (Held c :: (Held <$> ts))).
Proof. rewrite inv_idle by done. done. Qed.

Lemma good_acquire h ts e r h' c' :
  good h (Done None) ts → few ts → rtc (acq_step e) (h, Start r) (h', c') →
  good h' c' ts ∧ known e h ts r h' c'.
Proof.
  intros G Hf.
  assert (good h (Start r) ts) as G0.
  { destruct G as [I W P T]. split; try done. rewrite inv_idle in I |- * by done. done. }
  assert (known e h ts r h (Start r)) as K0 by done.
  generalize (Start r) K0 G0. clear G G0 K0. intros c K G Hr.
  remember (h, c) as a eqn:Ea. remember (h', c') as b.
  assert (∀ h1 c1, a = (h1, c1) → good h1 c1 ts → known e h ts r h1 c1 →
            good h' c' ts ∧ known e h ts r h' c') as Hgen.
  { clear Ea G K. induction Hr as [|a [h2 c2] b [Hs Ha] Hr IH]; intros h1 c1 -> G K.
    - by simplify_eq.
    - apply (IH Heqb h2 c2); [done| |].
      + eapply good_step; [done|done|exact Hs|]. by intros t ->.
      + by eapply known_step. }
  by eapply Hgen.
Qed.

Lemma good_drop h t ts :
  good h (Dropping t) ts → few ts →
  good (dropSession h (sessionID (tk_req t)) (tk_s t)) (Done None) ts.
Proof.
  intros G Hf.
  assert (inv l (mkSys (dropSession h (sessionID (tk_req t)) (tk_s t)) (Done None :: (Held <$> ts))))
    as I'.
  { eapply (solo_inv (mkEnv 0 None) h (Dropping t)); [by apply rtc_once| |apply G].
    simpl. rewrite length_fmap. unfold few in Hf. lia. }
  revert I'. unfold dropSession. destruct (Z.leb_spec (total (get_sess h (tk_s t))) 0) as [Hle|_];
    intros I'; [|destruct G as [I W P T]; by split].
  pose proof (g_pc _ _ _ G) as (P1 & _ & _).
  rewrite (session_total _ _ _ G _ _ P1 eq_refl) in Hle.
  destruct G as [I W P T]. destruct W as [R W2 W3 W4 W5]. split; [done| |done|].
  - split; try done.
    + apply (refs_below_frame h); [apply delete_subseteq|done|done|done].
    + cbn [sessions set_sessions]. intros id id' s [_ H1]%lookup_delete_Some [_ H2]%lookup_delete_Some. by eapply W2.
  - rewrite Forall_forall in T |- *. intros u Hu. destruct (T u Hu) as (T1 & T2 & T3).
    split; [|by split]. apply lookup_delete_Some. split; [|done]. intros E.
    assert (u ∈ in_session (sessionID (tk_req t)) ts) as Hin by (by apply list_elem_of_filter).
    destruct (in_session _ ts); [by apply not_elem_of_nil in Hin|simpl in Hle; lia].
Qed.

Lemma good_release h t ts :
  good h (Held t) ts → few ts → good (run_release h (Release t)) (Done None) ts.
Proof.
  intros G Hf. pose proof (run_release_solo (mkEnv 0 None) h t) as Hr.
  remember (h, Held t) as a eqn:Ea. remember (run_release h (Release t), Done None) as b eqn:Eb.
  assert (∀ h1 c1, a = (h1, c1) → good h1 c1 ts →
            good (run_release h (Release t)) (Done None) ts) as Hgen.
  { clear Ea G. induction Hr as [|a [h2 c2] b Hs Hr IH]; intros h1 c1 -> G; [by simplify_eq|].
    apply (IH Eb h2 c2); [done|].
    assert ((∃ u, c1 = Dropping u) ∨ ∀ u, c1 ≠ Dropping u) as [[u ->]|Hnd]
      by (destruct c1; eauto).
    - unfold solo_step in Hs. simpl in Hs. injection Hs as <- <-. by apply good_drop.
    - by eapply good_step. }
  by eapply Hgen.
Qed.

Lemma good_finish h c ts o :
  good h c ts → (c = Done o) → good h (Done None) ts.
Proof.
  intros [I W P T] ->. split; try done. rewrite inv_idle in I |- * by done. done.
Qed.

Lemma history_good h ts : history h ts → good h (Done None) ts ∧ few ts.
Proof.
  induction 1 as [|h ts lk t r h' why Hh [IH Hf] HA|h ts lk t r h' Hh [IH Hf] HA
                 |h ts lk t r h' tk Hh [IH Hf] Hf' HA|h ts ts' tk Hh [IH Hf] Hp].
  - split; [|by vm_compute]. split; [|split|done|done]; try done.
    apply inv_idle; [done..|]. apply inv_initial. by split.
  - destruct (good_acquire _ _ _ _ _ _ IH Hf (Acquire_solo _ _ _ _ _ _ HA)) as [G _].
    split; [|done].
    by eapply good_finish.
  - by destruct (good_acquire _ _ _ _ _ _ IH Hf (Acquire_solo _ _ _ _ _ _ HA)) as [G _].
  - destruct (good_acquire _ _ _ _ _ _ IH Hf (Acquire_solo _ _ _ _ _ _ HA)) as [[I W P T] _].
    split; [|done].
    split; try done; [by rewrite inv_swap_idle|by constructor].
  - assert (few ts') as Hf'.
    { unfold few in *. apply Permutation_length in Hp. simpl in Hp. lia. }
    split; [|done]. apply good_release; [|done]. destruct IH as [I W P T].
    rewrite Hp in T. apply Forall_cons in T as [T1 T2]. split; try done.
    rewrite <-(inv_swap_idle h None). eapply inv_perm; [|exact I]. by rewrite Hp.
Qed.

Lemma Acquire_decides h ts lk now r h' out :
  history h ts → Acquire l lk now h r = (h', out) →
  known (mkEnv now lk) h ts r h' (acquired out).
Proof.
  intros [G Hf]%history_good HA%Acquire_solo. by eapply good_acquire.
Qed.

(** C1: [Acquire], run without interruption, decides by the specification: the
    reason it returns is the verdict over the requests in flight, the subnets
    recorded for the path and the class of the file, and an accepted request
    holds a big-file slot exactly when its file is big. *)
Theorem Acquire_refines_verdict h ts lk now r h' out :
  history h ts → Acquire l lk now h r = (h', out) →
  verdict (isBigFile l lk (infoHash r) (path r)) now (window h r) ts r =
    match out with inl _ => None | inr why => Some why end ∧
  match out with
  | inl NoRelease => sessionID r = ""
  | inl (Release t) => tk_req t = r ∧ sessionID r ≠ "" ∧
      (tk_big t ≠ None ↔ isBigFile l lk (infoHash r) (path r) = true)
  | inr _ => sessionID r ≠ ""
  end.
Proof.
  intros Hh HA. pose proof (Acquire_decides _ _ _ _ _ _ _ Hh HA) as K. unfold verdict.
  destruct out as [[|t]|why]; cbn [acquired known] in K.
  - by rewrite decide_True.
  - destruct K as (K1 & K2 & K3 & K4). unfold answer, verdict, big in *. cbn [lookup] in *.
    split; [done|]. split; [done|]. split; [done|]. by rewrite K4, bool_decide_eq_true.
  - unfold answer, verdict, big in K. cbn [lookup] in K. split; [done|].
    intros Hs. by rewrite decide_True in K.
Qed.

Lemma over_false cap n : over cap n = false → (0 < cap → n + 1 ≤ cap)%Z.
Proof. unfold over. intros [E|E]%andb_false_iff; lia. Qed.

Lemma verdict_none bg now w ts r :
  verdict bg now w ts r = None → sessionID r ≠ "" →
  total_full ts r = false ∧ bigs_full bg ts r = false ∧ path_full ts r = false.
Proof. unfold verdict. intros Hv ?. rewrite decide_False in Hv by done. by repeat case_match. Qed.

Record capped (ts : list ticket) : Prop := mkCapped {
  cap_total id : (0 < maxTotal l → Z.of_nat (length (in_session id ts)) ≤ maxTotal l)%Z;
  cap_path id key : (0 < maxPerPath l → Z.of_nat (length (on_path id key ts)) ≤ maxPerPath l)%Z;
  cap_big id hash : (0 < maxBigFilesPerHash l →
    Z.of_nat (size (big_paths id hash ts)) ≤ maxBigFilesPerHash l)%Z
}.

Lemma big_paths_cons id hash t ts :
  big_paths id hash (t :: ts) =
    if decide (holds_big id hash t) then {[path (tk_req t)]} ∪ big_paths id hash ts
    else big_paths id hash ts.
Proof. unfold big_paths. rewrite filter_cons. by case_decide. Qed.

Lemma capped_admit ts t r bg now w :
  capped ts → verdict bg now w ts r = None → tk_req t = r → sessionID r ≠ "" →
  bg = bool_decide (tk_big t ≠ None) → capped (t :: ts).
Proof.
  intros [C1 C2 C3] Hv <- Hs Hb.
  destruct (verdict_none _ _ _ _ _ Hv Hs) as (V1 & V2 & V3).
  pose proof (over_false _ _ V1) as W1. pose proof (over_false _ _ V3) as W3. split.
  - intros id Hm. specialize (W1 Hm). specialize (C1 id Hm).
    unfold in_session in *. rewrite filter_cons. case_decide; [subst; simpl; lia|done].
  - intros id key Hm. specialize (W3 Hm). specialize (C2 id key Hm).
    unfold on_path in *. rewrite filter_cons. case_decide as E; [|done].
    destruct E as [<- <-]. simpl. lia.
  - intros id hash Hm. specialize (C3 id hash Hm). rewrite big_paths_cons.
    case_decide as E; [|done]. destruct E as (<- & <- & Ht).
    unfold bigs_full in V2. rewrite Hb, bool_decide_eq_true_2 in V2 by done. simpl in V2.
    destruct (decide (path (tk_req t) ∈ big_paths (sessionID (tk_req t)) (infoHash (tk_req t)) ts)).
    + rewrite subseteq_union_1_L by set_solver. done.
    + rewrite bool_decide_eq_true_2 in V2 by done. apply over_false in V2; [|done].
      rewrite size_union by set_solver. rewrite size_singleton. lia.
Qed.

Lemma capped_perm ts ts' : ts ≡ₚ ts' → capped ts → capped ts'.
Proof.
  intros Hp [C1 C2 C3]. split; intros *.
  - unfold in_session. rewrite <-Hp. apply C1.
  - unfold on_path. rewrite <-Hp. apply C2.
  - unfold big_paths. rewrite <-Hp. apply C3.
Qed.

Lemma capped_tail t ts : capped (t :: ts) → capped ts.
Proof.
  intros [C1 C2 C3]. split; intros * Hm.
  - specialize (C1 id Hm). unfold in_session in *. rewrite filter_cons in C1.
    case_decide; simpl in *; lia.
  - specialize (C2 id key Hm). unfold on_path in *. rewrite filter_cons in C2.
    case_decide; simpl in *; lia.
  - specialize (C3 id hash Hm). rewrite big_paths_cons in C3. case_decide; [|done].
    assert (size (big_paths id hash ts) ≤ size ({[path (tk_req t)]} ∪ big_paths id hash ts))
      by (apply subseteq_size; set_solver). lia.
Qed.

(** As long as the handlers do not interleave, all three concurrency caps
    hold at every moment of every history: requests per session, requests per
    (session, torrent, path), and distinct big files per (session, torrent). *)
Theorem history_caps h ts : history h ts → capped ts.
Proof.
  induction 1 as [|h ts lk t r h' why Hh IH HA|h ts lk t r h' Hh IH HA
                 |h ts lk t r h' tk Hh IH Hf' HA|h ts ts' tk Hh IH Hp]; try done.
  - split; intros; [simpl; lia..|].
    change (big_paths id hash []) with (∅ : gset string). rewrite size_empty. lia.
  - pose proof (Acquire_decides _ _ _ _ _ _ _ Hh HA) as (K1 & K2 & K3 & K4).
    eapply capped_admit; [done|exact K3|done|done|exact K4].
  - by eapply capped_tail, capped_perm.
Qed.

(** ** Sessions are created and dropped with their requests *)

Lemma exec_sessions e c h h' c' :
  exec l e c h = Some (h', c') → (∀ r, c ≠ Start r) → (∀ t, c ≠ Dropping t) →
  sessions h' = sessions h.
Proof.
  intros He Hns Hnd.
  destruct c as [r|r s|r s|r s x|r s b|r s b p|r s b p|r b why|r s b p|r s b p|t|t|t|t|o];
    cbn [exec] in He; try (by simplify_eq).
  - by destruct (Hns r).
  - by repeat case_match; simplify_eq/=.
  - case_match; [|by simplify_eq]. unfold getHash in He. by repeat case_match; simplify_eq/=.
  - pose proof (tryAddBig_frame h x (path r) (maxBigFilesPerHash l)) as (F & _).
    destruct (tryAddBig _ _ _ _) as [h1 ok]. by simplify_eq.
  - unfold getPath in He. by repeat case_match; simplify_eq/=.
  - by repeat case_match; simplify_eq/=.
  - case_match; [unfold trackIP in He|]; by simplify_eq/=.
  - simplify_eq. apply releaseHash_frame.
  - simplify_eq. apply releaseHash_frame.
  - unfold addTotal in He. by simplify_eq/=.
  - by destruct (Hnd t).
Qed.

Definition after_session (h : heap) (r : req) : gmap string loc :=
  if decide (sessionID r = "") then sessions h else sessions (getSession h (sessionID r)).1.

Lemma Acquire_sessions lk now h r h' out :
  Acquire l lk now h r = (h', out) → sessions h' = after_session h r.
Proof.
  intros HA%Acquire_solo. remember (h', acquired out) as b.
  apply rtc_inv in HA as [HA|(b1 & [Hs _] & Hr)].
  { subst b. injection HA as <- HA. by destruct out as [[]|]. }
  assert (sessions b1.1 = after_session h r ∧ ∀ q, b1.2 ≠ Start q) as [H1 H2].
  { unfold solo_step in Hs. cbn [exec fst snd] in Hs. unfold after_session. case_decide.
    - by simplify_eq/=.
    - destruct (getSession h (sessionID r)). by simplify_eq/=. }
  change h' with ((h', acquired out).1). rewrite <-Heqb. clear Heqb Hs.
  induction Hr as [|a b c [Hs Ha] Hr IH]; [done|].
  unfold solo_step in Hs. destruct b as [hb cb].
  pose proof (exec_sessions _ _ _ _ _ Hs H2) as Hb. apply IH.
  - simpl. rewrite Hb; [done|]. by intros t Ht; rewrite Ht in Ha.
  - simpl. destruct a as [ha ca]. simpl in *. clear -Hs.
    destruct ca; cbn [exec] in Hs; repeat case_match; naive_solver.
Qed.

Lemma in_session_perm id ts ts' : ts ≡ₚ ts' → in_session id ts = [] ↔ in_session id ts' = [].
Proof.
  intros Hp. unfold in_session. rewrite <-!length_zero_iff_nil. by rewrite Hp.
Qed.

(** Nothing in flight for the session: nothing is full. *)
Lemma idle_verdict h ts bg now r :
  good h (Done None) ts → sessions h !! sessionID r = None → in_session (sessionID r) ts = [] →
  verdict bg now (window h r) ts r = None.
Proof.
  intros G Hs Hn. unfold verdict. case_decide; [done|].
  assert (∀ cap, over cap 0 = false) as Ho by (intros; unfold over; lia).
  assert (∀ (P : ticket → Prop) `{∀ t, Decision (P t)},
    (∀ t, P t → sessionID (tk_req t) = sessionID r) → filter P ts = []) as Hf.
  { intros P ? HP. apply length_zero_iff_nil.
    assert (length (filter P ts) ≤ length (in_session (sessionID r) ts)) as Hle.
    { unfold in_session. clear -HP. induction ts as [|t ts IH]; [done|]. rewrite !filter_cons.
      destruct (decide (P t)) as [Ht|]; [rewrite decide_True by auto; simpl; lia|].
      case_decide; simpl; lia. }
    rewrite Hn in Hle. simpl in Hle. lia. }
  unfold total_full. rewrite Hn. rewrite Ho.
  unfold bigs_full, big_paths. rewrite Hf by (by intros t (? & _)).
  change (list_to_set _) with (∅ : gset string). rewrite size_empty, Ho, andb_false_r.
  unfold path_full, on_path. rewrite Hf by (by intros t [? _]). rewrite Ho.
  unfold ips_full, window. rewrite Hs, insert_empty.
  rewrite map_filter_singleton_True by (simpl; unfold ipWindow; lia).
  rewrite map_size_singleton.
  destruct (Z.ltb_spec 0 (maxIPsPerSession l)); [|done].
  destruct (Z.ltb_spec (maxIPsPerSession l) (Z.of_nat 1)); [lia|]. by rewrite andb_false_r.
Qed.

Lemma run_release_sessions h t ts :
  good h (Held t) ts → few ts →
  sessions (run_release h (Release t)) =
    if decide (in_session (sessionID (tk_req t)) ts = [])
    then delete (sessionID (tk_req t)) (sessions h) else sessions h.
Proof.
  intros G Hf. pose proof (g_pc _ _ _ G) as (P1 & _ & _).
  set (id := sessionID (tk_req t)) in *.
  assert (total (get_sess h (tk_s t)) = Z.of_nat (length (in_session id ts)) + 1)%Z as Ht.
  { assert (good h (Done None) (t :: ts)) as G'.
    { destruct G as [I W P T]. split; try done; [|by constructor].
      by rewrite inv_swap_idle. }
    rewrite (session_total _ _ _ G' _ _ P1 eq_refl). fold id.
    unfold in_session. rewrite filter_cons, decide_True by done. simpl. lia. }
  unfold run_release. set (h2 := releaseHash (addConc h (tk_p t) (-1)) (tk_big t) _).
  pose proof (releaseHash_frame (addConc h (tk_p t) (-1)) (tk_big t) (path (tk_req t)))
    as (F1 & _ & F3 & _). fold h2 in F1, F3.
  change (get_sess (addConc h (tk_p t) (-1)) ?x) with (get_sess h x) in F3.
  change (sessions (addConc h (tk_p t) (-1))) with (sessions h) in F1.
  assert (length (in_session id ts) ≤ length ts) as Hlen by apply length_filter.
  pose proof (addTotal_total h2 (tk_s t) (-1) (tk_s t)) as Hadd.
  rewrite decide_True, F3, Ht in Hadd by done. unfold few in Hf.
  rewrite int32_small in Hadd by lia.
  assert ((addTotal h2 (tk_s t) (-1)).2 = Z.of_nat (length (in_session id ts))) as Hv.
  { unfold addTotal. cbn [snd]. rewrite F3, Ht, int32_small by lia. lia. }
  assert (sessions (addTotal h2 (tk_s t) (-1)).1 = sessions h) as Hs by done.
  destruct (addTotal h2 (tk_s t) (-1)) as [h3 n]. simpl in *. subst n.
  case_decide as E.
  - rewrite E in *. simpl. unfold dropSession. rewrite Hadd. simpl. by rewrite Hs.
  - rewrite <-length_zero_iff_nil in E. destruct (Z.leb_spec (Z.of_nat (length (in_session id ts))) 0); [lia|done].
Qed.

(** C27: no session object is leaked and none is dropped early: between
    uninterrupted handlers the limiter knows a session exactly while one of
    its requests is in flight. *)
Theorem no_session_leak h ts id :
  history h ts → is_Some (sessions h !! id) ↔ in_session id ts ≠ [].
Proof.
  intros Hh. revert id. induction Hh as [|h ts lk t r h' why Hh IH HA|h ts lk t r h' Hh IH HA
                 |h ts lk t r h' tk Hh IH Hf' HA|h ts ts' tk Hh IH Hp]; intros id.
  - simpl. rewrite lookup_empty. split; [by intros []|done].
  - rewrite (Acquire_sessions _ _ _ _ _ _ HA). unfold after_session.
    pose proof (Acquire_decides _ _ _ _ _ _ _ Hh HA) as K. cbn [acquired known] in K.
    unfold answer in K. case_decide; [apply IH|]. unfold getSession.
    destruct (sessions h !! sessionID r) as [s|] eqn:E; [apply IH|].
    rewrite idle_verdict in K; [done|by apply history_good|done|].
    destruct (in_session (sessionID r) ts) eqn:E2; [done|].
    assert (is_Some (sessions h !! sessionID r)) as [s Hs] by (apply IH; by rewrite E2).
    congruence.
  - rewrite (Acquire_sessions _ _ _ _ _ _ HA). unfold after_session.
    pose proof (Acquire_decides _ _ _ _ _ _ _ Hh HA) as K. simpl in K.
    rewrite decide_True by done. apply IH.
  - rewrite (Acquire_sessions _ _ _ _ _ _ HA). unfold after_session.
    pose proof (Acquire_decides _ _ _ _ _ _ _ Hh HA) as (K1 & K2 & _ & _).
    rewrite decide_False by done. unfold in_session. rewrite filter_cons, K1. unfold getSession.
    destruct (decide (sessionID r = id)) as [<-|Hne].
    + split; [done|intros _]. destruct (sessions h !! sessionID r) eqn:E; simpl; [by eexists|].
      by rewrite lookup_insert_eq.
    + fold (in_session id ts). rewrite <-IH.
      destruct (sessions h !! sessionID r) eqn:E; simpl; [done|]. by rewrite lookup_insert_ne.
  - destruct (history_good _ _ Hh) as [G Hf].
    assert (good h (Held tk) ts' ∧ few ts') as [G' Hf'].
    { destruct G as [I W P T]. rewrite Hp in T. apply Forall_cons in T as [T1 T2].
      split; [split; try done|].
      - rewrite <-(inv_swap_idle h None). eapply inv_perm; [|exact I]. by rewrite Hp.
      - unfold few in *. apply Permutation_length in Hp. simpl in Hp. lia. }
    rewrite (run_release_sessions _ _ _ G' Hf').
    assert (∀ id, in_session id (tk :: ts') = [] ↔ in_session id ts = []) as Hin
      by (intros; by apply in_session_perm).
    destruct (decide (id = sessionID (tk_req tk))) as [->|Hne].
    + case_decide as E.
      * rewrite lookup_delete_eq, E. split; [by intros []|done].
      * rewrite IH, <-Hin. unfold in_session at 1. by rewrite filter_cons, decide_True.
    + assert (in_session id (tk :: ts') = in_session id ts') as E
        by (unfold in_session; by rewrite filter_cons, decide_False).
      specialize (Hin id). rewrite E in Hin. specialize (IH id).
      case_decide; [rewrite lookup_delete_ne by done|]; rewrite IH; naive_solver.
Qed.

End seq.

(** ** Uninterrupted handlers are runs of the interleaved system *)

Lemma solo_steps `{GoUnicode} l e a b cs i :
  rtc (solo_step l e) a b → cs !! i = Some a.2 →
  rtc (step l) (mkSys a.1 cs) (mkSys b.1 (<[i := b.2]> cs)).
Proof.
  intros Hr. revert cs. induction Hr as [|a c b Hs Hr IH]; intros cs Hi.
  - by rewrite list_insert_id.
  - eapply rtc_l.
    + by eapply (step_thread l a.1 cs i a.2 e c.1 c.2); [|destruct c].
    + replace (<[i := b.2]> cs) with (<[i := b.2]> (<[i := c.2]> cs))
        by apply list_insert_insert_eq.
      apply IH, list_lookup_insert_eq. by eapply lookup_lt_Some.
Qed.

(** [Acquire] and the release closure, as the source writes them, are runs
    of one goroutine of the interleaved system beside any others, so every
    invariant of the interleaved system covers them. *)
Theorem handlers_are_steps `{GoUnicode} l h cs i :
  (∀ r lk t h' out, cs !! i = Some (Start r) → Acquire l lk t h r = (h', out) →
    rtc (step l) (mkSys h cs) (mkSys h' (<[i := acquired out]> cs))) ∧
  (∀ tk, cs !! i = Some (Held tk) →
    rtc (step l) (mkSys h cs) (mkSys (run_release h (Release tk)) (<[i := Done None]> cs))).
Proof.
  split.
  - intros r lk t h' out Hi HA%Acquire_solo%acq_solo.
    exact (solo_steps l _ (h, Start r) (h', acquired out) cs i HA Hi).
  - intros tk Hi.
    exact (solo_steps l (mkEnv 0 None) (h, Held tk) (run_release h (Release tk), Done None) cs i
             (run_release_solo l _ h tk) Hi).
Qed.

(** ** Concrete histories *)

#[local] Existing Instance demo_unicode.

Definition caps_limiter : SessionLimiter := mkLimiter 1 1 0 ∅ 2 0.
Definition req_on (p : string) : req := mkReq "sid" "hash" p "".

Definition one_request : heap * (release + string) :=
  Acquire caps_limiter None 0 empty_heap (req_on "/a.mp4").
Definition ticket_of (out : release + string) : ticket :=
  match out with inl (Release t) => t | _ => mkTicket (req_on "") 1 None 1 end.

Lemma one_request_history : history caps_limiter one_request.1 [ticket_of one_request.2].
Proof.
  eapply (hist_admit _ empty_heap [] None 0 (req_on "/a.mp4")); [constructor|by vm_compute|].
  by vm_compute.
Qed.

Example Acquire_refines_verdict_witness :
  verdict caps_limiter true 0 ∅ [ticket_of one_request.2] (req_on "/b.mp4") = Some "bigfiles".
Proof.
  exact (proj1 (Acquire_refines_verdict caps_limiter _ _ None 0 (req_on "/b.mp4")
    (Acquire caps_limiter None 0 one_request.1 (req_on "/b.mp4")).1 (inr "bigfiles")
    one_request_history ltac:(by vm_compute))).
Defined.

Example history_caps_witness : length (in_session "sid" [ticket_of one_request.2]) = 1 ∧
  (Z.of_nat (length (in_session "sid" [ticket_of one_request.2])) ≤ 2)%Z.
Proof.
  split; [by vm_compute|].
  exact (cap_total _ _ (history_caps caps_limiter _ _ one_request_history) "sid" eq_refl).
Defined.

Example handlers_are_steps_witness :
  rtc (step caps_limiter) (mkSys empty_heap [Start (req_on "/a.mp4"); Start (req_on "/b.mp4")])
    (mkSys one_request.1 [Held (ticket_of one_request.2); Start (req_on "/b.mp4")]).
Proof.
  exact (proj1 (handlers_are_steps caps_limiter empty_heap
    [Start (req_on "/a.mp4"); Start (req_on "/b.mp4")] 0) (req_on "/a.mp4") None 0%Z
    one_request.1 one_request.2 eq_refl ltac:(by vm_compute)).
Defined.

Example no_session_leak_witness :
  is_Some (sessions one_request.1 !! "sid").
Proof.
  apply (proj2 (no_session_leak caps_limiter _ _ "sid" one_request_history)). by vm_compute.
Defined.

(** Run a list of requests, each to its end before the next begins. *)
Fixpoint run_all (l : SessionLimiter) (now : Z) (h : heap) (rs : list req) : list bool * heap :=
  match rs with
  | [] => ([], h)
  | r :: rs =>
      let '(h, out) := Acquire l None now h r in
      let h := match out with inl rel => run_release h rel | inr _ => h end in
      let '(oks, h) := run_all l now h rs in
      (match out with inl _ => true | inr _ => false end :: oks, h)
  end.

Definition from_ip (a : string) : req := mkReq "sid" "hash" "/a.mp4" a.

(** The window of client subnets lives in the session object, which the
    last release of the session deletes.  With a cap of one subnet per 60 s,
    requests from three subnets in the same second all pass when each ends
    before the next starts; with another request of the session in flight the
    second subnet is refused. *)
Example ip_window_forgotten :
  let l := mkLimiter 0 0 0 ∅ 0 1 in
  let rs := map from_ip ["198.51.100.1"; "203.0.113.1"; "192.0.2.1"] in
  (run_all l 0 empty_heap rs).1 = [true; true; true] ∧
  (run_all l 0 (Acquire l None 0 empty_heap (mkReq "sid" "hash" "/other" "")).1 rs).1
    = [true; false; false].
Proof. by vm_compute. Qed.
