(* ===== verification/RetryReader.v ===== *)
(** * services/retry_transport.go: the retrying body and its header parsers

    [retryingReadCloser] as a state and its [Read] and [Close], over any kind
    of body and any reconnect function; [isRetryableError]; [parseRange] and
    [parseContentRangeStart].  [RetryTransport] builds the reconnect function
    and the wrapping [RoundTrip] on top. *)

From S2P Require Import Prelude GoStrings.

(** ** Errors of reads *)

(** The values the source tells apart.  [OpError] is [*net.OpError] and
    [Wrapped] any error that unwraps to another one (the prefix is what its
    text puts before the cause).  [Panicked] is not an error: it stands for a
    call that panicked instead of returning. *)
Inductive ioerr :=
  | EOF
  | ErrUnexpectedEOF
  | ErrClosedPipe
  | Canceled
  | DeadlineExceeded
  | ECONNRESET
  | EPIPE
  | ECONNREFUSED
  | OpError (prefix : string) (cause : ioerr)
  | Wrapped (prefix : string) (cause : ioerr)
  | OtherErr (msg : string)
  | Panicked (why : string).

#[export] Instance ioerr_eq_dec : EqDecision ioerr.
Proof. solve_decision. Defined.

(** [err.Error()] *)
Fixpoint ioerr_text (e : ioerr) : string :=
  match e with
  | EOF => "EOF"
  | ErrUnexpectedEOF => "unexpected EOF"
  | ErrClosedPipe => "io: read/write on closed pipe"
  | Canceled => "context canceled"
  | DeadlineExceeded => "context deadline exceeded"
  | ECONNRESET => "connection reset by peer"
  | EPIPE => "broken pipe"
  | ECONNREFUSED => "connection refused"
  | OpError p c | Wrapped p c => p +:+ ": " +:+ ioerr_text c
  | OtherErr m | Panicked m => m
  end.

(** [errors.Is(e, target)] *)
Fixpoint errors_is (e target : ioerr) : bool :=
  bool_decide (e = target) ||
  match e with
  | OpError _ c | Wrapped _ c => errors_is c target
  | _ => false
  end.

(** [errors.As(err, &netErr)] for a [*net.OpError] *)
Fixpoint errors_as_op (e : ioerr) : bool :=
  match e with
  | OpError _ _ => true
  | Wrapped _ c => errors_as_op c
  | _ => false
  end.

Definition isRetryableError (err : option ioerr) : bool :=
  match err with
  | None => false
  | Some err =>
      if decide (err = EOF) then false
      else if errors_is err Canceled || errors_is err DeadlineExceeded then false
      else if decide (err = ErrUnexpectedEOF) then true
      else if errors_is err ECONNRESET || errors_is err EPIPE || errors_is err ECONNREFUSED
      then true
      else if errors_as_op err then true
      else
        let msg := ioerr_text err in
        contains msg "connection reset" || contains msg "broken pipe"
        || contains msg "unexpected EOF"
  end.

(** ** The retrying body *)

(** How a reconnect fails: [errUpstreamEOF], another error, or a panic. *)
Inductive reconn_err := errUpstreamEOF | ReconnFailed | ReconnPanic (why : string).

(** [body] is what implements [io.ReadCloser] upstream; [world] is what the
    reconnect function reads and changes. *)
Record retryingReadCloser (body : Type) := mkRrc {
  rrc_body : body;
  bytesRead : Z;
  expected : Z;
  maxRetries : Z;
  retries : Z;
  closed : bool
}.
Arguments mkRrc {body}.
Arguments rrc_body {body}.
Arguments bytesRead {body}.
Arguments expected {body}.
Arguments maxRetries {body}.
Arguments retries {body}.
Arguments closed {body}.

Section rrc.
Context {body world : Type}.
(** [Read] of a body with a buffer of the given length: the bytes written into
    the buffer, the error, and the body after; [Close] of a body; the
    reconnect function. *)
Context (body_read : body → nat → string * option ioerr * body).
Context (body_close : body → option ioerr * body).
Context (reconnectFn : world → Z → (body + reconn_err) * world).

Definition set_body (r : retryingReadCloser body) (b : body) : retryingReadCloser body :=
  mkRrc b (bytesRead r) (expected r) (maxRetries r) (retries r) (closed r).
Definition bump_retries (r : retryingReadCloser body) : retryingReadCloser body :=
  mkRrc (rrc_body r) (bytesRead r) (expected r) (maxRetries r) (int64 (retries r + 1)) (closed r).

(** [n, err = r.body.Read(p); if n > 0 { r.bytesRead += int64(n) }] *)
Definition read_body (r : retryingReadCloser body) (p : nat)
    : string * option ioerr * retryingReadCloser body :=
  let '(d, err, b) := body_read (rrc_body r) p in
  (d, err, mkRrc b (int64 (bytesRead r + Z.of_nat (slen d))) (expected r) (maxRetries r)
             (retries r) (closed r)).

(** A panic of the reconnect goes through; what it leaves of the reader is not
    read again. *)
Definition Read (r : retryingReadCloser body) (w : world) (p : nat)
    : string * option ioerr * retryingReadCloser body * world :=
  if closed r then ("", Some ErrClosedPipe, r, w) else
  let '(d, err, r) := read_body r p in
  match err with
  | None => (d, err, r, w)
  | Some err =>
      if decide (err = EOF) then (d, Some err, r, w)
      else if decide (d ≠ "") then (d, None, r, w)
      else if negb (isRetryableError (Some err)) then ("", Some err, r, w)
      else if (0 <=? expected r)%Z && (expected r <=? bytesRead r)%Z then ("", Some EOF, r, w)
      else if (maxRetries r <=? retries r)%Z then ("", Some err, r, w)
      else
        let r := set_body r (body_close (rrc_body r)).2 in
        let '(res, w) := reconnectFn w (bytesRead r) in
        let r := bump_retries r in
        match res with
        | inr errUpstreamEOF => ("", Some EOF, r, w)
        | inr ReconnFailed => ("", Some err, r, w)
        | inr (ReconnPanic why) => ("", Some (Panicked why), r, w)
        | inl newBody => let '(d, err, r) := read_body (set_body r newBody) p in (d, err, r, w)
        end
  end.

Definition Close (r : retryingReadCloser body) : option ioerr * retryingReadCloser body :=
  let '(e, b) := body_close (rrc_body r) in
  (e, mkRrc b (bytesRead r) (expected r) (maxRetries r) (retries r) true).

(** A client that reads with buffers of the given sizes: the results of the
    calls, and the state after them. *)
Fixpoint reads (r : retryingReadCloser body) (w : world) (ps : list nat)
    : list (string * option ioerr) * retryingReadCloser body * world :=
  match ps with
  | [] => ([], r, w)
  | p :: ps =>
      let '(d, e, r, w) := Read r w p in
      let '(out, r, w) := reads r w ps in
      ((d, e) :: out, r, w)
  end.

(** [io.ReadAll] and [io.Copy]: read until an error.  [None] when the fuel runs
    out. *)
Fixpoint read_all (fuel : nat) (r : retryingReadCloser body) (w : world) (p : nat)
    : option (string * ioerr) :=
  match fuel with
  | 0 => None
  | S fuel =>
      let '(d, e, r, w) := Read r w p in
      match e with
      | Some e => Some (d, e)
      | None => (λ '(s, e), (d +:+ s, e)) <$> read_all fuel r w p
      end
  end.

End rrc.

(** ** Header parsers *)

(** [parseRange]: [Some (start, Some end)], [Some (start, None)] without an
    end, [None] when it is not ok. *)
Definition parseRange (rangeHeader : string) : option (Z * option Z) :=
  match split_n2 (trim_prefix rangeHeader "bytes=") "-" with
  | [a; b] =>
      if decide (a = "") then None else
      match parse_int 10 a with
      | None => None
      | Some start =>
          if decide (b = "") then Some (start, None)
          else match parse_int 10 b with
               | None => None
               | Some end_ => Some (start, Some end_)
               end
      end
  | _ => None
  end.

Definition parseContentRangeStart (h : string) : option Z :=
  let h := trim_prefix h "bytes " in
  match index_byte h "-" with
  | None => None
  | Some dash => if decide (dash = 0) then None else parse_int 10 (str_take dash h)
  end.

Example parseRange_ex :
  map parseRange ["bytes=100-"; "bytes=100-200"; "bytes=-28321"; "bytes=-"; "bytes=abc-"; "bytes=1-abc"]
  = [Some (100, None); Some (100, Some 200); None; None; None; None]%Z.
Proof. by vm_compute. Qed.

Example parseContentRangeStart_ex :
  map parseContentRangeStart ["bytes 100-199/2000"; "bytes 0-0/1"; "bytes */2000"; ""; "bytes abc-1/2"]
  = [Some 100; Some 0; None; None; None]%Z.
Proof. by vm_compute. Qed.

(** ** The stream a client reads

    The upstream stream is [obj]; [serves b k] says that the body [b] will
    produce [obj] from offset [k].  Bodies and reconnects that keep to that
    are all the section assumes: when, where and how often connections break
    is left open. *)

Lemma str_drop_add n m s : str_drop (n + m) s = str_drop m (str_drop n s).
Proof.
  revert s. induction n as [|n IH]; intros [|c s]; [done|done|by destruct m|apply IH].
Qed.
Lemma slen_drop n s : slen (str_drop n s) = slen s - n.
Proof. revert s. induction n as [|n IH]; intros [|c s]; simpl; auto. Qed.
Lemma slen_zero s : slen s = 0 → s = "".
Proof. by destruct s. Qed.

Section stream.
Context {body world : Type}.
Context (body_read : body → nat → string * option ioerr * body).
Context (body_close : body → option ioerr * body).
Context (reconnectFn : world → Z → (body + reconn_err) * world).
Context (obj : string) (serves : body → nat → Prop).

Class Upstream : Prop := {
  up_size : (Z.of_nat (slen obj) < 2 ^ 63)%Z;
  up_read b k n d e b' :
    serves b k → body_read b n = (d, e, b') →
    has_prefix (str_drop k obj) d = true ∧ serves b' (k + slen d);
  up_close b k : serves b k → serves (body_close b).2 k;
  up_dial w k b w' :
    k ≤ slen obj → reconnectFn w (Z.of_nat k) = (inl b, w') → serves b k
}.

(** Bodies, reconnects and the announced length that tell the truth about the
    end of the stream. *)
Class HonestEnd (total : Z) : Prop := {
  he_read b k n d b' :
    serves b k → body_read b n = (d, Some EOF, b') → k + slen d = slen obj;
  he_dial w k w' :
    k ≤ slen obj → reconnectFn w (Z.of_nat k) = (inr errUpstreamEOF, w') → k = slen obj;
  he_total : (0 ≤ total → total = Z.of_nat (slen obj))%Z
}.

(** The reader has delivered the first [k] bytes. *)
Record at_offset (r : retryingReadCloser body) (k : nat) : Prop := mkAt {
  at_serves : serves (rrc_body r) k;
  at_count : bytesRead r = Z.of_nat k;
  at_le : k ≤ slen obj
}.

Abbreviation Rd := (Read body_read body_close reconnectFn).
Abbreviation Rds := (reads body_read body_close reconnectFn).
Abbreviation Rd_all := (read_all body_read body_close reconnectFn).

Section safe.
Context `{Upstream}.

Lemma prefix_le k d : k ≤ slen obj → has_prefix (str_drop k obj) d = true → k + slen d ≤ slen obj.
Proof.
  intros Hk [t Ht]%has_prefix_spec. apply (f_equal slen) in Ht.
  rewrite slen_drop, slen_app in Ht. lia.
Qed.

Lemma read_body_at r k p d e r' :
  at_offset r k → read_body body_read r p = (d, e, r') →
  has_prefix (str_drop k obj) d = true ∧ at_offset r' (k + slen d) ∧
  (expected r' = expected r ∧ maxRetries r' = maxRetries r ∧ retries r' = retries r ∧
   closed r' = closed r) ∧
  (∀ total, HonestEnd total → e = Some EOF → k + slen d = slen obj).
Proof.
  intros [Hs Hc Hl]. unfold read_body.
  destruct (body_read (rrc_body r) p) as [[d0 e0] b] eqn:E. intros [= <- <- <-].
  destruct (up_read _ _ _ _ _ _ Hs E) as [Hp Hs'].
  pose proof (prefix_le _ _ Hl Hp) as Hle. pose proof up_size as Hsz.
  split; [done|]. split; [split; [done| |done]|].
  - cbn [bytesRead]. rewrite Hc, wrap_s_small; [lia|lia|]. split; lia.
  - split; [done|]. intros total Hh ->. by eapply he_read.
Qed.

(** One [Read]: what it delivers continues the stream. *)
Lemma Read_at r k w p d e r' w' :
  at_offset r k → Rd r w p = (d, e, r', w') →
  has_prefix (str_drop k obj) d = true ∧ at_offset r' (k + slen d) ∧
  expected r' = expected r ∧
  (HonestEnd (expected r) → e = Some EOF → k + slen d = slen obj).
Proof.
  intros Ha. unfold Read.
  assert (has_prefix (str_drop k obj) "" = true ∧ k + slen "" = k) as [Hp0 Hk0]
    by (split; [by destruct (str_drop k obj)|simpl; lia]).
  destruct (closed r); [intros [= <- <- <- <-]; by rewrite Hk0|].
  destruct (read_body body_read r p) as [[d1 e1] r1] eqn:E1.
  destruct (read_body_at _ _ _ _ _ _ Ha E1) as (Hp1 & Ha1 & (X1 & _) & Hh1).
  destruct e1 as [err|]; [|intros [= <- <- <- <-]; by repeat (split; [done|])].
  case_decide as Heof; [intros [= <- <- <- <-]; repeat (split; [done|]); by eauto|].
  case_decide as Hd; [intros [= <- <- <- <-]; by repeat (split; [done|])|].
  subst d1. rewrite Hk0 in Ha1.
  destruct (negb _); [intros [= <- <- <- <-]; rewrite Hk0; repeat (split; [done|]); naive_solver|].
  destruct ((0 <=? expected r1)%Z && (expected r1 <=? bytesRead r1)%Z) eqn:Ee.
  { intros [= <- <- <- <-]; rewrite Hk0; repeat (split; [done|]). intros Hh _.
    apply andb_true_iff in Ee as [E3%Z.leb_le E4%Z.leb_le].
    rewrite X1 in *. pose proof (he_total E3) as Ht. rewrite (at_count _ _ Ha1) in E4.
    pose proof (at_le _ _ Ha). lia. }
  destruct (maxRetries r1 <=? retries r1)%Z;
    [intros [= <- <- <- <-]; rewrite Hk0; repeat (split; [done|]); naive_solver|].
  set (r2 := set_body r1 _).
  assert (at_offset r2 k) as Ha2.
  { destruct Ha1 as [S C L]. split; [by apply up_close|done|done]. }
  destruct (reconnectFn w (bytesRead r2)) as [res w1] eqn:E2.
  rewrite (at_count _ _ Ha2) in E2.
  destruct res as [b|[| |why]].
  - destruct (read_body body_read (set_body (bump_retries r2) b) p) as [[d3 e3] r3] eqn:E3. intros [= <- <- <- <-].
    assert (at_offset (set_body (bump_retries r2) b) k) as Ha3.
    { destruct Ha2 as [S C L]. split; [exact (up_dial _ _ _ _ L E2)|done|done]. }
    destruct (read_body_at _ _ _ _ _ _ Ha3 E3) as (Hp3 & Ha4 & (X3 & _) & Hh3).
    repeat (split; [done|]). split; [by rewrite X3|by eauto].
  - intros [= <- <- <- <-]. rewrite Hk0.
    split; [done|]. split; [by destruct Ha2; split|]. split; [done|].
    intros Hh _. exact (he_dial _ _ _ (at_le _ _ Ha2) E2).
  - intros [= <- <- <- <-]. rewrite Hk0.
    split; [done|]. split; [by destruct Ha2; split|]. split; [done|]. naive_solver.
  - intros [= <- <- <- <-]. rewrite Hk0.
    split; [done|]. split; [by destruct Ha2; split|]. done.
Qed.

Lemma reads_at r k w ps out r' w' :
  at_offset r k → Rds r w ps = (out, r', w') →
  has_prefix (str_drop k obj) (concat_str out.*1) = true ∧
  at_offset r' (k + slen (concat_str out.*1)) ∧ expected r' = expected r.
Proof.
  revert r k w out. induction ps as [|p ps IH]; intros r k w out Ha; simpl.
  - intros [= <- <- <-]. simpl. rewrite Nat.add_0_r. split; [by destruct (str_drop k obj)|done].
  - destruct (Rd r w p) as [[[d e] r1] w1] eqn:E1.
    destruct (Rds r1 w1 ps) as [[out1 r2] w2] eqn:E2. intros [= <- <- <-].
    destruct (Read_at _ _ _ _ _ _ _ _ Ha E1) as (Hp & Ha1 & X1 & _).
    destruct (IH _ _ _ _ Ha1 E2) as (Hp2 & Ha2 & X2). simpl. rewrite slen_app, Nat.add_assoc.
    split; [|by rewrite X2].
    rewrite str_drop_add in Hp2.
    apply has_prefix_spec in Hp as [t Ht]. apply has_prefix_spec in Hp2 as [u Hu].
    rewrite Ht in Hu |- *. rewrite str_drop_app in Hu. rewrite Hu, str_app_assoc.
    apply has_prefix_app.
Qed.

End safe.

(** C6: the stream survives reconnects unchanged.  For every sequence of
    [Read] calls with any buffer sizes, over any pattern of broken
    connections, the bytes the client receives are the upstream stream from
    its first byte: nothing is lost, repeated or reordered, and [bytesRead] is
    their number.  When a [Read] ends the stream with [io.EOF], the client has
    received all of it. *)
Theorem reads_stream r w ps out r' w' :
  Upstream → HonestEnd (expected r) → serves (rrc_body r) 0 → bytesRead r = 0%Z →
  Rds r w ps = (out, r', w') →
  concat_str out.*1 = str_take (slen (concat_str out.*1)) obj ∧
  bytesRead r' = Z.of_nat (slen (concat_str out.*1)) ∧
  (∀ p d r'' w'', Rd r' w' p = (d, Some EOF, r'', w'') → concat_str out.*1 +:+ d = obj).
Proof.
  intros Hu Hh Hs Hb Hr.
  assert (at_offset r 0) as Ha by (split; [done|done|lia]).
  destruct (reads_at _ _ _ _ _ _ _ Ha Hr) as (Hp & Ha' & X).
  rewrite str_drop_0 in Hp. simpl in Ha'.
  apply has_prefix_spec in Hp as [t Ht].
  split; [by rewrite Ht, str_take_app|]. split; [apply Ha'|].
  intros p d r'' w'' HR. destruct (Read_at _ _ _ _ _ _ _ _ Ha' HR) as (Hp2 & _ & _ & He).
  rewrite X in He. specialize (He Hh eq_refl).
  rewrite Ht, str_drop_app in Hp2. apply has_prefix_spec in Hp2 as [u Hu2].
  rewrite Ht in He |- *. rewrite Hu2, !slen_app in *.
  replace u with "" by (symmetry; apply slen_zero; lia). by rewrite str_app_nil_r.
Qed.

End stream.

(** ** How often it reconnects *)

Section bounded.
Context {body world : Type}.
Context (body_read : body → nat → string * option ioerr * body).
Context (body_close : body → option ioerr * body).
Context (reconnectFn : world → Z → (body + reconn_err) * world).

(** The reconnect function with a count of its calls. *)
Definition counted (w : world * Z) (off : Z) : (body + reconn_err) * (world * Z) :=
  let '(res, w1) := reconnectFn w.1 off in (res, (w1, w.2 + 1)%Z).

Lemma Read_counted r w p d e r' w' :
  (0 ≤ retries r)%Z → (maxRetries r < 2 ^ 63)%Z →
  Read body_read body_close counted r w p = (d, e, r', w') →
  maxRetries r' = maxRetries r ∧
  ((w'.2 = w.2 ∧ retries r' = retries r) ∨
   (w'.2 = w.2 + 1 ∧ retries r' = retries r + 1 ∧ retries r < maxRetries r)%Z).
Proof.
  intros H0 Hm. unfold Read.
  destruct (closed r); [intros [= <- <- <- <-]; auto|].
  destruct (read_body body_read r p) as [[d1 e1] r1] eqn:E1.
  assert (retries r1 = retries r ∧ maxRetries r1 = maxRetries r) as [X1 X2].
  { unfold read_body in E1. by destruct (body_read (rrc_body r) p) as [[]]; simplify_eq. }
  rewrite <-X1, <-X2 in *.
  destruct e1 as [err|]; [|intros [= <- <- <- <-]; auto].
  case_decide; [intros [= <- <- <- <-]; auto|].
  case_decide; [intros [= <- <- <- <-]; auto|].
  destruct (negb _); [intros [= <- <- <- <-]; auto|].
  destruct (_ && _); [intros [= <- <- <- <-]; auto|].
  destruct (Z.leb_spec (maxRetries r1) (retries r1)); [intros [= <- <- <- <-]; auto|].
  set (r2 := set_body r1 _). unfold counted at 1.
  destruct (reconnectFn w.1 (bytesRead r2)) as [res w1].
  assert (retries (bump_retries r2) = retries r1 + 1)%Z as Hb
    by (unfold bump_retries; cbn [retries]; rewrite wrap_s_small; [done|lia|];
        change (retries r2) with (retries r1); split; lia).
  destruct res as [b|[| |why]].
  - destruct (read_body body_read (set_body (bump_retries r2) b) p) as [[d3 e3] r3] eqn:E3.
    unfold read_body in E3. destruct (body_read _ p) as [[]]. intros [= <- <- <- <-].
    simplify_eq. split; [done|]. right. by split.
  - intros [= <- <- <- <-]. split; [done|]. right. by split.
  - intros [= <- <- <- <-]. split; [done|]. right. by split.
  - intros [= <- <- <- <-]. split; [done|]. right. by split.
Qed.

(** However long a client keeps reading, the body reconnects at most
    [maxRetries] times over its whole life. *)
Theorem reconnects_bounded r w ps out r' w' n :
  retries r = 0%Z → (maxRetries r < 2 ^ 63)%Z →
  reads body_read body_close counted r (w, 0%Z) ps = (out, r', (w', n)) →
  (n ≤ Z.max 0 (maxRetries r))%Z ∧ retries r' = n.
Proof.
  intros H0 Hm.
  assert (∀ ps r w n0 out r' w' n, (0 ≤ retries r ≤ Z.max 0 (maxRetries r))%Z → retries r = n0 →
    (maxRetries r < 2 ^ 63)%Z →
    reads body_read body_close counted r (w, n0) ps = (out, r', (w', n)) →
    (n ≤ Z.max 0 (maxRetries r))%Z ∧ retries r' = n) as Hgen.
  { clear. intros ps. induction ps as [|p ps IH]; intros r w n0 out r' w' n Hr Hn Hm; simpl.
    - intros [= <- <- <- <-]. lia.
    - destruct (Read _ _ _ r (w, n0) p) as [[[d e] r1] [w1 n1]] eqn:E1.
      destruct (reads _ _ _ r1 (w1, n1) ps) as [[out1 r2] [w2 n2]] eqn:E2.
      intros [= <- <- <- <-].
      destruct (Read_counted _ _ _ _ _ _ _ (proj1 Hr) Hm E1) as [X1 X2]. simpl in X2.
      rewrite <-X1. eapply (IH r1 w1 n1 out1 r2 w2 n2); [|lia|lia|exact E2]. lia. }
  intros Hr. by eapply (Hgen ps r w 0%Z); [rewrite H0; lia|done|done|].
Qed.

End bounded.

(** ** A flaky upstream

    Each connection serves the object from the requested offset and breaks
    after a number of bytes ([None]: it does not break); the world is the list
    of the breaks to come. *)

Record flaky := mkFlaky { fl_data : string; fl_left : option nat }.

Definition flaky_read (b : flaky) (n : nat) : string * option ioerr * flaky :=
  if decide (fl_left b = Some 0) then ("", Some ErrUnexpectedEOF, b)
  else if decide (fl_data b = "") then ("", Some EOF, b)
  else
    let m := match fl_left b with Some k => n `min` k | None => n end in
    let d := str_take m (fl_data b) in
    (d, None, mkFlaky (str_drop m (fl_data b)) ((λ k, k - slen d) <$> fl_left b)).
Definition flaky_close (b : flaky) : option ioerr * flaky := (None, b).
Definition flaky_dial (obj : string) (w : list nat) (off : Z) : (flaky + reconn_err) * list nat :=
  if (off =? Z.of_nat (slen obj))%Z then (inr errUpstreamEOF, w)
  else (inl (mkFlaky (str_drop (Z.to_nat off) obj) (head w)), tail w).

Abbreviation flaky_all obj := (read_all flaky_read flaky_close (flaky_dial obj)).

Lemma str_drop_take m s : str_drop (slen (str_take m s)) s = str_drop m s.
Proof. revert s. induction m as [|m IH]; intros [|c s]; simpl; auto. Qed.

Lemma flaky_read_some k obj left n d e b :
  left ≠ Some 0 → k < slen obj → 0 < n →
  flaky_read (mkFlaky (str_drop k obj) left) n = (d, e, b) →
  e = None ∧ d ≠ "" ∧ str_drop k obj = d +:+ str_drop (k + slen d) obj ∧ k + slen d ≤ slen obj ∧
  b = mkFlaky (str_drop (k + slen d) obj) ((λ k, k - slen d) <$> left).
Proof.
  intros Hl Hk Hn. unfold flaky_read. simpl. rewrite decide_False by done.
  pose proof (slen_drop k obj) as Hs.
  rewrite decide_False by (intros E; rewrite E in Hs; simpl in Hs; lia).
  set (m := match left with Some k => n `min` k | None => n end).
  assert (0 < m) as Hm by (destruct left as [[|q]|]; simpl in *; [done|lia|lia]).
  intros [= <- <- <-]. split; [done|].
  assert (slen (str_take m (str_drop k obj)) = m `min` (slen obj - k)) as Hd
    by (by rewrite slen_take, Hs).
  split; [intros E; rewrite E in Hd; simpl in Hd; lia|].
  rewrite str_drop_add, str_drop_take. split; [by rewrite take_drop_str|].
  split; [rewrite Hd; lia|done].
Qed.

(** The reader at offset [k] with a healthy budget of retries. *)
Record recovering (obj : string) (r : retryingReadCloser flaky) (w : list nat) (k : nat) : Prop :=
  mkRec {
  rec_data : fl_data (rrc_body r) = str_drop k obj;
  rec_le : k ≤ slen obj;
  rec_count : bytesRead r = Z.of_nat k;
  rec_open : closed r = false;
  rec_total : (expected r < 0 ∨ expected r = Z.of_nat (slen obj))%Z;
  rec_breaks : Forall (λ n, 0 < n) w;
  rec_retries : (0 ≤ retries r)%Z;
  rec_budget : (retries r + (match fl_left (rrc_body r) with Some _ => 1 | None => 0 end) +
                 Z.of_nat (length w) ≤ maxRetries r)%Z ∨
               (fl_left (rrc_body r) = None ∧ w = []);
  rec_max : (maxRetries r < 2 ^ 63)%Z
}.

(** One [Read] at offset [k]: the end, or progress. *)
Lemma recovering_step obj r w k p d e r' w' :
  (Z.of_nat (slen obj) < 2 ^ 63)%Z → 0 < p → recovering obj r w k →
  Read flaky_read flaky_close (flaky_dial obj) r w p = (d, e, r', w') →
  (k = slen obj ∧ d = "" ∧ e = Some EOF) ∨
  (e = None ∧ d ≠ "" ∧ str_drop k obj = d +:+ str_drop (k + slen d) obj ∧
   recovering obj r' w' (k + slen d)).
Proof.
  intros Hsz Hp [Rd Rl Rc Ro Rt Rb Rr Rg Rm]. unfold Read. rewrite Ro.
  destruct r as [[data left] count exp max tries cl]. simpl in *. subst.
  assert (∀ left' tries' w' b d e,
    left' ≠ Some 0 → k < slen obj → (0 ≤ tries')%Z → Forall (λ n, 0 < n) w' →
    ((tries' + (match left' with Some _ => 1 | None => 0 end) + Z.of_nat (length w') ≤ max)%Z ∨
     (left' = None ∧ w' = [])) →
    flaky_read (mkFlaky (str_drop k obj) left') p = (d, e, b) →
    e = None ∧ d ≠ "" ∧ str_drop k obj = d +:+ str_drop (k + slen d) obj ∧
    recovering obj (mkRrc b (int64 (Z.of_nat k + Z.of_nat (slen d))) exp max tries' false) w'
      (k + slen d)) as Hgo.
  { intros left' tries' w1 b d1 e1 H1 H2 H3 H4 H5 Hf.
    apply flaky_read_some in Hf as (-> & Hd & Hs & Hle & ->); [|done..].
    repeat (split; [done|]). split; simpl; try done.
    - rewrite <-Nat2Z.inj_add. apply wrap_s_small; [lia|]. split; simpl; lia.
    - by destruct left'; naive_solver. }
  unfold read_body. simpl.
  destruct (decide (left = Some 0)) as [->|Hl].
  - unfold flaky_read at 1. simpl.
    assert (int64 (Z.of_nat k + Z.of_nat 0) = Z.of_nat k) as Hw
      by (rewrite Z.add_0_r; apply wrap_s_small; [lia|split; lia]).
    rewrite Hw.
    destruct ((0 <=? exp)%Z && (exp <=? Z.of_nat k)%Z) eqn:E.
    { intros [= <- <- <- <-]. left. apply andb_true_iff in E as [?%Z.leb_le ?%Z.leb_le].
      split; [lia|done]. }
    destruct Rg as [Rg|[]]; [|done].
    destruct (Z.leb_spec max tries); [lia|]. unfold flaky_dial.
    destruct (Z.eqb_spec (Z.of_nat k) (Z.of_nat (slen obj))) as [Heq|Hne].
    { intros [= <- <- <- <-]. left. split; [lia|done]. }
    rewrite Nat2Z.id.
    destruct (flaky_read (mkFlaky (str_drop k obj) (head w)) p) as [[d1 e1] b] eqn:Ef.
    cbn. intros [= <- <- <- <-]. right.
    assert (int64 (tries + 1) = tries + 1)%Z as Ht by (apply wrap_s_small; [lia|split; lia]).
    rewrite Ht.
    apply (Hgo (head w)); [|lia|lia|by apply Forall_tail| |done].
    + destruct w as [|n w]; [done|]. apply Forall_cons in Rb as [? _]. intros [= ->]. lia.
    + destruct w; simpl in *; [by right|left; lia].
  - destruct (decide (k = slen obj)) as [->|Hk].
    + unfold flaky_read. simpl. rewrite decide_False by done.
      rewrite decide_True by (apply slen_zero; rewrite slen_drop; lia).
      rewrite decide_True by done. intros [= <- <- <- <-]. by left.
    + destruct (flaky_read (mkFlaky (str_drop k obj) left) p) as [[d1 e1] b] eqn:Ef.
      destruct (Hgo left tries w b d1 e1) as (-> & Hd & Hs & Hr); [done|lia|done|done| |done|].
      { destruct Rg as [Rg|Rg]; [left; lia|by right]. }
      intros [= <- <- <- <-]. by right.
Qed.

(** C19: with a retry for every broken connection, reading to the end gives the
    whole object and a clean EOF, for every object, buffer size and sequence
    of breaks (each connection delivering at least one byte), whether the
    length was announced or not. *)
Theorem read_all_recovers obj breaks p fuel r :
  (Z.of_nat (slen obj) < 2 ^ 63)%Z → 0 < p → Forall (λ n, 0 < n) breaks →
  r = mkRrc (mkFlaky obj (head breaks)) 0 (expected r) (maxRetries r) 0 false →
  (expected r < 0 ∨ expected r = Z.of_nat (slen obj))%Z →
  (Z.of_nat (length breaks) ≤ maxRetries r < 2 ^ 63)%Z → slen obj < fuel →
  read_all flaky_read flaky_close (flaky_dial obj) fuel r (tail breaks) p = Some (obj, EOF).
Proof.
  intros Hsz Hp Hb Hr Ht Hm Hf.
  assert (∀ fuel r w k, recovering obj r w k → slen obj - k < fuel →
            flaky_all obj fuel r w p = Some (str_drop k obj, EOF)) as Hgen.
  { clear -Hsz Hp. intros fuel. induction fuel as [|fuel IH]; intros r w k R Hf; [lia|]. simpl.
    destruct (Read _ _ _ r w p) as [[[d e] r1] w1] eqn:E.
    destruct (recovering_step _ _ _ _ _ _ _ _ _ Hsz Hp R E) as [(-> & -> & ->)|(-> & Hd & Hs & R')].
    - f_equal. f_equal. symmetry. apply slen_zero. rewrite slen_drop. lia.
    - rewrite (IH _ _ _ R').
      + simpl. by rewrite <-Hs.
      + destruct d; [done|]. simpl in *. pose proof (rec_le _ _ _ _ R'). simpl in *. lia. }
  rewrite (Hgen fuel r (tail breaks) 0); [by rewrite str_drop_0| |lia].
  rewrite Hr. split; simpl; try done; [lia|by apply Forall_tail| |lia].
  destruct breaks; simpl in *; [by right|left; lia].
Qed.

(** ** The header parsers *)

Lemma index_byte_app c a b :
  occurs c a = false → index_byte (a +:+ String c b) c = Some (slen a).
Proof.
  induction a as [|d a IH]; intros Ha; simpl.
  - by rewrite bool_decide_eq_true_2.
  - simpl in Ha. apply orb_false_iff in Ha as [Hd Ha]. rewrite Hd. by rewrite IH.
Qed.

Lemma itoa_nonneg_digits z :
  (0 ≤ z)%Z → itoa z ≠ "" ∧ occurs "-" (itoa z) = false ∧ occurs "/" (itoa z) = false.
Proof.
  intros Hz. destruct z as [|q|q]; [done| |lia]. change (itoa (Z.pos q)) with (pretty (N.pos q)).
  destruct (pretty_N_digits (N.pos q)) as (ch & s & -> & Hd). split; [done|].
  revert Hd. generalize (String ch s). clear. intros s.
  induction s as [|e s IH]; [done|]. simpl. intros [He Hs]%andb_true_iff.
  destruct (IH Hs) as [-> ->]. split; (case_bool_decide; [by subst|done]).
Qed.

(** A sign-free number is not negative. *)
Lemma parse_int_nonneg s n : occurs "-" s = false → parse_int 10 s = Some n → (0 ≤ n < 2 ^ 63)%Z.
Proof.
  intros Hs. destruct s as [|c s]; [done|]. simpl in Hs. apply orb_false_iff in Hs as [Hc Hs].
  apply bool_decide_eq_false in Hc. unfold parse_int.
  assert (∀ r, match r with
    | "" => None
    | _ => n ← digits_onto 10 0 r; guard (n < 2 ^ 63)%Z;; Some n
    end = Some n → (0 ≤ n < 2 ^ 63)%Z) as Hgen.
  { intros r Hr. destruct r as [|d r]; [done|].
    destruct (digits_onto 10 0 (String d r)) as [v|] eqn:E; [|done].
    apply digits_onto_range in E; [|lia..]. simpl in Hr. case_guard; simplify_eq/=. lia. }
  case_bool_decide; [apply Hgen|]. rewrite bool_decide_eq_false_2 by congruence.
  apply (Hgen (String c s)).
Qed.

Lemma occurs_take_index h c i : index_byte h c = Some i → occurs c (str_take i h) = false.
Proof.
  revert i. induction h as [|d h IH]; intros i; simpl; [done|].
  case_bool_decide as Hd; [by intros [= <-]|]. intros (j & Hj & ->)%fmap_Some.
  simpl. rewrite bool_decide_eq_false_2 by done. by apply IH.
Qed.

(** The range parsers.  What they accept is a non-negative 64-bit offset,
    they read back every header of the standard forms, and a suffix range is
    refused whatever it asks for. *)
Theorem range_parsers_spec h s e total suffix :
  (0 ≤ s < 2 ^ 63)%Z → (0 ≤ e < 2 ^ 63)%Z →
  parseRange ("bytes=" +:+ itoa s +:+ "-") = Some (s, None) ∧
  parseRange ("bytes=" +:+ itoa s +:+ "-" +:+ itoa e) = Some (s, Some e) ∧
  parseContentRangeStart ("bytes " +:+ itoa s +:+ "-" +:+ itoa e +:+ "/" +:+ total) = Some s ∧
  parseRange ("bytes=-" +:+ suffix) = None ∧
  parseContentRangeStart ("bytes */" +:+ itoa e) = None ∧
  (∀ a b, parseRange h = Some (a, b) → 0 ≤ a < 2 ^ 63)%Z ∧
  (∀ a, parseContentRangeStart h = Some a → 0 ≤ a < 2 ^ 63)%Z.
Proof.
  intros Hs He. destruct (itoa_nonneg_digits s) as (S1 & S2 & _); [lia|].
  destruct (itoa_nonneg_digits e) as (E1 & E2 & _); [lia|].
  assert (∀ z, (0 ≤ z < 2 ^ 63)%Z → parse_int 10 (itoa z) = Some z) as Hpi
    by (intros z Hz; apply parse_int_itoa; split; lia).
  unfold parseRange, parseContentRangeStart. rewrite !trim_prefix_app.
  change ("-" +:+ itoa e) with (String "-" (itoa e)).
  change ("-" +:+ itoa e +:+ "/" +:+ total) with (String "-" (itoa e +:+ "/" +:+ total)).
  change ("bytes=-" +:+ suffix) with ("bytes=" +:+ String "-" suffix).
  change ("bytes */" +:+ itoa e) with ("bytes " +:+ ("*/" +:+ itoa e)).
  rewrite !trim_prefix_app, !split_n2_app, index_byte_app by done.
  rewrite !(decide_False (P := itoa s = "")) by done. rewrite !Hpi by done.
  rewrite (decide_False (P := itoa e = "")) by done.
  split; [done|]. split; [done|].
  split; [rewrite decide_False by (by intros E%slen_zero); by rewrite str_take_app, Hpi|].
  split; [done|]. split; [|split].
  - destruct (index_byte ("*/" +:+ itoa e) "-") as [i|] eqn:E; [|done].
    exfalso. clear -E E2. simpl in E.
    apply fmap_Some in E as (j & E & _). apply fmap_Some in E as (q & E & _).
    revert q E E2. generalize (itoa e). intros s. induction s as [|d s IH]; intros q; simpl; [done|].
    case_bool_decide; [done|]. intros (j' & Hj & _)%fmap_Some. exact (IH _ Hj).
  - intros a b. unfold split_n2. destruct (cut (trim_prefix h "bytes=") "-") as [[x y]|] eqn:E; [|done].
    apply cut_Some in E as [_ Hx]. case_decide; [done|].
    destruct (parse_int 10 x) as [v|] eqn:Ev; [|done].
    apply parse_int_nonneg in Ev; [|done]. repeat case_match; intros; by simplify_eq.
  - intros a. destruct (index_byte (trim_prefix h "bytes ") "-") as [i|] eqn:E; [|done].
    case_decide; [done|]. apply parse_int_nonneg. by apply occurs_take_index.
Qed.

(** ** Concrete streams *)

Definition demo_obj : string := "0123456789".
Definition demo_reader (left : option nat) (exp max : Z) : retryingReadCloser flaky :=
  mkRrc (mkFlaky demo_obj left) 0 exp max 0 false.
Definition demo_reads := reads flaky_read flaky_close (flaky_dial demo_obj).

Definition flaky_serves (b : flaky) (k : nat) : Prop :=
  fl_data b = str_drop k demo_obj ∧ k ≤ slen demo_obj.

Lemma flaky_upstream : Upstream flaky_read flaky_close
  (flaky_dial demo_obj) demo_obj flaky_serves.
Proof.
  split.
  - by vm_compute.
  - intros [data left] k n d e b' [Hd Hk]. unfold flaky_read, flaky_serves in *. simpl in *. subst data.
    case_decide; [intros [= <- <- <-]; simpl; rewrite Nat.add_0_r; split; [by destruct (str_drop k demo_obj)|done]|].
    case_decide; [intros [= <- <- <-]; simpl; rewrite Nat.add_0_r; split; [by destruct (str_drop k demo_obj)|done]|].
    intros [= <- <- <-]. set (m := match left with Some k => _ | None => n end). simpl.
    split; [|split].
    + apply has_prefix_spec. exists (str_drop m (str_drop k demo_obj)). by rewrite take_drop_str.
    + by rewrite str_drop_add, str_drop_take.
    + rewrite slen_take, slen_drop. unfold demo_obj in *. simpl in *. lia.
  - done.
  - intros w k b w' Hk. unfold flaky_dial.
    case_match; [done|]. intros [= <- _]. split; simpl; [by rewrite Nat2Z.id|done].
Qed.

Lemma flaky_honest total :
  (total < 0 ∨ total = 10)%Z →
  HonestEnd flaky_read (flaky_dial demo_obj) demo_obj flaky_serves total.
Proof.
  intros Ht. split.
  - intros [data left] k n d b' [Hd Hk]. unfold flaky_read. simpl in *. case_decide; [done|].
    case_decide as E; [|done]. intros [= <- <-]. rewrite Hd in E.
    apply (f_equal slen) in E. rewrite slen_drop in E. simpl in *. lia.
  - intros w k w' _. unfold flaky_dial.
    destruct (Z.eqb_spec (Z.of_nat k) (Z.of_nat (slen demo_obj))); [|done]. lia.
  - simpl. lia.
Qed.

Example reads_stream_witness :
  let '(out, r', w') := reads flaky_read flaky_close
    (flaky_dial demo_obj) (demo_reader (Some 4) 10 3) [3] [3; 3; 5; 20] in
  length out = 4 ∧ concat_str out.*1 = str_take (slen (concat_str out.*1)) demo_obj.
Proof.
  destruct (reads _ _ _ _ _ _) as [[out r'] w'] eqn:E.
  split; [by vm_compute in E; simplify_eq|].
  exact (proj1 (reads_stream flaky_read flaky_close _ demo_obj flaky_serves
    (demo_reader (Some 4) 10 3) [3] [3; 3; 5; 20] out r' w'
    flaky_upstream (flaky_honest 10 ltac:(by right)) ltac:(split; [done|simpl; lia]) eq_refl E)).
Defined.

Example reconnects_bounded_witness :
  ∃ out r' w' n,
    reads flaky_read flaky_close (counted (flaky_dial demo_obj)) (demo_reader (Some 1) (-1) 2)
      ([1; 1; 1; 1], 0%Z) [5; 5; 5; 5; 5; 5; 5] = (out, r', (w', n)) ∧ n = 2%Z ∧ (n ≤ Z.max 0 2)%Z.
Proof.
  destruct (reads flaky_read flaky_close (counted (flaky_dial demo_obj))
    (demo_reader (Some 1) (-1) 2) ([1; 1; 1; 1], 0%Z) [5; 5; 5; 5; 5; 5; 5])
    as [[out r'] [w' n]] eqn:E.
  exists out, r', w', n. split; [done|]. split; [by vm_compute in E; simplify_eq|].
  exact (proj1 (reconnects_bounded flaky_read flaky_close (flaky_dial demo_obj)
    (demo_reader (Some 1) (-1) 2) _ _ out r' w' n eq_refl eq_refl E)).
Defined.

Example read_all_recovers_witness :
  flaky_all demo_obj 11 (demo_reader (Some 4) (-1) 3) [2; 1] 3 = Some (demo_obj, EOF).
Proof.
  apply (read_all_recovers demo_obj [4; 2; 1] 3 11 (demo_reader (Some 4) (-1) 3));
    [by vm_compute|lia|by repeat constructor|done|by left|by vm_compute|by vm_compute; lia].
Defined.

Example range_parsers_spec_witness :
  parseRange ("bytes=" +:+ itoa 100 +:+ "-" +:+ itoa 200) = Some (100%Z, Some 200%Z).
Proof.
  exact (proj1 (proj2 (range_parsers_spec "" 100 200 "" "" ltac:(lia) ltac:(lia)))).
Defined.

(** Two behaviours at the edge of the retry logic.  The reconnect asks for
    [bytes=k-] without an end, so after a break inside a bounded range the
    client is sent bytes beyond the range (here the request was for the first
    four bytes).  And a new connection that breaks before its first byte hands
    its error straight to the client although retries are left. *)
Example reconnect_edges :
  (demo_reads (mkRrc (mkFlaky "0123" (Some 2)) 0 4 3 0 false) [] [4; 8]).1.1
    = [("01", None); ("23456789", None)] ∧
  (let '(out, r, _) := demo_reads (demo_reader (Some 4) 10 3) [0] [4; 4] in
   (out, retries r, maxRetries r))
    = ([("0123", None); ("", Some ErrUnexpectedEOF)], 1%Z, 3%Z).
Proof. by vm_compute. Qed.
