(* ===== verification/GoFloat.v ===== *)
(** * float64 arithmetic

    The operations the program uses on [float64], as a class.  [binary64] is
    the IEEE arithmetic that the code runs on, used to evaluate concrete
    inputs; [rational] is exact arithmetic.  Definitions are written over the
    class, so they are the code's at [binary64]; a theorem that needs more
    than the operations names the laws it uses. *)

From Stdlib Require Import SpecFloat QArith Qround Qminmax.
From S2P Require Import Prelude GoStrings.

Class GoFloat (F : Type) := {
  fadd : F → F → F;
  fsub : F → F → F;
  fmul : F → F → F;
  fdiv : F → F → F;
  flt : F → F → bool;
  fle : F → F → bool;
  of_int : Z → F;
  (** [int64(f)] *)
  to_int : F → Z;
  (** [strconv.ParseFloat(s, 64)], [None] on an error *)
  parse_float : string → option F
}.

Definition f0 {F} `{GoFloat F} : F := of_int 0.

(** ** Decimal literals

    [sign, digits, fraction, exponent] of a decimal floating-point literal:
    the value is [mantissa * 10 ^ exp]. *)

Fixpoint span_digits (s : string) : string * string :=
  match s with
  | String c s' =>
      if is_digit c then let '(a, b) := span_digits s' in (String c a, b) else ("", s)
  | "" => ("", "")
  end.

Definition strip_sign (s : string) : bool * string :=
  match s with
  | String c s' =>
      if bool_decide (c = "-"%char) then (true, s')
      else if bool_decide (c = "+"%char) then (false, s') else (false, s)
  | "" => (false, "")
  end.

Definition digits_value (s : string) : Z := default 0%Z (digits_onto 10 0 s).

Definition parse_exponent (s : string) : option Z :=
  match s with
  | "" => Some 0%Z
  | String c s' =>
      if occurs c "eE" then
        let '(neg, d) := strip_sign s' in
        if decide (d = "") then None
        else if all_bytes is_digit d
        then Some (if neg then - digits_value d else digits_value d)%Z
        else None
      else None
  end.

Definition parse_decimal (s : string) : option (bool * Z * Z) :=
  let '(neg, s) := strip_sign s in
  let '(a, s) := span_digits s in
  let '(b, s) := match s with
                 | String c s' => if bool_decide (c = "."%char) then span_digits s' else ("", s)
                 | "" => ("", "")
                 end in
  if decide (a = "" ∧ b = "") then None
  else e ← parse_exponent s; Some (neg, digits_value (a +:+ b), e - Z.of_nat (slen b))%Z.

(** ** binary64 *)

Definition prec : Z := 53.
Definition emax : Z := 1024.

(** [mantissa * 10 ^ exp], correctly rounded; very small and very large
    exponents are cut where the result is zero or infinite anyway. *)
Definition b64_of_decimal (neg : bool) (m e : Z) : spec_float :=
  let sgn (f : spec_float) := if neg then SFopp f else f in
  if (m =? 0)%Z then sgn (S754_zero false)
  else if (1000 <? e)%Z then sgn (S754_infinity false)
  else if (e + Z.log2 m <? -1500)%Z then sgn (S754_zero false)
  else sgn
    (if (0 <=? e)%Z then binary_normalize prec emax (m * 10 ^ e) 0 false
     else
       match m, (10 ^ (- e))%Z with
       | Zpos p, Zpos q =>
           let '(mz, ez, lz) := SFdiv_core_binary prec emax (Zpos p) 0 (Zpos q) 0 in
           binary_round_aux prec emax false mz ez lz
       | _, _ => S754_nan
       end).

Definition lower_ascii (s : string) : string := str_map lower_byte s.

Definition b64_parse (s : string) : option spec_float :=
  let '(neg, r) := strip_sign s in
  let r' := lower_ascii r in
  if decide (r' = "inf" ∨ r' = "infinity") then Some (S754_infinity neg)
  else if decide (lower_ascii s = "nan") then Some S754_nan
  else
    '(neg, m, e) ← parse_decimal s;
    match b64_of_decimal neg m e with
    | S754_infinity _ => None
    | f => Some f
    end.

(** Conversion to int64 as amd64 does it: truncation, and the smallest integer
    out of range. *)
Definition b64_to_int (f : spec_float) : Z :=
  match f with
  | S754_finite s m e =>
      let a := if (0 <=? e)%Z then (Zpos m * 2 ^ e)%Z else (Zpos m / 2 ^ (- e))%Z in
      let v := if s then (- a)%Z else a in
      if bool_decide (- 2 ^ 63 ≤ v < 2 ^ 63)%Z then v else (- 2 ^ 63)%Z
  | S754_zero _ => 0%Z
  | _ => (- 2 ^ 63)%Z
  end.

Definition binary64 : GoFloat spec_float := {|
  fadd := SFadd prec emax;
  fsub := SFsub prec emax;
  fmul := SFmul prec emax;
  fdiv := SFdiv prec emax;
  flt := SFltb;
  fle := SFleb;
  of_int := λ z, binary_normalize prec emax z 0 false;
  to_int := b64_to_int;
  parse_float := b64_parse
|}.

(** ** Exact arithmetic *)

Definition Q_to_int (q : Q) : Z :=
  if Qle_bool 0 q then Qfloor q else Qceiling q.

Definition rational : GoFloat Q := {|
  fadd := Qplus;
  fsub := Qminus;
  fmul := Qmult;
  fdiv := Qdiv;
  flt := λ a b, negb (Qle_bool b a);
  fle := Qle_bool;
  of_int := inject_Z;
  to_int := Q_to_int;
  parse_float := λ s,
    '(neg, m, e) ← parse_decimal s;
    let v := if (0 <=? e)%Z then inject_Z (m * 10 ^ e) else (m # Z.to_pos (10 ^ (- e)))%Q in
    Some (if (neg : bool) then Qopp v else v)
|}.

Example b64_ex :
  let F := binary64 in
  fadd (default f0 (parse_float "0.1")) (default f0 (parse_float "0.2"))
    = default f0 (parse_float "0.30000000000000004") ∧
  fadd (default f0 (parse_float "0.1")) (default f0 (parse_float "0.2"))
    ≠ default f0 (parse_float "0.3") ∧
  map to_int (omap parse_float ["10.010"; "-2.9"; "1e3"; "4."; ".5"]) = [10; -2; 1000; 4; 0]%Z ∧
  omap parse_float [""; "."; "1e"; "0x1"; "1_0"] = [].
Proof. by vm_compute. Qed.
