(* ===== verification/GoHttp.v ===== *)
(** * net/http as the proxy uses it: headers, requests, responses, URLs

    Header keys are kept in canonical form, as [http.Header] keeps them.
    [url_Parse] is [url.Parse] up to percent-escapes in the host, which it
    refuses. *)

From S2P Require Import Prelude GoStrings GoUrl.

(** ** Headers *)

(** A byte of a header name ([httpguts.ValidHeaderFieldName]). *)
Definition token_byte (c : ascii) : bool :=
  in_range 48 57 c || in_range 65 90 c || in_range 97 122 c || occurs c "!#$%&'*+-.^_`|~".

Fixpoint canonical_go (upper : bool) (s : string) : string :=
  match s with
  | "" => ""
  | String c s =>
      String (if upper then upper_byte c else lower_byte c)
             (canonical_go (bool_decide (c = "-"%char)) s)
  end.

(** [textproto.CanonicalMIMEHeaderKey] *)
Definition canonical (k : string) : string :=
  if all_bytes token_byte k then canonical_go true k else k.

Abbreviation Header := (gmap string (list string)).

Definition h_get (h : Header) (k : string) : string :=
  default "" (h !! canonical k ≫= head).
Definition h_set (h : Header) (k v : string) : Header := <[canonical k := [v]]> h.
Definition h_del (h : Header) (k : string) : Header := delete (canonical k) h.

Lemma h_get_set h k k' v :
  h_get (h_set h k v) k' = if decide (canonical k = canonical k') then v else h_get h k'.
Proof. unfold h_get, h_set. rewrite lookup_insert. by case_decide. Qed.
Lemma h_get_del h k k' :
  h_get (h_del h k) k' = if decide (canonical k = canonical k') then "" else h_get h k'.
Proof. unfold h_get, h_del. rewrite lookup_delete. by case_decide. Qed.

(** ** URLs *)

Record FullURL := mkFull { u_scheme : string; u_host : string; u_url : URL }.

(** [unescape] for a path: [%XX] decoded, [+] kept. *)
Fixpoint path_unescape (s : string) : option string :=
  match s with
  | "" => Some ""
  | String c s =>
      if bool_decide (c = "%"%char) then
        match s with
        | String a (String b s') =>
            x ← hex_val a; y ← hex_val b;
            String (ascii_of_N (16 * x + y)) <$> path_unescape s'
        | _ => None
        end
      else String c <$> path_unescape s
  end.

(** [getScheme]: [Some (scheme, rest)], [None] when the scheme is missing
    before a colon. *)
Fixpoint get_scheme_go (acc whole s : string) : option (string * string) :=
  match s with
  | "" => Some ("", whole)
  | String c s' =>
      if in_range 97 122 c || in_range 65 90 c
      then get_scheme_go (acc +:+ String c "") whole s'
      else if in_range 48 57 c || occurs c "+-."
      then if decide (acc = "") then Some ("", whole)
           else get_scheme_go (acc +:+ String c "") whole s'
      else if bool_decide (c = ":"%char)
      then if decide (acc = "") then None else Some (acc, s')
      else Some ("", whole)
  end.
Definition get_scheme (s : string) : option (string * string) := get_scheme_go "" s s.

(** [validOptionalPort] *)
Definition optional_port (p : string) : bool :=
  match p with
  | "" => true
  | String c d => bool_decide (c = ":"%char) && all_bytes is_digit d
  end.

(** The bytes [parseHost] accepts unescaped. *)
Definition host_byte (c : ascii) : bool :=
  negb (is_ascii c) || in_range 48 57 c || in_range 65 90 c || in_range 97 122 c
  || occurs c "-_.~!$&'()*+,;=:[]<>" || (byte c =? 34)%N.

Definition parse_host (h : string) : option string :=
  let port :=
    if has_prefix h "[" then
      match last_index h "]" with Some i => Some (str_drop (S i) h) | None => None end
    else match last_index h ":" with Some i => Some (str_drop i h) | None => Some "" end in
  match port with
  | Some p => if optional_port p && all_bytes host_byte h then Some h else None
  | None => None
  end.

(** [parseAuthority]: the host after the last [@]. *)
Definition parse_authority (a : string) : option string :=
  match last_index a "@" with
  | None => parse_host a
  | Some i => parse_host (str_drop (S i) a)
  end.

Definition ctl_byte (c : ascii) : bool := (byte c <? 32)%N || (byte c =? 127)%N.

(** [strings.Cut(s, c)]: the second part is empty when [c] is absent. *)
Definition cut_or (s : string) (c : ascii) : string * string := default (s, "") (cut s c).

(** [url.Parse] *)
Definition url_Parse (raw : string) : option FullURL :=
  let '(u, frag) := cut_or raw "#" in
  if negb (all_bytes (λ c, negb (ctl_byte c)) u) then None else
  if decide (u = "") then _ ← path_unescape frag; Some (mkFull "" "" (mkURL "" "")) else
  if decide (u = "*") then _ ← path_unescape frag; Some (mkFull "" "" (mkURL "*" "")) else
  '(scheme, rest) ← get_scheme u;
  let '(rest, query) := cut_or rest "?" in
  let scheme := str_map lower_byte scheme in
  if negb (has_prefix rest "/") && negb (bool_decide (scheme = ""))
  then (* opaque *) _ ← path_unescape frag; Some (mkFull scheme "" (mkURL "" query)) else
  if negb (has_prefix rest "/") && occurs ":" (cut_or rest "/").1 then None else
  '(host, path) ←
    (if (negb (bool_decide (scheme = "")) || negb (has_prefix rest "///")) && has_prefix rest "//"
     then
       let auth := str_drop 2 rest in
       let '(a, p) := match index_byte auth "/" with
                      | Some i => (str_take i auth, str_drop i auth)
                      | None => (auth, "")
                      end in
       h ← parse_authority a; Some (h, p)
     else Some ("", rest));
  path ← path_unescape path;
  _ ← path_unescape frag;
  Some (mkFull scheme host (mkURL path query)).

Example url_Parse_ex :
  url_Parse "http://10.0.0.1:8080/a%20b?x=1#f"
    = Some (mkFull "http" "10.0.0.1:8080" (mkURL "/a b" "x=1")) ∧
  url_Parse "http://10.0.0.1:80/100%?" = None ∧
  url_Parse "/rel/path" = Some (mkFull "" "" (mkURL "/rel/path" "")) ∧
  url_Parse "http://h/what?.mp4?t=1" = Some (mkFull "http" "h" (mkURL "/what" ".mp4?t=1")).
Proof. by vm_compute. Qed.

(** ** Requests and responses *)

Record request := mkRequest { Method : string; rq_URL : FullURL; rq_Header : Header }.

(** [removeEmptyPort]: a host that ends in a bare colon loses it. *)
Definition remove_empty_port (h : string) : string :=
  match last_index h ":" with
  | Some i =>
      let after := match last_index h "]" with Some j => j <? i | None => true end in
      if after && (S i =? slen h) then str_take i h else h
  | None => h
  end.

(** [http.NewRequestWithContext(ctx, method, url, nil)] with the method of a
    received request. *)
Definition NewRequest (method url : string) : option request :=
  u ← url_Parse url;
  Some (mkRequest (if decide (method = "") then "GET" else method)
          (mkFull (u_scheme u) (remove_empty_port (u_host u)) (u_url u)) ∅).

Record response (B : Type) := mkResponse {
  StatusCode : Z;
  rs_Header : Header;
  ContentLength : Z;
  Body : option B
}.
Arguments mkResponse {B}.
Arguments StatusCode {B}.
Arguments rs_Header {B}.
Arguments ContentLength {B}.
Arguments Body {B}.

Definition StatusOK : Z := 200.
Definition StatusPartialContent : Z := 206.
Definition StatusFound : Z := 302.
Definition StatusTemporaryRedirect : Z := 307.
Definition StatusForbidden : Z := 403.
Definition StatusRequestedRangeNotSatisfiable : Z := 416.
Definition StatusTooManyRequests : Z := 429.
Definition StatusInternalServerError : Z := 500.
Definition StatusNotImplemented : Z := 501.
