(* ===== verification/Claims.v ===== *)
(** * services/claims.go: tokens and the rules they carry

    A decoded JSON value, [Claims.Get] over a JWT library that is a parameter,
    and [ExtractRules].  A nil [jwt.MapClaims] is [None]. *)

From Stdlib Require Import SpecFloat.
From S2P Require Import Prelude GoStrings GoFloat.

(** ** JSON values *)

#[warnings="-register-all"]
Inductive json (F : Type) :=
  | JNull
  | JBool (b : bool)
  | JNum (f : F)
  | JStr (s : string)
  | JArr (items : list (json F))
  | JObj (fields : list (string * json F)).
Arguments JNull {F}.
Arguments JBool {F} b.
Arguments JNum {F} f.
Arguments JStr {F} s.
Arguments JArr {F} items.
Arguments JObj {F} fields.

Section claims.
Context {F : Type} `{GoFloat F}.

(** [jwt.MapClaims] *)
Definition MapClaims : Type := option (gmap string (json F)).

Definition claim (c : MapClaims) (k : string) : option (json F) := m ← c; m !! k.

(** The type assertions [claims[k].(string)] and [claims[k].(bool)] *)
Definition as_string (v : option (json F)) : option string :=
  match v with Some (JStr s) => Some s | _ => None end.
Definition as_bool (v : option (json F)) : option bool :=
  match v with Some (JBool b) => Some b | _ => None end.
Definition as_num (v : option (json F)) : option F :=
  match v with Some (JNum f) => Some f | _ => None end.
Definition claim_string (c : MapClaims) (k : string) : option string := as_string (claim c k).
Definition claim_bool (c : MapClaims) (k : string) : option bool := as_bool (claim c k).

(** [m[k]] of a JSON object *)
Fixpoint field (m : list (string * json F)) (k : string) : option (json F) :=
  match m with
  | [] => None
  | (k', v) :: m => if decide (k = k') then Some v else field m k
  end.

(** ** Rules *)

Record Rule := mkRule { Kind : string; Scope_ : string; DurationSec : Z; Token : string }.

Definition rule_of (item : json F) : option Rule :=
  match item with
  | JObj m => Some (mkRule
      (default "" (as_string (field m "kind")))
      (default "" (as_string (field m "scope")))
      (match as_num (field m "duration_sec") with Some v => to_int v | None => 0%Z end)
      (default "" (as_string (field m "token"))))
  | _ => None
  end.

Definition ExtractRules (claims : MapClaims) : list Rule :=
  match claim claims "rules" with
  | Some (JArr arr) => omap rule_of arr
  | _ => []
  end.

(** The per-request bundle of the rule-driven hooks. *)
Record RulesContext := mkRulesContext {
  rc_Claims : MapClaims;
  PrimaryToken : string;
  rc_InfoHash : string
}.

(** ** Checking a token *)

Record Claims := mkClaims { cl_apiKey : string; cl_apiSecret : string }.

(** What the key function looks at in an unverified token: whether the signing
    method is an HMAC one, and the [alg] header. *)
Record jwt_head := mkHead { is_hmac : bool; alg : string }.

(** The parsed token: its claims if they are a [jwt.MapClaims], and [Valid]. *)
Record jwt_token := mkToken { token_claims : option MapClaims; Valid : bool }.

Definition key_func (s : Claims) (t : jwt_head) : outcome string :=
  if is_hmac t then Ok (cl_apiSecret s)
  else Err (ErrNew ("Unexpected signing method=" +:+ alg t)).

(** [errors.Wrapf(err, msg)] of a nil error is nil. *)
Definition wrapf_nil {A} (nil : A) : outcome A := Ok nil.

Section get.
(** [jwt.Parse] of github.com/dgrijalva/jwt-go *)
Context (jwt_Parse : string → (jwt_head → outcome string) → outcome jwt_token).

Definition Get (s : Claims) (tokenString apiKey : string) : outcome MapClaims :=
  if decide (cl_apiKey s = "" ∧ cl_apiSecret s = "") then Ok (Some ∅) else
  if decide (tokenString = "") then Err (ErrNew "failed to get token") else
  if decide (cl_apiKey s ≠ apiKey) then Err (ErrNew "wrong api key") else
  token ← wrap_err "failed to parse token" (jwt_Parse tokenString (key_func s));
  match token_claims token, Valid token with
  | Some claims, true => Ok claims
  | _, _ => wrapf_nil None
  end.

End get.

(** ** What an accepted token proves *)

(** What jwt-go documents: [Parse] shows the token to the key function, and
    succeeds only with a token whose signature verifies under the key it
    returns; the token it then returns is valid and, by default, carries a
    [MapClaims]. *)
Class JwtLaws (jwt_Parse : string → (jwt_head → outcome string) → outcome jwt_token)
    (head_of : string → option jwt_head) (signed : string → string → MapClaims → Prop) : Prop := {
  jwt_sound s kf t :
    jwt_Parse s kf = Ok t →
    Valid t = true ∧
    ∃ hd key c, head_of s = Some hd ∧ kf hd = Ok key ∧ token_claims t = Some c ∧ signed s key c
}.

(** C11: authentication.  Unless the service runs without any key, a request
    gets claims only with the configured API key and a token that is signed by
    an HMAC method with the configured secret, and the claims are exactly the
    signed ones (never the nil map).  A token with any other signing method
    ([none], RSA with the secret as public key, ...) is refused. *)
Theorem Get_authentic jwt_Parse head_of signed s token apiKey c :
  JwtLaws jwt_Parse head_of signed → ¬ (cl_apiKey s = "" ∧ cl_apiSecret s = "") →
  Get jwt_Parse s token apiKey = Ok c →
  token ≠ "" ∧ apiKey = cl_apiKey s ∧ signed token (cl_apiSecret s) c ∧
  ∃ hd, head_of token = Some hd ∧ is_hmac hd = true.
Proof.
  intros Hj Hs. unfold Get. rewrite decide_False by done.
  case_decide; [done|]. case_decide as Hk; [done|].
  intros (t & Ht & Hc)%bind_ok. rewrite wrap_err_ok in Ht.
  destruct (jwt_sound _ _ _ Ht) as (Hv & hd & key & c' & Hh & Hkey & Hcl & Hsig).
  rewrite Hcl, Hv in Hc. simplify_eq. unfold key_func in Hkey.
  destruct (is_hmac hd) eqn:E; simplify_eq. split_and!; eauto.
Qed.

End claims.

(** ** A concrete token library

    Tokens of the form [alg.secret.sid]: the signature is the secret itself. *)
Definition toy_head (s : string) : option jwt_head :=
  match split s "." with a :: _ => Some (mkHead (bool_decide (a = "HS256")) a) | [] => None end.
Definition toy_claims (s : string) : option (gmap string (json spec_float)) :=
  match split s "." with [_; _; sid] => Some {["sessionID" := JStr sid]} | _ => None end.
Definition toy_Parse (s : string) (kf : jwt_head → outcome string) : outcome (jwt_token (F := spec_float)) :=
  match toy_head s, split s ".", toy_claims s with
  | Some h, [_; sec; _], Some c =>
      match kf h with
      | Ok key => if decide (sec = key) then Ok (mkToken (Some (Some c)) true)
                  else Err (ErrNew "signature is invalid")
      | Err e => Err e
      | Panic w => Panic w
      end
  | _, _, _ => Err (ErrNew "token contains an invalid number of segments")
  end.
Definition toy_signed (s key : string) (c : MapClaims (F := spec_float)) : Prop :=
  ∃ a sid, split s "." = [a; key; sid] ∧ c = Some {["sessionID" := JStr sid]}.

Lemma toy_laws : JwtLaws toy_Parse toy_head toy_signed.
Proof.
  split. intros s kf t. unfold toy_Parse, toy_claims. destruct (toy_head s) as [hd|] eqn:Eh; [|done].
  destruct (split s ".") as [|a [|sec [|sid [|? ?]]]] eqn:Es; try done.
  destruct (kf hd) as [key| |] eqn:Ek; try done. case_decide; [|done]. intros [= <-]. subst key.
  split; [done|]. exists hd, sec. eexists. repeat (split; [done|]).
  by exists a, sid.
Qed.

Example Get_authentic_witness :
  toy_signed "HS256.s3cret.u1" "s3cret" (Some {["sessionID" := JStr "u1"]}).
Proof.
  refine (proj1 (proj2 (proj2 (Get_authentic toy_Parse toy_head toy_signed (mkClaims "k" "s3cret")
    "HS256.s3cret.u1" "k" _ toy_laws _ _)))); [by intros [? _]|by vm_compute].
Defined.
