(* ===== verification/ManifestRewriter.v ===== *)
(** * services/manifest_rewriter.go and services/rules.go

    Rewriting HLS playlists for the grace rule, and the chain of response rules
    that runs it. *)

From Stdlib Require SpecFloat.
From S2P Require Import Prelude GoStrings GoUrl GoFloat GoHttp Claims.

Definition LF : ascii := "010".
Definition CR : ascii := "013".
Definition TAB : ascii := "009".
Definition crlf : string := String CR (String LF "").
Definition blanks : string := String " " (String TAB "").

Definition tagSessionOffset : string := "#EXT-X-SESSION-OFFSET:".
Definition tagExtinf : string := "#EXTINF:".

(** [bytes.IndexAny(s, chars)] for ASCII [chars] *)
Fixpoint index_any (s chars : string) : option nat :=
  match s with
  | "" => None
  | String c s => if occurs c chars then Some 0 else S <$> index_any s chars
  end.

Section manifest.
Context {F : Type} `{GoFloat F}.

Abbreviation MapClaims := (MapClaims (F := F)).

(** ** The rewriter *)

Definition grace_rule (r : Rule) : bool :=
  bool_decide (Kind r = "grace") && bool_decide (Scope_ r = "manifest")
  && bool_decide (Token r ≠ "") && (0 <? DurationSec r)%Z.

Definition findGraceRule (claims : MapClaims) : option Rule :=
  head (filter (λ r, grace_rule r = true) (ExtractRules claims)).

Definition parseSessionOffset (body : string) : F :=
  match index body tagSessionOffset with
  | None => f0
  | Some idx =>
      let rest := str_drop (idx + slen tagSessionOffset) body in
      let end_ := default (slen rest) (index_any rest crlf) in
      default f0 (parse_float (trim_space (str_take end_ rest)))
  end.

Definition stripSessionOffsetLine (body : string) : string :=
  concat_str (filter (λ line, has_prefix (trim_left line blanks) tagSessionOffset = false)
                (split_after body LF)).

Definition swapToken (line primary grace : string) : string :=
  if decide (primary = "") then line else
  let needle := "token=" +:+ primary in
  if contains line needle then replace_first line needle ("token=" +:+ grace) else line.

(** What the loop sees in a line. *)
Inductive line_kind :=
  | OffsetLine
  | Extinf (duration : option F)
  | Passed
  | Segment.

Definition kind_of (line : string) : line_kind :=
  let stripped := trim_left (trim_right line crlf) blanks in
  if has_prefix stripped tagSessionOffset then OffsetLine
  else if has_prefix stripped tagExtinf then
    let rest := str_drop (slen tagExtinf) stripped in
    let rest := match index_byte rest "," with Some comma => str_take comma rest | None => rest end in
    Extinf (parse_float (trim_space rest))
  else match stripped with
       | "" => Passed
       | String c _ => if bool_decide (c = "#"%char) then Passed else Segment
       end.

(** The loop over the lines: [movieTime] and [pendingExtinf] are its state. *)
Fixpoint rewrite_loop (graceUntil : F) (primary grace : string) (movieTime pendingExtinf : F)
    (lines : list string) : list string :=
  match lines with
  | [] => []
  | line :: lines =>
      match kind_of line with
      | OffsetLine => rewrite_loop graceUntil primary grace movieTime pendingExtinf lines
      | Extinf d =>
          line :: rewrite_loop graceUntil primary grace movieTime (default pendingExtinf d) lines
      | Passed => line :: rewrite_loop graceUntil primary grace movieTime pendingExtinf lines
      | Segment =>
          (if flt movieTime graceUntil && flt f0 pendingExtinf
           then swapToken line primary grace else line)
          :: rewrite_loop graceUntil primary grace (fadd movieTime pendingExtinf) f0 lines
      end
  end.

Definition RewriteManifest (body : string) (claims : MapClaims) (primaryToken : string) : string :=
  match findGraceRule claims with
  | None => body
  | Some rule =>
      if decide (primaryToken = "") then body else
      let sessionOffset := parseSessionOffset body in
      let graceUntil := of_int (DurationSec rule) in
      if fle graceUntil sessionOffset then stripSessionOffsetLine body
      else concat_str (rewrite_loop graceUntil primaryToken (Token rule) sessionOffset f0
                         (split_after body LF))
  end.

(** ** The response rules *)

(** A response with its request ([None] is a nil [r.Request]): the path of the
    request and the rules context it carries. *)
Record rule_request := mkRuleRequest { rr_path : string; rr_rules : option (RulesContext (F := F)) }.

Section rules.
Context {B : Type}.
(** [io.ReadAll] of a body, and a body over a byte slice *)
Context (read_all : B → outcome string) (of_bytes : string → B).

Definition rewriteManifestForGrace (rq : option rule_request) (r : response B) (rc : RulesContext)
    : outcome (response B) :=
  match rq with
  | None => Ok r
  | Some rq =>
      if negb (has_suffix (rr_path rq) ".m3u8") then Ok r else
      match findGraceRule (rc_Claims rc), Body r with
      | Some _, Some b =>
          body ← wrap_err "failed to read manifest body" (read_all b);
          let rewritten := RewriteManifest body (rc_Claims rc) (PrimaryToken rc) in
          Ok (mkResponse (StatusCode r)
                (h_set (rs_Header r) "Content-Length" (itoa (Z.of_nat (slen rewritten))))
                (Z.of_nat (slen rewritten)) (Some (of_bytes rewritten)))
      | _, _ => Ok r
      end
  end.

Definition responseRuleHandlers
    : list (option rule_request → response B → RulesContext → outcome (response B)) :=
  [rewriteManifestForGrace].

Definition applyResponseRules (rq : option rule_request) (r : response B) : outcome (response B) :=
  match rq ≫= rr_rules with
  | Some rc =>
      match rc_Claims rc with
      | Some _ => foldl (λ m h, r ← m; h rq r rc) (Ok r) responseRuleHandlers
      | None => Ok r
      end
  | None => Ok r
  end.

End rules.
End manifest.

(** ** What the rewriter computes *)

(** Facts about float64 the theorems use; they hold of IEEE arithmetic, NaN and
    infinities included, and of exact arithmetic. *)
Class FloatOrder (F : Type) `{GoFloat F} : Prop := {
  flt_irrefl : flt (F := F) f0 f0 = false;
  fle_refl0 : fle (F := F) f0 f0 = true;
  of_int_pos z : (0 < z)%Z → fle (F := F) (of_int z) f0 = false;
  flt_add x d g : fle f0 d = true → flt (F := F) x g = false → flt (fadd x d) g = false
}.

Lemma rational_order : @FloatOrder QArith_base.Q rational.
Proof.
  split; [done|done| |].
  - intros z Hz. apply not_true_iff_false. unfold fle, of_int, f0; simpl.
    rewrite QArith_base.Qle_bool_iff. unfold QArith_base.Qle; simpl. lia.
  - intros x d g. unfold fle, flt, fadd, f0; simpl.
    rewrite !negb_false_iff, !QArith_base.Qle_bool_iff. intros Hd Hx.
    rewrite <-(QArith_base.Qplus_0_r g). by apply QArith_base.Qplus_le_compat.
Qed.

Lemma index_any_le s cs i : index_any s cs = Some i → i < slen s.
Proof.
  revert i. induction s as [|c s IH]; intros i; simpl; [done|]. case_match.
  - intros [= <-]. lia.
  - intros (j & Hj & ->)%fmap_Some. apply IH in Hj. lia.
Qed.

Section spec.
Context {F : Type} `{GoFloat F}.

(** The durations of the segments of a playlist prefix, and the duration
    announced for the next one: the last readable [#EXTINF] since. *)
Fixpoint durations (next : F) (lines : list string) : list F * F :=
  match lines with
  | [] => ([], next)
  | line :: lines =>
      match kind_of line with
      | Extinf (Some d) => durations d lines
      | Segment => let '(ds, last) := durations f0 lines in (next :: ds, last)
      | _ => durations next lines
      end
  end.

(** [movie_time(N) = offset + Σ EXTINF_0..N-1] *)
Definition movie_time (offset : F) (pre : list string) : F :=
  foldl fadd offset (durations f0 pre).1.
Definition next_duration (pre : list string) : F := (durations f0 pre).2.

(** What becomes of a line that follows the lines [pre]. *)
Definition rendered (offset grace : F) (primary token : string) (pre : list string) (line : string)
    : string :=
  match kind_of line with
  | OffsetLine => ""
  | Segment =>
      if flt (movie_time offset pre) grace && flt f0 (next_duration pre)
      then swapToken line primary token else line
  | _ => line
  end.

Lemma durations_snoc next pre line :
  durations next (pre ++ [line]) =
    match kind_of line with
    | Extinf (Some d) => ((durations next pre).1, d)
    | Segment => ((durations next pre).1 ++ [(durations next pre).2], f0)
    | _ => durations next pre
    end.
Proof.
  revert next. induction pre as [|l pre IH]; intros next; simpl.
  - by destruct (kind_of line) as [|[d|]| |].
  - destruct (kind_of l) as [|[d|]| |] eqn:El; rewrite IH; try done.
    destruct (durations f0 pre) as [ds last]. by destruct (kind_of line) as [|[d|]| |].
Qed.

Lemma rewrite_loop_rendered grace primary token offset pre lines :
  concat_str (rewrite_loop grace primary token (movie_time offset pre) (next_duration pre) lines) =
  concat_str (imap (λ i line, rendered offset grace primary token (pre ++ take i lines) line) lines).
Proof.
  revert pre. induction lines as [|line lines IH]; intros pre; [done|].
  cbn [imap rewrite_loop concat_str take]. rewrite app_nil_r. unfold rendered at 1.
  assert (movie_time offset (pre ++ [line]) =
    match kind_of line with
    | Segment => fadd (movie_time offset pre) (next_duration pre) | _ => movie_time offset pre end ∧
    next_duration (pre ++ [line]) =
    match kind_of line with
    | Extinf (Some d) => d | Segment => f0 | _ => next_duration pre end) as [Hm Hn].
  { unfold movie_time, next_duration. rewrite durations_snoc.
    destruct (kind_of line) as [|[d|]| |]; try done. cbn [fst snd]. by rewrite foldl_snoc. }
  specialize (IH (pre ++ [line])).
  assert (∀ t, t = concat_str (imap (λ i l, rendered offset grace primary token
      ((pre ++ [line]) ++ take i lines) l) lines) →
    t = concat_str (imap ((λ i l, rendered offset grace primary token
      (pre ++ take i (line :: lines)) l) ∘ S) lines)) as Hgo.
  { intros t ->. f_equal. apply imap_ext. intros i x _. simpl. by rewrite <-app_assoc. }
  rewrite Hm, Hn in IH.
  destruct (kind_of line) as [|[d|]| |]; cbn [concat_str default];
    first [apply (f_equal (String.append line)), Hgo, IH | rewrite str_app_nil_l; apply Hgo, IH
          | f_equal; apply Hgo, IH].
Qed.

Definition is_offset (line : string) : bool :=
  match kind_of line with OffsetLine => true | _ => false end.
Definition is_extinf (line : string) : bool :=
  match kind_of line with Extinf _ => true | _ => false end.

(** Every readable [#EXTINF] announces a duration of at least zero. *)
Definition nonneg_durations (lines : list string) : Prop :=
  ∀ line d, line ∈ lines → kind_of line = Extinf (Some d) → fle f0 d = true.

Lemma durations_app next pre post :
  durations next (pre ++ post) =
    ((durations next pre).1 ++ (durations (durations next pre).2 post).1,
     (durations (durations next pre).2 post).2).
Proof.
  revert next. induction pre as [|l pre IH]; intros next; simpl; [by destruct (durations next post)|].
  destruct (kind_of l) as [|[d|]| |]; rewrite IH; try done. by destruct (durations f0 pre).
Qed.

Lemma durations_nonneg `{!FloatOrder F} next lines :
  fle f0 next = true → nonneg_durations lines →
  Forall (λ d, fle f0 d = true) (durations next lines).1 ∧ fle f0 (durations next lines).2 = true.
Proof.
  revert next. induction lines as [|l lines IH]; intros next Hn Hl; simpl; [done|].
  assert (nonneg_durations lines) as Hl' by (intros x d Hx; apply Hl; set_solver).
  destruct (kind_of l) as [|[d|]| |] eqn:E; try (by apply IH).
  - apply IH; [|done]. eapply Hl; [|done]. set_solver.
  - destruct (IH f0 fle_refl0 Hl') as [H1 H2]. destruct (durations f0 lines). by split; [constructor|].
Qed.

Lemma foldl_past `{!FloatOrder F} x ds g :
  flt x g = false → Forall (λ d, fle f0 d = true) ds → flt (foldl fadd x ds) g = false.
Proof.
  revert x. induction ds as [|d ds IH]; intros x Hx Hd; simpl; [done|].
  apply Forall_cons in Hd as [??]. apply IH; [by apply flt_add|done].
Qed.

Lemma movie_time_past `{!FloatOrder F} off pre post g :
  nonneg_durations (pre ++ post) → flt (movie_time off pre) g = false →
  flt (movie_time off (pre ++ post)) g = false.
Proof.
  intros Hn Hp. unfold movie_time. rewrite durations_app. simpl. rewrite foldl_app.
  apply foldl_past; [exact Hp|]. apply durations_nonneg.
  - apply durations_nonneg; [apply fle_refl0|]. intros l d Hl. apply Hn. set_solver.
  - intros l d Hl. apply Hn. set_solver.
Qed.

Lemma rendered_plain off g primary token (pres : nat → list string) lines :
  (∀ i line, lines !! i = Some line → kind_of line = Segment →
     flt (movie_time off (pres i)) g && flt f0 (next_duration (pres i)) = false) →
  concat_str (imap (λ i line, rendered off g primary token (pres i) line) lines) =
  concat_str (filter (λ l, is_offset l = false) lines).
Proof.
  revert pres. induction lines as [|l lines IH]; intros pres Hp; [done|].
  cbn [imap concat_str].
  change (imap (_ ∘ S) lines) with
    (imap (λ i line, rendered off g primary token ((pres ∘ S) i) line) lines).
  rewrite (IH (pres ∘ S)) by (intros i line Hi; by apply (Hp (S i))).
  unfold rendered. rewrite filter_cons.
  destruct (kind_of l) as [|d| |] eqn:E.
  - by rewrite decide_False by (unfold is_offset; by rewrite E).
  - by rewrite decide_True by (unfold is_offset; by rewrite E).
  - by rewrite decide_True by (unfold is_offset; by rewrite E).
  - by rewrite (Hp 0 l eq_refl E), decide_True by (unfold is_offset; by rewrite E).
Qed.

(** The rewriter, when it has work to do. *)
Lemma RewriteManifest_active body claims primary rule :
  findGraceRule claims = Some rule → primary ≠ "" →
  fle (of_int (DurationSec rule)) (parseSessionOffset body) = false →
  RewriteManifest body claims primary =
    concat_str (imap (λ i line, rendered (parseSessionOffset body) (of_int (DurationSec rule))
                       primary (Token rule) (take i (split_after body LF)) line)
                  (split_after body LF)).
Proof.
  intros Hr Hp Ho. unfold RewriteManifest. rewrite Hr, decide_False, Ho by done.
  apply (rewrite_loop_rendered _ _ _ _ []).
Qed.

(** C9: the one-pass rewriter computes what the design asks for, line by line:
    session-offset lines are removed, every line that is no segment URL is
    kept, and a segment URL gets the grace token exactly when its movie time
    [offset + sum of the durations of all earlier segments] lies before the
    grace limit and its own announced duration is positive. *)
Theorem RewriteManifest_segments body claims primary rule :
  findGraceRule claims = Some rule → primary ≠ "" →
  fle (of_int (DurationSec rule)) (parseSessionOffset body) = false →
  let lines := split_after body LF in
  let offset := parseSessionOffset body in
  let grace := of_int (DurationSec rule) in
  RewriteManifest body claims primary =
    concat_str (imap (λ i line, rendered offset grace primary (Token rule) (take i lines) line) lines)
  ∧ concat_str lines = body.
Proof.
  intros Hr Hp Ho. split; [by apply RewriteManifest_active|apply concat_split_after].
Qed.

(** C34: the grace period ends.  Once the movie time has reached the limit, no
    later line is touched (but for removed session-offset lines), however the
    playlist goes on, provided that it announces no negative duration. *)
Theorem grace_cutoff `{!FloatOrder F} body claims primary rule pre post :
  findGraceRule claims = Some rule → primary ≠ "" →
  fle (of_int (DurationSec rule)) (parseSessionOffset body) = false →
  split_after body LF = pre ++ post → nonneg_durations (pre ++ post) →
  flt (movie_time (parseSessionOffset body) pre) (of_int (DurationSec rule)) = false →
  ∃ before, RewriteManifest body claims primary =
    before +:+ concat_str (filter (λ l, is_offset l = false) post).
Proof.
  intros Hr Hp Ho Hs Hn Ht. rewrite (RewriteManifest_active _ _ _ _ Hr Hp Ho), Hs.
  rewrite imap_app, concat_str_app. eexists. f_equal.
  rewrite (rendered_plain _ _ _ _ (λ i, take (length pre + i) (pre ++ post))); [done|].
  intros i line _ _. rewrite take_app_ge by lia.
  replace (length pre + i - length pre) with i by lia.
  rewrite movie_time_past; [done| |done].
  intros l d Hl. apply Hn. rewrite elem_of_app in Hl |- *. destruct Hl as [|Hl]; [by left|].
  right. eapply subseteq_take, Hl.
Qed.

Lemma filter_all (P : string → Prop) `{∀ x, Decision (P x)} (l : list string) : (∀ x, x ∈ l → P x) → filter P l = l.
Proof.
  induction l as [|x l IH]; intros Hp; [done|].
  rewrite filter_cons, decide_True by (apply Hp; set_solver). f_equal. apply IH. set_solver.
Qed.

Lemma findGraceRule_pos claims rule :
  findGraceRule claims = Some rule → Token rule ≠ "" ∧ (0 < DurationSec rule)%Z.
Proof.
  unfold findGraceRule. destruct (filter _ _) as [|r rs] eqn:E; [done|]. intros [= ->].
  assert (rule ∈ filter (λ r, grace_rule r = true) (ExtractRules claims)) as Hin
    by (rewrite E; set_solver).
  apply list_elem_of_filter in Hin as [Hg _]. unfold grace_rule in Hg.
  rewrite !andb_true_iff, !bool_decide_eq_true, Z.ltb_lt in Hg. tauto.
Qed.

Lemma trim_left_suffix s cs : ∃ a, s = a +:+ trim_left s cs.
Proof.
  induction s as [|c s [a IH]]; [by exists ""|]. simpl. case_match; [|by exists ""].
  exists (String c a). by rewrite str_app_cons, <-IH.
Qed.

Lemma split_after_contains body line sub :
  line ∈ split_after body LF → contains line sub = true → contains body sub = true.
Proof.
  intros [l1 [l2 E]]%list_elem_of_split (a & b & ->)%contains_spec.
  rewrite <-(concat_split_after body LF), E, concat_str_app. cbn [concat_str].
  apply contains_spec. exists (concat_str l1 +:+ a), (b +:+ concat_str l2).
  by rewrite !str_app_assoc.
Qed.

Lemma str_rev_onto_app s t acc : str_rev_onto (s +:+ t) acc = str_rev_onto t (str_rev_onto s acc).
Proof. revert acc. induction s as [|c s IH]; intros acc; [done|]. rewrite str_app_cons. apply IH. Qed.
Lemma str_rev_onto_acc s acc : str_rev_onto s acc = str_rev s +:+ acc.
Proof.
  unfold str_rev. revert acc. induction s as [|c s IH]; intros acc; [done|]. simpl.
  rewrite IH, (IH (String c "")), <-str_app_assoc. done.
Qed.
Lemma str_rev_app s t : str_rev (s +:+ t) = str_rev t +:+ str_rev s.
Proof. unfold str_rev at 1. by rewrite str_rev_onto_app, str_rev_onto_acc. Qed.
Lemma str_rev_involutive s : str_rev (str_rev s) = s.
Proof.
  induction s as [|c s IH]; [done|]. change (String c s) with (String c "" +:+ s).
  by rewrite !str_rev_app, IH.
Qed.
Lemma trim_right_prefix s cs : ∃ b, s = trim_right s cs +:+ b.
Proof.
  destruct (trim_left_suffix (str_rev s) cs) as [a Ha]. exists (str_rev a).
  unfold trim_right. by rewrite <-str_rev_app, <-Ha, str_rev_involutive.
Qed.

Lemma offset_contains line : is_offset line = true → contains line tagSessionOffset = true.
Proof.
  unfold is_offset, kind_of. destruct (has_prefix _ tagSessionOffset) eqn:E.
  - intros _. apply has_prefix_spec in E as [t Ht].
    destruct (trim_left_suffix (trim_right line crlf) blanks) as [a Ha].
    destruct (trim_right_prefix line crlf) as [b Hb].
    rewrite Ht in Ha. rewrite Ha in Hb. apply contains_spec.
    exists a, (t +:+ b). by rewrite Hb, !str_app_assoc.
  - repeat case_match; done.
Qed.

Lemma no_extinf_duration lines :
  (∀ line, line ∈ lines → is_extinf line = false) → next_duration lines = f0.
Proof.
  intros Hl. unfold next_duration. induction lines as [|l lines IH]; simpl; [done|].
  assert (is_extinf l = false) as El by (apply Hl; set_solver). unfold is_extinf in El.
  specialize (IH ltac:(intros; apply Hl; set_solver)).
  destruct (kind_of l); try done. by destruct (durations f0 lines).
Qed.

(** A playlist without segments of its own is left alone: whatever the
    claims and the token, a master playlist (no [#EXTINF] line, no
    session-offset tag) passes through byte for byte. *)
Theorem master_unchanged `{!FloatOrder F} body claims primary :
  contains body tagSessionOffset = false →
  (∀ line, line ∈ split_after body LF → is_extinf line = false) →
  RewriteManifest body claims primary = body.
Proof.
  intros Hc He. destruct (findGraceRule claims) as [rule|] eqn:Er;
    [|unfold RewriteManifest; by rewrite Er].
  destruct (decide (primary = "")) as [->|Hp]; [unfold RewriteManifest; by rewrite Er|].
  assert (parseSessionOffset body = f0) as Ho.
  { unfold parseSessionOffset. unfold contains in Hc. apply bool_decide_eq_false in Hc.
    destruct (index body tagSessionOffset); [|done]. destruct Hc. by eexists. }
  rewrite (RewriteManifest_active _ _ _ _ Er Hp)
    by (rewrite Ho; apply of_int_pos; by apply findGraceRule_pos in Er as [_ ?]).
  rewrite (rendered_plain _ _ _ _ (λ i, take i (split_after body LF))).
  - rewrite filter_all; [apply concat_split_after|]. intros line Hl.
    destruct (is_offset line) eqn:E; [|done].
    apply offset_contains in E. by rewrite (split_after_contains _ _ _ Hl E) in Hc.
  - intros i line _ _. rewrite no_extinf_duration, flt_irrefl, andb_false_r; [done|].
    intros l Hl. apply He. eapply subseteq_take, Hl.
Qed.

(** The response hook.  [applyResponseRules] either leaves a response
    exactly as it is (no rules context, nil claims, no [.m3u8] path, no grace
    rule, or no body), or replaces the body by the rewritten manifest, with a
    Content-Length header and field that agree with the new body, and changes
    nothing else; it fails only when the upstream body cannot be read. *)
Theorem applyResponseRules_spec {B} (read_all : B → outcome string) (of_bytes : string → B) rq r :
  match applyResponseRules read_all of_bytes rq r with
  | Ok r' =>
      r' = r ∨
      ∃ path rc b body rule, rq = Some (mkRuleRequest path (Some rc)) ∧
        has_suffix path ".m3u8" = true ∧ findGraceRule (rc_Claims rc) = Some rule ∧
        Body r = Some b ∧ read_all b = Ok body ∧
        let body' := RewriteManifest body (rc_Claims rc) (PrimaryToken rc) in
        Body r' = Some (of_bytes body') ∧ ContentLength r' = Z.of_nat (slen body') ∧
        StatusCode r' = StatusCode r ∧
        h_get (rs_Header r') "Content-Length" = itoa (Z.of_nat (slen body')) ∧
        (∀ k, canonical k ≠ "Content-Length" → h_get (rs_Header r') k = h_get (rs_Header r) k)
  | Err e => ∃ b e', Body r = Some b ∧ read_all b = Err e' ∧ error_root e = error_root e'
  | Panic _ => ∃ b w, Body r = Some b ∧ read_all b = Panic w
  end.
Proof.
  unfold applyResponseRules. destruct rq as [[path [rc|]]|]; simpl; [|by left..].
  destruct (rc_Claims rc) as [m|] eqn:Em; [|by left]. cbn [rr_path rewriteManifestForGrace].
  unfold rewriteManifestForGrace. cbn [rr_path].
  destruct (has_suffix path ".m3u8") eqn:Es; [simpl|by left].
  destruct (findGraceRule (Some m)) as [rule|] eqn:Er; [|by left].
  destruct (Body r) as [b|] eqn:Eb; [|by left].
  destruct (read_all b) as [body|e|w] eqn:Ea; simpl; [|by exists b, e|by exists b, w].
  right. exists path, rc, b, body, rule. rewrite Em. repeat (split; [done|]). split.
  - by rewrite h_get_set, decide_True.
  - intros k Hk. rewrite h_get_set, decide_False; [done|]. by intros E.
Qed.

End spec.

(** ** A concrete playlist *)

#[local] Existing Instance rational.
#[local] Existing Instance rational_order.

Definition demo_claims : MapClaims (F := QArith_base.Q) :=
  Some {["rules" := JArr [JObj [("kind", JStr "grace"); ("scope", JStr "manifest");
                                ("duration_sec", JNum (QArith_base.inject_Z 15));
                                ("token", JStr "GRACE")]]]}.
Definition demo_line (s : string) : string := s +:+ String LF "".
Definition demo_playlist : string :=
  concat_str (map demo_line
    ["#EXTM3U"; "#EXT-X-SESSION-OFFSET:2.5"; "#EXTINF:6.0,"; "s0.ts?token=PRIM"; "#EXTINF:6.0,";
     "s1.ts?token=PRIM"; "#EXTINF:6.0,"; "s2.ts?token=PRIM"; "#EXTINF:6.0,"; "s3.ts?token=PRIM"]).

Example demo_playlist_rewritten :
  RewriteManifest demo_playlist demo_claims "PRIM" =
  concat_str (map demo_line
    ["#EXTM3U"; "#EXTINF:6.0,"; "s0.ts?token=GRACE"; "#EXTINF:6.0,"; "s1.ts?token=GRACE";
     "#EXTINF:6.0,"; "s2.ts?token=GRACE"; "#EXTINF:6.0,"; "s3.ts?token=PRIM"]).
Proof. by vm_compute. Qed.

Definition demo_rule : Rule := mkRule "grace" "manifest" 15 "GRACE".

Example RewriteManifest_segments_witness :
  RewriteManifest demo_playlist demo_claims "PRIM" =
    concat_str (imap (λ i line, rendered (parseSessionOffset demo_playlist) (of_int 15) "PRIM" "GRACE"
                       (take i (split_after demo_playlist LF)) line)
                  (split_after demo_playlist LF)).
Proof.
  exact (proj1 (RewriteManifest_segments demo_playlist demo_claims "PRIM" demo_rule
    ltac:(by vm_compute) ltac:(done) ltac:(by vm_compute))).
Defined.

Example grace_cutoff_witness :
  ∃ before, RewriteManifest demo_playlist demo_claims "PRIM" =
    before +:+ concat_str (filter (λ l, is_offset l = false) (drop 8 (split_after demo_playlist LF))).
Proof.
  assert (forallb (λ l, match kind_of l with Extinf (Some d) => fle f0 d | _ => true end)
            (split_after demo_playlist LF) = true) as HF by (by vm_compute).
  refine (grace_cutoff demo_playlist demo_claims "PRIM" demo_rule
    (take 8 (split_after demo_playlist LF)) (drop 8 (split_after demo_playlist LF))
    _ _ _ (eq_sym (take_drop 8 _)) _ _); [by vm_compute|done|by vm_compute| |by vm_compute].
  revert HF. generalize (split_after demo_playlist LF). intros L HF line d Hl Hk.
  rewrite take_drop in Hl. rewrite forallb_forall in HF.
  specialize (HF line (proj1 (list_elem_of_In _ _) Hl)). by rewrite Hk in HF.
Defined.

Example master_unchanged_witness :
  RewriteManifest (demo_line "#EXT-X-STREAM-INF:BANDWIDTH=1" +:+ demo_line "v0.m3u8?token=PRIM")
    demo_claims "PRIM" =
  demo_line "#EXT-X-STREAM-INF:BANDWIDTH=1" +:+ demo_line "v0.m3u8?token=PRIM".
Proof.
  apply master_unchanged; [by vm_compute|].
  assert (forallb (λ l, negb (is_extinf (F := QArith_base.Q) l))
    (split_after (demo_line "#EXT-X-STREAM-INF:BANDWIDTH=1" +:+ demo_line "v0.m3u8?token=PRIM") LF)
    = true) as HF by (by vm_compute).
  intros line Hl. rewrite forallb_forall in HF.
  by apply negb_true_iff, HF, list_elem_of_In.
Defined.
