(* ===== verification/LazyMap.v ===== *)
(** * The lazymap interface

    github.com/webtor-io/lazymap is the cache the program keeps its locations,
    ignored addresses, probes, endpoints, nodes, throttlers and proxies in.
    Its code is not part of the repository, so it is a class: [lm_peek] is what
    a [Get] at a time answers without computing anything ([None]: it must
    compute), [lm_store] is the map after a computation, and the law is what
    the clients rely on.  [timed_map] is an implementation that satisfies it. *)

From S2P Require Import Prelude.

Class LazyMap (M : Type → Type) := {
  lm_peek {V} : Z → M V → string → option (outcome V);
  lm_store {V} : Z → M V → string → outcome V → M V;
  (** a value that was just stored is answered; storing for one key invents
      nothing for the others *)
  lm_peek_store {V} now (m : M V) k v : lm_peek now (lm_store now m k (Ok v)) k = Some (Ok v);
  lm_peek_other {V} now (m : M V) k k' v x :
    k ≠ k' → lm_peek now (lm_store now m k v) k' = Some x → lm_peek now m k' = Some x;
  (** nor at any other time *)
  lm_store_honest {V} now now' (m : M V) k v k' x :
    lm_peek now' (lm_store now m k v) k' = Some x → k' = k ∧ x = v ∨ lm_peek now' m k' = Some x
}.

(** A lazymap without a capacity keeps what it has until it expires: storing
    for one key removes nothing of the others. *)
Class KeepsEntries (M : Type → Type) `{LazyMap M} := {
  lm_peek_kept {V} now (m : M V) k k' v x :
    k ≠ k' → lm_peek now m k' = Some x → lm_peek now (lm_store now m k v) k' = Some x
}.

(** [m.Get(key, f)] where the map is a part of a larger state that [f] may
    change too.  A panic of [f] goes through and stores nothing. *)
Definition lm_get {M V S} `{LazyMap M} (now : Z) (view : S → M V) (update : M V → S → S)
    (key : string) (f : S → outcome V * S) (s : S) : outcome V * S :=
  match lm_peek now (view s) key with
  | Some v => (v, s)
  | None =>
      let '(v, s) := f s in
      match v with
      | Panic w => (Panic w, s)
      | _ => (v, update (lm_store now (view s) key v) s)
      end
  end.

(** [_, ok := m.Status(key)] *)
Definition lm_known {M V} `{LazyMap M} (now : Z) (m : M V) (key : string) : bool :=
  bool_decide (is_Some (lm_peek now m key)).

(** ** A map with expiry times *)

Record timed (V : Type) := mkTimed {
  expire : Z;
  store_errors : bool;
  items : gmap string (outcome V * Z)
}.
Arguments mkTimed {V}.
Arguments expire {V}.
Arguments store_errors {V}.
Arguments items {V}.

Definition timed_peek {V} (now : Z) (m : timed V) (k : string) : option (outcome V) :=
  match items m !! k with
  | Some (v, t) => if (now <=? t)%Z then Some v else None
  | None => None
  end.
Definition timed_store {V} (now : Z) (m : timed V) (k : string) (v : outcome V) : timed V :=
  if is_ok v || store_errors m
  then mkTimed (expire m) (store_errors m) (<[k := (v, now + Z.max 0 (expire m))%Z]> (items m))
  else m.

#[export] Program Instance timed_map : LazyMap timed := {|
  lm_peek := @timed_peek;
  lm_store := @timed_store
|}.
Next Obligation.
  intros V now m k v. unfold timed_peek, timed_store. simpl. rewrite lookup_insert_eq.
  destruct (Z.leb_spec now (now + Z.max 0 (expire m))); [done|lia].
Qed.
Next Obligation.
  intros V now m k k' v x Hk. unfold timed_peek, timed_store.
  destruct (is_ok v || store_errors m); [|done]. simpl.
  by rewrite lookup_insert_ne.
Qed.
Next Obligation.
  intros V now now' m k v k' x. unfold timed_peek, timed_store.
  destruct (is_ok v || store_errors m); [|by right]. simpl. rewrite lookup_insert.
  case_decide as E; [|by right]. subst. case_match; [|done]. intros [= <-]. by left.
Qed.

#[export] Instance timed_keeps : KeepsEntries timed.
Proof.
  split. intros V now m k k' v x Hk. simpl. unfold timed_peek, timed_store.
  destruct (is_ok v || store_errors m); [|done]. simpl. by rewrite lookup_insert_ne.
Qed.

Definition timed_empty {V} (expire : Z) (store_errors : bool) : timed V :=
  mkTimed expire store_errors ∅.
