(* ===== verification/Clients.v ===== *)
(** * services/k8s/client.go and services/clickhouse_db.go

    The two connections that the program opens on first use.  What client-go,
    database/sql and the file system answer is an argument; the mutex and the
    [sync.Once] make a call one step, so callers are a sequence. *)

From S2P Require Import Prelude GoStrings GoUrl.

(** ** The Kubernetes client *)

Section k8s.
Context {Clientset : Type}.

(** [rest.Config]: the fields the program sets, and the rest of it. *)
Record rest_Config := mkConfig { host_config : string; Burst : Z; QPS : Z }.

(** The environment of a call: [$HOME], whether a path exists, and client-go. *)
Record kubeEnv := mkKubeEnv {
  HOME : string;
  stat_ok : string → bool;
  BuildConfigFromFlags : string → outcome rest_Config;
  InClusterConfig : outcome rest_Config;
  NewForConfig : rest_Config → outcome Clientset
}.

Record Client := mkClient { cl : option (outcome Clientset); inited : bool }.
Definition NewClient : Client := mkClient None false.

(** [filepath.Join(home, ".kube", "config")] of an absolute or empty [home]; an
    empty element is left out. *)
Definition kubeconfig_path (home : string) : string :=
  if decide (home = "") then ".kube/config" else filepath_clean (home +:+ "/.kube/config").

Definition get (e : kubeEnv) : outcome Clientset :=
  let kubeconfig := kubeconfig_path (HOME e) in
  config ← wrap_err "failed to make config"
    (if stat_ok e kubeconfig then BuildConfigFromFlags e kubeconfig else InClusterConfig e);
  NewForConfig e (mkConfig (host_config config) 100 (-1)).

(** A panic leaves the mutex by the deferred unlock and stores nothing.  The
    nil client and nil error of an initialised client without an answer cannot
    occur. *)
Definition Get (e : kubeEnv) (s : Client) : outcome (option Clientset) * Client :=
  if inited s then
    (match cl s with Some r => Some <$> r | None => Ok None end, s)
  else
    match get e with
    | Panic w => (Panic w, s)
    | r => (Some <$> r, mkClient (Some r) true)
    end.

(** The answers of calls in a row. *)
Fixpoint Gets (es : list kubeEnv) (s : Client) : list (outcome (option Clientset)) :=
  match es with
  | [] => []
  | e :: es => let '(r, s) := Get e s in r :: Gets es s
  end.

Lemma Gets_inited es r : (∀ w, r ≠ Panic w) →
  Gets es (mkClient (Some r) true) = replicate (length es) (Some <$> r).
Proof. intros. induction es as [|e es IH]; [done|]. simpl. by f_equal. Qed.

(** The client is made once: every caller, at any time, gets the answer of the
    first attempt.  So does an error: one failed attempt is final. *)
Theorem client_once e es :
  (∀ w, get e ≠ Panic w) → Gets (e :: es) NewClient = replicate (S (length es)) (Some <$> get e).
Proof.
  intros Hp. cbn [Gets]. unfold Get. cbn [inited NewClient].
  destruct (get e) as [x|x|w] eqn:E; [| |by destruct (Hp w)]; by rewrite Gets_inited.
Qed.

(** Local mode when the file is there, else the cluster; in both the client is
    made with a burst of 100 and no rate limit. *)
Lemma get_modes e c :
  get e = Ok c →
  ∃ config, (if stat_ok e (kubeconfig_path (HOME e))
             then BuildConfigFromFlags e (kubeconfig_path (HOME e)) else InClusterConfig e) = Ok config ∧
    NewForConfig e (mkConfig (host_config config) 100 (-1)) = Ok c.
Proof. unfold get. intros (config & ?%wrap_err_ok & ?)%bind_ok. eauto. Qed.

End k8s.

(** ** The database handle *)

Section clickhouse.
Context {DB : Type}.
(** [sql.Open("clickhouse", dsn)], which does not connect *)
Context (sql_Open : string → outcome DB).

(** [opened] is what the [sync.Once] has stored. *)
Record ClickHouseDB := mkClickHouseDB { dsn : string; opened : option (outcome DB) }.
Definition NewClickHouseDB (dsn : string) : ClickHouseDB := mkClickHouseDB dsn None.

Definition DB_Get (s : ClickHouseDB) : outcome DB * ClickHouseDB :=
  match opened s with
  | Some r => (r, s)
  | None => let r := sql_Open (dsn s) in (r, mkClickHouseDB (dsn s) (Some r))
  end.

(** [Close] closes the handle if there is one: the handle that is closed. *)
Definition DB_Close (s : ClickHouseDB) : option DB :=
  match opened s with Some (Ok db) => Some db | _ => None end.

Lemma DB_Get_stable s : DB_Get (DB_Get s).2 = ((DB_Get s).1, (DB_Get s).2).
Proof. unfold DB_Get at 2 3 4. destruct (opened s) eqn:E; unfold DB_Get; simpl; by rewrite ?E. Qed.

(** What [Close] closes is what every call of [Get] gave out. *)
Lemma DB_Close_closes d db : (DB_Get (NewClickHouseDB d)).1 = Ok db →
  DB_Close (DB_Get (NewClickHouseDB d)).2 = Some db.
Proof. unfold DB_Get, DB_Close. simpl. by intros ->. Qed.

End clickhouse.

(** ** A first attempt that fails *)

Definition no_cluster : kubeEnv (Clientset := nat) :=
  mkKubeEnv "/root" (λ _, false) (λ _, Err (ErrNew "no file")) (Err (ErrNew "not in a cluster")) (λ _, Ok 7).
Definition in_cluster : kubeEnv (Clientset := nat) :=
  mkKubeEnv "/root" (λ _, false) (λ _, Err (ErrNew "no file")) (Ok (mkConfig "api" 0 0)) (λ _, Ok 7).

(** An API server that is not there at the first call is never asked again. *)
Example client_error_sticks :
  Gets [no_cluster; in_cluster; in_cluster] NewClient =
    replicate 3 (Err (ErrWrap "failed to make config" (ErrNew "not in a cluster"))) ∧
  kubeconfig_path "/root/" = "/root/.kube/config" ∧
  Gets [in_cluster; no_cluster] NewClient = replicate 2 (Ok (Some 7)).
Proof. by vm_compute. Qed.
