(* ===== verification/K8s.v ===== *)
(** * services/k8s: nodes and endpoints

    The data the resolver reads from the Kubernetes API, which roles a node
    admits, and the node list built from the API's answer. *)

From S2P Require Import Prelude GoStrings LazyMap.

(** ** API data *)

(** [corev1.Node]: name, labels, and conditions as (type, status). *)
Record Node := mkNode {
  n_Name : string;
  n_Labels : gmap string string;
  n_Conditions : list (string * string)
}.

(** [corev1.EndpointAddress]; [NodeName] is a pointer. *)
Record EndpointAddress := mkAddress { a_IP : string; a_NodeName : option string }.

(** [corev1.EndpointSubset] with its ports as (name, port), and
    [corev1.Endpoints]. *)
Record EndpointSubset := mkSubset {
  Addresses : list EndpointAddress;
  sub_Ports : list (string * Z)
}.
Record Endpoints := mkEndpoints { Subsets : list EndpointSubset }.

#[export] Instance EndpointAddress_eq_dec : EqDecision EndpointAddress.
Proof. solve_decision. Defined.

(** ** Roles *)

Record NodeStat := mkNodeStat {
  ns_Name : string;
  RolesAllowed : list string;
  RolesDenied : list string
}.

Definition IsAllowed (s : NodeStat) (role : string) : bool :=
  match RolesAllowed s, RolesDenied s with
  | [], [] => true
  | [], denied => bool_decide (role ∉ denied)
  | allowed, _ => bool_decide (role ∈ allowed)
  end.

(** ** The node list *)

Definition getLabelList (labelPrefix : string) (n : Node) (name : string) : list string :=
  match n_Labels n !! (labelPrefix +:+ name) with
  | Some v => map trim_space (split v ",")
  | None => []
  end.

Definition ready (n : Node) : bool :=
  bool_decide (("Ready", "True") ∈ n_Conditions n).

Definition node_stat (labelPrefix : string) (n : Node) : NodeStat :=
  mkNodeStat (n_Name n) (getLabelList labelPrefix n "roles-allowed")
    (getLabelList labelPrefix n "roles-denied").

(** The order of Go strings *)
Definition str_le (a b : string) : Prop := String.leb a b = true.
#[export] Instance str_le_dec : RelDecision str_le.
Proof. intros a b. unfold str_le. apply _. Defined.

Definition ns_le (a b : NodeStat) : Prop := str_le (ns_Name a) (ns_Name b).
#[export] Instance ns_le_dec : RelDecision ns_le.
Proof. intros a b. unfold ns_le. apply _. Defined.

(** The computation of [NodesStat.Get] on the answer of the API. *)
Definition nodes_of (labelPrefix : string) (answer : outcome (list Node)) : outcome (list NodeStat) :=
  items ← wrap_err "failed to get k8s nodes" answer;
  Ok (merge_sort ns_le (map (node_stat labelPrefix) (filter (λ n, ready n = true) items))).

(** ** Facts about the string order *)

Lemma ascii_compare_trans a b c :
  Ascii.compare a b = Lt → Ascii.compare b c = Lt → Ascii.compare a c = Lt.
Proof. unfold Ascii.compare. rewrite !N.compare_lt_iff. lia. Qed.

Lemma str_compare_trans a b c :
  String.compare a b = Lt → String.compare b c = Lt → String.compare a c = Lt.
Proof.
  revert b c. induction a as [|x a IH]; intros [|y b] [|z c]; simpl; try done.
  destruct (Ascii.compare x y) eqn:E1; [|intros _|done].
  - apply Ascii.compare_eq_iff in E1 as ->. intros H1.
    destruct (Ascii.compare y z); try done. by apply IH.
  - destruct (Ascii.compare y z) eqn:E2; [|intros _|done].
    + apply Ascii.compare_eq_iff in E2 as ->. by rewrite E1.
    + by rewrite (ascii_compare_trans _ _ _ E1 E2).
Qed.

#[export] Instance str_le_total : Total str_le.
Proof. intros a b. apply String.leb_total. Qed.
#[export] Instance str_le_trans : Transitive str_le.
Proof.
  intros a b c. unfold str_le, String.leb.
  destruct (String.compare a b) eqn:E1; try done; intros _;
    destruct (String.compare b c) eqn:E2; try done; intros _.
  - apply String.compare_eq_iff in E1 as ->. by rewrite E2.
  - apply String.compare_eq_iff in E1 as ->. by rewrite E2.
  - apply String.compare_eq_iff in E2 as ->. by rewrite E1.
  - by rewrite (str_compare_trans _ _ _ E1 E2).
Qed.
#[export] Instance str_le_antisymm : AntiSymm (=) str_le.
Proof. intros a b. apply String.leb_antisym. Qed.
