(* ===== verification/ServiceLocation.v ===== *)
(** * services/service_location.go and services/resolver.go

    Which pod a request goes to.  The caches (locations, ignored addresses,
    probes, nodes, endpoints) are lazymaps in one state; what the cluster, the
    network, the process environment and the random generator answer during
    the call is the environment of the call. *)

From S2P Require Import Prelude GoStrings GoUrl GoNet GoFloat GoHttp Claims LazyMap K8s.
From S2P Require Import ServicesConfig UrlParser.

(** ** Locations *)

Record Location := mkLocation {
  HTTP : Z;
  Probe : Z;
  loc_IP : option IP;
  Unavailable : bool
}.
Definition unavailable : Location := mkLocation 0 0 None true.

(** [sha1R]: [^[0-9a-f]{5,40}$] *)
Definition sha1R (s : string) : bool :=
  all_bytes hash_byte s && (5 <=? slen s) && (slen s <=? 40).

(** ** Choosing an address by hash *)

Definition ip_le (a b : EndpointAddress) : Prop := str_le (a_IP a) (a_IP b).
#[export] Instance ip_le_dec : RelDecision ip_le.
Proof. intros a b. unfold ip_le. apply _. Defined.

(** [int(num64 * 1000)] for the number in the first five hex digits; slicing
    panics on a shorter string. *)
Definition hash_num (infoHash : string) : outcome Z :=
  if (slen infoHash <? 5) then Panic "slice bounds out of range" else
  match parse_int 16 (str_take 5 infoHash) with
  | None => Err (ErrWrap ("failed to parse hex from infohash=" +:+ infoHash) (ErrNew "invalid syntax"))
  | Some n => Ok (int64 (n * 1000))
  end.

Definition total_space : Z := 1048575 * 1000.

(** [for j := ...; if num < base + (j+1)*interval { return &as[j] }] *)
Fixpoint find_slot (num base interval : Z) (j : Z) (as_ : list EndpointAddress)
    : option EndpointAddress :=
  match as_ with
  | [] => None
  | a :: as_ =>
      if (num <? base + (j + 1) * interval)%Z then Some a
      else find_slot num base interval (j + 1) as_
  end.

Definition distributeByHash (src : Source) (as_ : list EndpointAddress)
    : outcome (option EndpointAddress) :=
  let as_ := merge_sort ip_le as_ in
  num ← hash_num (InfoHash src);
  if decide (as_ = []) then Panic "integer divide by zero" else
  let interval := (total_space / Z.of_nat (length as_))%Z in
  Ok (find_slot num 0 interval 0 as_).

Definition on_node (n : string) (a : EndpointAddress) : Prop := a_NodeName a = Some n.
#[export] Instance on_node_dec n a : Decision (on_node n a).
Proof. unfold on_node. apply _. Defined.

Fixpoint node_loop (num nodeInterval : Z) (as_ : list EndpointAddress) (i : Z) (nodes : list string)
    : outcome (option EndpointAddress) :=
  match nodes with
  | [] => Ok None
  | n :: nodes =>
      let nas := filter (on_node n) as_ in
      if decide (nas = []) then Panic "integer divide by zero" else
      let aInterval := (nodeInterval / Z.of_nat (length nas))%Z in
      match find_slot num (i * nodeInterval) aInterval 0 nas with
      | Some a => Ok (Some a)
      | None => node_loop num nodeInterval as_ (i + 1) nodes
      end
  end.

(** [*a.NodeName] of every address; nil panics. *)
Definition node_names (as_ : list EndpointAddress) : outcome (list string) :=
  match mapM a_NodeName as_ with
  | Some ns => Ok ns
  | None => Panic "nil pointer dereference"
  end.

Definition getPort (sub : EndpointSubset) (name : string) : Z :=
  match filter (λ p, p.1 = name) (sub_Ports sub) with p :: _ => p.2 | [] => 0%Z end.

Definition addressToLocation (a : option EndpointAddress) (sub : EndpointSubset) : Location :=
  match a with
  | None => unavailable
  | Some a => mkLocation (getPort sub "http") (getPort sub "httpprobe") (ParseIP (a_IP a)) false
  end.

Section location.
Context {F : Type} `{GoFloat F} `{GoUnicode}.
Context {M : Type → Type} `{LazyMap M}.

(** The caches *)
Record slState := mkState {
  sl_locs : M Location;
  sl_ignored : M bool;
  sl_probed : M bool;
  sl_nodes : M (list NodeStat);
  sl_eps : M Endpoints
}.

(** What the outside answers during a call: the clock, the Kubernetes client,
    the API's nodes and endpoints, an environment variable, the number behind [rand.Intn], and the
    status code of a probe request. *)
Record slEnv := mkEnv {
  now : Z;
  nn : string;
  labelPrefix : string;
  k8s_client : outcome unit;
  api_nodes : outcome (list Node);
  api_endpoints : string → outcome Endpoints;
  getenv : string → string;
  rnd : nat;
  do_get : request → outcome Z
}.

Context (e : slEnv).

(** A computation over the caches. *)
Abbreviation ST A := (slState → outcome A * slState).
Definition st_bind {A B} (m : ST A) (f : A → ST B) : ST B := λ s,
  match m s with
  | (Ok a, s) => f a s
  | (Err x, s) => (Err x, s)
  | (Panic w, s) => (Panic w, s)
  end.
Definition st_lift {A} (m : outcome A) : ST A := λ s, (m, s).
Definition st_wrap {A} (msg : string) (m : ST A) : ST A := λ s,
  let '(r, s) := m s in (wrap_err msg r, s).
Notation "'let*' x := m 'in' k" := (st_bind m (λ x, k)) (at level 10, x pattern, k at level 200).

(** ** The caches *)

(** The API is asked through the client of [Clients.Get]. *)
Definition with_client {A} (answer : outcome A) : outcome A :=
  _ ← wrap_err "failed to get k8s client" (k8s_client e); answer.

Definition Nodes_Get : ST (list NodeStat) :=
  lm_get (now e) sl_nodes
    (λ m s, mkState (sl_locs s) (sl_ignored s) (sl_probed s) m (sl_eps s)) ""
    (st_lift (with_client (nodes_of (labelPrefix e) (api_nodes e)))).

Definition Endpoints_Get (name : string) : ST Endpoints :=
  lm_get (now e) sl_eps
    (λ m s, mkState (sl_locs s) (sl_ignored s) (sl_probed s) (sl_nodes s) m) name
    (st_lift (with_client (wrap_err ("failed to get k8s endpoints for " +:+ name) (api_endpoints e name)))).

Definition Ignore (ip : string) : ST bool :=
  lm_get (now e) sl_ignored
    (λ m s, mkState (sl_locs s) m (sl_probed s) (sl_nodes s) (sl_eps s)) ip (st_lift (Ok true)).

Definition IsIgnored (s : slState) (ip : string) : bool := lm_known (now e) (sl_ignored s) ip.

(** The probe request of [ProbeChecker.Get] *)
Definition do_probe (l : Location) : outcome bool :=
  let port := if (Probe l =? 0)%Z then HTTP l else Probe l in
  match NewRequest "GET" ("http://" +:+ IP_String (loc_IP l) +:+ ":" +:+ itoa port) with
  | None => Err (ErrNew "invalid URL")
  | Some req =>
      status ← do_get e req;
      if (500 <=? status)%Z then Err (ErrNew ("unexpected status code: " +:+ itoa status))
      else Ok true
  end.

Definition ProbeChecker_Get (l : Location) : ST bool :=
  lm_get (now e) sl_probed
    (λ m s, mkState (sl_locs s) (sl_ignored s) m (sl_nodes s) (sl_eps s)) (IP_String (loc_IP l))
    (st_lift (do_probe l)).

Definition filterAddressesByIgnore (as_ : list EndpointAddress) : ST (list EndpointAddress) := λ s,
  (Ok (filter (λ a, IsIgnored s (IP_String (ParseIP (a_IP a))) = false) as_), s).

(** ** Distribution *)

Definition filterNodesByRole (nodes : list string) (claims : MapClaims (F := F)) : ST (list string) :=
  match claims, claim_string claims "role" with
  | Some _, Some role =>
      if decide (role = "") then st_lift (Ok nodes) else
      let* ns := st_wrap "failed to get nodes" Nodes_Get in
      st_lift (Ok (nodes ≫= λ n,
        ns_Name <$> filter (λ nss, n = ns_Name nss ∧ IsAllowed nss role = true) ns))
  | _, _ => st_lift (Ok nodes)
  end.

Definition distributeByNodeHash (src : Source) (as_ : list EndpointAddress)
    (claims : MapClaims (F := F)) : ST (option EndpointAddress) :=
  let as_ := merge_sort ip_le as_ in
  let* names := st_lift (node_names as_) in
  let nodes := merge_sort str_le (remove_dups names) in
  let* nodes := st_wrap "failed to filter nodes by role" (filterNodesByRole nodes claims) in
  let* num := st_lift (hash_num (InfoHash src)) in
  if decide (nodes = []) then st_lift (wrapf_nil None) else
  st_lift (node_loop num (total_space / Z.of_nat (length nodes))%Z as_ 0 nodes).

Definition pick_random (as_ : list EndpointAddress) : option EndpointAddress :=
  as_ !! (rnd e mod length as_).

Definition choose (cfg : ServiceConfig) (src : Source) (claims : MapClaims (F := F))
    (as_ : list EndpointAddress) : ST (option EndpointAddress) :=
  if negb (sha1R (InfoHash src)) then st_lift (Ok (pick_random as_))
  else if decide (Distribution cfg = Hash) then st_lift (distributeByHash src as_)
  else if decide (Distribution cfg = NodeHash) then distributeByNodeHash src as_ claims
  else st_lift (Ok None).

Definition prefer_local (cfg : ServiceConfig) (src : Source) (as_ : list EndpointAddress)
    (a : option EndpointAddress) : outcome (option EndpointAddress) :=
  match a with
  | None => Ok None
  | Some addr =>
      if decide (nn e = "") then Ok a else
      match a_NodeName addr with
      | None => Panic "nil pointer dereference"
      | Some node =>
          if bool_decide (node ≠ nn e) && PreferLocalNode cfg then
            _ ← node_names as_;
            let las := filter (on_node (nn e)) as_ in
            if decide (las = []) then Ok a
            else wrap_err "failed to distribute locally" (distributeByHash src las)
          else Ok a
      end
  end.

Definition getKubernetes (cfg : ServiceConfig) (src : Source) (claims : MapClaims (F := F))
    : ST Location :=
  let* endpoints := st_wrap "failed to get endpoints" (Endpoints_Get (cfg_Name cfg)) in
  match Subsets endpoints with
  | [] => st_lift (Panic "index out of range")
  | subset :: _ =>
      let* as_ := filterAddressesByIgnore (Addresses subset) in
      if decide (as_ = []) then st_lift (Ok unavailable) else
      let* a := st_wrap "failed to distribute" (choose cfg src claims as_) in
      let* a := st_lift (prefer_local cfg src as_ a) in
      st_lift (Ok (addressToLocation a subset))
  end.

(** The loop of [getKubernetesWithProbeCheck] with the tries that are left. *)
Fixpoint probe_loop (tries : nat) (cfg : ServiceConfig) (src : Source)
    (claims : MapClaims (F := F)) : ST Location :=
  match tries with
  | 0 => st_lift (Ok unavailable)
  | S tries =>
      let* l := getKubernetes cfg src claims in
      if Unavailable l then st_lift (Ok l) else λ s,
      match ProbeChecker_Get l s with
      | (Ok _, s) => (Ok l, s)
      | (Err _, s) =>
          let '(_, s) := Ignore (IP_String (loc_IP l)) s in
          probe_loop tries cfg src claims s
      | (Panic w, s) => (Panic w, s)
      end
  end.

Definition getKubernetesWithProbeCheck (cfg : ServiceConfig) (src : Source)
    (claims : MapClaims (F := F)) : ST Location := probe_loop 3 cfg src claims.

Definition getEnvironment (cfg : ServiceConfig) : outcome Location :=
  let name := replace_byte "-" "_" (to_upper (cfg_Name cfg)) in
  let portName := name +:+ "_SERVICE_PORT" in
  let hostName := name +:+ "_SERVICE_HOST" in
  match atoi (getenv e portName) with
  | None => Err (ErrWrap ("failed to parse environment variable " +:+ portName) (ErrNew "invalid syntax"))
  | Some port =>
      match ParseIP (getenv e hostName) with
      | None => Err (ErrNew ("failed to parse environment variable " +:+ hostName))
      | Some ip => Ok (mkLocation port 0 (Some ip) false)
      end
  end.

Definition location_key (cfg : ServiceConfig) (src : Source) (claims : MapClaims (F := F)) : string :=
  cfg_Name cfg +:+ InfoHash src +:+ default "" (claim_string claims "role").

Definition Get (cfg : ServiceConfig) (src : Source) (claims : MapClaims (F := F)) : ST Location :=
  lm_get (now e) sl_locs
    (λ m s, mkState m (sl_ignored s) (sl_probed s) (sl_nodes s) (sl_eps s))
    (location_key cfg src claims)
    (if decide (EndpointsProvider cfg = Kubernetes) then getKubernetesWithProbeCheck cfg src claims
     else if decide (EndpointsProvider cfg = Environment) then st_lift (getEnvironment cfg)
     else st_lift (Err (ErrNew ("unknown endpoints provider: " +:+ EndpointsProvider cfg)))).

Definition GetFallback (cfg : ServiceConfig) (src : Source) (excludeIP : option IP)
    (claims : MapClaims (F := F)) : ST Location :=
  if decide (EndpointsProvider cfg = Environment) then st_lift (getEnvironment cfg) else
  let* _ := Ignore (IP_String excludeIP) in
  let* loc := st_wrap "failed to resolve fallback" (getKubernetes cfg src claims) in
  if Unavailable loc
  then st_lift (Err (ErrNew ("no available pods after excluding " +:+ IP_String excludeIP)))
  else st_lift (Ok loc).

(** ** The resolver *)

(** The configuration for an edge type and a role. *)
Definition edge_config (configs : ServicesConfig) (src : Source) (claims : MapClaims (F := F))
    : option ServiceConfig :=
  let edgeType := GetEdgeType src in
  match (role ← claim_string claims "role"; GetMod configs (edgeType +:+ "-" +:+ role)) with
  | Some cfg => Some cfg
  | None => GetMod configs edgeType
  end.

Definition Resolve (configs : ServicesConfig) (src : Source) (claims : MapClaims (F := F))
    : ST Location :=
  match edge_config configs src claims with
  | None => st_lift (Panic "nil pointer dereference")
  | Some cfg => st_wrap "failed to resolve location" (Get cfg src claims)
  end.

End location.
