(* ===== verification/ServiceLocationSpec.v ===== *)
(** * Properties of the resolver

    The hash distributions, what a resolved location can be, retries that
    exclude a pod, roles, and the absence of panics. *)

From Stdlib Require SpecFloat.
From S2P Require Import Prelude GoStrings GoUrl GoNet GoFloat GoHttp Claims LazyMap K8s.
From S2P Require Import ServicesConfig UrlParser ServiceLocation.

(** ** The number behind a hash *)

Lemma hash_byte_digit c : hash_byte c = true → ∃ d, digit_val c = Some d ∧ (0 ≤ d < 16)%Z.
Proof.
  unfold hash_byte, digit_val, in_range.
  destruct ((48 <=? byte c)%N && (byte c <=? 57)%N) eqn:E1; simpl.
  - intros _. eexists. split; [done|]. apply andb_true_iff in E1 as [?%N.leb_le ?%N.leb_le]. lia.
  - intros [?%N.leb_le ?%N.leb_le]%andb_true_iff.
    rewrite (proj2 (N.leb_le 97 (byte c))), (proj2 (N.leb_le (byte c) 122)) by lia. simpl.
    eexists. split; [done|]. lia.
Qed.

Lemma hash_digits acc s :
  all_bytes hash_byte s = true → ∃ v, digits_onto 16 acc s = Some v.
Proof.
  revert acc. induction s as [|c s IH]; intros acc Hs; simpl in *; [by eexists|].
  apply andb_true_iff in Hs as [(d & -> & Hd)%hash_byte_digit Hs].
  rewrite (proj2 (Z.ltb_lt d 16)) by lia. by apply IH.
Qed.

Lemma digits_onto_cons base acc c s d :
  digit_val c = Some d → (d < base)%Z →
  digits_onto base acc (String c s) = digits_onto base (acc * base + d) s.
Proof. intros Hd Hb. simpl. by rewrite Hd, (proj2 (Z.ltb_lt d base)). Qed.

Lemma all_bytes_take f n s : all_bytes f s = true → all_bytes f (str_take n s) = true.
Proof.
  revert s. induction n as [|n IH]; intros [|c s]; simpl; try done.
  rewrite !andb_true_iff. intros [??]. auto.
Qed.

Lemma digit_15 c : hash_byte c = true → digit_val c = Some 15%Z → c = "f"%char.
Proof.
  unfold hash_byte, digit_val, in_range. intros Hc.
  destruct ((48 <=? byte c)%N && (byte c <=? 57)%N) eqn:E1.
  - apply andb_true_iff in E1 as [?%N.leb_le ?%N.leb_le]. intros [=]. lia.
  - simpl in Hc. apply andb_true_iff in Hc as [?%N.leb_le ?%N.leb_le].
    rewrite (proj2 (N.leb_le 97 (byte c))), (proj2 (N.leb_le (byte c) 122)) by lia. simpl.
    intros [= Hd]. assert (byte c = 102%N) as Hb by lia. unfold byte in Hb.
    by rewrite <-(ascii_N_embedding c), Hb.
Qed.

(** The value of five hash digits is 20 bits wide, and all ones only for
    [fffff]. *)
Lemma hash_num_spec h :
  sha1R h = true →
  ∃ v, hash_num h = Ok (v * 1000)%Z ∧ (0 ≤ v ≤ 1048575)%Z ∧
       (v = 1048575%Z ↔ str_take 5 h = "fffff").
Proof.
  unfold sha1R. rewrite !andb_true_iff, !Nat.leb_le. intros [[Ha Hl] _].
  unfold hash_num. rewrite (proj2 (Nat.ltb_ge (slen h) 5)) by done.
  apply (all_bytes_take _ 5) in Ha.
  assert (slen (str_take 5 h) = 5) as Ht by (rewrite slen_take; lia).
  destruct (str_take 5 h) as [|c1 [|c2 [|c3 [|c4 [|c5 [|? ?]]]]]]; try done. clear Ht Hl.
  destruct (hash_digits 0 _ Ha) as [v Hv].
  assert (parse_int 16 (String c1 (String c2 (String c3 (String c4 (String c5 ""))))) = Some v ∧
          (0 ≤ v ≤ 1048575)%Z) as [Hp Hr].
  { assert (0 ≤ v ≤ 1048575)%Z as Hr by (apply digits_onto_range in Hv; simpl in Hv; lia).
    split; [|done]. simpl in Ha. apply andb_true_iff in Ha as [Hc _].
    rewrite parse_int_unsigned; [|by intros ->|by intros ->].
    rewrite Hv. simpl. by rewrite option_guard_True by lia. }
  rewrite Hp. exists v. split; [f_equal; apply wrap_s_small; [lia|split; lia]|]. split; [done|].
  cbn [all_bytes] in Ha. rewrite !andb_true_iff in Ha. destruct Ha as (H1 & H2 & H3 & H4 & H5 & _).
  destruct (hash_byte_digit _ H1) as (d1 & E1 & ?), (hash_byte_digit _ H2) as (d2 & E2 & ?),
    (hash_byte_digit _ H3) as (d3 & E3 & ?), (hash_byte_digit _ H4) as (d4 & E4 & ?),
    (hash_byte_digit _ H5) as (d5 & E5 & ?).
  rewrite (digits_onto_cons _ _ _ _ d1), (digits_onto_cons _ _ _ _ d2), (digits_onto_cons _ _ _ _ d3),
    (digits_onto_cons _ _ _ _ d4), (digits_onto_cons _ _ _ _ d5) in Hv by (done || lia).
  injection Hv as Hv.
  split.
  - intros ->. assert (d1 = 15 ∧ d2 = 15 ∧ d3 = 15 ∧ d4 = 15 ∧ d5 = 15)%Z as (-> & -> & -> & -> & ->) by lia.
    by rewrite (digit_15 _ H1 E1), (digit_15 _ H2 E2), (digit_15 _ H3 E3), (digit_15 _ H4 E4),
      (digit_15 _ H5 E5).
  - intros [= -> -> -> -> ->]. vm_compute in E1, E2, E3, E4, E5. simplify_eq. lia.
Qed.

(** ** Slots *)

Lemma find_slot_lookup num base interval j as_ :
  (0 < interval)%Z → (0 ≤ j)%Z → (base + j * interval ≤ num)%Z →
  find_slot num base interval j as_ = as_ !! Z.to_nat ((num - base) / interval - j).
Proof.
  intros Hi. revert j. induction as_ as [|a as_ IH]; intros j Hj Hn; simpl; [done|].
  assert (j ≤ (num - base) / interval)%Z as Hq by (apply Z.div_le_lower_bound; lia).
  destruct (Z.ltb_spec num (base + (j + 1) * interval)).
  - assert ((num - base) / interval < j + 1)%Z by (apply Z.div_lt_upper_bound; lia).
    by replace ((num - base) / interval - j)%Z with 0%Z by lia.
  - rewrite IH by lia.
    assert (j + 1 ≤ (num - base) / interval)%Z by (apply Z.div_le_lower_bound; lia).
    replace (Z.to_nat ((num - base) / interval - j))
      with (S (Z.to_nat ((num - base) / interval - (j + 1)))) by lia. done.
Qed.

Lemma find_slot_elem num base interval j as_ a :
  find_slot num base interval j as_ = Some a → a ∈ as_.
Proof.
  revert j. induction as_ as [|b as_ IH]; intros j; simpl; [done|].
  case_match; [intros [= ->]; set_solver|]. intros ?%IH. set_solver.
Qed.

Lemma merge_sort_elem {A} (R : A → A → Prop) `{∀ x y, Decision (R x y)} l x :
  x ∈ merge_sort R l ↔ x ∈ l.
Proof. apply Permutation_elem_of, merge_sort_Permutation. Qed.

Lemma merge_sort_nil {A} (R : A → A → Prop) `{∀ x y, Decision (R x y)} l :
  merge_sort R l = [] ↔ l = [].
Proof.
  split; intros E.
  - pose proof (merge_sort_Permutation R l) as Hp. rewrite E in Hp. by apply Permutation_nil_l in Hp.
  - by rewrite E.
Qed.

Lemma distributeByHash_elem src as_ a :
  distributeByHash src as_ = Ok (Some a) → a ∈ as_.
Proof.
  unfold distributeByHash. intros (n & _ & Hn)%bind_ok. case_decide; [done|]. simplify_eq.
  apply find_slot_elem in Hn. by apply merge_sort_elem in Hn.
Qed.

(** C8: the hash distribution.  For a torrent hash and up to a thousand
    addresses, the pod is the one whose slot of the hash space contains the
    hash: entry [num / interval] of the addresses sorted by IP.  The one hash
    prefix that falls behind the last slot is [fffff]: for those torrents no
    pod is chosen at all, whatever the cluster looks like. *)
Theorem distributeByHash_spec src as_ :
  sha1R (InfoHash src) = true → as_ ≠ [] → (Z.of_nat (length as_) ≤ 1000)%Z →
  ∃ num, hash_num (InfoHash src) = Ok num ∧
    let interval := (total_space / Z.of_nat (length as_))%Z in
    distributeByHash src as_ = Ok (merge_sort ip_le as_ !! Z.to_nat (num / interval)) ∧
    (distributeByHash src as_ = Ok None ↔ str_take 5 (InfoHash src) = "fffff").
Proof.
  intros Hs Hne Hlen. destruct (hash_num_spec _ Hs) as (v & Hn & Hv & Hf).
  exists (v * 1000)%Z. split; [done|]. set (n := Z.of_nat (length as_)) in *. intros interval.
  assert (0 < n)%Z as Hpos by (destruct as_; [done|unfold n; simpl; lia]).
  assert (n * interval ≤ total_space < n * interval + n)%Z as Hint.
  { unfold interval. pose proof (Z.div_mod total_space n ltac:(lia)).
    pose proof (Z.mod_pos_bound total_space n Hpos). lia. }
  assert (0 < interval)%Z as Hip by (unfold total_space in *; nia).
  assert (distributeByHash src as_ = Ok (merge_sort ip_le as_ !! Z.to_nat (v * 1000 / interval)))
    as Hd.
  { unfold distributeByHash. rewrite Hn. simpl. rewrite decide_False by (by rewrite merge_sort_nil).
    rewrite (Permutation_length (merge_sort_Permutation ip_le as_)). fold n. fold interval.
    rewrite find_slot_lookup by lia. by rewrite !Z.sub_0_r. }
  split; [done|]. rewrite Hd, <-Hf.
  assert (Z.of_nat (length (merge_sort ip_le as_)) = n) as Hl
    by (by rewrite (Permutation_length (merge_sort_Permutation ip_le as_))).
  pose proof (Z.div_pos (v * 1000) interval ltac:(lia) Hip) as Hq.
  split.
  - intros [= E]. apply lookup_ge_None_1 in E. unfold total_space in *.
    destruct (decide (v = 1048575)%Z); [done|].
    assert (v * 1000 / interval < n)%Z by (apply Z.div_lt_upper_bound; lia). lia.
  - intros ->. f_equal. apply lookup_ge_None_2.
    assert (n ≤ 1048575 * 1000 / interval)%Z by (apply Z.div_le_lower_bound; unfold total_space in *; lia).
    lia.
Qed.

#[export] Instance ip_le_trans : Transitive ip_le.
Proof. intros a b c. unfold ip_le. apply transitivity. Qed.
#[export] Instance ip_le_total : Total ip_le.
Proof. intros a b. apply (total str_le). Qed.

(** The distribution is a function of the set of pods: the order in which
    the API lists the addresses does not matter. *)
Theorem distributeByHash_stable src as1 as2 :
  as1 ≡ₚ as2 → NoDup (a_IP <$> as1) → distributeByHash src as1 = distributeByHash src as2.
Proof.
  intros Hp Hnd. assert (merge_sort ip_le as1 = merge_sort ip_le as2) as E;
    [|unfold distributeByHash; by rewrite E].
  apply (StronglySorted_unique_strong ip_le).
  - intros a b Ha Hb H1 H2. rewrite merge_sort_elem in Ha, Hb. rewrite <-Hp in Hb.
    assert (a_IP a = a_IP b) as E by (by apply (anti_symm str_le)).
    apply list_elem_of_lookup in Ha as [i Hi]. apply list_elem_of_lookup in Hb as [j Hj].
    assert (i = j) as ->; [|congruence].
    eapply NoDup_lookup; [done|by rewrite list_lookup_fmap, Hi|by rewrite list_lookup_fmap, Hj, E].
  - apply StronglySorted_merge_sort; apply _.
  - apply StronglySorted_merge_sort; apply _.
  - by rewrite !merge_sort_Permutation.
Qed.

(** ** The node distribution *)

Lemma node_loop_some num ni as_ i nodes a :
  node_loop num ni as_ i nodes = Ok (Some a) →
  a ∈ as_ ∧ ∃ n, n ∈ nodes ∧ a_NodeName a = Some n.
Proof.
  revert i. induction nodes as [|n nodes IH]; intros i; simpl; [done|].
  case_decide; [done|]. destruct (find_slot _ _ _ _ _) as [b|] eqn:E.
  - intros [= <-]. apply find_slot_elem, list_elem_of_filter in E as [E1 E2].
    split; [done|]. exists n. split; [set_solver|done].
  - intros (H1 & m & H2 & H3)%IH. split; [done|]. exists m. split; [set_solver|done].
Qed.

Lemma node_loop_no_panic num ni as_ i nodes :
  (∀ n, n ∈ nodes → ∃ a, a ∈ as_ ∧ a_NodeName a = Some n) →
  ∃ r, node_loop num ni as_ i nodes = Ok r.
Proof.
  revert i. induction nodes as [|n nodes IH]; intros i Hn; simpl; [by eexists|].
  rewrite decide_False.
  2:{ destruct (Hn n ltac:(set_solver)) as (a & Ha & Hna). intros E.
      assert (a ∈ filter (on_node n) as_) as Hin by (by apply list_elem_of_filter).
      rewrite E in Hin. set_solver. }
  case_match; [by eexists|]. apply IH. intros m Hm. apply Hn. set_solver.
Qed.

Lemma node_names_elem as_ ns n :
  node_names as_ = Ok ns → n ∈ ns → ∃ a, a ∈ as_ ∧ a_NodeName a = Some n.
Proof.
  unfold node_names. destruct (mapM a_NodeName as_) as [k|] eqn:E; [|done]. intros [= ->] Hn.
  apply mapM_Some in E. apply list_elem_of_lookup in Hn as [i Hi].
  destruct (Forall2_lookup_r _ _ _ _ _ E Hi) as (a & Ha & Hna).
  exists a. split; [by eapply list_elem_of_lookup_2|done].
Qed.

Lemma node_names_ok as_ :
  Forall (λ a, is_Some (a_NodeName a)) as_ → ∃ ns, node_names as_ = Ok ns.
Proof.
  intros Hf. unfold node_names. apply mapM_is_Some in Hf as [k ->]. by eexists.
Qed.

Section spec.
Context {F : Type} `{GoFloat F} `{GoUnicode}.
Context {M : Type → Type} `{LazyMap M}.
Context (e : slEnv).

Abbreviation slState := (slState (M := M)).
Abbreviation MapClaims := (MapClaims (F := F)).

(** ** Steps over the caches *)

Lemma st_bind_ok {A B} (m : slState → outcome A * slState) (f : A → slState → outcome B * slState) s b s' :
  st_bind m f s = (Ok b, s') ↔ ∃ a s1, m s = (Ok a, s1) ∧ f a s1 = (Ok b, s').
Proof. unfold st_bind. destruct (m s) as [[a| |] s1]; naive_solver. Qed.
Lemma st_wrap_ok {A} msg (m : slState → outcome A * slState) s a s' :
  st_wrap msg m s = (Ok a, s') ↔ m s = (Ok a, s').
Proof. unfold st_wrap. destruct (m s) as [[x| |] s1]; naive_solver. Qed.

(** Nothing but [Ignore] changes the ignored addresses. *)
Lemma Nodes_Get_ignored s : sl_ignored (Nodes_Get e s).2 = sl_ignored s.
Proof. unfold Nodes_Get, lm_get, st_lift. repeat case_match; by simplify_eq. Qed.
Lemma Endpoints_Get_ignored n s : sl_ignored (Endpoints_Get e n s).2 = sl_ignored s.
Proof. unfold Endpoints_Get, lm_get, st_lift. repeat case_match; by simplify_eq. Qed.
Lemma ProbeChecker_Get_ignored l s : sl_ignored (ProbeChecker_Get e l s).2 = sl_ignored s.
Proof. unfold ProbeChecker_Get, lm_get, st_lift. repeat case_match; by simplify_eq. Qed.

(** Nothing but the probe checker changes the probes. *)
Definition keeps_probed {A} (m : slState → outcome A * slState) : Prop :=
  ∀ s, sl_probed (m s).2 = sl_probed s.

Lemma keeps_lift {A} (r : outcome A) : keeps_probed (st_lift r).
Proof. done. Qed.
Lemma keeps_wrap {A} msg (m : slState → outcome A * slState) : keeps_probed m → keeps_probed (st_wrap msg m).
Proof. intros Hm s. specialize (Hm s). unfold st_wrap. by destruct (m s). Qed.
Lemma keeps_bind {A B} (m : slState → outcome A * slState) (f : A → slState → outcome B * slState) :
  keeps_probed m → (∀ a, keeps_probed (f a)) → keeps_probed (st_bind m f).
Proof.
  intros Hm Hf s. specialize (Hm s). unfold st_bind. destruct (m s) as [[a| |] s1]; [|done..].
  by rewrite Hf.
Qed.
Lemma Nodes_Get_probed : keeps_probed (Nodes_Get e).
Proof. intros s. unfold Nodes_Get, lm_get, st_lift. repeat case_match; by simplify_eq. Qed.
Lemma Endpoints_Get_probed n : keeps_probed (Endpoints_Get e n).
Proof. intros s. unfold Endpoints_Get, lm_get, st_lift. repeat case_match; by simplify_eq. Qed.
Lemma Ignore_probed ip : keeps_probed (Ignore e ip).
Proof. intros s. unfold Ignore, lm_get, st_lift. repeat case_match; by simplify_eq. Qed.

Create HintDb keeps.
#[local] Hint Resolve keeps_lift keeps_wrap keeps_bind Nodes_Get_probed Endpoints_Get_probed : keeps.

Lemma filterNodesByRole_probed nodes (claims : MapClaims) : keeps_probed (filterNodesByRole e nodes claims).
Proof. unfold filterNodesByRole. repeat case_match; auto 6 with keeps. Qed.
Lemma choose_probed cfg src (claims : MapClaims) as_ : keeps_probed (choose e cfg src claims as_).
Proof.
  unfold choose. repeat case_match; auto with keeps. unfold distributeByNodeHash.
  repeat (apply keeps_bind; [|intros ?]); [auto with keeps|apply keeps_wrap, filterNodesByRole_probed|auto with keeps|].
  case_match; auto with keeps.
Qed.
Lemma getKubernetes_probed cfg src (claims : MapClaims) : keeps_probed (getKubernetes e cfg src claims).
Proof.
  unfold getKubernetes. apply keeps_bind; [auto with keeps|]. intros eps.
  case_match; [auto with keeps|]. apply keeps_bind; [done|]. intros as_. case_match; [auto with keeps|].
  apply keeps_bind; [apply keeps_wrap, choose_probed|]. intros a. apply keeps_bind; auto with keeps.
Qed.

(** The node list does not depend on the other caches. *)
Lemma Nodes_Get_eq s s' : sl_nodes s' = sl_nodes s → (Nodes_Get e s').1 = (Nodes_Get e s).1.
Proof. unfold Nodes_Get, lm_get, st_lift. intros ->. by repeat case_match; simplify_eq. Qed.
Lemma Endpoints_Get_nodes n s : sl_nodes (Endpoints_Get e n s).2 = sl_nodes s.
Proof. unfold Endpoints_Get, lm_get, st_lift. repeat case_match; by simplify_eq. Qed.

(** When no list is cached, its elements are the ready nodes of the cluster. *)
Lemma Nodes_Get_fresh s ns nss :
  (Nodes_Get e s).1 = Ok ns → nss ∈ ns → lm_peek (now e) (sl_nodes s) "" = None →
  ∃ nodes n, api_nodes e = Ok nodes ∧ n ∈ nodes ∧ ready n = true ∧ nss = node_stat (labelPrefix e) n.
Proof.
  unfold Nodes_Get, lm_get, st_lift. intros Hn Hin Hp. rewrite Hp in Hn.
  assert (with_client e (nodes_of (labelPrefix e) (api_nodes e)) = Ok ns) as Hw
    by (destruct (with_client _ _); simpl in Hn; congruence).
  unfold with_client in Hw. apply bind_ok in Hw as (_ & _ & Hw).
  apply bind_ok in Hw as (nodes & Ha & Hw). apply wrap_err_ok in Ha. injection Hw as <-.
  rewrite merge_sort_elem in Hin. apply list_elem_of_fmap in Hin as (n & -> & [? ?]%list_elem_of_filter).
  by exists nodes, n.
Qed.

Lemma IsIgnored_eq s s' ip : sl_ignored s' = sl_ignored s → IsIgnored e s' ip = IsIgnored e s ip.
Proof. unfold IsIgnored. by intros ->. Qed.

(** After [Ignore] the address is ignored. *)
Lemma Ignore_spec ip s : IsIgnored e (Ignore e ip s).2 ip = true.
Proof.
  unfold Ignore, lm_get, IsIgnored, lm_known, st_lift.
  destruct (lm_peek (now e) (sl_ignored s) ip) as [v|] eqn:E; simpl.
  - rewrite E. by apply bool_decide_eq_true_2.
  - rewrite lm_peek_store. by apply bool_decide_eq_true_2.
Qed.

Lemma filterNodesByRole_ok nodes (claims : MapClaims) s r s' :
  filterNodesByRole e nodes claims s = (Ok r, s') →
  sl_ignored s' = sl_ignored s ∧ (∀ n, n ∈ r → n ∈ nodes) ∧
  (∀ role m, claims = Some m → claim_string claims "role" = Some role → role ≠ "" →
     ∃ ns s1, Nodes_Get e s = (Ok ns, s1) ∧
       ∀ n, n ∈ r → ∃ nss, nss ∈ ns ∧ ns_Name nss = n ∧ IsAllowed nss role = true).
Proof.
  unfold filterNodesByRole.
  destruct claims as [m|]; [|intros [= <- <-]; by split_and!].
  destruct (claim_string (Some m) "role") as [role|] eqn:Er;
    [|intros [= <- <-]; split_and!; [done|done|congruence]].
  case_decide; [intros [= <- <-]; split_and!; [done|done|congruence]|].
  intros (ns & s1 & Hn & Hr)%st_bind_ok. rewrite st_wrap_ok in Hn.
  unfold st_lift in Hr. injection Hr as <- <-.
  pose proof (Nodes_Get_ignored s) as Hi. rewrite Hn in Hi. split; [done|].
  assert (∀ n, n ∈ (nodes ≫= λ n, ns_Name <$> filter (λ nss, n = ns_Name nss ∧ IsAllowed nss role = true) ns) →
    n ∈ nodes ∧ ∃ nss, nss ∈ ns ∧ ns_Name nss = n ∧ IsAllowed nss role = true) as Hgo.
  { intros n (n' & Hx & Hn')%list_elem_of_bind.
    apply list_elem_of_fmap in Hx as (nss & -> & [[-> Ha] Hin]%list_elem_of_filter). eauto. }
  split; [by intros n [? _]%Hgo|]. intros role' m' _ [= <-] _.
  exists ns, s1. split; [done|]. by intros n [_ ?]%Hgo.
Qed.

Lemma distributeByNodeHash_ok src as_ (claims : MapClaims) s r s' :
  distributeByNodeHash e src as_ claims s = (Ok r, s') →
  sl_ignored s' = sl_ignored s ∧
  ∀ a, r = Some a → a ∈ as_ ∧
    (∀ role m, claims = Some m → claim_string claims "role" = Some role → role ≠ "" →
     ∃ ns s1 nss n, Nodes_Get e s = (Ok ns, s1) ∧ a_NodeName a = Some n ∧ nss ∈ ns ∧
       ns_Name nss = n ∧ IsAllowed nss role = true).
Proof.
  unfold distributeByNodeHash. intros (names & s1 & Hns & Hr)%st_bind_ok.
  unfold st_lift in Hns. injection Hns as Hns <-.
  apply st_bind_ok in Hr as (nodes & s2 & Hf & Hr). rewrite st_wrap_ok in Hf.
  apply filterNodesByRole_ok in Hf as (Hi & Hsub & Hrole).
  apply st_bind_ok in Hr as (num & s3 & Hnum & Hr).
  unfold st_lift in Hnum, Hr. injection Hnum as Hnum <-.
  case_decide; injection Hr as Hr <-; [split; [done|]; intros a ->; discriminate Hr|].
  split; [done|]. intros a ->. apply node_loop_some in Hr as (Ha & n & Hn & Hna).
  rewrite merge_sort_elem in Ha. split; [done|]. intros role m Hm Hc Hne.
  destruct (Hrole role m Hm Hc Hne) as (ns & s4 & Hget & Hall).
  destruct (Hall n Hn) as (nss & ? & ? & ?). by exists ns, s4, nss, n.
Qed.

Lemma prefer_local_ok cfg src as_ a r :
  prefer_local e cfg src as_ a = Ok r → (∀ x, a = Some x → x ∈ as_) →
  (∀ x, r = Some x → x ∈ as_) ∧ ((PreferLocalNode cfg = false ∨ nn e = "") → r = a).
Proof.
  intros Hp Ha. unfold prefer_local in Hp. destruct a as [addr|]; [|by simplify_eq].
  case_decide; [simplify_eq; naive_solver|].
  destruct (a_NodeName addr) as [node|]; [|done].
  destruct (bool_decide _ && PreferLocalNode cfg) eqn:E; [|simplify_eq; naive_solver].
  apply bind_ok in Hp as (ns & _ & Hp). apply andb_true_iff in E as [_ E].
  case_decide; [simplify_eq; naive_solver|]. apply wrap_err_ok in Hp.
  split; [|intros [?|?]; congruence]. intros x ->.
  apply distributeByHash_elem, list_elem_of_filter in Hp. tauto.
Qed.

Lemma choose_ok cfg src (claims : MapClaims) as_ s r s' :
  choose e cfg src claims as_ s = (Ok r, s') →
  sl_ignored s' = sl_ignored s ∧ (∀ a, r = Some a → a ∈ as_).
Proof.
  unfold choose. destruct (negb _).
  { unfold st_lift. intros [= <- <-]. split; [done|]. intros a Ha.
    unfold pick_random in Ha. by eapply list_elem_of_lookup_2. }
  case_decide.
  { unfold st_lift. intros [= Hd <-]. split; [done|]. intros a ->.
    by eapply distributeByHash_elem. }
  case_decide.
  { intros (Hi & Hr)%distributeByNodeHash_ok. split; [done|]. intros a Ha.
    by destruct (Hr a Ha). }
  unfold st_lift. intros [= <- <-]. by split.
Qed.

(** Where a location comes from. *)
Record resolved (cfg : ServiceConfig) (src : Source) (claims : MapClaims) (s : slState)
    (l : Location) (a : EndpointAddress) : Prop := mkResolved {
  rv_listed : ∃ eps s1 sub subs, Endpoints_Get e (cfg_Name cfg) s = (Ok eps, s1) ∧
    Subsets eps = sub :: subs ∧ a ∈ Addresses sub ∧ l = addressToLocation (Some a) sub;
  rv_ip : loc_IP l = ParseIP (a_IP a);
  rv_not_ignored : IsIgnored e s (IP_String (ParseIP (a_IP a))) = false
}.

Lemma getKubernetes_ok cfg src (claims : MapClaims) s l s' :
  getKubernetes e cfg src claims s = (Ok l, s') →
  sl_ignored s' = sl_ignored s ∧
  (Unavailable l = false → ∃ a, resolved cfg src claims s l a).
Proof.
  unfold getKubernetes. intros (eps & s1 & He & Hr)%st_bind_ok. rewrite st_wrap_ok in He.
  pose proof (Endpoints_Get_ignored (cfg_Name cfg) s) as Hi. rewrite He in Hi. simpl in Hi.
  destruct (Subsets eps) as [|sub subs] eqn:Es; [done|].
  apply st_bind_ok in Hr as (as_ & s2 & Hf & Hr).
  unfold filterAddressesByIgnore in Hf. injection Hf as Hf <-.
  case_decide; [unfold st_lift in Hr; injection Hr as <- <-; by split|].
  apply st_bind_ok in Hr as (a1 & s3 & Hc & Hr). rewrite st_wrap_ok in Hc.
  apply choose_ok in Hc as [Hi2 Hin].
  apply st_bind_ok in Hr as (a2 & s4 & Hp & Hr). unfold st_lift in Hp, Hr.
  injection Hp as Hp <-. injection Hr as <- <-.
  apply prefer_local_ok in Hp as [Hin2 _]; [|done].
  split; [congruence|]. intros Hu. destruct a2 as [a|]; [|done]. exists a.
  specialize (Hin2 a eq_refl). rewrite <-Hf in Hin2. apply list_elem_of_filter in Hin2 as [Hg Hin2].
  split; [by exists eps, s1, sub, subs|done|]. by rewrite <-(IsIgnored_eq s s1).
Qed.

Lemma Ignore_ok ip s b s' : Ignore e ip s = (Ok b, s') → IsIgnored e s' ip = true.
Proof. intros E. pose proof (Ignore_spec ip s) as Hs. by rewrite E in Hs. Qed.

(** C16: a retry goes elsewhere.  A fallback that Kubernetes resolution returns
    is an available pod that the service lists and it is never the pod whose
    connection just failed, in whatever textual form the addresses are
    given. *)
Theorem GetFallback_excludes cfg src excludeIP (claims : MapClaims) s l s' :
  EndpointsProvider cfg ≠ Environment →
  GetFallback e cfg src excludeIP claims s = (Ok l, s') →
  Unavailable l = false ∧ IP_String (loc_IP l) ≠ IP_String excludeIP ∧
  ∃ a s1, resolved cfg src claims s1 l a.
Proof.
  intros Hc. unfold GetFallback. rewrite decide_False by done.
  intros (b & s1 & Hi & Hr)%st_bind_ok. apply Ignore_ok in Hi.
  apply st_bind_ok in Hr as (l' & s2 & Hk & Hr). rewrite st_wrap_ok in Hk.
  apply getKubernetes_ok in Hk as [_ Hk].
  destruct (Unavailable l') eqn:Eu; unfold st_lift in Hr; simplify_eq.
  destruct (Hk eq_refl) as [a Ha]. split; [done|]. split; [|by exists a, s1].
  rewrite (rv_ip _ _ _ _ _ _ Ha). intros E. pose proof (rv_not_ignored _ _ _ _ _ _ Ha) as Hn.
  rewrite E in Hn. congruence.
Qed.

Lemma ProbeChecker_Get_ok l s b s' :
  ProbeChecker_Get e l s = (Ok b, s') →
  lm_peek (now e) (sl_probed s') (IP_String (loc_IP l)) = Some (Ok b).
Proof.
  unfold ProbeChecker_Get, lm_get, st_lift.
  destruct (lm_peek (now e) (sl_probed s) _) as [v|] eqn:E; [by intros [= -> <-]|].
  destruct (do_probe e l); intros [= <- <-]. simpl. apply lm_peek_store.
Qed.

(** A failed probe is on record for this location, or was before. *)
Lemma ProbeChecker_Get_err l s ip x :
  lm_peek (now e) (sl_probed (ProbeChecker_Get e l s).2) ip = Some (Err x) →
  lm_peek (now e) (sl_probed s) ip = Some (Err x) ∨
  ip = IP_String (loc_IP l) ∧ (ProbeChecker_Get e l s).1 = Err x.
Proof.
  unfold ProbeChecker_Get, lm_get, st_lift.
  destruct (lm_peek (now e) (sl_probed s) (IP_String (loc_IP l))) as [v|] eqn:E; [by left|].
  destruct (do_probe e l) as [b|y|w]; simpl; [| |by left];
    (intros [[-> Hx]|?]%lm_store_honest; [|by left]); simplify_eq. by right.
Qed.

(** What is ignored stays ignored during a call. *)
Lemma Ignore_keeps `{!KeepsEntries M} ip ip' s :
  IsIgnored e s ip = true → IsIgnored e (Ignore e ip' s).2 ip = true.
Proof.
  destruct (decide (ip' = ip)) as [->|Hne]; [intros _; apply Ignore_spec|].
  unfold Ignore, lm_get, IsIgnored, lm_known, st_lift.
  destruct (lm_peek (now e) (sl_ignored s) ip') as [v|] eqn:E; [done|]. simpl.
  rewrite !bool_decide_eq_true. intros [v Hv]. exists v. by apply lm_peek_kept.
Qed.

Lemma probe_loop_ok `{!KeepsEntries M} tries cfg src (claims : MapClaims) l s' : ∀ s,
  probe_loop e tries cfg src claims s = (Ok l, s') →
  (∀ ip, IsIgnored e s ip = true → IsIgnored e s' ip = true) ∧
  (∀ ip x, lm_peek (now e) (sl_probed s') ip = Some (Err x) →
     lm_peek (now e) (sl_probed s) ip = Some (Err x) ∨ IsIgnored e s' ip = true) ∧
  (Unavailable l = false →
   (∃ b, lm_peek (now e) (sl_probed s') (IP_String (loc_IP l)) = Some (Ok b)) ∧
   IsIgnored e s' (IP_String (loc_IP l)) = false ∧ ∃ a s1, resolved cfg src claims s1 l a).
Proof.
  induction tries as [|tries IH]; intros s Hr; simpl in Hr.
  { unfold st_lift in Hr. injection Hr as <- <-. split; [done|]. split; [by left|done]. }
  apply st_bind_ok in Hr as (l1 & s1 & Hk & Hr).
  pose proof (getKubernetes_probed cfg src claims s) as Hp1. rewrite Hk in Hp1. simpl in Hp1.
  apply getKubernetes_ok in Hk as [Hi1 Hk].
  destruct (Unavailable l1) eqn:Eu.
  { unfold st_lift in Hr. injection Hr as <- <-. rewrite Hp1. split; [|split; [by left|congruence]].
    intros ip. by rewrite (IsIgnored_eq s s1). }
  pose proof (ProbeChecker_Get_ignored l1 s1) as Hi2. pose proof (ProbeChecker_Get_err l1 s1) as He.
  destruct (ProbeChecker_Get e l1 s1) as [[b|x|w] s2] eqn:Ep; simpl in Hi2, He; [| |done].
  - injection Hr as <- <-. split; [intros ip; by rewrite (IsIgnored_eq s s2) by congruence|]. split.
    + intros ip y [?|[_ ?]]%He; [left; congruence|done].
    + intros _. destruct (Hk eq_refl) as [a Ha]. split; [exists b; by apply ProbeChecker_Get_ok in Ep|].
      split; [|by exists a, s]. rewrite (IsIgnored_eq s s2) by congruence.
      rewrite (rv_ip _ _ _ _ _ _ Ha). apply Ha.
  - pose proof (Ignore_spec (IP_String (loc_IP l1)) s2) as Hig.
    pose proof (λ ip, Ignore_keeps ip (IP_String (loc_IP l1)) s2) as Hkeep.
    pose proof (Ignore_probed (IP_String (loc_IP l1)) s2) as Hp3.
    destruct (Ignore e (IP_String (loc_IP l1)) s2) as [? s3]. simpl in Hig, Hkeep, Hp3.
    destruct (IH s3 Hr) as (Hm & Hb & Hc). split; [|split; [|done]].
    + intros ip Hs. apply Hm, Hkeep. by rewrite (IsIgnored_eq s s2) by congruence.
    + intros ip y [Hy|?]%Hb; [|by right]. rewrite Hp3 in Hy. apply He in Hy as [?|[-> _]].
      * left. congruence.
      * right. by apply Hm.
Qed.

(** C23: probes.  A location that the probing resolver hands out has a passed
    probe on record (from this call or cached), is not on the ignore list, and
    is an address of the service.  A pod that fails its probe is ignored from
    then on: the pod the resolver would have chosen, whose probe fails (now or
    on record), is on the ignore list when the call returns; so is every pod
    with a failed probe on record that had none before the call; and what was
    ignored stays ignored. *)
Theorem probed_location `{!KeepsEntries M} cfg src (claims : MapClaims) s l s' :
  getKubernetesWithProbeCheck e cfg src claims s = (Ok l, s') →
  (Unavailable l = false →
   (∃ b, lm_peek (now e) (sl_probed s') (IP_String (loc_IP l)) = Some (Ok b)) ∧
   IsIgnored e s' (IP_String (loc_IP l)) = false ∧ ∃ a s1, resolved cfg src claims s1 l a) ∧
  (∀ l0 s0, getKubernetes e cfg src claims s = (Ok l0, s0) → Unavailable l0 = false →
     is_ok (ProbeChecker_Get e l0 s0).1 = false → IsIgnored e s' (IP_String (loc_IP l0)) = true) ∧
  (∀ ip x, lm_peek (now e) (sl_probed s') ip = Some (Err x) →
     lm_peek (now e) (sl_probed s) ip = Some (Err x) ∨ IsIgnored e s' ip = true) ∧
  (∀ ip, IsIgnored e s ip = true → IsIgnored e s' ip = true).
Proof.
  unfold getKubernetesWithProbeCheck. intros Hr. pose proof Hr as Hall.
  apply probe_loop_ok in Hall as (Hm & Hb & Hc). split; [done|]. split; [|by split].
  intros l0 s0 Hk Hu Hf. cbn [probe_loop] in Hr. unfold st_bind at 1 in Hr. rewrite Hk, Hu in Hr.
  destruct (ProbeChecker_Get e l0 s0) as [[b|x|w] s2]; [done| |done].
  pose proof (Ignore_spec (IP_String (loc_IP l0)) s2) as Hig.
  destruct (Ignore e (IP_String (loc_IP l0)) s2) as [? s3]. simpl in Hig.
  exact (proj1 (probe_loop_ok 2 cfg src claims l s' s3 Hr) _ Hig).
Qed.

(** C24: roles.  Under the node distribution, without a preference for the local
    node, a request that carries a role is only ever sent to a pod on a node of
    the current node list whose labels admit the role.  The list is the cached
    one, or, when none is cached, the ready nodes of the cluster. *)
Theorem role_respected cfg src (claims : MapClaims) role s l s' :
  sha1R (InfoHash src) = true → Distribution cfg = NodeHash →
  (PreferLocalNode cfg = false ∨ nn e = "") →
  claim_string claims "role" = Some role → role ≠ "" →
  getKubernetes e cfg src claims s = (Ok l, s') → Unavailable l = false →
  ∃ a node nss ns, a_NodeName a = Some node ∧ loc_IP l = ParseIP (a_IP a) ∧
    (Nodes_Get e s).1 = Ok ns ∧ nss ∈ ns ∧ ns_Name nss = node ∧ IsAllowed nss role = true ∧
    (lm_peek (now e) (sl_nodes s) "" = None →
     ∃ nodes n, api_nodes e = Ok nodes ∧ n ∈ nodes ∧ ready n = true ∧ nss = node_stat (labelPrefix e) n).
Proof.
  intros Hs Hd Hloc Hrole Hne. unfold getKubernetes.
  intros (eps & s1 & He & Hr)%st_bind_ok Hu. rewrite st_wrap_ok in He.
  pose proof (Endpoints_Get_nodes (cfg_Name cfg) s) as Hns. rewrite He in Hns. simpl in Hns.
  destruct (Subsets eps) as [|sub subs] eqn:Es; [done|].
  apply st_bind_ok in Hr as (as_ & s2 & Hf & Hr).
  unfold filterAddressesByIgnore in Hf. injection Hf as _ <-.
  case_decide; [unfold st_lift in Hr; by simplify_eq|].
  apply st_bind_ok in Hr as (a1 & s3 & Hc & Hr). rewrite st_wrap_ok in Hc.
  unfold choose in Hc. rewrite Hs, Hd in Hc. simpl in Hc.
  apply distributeByNodeHash_ok in Hc as [_ Hc].
  apply st_bind_ok in Hr as (a2 & s4 & Hp & Hr). unfold st_lift in Hp, Hr.
  injection Hp as Hp <-. injection Hr as <- <-.
  apply prefer_local_ok in Hp as [_ Heq]; [|intros x Hx; by apply Hc].
  rewrite (Heq Hloc) in Hu |- *. destruct a1 as [a|]; [|done].
  destruct claims as [m|]; [|done].
  destruct (Hc a eq_refl) as [_ Hall].
  destruct (Hall role m eq_refl Hrole Hne) as (ns & s5 & nss & n & Hget & ? & ? & ? & ?).
  assert ((Nodes_Get e s).1 = Ok ns) as Hn by (rewrite <-(Nodes_Get_eq s s1 Hns), Hget; done).
  exists a, n, nss, ns. do 6 (split; [done|]). by eapply Nodes_Get_fresh.
Qed.

(** ** No panics *)

Lemma hash_num_ok h : sha1R h = true → ∃ n, hash_num h = Ok n.
Proof. intros Hs. destruct (hash_num_spec h Hs) as (v & Hv & _). by eexists. Qed.

Lemma distributeByHash_ok src as_ :
  sha1R (InfoHash src) = true → as_ ≠ [] → ∃ r, distributeByHash src as_ = Ok r.
Proof.
  intros Hs Hne. destruct (hash_num_ok _ Hs) as [n Hn]. unfold distributeByHash. rewrite Hn.
  simpl. rewrite decide_False by (by rewrite merge_sort_nil). by eexists.
Qed.

Lemma distributeByNodeHash_no_panic src as_ (claims : MapClaims) s w :
  sha1R (InfoHash src) = true → Forall (λ a, is_Some (a_NodeName a)) as_ →
  (∀ w, (Nodes_Get e s).1 ≠ Panic w) → (distributeByNodeHash e src as_ claims s).1 ≠ Panic w.
Proof.
  intros Hs Hf Hn. destruct (hash_num_ok _ Hs) as [num Hnum]. unfold distributeByNodeHash, st_bind.
  assert (Forall (λ a, is_Some (a_NodeName a)) (merge_sort ip_le as_)) as Hf2
    by (by rewrite merge_sort_Permutation).
  destruct (node_names_ok _ Hf2) as [names Hnames]. unfold st_lift at 1. rewrite Hnames.
  assert (∀ r s', filterNodesByRole e (merge_sort str_le (remove_dups names)) claims s = (Ok r, s') →
    ∀ n, n ∈ r → ∃ a, a ∈ merge_sort ip_le as_ ∧ a_NodeName a = Some n) as Hgo.
  { intros r s' (_ & Hsub & _)%filterNodesByRole_ok n Hnr. eapply node_names_elem; [done|].
    apply Hsub in Hnr. rewrite merge_sort_elem in Hnr. by rewrite elem_of_remove_dups in Hnr. }
  assert (∀ w', (filterNodesByRole e (merge_sort str_le (remove_dups names)) claims s).1 ≠ Panic w')
    as Hfr.
  { intros w'. unfold filterNodesByRole. destruct claims as [m|]; [|done].
    destruct (claim_string (Some m) "role"); [|done]. case_decide; [done|].
    unfold st_bind, st_wrap, st_lift. specialize (Hn w').
    destruct (Nodes_Get e s) as [[ns|x|w2] s1]; simpl in *; [done|done|]. intros [= ->]. by apply Hn. }
  unfold st_wrap.
  destruct (filterNodesByRole _ _ _ _) as [[r|x|w'] s1] eqn:E; simpl; [|done|by destruct (Hfr w')].
  unfold st_lift. rewrite Hnum. case_decide; [done|]. simpl.
  destruct (node_loop_no_panic num (total_space / Z.of_nat (length r)) (merge_sort ip_le as_) 0 r)
    as [x ->]; [by eapply Hgo|done].
Qed.

(** Resolving a torrent never crashes the request.  If the service has an
    endpoint subset whose addresses name their nodes, then neither
    distribution divides by zero or slices out of range, with any ignore list,
    role, preference for the local node, and set of nodes. *)
Theorem getKubernetes_no_panic cfg src (claims : MapClaims) s eps s1 sub subs w :
  sha1R (InfoHash src) = true →
  Endpoints_Get e (cfg_Name cfg) s = (Ok eps, s1) → Subsets eps = sub :: subs →
  Forall (λ a, is_Some (a_NodeName a)) (Addresses sub) →
  (∀ w, (Nodes_Get e s1).1 ≠ Panic w) →
  (getKubernetes e cfg src claims s).1 ≠ Panic w.
Proof.
  intros Hs He Hsub Hf Hn. unfold getKubernetes, st_bind at 1, st_wrap at 1. rewrite He. simpl.
  rewrite Hsub. unfold st_bind at 1, filterAddressesByIgnore.
  set (as_ := filter _ (Addresses sub)).
  assert (Forall (λ a, is_Some (a_NodeName a)) as_) as Hfa.
  { apply Forall_forall. intros a [_ Ha]%list_elem_of_filter. rewrite Forall_forall in Hf. auto. }
  case_decide as Hne; [done|].
  assert (∀ w', (choose e cfg src claims as_ s1).1 ≠ Panic w') as Hc.
  { intros w'. unfold choose. rewrite Hs. simpl. case_decide.
    { destruct (distributeByHash_ok src as_ Hs Hne) as [x Hx]. unfold st_lift. by rewrite Hx. }
    case_decide; [by apply distributeByNodeHash_no_panic|done]. }
  unfold st_bind at 1, st_wrap.
  destruct (choose e cfg src claims as_ s1) as [[a1|x|w'] s2] eqn:Ec;
    simpl; [|done|by destruct (Hc w')].
  apply choose_ok in Ec as [_ Ein].
  assert (∀ w', prefer_local e cfg src as_ a1 ≠ Panic w') as Hp.
  { intros w'. unfold prefer_local. destruct a1 as [a|]; [|done]. case_decide; [done|].
    rewrite Forall_forall in Hfa. destruct (Hfa a (Ein a eq_refl)) as [node ->].
    destruct (_ && _); [|done]. destruct (node_names_ok as_) as [ns ->]; [by apply Forall_forall|].
    simpl. case_decide as Hl; [done|].
    destruct (distributeByHash_ok src _ Hs Hl) as [y Hy]. by rewrite Hy. }
  unfold st_bind, st_lift.
  destruct (prefer_local e cfg src as_ a1) as [x|x|w'] eqn:Epl; [done|done|by destruct (Hp w')].
Qed.

End spec.

(** ** The resolver on parsed sources *)

(** Whatever URL was parsed and whatever the claims say, the resolver has a
    configuration for the source: the lookup that is dereferenced without a
    nil check never yields nil. *)
Theorem parsed_source_configured {F} `{GoFloat F} configs o url src (claims : MapClaims (F := F)) :
  valid_orders configs o → Parse configs o url = Ok src →
  ∃ cfg, edge_config configs src claims = Some cfg.
Proof.
  intros Hv Hp. rewrite Parse_closed in Hp by done. unfold parse_closed in Hp.
  case_decide; [done|]. case_decide; [done|].
  destruct (configs !! source_type configs (url_hash url)) as [c|] eqn:Ec; [|done].
  case_match; [done|]. cbv zeta in Hp.
  assert (∃ cfg, configs !! GetEdgeType src = Some cfg) as [cfg Hcfg].
  { destruct (rightmost_mod configs (url_rest url) (slen (url_rest url))) as [i|] eqn:Er;
      injection Hp as <-; unfold GetEdgeType; cbn [src_Mod src_Type mod_Type mod_from]; [|by eexists].
    by apply rightmost_mod_Some in Er as (_ & [_ [_ ?]] & _). }
  unfold edge_config, GetMod. rewrite Hcfg.
  destruct (claim_string claims "role" ≫= _) as [c0|]; [by exists c0|by exists cfg].
Qed.

(** ** A concrete cluster *)

#[local] Existing Instance binary64.
#[local] Existing Instance demo_unicode.

Definition demo_src (hash : string) : Source := mkSource "default" "svc" hash "/" "/" "" "" "" None.
Definition demo_cfg (d : string) (local : bool) : ServiceConfig :=
  mkServiceConfig "svc" d Kubernetes local ∅.
Definition demo_pods : list EndpointAddress :=
  [mkAddress "10.0.0.2" (Some "n2"); mkAddress "10.0.0.1" (Some "n1"); mkAddress "10.0.0.3" (Some "n3")].
Definition demo_sub : EndpointSubset := mkSubset demo_pods [("http", 8080%Z); ("httpprobe", 8081%Z)].
Definition demo_node (n : string) (labels : gmap string string) : Node :=
  mkNode n labels [("Ready", "True")].
Definition demo_env (nn : string) (subs : list EndpointSubset) : slEnv :=
  mkEnv 0 nn "webtor.io/" (Ok tt)
    (Ok [demo_node "n1" {["webtor.io/roles-denied" := "free"]}; demo_node "n2" ∅; demo_node "n3" ∅])
    (λ _, Ok (mkEndpoints subs)) (λ _, "") 0 (λ _, Ok 200%Z).
Definition demo_state : slState (M := timed) :=
  mkState (timed_empty 15 false) (timed_empty 30 false) (timed_empty 30 true)
    (timed_empty 60 false) (timed_empty 60 false).
Definition demo_claims (role : string) : MapClaims (F := SpecFloat.spec_float) :=
  Some {["role" := JStr role]}.
Definition hash_of (c : ascii) : string := String c (String c (String c (String c (String c "0")))).

Definition ip_of (r : outcome Location * slState (M := timed)) : outcome string :=
  l ← r.1; Ok (if Unavailable l then "unavailable" else IP_String (loc_IP l)).

Example distributeByHash_spec_witness :
  distributeByHash (demo_src (hash_of "8")) demo_pods = Ok (merge_sort ip_le demo_pods !! 1) ∧
  (distributeByHash (demo_src (hash_of "8")) demo_pods = Ok None ↔ str_take 5 (hash_of "8") = "fffff").
Proof.
  destruct (distributeByHash_spec (demo_src (hash_of "8")) demo_pods
    ltac:(by vm_compute) ltac:(done) ltac:(by vm_compute)) as (num & Hn & _ & Hf).
  split; [by vm_compute|exact Hf].
Defined.

Example distributeByHash_stable_witness :
  distributeByHash (demo_src (hash_of "8")) demo_pods =
  distributeByHash (demo_src (hash_of "8")) (rev demo_pods).
Proof.
  apply distributeByHash_stable; [symmetry; apply Permutation_rev|].
  by apply (bool_decide_unpack _); vm_compute.
Defined.

Example GetFallback_excludes_witness :
  ip_of (GetFallback (demo_env "" [demo_sub]) (demo_cfg Hash false) (demo_src (hash_of "0"))
    (ParseIP "10.0.0.1") (demo_claims "free") demo_state) = Ok "10.0.0.2" ∧
  "10.0.0.2" ≠ "10.0.0.1".
Proof.
  destruct (GetFallback (demo_env "" [demo_sub]) (demo_cfg Hash false) (demo_src (hash_of "0"))
    (ParseIP "10.0.0.1") (demo_claims "free") demo_state) as [[l| |] s'] eqn:E;
    [|exfalso; vm_compute in E; discriminate E..].
  assert (EndpointsProvider (demo_cfg Hash false) ≠ Environment) as Hp by (by vm_compute).
  destruct (GetFallback_excludes _ _ _ _ _ _ _ _ Hp E) as (_ & Hne & _).
  vm_compute in E. injection E as <- _. split; [by vm_compute|]. exact Hne.
Defined.

(** A cluster whose first pod answers its probe with an error: the request goes
    to another pod and the first one is ignored. *)
Definition sick_env : slEnv :=
  mkEnv 0 "" "webtor.io/" (Ok tt) (Ok []) (λ _, Ok (mkEndpoints [demo_sub])) (λ _, "") 0
    (λ r, Ok (if decide (u_host (rq_URL r) = "10.0.0.1:8081") then 503 else 200)%Z).

Example probed_location_witness :
  let r := getKubernetesWithProbeCheck sick_env (demo_cfg Hash false)
             (demo_src (hash_of "0")) (demo_claims "free") demo_state in
  ip_of r = Ok "10.0.0.2" ∧ IsIgnored sick_env r.2 "10.0.0.2" = false ∧ IsIgnored sick_env r.2 "10.0.0.1" = true.
Proof.
  set (first := getKubernetes sick_env (demo_cfg Hash false) (demo_src (hash_of "0")) (demo_claims "free") demo_state).
  cbv zeta. destruct (getKubernetesWithProbeCheck sick_env (demo_cfg Hash false)
       (demo_src (hash_of "0")) (demo_claims "free") demo_state) as [[l| |] s'] eqn:E;
    [|exfalso; vm_compute in E; discriminate E..].
  assert (Unavailable l = false ∧ IP_String (loc_IP l) = "10.0.0.2") as [Hu Hi].
  { vm_compute in E. injection E as <- _. by vm_compute. }
  pose proof (probed_location sick_env (demo_cfg Hash false)
    (demo_src (hash_of "0")) (demo_claims "free") demo_state l s' E) as (Hl & Hf & _).
  destruct (Hl Hu) as (_ & Hn & _). rewrite Hi in Hn.
  destruct first as [[l0| |] s0] eqn:E0; [|exfalso; vm_compute in E0; discriminate E0..].
  assert (Unavailable l0 = false ∧ is_ok (ProbeChecker_Get sick_env l0 s0).1 = false ∧
    IP_String (loc_IP l0) = "10.0.0.1") as (Hu0 & Hp0 & Hi0).
  { clear -E0. unfold first in E0. vm_compute in E0. injection E0 as <- <-. by vm_compute. }
  specialize (Hf l0 s0 E0 Hu0 Hp0). rewrite Hi0 in Hf. clear E E0. split; [|exact (conj Hn Hf)].
  unfold ip_of. cbn [fst mbind outcome_bind]. rewrite Hu, Hi. reflexivity.
Defined.

Example role_respected_witness :
  ip_of (getKubernetes (demo_env "" [demo_sub]) (demo_cfg NodeHash false)
       (demo_src (hash_of "0")) (demo_claims "free") demo_state) = Ok "10.0.0.2" ∧
  ∃ nss nodes n, IsAllowed nss "free" = true ∧ api_nodes (demo_env "" [demo_sub]) = Ok nodes ∧ n ∈ nodes ∧
    ready n = true ∧ nss = node_stat "webtor.io/" n.
Proof.
  destruct (getKubernetes (demo_env "" [demo_sub]) (demo_cfg NodeHash false)
       (demo_src (hash_of "0")) (demo_claims "free") demo_state) as [[l| |] s'] eqn:E;
    [|exfalso; vm_compute in E; discriminate E..].
  assert (Unavailable l = false ∧ IP_String (loc_IP l) = "10.0.0.2") as [Hu Hi]
    by (vm_compute in E; by injection E as <- _).
  assert (sha1R (InfoHash (demo_src (hash_of "0"))) = true) as Hs by (by vm_compute).
  assert ("free" ≠ "") as Hne by done.
  destruct (role_respected (demo_env "" [demo_sub]) (demo_cfg NodeHash false)
    (demo_src (hash_of "0")) (demo_claims "free") "free" demo_state l s'
    Hs eq_refl (or_introl eq_refl) eq_refl Hne E Hu)
    as (a & node & nss & ns & _ & _ & _ & _ & _ & Ha & Hfresh).
  destruct (Hfresh eq_refl) as (nodes & n & H1 & H2 & H3 & H4). clear E.
  split; [unfold ip_of; cbn [fst mbind outcome_bind]; rewrite Hu, Hi; reflexivity|].
  exists nss, nodes, n. exact (conj Ha (conj H1 (conj H2 (conj H3 H4)))).
Defined.

(** The preference for the local node does not look at roles: a node that denies
    a role is used for it when it is the local one. *)
Example local_ignores_roles :
  IsAllowed (node_stat "webtor.io/" (demo_node "n1" {["webtor.io/roles-denied" := "free"]})) "free" = false ∧
  ip_of (getKubernetes (demo_env "n1" [demo_sub]) (demo_cfg NodeHash true)
       (demo_src (hash_of "0")) (demo_claims "free") demo_state) = Ok "10.0.0.1".
Proof. by vm_compute. Qed.

Example getKubernetes_no_panic_witness :
  (getKubernetes (demo_env "n9" [demo_sub]) (demo_cfg NodeHash true)
     (demo_src (hash_of "0")) (demo_claims "free") demo_state).1 ≠ Panic "integer divide by zero".
Proof.
  destruct (Endpoints_Get (demo_env "n9" [demo_sub]) "svc" demo_state) as [[eps| |] s1] eqn:E;
    [|exfalso; vm_compute in E; discriminate E..].
  assert (Subsets eps = [demo_sub]) as Hs by (vm_compute in E; by injection E as <- _).
  assert (sha1R (InfoHash (demo_src (hash_of "0"))) = true) as Hh by (by vm_compute).
  apply (getKubernetes_no_panic (demo_env "n9" [demo_sub]) (demo_cfg NodeHash true)
    (demo_src (hash_of "0")) (demo_claims "free") demo_state eps s1 demo_sub [] _ Hh E Hs).
  - repeat constructor; by eexists.
  - intros w. vm_compute in E. injection E as _ <-. by vm_compute.
Defined.

Example parsed_source_configured_witness :
  ∃ src cfg, Parse demo_config demo_orders demo_url = Ok src ∧
    edge_config demo_config src (demo_claims "free") = Some cfg.
Proof.
  destruct (Parse demo_config demo_orders demo_url) as [src| |] eqn:E;
    [|exfalso; vm_compute in E; discriminate E..].
  destruct (parsed_source_configured demo_config demo_orders demo_url src (demo_claims "free")
    demo_valid E) as [cfg Hc]. exists src, cfg. exact (conj eq_refl Hc).
Defined.

(** Four behaviours at the edges of the resolver, on this cluster.  A
    torrent whose hash starts with [fffff] gets no pod although three are up.
    A request whose source is a bare modifier name ([/hls/...], not a hash) is
    sent to a random pod, and a preference for the local node then slices the
    name to five bytes and panics.  A service without a ready subset panics
    instead of being unavailable.  And excluding a pod can move a torrent to
    another node, although its old node is still up. *)
Example resolution_edges :
  let get nn subs cfg hash :=
    ip_of (getKubernetes (demo_env nn subs) cfg (demo_src hash) (demo_claims "paid") demo_state) in
  get "" [demo_sub] (demo_cfg Hash false) (hash_of "f") = Ok "unavailable" ∧
  get "n1" [demo_sub] (demo_cfg Hash true) "hls" = Panic "slice bounds out of range" ∧
  get "" [] (demo_cfg Hash false) (hash_of "0") = Panic "index out of range" ∧
  (let pods := [mkAddress "10.0.0.1" (Some "n1"); mkAddress "10.0.0.2" (Some "n2");
                mkAddress "10.0.0.3" (Some "n2"); mkAddress "10.0.0.4" (Some "n2")] in
   let e := demo_env "" [mkSubset pods [("http", 8080%Z)]] in
   let src := demo_src "70000000" in
   ip_of (getKubernetes e (demo_cfg Hash false) src (demo_claims "paid") demo_state) = Ok "10.0.0.2" ∧
   ip_of (GetFallback e (demo_cfg Hash false) src (ParseIP "10.0.0.2") (demo_claims "paid") demo_state)
     = Ok "10.0.0.3" ∧
   ip_of (GetFallback e (demo_cfg NodeHash false) (demo_src "00000000") (ParseIP "10.0.0.1")
     (demo_claims "paid") demo_state) = Ok "10.0.0.2").
Proof. by vm_compute. Qed.
