(* ===== verification/HttpProxy.v ===== *)
(** * services/http_proxy.go

    The reverse proxy's transports and hooks: the redirect-following transport,
    the stub for unavailable locations, the response hook that cleans CORS
    headers, learns file sizes and applies the response rules, and the choice
    and caching of a proxy for a location. *)

From S2P Require Import Prelude GoStrings GoUrl GoNet GoFloat GoHttp Claims LazyMap K8s.
From S2P Require Import ServicesConfig UrlParser ServiceLocation FileSizeCache ManifestRewriter.

(** ** Response hook *)

Definition corsHeaders : list string :=
  ["Access-Control-Allow-Credentials"; "Access-Control-Allow-Origin"].

Definition delCORSHeaders (h : Header) : Header := foldl h_del h corsHeaders.

(** [captureFileSize] on the cache ([None]: not wired), the file key of the
    request ([None]: no request or no key) and the order in which Go would
    range over the cache. *)
Definition captureFileSize {B} (cache : option FileSizeCache) (order : list string)
    (key : option FileKey) (r : response B) : option FileSizeCache :=
  match cache, key with
  | Some c, Some fk =>
      if decide (fk_InfoHash fk = "" ∨ fk_Path fk = "") then cache else
      let size_ := SizeFromHeaders (StatusCode r) (ContentLength r)
                     (h_get (rs_Header r) "Content-Range") in
      if (0 <? size_)%Z then Some (Set_ c order (fk_InfoHash fk) (fk_Path fk) size_) else cache
  | _, _ => cache
  end.

Section modify.
Context {F : Type} `{GoFloat F} {B : Type}.
Context (read_all : B → outcome string) (of_bytes : string → B).

Definition set_header (r : response B) (h : Header) : response B :=
  mkResponse (StatusCode r) h (ContentLength r) (Body r).

Definition modifyResponse (cache : option FileSizeCache) (order : list string)
    (key : option FileKey) (rq : option (rule_request (F := F))) (r : response B)
    : outcome (response B) * option FileSizeCache :=
  let r := set_header r (delCORSHeaders (rs_Header r)) in
  let cache := captureFileSize cache order key r in
  (applyResponseRules read_all of_bytes rq r, cache).

End modify.

(** ** Transports *)

Section transports.
Context {B W : Type}.
(** A transport: what a round trip gives, and what it does to the world; and
    closing a body. *)
Abbreviation RoundTripper := (W → request → outcome (response B) * W).
Context (close_body : W → B → W).

(** [stubTransport.RoundTrip] *)
Definition stub_RoundTrip (empty_body : B) : RoundTripper := λ w _,
  (Ok (mkResponse 503 ∅ 0 (Some empty_body)), w).

Definition is_redirect (r : response B) : bool :=
  (StatusCode r =? StatusFound)%Z || (StatusCode r =? StatusTemporaryRedirect)%Z.

(** The request of one hop. *)
Definition redirect_request (req : request) (loc : string) : option request :=
  newReq ← NewRequest (Method req) loc;
  let rng := h_get (rq_Header req) "Range" in
  Some (if decide (rng = "") then newReq
        else mkRequest (Method newReq) (rq_URL newReq) (h_set (rq_Header newReq) "Range" rng)).

Fixpoint redirect_loop (hops : nat) (external : RoundTripper) (req : request) (resp : response B)
    (w : W) : outcome (response B) * W :=
  match hops with
  | 0 => (Ok resp, w)
  | S hops =>
      if negb (is_redirect resp) then (Ok resp, w) else
      let loc := h_get (rs_Header resp) "Location" in
      if decide (loc = "") then (Ok resp, w) else
      let w := match Body resp with Some b => close_body w b | None => w end in
      match redirect_request req loc with
      | None => (Err (ErrNew ("parse " +:+ loc)), w)
      | Some newReq =>
          match external w newReq with
          | (Ok resp, w) => redirect_loop hops external req resp w
          | (Err e, w) => (Err e, w)
          | (Panic p, w) => (Panic p, w)
          end
      end
  end.

(** [redirectFollowingTransport.RoundTrip] *)
Definition redirect_RoundTrip (inner external : RoundTripper) : RoundTripper := λ w req,
  match inner w req with
  | (Ok resp, w) => redirect_loop 10 external req resp w
  | (Err e, w) => (Err e, w)
  | (Panic p, w) => (Panic p, w)
  end.

End transports.

(** ** Choosing the proxy *)

(** The transport that [HTTPProxy.get] puts into the reverse proxy. *)
Inductive transport_kind :=
  | StubTransport
  | RedirectTransport
  | RetryTransport.

Record ReverseProxy := mkProxy { px_host : string; px_transport : transport_kind }.

Definition proxy_key (loc : Location) : string :=
  IP_String (loc_IP loc) +:+ ":" +:+ itoa (HTTP loc).

Definition get (maxRetries : Z) (loc : Location) : ReverseProxy :=
  mkProxy (proxy_key loc)
    (if Unavailable loc then StubTransport
     else if (0 <? maxRetries)%Z then RetryTransport else RedirectTransport).

(** The director's change to the outgoing request: no compressed manifests. *)
Definition director (req : request) : request :=
  if has_suffix (url_path (u_url (rq_URL req))) ".m3u8"
  then mkRequest (Method req) (rq_URL req) (h_del (rq_Header req) "Accept-Encoding")
  else req.

Section proxy.
Context {F : Type} `{GoFloat F} `{GoUnicode} {M : Type → Type} `{LazyMap M}.

(** The state of [HTTPProxy.Get]: the resolver's caches and the proxies. *)
Record proxyState := mkProxyState { ps_loc : slState (M := M); ps_proxies : M ReverseProxy }.

Definition Get (e : slEnv) (configs : ServicesConfig) (maxRetries : Z) (src : Source)
    (claims : MapClaims (F := F)) (s : proxyState) : outcome ReverseProxy * proxyState :=
  let '(loc, sl) := Resolve e configs src claims (ps_loc s) in
  let s := mkProxyState sl (ps_proxies s) in
  match wrap_err "failed to get location" loc with
  | Ok loc =>
      lm_get (now e) ps_proxies (λ m s, mkProxyState (ps_loc s) m) (proxy_key loc)
        (λ s, (Ok (get maxRetries loc), s)) s
  | Err x => (Err x, s)
  | Panic w => (Panic w, s)
  end.

End proxy.

(** ** Following redirects *)

Section redirects.
Context {B W : Type} (close_body : W → B → W).

(** A transport that also keeps the requests it was given, latest first. *)
Definition logged (rt : W → request → outcome (response B) * W)
    (w : W * list request) (req : request) : outcome (response B) * (W * list request) :=
  let '(r, w1) := rt w.1 req in (r, (w1, req :: w.2)).
Definition logged_close (w : W * list request) (b : B) : W * list request := (close_body w.1 b, w.2).

(** A request of a hop for [req]: same method, and no header but its range. *)
Definition hop_of (req hop : request) : Prop :=
  Method hop = (if decide (Method req = "") then "GET" else Method req) ∧
  rq_Header hop = (let rng := h_get (rq_Header req) "Range" in
                   if decide (rng = "") then ∅ else {["Range" := [rng]]}).

Lemma redirect_request_hop req loc hop : redirect_request req loc = Some hop → hop_of req hop.
Proof.
  unfold redirect_request, NewRequest. intros (nr & Hn & Hh)%bind_Some.
  apply bind_Some in Hn as (u & Hu & [= <-]). unfold hop_of. simpl in *.
  case_decide; simplify_eq; simpl; done.
Qed.

Lemma redirect_loop_log hops ext req resp w log r w' log' :
  redirect_loop logged_close hops (logged ext) req resp (w, log) = (r, (w', log')) →
  ∃ new, log' = new ++ log ∧ length new ≤ hops ∧ Forall (hop_of req) new ∧
    (∀ resp', r = Ok resp' →
       is_redirect resp' = false ∨ h_get (rs_Header resp') "Location" = "" ∨ length new = hops).
Proof.
  revert resp w log. induction hops as [|hops IH]; intros resp w log; simpl.
  - intros [= <- <- <-]. exists []. split; [done|]. split; [done|]. split; [done|]. auto.
  - destruct (is_redirect resp) eqn:Er; simpl.
    2:{ intros [= <- <- <-]. exists []. split; [done|]. split; [simpl; lia|]. split; [done|].
        intros ? [= <-]. by left. }
    case_decide as El.
    { intros [= <- <- <-]. exists []. split; [done|]. split; [simpl; lia|]. split; [done|].
      intros ? [= <-]. by right; left. }
    assert (∀ w1, match redirect_request req (h_get (rs_Header resp) "Location") with
      | Some newReq => match logged ext (w1, log) newReq with
          | (Ok resp, w) => redirect_loop logged_close hops (logged ext) req resp w
          | (Err e, w) => (Err e, w) | (Panic p, w) => (Panic p, w) end
      | None => (Err (ErrNew ("parse " +:+ h_get (rs_Header resp) "Location")), (w1, log))
      end = (r, (w', log')) →
      ∃ new, log' = new ++ log ∧ length new ≤ S hops ∧ Forall (hop_of req) new ∧
        (∀ resp', r = Ok resp' →
       is_redirect resp' = false ∨ h_get (rs_Header resp') "Location" = "" ∨ length new = S hops))
      as Hgo.
    { intros w1. destruct (redirect_request req _) as [nr|] eqn:En.
      2:{ intros [= <- <- <-]. exists []. split; [done|]. split; [simpl; lia|]. by split. }
      apply redirect_request_hop in En. unfold logged at 1. simpl.
      destruct (ext w1 nr) as [[resp2|e|p] w2].
      - intros (new & -> & Hl & Hf & Ho)%IH. exists (new ++ [nr]). rewrite <-app_assoc.
        split; [done|]. rewrite length_app. simpl. split; [lia|].
        split; [by apply Forall_app; split; [|constructor]|].
        intros resp' Hr. destruct (Ho _ Hr) as [?|[?|?]]; [auto|auto|right; right; lia].
      - intros [= <- <- <-]. exists [nr]. split; [done|]. simpl. split; [lia|].
        split; [by constructor|done].
      - intros [= <- <- <-]. exists [nr]. split; [done|]. simpl. split; [lia|].
        split; [by constructor|done]. }
    unfold logged_close at 1. simpl. destruct (Body resp); apply Hgo.
Qed.

(** C14: redirects.  However the upstream redirects, at most ten further
    requests are made, each with the method of the client's request and with
    no header except its Range: no token, API key, session or cookie header
    of the request reaches a redirect target.  A response that is returned is
    not a redirect that could still be followed, unless the ten hops are used
    up. *)
Theorem redirects_safe inner ext req w r w' log :
  redirect_RoundTrip logged_close (λ w q, let '(r, w1) := inner w.1 q in (r, (w1, w.2)))
    (logged ext) (w, []) req = (r, (w', log)) →
  length log ≤ 10 ∧ Forall (hop_of req) log ∧
  (∀ resp, r = Ok resp →
     is_redirect resp = false ∨ h_get (rs_Header resp) "Location" = "" ∨ length log = 10).
Proof.
  unfold redirect_RoundTrip. cbn [fst snd]. destruct (inner w req) as [[resp|e|p] w1].
  - intros (new & -> & Hl & Hf & Ho)%redirect_loop_log. rewrite app_nil_r. by split.
  - intros [= <- <- <-]. split; [simpl; lia|]. by split.
  - intros [= <- <- <-]. split; [simpl; lia|]. by split.
Qed.

End redirects.

(** ** The response hook *)

Lemma delCORSHeaders_get h k :
  h_get (delCORSHeaders h) k =
    if decide (canonical k ∈ corsHeaders) then "" else h_get h k.
Proof.
  unfold delCORSHeaders, corsHeaders. simpl. rewrite !h_get_del.
  change (canonical "Access-Control-Allow-Credentials") with "Access-Control-Allow-Credentials".
  change (canonical "Access-Control-Allow-Origin") with "Access-Control-Allow-Origin".
  repeat case_decide; try done; set_solver.
Qed.

(** C35: the response hook.  The response that goes to the client carries no
    CORS header of the upstream; and the size cache learns the size of the
    requested file exactly when the cache is wired, the key is complete and
    the headers give a positive size: the next request for the file then finds
    this size. *)
Theorem modifyResponse_spec {F} `{GoFloat F} {B} (read_all : B → outcome string) of_bytes
    (cache : option FileSizeCache) order key (rq : option (rule_request (F := F))) (r : response B) :
  let '(out, cache') := modifyResponse read_all of_bytes cache order key rq r in
  (∀ r' k, out = Ok r' → canonical k ∈ corsHeaders → h_get (rs_Header r') k = "") ∧
  (let size_ := SizeFromHeaders (StatusCode r) (ContentLength r)
                 (h_get (rs_Header r) "Content-Range") in
   match cache, key with
   | Some c, Some fk =>
       if decide (fk_InfoHash fk ≠ "" ∧ fk_Path fk ≠ "" ∧ (0 < size_)%Z)
       then ∃ c', cache' = Some c' ∧ FileSizeCache.Get c' (fk_InfoHash fk) (fk_Path fk) = Some size_
       else cache' = cache
   | _, _ => cache' = cache
   end).
Proof.
  unfold modifyResponse. set (r1 := set_header r (delCORSHeaders (rs_Header r))).
  assert (∀ k, canonical k ∈ corsHeaders → h_get (rs_Header r1) k = "") as H1.
  { intros k Hk. unfold r1. simpl. by rewrite delCORSHeaders_get, decide_True. }
  split.
  - intros r' k Ho Hk. unfold applyResponseRules in Ho.
    destruct (rq ≫= rr_rules) as [rc|]; [|simplify_eq; by apply H1].
    destruct (rc_Claims rc); [|simplify_eq; by apply H1]. simpl in Ho.
    unfold rewriteManifestForGrace in Ho. destruct rq as [[path rules]|]; [|simplify_eq; by apply H1].
    destruct (negb _); [simplify_eq; by apply H1|].
    destruct (findGraceRule _); [|simplify_eq; by apply H1].
    destruct (Body r1); [|simplify_eq; by apply H1]. simpl in Ho.
    apply bind_ok in Ho as (body & _ & Ho). simplify_eq. simpl.
    rewrite h_get_set. change (canonical "Content-Length") with "Content-Length".
    case_decide as E; [rewrite <-E in Hk; set_solver|]. by apply H1.
  - unfold captureFileSize. destruct cache as [c|], key as [fk|]; try done.
    assert (h_get (rs_Header r1) "Content-Range" = h_get (rs_Header r) "Content-Range") as ->.
    { unfold r1. simpl. rewrite delCORSHeaders_get, decide_False; [done|].
      change (canonical "Content-Range") with "Content-Range". set_solver. }
    change (StatusCode r1) with (StatusCode r). change (ContentLength r1) with (ContentLength r).
    set (size_ := SizeFromHeaders _ _ _).
    destruct (decide (fk_InfoHash fk = "" ∨ fk_Path fk = "")).
    + rewrite decide_False by tauto. done.
    + destruct (Z.ltb_spec 0 size_).
      * rewrite decide_True by tauto. eexists. split; [done|].
        unfold FileSizeCache.Get, Set_. rewrite (proj2 (Z.leb_gt size_ 0)) by lia.
        case_match; simpl; apply lookup_insert_eq.
      * rewrite decide_False by lia. done.
Qed.

(** ** A concrete upstream *)

(** Redirects everything; the final hop answers 206. *)
Definition hop_transport (n : nat) (req : request) : outcome (response string) * nat :=
  (Ok (if decide (n = 0)
       then mkResponse 206 ∅ 0 (Some "data")
       else mkResponse 302 {["Location" := ["https://s3.example/obj?sig=1"]]} 0 (Some "")), Nat.pred n).

Definition demo_request : request :=
  mkRequest "GET" (mkFull "http" "10.0.0.1:8080" (mkURL "/a" ""))
    {["Range" := ["bytes=5-"]; "X-Token" := ["secret"]; "Cookie" := ["c=1"]]}.

Definition demo_redirect : outcome (response string) * (nat * list request) :=
  redirect_RoundTrip (logged_close (λ w _, w)) (λ w q, let '(r, w1) := hop_transport w.1 q in (r, (w1, w.2)))
    (logged hop_transport) (2, []) demo_request.

Example redirects_safe_witness :
  map rq_Header demo_redirect.2.2 = [{["Range" := ["bytes=5-"]]}; {["Range" := ["bytes=5-"]]}] ∧
  length demo_redirect.2.2 ≤ 10.
Proof.
  split; [by vm_compute|].
  destruct demo_redirect as [r [w' log]] eqn:E.
  exact (proj1 (redirects_safe (λ w _, w) hop_transport hop_transport demo_request 2 r w' log E)).
Defined.
