(* ===== verification/RetryTransport.v ===== *)
(** * services/retry_transport.go: the retrying transport

    [retryTransport.RoundTrip] and the reconnect function it builds, over the
    resolver's fallback and the upstream transports. *)

From Stdlib Require SpecFloat.
From S2P Require Import Prelude GoStrings GoUrl GoNet GoFloat GoHttp Claims.
From S2P Require Import ServicesConfig UrlParser LazyMap K8s ServiceLocation HttpProxy RetryReader.

Section transport.
Context {F : Type} `{GoFloat F} {B W : Type}.

Abbreviation RoundTripper := (W → request → outcome (response B) * W).
Abbreviation MapClaims := (MapClaims (F := F)).

(** What a request knows for retrying: [RetryContext] without its logger.
    [SvcLoc] enters as the fallback resolution it is used for. *)
Record RetryContext := mkRetryContext {
  rt_Src : Source;
  rt_Claims : MapClaims;
  rt_Cfg : ServicesConfig;
  rt_GetFallback : ServiceConfig → Source → option IP → MapClaims → W → outcome Location * W;
  rt_Transport : RoundTripper;
  rt_ExternalTransport : RoundTripper;
  MaxRetries : Z
}.

Context (close_body : W → B → W).

(** ** The resume offset *)

(** [origStart], or [None] when the response cannot be resumed. *)
Definition orig_start (req : request) (resp : response B) : option Z :=
  if (StatusCode resp =? StatusPartialContent)%Z then
    match parseContentRangeStart (h_get (rs_Header resp) "Content-Range") with
    | Some s => Some s
    | None =>
        match parseRange (h_get (rq_Header req) "Range") with
        | Some (start, _) => Some start
        | None => None
        end
    end
  else Some 0%Z.

(** ** Reconnecting *)

Definition copied_headers : list string :=
  ["X-Source-Url"; "X-Proxy-Url"; "X-Info-Hash"; "X-Path"; "X-Origin-Path"; "X-Full-Path";
   "X-Token"; "X-Api-Key"; "X-Session-ID"; "X-Download-Rate"].

Definition retry_config (rc : RetryContext) : option ServiceConfig :=
  let edgeType := GetEdgeType (rt_Src rc) in
  let role := default "" (claim_string (rt_Claims rc) "role") in
  match GetMod (rt_Cfg rc) (edgeType +:+ "-" +:+ role) with
  | Some cfg => Some cfg
  | None => GetMod (rt_Cfg rc) edgeType
  end.

(** The host part of [failedHost], or all of it. *)
Definition failed_ip (failedHost : string) : string :=
  match SplitHostPort failedHost with
  | Some (h, _) => if decide (h = "") then failedHost else h
  | None => failedHost
  end.

Definition retry_request (req : request) (targetHost : string) (newStart : Z) : option request :=
  let u := u_url (rq_URL req) in
  newReq ← NewRequest (Method req)
    ("http://" +:+ targetHost +:+ url_path u +:+ "?" +:+ url_raw_query u);
  let copy h k := let v := h_get (rq_Header req) k in if decide (v ≠ "") then h_set h k v else h in
  Some (mkRequest (Method newReq) (rq_URL newReq)
          (h_set (foldl copy (rq_Header newReq) copied_headers) "Range"
             ("bytes=" +:+ itoa newStart +:+ "-"))).

(** The closure [reconnectFn]: its world is [failedHost] and the world of the
    transports.  Panics of the resolver and of the transports go through; so
    does the nil dereference of a response without a body, which net/http rules
    out. *)
Definition reconnectFn (rc : RetryContext) (req : request) (origStart : Z)
    (w : string * W) (offset : Z) : (B + reconn_err) * (string * W) :=
  let '(failedHost, w) := w in
  let newStart := int64 (origStart + offset) in
  match retry_config rc with
  | None => (inr ReconnFailed, (failedHost, w))
  | Some cfg =>
      match rt_GetFallback rc cfg (rt_Src rc) (ParseIP (failed_ip failedHost)) (rt_Claims rc) w with
      | (Ok loc, w) =>
          let targetHost := IP_String (loc_IP loc) +:+ ":" +:+ itoa (HTTP loc) in
          match retry_request req targetHost newStart with
          | None => (inr ReconnFailed, (failedHost, w))
          | Some newReq =>
              match redirect_RoundTrip close_body (rt_Transport rc) (rt_ExternalTransport rc) w newReq with
              | (Ok newResp, w) =>
                  match Body newResp with
                  | None => (inr (ReconnPanic "nil pointer dereference"), (failedHost, w))
                  | Some b =>
                  let close := close_body w b in
                  if (StatusCode newResp =? StatusRequestedRangeNotSatisfiable)%Z then
                    let totalStr := trim_prefix (h_get (rs_Header newResp) "Content-Range") "bytes */" in
                    if bool_decide (parse_int 10 totalStr = Some newStart)
                    then (inr errUpstreamEOF, (failedHost, close))
                    else (inr ReconnFailed, (failedHost, close))
                  else if negb (StatusCode newResp =? StatusPartialContent)%Z
                  then (inr ReconnFailed, (failedHost, close))
                  else (inl b, (targetHost, w))
                  end
              | (Err _, w) => (inr ReconnFailed, (failedHost, w))
              | (Panic p, w) => (inr (ReconnPanic p), (failedHost, w))
              end
          end
      | (Err _, w) => (inr ReconnFailed, (failedHost, w))
      | (Panic p, w) => (inr (ReconnPanic p), (failedHost, w))
      end
  end.

(** ** [RoundTrip] *)

(** A body as it leaves the transport: the upstream's own, or wrapped with the
    offset its reconnects start from. *)
Inductive out_body :=
  | PlainBody (b : B)
  | RetryingBody (origStart : Z) (r : retryingReadCloser B).

Definition keep_body (resp : response B) : response out_body :=
  mkResponse (StatusCode resp) (rs_Header resp) (ContentLength resp) (PlainBody <$> Body resp).

Definition RoundTrip (inner : RoundTripper) (rc : option RetryContext) (req : request) (w : W)
    : outcome (response out_body) * W :=
  match inner w req with
  | (Ok resp, w) =>
      (Ok match rc, Body resp with
          | Some rc, Some b =>
              if (MaxRetries rc <=? 0)%Z then keep_body resp
              else if negb ((StatusCode resp =? StatusOK)%Z
                            || (StatusCode resp =? StatusPartialContent)%Z)
              then keep_body resp
              else match orig_start req resp with
                   | None => keep_body resp
                   | Some start =>
                       mkResponse (StatusCode resp) (rs_Header resp) (ContentLength resp)
                         (Some (RetryingBody start
                            (mkRrc b 0 (ContentLength resp) (MaxRetries rc) 0 false)))
                   end
          | _, _ => keep_body resp
          end, w)
  | (Err e, w) => (Err e, w)
  | (Panic p, w) => (Panic p, w)
  end.

End transport.

(** ** The resume offset *)

(** Where a resumed stream starts.  A 200 is resumed from byte 0 even if
    the client asked for a range; a 206 from the start its Content-Range
    states, whatever was asked for; without a readable Content-Range from the
    start of the requested range; and a suffix range without Content-Range is
    never wrapped.  In every other respect the response is passed on as it
    is. *)
Theorem resume_offset_spec {F} `{GoFloat F} {B W} (inner : W → request → outcome (response B) * W)
    (rc : RetryContext (F := F) (B := B) (W := W)) req w resp b w' s e total suffix :
  inner w req = (Ok resp, w') → Body resp = Some b → (0 < MaxRetries rc)%Z →
  (0 ≤ s < 2 ^ 63)%Z → (0 ≤ e < 2 ^ 63)%Z →
  ∃ out, RoundTrip inner (Some rc) req w = (Ok out, w') ∧
    StatusCode out = StatusCode resp ∧ rs_Header out = rs_Header resp ∧
    ContentLength out = ContentLength resp ∧
    let wrapped start :=
      Some (RetryingBody start (mkRrc b 0 (ContentLength resp) (MaxRetries rc) 0 false)) in
    let content_range := h_get (rs_Header resp) "Content-Range" in
    let range := h_get (rq_Header req) "Range" in
    (StatusCode resp = 200%Z → Body out = wrapped 0%Z) ∧
    (StatusCode resp = 206%Z →
       content_range = "bytes " +:+ itoa s +:+ "-" +:+ itoa e +:+ "/" +:+ total →
       Body out = wrapped s) ∧
    (StatusCode resp = 206%Z → content_range = "" →
       range = "bytes=" +:+ itoa s +:+ "-" +:+ itoa e → Body out = wrapped s) ∧
    (StatusCode resp = 206%Z → content_range = "" →
       range = "bytes=-" +:+ suffix → Body out = Some (PlainBody b)) ∧
    (StatusCode resp ≠ 200 → StatusCode resp ≠ 206 → Body out = Some (PlainBody b))%Z.
Proof.
  intros Hi Hb Hm Hs He. unfold RoundTrip. rewrite Hi, Hb, (proj2 (Z.leb_gt _ 0)) by done.
  assert (∀ z, (0 ≤ z < 2 ^ 63)%Z → parse_int 10 (itoa z) = Some z) as Hpi
    by (intros z Hz; apply parse_int_itoa; split; lia).
  destruct (itoa_nonneg_digits s) as (S1 & S2 & _); [lia|].
  destruct (itoa_nonneg_digits e) as (E1 & _ & _); [lia|].
  eexists. split; [done|].
  split; [by repeat case_match|]. split; [by repeat case_match|]. split; [by repeat case_match|].
  cbv zeta. unfold orig_start, keep_body. rewrite Hb.
  split_and!.
  - by intros ->.
  - intros -> Hcr. rewrite Hcr. simpl. unfold parseContentRangeStart. rewrite trim_prefix_app.
    change ("-" +:+ itoa e +:+ "/" +:+ total) with (String "-" (itoa e +:+ "/" +:+ total)).
    rewrite index_byte_app by done. rewrite decide_False by (by intros ?%slen_zero).
    by rewrite str_take_app, Hpi.
  - intros -> Hcr Hr. rewrite Hcr, Hr. simpl. unfold parseRange. rewrite trim_prefix_app.
    change ("-" +:+ itoa e) with (String "-" (itoa e)).
    rewrite split_n2_app, decide_False, Hpi, decide_False, Hpi by done. done.
  - intros -> Hcr Hr. by rewrite Hcr, Hr.
  - intros H1 H2. unfold StatusOK, StatusPartialContent.
    by rewrite (proj2 (Z.eqb_neq _ _) H1), (proj2 (Z.eqb_neq _ _) H2).
Qed.

(** ** A concrete transport *)

Definition demo_context {B W} (rt : W → request → outcome (response B) * W)
    : RetryContext (F := SpecFloat.spec_float) (B := B) (W := W) :=
  mkRetryContext (mkSource "default" "svc" "08ada5a7a6183aae1e09d831df6748d566095a10" "/" "/" "" "" "" None)
    None {["default" := mkServiceConfig "svc" "Hash" "Kubernetes" false ∅]}
    (λ _ _ _ _ w, (Ok (mkLocation 8080 0 (ParseIP "10.0.0.2") false), w)) rt rt 3.

Definition demo_partial (content_range : string) : response nat :=
  mkResponse 206 {["Content-Range" := [content_range]]} 100 (Some 7).
Definition demo_range_request (range : string) : request :=
  mkRequest "GET" (mkFull "http" "10.0.0.1:8080" (mkURL "/f" "")) {["Range" := [range]]}.

Definition demo_rt (w : unit) (_ : request) : outcome (response nat) * unit :=
  (Ok (demo_partial "bytes 90-189/1000"), w).

#[local] Existing Instance binary64.

Example resume_offset_spec_witness :
  (Body <$> (RoundTrip demo_rt (Some (demo_context demo_rt)) (demo_range_request "bytes=100-") tt).1)
  = Ok (Some (RetryingBody 90 (mkRrc 7 0 100 3 0 false))).
Proof.
  assert (0 < MaxRetries (demo_context demo_rt))%Z as Hm by (by vm_compute).
  destruct (resume_offset_spec demo_rt (demo_context demo_rt)
    (demo_range_request "bytes=100-") tt (demo_partial "bytes 90-189/1000") 7 tt 90 189 "1000" ""
    eq_refl eq_refl Hm ltac:(lia) ltac:(lia))
    as (out & E & _ & _ & _ & _ & Hcr & _).
  rewrite E. exact (f_equal Ok (Hcr eq_refl eq_refl)).
Defined.
