(* ===== verification/RetryTransportSpec.v ===== *)
(** * The retry request and the stream a client reads through a retry

    The URL that [reconnectFn] builds is the request's own when path and query
    are plain, and then the pods' promises become the laws of [RetryReader]: a
    proxied range is delivered unchanged across reconnects. *)

From Stdlib Require SpecFloat QArith.
From S2P Require Import Prelude GoStrings GoUrl GoNet GoFloat GoHttp Claims.
From S2P Require Import ServicesConfig UrlParser LazyMap K8s ServiceLocation HttpProxy RetryReader RetryTransport.

(** ** Bytes of a string *)

Lemma all_bytes_app f s t : all_bytes f (s +:+ t) = all_bytes f s && all_bytes f t.
Proof. induction s as [|c s IH]; [done|]. simpl. by rewrite IH, andb_assoc. Qed.

Lemma all_bytes_impl (f g : ascii → bool) s :
  (∀ c, f c = true → g c = true) → all_bytes f s = true → all_bytes g s = true.
Proof.
  intros Hfg. induction s as [|c s IH]; [done|]. simpl.
  intros [Hc Hs]%andb_true_iff. by rewrite Hfg, IH.
Qed.

Lemma all_bytes_occurs f c s : f c = false → all_bytes f s = true → occurs c s = false.
Proof.
  intros Hf. induction s as [|d s IH]; [done|]. simpl. intros [Hd Hs]%andb_true_iff.
  rewrite IH by done. case_bool_decide; [by subst; congruence|done].
Qed.

Lemma all_bytes_join f sep ws :
  all_bytes f sep = true → Forall (λ w, all_bytes f w = true) ws → all_bytes f (join sep ws) = true.
Proof.
  intros Hsep. induction 1 as [|w ws Hw Hws IH]; [done|]. destruct ws as [|v ws]; [done|].
  change (join sep (w :: v :: ws)) with (w +:+ sep +:+ join sep (v :: ws)).
  by rewrite !all_bytes_app, Hw, Hsep, IH.
Qed.

Lemma itoa_digits z : (0 ≤ z)%Z → itoa z ≠ "" ∧ all_bytes is_digit (itoa z) = true.
Proof.
  intros Hz. destruct z as [|q|q]; [done| |lia]. change (itoa (Z.pos q)) with (pretty (N.pos q)).
  by destruct (pretty_N_digits (N.pos q)) as (ch & s & -> & Hd).
Qed.

(** A number of any sign prints as digits and minus signs. *)
Definition int_byte (c : ascii) : bool := is_digit c || bool_decide (c = "-"%char).
Lemma itoa_bytes z : itoa z ≠ "" ∧ all_bytes int_byte (itoa z) = true.
Proof.
  assert (∀ s, all_bytes is_digit s = true → all_bytes int_byte s = true) as Himpl
    by (intros s; apply all_bytes_impl; unfold int_byte; by intros c ->).
  destruct (decide (0 ≤ z)%Z) as [Hz|Hz]; [destruct (itoa_digits z Hz); auto|].
  destruct z as [|q|q]; [lia..|]. change (itoa (Z.neg q)) with (String "-" (pretty (N.pos q))).
  split; [done|]. simpl. apply Himpl. by destruct (pretty_N_digits (N.pos q)) as (ch & s & -> & Hd).
Qed.
Lemma itoa_all_digits z : all_bytes is_digit (itoa z) = (0 <=? z)%Z.
Proof.
  destruct (Z.leb_spec 0 z) as [Hz|Hz]; [by apply itoa_digits|]. by destruct z as [|q|q]; [lia..|].
Qed.

Lemma pretty_N_all_digits (n : N) : all_bytes is_digit (pretty n) = true.
Proof. by destruct (pretty_N_digits n) as (ch & s & -> & Hd). Qed.

(** ** Addresses print as plain hosts *)

Definition addr_byte (c : ascii) : bool := in_range 48 57 c || in_range 97 122 c || occurs c ".:<>-".

Lemma digit_addr c : is_digit c = true → addr_byte c = true.
Proof. unfold is_digit, addr_byte. by intros ->. Qed.

Lemma hex_char_addr n : (n < 16)%N → addr_byte (hex_char n) = true.
Proof.
  intros Hn.
  assert (forallb (λ n, addr_byte (hex_char n)) (map N.of_nat (seq 0 16)) = true) as Hf by (by vm_compute).
  rewrite forallb_forall in Hf. apply Hf. apply in_map_iff. exists (N.to_nat n).
  split; [lia|]. apply in_seq. lia.
Qed.

Lemma show_hex_addr w : all_bytes addr_byte (show_hex w) = true.
Proof.
  assert (∀ l, Forall (λ n, n < 16)%N l →
    all_bytes addr_byte (foldr (λ n s, String (hex_char n) s) "" l) = true) as Hfold.
  { induction 1 as [|n l Hn _ IH]; [done|]. simpl. by rewrite hex_char_addr, IH. }
  unfold show_hex. apply Hfold.
  assert (∀ k, (w / 16 ^ k) `mod` 16 < 16)%N as Hd by (intros k; by apply N.mod_lt).
  pose proof (Hd 0%N). pose proof (Hd 1%N). pose proof (Hd 2%N). pose proof (Hd 3%N).
  simpl. repeat case_match; repeat constructor; congruence.
Qed.

Lemma IP_String_addr ip : all_bytes addr_byte (IP_String ip) = true.
Proof.
  destruct ip as [ip|]; [|done]. simpl. destruct (To4 ip) as [q|].
  - unfold show_v4. apply all_bytes_join; [done|]. apply Forall_map, Forall_true. intros n.
    apply (all_bytes_impl is_digit); [apply digit_addr|apply pretty_N_all_digits].
  - unfold show_v6. destruct (best_run _ _ _) as [start n].
    assert (∀ ws, all_bytes addr_byte (join ":" (map show_hex ws)) = true) as Hj.
    { intros ws. apply all_bytes_join; [done|]. apply Forall_map, Forall_true. apply show_hex_addr. }
    case_decide; [apply Hj|]. by rewrite !all_bytes_app, !Hj.
Qed.

(** [host:port] as the program prints it *)
Definition host_port (ip : option IP) (port : Z) : string := IP_String ip +:+ ":" +:+ itoa port.

Lemma addr_occurs c s : addr_byte c = false → all_bytes addr_byte s = true → occurs c s = false.
Proof. apply all_bytes_occurs. Qed.

Lemma host_port_addr ip port : all_bytes addr_byte (host_port ip port) = true.
Proof.
  unfold host_port. rewrite !all_bytes_app, IP_String_addr. simpl.
  apply (all_bytes_impl int_byte); [|apply itoa_bytes]. intros c [Hc|Hc]%orb_true_iff.
  - by apply digit_addr.
  - by apply bool_decide_eq_true in Hc as ->.
Qed.

Lemma host_port_last ip port : last_index (host_port ip port) ":" = Some (slen (IP_String ip)).
Proof.
  apply last_index_Some. exists (IP_String ip), (itoa port). split; [done|].
  split; [done|]. apply (all_bytes_occurs int_byte); [done|]. apply itoa_bytes.
Qed.

Lemma no_bracket s : all_bytes addr_byte s = true → has_prefix s "[" = false.
Proof.
  destruct s as [|c s]; [done|]. simpl. intros [Hc _]%andb_true_iff.
  case_bool_decide; [by subst|done].
Qed.

Lemma parse_host_port ip port :
  parse_host (host_port ip port) = if (0 <=? port)%Z then Some (host_port ip port) else None.
Proof.
  pose proof (host_port_addr ip port) as Ha. unfold parse_host.
  rewrite no_bracket, host_port_last by done. unfold host_port at 1. rewrite str_drop_app.
  change (optional_port (":" +:+ itoa port)) with (all_bytes is_digit (itoa port)).
  rewrite itoa_all_digits, (all_bytes_impl addr_byte host_byte); [by rewrite andb_true_r| |done].
  intros c. unfold addr_byte, host_byte. simpl. rewrite !orb_true_iff. tauto.
Qed.

Lemma host_port_kept ip port : remove_empty_port (host_port ip port) = host_port ip port.
Proof.
  unfold remove_empty_port. rewrite host_port_last.
  destruct (itoa_bytes port) as [Hne _].
  assert ((S (slen (IP_String ip)) =? slen (host_port ip port)) = false) as ->; [|by rewrite andb_false_r].
  apply Nat.eqb_neq. unfold host_port. rewrite !slen_app. simpl.
  destruct (itoa port); [done|simpl; lia].
Qed.

(** ** The retry URL *)

(** A path, and a query, that the URL they are spliced into gives back. *)
Definition path_byte (c : ascii) : bool := negb (ctl_byte c) && negb (occurs c "?%#").
Definition query_byte (c : ascii) : bool := negb (ctl_byte c) && negb (occurs c "#").
Definition plain_url (u : URL) : Prop :=
  has_prefix (url_path u) "/" = true ∧ all_bytes path_byte (url_path u) = true ∧
  all_bytes query_byte (url_raw_query u) = true.

#[export] Instance plain_url_dec u : Decision (plain_url u).
Proof. unfold plain_url. apply _. Defined.

Lemma cut_or_none s c : occurs c s = false → cut_or s c = (s, "").
Proof. unfold cut_or. intros H. by rewrite (proj2 (cut_None s c) H). Qed.
Lemma cut_or_app a b c : occurs c a = false → cut_or (a +:+ String c b) c = (a, b).
Proof.
  intros H. unfold cut_or. pose proof (split_n2_app a b c H) as Hs. unfold split_n2 in Hs.
  destruct (cut (a +:+ String c b) c) as [[x y]|]; by simplify_eq.
Qed.

Lemma path_unescape_plain s : all_bytes path_byte s = true → path_unescape s = Some s.
Proof.
  induction s as [|c s IH]; [done|]. cbn [all_bytes path_unescape].
  intros [Hc Hs]%andb_true_iff. rewrite bool_decide_eq_false_2 by (by intros ->).
  by rewrite IH.
Qed.

Lemma byte_classes c :
  (addr_byte c = true → path_byte c = true) ∧ (path_byte c = true → query_byte c = true).
Proof.
  destruct c as [[] [] [] [] [] [] [] []]; by vm_compute.
Qed.

Lemma url_Parse_spliced ip port u :
  plain_url u →
  url_Parse ("http://" +:+ host_port ip port +:+ url_path u +:+ "?" +:+ url_raw_query u)
    = if (0 <=? port)%Z then Some (mkFull "http" (host_port ip port) u) else None.
Proof.
  destruct u as [path q]. intros (Hroot & Hpath & Hq).
  cbn [url_path url_raw_query] in *.
  set (host := host_port ip port).
  assert (all_bytes addr_byte host = true) as Hhost by (by apply host_port_addr).
  assert (all_bytes path_byte host = true) as Hhost'
    by (eapply all_bytes_impl; [apply byte_classes|done]).
  apply has_prefix_spec in Hroot as [p ->].
  change ("/" +:+ p) with (String "/" p) in *.
  assert (all_bytes query_byte ("http://" +:+ host +:+ String "/" p +:+ "?" +:+ q) = true) as Hall.
  { rewrite !all_bytes_app, Hq.
    rewrite (all_bytes_impl _ query_byte host (λ c, proj2 (byte_classes c)) Hhost').
    by rewrite (all_bytes_impl _ query_byte _ (λ c, proj2 (byte_classes c)) Hpath). }
  unfold url_Parse. rewrite cut_or_none by (by apply (all_bytes_occurs query_byte)).
  rewrite (all_bytes_impl query_byte (λ c, negb (ctl_byte c))); [|by intros c [? _]%andb_true_iff|done].
  cbn [negb]. rewrite !decide_False by done.
  change (get_scheme ("http://" +:+ host +:+ String "/" p +:+ "?" +:+ q))
    with (Some ("http", "//" +:+ host +:+ String "/" p +:+ "?" +:+ q)).
  cbn [mbind option_bind].
  assert ("//" +:+ host +:+ String "/" p +:+ "?" +:+ q
          = ("//" +:+ host +:+ String "/" p) +:+ String "?" q) as -> by (by rewrite <-!str_app_assoc).
  rewrite cut_or_app.
  2:{ apply (all_bytes_occurs path_byte); [done|]. by rewrite !all_bytes_app, Hhost', Hpath. }
  set (rest := "//" +:+ host +:+ String "/" p).
  change (has_prefix rest "/") with true. change (has_prefix rest "//") with true.
  change (str_drop 2 rest) with (host +:+ String "/" p).
  cbn [negb andb bool_decide]. rewrite (index_byte_app "/" host p) by (by apply (addr_occurs "/")).
  rewrite str_take_app, str_drop_app. cbn [negb orb andb].
  unfold parse_authority.
  rewrite (proj2 (last_index_None host "@")) by (by apply (addr_occurs "@")).
  unfold host at 1. rewrite parse_host_port. fold host.
  change (negb (bool_decide (str_map lower_byte "http" = ""))) with true. cbn [orb andb mbind option_bind].
  destruct (0 <=? port)%Z; [|done]. cbn [mbind option_bind].
  by rewrite (path_unescape_plain (String "/" p)) by done.
Qed.

(** ** The retry request *)

Definition copy_header (src : Header) (h : Header) (k : string) : Header :=
  let v := h_get src k in if decide (v ≠ "") then h_set h k v else h.

Lemma h_get_canonical h k k' : canonical k = canonical k' → h_get h k = h_get h k'.
Proof. unfold h_get. by intros ->. Qed.

Lemma copy_headers_get src ks h k :
  h_get (foldl (copy_header src) h ks) k =
    if decide (canonical k ∈ canonical <$> ks ∧ h_get src k ≠ "") then h_get src k else h_get h k.
Proof.
  revert h. induction ks as [|k' ks IH]; intros h; cbn [foldl fmap list_fmap].
  - rewrite decide_False; [done|]. intros [?%not_elem_of_nil _]. done.
  - rewrite IH. destruct (decide (canonical k ∈ canonical <$> ks ∧ h_get src k ≠ "")) as [D|D].
    + rewrite decide_True; [done|]. split; [right; apply D|apply D].
    + unfold copy_header. destruct (decide (canonical k = canonical k')) as [E|E].
      * rewrite <-(h_get_canonical src _ _ E). case_decide as Hv.
        -- rewrite h_get_set, !decide_True; [done|by rewrite E; split; [left|]|done].
        -- rewrite decide_False; [done|]. by intros [_ ?].
      * rewrite (decide_False (P := canonical k ∈ canonical k' :: _ ∧ _)).
        2:{ intros [[?|?]%elem_of_cons ?]; [done|by apply D]. }
        case_decide; [|done]. by rewrite h_get_set, decide_False.
Qed.

(** A request for the resource of [req] on another host, from an offset. *)
Definition same_resource (req : request) (host : string) (n : Z) (r : request) : Prop :=
  rq_URL r = mkFull "http" host (u_url (rq_URL req)) ∧
  Method r = (if decide (Method req = "") then "GET" else Method req) ∧
  h_get (rq_Header r) "Range" = "bytes=" +:+ itoa n +:+ "-" ∧
  ∀ k, canonical k ≠ "Range" → h_get (rq_Header r) k =
    if decide (canonical k ∈ canonical <$> copied_headers) then h_get (rq_Header req) k else "".

Lemma retry_request_cases req ip port n :
  plain_url (u_url (rq_URL req)) →
  match retry_request req (host_port ip port) n with
  | Some r => same_resource req (host_port ip port) n r
  | None => (port < 0)%Z
  end.
Proof.
  intros Hu. unfold retry_request, NewRequest. rewrite url_Parse_spliced by done.
  destruct (Z.leb_spec 0 port); [|done].
  cbn [mbind option_bind u_scheme u_host u_url Method rq_URL rq_Header].
  unfold same_resource. cbn [Method rq_URL rq_Header].
  split; [by rewrite host_port_kept|]. split; [done|].
  split; [by rewrite h_get_set, decide_True|].
  intros k Hk. rewrite h_get_set, decide_False by (by intros E; apply Hk; rewrite <-E).
  rewrite (copy_headers_get (rq_Header req) copied_headers ∅ k).
  change (h_get ∅ k) with "". case_decide as D.
  - by rewrite decide_True by apply D.
  - case_decide as D'; [|done]. symmetry. apply dec_stable. intros ?. by apply D.
Qed.

(** C17: the retry goes for the same resource.  For a plain path and query, and
    whatever pod the resolver names, the retry request can be built; it asks
    that pod for the same path and query with the same method, from the resume
    offset to the end; it carries the listed headers of the request with their
    values and no other header. *)
Theorem retry_same_resource req ip port n :
  (0 ≤ port)%Z → plain_url (u_url (rq_URL req)) →
  ∃ r, retry_request req (host_port ip port) n = Some r ∧
    rq_URL r = mkFull "http" (host_port ip port) (u_url (rq_URL req)) ∧
    Method r = (if decide (Method req = "") then "GET" else Method req) ∧
    h_get (rq_Header r) "Range" = "bytes=" +:+ itoa n +:+ "-" ∧
    ∀ k, canonical k ≠ "Range" → h_get (rq_Header r) k =
      if decide (canonical k ∈ canonical <$> copied_headers) then h_get (rq_Header req) k else "".
Proof.
  intros Hp Hu. pose proof (retry_request_cases req ip port n Hu) as Hc.
  destruct (retry_request _ _ _) as [r|]; [|lia]. by exists r.
Qed.

Definition demo_retry_request (path : string) : request :=
  mkRequest "GET" (mkFull "http" "10.0.0.1:8080" (mkURL path "token=t"))
    {["X-Info-Hash" := ["08ada5a7a6183aae1e09d831df6748d566095a10"]; "Cookie" := ["c=1"];
      "Range" := ["bytes=0-99"]]}.

Example retry_same_resource_witness :
  ∃ r, retry_request (demo_retry_request "/08ada5a7a6183aae1e09d831df6748d566095a10/Sintel (2010).mp4")
         "10.0.0.2:8080" 50 = Some r ∧ h_get (rq_Header r) "Range" = "bytes=50-" ∧
       h_get (rq_Header r) "Cookie" = "".
Proof.
  destruct (retry_same_resource
    (demo_retry_request "/08ada5a7a6183aae1e09d831df6748d566095a10/Sintel (2010).mp4")
    (ParseIP "10.0.0.2") 8080 50 ltac:(done) ltac:(by vm_compute)) as (r & E & _ & _ & Hr & Hh).
  exists r. split; [exact E|]. split; [exact Hr|]. exact (Hh "Cookie" ltac:(by vm_compute)).
Defined.

(** What the retry request becomes for other file names.  The decoded path
    is spliced into the URL text: a question mark in a file name cuts the path
    (the retry asks for another file, which an upstream that has it answers
    with 206), and a percent sign that is not an escape makes every retry
    fail. *)
Example retry_path_spliced :
  (rq_URL <$> retry_request (demo_retry_request "/h/what?.mp4") "10.0.0.2:8080" 50)
    = Some (mkFull "http" "10.0.0.2:8080" (mkURL "/h/what" ".mp4?token=t")) ∧
  (rq_URL <$> retry_request (demo_retry_request "/h/a%20b.mp4") "10.0.0.2:8080" 50)
    = Some (mkFull "http" "10.0.0.2:8080" (mkURL "/h/a b.mp4" "token=t")) ∧
  retry_request (demo_retry_request "/h/100% live.mp4") "10.0.0.2:8080" 50 = None.
Proof. by vm_compute. Qed.

(** ** The stream through the retrying transport *)

Section resumed.
Context {F : Type} `{GoFloat F} {B W : Type}.
Context (body_read : B → nat → string * option ioerr * B).
Context (body_close : B → option ioerr * B).
Context (close_body : W → B → W).
Context (rc : RetryContext (F := F) (B := B) (W := W)) (req : request).

(** The file of the request, and the bodies that serve it from an offset. *)
Context (file : string) (serves : B → nat → Prop).

Abbreviation inner := (redirect_RoundTrip close_body (rt_Transport rc) (rt_ExternalTransport rc)).

(** What the pods promise for this resource: a 206 to [bytes=n-] serves the
    file from byte [n]; a body that ends, ends where the file does; a 416 that
    states a size states the file's. *)
Class HonestPods : Prop := {
  hp_size : (Z.of_nat (slen file) < 2 ^ 63)%Z;
  hp_read b k n d e b' :
    serves b k → body_read b n = (d, e, b') →
    has_prefix (str_drop k file) d = true ∧ serves b' (k + slen d);
  hp_eof b k n d b' :
    serves b k → body_read b n = (d, Some EOF, b') → k + slen d = slen file;
  hp_close b k : serves b k → serves (body_close b).2 k;
  hp_partial w q resp w' n b :
    inner w q = (Ok resp, w') → u_url (rq_URL q) = u_url (rq_URL req) →
    n ≤ slen file → h_get (rq_Header q) "Range" = "bytes=" +:+ itoa (Z.of_nat n) +:+ "-" →
    StatusCode resp = 206%Z → Body resp = Some b → serves b n;
  hp_unsatisfiable w q resp w' t :
    inner w q = (Ok resp, w') → u_url (rq_URL q) = u_url (rq_URL req) →
    StatusCode resp = 416%Z →
    parse_int 10 (trim_prefix (h_get (rs_Header resp) "Content-Range") "bytes */") = Some t →
    t = Z.of_nat (slen file)
}.

Context (start : nat) (Hstart : start ≤ slen file).
Abbreviation rest := (str_drop start file).
Abbreviation serves_rest := (λ b k, serves b (start + k)).

Lemma int64_offset `{HonestPods} k :
  k ≤ slen rest → int64 (Z.of_nat start + Z.of_nat k) = Z.of_nat (start + k).
Proof.
  intros Hk. rewrite slen_drop in Hk. pose proof hp_size.
  rewrite <-Nat2Z.inj_add. apply wrap_s_small; [lia|]. split; lia.
Qed.

(** The one place where a reconnect gets its answer. *)
Lemma reconnectFn_inv `{HonestPods} (w w' : string * W) k res :
  plain_url (u_url (rq_URL req)) → k ≤ slen rest →
  reconnectFn close_body rc req (Z.of_nat start) w (Z.of_nat k) = (res, w') →
  (res = inr ReconnFailed ∨ ∃ p, res = inr (ReconnPanic p)) ∨
  ∃ w1 q resp w2, inner w1 q = (Ok resp, w2) ∧ u_url (rq_URL q) = u_url (rq_URL req) ∧
    h_get (rq_Header q) "Range" = "bytes=" +:+ itoa (Z.of_nat (start + k)) +:+ "-" ∧
    ((res = inr errUpstreamEOF ∧ StatusCode resp = 416%Z ∧
      parse_int 10 (trim_prefix (h_get (rs_Header resp) "Content-Range") "bytes */")
        = Some (Z.of_nat (start + k))) ∨
     (∃ b, res = inl b ∧ StatusCode resp = 206%Z ∧ Body resp = Some b)).
Proof.
  intros Hu Hk. unfold reconnectFn. destruct w as [host w].
  rewrite (int64_offset k) by done.
  destruct (retry_config rc) as [cfg|]; [|intros [= <- _]; by auto].
  destruct (rt_GetFallback _ _ _ _ _ _) as [[loc| |] w1] eqn:Ef; [|intros [= <- _]; by eauto..].
  pose proof (retry_request_cases req (loc_IP loc) (HTTP loc) (Z.of_nat (start + k)) Hu) as Hc.
  change (IP_String (loc_IP loc) +:+ ":" +:+ itoa (HTTP loc)) with (host_port (loc_IP loc) (HTTP loc)).
  destruct (retry_request _ _ _) as [q|]; [|intros [= <- _]; by auto].
  destruct Hc as (Hq & _ & Hr & _). destruct (inner w1 q) as [[resp| |] w2] eqn:Ei; [|intros [= <- _]; by eauto..].
  destruct (Body resp) as [b|] eqn:Eb; [|intros [= <- _]; by eauto].
  intros Hres. cbv zeta in Hres.
  destruct (Z.eqb_spec (StatusCode resp) StatusRequestedRangeNotSatisfiable) as [E4|_].
  - case_bool_decide as Et; injection Hres as <- _; [|by auto].
    right. exists w1, q, resp, w2. split; [done|]. split; [by rewrite Hq|]. split; [done|]. by left.
  - destruct (Z.eqb_spec (StatusCode resp) StatusPartialContent) as [E2|_]; simpl in Hres;
      [|injection Hres as <- _; by auto].
    injection Hres as <- _.
    right. exists w1, q, resp, w2. split; [done|]. split; [by rewrite Hq|]. split; [done|].
    right. by exists b.
Qed.

Context (Hu : plain_url (u_url (rq_URL req))).

Lemma pods_upstream `{HonestPods} :
  Upstream body_read body_close (reconnectFn close_body rc req (Z.of_nat start)) rest serves_rest.
Proof using Hu Hstart.
  split.
  - rewrite slen_drop. pose proof hp_size. lia.
  - intros b k n d e b' Hs Hr. destruct (hp_read _ _ _ _ _ _ Hs Hr) as [Hp Hs'].
    by rewrite <-str_drop_add, Nat.add_assoc.
  - intros b k. apply hp_close.
  - intros w k b w' Hk Hr.
    destruct (reconnectFn_inv _ _ _ _ Hu Hk Hr)
      as [[|[]]|(w1 & q & resp & w2 & Hi & Hq & Hn & [(?&_)|(b' & Hb & H2 & Hbody)])]; [done..|].
    simplify_eq. rewrite slen_drop in Hk. eapply hp_partial; [done|done| |done..]. lia.
Qed.

Lemma pods_honest `{HonestPods} total :
  (0 ≤ total → total = Z.of_nat (slen file - start))%Z →
  HonestEnd body_read (reconnectFn close_body rc req (Z.of_nat start)) rest serves_rest total.
Proof using Hu Hstart.
  intros Ht. split.
  - intros b k n d b' Hs Hr. pose proof (hp_eof _ _ _ _ _ Hs Hr). rewrite slen_drop. lia.
  - intros w k w' Hk Hr.
    destruct (reconnectFn_inv _ _ _ _ Hu Hk Hr)
      as [[|[]]|(w1 & q & resp & w2 & Hi & Hq & Hn & [(_ & H4 & Hp)|(b' & Hb & _)])]; [done|done| |done].
    pose proof (hp_unsatisfiable _ _ _ _ _ Hi Hq H4 Hp). rewrite slen_drop in *. lia.
  - intros Hpos. rewrite slen_drop. by apply Ht.
Qed.

(** A client's download through the retrying transport.  The upstream
    answered with a body that serves the file from [start] and the transport
    wrapped it for that offset; if the other pods keep to what HTTP says of
    [bytes=n-] for this resource, then whatever connections break and however
    the client reads, it receives the file from [start] on, byte for byte, and
    when it sees the end it has the file to its end. *)
Theorem resumed_stream (rt : W → request → outcome (response B) * W) w resp b w1 out r
    ws ps outs r' ws' :
  HonestPods →
  rt w req = (Ok resp, w1) → Body resp = Some b → serves b start →
  (0 ≤ ContentLength resp → ContentLength resp = Z.of_nat (slen file - start))%Z →
  RoundTrip rt (Some rc) req w = (Ok out, w1) →
  Body out = Some (RetryingBody (Z.of_nat start) r) →
  reads body_read body_close (reconnectFn close_body rc req (Z.of_nat start)) r ws ps = (outs, r', ws') →
  let got := concat_str outs.*1 in
  file = str_take start file +:+ got +:+ str_drop (start + slen got) file ∧
  (∀ p d r'' ws'',
     Read body_read body_close (reconnectFn close_body rc req (Z.of_nat start)) r' ws' p
       = (d, Some EOF, r'', ws'') → file = str_take start file +:+ got +:+ d).
Proof using Hu Hstart.
  intros Hp Hi Hb Hs Hl Hrt Hout Hr got.
  assert (r = mkRrc b 0 (ContentLength resp) (MaxRetries rc) 0 false) as ->.
  { unfold RoundTrip in Hrt. rewrite Hi, Hb in Hrt. injection Hrt as <-.
    unfold keep_body in Hout. rewrite Hb in Hout.
    repeat (case_match; simpl in Hout; try done). by injection Hout. }
  pose proof pods_upstream as Hup.
  assert (at_offset rest serves_rest (mkRrc b 0 (ContentLength resp) (MaxRetries rc) 0 false) 0)
    as Ha by (split; [by rewrite Nat.add_0_r|done|lia]).
  destruct (reads_at _ _ _ _ _ _ _ _ _ _ _ _ Ha Hr) as (Hpre & Ha' & X). fold got in Hpre, Ha'.
  rewrite str_drop_0 in Hpre. apply has_prefix_spec in Hpre as [t Ht].
  assert (str_drop (start + slen got) file = t) as Htail
    by (by rewrite str_drop_add, Ht, str_drop_app).
  split; [by rewrite Htail, <-Ht, take_drop_str|].
  intros p d r'' ws'' HR.
  destruct (Read_at _ _ _ _ _ _ _ _ _ _ _ _ _ Ha' HR) as (Hp2 & _ & _ & He).
  rewrite X in He. specialize (He (pods_honest _ Hl) eq_refl).
  rewrite Nat.add_0_l, <-str_drop_add, Htail in Hp2. apply has_prefix_spec in Hp2 as [u Hu2].
  assert (u = "") as ->.
  { apply slen_zero. apply (f_equal slen) in Ht. rewrite Ht, Hu2, !slen_app in He. lia. }
  rewrite str_app_nil_r in Hu2. by rewrite <-Hu2, <-Ht, take_drop_str.
Qed.

End resumed.

(** ** Pods that serve a file over breaking connections *)

#[local] Existing Instance binary64.

(** A pod answers an open range with 206 (the connection breaks where the world
    says), an offset past the end with 416, and everything else with 400. *)
Definition pod (w : list nat) (q : request) : outcome (response flaky) * list nat :=
  match parseRange (h_get (rq_Header q) "Range") with
  | Some (n, None) =>
      if (n <? 10)%Z
      then (Ok (mkResponse 206 ∅ (10 - n) (Some (mkFlaky (str_drop (Z.to_nat n) demo_obj) (head w)))), tail w)
      else (Ok (mkResponse 416 {["Content-Range" := ["bytes */10"]]} 0 None), w)
  | _ => (Ok (mkResponse 400 ∅ 0 None), w)
  end.

Definition demo_rc := demo_context pod.

Lemma parseRange_open n :
  (0 ≤ n < 2 ^ 63)%Z → parseRange ("bytes=" +:+ itoa n +:+ "-") = Some (n, None).
Proof.
  intros Hn. destruct (itoa_nonneg_digits n) as (N1 & N2 & _); [lia|].
  unfold parseRange. rewrite trim_prefix_app, split_n2_app, decide_False by done.
  rewrite parse_int_itoa by (split; lia). done.
Qed.

Lemma pod_direct w q : redirect_RoundTrip (λ w _, w) pod pod w q = pod w q.
Proof.
  unfold redirect_RoundTrip, pod. by repeat case_match; simplify_eq.
Qed.

Lemma demo_pods_honest req :
  HonestPods flaky_read flaky_close (λ w _, w) demo_rc req demo_obj flaky_serves.
Proof.
  split.
  - by vm_compute.
  - intros b k n d e b' Hs Hr. pose proof flaky_upstream as Hup. by eapply (up_read _ _ _ _ _ _).
  - intros b k n d b' Hs Hr.
    pose proof (flaky_honest (-1) (or_introl eq_refl)) as Hh. by eapply (he_read _ _ _ _ _).
  - done.
  - intros w q resp w' n b Hi _ Hn Hr H2 Hb. rewrite pod_direct in Hi. unfold pod in Hi.
    simpl in Hn. rewrite Hr, parseRange_open in Hi by lia. case_match; simplify_eq/=.
    split; [by rewrite Nat2Z.id|done].
  - intros w q resp w' t Hi _ H4 Hp. rewrite pod_direct in Hi. unfold pod in Hi.
    repeat case_match; simplify_eq/=. by vm_compute in Hp; simplify_eq.
Qed.

(** The client asks for the file from byte 2; the first connection breaks after
    three bytes, the second after one. *)
Definition demo_resp : response flaky :=
  mkResponse 206 {["Content-Range" := ["bytes 2-9/10"]]} 8
    (Some (mkFlaky (str_drop 2 demo_obj) (Some 3))).
Definition demo_first (w : list nat) (_ : request) : outcome (response flaky) * list nat :=
  (Ok demo_resp, w).
Definition demo_out : retryingReadCloser flaky :=
  mkRrc (mkFlaky (str_drop 2 demo_obj) (Some 3)) 0 8 3 0 false.
Definition demo_outs :=
  reads flaky_read flaky_close (reconnectFn (λ w _, w) demo_rc (demo_retry_request "/f") 2)
    demo_out ("10.0.0.1:8080", [1]) [4; 4; 4; 4].

Example resumed_stream_witness :
  demo_outs.1.1 = [("234", None); ("5", None); ("6789", None); ("", Some EOF)] ∧
  demo_obj = "01" +:+ concat_str demo_outs.1.1.*1 +:+ "".
Proof.
  assert (2 ≤ slen demo_obj) as Hs by (by vm_compute; lia).
  assert (plain_url (u_url (rq_URL (demo_retry_request "/f")))) as Hu by (by vm_compute).
  assert (flaky_serves (mkFlaky (str_drop 2 demo_obj) (Some 3)) 2) as Hf by done.
  assert (RoundTrip demo_first (Some demo_rc) (demo_retry_request "/f") [1]
    = (Ok (mkResponse 206 (rs_Header demo_resp) 8 (Some (RetryingBody 2 demo_out))), [1])) as Ht
    by (by vm_compute).
  assert (demo_outs = (demo_outs.1.1, demo_outs.1.2, demo_outs.2)) as E 
    by (generalize demo_outs; by intros [[]]).
  assert (demo_outs.1.1 = [("234", None); ("5", None); ("6789", None); ("", Some EOF)]) as Ho
    by (by vm_compute).
  split; [exact Ho|].
  destruct (resumed_stream flaky_read flaky_close (λ w _, w) demo_rc (demo_retry_request "/f")
    demo_obj flaky_serves 2 Hs Hu demo_first [1] demo_resp (mkFlaky (str_drop 2 demo_obj) (Some 3)) [1]
    _ demo_out ("10.0.0.1:8080", [1]) [4; 4; 4; 4] demo_outs.1.1 demo_outs.1.2 demo_outs.2
    (demo_pods_honest _) eq_refl eq_refl Hf (λ _, eq_refl) Ht eq_refl E) as [Hfile _].
  rewrite Ho in Hfile |- *. exact Hfile.
Defined.
