(* ===== verification/HybridBucket.v ===== *)
(** * services/hybrid_bucket.go: the bandwidth limiter

    The Lua script that Redis runs, [HybridBucket] and its [Wait] as the atomic
    sections that goroutines interleave, the probe goroutine, and the pool.
    One world holds the bucket, the key in Redis, the clock (nanoseconds) and
    the goroutines; an [action] is a choice of the scheduler or the network. *)

From S2P Require Import Prelude GoStrings GoFloat Claims LazyMap.

Section bucket.
Context {F : Type} `{GoFloat F}.

(** What reading a number back gives that Lua's [tostring] printed. *)
Context (tostr : F → F).

(** ** The script *)

Record redis_hash := mkHash { tokens : F; last_tick : F }.

Definition luaTokenBucket (h : option redis_hash) (cap rate req now : Z) : F * redis_hash :=
  let '(cap, rate, req, now) := (of_int cap, of_int rate, of_int req, of_int now) in
  let toks := match h with Some h => tokens h | None => cap end in
  let lastTick := match h with Some h => last_tick h | None => now end in
  let elapsed := fdiv (fsub now lastTick) (of_int 1000) in
  let toks :=
    if flt f0 elapsed
    then let t := fadd toks (fmul elapsed rate) in if flt cap t then cap else t
    else toks in
  let '(granted, toks) :=
    if fle req toks then (req, fsub toks req)
    else if flt f0 toks then (toks, f0) else (f0, toks) in
  (tostr granted, mkHash (tostr toks) (tostr now)).

(** The key in Redis with the millisecond its TTL of 300 s ends at. *)
Definition redis_key : Type := option (redis_hash * Z).
Definition redis_lookup (k : redis_key) (now_ms : Z) : option redis_hash :=
  match k with
  | Some (h, expires) => if (now_ms <? expires)%Z then Some h else None
  | None => None
  end.
Definition ttl_ms : Z := 300 * 1000.

(** ** The bucket *)

(** [rc] says whether a Redis client is configured. *)
Record HybridBucket := mkBucket {
  local : F;
  rate : F;
  capacity : F;
  lastRefill : Z;
  rc : bool;
  redisKey : string;
  redisOK : bool;
  probing : bool
}.

Definition NewHybridBucket (now : Z) (rate capacity : F) (rc : bool) (sessionID : string)
    : HybridBucket :=
  mkBucket f0 rate capacity now rc ("bw:limit:" +:+ sessionID) rc false.

Definition set_local (hb : HybridBucket) (l : F) : HybridBucket :=
  mkBucket l (rate hb) (capacity hb) (lastRefill hb) (rc hb) (redisKey hb) (redisOK hb) (probing hb).
Definition set_redis (hb : HybridBucket) (ok probe : bool) : HybridBucket :=
  mkBucket (local hb) (rate hb) (capacity hb) (lastRefill hb) (rc hb) (redisKey hb) ok probe.

(** [d.Seconds()] *)
Definition seconds (d : Z) : F :=
  fadd (of_int (Z.quot d (10 ^ 9))) (fdiv (of_int (Z.rem d (10 ^ 9))) (of_int (10 ^ 9))).

(** The local accrual of [Wait]. *)
Definition accrue (now : Z) (hb : HybridBucket) : HybridBucket :=
  let elapsed := seconds (now - lastRefill hb) in
  if flt f0 elapsed then
    let l := fadd (local hb) (fmul elapsed (rate hb)) in
    mkBucket (if flt (capacity hb) l then capacity hb else l) (rate hb) (capacity hb) now (rc hb)
      (redisKey hb) (redisOK hb) (probing hb)
  else hb.

(** ** Goroutines *)

(** Where a call of [Wait] is: before its first lock; about to read the clock
    for a call of the script; that call on its way to Redis, with the time in
    milliseconds that was read; about to mark Redis unavailable; about to bank
    what it was granted too much; about to read [redisOK]; asleep until a time;
    returned. *)
Inductive pc :=
  | WStart
  | WPoll (need : F)
  | WCall (need : F) (nowMs : Z)
  | WFailed (need : F)
  | WBank (extra : F)
  | WCheck (need : F)
  | WSleep (until : Z) (need : F)
  | WLastSleep (until : Z)
  | WDone.

Record waiter := mkWaiter { w_count : Z; w_pc : pc }.

Record world := mkWorld {
  hb : HybridBucket;
  key : redis_key;
  clock : Z;
  probes : nat;
  waiters : list waiter
}.

(** [time.Duration(need / hb.rate * float64(time.Second))] *)
Definition deficit_sleep (need r : F) : Z := to_int (fmul (fdiv need r) (of_int (10 ^ 9))).

Definition millisecond : Z := 10 ^ 6.
Definition now_ms (w : world) : Z := clock w / millisecond.

(** The single sleep of the degraded mode, then return. *)
Definition degraded (hb : HybridBucket) (now : Z) (need : F) : pc :=
  if flt f0 (rate hb) then
    let d := deficit_sleep need (rate hb) in if (0 <? d)%Z then WLastSleep (now + d) else WDone
  else WDone.

(** The first critical section of [Wait(count)], and what follows before the
    next one. *)
Definition wait_start (now : Z) (count : Z) (hb : HybridBucket) : HybridBucket * pc :=
  if (count <=? 0)%Z then (hb, WDone) else
  let need := of_int count in
  let canRedis := redisOK hb && rc hb in
  let hb := if canRedis then hb else accrue now hb in
  if fle need (local hb) then (set_local hb (fsub (local hb) need), WDone) else
  let need := fsub need (local hb) in
  let hb := set_local hb f0 in
  (hb, if canRedis then (if flt f0 need then WPoll need else WDone) else degraded hb now need).

(** The batch asked for, [int64]ed. *)
Definition batch (hb : HybridBucket) (need : F) : Z :=
  to_int (if flt need (rate hb) then rate hb else need).

(** After a grant: bank the rest, or go on with what is missing. *)
Definition after_grant (need granted : F) : pc :=
  if fle need granted then WBank (fsub granted need)
  else WCheck (if flt f0 granted then fsub need granted else need).

(** The sleep between polls. *)
Definition poll_sleep (need r : F) : Z :=
  let d := deficit_sleep need r in
  let d := if (100 * millisecond <? d)%Z then (100 * millisecond)%Z else d in
  if (d <? millisecond)%Z then millisecond else d.

(** One atomic section of a waiter; [up] says whether Redis answers.  The clock
    is read in one section and the script runs in a later one, with other
    callers in between; Redis expires the key by the time at which it runs. *)
Definition step (up : bool) (w : world) (x : waiter) : world * pc :=
  let stay := (w, w_pc x) in
  let put hb := mkWorld hb (key w) (clock w) (probes w) (waiters w) in
  match w_pc x with
  | WStart => let '(b, p) := wait_start (clock w) (w_count x) (hb w) in (put b, p)
  | WPoll need => (w, WCall need (now_ms w))
  | WCall need nowMs =>
      if up then
        let '(granted, h) :=
          luaTokenBucket (redis_lookup (key w) (now_ms w)) (to_int (capacity (hb w)))
            (to_int (rate (hb w))) (batch (hb w) need) nowMs in
        (mkWorld (hb w) (Some (h, now_ms w + ttl_ms)%Z) (clock w) (probes w) (waiters w),
         after_grant need granted)
      else (w, WFailed need)
  | WFailed need =>
      let probe := negb (probing (hb w)) in
      (mkWorld (set_redis (hb w) false true) (key w) (clock w)
         (if probe then S (probes w) else probes w) (waiters w), after_grant need f0)
  | WBank extra => (put (set_local (hb w) (fadd (local (hb w)) extra)), WDone)
  | WCheck need =>
      if redisOK (hb w)
      then (w, WSleep (clock w + poll_sleep need (rate (hb w))) need)
      else (w, degraded (hb w) (clock w) need)
  | WSleep until need =>
      if (until <=? clock w)%Z then (w, if flt f0 need then WPoll need else WDone) else stay
  | WLastSleep until => if (until <=? clock w)%Z then (w, WDone) else stay
  | WDone => stay
  end.

(** What happens: time passes, a waiter runs its next section, a ticker of a
    probe goroutine fires. *)
Inductive action :=
  | Tick (dt : N)
  | Run (i : nat) (up : bool)
  | ProbeTick (up : bool).

Definition exec (w : world) (a : action) : world :=
  match a with
  | Tick dt => mkWorld (hb w) (key w) (clock w + Z.of_N dt) (probes w) (waiters w)
  | Run i up =>
      match waiters w !! i with
      | None => w
      | Some x =>
          let '(w', p) := step up w x in
          mkWorld (hb w') (key w') (clock w') (probes w') (<[i := mkWaiter (w_count x) p]> (waiters w))
      end
  | ProbeTick up =>
      match probes w with
      | 0 => w
      | S n => if up then mkWorld (set_redis (hb w) true false) (key w) (clock w) n (waiters w) else w
      end
  end.

Definition run (w : world) (acts : list action) : world := foldl exec w acts.

(** A fresh bucket for a session, with callers about to wait. *)
Definition initial (now : Z) (r cap : F) (rc : bool) (sessionID : string) (k : redis_key)
    (counts : list Z) : world :=
  mkWorld (NewHybridBucket now r cap rc sessionID) k now 0 (map (λ c, mkWaiter c WStart) counts).

(** What the callers that have returned were let through. *)
Definition served (w : world) : Z :=
  foldr Z.add 0%Z (map (λ x, match w_pc x with WDone => Z.max 0 (w_count x) | _ => 0%Z end) (waiters w)).

(** ** One caller at a time

    The caller runs, and sleeps through its sleeps, until it returns; the fuel
    counts its sections. *)
Definition wake (w : world) (x : waiter) : world :=
  match w_pc x with
  | WSleep until _ | WLastSleep until =>
      mkWorld (hb w) (key w) (Z.max (clock w) until) (probes w) (waiters w)
  | _ => w
  end.
Fixpoint Wait_from (fuel : nat) (up : bool) (w : world) (x : waiter) : option world :=
  match w_pc x, fuel with
  | WDone, _ => Some w
  | _, 0 => None
  | _, S fuel =>
      let '(w, p) := step up (wake w x) x in Wait_from fuel up w (mkWaiter (w_count x) p)
  end.
Definition Wait (fuel : nat) (up : bool) (w : world) (count : Z) : option world :=
  Wait_from fuel up w (mkWaiter count WStart).

End bucket.

(** ** The pool *)

Section pool.
Context {F : Type} `{GoFloat F} {M : Type → Type} `{LazyMap M}.
(** [bytefmt.ToBytes] of code.cloudfoundry.org *)
Context (ToBytes : string → outcome Z).

(** The map of throttlers, by their place in the list of the buckets made. *)
Record poolState := mkPool { pool_map : M nat; buckets : list (HybridBucket (F := F)) }.

Definition bytes_per_sec (r : Z) : F := fdiv (of_int r) (of_int 8).

Definition Pool_Get (now : Z) (rc : bool) (mc : MapClaims (F := F)) (s : poolState)
    : outcome (option nat) * poolState :=
  match claim_string mc "sessionID", claim_string mc "rate" with
  | Some sessionID, Some rate =>
      match ToBytes rate with
      | Ok r =>
          let '(v, s) := lm_get now pool_map (λ m s, mkPool m (buckets s)) (sessionID +:+ rate)
            (λ s, let b := NewHybridBucket now (bytes_per_sec r) (bytes_per_sec r) rc sessionID in
                  (Ok (length (buckets s)), mkPool (pool_map s) (buckets s ++ [b]))) s in
          (Some <$> v, s)
      | Err _ => (Err (ErrNew ("failed to parse rate " +:+ rate)), s)
      | Panic w => (Panic w, s)
      end
  | _, _ => (Ok None, s)
  end.

End pool.
