(* ===== verification/HybridBucketSpec.v ===== *)
(** * What the bandwidth limiter guarantees

    In exact arithmetic: an account of the tokens of a session, from which
    HybridBucketFleet has its limit; a lone caller always returns; and in every
    interleaving a probe runs exactly while Redis is marked unavailable.  Also
    what the degraded mode gives. *)

From Stdlib Require Import QArith Qround Lqa.
From S2P Require Import Prelude GoStrings GoFloat Claims LazyMap HybridBucket.

#[local] Existing Instance rational.

(** ** Exact arithmetic *)

Lemma flt_true (a b : Q) : flt a b = true ↔ (a < b)%Q.
Proof. simpl. rewrite negb_true_iff, <-not_true_iff_false, Qle_bool_iff. lra. Qed.
Lemma flt_false (a b : Q) : flt a b = false ↔ (b <= a)%Q.
Proof. simpl. rewrite negb_false_iff. apply Qle_bool_iff. Qed.
Lemma fle_true (a b : Q) : fle a b = true ↔ (a <= b)%Q.
Proof. apply Qle_bool_iff. Qed.
Lemma fle_false (a b : Q) : fle a b = false ↔ (b < a)%Q.
Proof. simpl. rewrite <-not_true_iff_false, Qle_bool_iff. lra. Qed.

(** Split on a comparison of the code. *)
Ltac case_flt E :=
  match goal with |- context [if flt ?a ?b then _ else _] =>
    destruct (flt a b) eqn:E; [apply flt_true in E|apply flt_false in E] end.
Ltac case_fle E :=
  match goal with |- context [if fle ?a ?b then _ else _] =>
    destruct (fle a b) eqn:E; [apply fle_true in E|apply fle_false in E] end.

Lemma to_int_nonneg (q : Q) : (0 <= q)%Q → to_int q = Qfloor q.
Proof. intros Hq. simpl. unfold Q_to_int. by rewrite (proj2 (Qle_bool_iff 0 q) Hq). Qed.

Lemma to_int_bounds (q : Q) : (0 <= q)%Q → (0 <= inject_Z (to_int q) /\ inject_Z (to_int q) <= q)%Q.
Proof.
  intros Hq. rewrite to_int_nonneg by done. split; [|apply Qfloor_le].
  rewrite <-(Zle_Qle 0). apply (Qfloor_resp_le 0 q Hq).
Qed.

Fixpoint sumQ {A} (f : A → Q) (l : list A) : Q :=
  match l with [] => 0%Q | x :: l => (f x + sumQ f l)%Q end.

Lemma sumQ_insert {A} (f : A → Q) l i x y :
  l !! i = Some x → (sumQ f (<[i := y]> l) == sumQ f l - f x + f y)%Q.
Proof.
  revert i. induction l as [|z l IH]; intros [|i] Hi; simplify_eq/=; [lra|].
  rewrite (IH _ Hi). lra.
Qed.

Lemma sumQ_le {A} (f g : A → Q) l : Forall (λ x, (f x <= g x)%Q) l → (sumQ f l <= sumQ g l)%Q.
Proof. induction 1; simpl; lra. Qed.

(** ** An account of the tokens *)

(** Lua's [%.14g] on the numbers of the script: integers of up to fourteen
    digits (the clock in milliseconds has thirteen) are exact, and other values
    are printed at most [eps] too large. *)
Class LuaNumbers (tostr : Q → Q) (eps : Q) : Prop := {
  ln_eps : (0 <= eps)%Q;
  ln_round q : (0 <= q)%Q → (0 <= tostr q /\ tostr q <= q + eps)%Q;
  ln_int z : (0 ≤ z < 10 ^ 14)%Z → (tostr (inject_Z z) == inject_Z z)%Q
}.

Section limit.
Context (tostr : Q → Q) (eps : Q) `{LuaNumbers tostr eps}.

(** What the script finds: the stored tokens with what has accrued since the
    last tick, nothing when its caller's time is earlier; or a full bucket. *)
Definition available (h : option redis_hash) (C R : Q) (now : Z) (a : Q) : Prop :=
  match h with
  | None => (a == C)%Q
  | Some h => (0 <= tokens h)%Q ∧ ∃ t, (last_tick h == inject_Z t)%Q ∧
      (a == tokens h + R * (inject_Z (Z.max 0 (now - t)) / 1000))%Q
  end.

Lemma lua_spec h C R req now g h' a :
  (0 ≤ C)%Z → (0 ≤ R)%Z → (0 ≤ req)%Z → (tostr (inject_Z now) == inject_Z now)%Q →
  available h (inject_Z C) (inject_Z R) now a →
  luaTokenBucket tostr h C R req now = (g, h') →
  (0 <= g)%Q ∧ (0 <= tokens h')%Q ∧ (last_tick h' == inject_Z now)%Q ∧
  (g + tokens h' <= a + 2 * eps)%Q.
Proof.
  intros HC HR Hreq Hnow Ha.
  rewrite (Zle_Qle 0) in HC, HR, Hreq. change (inject_Z 0) with 0%Q in *.
  unfold luaTokenBucket. cbn [of_int rational fadd fsub fmul fdiv].
  set (toks0 := match h with Some h => tokens h | None => inject_Z C end).
  set (last := match h with Some h => last_tick h | None => inject_Z now end).
  set (elapsed := ((inject_Z now - last) / inject_Z 1000)%Q).
  set (toks := if flt _ elapsed then _ else _).
  assert (0 <= toks /\ toks <= a)%Q as [Ht0 Hta].
  { assert (0 <= toks0 /\ toks0 <= a /\ (0 < elapsed → toks0 + elapsed * inject_Z R == a))%Q as (T0 & T1 & T2).
    { subst toks0 last elapsed. destruct h as [h|]; simpl in *.
      - destruct Ha as (? & t & Hl & Ha). rewrite Hl. change (inject_Z 1000) with 1000%Q.
        assert (0 <= inject_Z (Z.max 0 (now - t)) / 1000)%Q as He
          by (apply Qle_shift_div_l; [done|]; change (0 * 1000)%Q with (inject_Z 0); rewrite <-Zle_Qle; lia).
        pose proof (Qmult_le_0_compat _ _ HR He). rewrite Ha. split; [done|]. split; [lra|]. intros Hpos.
        destruct (Z.le_gt_cases t now) as [Hle|Hlt].
        + rewrite Z.max_r by lia. unfold Z.sub. rewrite inject_Z_plus, inject_Z_opp. unfold Qminus. ring.
        + exfalso. rewrite Zlt_Qlt in Hlt.
          assert ((inject_Z now - inject_Z t) / 1000 <= 0)%Q by (apply Qle_shift_div_r; [done|lra]). lra.
      - rewrite Ha. change (inject_Z 1000) with 1000%Q. split; [done|]. split; [lra|]. intros _. field. }
    subst toks. case_flt E; [|lra]. cbn [f0 of_int rational] in E. specialize (T2 E).
    assert (0 <= elapsed * inject_Z R)%Q
      by (apply Qmult_le_0_compat; [apply Qlt_le_weak; exact E|done]).
    case_flt E2; lra. }
  assert (∀ g0 t0 : Q, (0 <= g0 → 0 <= t0 → g0 + t0 == toks → 
    (0 <= tostr g0 /\ 0 <= tostr t0 /\ tostr g0 + tostr t0 <= a + 2 * eps))%Q) as Hround.
  { intros g0 t0 Hg Ht Hs. pose proof (ln_round g0 Hg). pose proof (ln_round t0 Ht). lra. }
  change (@f0 Q rational) with 0%Q in *.
  case_fle E; [|case_flt E2]; intros [= <- <-]; cbn [tokens last_tick].
  all: match goal with |- (0 <= tostr ?g0)%Q ∧ (0 <= tostr ?t0)%Q ∧ _ =>
         destruct (Hround g0 t0) as (? & ? & ?); [lra..|] end; by repeat split.
Qed.

(** *** Where the tokens are *)

(** What a caller has taken out of the bucket and out of Redis. *)
Definition taken (x : waiter) : Q :=
  match w_pc x with
  | WStart | WFailed _ | WLastSleep _ => 0
  | WPoll n | WCall n _ | WCheck n | WSleep _ n => inject_Z (w_count x) - n
  | WBank e => inject_Z (w_count x) + e
  | WDone => inject_Z (Z.max 0 (w_count x))
  end.

Definition waiter_ok (x : waiter) : Prop :=
  match w_pc x with
  | WStart | WDone => True
  | WPoll n | WCall n _ | WCheck n | WSleep _ n => (0 < n)%Q ∧ (n <= inject_Z (w_count x))%Q
  | WBank e => (0 < w_count x)%Z ∧ (0 <= e)%Q
  | WFailed _ | WLastSleep _ => False
  end.

Definition spent (w : world) : Q := (local (hb w) + sumQ taken (waiters w))%Q.

(** The time that a call on its way to Redis carries. *)
Definition call_within (T0 now : Z) (x : waiter (F := Q)) : Prop :=
  match w_pc x with WCall _ t => (T0 ≤ t ≤ now)%Z | _ => True end.

(** How far a call of the script that carries the time [t] sets the account back
    when Redis runs it at [now]: the time by which the last tick is later, or by
    which the key has expired too early for the bucket to be full. *)
Definition setback (k : redis_key (F := Q)) (now t : Z) : Z :=
  match k with
  | None => 0
  | Some (h, expires) => Z.max 0 (to_int (last_tick h) + (if (now <? expires)%Z then 0 else ttl_ms) - t)
  end.
(** A property of the calls of the script, at each action. *)
Definition on_call (f : world (F := Q) → Z → Z) (w : world) (a : action) : Z :=
  match a with
  | Run i true =>
      match waiters w !! i with
      | Some x => match w_pc x with WCall _ t => f w t | _ => 0%Z end
      | None => 0%Z
      end
  | _ => 0%Z
  end.
Definition call_setback : world → action → Z := on_call (λ w t, setback (key w) (now_ms w) t).
(** The time between reading the clock and running the script. *)
Definition call_delay : world → action → Z := on_call (λ w t, (now_ms w - t)%Z).

(** [o] is what other buckets of the session have spent, [B] the setbacks so
    far. *)
Record ledger (o r cap : Q) (T0 : Z) (n : nat) (B : Z) (w : world) : Prop := mkLedger {
  lg_mode : redisOK (hb w) = true ∧ rc (hb w) = true;
  lg_rate : rate (hb w) = r ∧ capacity (hb w) = cap;
  lg_local : (0 <= local (hb w))%Q;
  lg_waiters : Forall waiter_ok (waiters w);
  lg_calls : Forall (call_within T0 (now_ms w)) (waiters w);
  lg_clock : (0 ≤ T0 ≤ now_ms w)%Z;
  lg_setbacks : (0 ≤ B)%Z;
  lg_spent :
    match key w with
    | None => (o + spent w <= 2 * eps * inject_Z (Z.of_nat n))%Q
    | Some (h, expires) => (0 <= tokens h)%Q ∧ ∃ t, (last_tick h == inject_Z t)%Q ∧
        (T0 ≤ t)%Z ∧ (t + ttl_ms ≤ expires ≤ now_ms w + ttl_ms)%Z ∧
        (o + spent w + tokens h <= inject_Z (to_int cap) +
           inject_Z (to_int r) * (inject_Z (t - T0 + B) / 1000) + 2 * eps * inject_Z (Z.of_nat n))%Q
    end
}.

Lemma taken_nonneg x : waiter_ok x → (0 <= taken x)%Q.
Proof.
  unfold waiter_ok, taken. destruct (w_pc x); intros Hx; try lra.
  - destruct Hx as [Hc He]. rewrite Zlt_Qlt in Hc. change (inject_Z 0) with 0%Q in Hc. lra.
  - change 0%Q with (inject_Z 0). rewrite <-Zle_Qle. lia.
Qed.

(** A section of a waiter that moves tokens without making any. *)
Lemma spent_step (w w' : world) i x p :
  waiters w !! i = Some x → waiters w' = waiters w →
  (spent (mkWorld (hb w') (key w') (clock w') (probes w') (<[i := mkWaiter (w_count x) p]> (waiters w')))
   == spent w + (local (hb w') - local (hb w)) + (taken (mkWaiter (w_count x) p) - taken x))%Q.
Proof.
  intros Hi Hw. unfold spent. cbn [hb waiters]. rewrite Hw, (sumQ_insert _ _ _ _ _ Hi). lra.
Qed.

(** The first section, while Redis is used. *)
Lemma wait_start_ok now count b b' p :
  redisOK b = true → rc b = true → (0 <= local b)%Q →
  wait_start now count b = (b', p) →
  b' = set_local b (local b') ∧ (0 <= local b')%Q ∧ waiter_ok (mkWaiter count p) ∧
  (local b' + taken (mkWaiter count p) == local b)%Q.
Proof.
  intros Hok Hrc Hl. unfold wait_start. rewrite Hok, Hrc. cbn [andb].
  destruct (Z.leb_spec count 0).
  { intros [= <- <-]. split; [by destruct b|]. repeat split; [done|].
    unfold taken. simpl. rewrite Z.max_l by done. change (inject_Z 0) with 0%Q. lra. }
  case_fle E.
  - intros [= <- <-]. cbn [of_int rational] in E. repeat split; cbn [local set_local fsub rational of_int]; [lra|].
    unfold taken. cbn [w_pc w_count]. rewrite Z.max_r by lia. lra.
  - cbn [of_int rational fsub] in *. change (@f0 Q rational) with 0%Q. case_flt E2; [|lra].
    intros [= <- <-]. repeat split; cbn [local set_local w_pc w_count]; [lra|lra|lra|].
    unfold taken. cbn [w_pc w_count]. change (inject_Z 0) with 0%Q. lra.
Qed.

Lemma after_grant_ok count need g :
  (0 < need)%Q → (need <= inject_Z count)%Q → (0 <= g)%Q →
  waiter_ok (mkWaiter count (after_grant need g)) ∧
  (taken (mkWaiter count (after_grant need g)) == inject_Z count - need + g)%Q.
Proof.
  intros Hn Hc Hg. unfold after_grant, waiter_ok, taken. cbn [w_pc w_count].
  change (@f0 Q rational) with 0%Q. cbn [fsub rational].
  case_fle E; [|case_flt E2]; (split; [|lra]); [|split; lra..].
  split; [|lra]. rewrite Zlt_Qlt. change (inject_Z 0) with 0%Q. lra.
Qed.

(** Redis answers, or time passes. *)
Definition redis_up (a : action) : Prop := match a with Run _ up => up = true | _ => True end.

(** What may be spent in [d] milliseconds. *)
Definition budget (r cap : Q) (d : Z) (n : nat) : Q :=
  inject_Z (to_int cap) + inject_Z (to_int r) * (inject_Z d / 1000)
  + 2 * eps * inject_Z (Z.of_nat n).

Lemma budget_mono (r cap : Q) d d' n :
  (0 <= r)%Q → (d ≤ d')%Z → (budget r cap d n <= budget r cap d' n)%Q.
Proof.
  intros Hr Hd. unfold budget. destruct (to_int_bounds r Hr) as [HR _].
  rewrite !(Qmult_comm (inject_Z (to_int r))).
  assert (inject_Z d / 1000 * inject_Z (to_int r) <= inject_Z d' / 1000 * inject_Z (to_int r))%Q; [|lra].
  apply Qmult_le_compat_r; [|done]. apply Qmult_le_compat_r; [by rewrite <-Zle_Qle|done].
Qed.
Lemma budget_add (r cap : Q) d d' n :
  (budget r cap (d + d') n == budget r cap d n + inject_Z (to_int r) * (inject_Z d' / 1000))%Q.
Proof. unfold budget. rewrite inject_Z_plus. field. Qed.

Lemma eps_mono n : (2 * eps * inject_Z (Z.of_nat n) + 2 * eps
  == 2 * eps * inject_Z (Z.of_nat (S n)))%Q ∧ (2 * eps * inject_Z (Z.of_nat n) <= 2 * eps * inject_Z (Z.of_nat (S n)))%Q.
Proof.
  rewrite Nat2Z.inj_succ, <-Z.add_1_r, inject_Z_plus. pose proof ln_eps.
  change (inject_Z 1) with 1%Q. split; [ring|]. lra.
Qed.

Lemma set_local_id (b : HybridBucket (F := Q)) : b = set_local b (local b).
Proof. by destruct b. Qed.

(** More sections, same tokens. *)
Lemma ledger_quiet o r cap T0 n B w w' :
  ledger o r cap T0 n B w → hb w' = set_local (hb w) (local (hb w')) → (0 <= local (hb w'))%Q →
  key w' = key w → (now_ms w ≤ now_ms w')%Z →
  Forall waiter_ok (waiters w') → Forall (call_within T0 (now_ms w')) (waiters w') →
  (spent w' == spent w)%Q → ledger o r cap T0 (S n) B w'.
Proof.
  intros [Hm Hr Hl Hw Hcl Hc HB Hs] Hb Hl' Hk Hn Hw' Hcl' He. destruct (eps_mono n) as [_ Hmono].
  split; [by rewrite Hb|by rewrite Hb|done|done|done|lia|done|].
  rewrite Hk. destruct (key w) as [[h e]|]; [|lra].
  destruct Hs as (Ht & t & ? & ? & ? & ?). split; [done|]. exists t.
  split; [done|]. split; [lia|]. split; [lia|]. lra.
Qed.

Lemma calls_later T0 now now' (xs : list waiter) :
  (now ≤ now')%Z → Forall (call_within T0 now) xs → Forall (call_within T0 now') xs.
Proof.
  intros Hn Hf. eapply Forall_impl; [exact Hf|]. intros x. unfold call_within.
  destruct (w_pc x); try done. lia.
Qed.

Lemma to_int_Z (q : Q) t : (0 ≤ t)%Z → (q == inject_Z t)%Q → to_int q = t.
Proof.
  intros Ht Hq. rewrite to_int_nonneg.
  - rewrite (Qfloor_comp _ _ Hq). apply Qfloor_Z.
  - rewrite Hq. change 0%Q with (inject_Z 0). by rewrite <-Zle_Qle.
Qed.

(** What the script finds is within the budget, when its setback is added. *)
Lemma ledger_available o r cap T0 n B w now :
  (0 <= r)%Q → (0 <= cap)%Q → (to_int cap ≤ 300 * to_int r)%Z → ledger o r cap T0 n B w →
  (T0 ≤ now ≤ now_ms w)%Z →
  ∃ a, available (redis_lookup (key w) (now_ms w)) (inject_Z (to_int cap)) (inject_Z (to_int r)) now a ∧
    (o + spent w + a <= budget r cap (now - T0 + (B + setback (key w) (now_ms w) now)) n)%Q.
Proof.
  intros Hr Hcap Hcr [Hm _ Hl Hw _ Hc HB Hs] Hnow.
  assert (inject_Z (to_int cap) <= inject_Z (to_int r) * (inject_Z ttl_ms / 1000))%Q as Hfull.
  { rewrite Zle_Qle, inject_Z_mult in Hcr.
    assert (inject_Z (to_int r) * (inject_Z ttl_ms / 1000) == inject_Z 300 * inject_Z (to_int r))%Q as ->; [|done].
    change (inject_Z ttl_ms) with (inject_Z 300 * 1000)%Q. field. }
  destruct (key w) as [[h e]|]; cbn [redis_lookup setback].
  - destruct Hs as (Ht & t & Hlt & Htr & He & Hsp). rewrite (to_int_Z (last_tick h) t) by (lia || done).
    change (o + spent w + tokens h <= budget r cap (t - T0 + B) n)%Q in Hsp.
    destruct (Z.ltb_spec (now_ms w) e).
    + exists (tokens h + inject_Z (to_int r) * (inject_Z (Z.max 0 (now - t)) / 1000))%Q.
      split; [split; [done|]; exists t; split; [done|reflexivity]|].
      pose proof (budget_add r cap (t - T0 + B) (Z.max 0 (now - t)) n) as Hb.
      replace (t - T0 + B + Z.max 0 (now - t))%Z with (now - T0 + (B + Z.max 0 (t + 0 - now)))%Z in Hb by lia.
      rewrite Hb. lra.
    + exists (inject_Z (to_int cap)). split; [reflexivity|].
      pose proof (budget_add r cap (t - T0 + B) ttl_ms n) as Hb.
      pose proof (budget_mono r cap (t - T0 + B + ttl_ms) (now - T0 + (B + Z.max 0 (t + ttl_ms - now))) n Hr
        ltac:(lia)). lra.
  - exists (inject_Z (to_int cap)). split; [reflexivity|].
    pose proof (budget_mono r cap 0 (now - T0 + (B + 0)) n Hr ltac:(lia)) as Hb.
    unfold budget at 1 in Hb. assert (inject_Z 0 / 1000 == 0)%Q as E0 by reflexivity. rewrite E0 in Hb. lra.
Qed.

(** The setback of a call is at most its delay. *)
Lemma setback_delay o r cap T0 n B w now :
  ledger o r cap T0 n B w → (T0 ≤ now ≤ now_ms w)%Z →
  (0 ≤ setback (key w) (now_ms w) now ≤ now_ms w - now)%Z.
Proof.
  intros [_ _ _ _ _ Hc _ Hs] Hnow. unfold setback. destruct (key w) as [[h e]|]; [|lia].
  destruct Hs as (_ & t & Hlt & Htr & He & _). rewrite (to_int_Z (last_tick h) t) by (lia || done).
  destruct (Z.ltb_spec (now_ms w) e); lia.
Qed.

(** The script runs. *)
Lemma ledger_call o r cap T0 n B w i count need now :
  (0 <= r)%Q → (0 <= cap)%Q → (to_int cap ≤ 300 * to_int r)%Z → (now_ms w < 10 ^ 14)%Z →
  ledger o r cap T0 n B w → waiters w !! i = Some (mkWaiter count (WCall need now)) →
  ledger o r cap T0 (S n) (B + setback (key w) (now_ms w) now) (exec tostr w (Run i true)).
Proof.
  intros Hr Hcap Hcr Hms L Hi. unfold exec. rewrite Hi.
  pose proof L as [Hmode [Hrr Hcc] Hl Hw Hcl Hc HB Hs].
  destruct (Forall_lookup_1 _ _ _ _ Hw Hi) as [Hn0 Hnc]. cbn [w_count] in Hnc.
  pose proof (Forall_lookup_1 _ _ _ _ Hcl Hi) as Hnow. unfold call_within in Hnow. cbn [w_pc] in Hnow.
  pose proof (setback_delay _ _ _ _ _ _ _ now L Hnow) as Hsb.
  unfold step. cbn [w_pc w_count].
  destruct (ledger_available o r cap T0 n B w now Hr Hcap Hcr L Hnow) as (a & Ha & Hbud).
  destruct (luaTokenBucket _ _ _ _ _ _) as [g h] eqn:E.
  assert (0 ≤ batch (hb w) need)%Z as Hb.
  { unfold batch. rewrite Zle_Qle. change (inject_Z 0) with 0%Q. rewrite Hrr.
    case_flt Ef; by apply to_int_bounds; lra. }
  rewrite Hrr, Hcc in E.
  assert (∀ q : Q, (0 <= q)%Q → (0 ≤ to_int q)%Z) as Hint
    by (intros q Hq; rewrite Zle_Qle; by apply to_int_bounds).
  assert (tostr (inject_Z now) == inject_Z now)%Q as Hpr by (apply ln_int; lia).
  destruct (lua_spec _ _ _ _ _ _ _ a (Hint _ Hcap) (Hint _ Hr) Hb Hpr Ha E)
    as (Hg & Hth & Hlast & Hsum).
  destruct (after_grant_ok count need g Hn0 Hnc Hg) as [Hp Ht].
  split; [done|done|done|by apply Forall_insert| |done|lia|].
  - apply Forall_insert; [done|]. unfold call_within, after_grant. cbn [w_pc].
    by destruct (fle need g).
  - cbn [key]. split; [done|]. exists now. split; [done|]. split; [lia|].
    split; [unfold now_ms in *; cbn [clock]; lia|].
    rewrite (spent_step w (mkWorld (hb w) (Some (h, now_ms w + ttl_ms)%Z) (clock w) (probes w) (waiters w))
      i _ (after_grant need g) Hi eq_refl). cbn [hb w_count]. rewrite Ht.
    change (taken (mkWaiter count (WCall need now))) with (inject_Z count - need)%Q.
    destruct (eps_mono n) as [Hm _]. unfold budget in Hbud. lra.
Qed.

(** The other sections of a caller. *)
Lemma ledger_run o r cap T0 n B w i x :
  ledger o r cap T0 n B w → waiters w !! i = Some x → (∀ need t, w_pc x ≠ WCall need t) →
  ledger o r cap T0 (S n) B (exec tostr w (Run i true)).
Proof.
  intros L Hi Hcall. unfold exec. rewrite Hi.
  pose proof L as [[Hok Hrc] [Hrr Hcc] Hl Hw Hcl Hc HB Hs].
  pose proof (Forall_lookup_1 _ _ _ _ Hw Hi) as Hx.
  assert (∀ p, (∀ need t, p = WCall need t → t = now_ms w) →
    Forall (call_within T0 (now_ms w)) (<[i := mkWaiter (w_count x) p]> (waiters w))) as Hcalls.
  { intros p Hp. apply Forall_insert; [done|]. unfold call_within. cbn [w_pc].
    destruct p; try done. rewrite (Hp _ _ eq_refl). lia. }
  (* a section that only changes its own program counter *)
  assert (∀ p, waiter_ok (mkWaiter (w_count x) p) → (taken (mkWaiter (w_count x) p) == taken x)%Q →
    (∀ need t, p = WCall need t → t = now_ms w) →
    ledger o r cap T0 (S n) B (mkWorld (hb w) (key w) (clock w) (probes w)
      (<[i := mkWaiter (w_count x) p]> (waiters w)))) as Hquiet.
  { intros p Hp Ht Hpc. apply (ledger_quiet _ _ _ _ n B w); [done|by destruct (hb w)|done|done|done| |by apply Hcalls|].
    - by apply Forall_insert.
    - rewrite (spent_step w w i x p Hi eq_refl). lra. }
  destruct x as [count p]. unfold step. cbn [w_pc w_count] in *.
  destruct p as [|need|need t|need|extra|need|until need|until|]; cbn [w_pc w_count] in *; try done.
  - destruct (wait_start (clock w) count (hb w)) as [b p] eqn:E.
    destruct (wait_start_ok _ _ _ _ _ Hok Hrc Hl E) as (Hb & Hl' & Hp & Ht).
    apply (ledger_quiet _ _ _ _ n B w); [done|done|done|done|done|by apply Forall_insert| |].
    + apply Hcalls. intros need t ->. unfold wait_start, degraded in E. by repeat case_match; simplify_eq.
    + rewrite (spent_step w (mkWorld b (key w) (clock w) (probes w) (waiters w)) i _ p Hi eq_refl).
      cbn [hb w_count]. change (taken (mkWaiter count WStart)) with 0%Q. lra.
  - apply Hquiet; [done|reflexivity|]. by intros ? ? [= _ <-].
  - by destruct (Hcall need t).
  - destruct Hx as [Hcnt He]. cbn [w_count] in Hcnt.
    apply (ledger_quiet _ _ _ _ n B w); [done|done| |done|done| | |].
    + cbn [local set_local hb fadd rational]. lra.
    + by apply Forall_insert.
    + by apply Hcalls.
    + rewrite (spent_step w (mkWorld (set_local (hb w) (fadd (local (hb w)) extra)) (key w) (clock w)
        (probes w) (waiters w)) i _ WDone Hi eq_refl).
      unfold taken. cbn [hb w_pc w_count local set_local fadd rational]. rewrite Z.max_r by lia. ring.
  - rewrite Hok. by apply Hquiet.
  - destruct (until <=? clock w)%Z; [|by apply Hquiet].
    change (@f0 Q rational) with 0%Q. destruct Hx. case_flt E; [by apply Hquiet|lra].
  - by apply Hquiet.
Qed.

Lemma step_clock up w x : clock (step tostr up w x).1 = clock w.
Proof.
  unfold step. destruct (w_pc x); repeat case_match; simpl; try done; by destruct wait_start.
Qed.

Lemma exec_clock w a : (clock w ≤ clock (exec tostr w a))%Z.
Proof.
  destruct a as [dt|i up|up]; simpl; [lia| |by repeat case_match].
  destruct (waiters w !! i) as [x|]; [|done]. pose proof (step_clock up w x).
  destruct (step tostr up w x). simpl in *. lia.
Qed.

Lemma run_clock w acts : (clock w ≤ clock (run tostr w acts))%Z.
Proof.
  revert w. induction acts as [|a acts IH]; intros w; simpl; [done|].
  etrans; [apply exec_clock|apply IH].
Qed.

Lemma on_call_quiet f w i x : waiters w !! i = Some x → (∀ need t, w_pc x ≠ WCall need t) →
  on_call f w (Run i true) = 0%Z.
Proof. intros Hi Hx. unfold on_call. rewrite Hi. destruct (w_pc x); try done. by destruct (Hx need nowMs). Qed.

Lemma is_call (x : waiter (F := Q)) :
  (∃ count need t, x = mkWaiter count (WCall need t)) ∨ ∀ need t, w_pc x ≠ WCall need t.
Proof. destruct x as [c []]; try (by right). left. eauto. Qed.

Lemma ledger_exec o r cap T0 n B w a :
  (0 <= r)%Q → (0 <= cap)%Q → (to_int cap ≤ 300 * to_int r)%Z → (now_ms w < 10 ^ 14)%Z →
  ledger o r cap T0 n B w → probes w = 0 → redis_up a →
  ledger o r cap T0 (S n) (B + call_setback w a) (exec tostr w a) ∧ probes (exec tostr w a) = 0 ∧
  (0 ≤ call_setback w a ≤ call_delay w a)%Z.
Proof.
  intros Hr Hcap Hcr Hms L Hpr Ha. pose proof L as [[Hok Hrc] [Hrr Hcc] Hl Hw Hcl Hc HB Hs].
  assert (∀ w', hb w' = hb w → key w' = key w → waiters w' = waiters w → (now_ms w ≤ now_ms w')%Z →
    ledger o r cap T0 (S n) (B + 0) w') as Hsame.
  { intros w' E1 E2 E3 E4. rewrite Z.add_0_r. apply (ledger_quiet _ _ _ _ n B w); try done.
    - rewrite E1. apply set_local_id.
    - by rewrite E1.
    - by rewrite E3.
    - rewrite E3. by eapply calls_later.
    - unfold spent. by rewrite E1, E3. }
  destruct a as [dt|i up|up].
  - split; [|done]. apply Hsame; [done..|]. apply Z.div_le_mono; simpl; unfold millisecond; lia.
  - simpl in Ha. subst up. destruct (waiters w !! i) as [x|] eqn:Hi.
    2:{ unfold exec, call_setback, call_delay, on_call. rewrite Hi. split; [by apply Hsame|]. done. }
    assert (probes (exec tostr w (Run i true)) = 0) as Hpr'.
    { unfold exec. rewrite Hi. pose proof (Forall_lookup_1 _ _ _ _ Hw Hi) as Hx. unfold step, waiter_ok in *.
      destruct (w_pc x); try done; repeat case_match; try done; by simplify_eq/=. }
    destruct (is_call x) as [(count & need & t & ->)|Hx].
    + unfold call_setback, call_delay, on_call. rewrite Hi. cbn [w_pc].
      split; [by apply (ledger_call _ _ _ _ _ _ _ _ count need)|]. split; [done|].
      apply (setback_delay _ _ _ _ _ _ _ _ L). exact (Forall_lookup_1 _ _ _ _ Hcl Hi).
    + unfold call_setback, call_delay. rewrite !(on_call_quiet _ _ _ _ Hi Hx), Z.add_0_r.
      split; [by apply (ledger_run _ _ _ _ _ _ _ _ x)|]. done.
  - unfold exec. rewrite Hpr. split; [by apply Hsame|]. done.
Qed.

Lemma served_taken w : Forall waiter_ok (waiters w) → (inject_Z (served w) <= sumQ taken (waiters w))%Q.
Proof.
  unfold served. induction 1 as [|x l Hx _ IH]; [done|]. simpl. rewrite inject_Z_plus.
  pose proof (taken_nonneg x Hx). unfold taken in *. destruct (w_pc x); change (inject_Z 0) with 0%Q in *; lra.
Qed.

End limit.

(** ** A lone caller returns *)

(** Numbers that survive printing. *)
Definition exact_print (x : Q) : Q := x.

Section returns.


Lemma exact_numbers : LuaNumbers exact_print 0.
Proof. split; [lra| |done]. intros q Hq. unfold exact_print. split; lra. Qed.

(** The key is readable, and its last tick at least [age] milliseconds old. *)
Definition key_ready (age : Z) (w : world) : Prop :=
  match redis_lookup (key w) (now_ms w) with
  | None => True
  | Some h => (0 <= tokens h)%Q ∧ ∃ t, (last_tick h == inject_Z t)%Q ∧ (t + age ≤ now_ms w)%Z
  end.

(** With a millisecond of accrual the script grants something. *)
Lemma lua_grants h C R req now g h' :
  (1 ≤ C)%Z → (1 ≤ R)%Z → (1 ≤ req)%Z →
  match h with
  | None => True
  | Some h => (0 <= tokens h)%Q ∧ ∃ t, (last_tick h == inject_Z t)%Q ∧ (t + 1 ≤ now)%Z
  end →
  luaTokenBucket exact_print h C R req now = (g, h') → ((1 # 1000) <= g)%Q.
Proof.
  intros HC HR Hreq Hh. rewrite Zle_Qle in HC, HR, Hreq. change (inject_Z 1) with 1%Q in *.
  unfold luaTokenBucket, exact_print. cbn [of_int rational fadd fsub fmul fdiv].
  set (toks0 := match h with Some h => tokens h | None => inject_Z C end).
  set (last := match h with Some h => last_tick h | None => inject_Z now end).
  set (elapsed := ((inject_Z now - last) / inject_Z 1000)%Q).
  set (toks := if flt _ elapsed then _ else _).
  assert ((1 # 1000) <= toks)%Q as Ht.
  { destruct h as [h|].
    - destruct Hh as (Ht0 & t & Hl & Hle). rewrite Zle_Qle, inject_Z_plus in Hle.
      change (inject_Z 1) with 1%Q in Hle.
      assert ((1 # 1000) <= elapsed)%Q as He.
      { subst elapsed last. rewrite Hl. change (inject_Z 1000) with 1000%Q.
        apply Qle_shift_div_l; [done|].
        assert ((1 # 1000) * 1000 == 1)%Q as -> by reflexivity. lra. }
      assert ((1 # 1000) <= elapsed * inject_Z R)%Q.
      { assert (0 <= elapsed)%Q as He0 by lra.
        pose proof (Qmult_le_compat_r 1 (inject_Z R) elapsed HR He0). lra. }
      subst toks toks0. change (@f0 Q rational) with 0%Q.
      case_flt E; [|lra]. case_flt E2; lra.
    - subst toks toks0. change (@f0 Q rational) with 0%Q.
      assert (elapsed == 0)%Q as He by (subst elapsed last; change (inject_Z 1000) with 1000%Q; field).
      case_flt E; [rewrite He in E; lra|]. lra. }
  change (@f0 Q rational) with 0%Q. case_fle E; [|case_flt E2]; intros [= <- _]; lra.
Qed.

Lemma poll_sleep_min need r : (millisecond ≤ poll_sleep need r)%Z.
Proof. unfold poll_sleep. by destruct (Z.ltb_spec (if (100 * millisecond <? deficit_sleep need r)%Z then (100 * millisecond)%Z else deficit_sleep need r) millisecond). Qed.

(** What stays true of the world while the caller polls. *)
Record polling (r cap : Q) (w : world) : Prop := mkPolling {
  po_mode : redisOK (hb w) = true ∧ rc (hb w) = true;
  po_rate : rate (hb w) = r ∧ capacity (hb w) = cap
}.

Lemma Wait_from_step fuel (w : world (F := Q)) x :
  w_pc x ≠ WDone →
  Wait_from exact_print (S fuel) true w x =
    let '(w, p) := step exact_print true (wake w x) x in
    Wait_from exact_print fuel true w (mkWaiter (w_count x) p).
Proof. destruct x as [c []]; simpl; done. Qed.
Lemma Wait_from_done fuel (w : world (F := Q)) c :
  Wait_from exact_print fuel true w (mkWaiter c WDone) = Some w.
Proof. by destruct fuel. Qed.

(** One poll of the caller: it is satisfied, or it is back with a key that is a
    millisecond older and a smaller need. *)
Lemma poll_round r cap age fuel w count need :
  (1 ≤ to_int r)%Z → (1 ≤ to_int cap)%Z → (0 <= r)%Q → (0 <= cap)%Q →
  polling r cap w → (0 <= age)%Z → key_ready age w → (0 < need)%Q →
  (∃ w', Wait_from exact_print (4 + fuel) true w (mkWaiter count (WPoll need)) = Some w') ∨
  ∃ w' need', Wait_from exact_print (4 + fuel) true w (mkWaiter count (WPoll need)) =
      Wait_from exact_print fuel true w' (mkWaiter count (WPoll need')) ∧
    polling r cap w' ∧ key_ready 1 w' ∧ (0 < need' <= need)%Q ∧
    (age = 1%Z → (need' <= need - (1 # 1000))%Q).
Proof.
  intros Hr1 Hc1 Hr Hcap [[Hok Hrc] [Hrr Hcc]] Hage Hkey Hn.
  assert (1 ≤ batch (hb w) need)%Z as Hb.
  { unfold batch. rewrite Hrr. case_flt E; [done|].
    rewrite to_int_nonneg in * by lra. etrans; [exact Hr1|]. by apply Qfloor_resp_le. }
  assert (∃ t, available (redis_lookup (key w) (now_ms w)) (inject_Z (to_int cap)) (inject_Z (to_int r))
    (now_ms w) t) as [a Ha].
  { unfold available, key_ready in *. destruct (redis_lookup _ _) as [h|]; [|by eexists].
    destruct Hkey as (? & t & ? & ?). eexists. split; [done|]. exists t. split; [done|reflexivity]. }
  change (4 + fuel) with (S (S (S (S fuel)))). rewrite Wait_from_step by done.
  cbn [step wake w_pc w_count]. rewrite Wait_from_step by done.
  cbn [step wake w_pc w_count]. rewrite Hrr, Hcc. destruct (luaTokenBucket _ _ _ _ _ _) as [g h] eqn:E.
  pose proof exact_numbers as Hln.
  assert (0 ≤ to_int cap ∧ 0 ≤ to_int r ∧ 0 ≤ batch (hb w) need)%Z as (Hc0 & Hr0 & Hb0) by lia.
  destruct (lua_spec exact_print 0 _ _ _ _ _ _ _ _ Hc0 Hr0 Hb0 (Qeq_refl _) Ha E)
    as (Hg & Hth & Hlt & _).
  unfold after_grant. change (@f0 Q rational) with 0%Q. case_fle E1.
  { left. rewrite Wait_from_step by done. cbn [wake step w_pc w_count]. rewrite Wait_from_done. eauto. }
  right. set (need' := (if flt 0%Q g then fsub need g else need)).
  assert (0 < need' /\ need' <= need /\ (age = 1%Z → need' <= need - (1 # 1000)))%Q as (N0 & N1 & N2).
  { subst need'. split; [|split]; [case_flt E2; cbn [fsub rational]; lra..|]. intros ->.
    pose proof (lua_grants _ _ _ _ _ _ _ Hc1 Hr1 Hb Hkey E). case_flt E2; cbn [fsub rational]; lra. }
  assert (flt f0 need' = true) as Hf by (by apply flt_true).
  set (w1 := mkWorld (hb w) (Some (h, now_ms w + ttl_ms)%Z) (clock w) (probes w) (waiters w)).
  fold w1. change (if flt 0%Q g then fsub need g else need) with need'.
  rewrite Wait_from_step by done.
  assert (step exact_print true (wake w1 (mkWaiter count (WCheck need'))) (mkWaiter count (WCheck need'))
    = (w1, WSleep (clock w + poll_sleep need' r) need')) as ->
    by (unfold step; cbn [wake w_pc w_count hb w1 clock]; by rewrite Hok, Hrr).
  cbn [w_count]. rewrite Wait_from_step by done.
  set (x := mkWaiter count (WSleep (clock w + poll_sleep need' r) need')).
  set (w2 := wake w1 x).
  pose proof (poll_sleep_min need' r) as Hms.
  assert (step exact_print true w2 x = (w2, WPoll need')) as ->.
  { unfold step. cbn [w_pc x]. subst w2. cbn [wake w_pc x clock].
    rewrite (proj2 (Z.leb_le _ _)) by lia. by rewrite Hf. }
  exists w2, need'. split; [done|]. split; [by split|]. split; [|done].
  unfold key_ready, redis_lookup. cbn [key w2 wake w_pc x w1]. destruct (_ <? _)%Z; [|done].
  split; [done|]. exists (now_ms w). split; [done|]. subst w2. unfold now_ms.
  cbn [wake w_pc x w1 clock]. unfold millisecond in *.
  pose proof (Z.div_le_mono (clock w + 1 * 10 ^ 6) (clock w `max` (clock w + poll_sleep need' r)) (10 ^ 6)).
  rewrite Z.div_add in * by lia. lia.
Qed.

(** A caller that is alone returns.  With a rate and a capacity of at least
    one byte and Redis answering, [Wait] of [count] bytes ends after at most
    [2 + 1000 * count] polls, whatever the tokens left in Redis. *)
Theorem Wait_returns r cap now sid k count fuel :
  (1 ≤ to_int r)%Z → (1 ≤ to_int cap)%Z → (0 <= r)%Q → (0 <= cap)%Q →
  key_ready 0 (initial now r cap true sid k []) →
  (1 + 4 * (2 + 1000 * Z.to_nat count) ≤ fuel)%nat →
  ∃ w, Wait exact_print fuel true (initial now r cap true sid k []) count = Some w.
Proof.
  intros Hr1 Hc1 Hr Hcap Hk Hf.
  assert (∀ m fuel w need, (4 * m ≤ fuel)%nat → polling r cap w → key_ready 1 w → (0 < need)%Q →
    (need <= inject_Z (Z.of_nat m) * (1 # 1000))%Q →
    ∃ w', Wait_from exact_print fuel true w (mkWaiter count (WPoll need)) = Some w') as Hpoll.
  { induction m as [|m IH]; intros fu w need Hfu Hw Hkey Hn Hm.
    { change (inject_Z (Z.of_nat 0)) with 0%Q in Hm. lra. }
    replace fu with (4 + (fu - 4))%nat by lia.
    destruct (poll_round r cap 1 (fu - 4) w count need) as [?|(w' & need' & -> & Hw' & Hk' & [? ?] & Hd)];
      try done.
    apply IH; [lia|done..|]. specialize (Hd eq_refl).
    rewrite Nat2Z.inj_succ, <-Z.add_1_r, inject_Z_plus in Hm. change (inject_Z 1) with 1%Q in Hm. lra. }
  destruct fuel as [|fuel]; [lia|]. unfold Wait. cbn [Wait_from wake w_pc].
  unfold step, wait_start. cbn [w_pc w_count hb initial NewHybridBucket redisOK rc andb local].
  destruct (Z.leb_spec count 0); [eexists; by destruct fuel|].
  case_fle E; [eexists; by destruct fuel|].
  change (@f0 Q rational) with 0%Q in *. cbn [of_int fsub rational] in *.
  case_flt E2; [|lra]. set (w0 := mkWorld _ _ _ _ _). set (need := (inject_Z count - 0)%Q) in *.
  replace fuel with (4 + (fuel - 4))%nat by lia.
  destruct (poll_round r cap 0 (fuel - 4) w0 count need) as [?|(w' & need' & -> & Hw' & Hk' & [? Hle] & _)];
    [done..|].
  apply (Hpoll (1000 * Z.to_nat count)%nat); [lia|done..|].
  rewrite Nat2Z.inj_mul, inject_Z_mult, Z2Nat.id by lia. change (inject_Z (Z.of_nat 1000)) with 1000%Q.
  subst need. lra.
Qed.

End returns.

(** ** The probe *)

Section probe.
Context {F : Type} `{GoFloat F} (tostr : F → F).

(** Sections that only a caller of a bucket with a Redis client reaches. *)
Definition redis_pc (p : pc (F := F)) : bool :=
  match p with WPoll _ | WCall _ _ | WFailed _ | WBank _ | WCheck _ | WSleep _ _ => true | _ => false end.

Record probe_inv (client : bool) (k : redis_key (F := F)) (w : world (F := F)) : Prop := mkProbe {
  pi_client : rc (hb w) = client;
  pi_with : client = true → redisOK (hb w) = negb (probing (hb w)) ∧
    probes w = (if probing (hb w) then 1 else 0);
  pi_without : client = false → redisOK (hb w) = false ∧ probes w = 0 ∧ key w = k ∧
    Forall (λ x, redis_pc (w_pc x) = false) (waiters w)
}.

Lemma wait_start_redis now count (b b' : HybridBucket (F := F)) p :
  wait_start now count b = (b', p) →
  rc b' = rc b ∧ redisOK b' = redisOK b ∧ probing b' = probing b ∧
  (rc b = false → redis_pc p = false).
Proof.
  unfold wait_start, degraded. intros Hs.
  assert (∀ c : HybridBucket (F := F), rc (accrue now c) = rc c ∧ redisOK (accrue now c) = redisOK c ∧
               probing (accrue now c) = probing c) as Ha by (intros c; unfold accrue; by destruct (flt (f0 (F := F)) (seconds (now - lastRefill c)))).
  destruct (count <=? 0)%Z; [by simplify_eq|].
  set (b1 := if redisOK b && rc b then b else accrue now b) in Hs.
  assert (rc b1 = rc b ∧ redisOK b1 = redisOK b ∧ probing b1 = probing b) as (A1 & A2 & A3)
    by (subst b1; by destruct (redisOK b && rc b)).
  destruct (fle _ _); simplify_eq; simpl; repeat (split; [done|]); [done|].
  intros ->. rewrite andb_false_r. by repeat case_match.
Qed.

Lemma probe_exec client k w a : probe_inv client k w → probe_inv client k (exec tostr w a).
Proof.
  intros Hinv. pose proof Hinv as [Hc Hw Ho]. destruct a as [dt|i up|up]; [by split| |].
  - unfold exec. destruct (waiters w !! i) as [[c p]|] eqn:Hi; [|by split].
    assert (client = false → redis_pc p = false) as Hp.
    { intros E. destruct (Ho E) as (_ & _ & _ & Hf). by apply (Forall_lookup_1 _ _ _ _ Hf Hi). }
    assert (∀ w' p', rc (hb w') = rc (hb w) → redisOK (hb w') = redisOK (hb w) →
      probing (hb w') = probing (hb w) → probes w' = probes w →
      (client = false → key w' = key w) → waiters w' = waiters w →
      (client = false → redis_pc p' = false) →
      probe_inv client k (mkWorld (hb w') (key w') (clock w') (probes w')
        (<[i := mkWaiter c p']> (waiters w')))) as Hquiet.
    { intros w' p' E1 E2 E3 E4 E5 E6 E7. split; simpl; rewrite ?E1, ?E2, ?E3, ?E4, ?E6; [done|done|].
      intros E. destruct (Ho E) as (? & ? & ? & ?). rewrite E5 by done.
      repeat (split; [done|]). apply Forall_insert; [done|]. by apply E7. }
    unfold step. destruct p as [|need|need t|need|extra|need|until need|until|]; cbn [w_pc w_count] in *.
    + destruct (wait_start _ _ _) as [b p'] eqn:E. apply wait_start_redis in E as (?&?&?&?).
      apply (Hquiet (mkWorld b (key w) (clock w) (probes w) (waiters w))); try done. naive_solver.
    + destruct client; [|naive_solver]. by apply (Hquiet w).
    + destruct client; [|naive_solver]. destruct up; [|by apply (Hquiet w)].
      destruct (luaTokenBucket _ _ _ _ _ _) as [g h].
      by apply (Hquiet (mkWorld (hb w) _ (clock w) (probes w) (waiters w))).
    + destruct client; [|naive_solver]. destruct (Hw eq_refl) as [H1 H2].
      split; simpl; [done| |done]. intros _. split; [done|]. rewrite H2. by destruct (probing (hb w)).
    + destruct client; [|naive_solver].
      by apply (Hquiet (mkWorld (set_local (hb w) _) (key w) (clock w) (probes w) (waiters w))).
    + destruct client; [|naive_solver]. destruct (redisOK (hb w)) eqn:?; by apply (Hquiet w).
    + destruct client; [|naive_solver]. destruct (until <=? clock w)%Z; by apply (Hquiet w).
    + destruct (until <=? clock w)%Z; by apply (Hquiet w).
    + by apply (Hquiet w).
  - unfold exec. destruct (probes w) as [|n] eqn:Hn; [done|]. destruct up; [|done].
    split; simpl; [done| |].
    + intros E. destruct (Hw E) as [_ Hp]. split; [done|]. destruct (probing (hb w)); by simplify_eq.
    + intros E. destruct (Ho E) as (_ & ? & _). done.
Qed.

(** C22: the probe goroutine.  In every interleaving of callers, failing or
    answered calls to Redis and ticks: a bucket with a Redis client is marked
    unavailable exactly while one probe runs, there is never a second probe,
    and a successful ping brings Redis back into use, so a bucket cannot be
    stuck in the degraded mode.  A bucket without a client never calls Redis. *)
Theorem probe_exact now r cap client sid k counts acts :
  let w := run tostr (initial now r cap client sid k counts) acts in
  if client
  then redisOK (hb w) = negb (probing (hb w)) ∧ probes w = (if probing (hb w) then 1 else 0) ∧
       redisOK (hb (exec tostr w (ProbeTick true))) = true
  else key w = k ∧ probes w = 0 ∧ redisOK (hb w) = false.
Proof.
  intros w.
  assert (probe_inv client k w) as [Hc Hw Ho].
  { assert (probe_inv client k (initial now r cap client sid k counts)) as H0.
    { split; simpl; [done|by intros ->|]. intros ->. repeat (split; [done|]).
      by apply Forall_map, Forall_true. }
    subst w. revert H0. generalize (initial now r cap client sid k counts).
    induction acts as [|a acts IH]; intros w Hi; [done|]. by apply IH, probe_exec. }
  destruct client; [|by destruct (Ho eq_refl) as (? & ? & ? & _)].
  destruct (Hw eq_refl) as [H1 H2]. split; [done|]. split; [done|]. simpl. rewrite H2.
  destruct (probing (hb w)); [done|]. by rewrite H1.
Qed.

End probe.

(** ** Concrete buckets *)

Example Wait_returns_witness :
  ∃ w, Wait exact_print 4009 true (initial 0 1000%Q 1000%Q true "s" None []) 1 = Some w.
Proof.
  apply (Wait_returns 1000 1000 0 "s" None 1 4009);
    [by vm_compute|by vm_compute|lra|lra|done|lia].
Defined.

(** Four writes of 500 bytes each, one after the other, without Redis. *)
Definition wait4 : option world :=
  foldl (λ w c, w ← w; Wait exact_print 5 true w c) (Some (initial (10 ^ 18) 1000%Q 1000%Q false "s" None []))
    [500; 500; 500; 500]%Z.
(** Two things the limiter does not do.  Without Redis, one caller that
    writes 500 bytes at a time gets 2000 bytes in one second from a bucket of
    1000 bytes a second: the accrual of the next call counts the time the last
    call slept, which it had already spent.  And a rate below one byte a second
    reaches the script as zero, so a caller polls for ever. *)
Example limiter_edges :
  ((λ w, clock w - 10 ^ 18)%Z <$> wait4) = Some (10 ^ 9)%Z ∧
  Wait exact_print 300 true (initial (10 ^ 18) (1 # 8)%Q (1 # 8)%Q true "s" None []) 1 = None.
Proof. by vm_compute. Qed.
