(* ===== verification/HybridBucketLive.v ===== *)
(** * Every caller of the bandwidth limiter returns

    [HybridBucket.Wait] under a fair schedule, in exact arithmetic: whatever has
    happened to the bucket before, outages of Redis included, once Redis answers
    every caller gets its bytes, although the callers take the tokens from each
    other.  A measure over all callers never grows; a poll that finds a
    millisecond of accrual makes it smaller, and a caller that polls in vain
    sleeps past the millisecond in which the tokens went. *)

From Stdlib Require Import QArith Qround Lqa.
From S2P Require Import Prelude GoStrings GoFloat Claims LazyMap HybridBucket HybridBucketSpec.

#[local] Existing Instance rational.

#[local] Abbreviation exec := (exec exact_print).
#[local] Abbreviation step := (step exact_print).
#[local] Abbreviation world := (world (F := Q)).
#[local] Abbreviation waiter := (waiter (F := Q)).

(** ** Fair schedules *)

(** A schedule that runs every caller again and again, and in which time goes on. *)
Definition fair (callers : nat) (acts : nat → action) : Prop :=
  (∀ i k, i < callers → ∃ m, k ≤ m ∧ acts m = Run i true) ∧
  (∀ k, ∃ m dt, k ≤ m ∧ acts m = Tick dt ∧ (0 < dt)%N).

(** The world after the first [n] actions. *)
Fixpoint after (w : world) (acts : nat → action) (n : nat) : world :=
  match n with 0 => w | S n => exec (after w acts n) (acts n) end.

(** ** What stays true of the bucket *)

(** The key holds tokens, and the tick of a script that has run. *)
Definition key_sane (k : redis_key (F := Q)) (now : Z) : Prop :=
  match k with
  | None => True
  | Some (h, _) => (0 <= tokens h)%Q ∧ ∃ t, (last_tick h == inject_Z t)%Q ∧ (t ≤ now)%Z
  end.

Definition caller_ok (x : waiter) : Prop :=
  match w_pc x with
  | WPoll n | WCall n _ | WFailed n | WCheck n | WSleep _ n => (0 < n)%Q
  | WBank e => (0 <= e)%Q
  | WStart | WLastSleep _ | WDone => True
  end.

(** A call on its way to Redis carries a time that has been. *)
Definition call_past (now : Z) (x : waiter) : Prop :=
  match w_pc x with WCall _ t => (t ≤ now)%Z | _ => True end.

Record live_inv (r cap : Q) (w : world) : Prop := mkLive {
  li_rate : rate (hb w) = r ∧ capacity (hb w) = cap;
  li_local : (0 <= local (hb w))%Q;
  li_waiters : Forall caller_ok (waiters w);
  li_calls : Forall (call_past (now_ms w)) (waiters w);
  li_key : key_sane (key w) (now_ms w)
}.

(** Running the caller now does something. *)
Definition awake (w : world) (x : waiter) : bool :=
  match w_pc x with
  | WSleep until _ | WLastSleep until => (until <=? clock w)%Z
  | WDone => false
  | _ => true
  end.
(** The caller is in the polling loop. *)
Definition polls (x : waiter) : bool :=
  match w_pc x with WPoll _ | WCall _ _ | WCheck _ | WSleep _ _ => true | _ => false end.

(** How far a caller is from its return. *)
Definition distance (x : waiter) : Q :=
  match w_pc x with
  | WStart => 1000 * inject_Z (Z.max 0 (w_count x)) + 3
  | WFailed n => 1000 * n + 3
  | WPoll n | WCall n _ | WCheck n | WSleep _ n => 1000 * n + 2
  | WBank _ | WLastSleep _ => 1
  | WDone => 0
  end.
Definition total (w : world) : Q := sumQ distance (waiters w).

(** The script has run, and its tick is not after [t]. *)
Definition ticked (w : world) (t : Z) : Prop :=
  ∃ h e t0, key w = Some (h, e) ∧ (last_tick h == inject_Z t0)%Q ∧ (t0 ≤ t)%Z.

(** Progress, or at least no step back: then the script's tick does not grow. *)
Definition less (w w' : world) : Prop := (total w' + 1 <= total w)%Q.
Definition calm (w w' : world) : Prop :=
  (total w' <= total w)%Q ∧ ∀ t, ticked w t → ticked w' t.

Lemma less_calm w0 w w' : less w0 w → (less w w' ∨ calm w w') → less w0 w'.
Proof. unfold less, calm. intros ? [?|[? _]]; lra. Qed.
Lemma calm_less w0 w w' : calm w0 w → less w w' → less w0 w'.
Proof. unfold less, calm. intros [? _] ?. lra. Qed.
Lemma calm_trans w0 w w' : calm w0 w → calm w w' → calm w0 w'.
Proof. unfold calm. intros [? H1] [? H2]. split; [lra|auto]. Qed.

Lemma distance_nonneg x : caller_ok x → (0 <= distance x)%Q.
Proof.
  unfold caller_ok, distance. destruct (w_pc x); intros; try lra.
  assert (0 <= inject_Z (Z.max 0 (w_count x)))%Q; [|lra].
  change 0%Q with (inject_Z 0). rewrite <-Zle_Qle. lia.
Qed.
Lemma total_nonneg r cap w : live_inv r cap w → (0 <= total w)%Q.
Proof.
  intros [_ _ Hw _ _]. unfold total. induction Hw as [|x l Hx _ IH]; simpl; [lra|].
  pose proof (distance_nonneg x Hx). lra.
Qed.

Section live.
Context (r cap : Q) (Hr1 : (1 ≤ to_int r)%Z) (Hc1 : (1 ≤ to_int cap)%Z)
  (Hr : (0 <= r)%Q) (Hcap : (0 <= cap)%Q).

(** ** The sections of [Wait] *)

Lemma accrue_local now (b : HybridBucket (F := Q)) :
  (0 <= rate b)%Q → (0 <= capacity b)%Q → (0 <= local b)%Q → (0 <= local (accrue now b))%Q.
Proof.
  intros. unfold accrue. set (el := seconds _). change (@f0 Q rational) with 0%Q.
  case_flt E; [|done]. cbn [local fmul fadd rational]. case_flt E2; [done|].
  assert (0 <= el * rate b)%Q by (apply Qmult_le_0_compat; [by apply Qlt_le_weak|done]). lra.
Qed.
Lemma accrue_fields now (b : HybridBucket (F := Q)) :
  rate (accrue now b) = rate b ∧ capacity (accrue now b) = capacity b.
Proof. unfold accrue. by destruct (flt _ _). Qed.

Lemma degraded_near (b : HybridBucket (F := Q)) now need count :
  caller_ok (mkWaiter count (degraded b now need)) ∧ (distance (mkWaiter count (degraded b now need)) <= 1)%Q.
Proof.
  unfold degraded. cbv zeta.
  destruct (flt _ _); [destruct (0 <? _)%Z|]; split; cbn [caller_ok distance w_pc]; done || lra.
Qed.

Lemma wait_start_live now count (b b' : HybridBucket (F := Q)) p :
  rate b = r ∧ capacity b = cap → (0 <= local b)%Q → wait_start now count b = (b', p) →
  (rate b' = r ∧ capacity b' = cap) ∧ (0 <= local b')%Q ∧ caller_ok (mkWaiter count p) ∧
  (distance (mkWaiter count p) + 1 <= distance (mkWaiter count WStart))%Q.
Proof.
  intros [Hbr Hbc] Hl. unfold wait_start.
  assert (distance (mkWaiter count WStart) = 1000 * inject_Z (Z.max 0 count) + 3)%Q as -> by done.
  destruct (Z.leb_spec count 0) as [Hc|Hc].
  { intros [= <- <-]. rewrite Z.max_l by done. cbn [caller_ok distance w_pc].
    change (inject_Z 0) with 0%Q. repeat split; [done..|]. lra. }
  set (canRedis := redisOK b && rc b). set (b1 := if canRedis then b else accrue now b).
  assert (rate b1 = r ∧ capacity b1 = cap ∧ (0 <= local b1)%Q) as (Hb1 & Hb2 & Hb3).
  { subst b1. destruct canRedis; [done|]. destruct (accrue_fields now b) as [-> ->].
    repeat split; [done..|]. apply accrue_local; congruence || (rewrite ?Hbr, ?Hbc; done). }
  rewrite Z.max_r by lia. rewrite Zlt_Qlt in Hc. change (inject_Z 0) with 0%Q in Hc.
  cbn [of_int rational fsub]. case_fle E.
  { intros [= <- <-]. cbn [rate capacity local set_local caller_ok distance w_pc].
    repeat split; [done..| |]; lra. }
  change (@f0 Q rational) with 0%Q.
  assert (flt 0%Q (inject_Z count - local b1)%Q = true) as -> by (apply flt_true; lra).
  intros [= <- <-]. split; [done|]. split; [apply Qle_refl|]. destruct canRedis.
  - cbn [caller_ok distance w_pc]. split; lra.
  - pose proof (degraded_near (set_local b1 0%Q) now (inject_Z count - local b1) count) as [? ?].
    split; [done|]. lra.
Qed.

Lemma after_grant_live count need g :
  (0 < need)%Q → (0 <= g)%Q →
  let x := mkWaiter count (after_grant need g) in
  let d := (1000 * need + 2)%Q in
  caller_ok x ∧ (distance x <= d)%Q ∧
  ((distance x + 1 <= d)%Q ∨ ∃ n, after_grant need g = WCheck n) ∧
  ((1 # 1000) <= g → distance x + 1 <= d)%Q.
Proof.
  intros Hn Hg. unfold after_grant. change (@f0 Q rational) with 0%Q. cbn [fsub rational].
  case_fle E; [|case_flt E2]; cbn [caller_ok distance w_pc].
  - split; [lra|]. split; [lra|]. split; [left; lra|intros; lra].
  - split; [lra|]. split; [lra|]. split; [right; eauto|intros; lra].
  - split; [lra|]. split; [lra|]. split; [right; eauto|intros; lra].
Qed.

Lemma after_grant_none (need : Q) : (0 < need)%Q → after_grant need f0 = WCheck need.
Proof.
  intros Hn. unfold after_grant. change (@f0 Q rational) with 0%Q.
  case_fle E; [lra|]. by case_flt E2; [lra|].
Qed.

(** A call grants something, or the script has run with its time or a later one. *)
Lemma call_live w need now g h :
  live_inv r cap w → (0 < need)%Q →
  luaTokenBucket exact_print (redis_lookup (key w) (now_ms w)) (to_int cap) (to_int r)
    (batch (hb w) need) now = (g, h) →
  (0 <= g)%Q ∧ (0 <= tokens h)%Q ∧ (last_tick h == inject_Z now)%Q ∧
  ((1 # 1000) <= g ∨ ¬ ticked w (now - 1))%Q.
Proof.
  intros [[Hbr _] _ _ _ Hk] Hn E.
  assert (1 ≤ batch (hb w) need)%Z as Hb.
  { unfold batch. rewrite Hbr. case_flt Ef; [done|]. rewrite to_int_nonneg in * by lra.
    etrans; [exact Hr1|]. by apply Qfloor_resp_le. }
  set (f := redis_lookup _ _) in *.
  assert (∀ h0, f = Some h0 → (∃ e, key w = Some (h0, e)) ∧ (0 <= tokens h0)%Q ∧
    ∃ t, (last_tick h0 == inject_Z t)%Q) as Hf.
  { intros h0 Hf. subst f. unfold redis_lookup, key_sane in *.
    destruct (key w) as [[h1 e]|]; [|done]. destruct (_ <? _)%Z; simplify_eq.
    destruct Hk as (? & t & ? & ?). eauto. }
  assert (∃ a, available f (inject_Z (to_int cap)) (inject_Z (to_int r)) now a) as [a Ha].
  { unfold available. destruct f as [h0|]; [|by eexists].
    destruct (Hf h0 eq_refl) as (_ & ? & t & ?). eexists. split; [done|].
    exists t. split; [done|reflexivity]. }
  pose proof exact_numbers as Hln.
  assert (0 ≤ to_int cap ∧ 0 ≤ to_int r ∧ 0 ≤ batch (hb w) need)%Z as (Hc0 & Hr0 & Hb0) by lia.
  destruct (lua_spec exact_print 0 _ _ _ _ _ _ _ _ Hc0 Hr0 Hb0 (Qeq_refl _) Ha E) as (Hg & Ht & Hl & _).
  repeat (split; [done|]). destruct f as [h0|] eqn:Ef.
  - destruct (Hf h0 eq_refl) as ((e & Hkey) & ? & t & Htick).
    destruct (Z.le_gt_cases (t + 1) now) as [Hle|Hgt]; [left|right].
    + apply (lua_grants (Some h0) _ _ _ _ _ _ Hc1 Hr1 Hb) with (2 := E).
      split; [done|]. exists t. split; [done|]. lia.
    + intros (h1 & e1 & t1 & Hk1 & Ht1 & Hle1). simplify_eq.
      rewrite Htick, inject_Z_injective in Ht1. lia.
  - left. by apply (lua_grants None _ _ _ _ _ _ Hc1 Hr1 Hb I E).
Qed.

(** One section: the world stays sane, and while Redis answers the caller gets
    nearer to its return, or it polls or sleeps and the tick of the script does
    not grow. *)
Definition section_ok (up : bool) (w : world) (x : waiter) (w' : world) (x' : waiter) : Prop :=
  (rate (hb w') = r ∧ capacity (hb w') = cap) ∧ (0 <= local (hb w'))%Q ∧ key_sane (key w') (now_ms w) ∧
  caller_ok x' ∧ call_past (now_ms w) x' ∧
  (up = true → (distance x' + 1 <= distance x)%Q ∨
    ((distance x' <= distance x)%Q ∧ ∀ t, ticked w t → ticked w' t) ∧ (polls x || negb (awake w x))).

Lemma wait_start_past now count (b b' : HybridBucket (F := Q)) p t :
  wait_start now count b = (b', p) → call_past t (mkWaiter count p).
Proof. unfold wait_start, degraded, call_past. intros. by repeat case_match; simplify_eq. Qed.

Lemma step_live up w x w' p :
  live_inv r cap w → caller_ok x → call_past (now_ms w) x → step up w x = (w', p) →
  section_ok up w x w' (mkWaiter (w_count x) p).
Proof.
  intros Hinv Hx Hpast. pose proof Hinv as [Hrc Hl _ _ Hk]. unfold step, section_ok. destruct x as [count q].
  (* a section that leaves the key and the bucket, and does not move the caller back *)
  assert (∀ q', caller_ok (mkWaiter count q') → call_past (now_ms w) (mkWaiter count q') →
    (distance (mkWaiter count q') <= distance (mkWaiter count q))%Q →
    polls (mkWaiter count q) || negb (awake w (mkWaiter count q)) →
    (w, q') = (w', p) → section_ok up w (mkWaiter count q) w' (mkWaiter count p)) as Hquiet
    by (intros q' ???? [= <- <-]; unfold section_ok; auto 10).
  destruct q as [|need|need now|need|extra|need|until need|until|]; cbn [w_pc w_count] in *.
  - destruct (wait_start _ _ _) as [b q'] eqn:E. intros [= <- <-].
    pose proof (wait_start_past _ _ _ _ _ (now_ms w) E).
    destruct (wait_start_live _ _ _ _ _ Hrc Hl E) as (? & ? & ? & ?). auto 9.
  - apply Hquiet; [done|unfold call_past; cbn [w_pc]; lia|apply Qle_refl|done].
  - destruct up.
    2:{ intros [= <- <-]. repeat (split; [done|]). done. }
    destruct Hrc as [Hbr Hbc]. rewrite Hbr, Hbc.
    destruct (luaTokenBucket _ _ _ _ _ _) as [g h] eqn:E. intros [= <- <-].
    destruct (call_live w need now g h Hinv Hx E) as (Hg & Ht & Hlt & Hp).
    destruct (after_grant_live count need g Hx Hg) as (Hok & Hd & _ & Hd1).
    unfold call_past in Hpast. cbn [w_pc] in Hpast.
    split; [done|]. split; [done|].
    split; [split; [done|]; exists now; split; [done|]; lia|]. split; [done|].
    split; [unfold call_past, after_grant; cbn [w_pc]; by destruct (fle need g)|]. intros _.
    destruct Hp as [Hp|Hp]; [left; by apply Hd1|right; split; [split; [done|]|done]].
    intros t Hti. assert (now ≤ t)%Z.
    { destruct (Z.le_gt_cases now t); [done|]. destruct Hp. destruct Hti as (h0 & e0 & t0 & ? & ? & ?).
      exists h0, e0, t0. split; [done|]. split; [done|lia]. }
    eexists _, _, now. split; [done|]. by split.
  - rewrite after_grant_none by done. intros [= <- <-].
    cbn [caller_ok distance w_pc]. repeat (split; [done|]). intros _. left. lra.
  - intros [= <- <-]. unfold caller_ok in Hx. cbn [w_pc] in Hx.
    cbn [hb key rate capacity local set_local caller_ok distance w_pc fadd rational].
    split; [done|]. split; [lra|]. repeat (split; [done|]). intros _. left. lra.
  - destruct (redisOK (hb w)); apply Hquiet;
      [done|done|apply Qle_refl|done|apply degraded_near| | |done].
    + unfold degraded, call_past. cbn [w_pc]. by repeat case_match.
    + pose proof (degraded_near (hb w) (clock w) need count) as [_ ?].
      unfold caller_ok in Hx. cbn [w_pc distance] in *. lra.
  - destruct (until <=? clock w)%Z; [|by apply Hquiet; [| |apply Qle_refl|]].
    change (@f0 Q rational) with 0%Q.
    assert (flt 0%Q need = true) as -> by by apply flt_true. by apply Hquiet; [| |apply Qle_refl|].
  - destruct (until <=? clock w)%Z eqn:E; [|apply Hquiet; [done|done|apply Qle_refl|]; unfold awake; cbn [w_pc]; by rewrite E].
    intros [= <- <-]. do 5 (split; [done|]). intros _. left. cbn [distance w_pc]. lra.
  - by apply Hquiet; [| |apply Qle_refl|].
Qed.

(** ** The world under a schedule *)

Lemma key_sane_mono k now now' : key_sane k now → (now ≤ now')%Z → key_sane k now'.
Proof.
  destruct k as [[h e]|]; [|done]. intros (? & t & ? & ?) ?. split; [done|]. exists t. split; [done|]. lia.
Qed.
Lemma calls_past_mono now now' (xs : list waiter) :
  (now ≤ now')%Z → Forall (call_past now) xs → Forall (call_past now') xs.
Proof.
  intros Hn Hf. eapply Forall_impl; [exact Hf|]. intros x. unfold call_past.
  destruct (w_pc x); try done. lia.
Qed.
Lemma now_ms_mono (w w' : world) : (clock w ≤ clock w')%Z → (now_ms w ≤ now_ms w')%Z.
Proof. intros. apply Z.div_le_mono; [unfold millisecond; lia|done]. Qed.

Lemma step_same_clock up w x w' p : step up w x = (w', p) → clock w' = clock w.
Proof. intros E. pose proof (step_clock exact_print up w x) as H. by rewrite E in H. Qed.

Lemma run_caller up w i x w' p :
  waiters w !! i = Some x → step up w x = (w', p) →
  exec w (Run i up) = mkWorld (hb w') (key w') (clock w') (probes w')
    (<[i := mkWaiter (w_count x) p]> (waiters w)).
Proof. intros Hi E. unfold HybridBucket.exec. by rewrite Hi, E. Qed.

Lemma exec_live w a : live_inv r cap w → live_inv r cap (exec w a).
Proof.
  intros Hinv. pose proof Hinv as [Hrc Hl Hw Hcl Hk]. destruct a as [dt|i up|up].
  - assert (now_ms w ≤ now_ms (exec w (Tick dt)))%Z as Hn by (apply now_ms_mono; simpl; lia).
    split; [done|done|done|by eapply calls_past_mono|by eapply key_sane_mono].
  - destruct (waiters w !! i) as [x|] eqn:Hi; [|unfold HybridBucket.exec; by rewrite Hi].
    destruct (step up w x) as [w' p] eqn:E. rewrite (run_caller _ _ _ _ _ _ Hi E).
    destruct (step_live _ _ _ _ _ Hinv (Forall_lookup_1 _ _ _ _ Hw Hi) (Forall_lookup_1 _ _ _ _ Hcl Hi) E)
      as (?&?&?&?&?&_).
    assert (∀ k b n l, now_ms (mkWorld (F := Q) b k (clock w') n l) = now_ms w) as Hn
      by (intros; unfold now_ms; cbn [clock]; by rewrite (step_same_clock _ _ _ _ _ E)).
    split; [done|done|by apply Forall_insert| |by rewrite Hn]. rewrite Hn. by apply Forall_insert.
  - unfold HybridBucket.exec. destruct (probes w); [done|]. destruct up; by split.
Qed.

Lemma total_run w i x y k :
  waiters w !! i = Some x → total (mkWorld (hb k) (key k) (clock k) (probes k) (<[i := y]> (waiters w)))
    == total w - distance x + distance y.
Proof. intros Hi. unfold total. cbn [waiters]. by rewrite (sumQ_insert _ _ _ _ _ Hi). Qed.

Lemma exec_progress w a :
  live_inv r cap w → redis_up a → less w (exec w a) ∨ calm w (exec w a).
Proof.
  intros Hinv Hup. pose proof Hinv as [_ _ Hw Hcl _].
  assert (calm w w) as Hsame by (split; [apply Qle_refl|done]).
  destruct a as [dt|i up|up]; [by right| |].
  - simpl in Hup. subst up. destruct (waiters w !! i) as [x|] eqn:Hi; [|right; unfold HybridBucket.exec; by rewrite Hi].
    destruct (step true w x) as [w' p] eqn:E. rewrite (run_caller _ _ _ _ _ _ Hi E). unfold less, calm.
    rewrite (total_run _ _ _ _ _ Hi).
    destruct (step_live _ _ _ _ _ Hinv (Forall_lookup_1 _ _ _ _ Hw Hi) (Forall_lookup_1 _ _ _ _ Hcl Hi) E)
      as (_&_&_&_&_&[?|[[? Ht] _]]); [done|left; lra|right]. split; [lra|]. intros t Hti. exact (Ht t Hti).
  - right. unfold HybridBucket.exec. destruct (probes w); [done|]. by destruct up.
Qed.

(** The callers stay the same. *)
Lemma exec_callers w a : w_count <$> waiters (exec w a) = w_count <$> waiters w.
Proof.
  destruct a as [dt|i up|up]; [done| |].
  - destruct (waiters w !! i) as [x|] eqn:Hi; [|unfold HybridBucket.exec; by rewrite Hi].
    destruct (step up w x) as [w' p] eqn:E. rewrite (run_caller _ _ _ _ _ _ Hi E). cbn [waiters].
    rewrite list_fmap_insert. apply list_insert_id. by rewrite list_lookup_fmap, Hi.
  - unfold HybridBucket.exec. destruct (probes w); [done|]. by destruct up.
Qed.

Section schedule.
Context (w0 : world) (acts : nat → action) (Hinv : live_inv r cap w0)
  (Hup : ∀ m, redis_up (acts m)) (Hfair : fair (length (waiters w0)) acts).

#[local] Abbreviation W := (after w0 acts).

Lemma after_live n : live_inv r cap (W n).
Proof. induction n; [done|]. by apply exec_live. Qed.

Lemma after_callers n : w_count <$> waiters (W n) = w_count <$> waiters w0.
Proof. induction n as [|n IH]; [done|]. cbn [after]. by rewrite exec_callers. Qed.

Lemma after_progress n m : n ≤ m → less (W n) (W m) ∨ calm (W n) (W m).
Proof.
  induction 1 as [|m _ IH]; [right; split; [apply Qle_refl|done]|].
  pose proof (exec_progress _ _ (after_live m) (Hup m)) as Hs. cbn [after].
  destruct IH as [IH|IH]; [left; by eapply less_calm|].
  destruct Hs as [Hs|Hs]; [left; by eapply calm_less|right; by eapply calm_trans].
Qed.

Lemma after_clock n m : n ≤ m → (clock (W n) ≤ clock (W m))%Z.
Proof. induction 1; [done|]. etrans; [done|]. apply exec_clock. Qed.

Lemma time_passes n u : ∃ m, n ≤ m ∧ (u ≤ clock (W m))%Z.
Proof.
  assert (∀ d n, (u ≤ clock (W n) + Z.of_nat d)%Z → ∃ m, n ≤ m ∧ (u ≤ clock (W m))%Z) as H.
  { induction d as [|d IH]; intros k Hk; [exists k; lia|].
    destruct (proj2 Hfair k) as (m & dt & Hm & Ha & Hdt). pose proof (after_clock _ _ Hm).
    destruct (IH (S m)) as (m' & ? & ?); [simpl; rewrite Ha; simpl; lia|]. exists m'. split; [lia|done]. }
  apply (H (Z.to_nat (u - clock (W n)))). lia.
Qed.

#[local] Instance action_eq_dec : EqDecision action.
Proof. solve_decision. Defined.

(** A caller that is not run, or asleep, stays where it is. *)
Lemma exec_stays w a i x :
  redis_up a → waiters w !! i = Some x → ¬ (a = Run i true ∧ awake w x) →
  waiters (exec w a) !! i = Some x.
Proof.
  intros Ha Hi Hn. destruct a as [dt|j up|up]; [done| |].
  - simpl in Ha. subst up. destruct (waiters w !! j) as [y|] eqn:Hj;
      [|unfold HybridBucket.exec; by rewrite Hj].
    destruct (step true w y) as [w' p] eqn:E. rewrite (run_caller _ _ _ _ _ _ Hj E). cbn [waiters].
    destruct (decide (j = i)) as [->|]; [|by rewrite list_lookup_insert_ne].
    rewrite list_lookup_insert_eq by (by eapply lookup_lt_Some). simplify_eq.
    assert (awake w x = false) as Hs by (destruct (awake w x); [destruct Hn; by split|done]).
    unfold HybridBucket.step, awake in *. destruct x as [c []]; cbn [w_pc w_count] in *; try done.
    all: try rewrite Hs in E; by simplify_eq.
  - unfold HybridBucket.exec. destruct (probes w); [done|]. by destruct up.
Qed.

(** Every caller that has not returned is run again, when it is awake. *)
Lemma comes_round n i x :
  waiters (W n) !! i = Some x → w_pc x ≠ WDone →
  ∃ m, n ≤ m ∧ acts m = Run i true ∧ awake (W m) x ∧ waiters (W m) !! i = Some x.
Proof.
  intros Hi Hx.
  assert (∃ m, n ≤ m ∧ acts m = Run i true ∧ awake (W m) x) as (m & Hm & Ha & Hw).
  { assert (∃ k, n ≤ k ∧ ∀ m, k ≤ m → awake (W m) x) as (k & ? & Hk).
    { unfold awake. destruct (w_pc x) as [|?|? ?|?|?|?|u ?|u|]; try done; try (by exists n).
      all: destruct (time_passes n u) as (k & ? & ?); exists k; split; [done|].
      all: intros m Hm; pose proof (after_clock _ _ Hm); apply Is_true_true, Z.leb_le; lia. }
    destruct (proj1 Hfair i k) as (m & ? & ?); [|exists m; split; [lia|auto]].
    rewrite <-(length_fmap w_count), <-(after_callers n), length_fmap. by eapply lookup_lt_Some. }
  remember (m - n) as d eqn:Hd. revert n Hi Hm Hd. induction d as [|d IH]; intros n Hi Hm Hd.
  { assert (m = n) as -> by lia. eauto. }
  destruct (decide (acts n = Run i true ∧ awake (W n) x)) as [[? ?]|Hn]; [by exists n|].
  destruct (IH (S n)) as (m' & ? & ?); [by apply exec_stays|lia|lia|]. exists m'. split; [lia|done].
Qed.

(** ** The polling loop makes progress *)

Definition soon (n : nat) : Prop := ∃ m, n ≤ m ∧ less (W n) (W m).
Definition at_pc (n i : nat) (c : Z) (p : pc) : Prop := waiters (W n) !! i = Some (mkWaiter c p).

Lemma soon_later n m : n ≤ m → soon m → soon n.
Proof.
  intros Hm (m' & ? & Hl). exists m'. split; [lia|].
  destruct (after_progress n m Hm) as [Hs|Hs]; [|by eapply calm_less].
  eapply less_calm; [done|]. by left.
Qed.

(** Running a caller that gets nearer is progress. *)
Lemma run_soon n i x w' p :
  acts n = Run i true → waiters (W n) !! i = Some x → step true (W n) x = (w', p) →
  (distance (mkWaiter (w_count x) p) + 1 <= distance x)%Q → soon n.
Proof.
  intros Ha Hi E Hd. exists (S n). split; [lia|]. cbn [after]. rewrite Ha, (run_caller _ _ _ _ _ _ Hi E).
  unfold less. rewrite (total_run _ _ _ _ _ Hi). lra.
Qed.

Lemma ran_at n i c q w' p :
  acts n = Run i true → at_pc n i c q → step true (W n) (mkWaiter c q) = (w', p) →
  at_pc (S n) i c p ∧ key (W (S n)) = key w'.
Proof.
  intros Ha Hi E. unfold at_pc. cbn [after]. rewrite Ha, (run_caller _ _ _ _ _ _ Hi E). cbn [waiters key].
  split; [|done]. apply list_lookup_insert_eq. by eapply lookup_lt_Some.
Qed.

Lemma caller_at n i c p : at_pc n i c p → caller_ok (mkWaiter c p).
Proof. intros Hi. exact (Forall_lookup_1 _ _ _ _ (li_waiters _ _ _ (after_live n)) Hi). Qed.

Lemma call_at n i c need t : at_pc n i c (WCall need t) → (t ≤ now_ms (W n))%Z.
Proof. intros Hi. exact (Forall_lookup_1 _ _ _ _ (li_calls _ _ _ (after_live n)) Hi). Qed.

(** The script runs: its caller gets nearer, or polls again, and the script had
    run with the same time or a later one. *)
Lemma call_result n i c need now :
  acts n = Run i true → at_pc n i c (WCall need now) →
  soon n ∨ ¬ ticked (W n) (now - 1) ∧
    ∃ need', at_pc (S n) i c (WCheck need') ∧ ticked (W (S n)) now.
Proof.
  intros Ha Hi. pose proof (after_live n) as Hn. pose proof (caller_at _ _ _ _ Hi) as Hok.
  destruct (li_rate _ _ _ Hn) as [Hbr Hbc].
  destruct (luaTokenBucket exact_print (redis_lookup (key (W n)) (now_ms (W n))) (to_int cap) (to_int r)
    (batch (hb (W n)) need) now) as [g h] eqn:E.
  destruct (call_live _ _ _ _ _ Hn Hok E) as (Hg & _ & Hlt & Hp).
  destruct (after_grant_live c need g Hok Hg) as (_ & _ & Hd & Hd1).
  assert (step true (W n) (mkWaiter c (WCall need now)) =
    (mkWorld (hb (W n)) (Some (h, now_ms (W n) + ttl_ms)%Z) (clock (W n)) (probes (W n)) (waiters (W n)),
     after_grant need g)) as Hs by (unfold HybridBucket.step; cbn [w_pc]; by rewrite Hbr, Hbc, E).
  assert ((distance (mkWaiter c (after_grant need g)) + 1 <= 1000 * need + 2)%Q → soon n) as Hsoon
    by (intros; by eapply run_soon).
  destruct Hp as [Hp|Hp]; [left; auto|]. destruct Hd as [Hd|[need' Hd]]; [left; auto|]. right. split; [done|].
  rewrite Hd in Hs. destruct (ran_at _ _ _ _ _ _ Ha Hi Hs) as [Hat Hk]. exists need'. split; [done|].
  exists h, (now_ms (W n) + ttl_ms)%Z, now. by rewrite Hk.
Qed.

(** A poll reads the clock. *)
Lemma poll_calls n i c need :
  at_pc n i c (WPoll need) → ∃ m, n ≤ m ∧ at_pc (S m) i c (WCall need (now_ms (W m))).
Proof.
  intros Hi. destruct (comes_round _ _ _ Hi) as (m & Hm & Ha & _ & Hi'); [done|].
  exists m. split; [done|]. exact (proj1 (ran_at m i c (WPoll need) (W m) (WCall need (now_ms (W m))) Ha Hi' eq_refl)).
Qed.

(** A call with a later time than the script's tick. *)
Lemma call_stale n i c need now t :
  at_pc n i c (WCall need now) → ticked (W n) t → (t < now)%Z → soon n.
Proof.
  intros Hi Ht Hlt. destruct (comes_round _ _ _ Hi) as (m & Hm & Ha & _ & Hi'); [done|].
  destruct (after_progress n m Hm) as [?|[_ Hk]]; [by exists m|]. apply (soon_later n m Hm).
  destruct (call_result _ _ _ _ _ Ha Hi') as [?|[Hno _]]; [done|exfalso; apply Hno].
  destruct (Hk t Ht) as (h & e & t0 & ? & ? & ?). exists h, e, t0. split; [done|]. split; [done|lia].
Qed.

(** A poll in a later millisecond than the script's tick. *)
Lemma poll_stale n i c need t :
  at_pc n i c (WPoll need) → ticked (W n) t → (t < now_ms (W n))%Z → soon n.
Proof.
  intros Hi Ht Hlt. destruct (poll_calls _ _ _ _ Hi) as (m & Hm & Hi').
  destruct (after_progress n (S m) ltac:(lia)) as [?|[_ Hk]]; [exists (S m); split; [lia|done]|].
  apply (soon_later n (S m)); [lia|]. apply (call_stale _ _ _ _ _ t Hi' (Hk t Ht)).
  pose proof (now_ms_mono _ _ (after_clock _ _ Hm)). lia.
Qed.

Lemma sleep_wakes n i c until need :
  at_pc n i c (WSleep until need) →
  ∃ m, n ≤ m ∧ (until ≤ clock (W m))%Z ∧ at_pc m i c (WPoll need).
Proof.
  intros Hi. destruct (comes_round _ _ _ Hi) as (m & Hm & Ha & Hw & Hi'); [done|].
  unfold awake in Hw. cbn [w_pc] in Hw. apply Is_true_true in Hw.
  assert (step true (W m) (mkWaiter c (WSleep until need)) = (W m, WPoll need)) as Hs.
  { unfold HybridBucket.step. cbn [w_pc]. rewrite Hw. change (@f0 Q rational) with 0%Q.
    assert (flt 0%Q need = true) as -> by exact (proj2 (flt_true _ _) (caller_at _ _ _ _ Hi)). done. }
  exists (S m). split; [lia|]. split; [|by apply (ran_at _ _ _ _ _ _ Ha Hi' Hs)].
  etrans; [by apply Z.leb_le|]. apply after_clock. lia.
Qed.

Lemma check_sleeps n i c need :
  at_pc n i c (WCheck need) →
  soon n ∨ ∃ m until, n ≤ m ∧ (clock (W n) + millisecond ≤ until)%Z ∧ at_pc m i c (WSleep until need).
Proof.
  intros Hi. destruct (comes_round _ _ _ Hi) as (m & Hm & Ha & _ & Hi'); [done|].
  destruct (step true (W m) (mkWaiter c (WCheck need))) as [w' p] eqn:E. pose proof E as E0.
  unfold HybridBucket.step in E0. cbn [w_pc] in E0.
  destruct (redisOK (hb (W m))); injection E0 as <- <-.
  - right. eexists (S m), _. split; [lia|]. split; [|by apply (ran_at _ _ _ _ _ _ Ha Hi' E)].
    pose proof (poll_sleep_min need (rate (hb (W m)))). pose proof (after_clock _ _ Hm). lia.
  - left. apply (soon_later n m Hm). eapply run_soon; [done..|].
    pose proof (caller_at _ _ _ _ Hi) as Hok. unfold caller_ok in Hok.
    pose proof (degraded_near (hb (W m)) (clock (W m)) need c) as [_ ?]. cbn [w_pc w_count distance] in *. lra.
Qed.

Lemma check_soon n i c need t :
  at_pc n i c (WCheck need) → ticked (W n) t → (t ≤ now_ms (W n))%Z → soon n.
Proof.
  intros Hi Ht Hle. destruct (check_sleeps _ _ _ _ Hi) as [?|(m & until & Hm & Hu & Hi')]; [done|].
  destruct (sleep_wakes _ _ _ _ _ Hi') as (m' & Hm' & Hc & Hi2).
  destruct (after_progress n m' ltac:(lia)) as [?|[_ Hk]]; [exists m'; split; [lia|done]|].
  apply (soon_later n m'); [lia|]. apply (poll_stale _ _ _ _ t Hi2 (Hk t Ht)).
  pose proof (Z.div_le_mono (clock (W n) + 1 * millisecond) (clock (W m')) millisecond) as Hd.
  rewrite Z.div_add in Hd by done. unfold now_ms in *. unfold millisecond in *. lia.
Qed.

Lemma call_soon n i c need now : at_pc n i c (WCall need now) → soon n.
Proof.
  intros Hi. pose proof (call_at _ _ _ _ _ Hi) as Hnow.
  destruct (comes_round _ _ _ Hi) as (m & Hm & Ha & _ & Hi'); [done|]. apply (soon_later n m Hm).
  destruct (call_result _ _ _ _ _ Ha Hi') as [?|(_ & need' & Hc & Ht)]; [done|].
  apply (soon_later m (S m)); [lia|]. apply (check_soon _ _ _ _ _ Hc Ht).
  etrans; [exact Hnow|]. apply now_ms_mono, after_clock. lia.
Qed.

Lemma poll_soon n i c need : at_pc n i c (WPoll need) → soon n.
Proof.
  intros Hi. destruct (poll_calls _ _ _ _ Hi) as (m & Hm & Hi').
  apply (soon_later n (S m)); [lia|]. by eapply call_soon.
Qed.

Lemma caller_soon n i x : waiters (W n) !! i = Some x → w_pc x ≠ WDone → soon n.
Proof.
  intros Hi Hx. destruct x as [c p]. destruct (polls (mkWaiter c p)) eqn:Hp.
  - assert (∀ m until need, n ≤ m → at_pc m i c (WSleep until need) → soon n) as Hsleep.
    { intros m until need Hm Hs. destruct (sleep_wakes _ _ _ _ _ Hs) as (m' & ? & _ & Hp').
      apply (soon_later n m'); [lia|by eapply poll_soon]. }
    destruct p; try done; [by eapply poll_soon|by eapply call_soon| |by eapply (Hsleep n)].
    destruct (check_sleeps _ _ _ _ Hi) as [?|(m & until & Hm & _ & Hi')]; [done|by eapply Hsleep].
  - destruct (comes_round _ _ _ Hi Hx) as (m & Hm & Ha & Hw & Hi'). apply (soon_later n m Hm).
    destruct (step true (W m) (mkWaiter c p)) as [w' p'] eqn:E.
    destruct (step_live _ _ _ _ _ (after_live m) (caller_at _ _ _ _ Hi')
      (Forall_lookup_1 _ _ _ _ (li_calls _ _ _ (after_live m)) Hi') E) as (_&_&_&_&_&[?|[_ Hs]]);
      [done|by eapply run_soon|].
    rewrite Hp in Hs. by destruct (awake (W m) _).
Qed.

#[local] Instance returned_dec (x : waiter) : Decision (w_pc x = WDone).
Proof. destruct (w_pc x); (by left) || (by right). Defined.

Lemma all_return n : ∃ m, n ≤ m ∧ Forall (λ x, w_pc x = WDone) (waiters (W m)).
Proof.
  assert (∀ d n, (total (W n) <= inject_Z (Z.of_nat d))%Q →
    ∃ m, n ≤ m ∧ Forall (λ x, w_pc x = WDone) (waiters (W m))) as H.
  { induction d as [|d IH]; intros k Hk.
    all: destruct (decide (Forall (λ x, w_pc x = WDone) (waiters (W k)))) as [?|Hn]; [by exists k|].
    all: apply not_Forall_Exists in Hn; [|apply _]; apply Exists_exists in Hn as (x & [i Hi]%list_elem_of_lookup & Hx).
    all: destruct (caller_soon _ _ _ Hi Hx) as (m & Hm & Hl); unfold less in Hl.
    - pose proof (total_nonneg _ _ _ (after_live m)). change (inject_Z (Z.of_nat 0)) with 0%Q in Hk. lra.
    - destruct (IH m) as (m' & ? & ?); [|exists m'; split; [lia|done]].
      rewrite Nat2Z.inj_succ, <-Z.add_1_r, inject_Z_plus in Hk. change (inject_Z 1) with 1%Q in Hk. lra. }
  apply (H (Z.to_nat (Qceiling (total (W n))))).
  pose proof (Qle_ceiling (total (W n))). pose proof (total_nonneg _ _ _ (after_live n)).
  assert (0 ≤ Qceiling (total (W n)))%Z by (rewrite Zle_Qle; change (inject_Z 0) with 0%Q; lra).
  by rewrite Z2Nat.id.
Qed.

End schedule.

(** ** The theorem *)

Lemma run_live w pre : live_inv r cap w → live_inv r cap (run exact_print w pre).
Proof. revert w. induction pre as [|a pre IH]; intros w Hw; [done|]. by apply IH, exec_live. Qed.
Lemma run_callers w pre : w_count <$> waiters (run exact_print w pre) = w_count <$> waiters w.
Proof. revert w. induction pre as [|a pre IH]; intros w; [done|]. simpl. by rewrite IH, exec_callers. Qed.

Lemma initial_live now client sid k counts :
  key_sane k (now / millisecond) → live_inv r cap (initial now r cap client sid k counts).
Proof. intros Hk. split; simpl; [done|apply Qle_refl|by apply Forall_map, Forall_true..|done]. Qed.
Lemma initial_callers now client sid k counts :
  w_count <$> waiters (initial (F := Q) now r cap client sid k counts) = counts.
Proof. induction counts as [|c counts IH]; [done|]. cbn in *. f_equal. exact IH. Qed.

Lemma served_all (w : world) :
  Forall (λ x, w_pc x = WDone) (waiters w) →
  served w = foldr Z.add 0%Z (Z.max 0 <$> (w_count <$> waiters w)).
Proof. unfold served. induction 1 as [|x l Hx _ IH]; [done|]. simpl. by rewrite Hx, IH. Qed.

End live.

(** C21: every caller of [Wait] returns.  Let callers wait on a session's
    bucket and let anything happen ([pre]): failed calls to Redis, probes, any
    interleaving.  From then on let Redis answer, every caller be run again and
    again and time go on.  With a rate and a capacity of at least one byte, all
    callers have returned at some moment, with all the bytes they asked for. *)
Theorem callers_return r cap now client sid k counts pre acts :
  (1 ≤ to_int r)%Z → (1 ≤ to_int cap)%Z → (0 <= r)%Q → (0 <= cap)%Q →
  key_sane k (now / millisecond) →
  (∀ m, redis_up (acts m)) → fair (length counts) acts →
  ∃ n, let w := after (run exact_print (initial now r cap client sid k counts) pre) acts n in
    Forall (λ x, w_pc x = WDone) (waiters w) ∧ served w = foldr Z.add 0%Z (Z.max 0 <$> counts).
Proof.
  intros Hr1 Hc1 Hr Hcap Hk Hup Hfair. set (w0 := run _ _ pre).
  assert (live_inv r cap w0) as Hinv by (by apply run_live, initial_live).
  assert (w_count <$> waiters w0 = counts) as Hcounts
    by (subst w0; by rewrite run_callers, initial_callers).
  assert (fair (length (waiters w0)) acts) as Hf by (by rewrite <-(length_fmap w_count), Hcounts).
  destruct (all_return r cap Hr1 Hc1 Hr Hcap w0 acts Hinv Hup Hf 0) as (n & _ & Hn).
  exists n. cbv zeta. split; [done|]. by rewrite served_all, after_callers, Hcounts.
Qed.

(** ** A concrete schedule *)

(** Two callers that take turns, and ten milliseconds after each turn. *)
Definition turns (m : nat) : action :=
  match m mod 3 with 0 => Run 0 true | 1 => Run 1 true | _ => Tick (10 * 10 ^ 6) end.

Lemma turns_fair : fair 2 turns.
Proof.
  assert (∀ i k, i < 3 → (3 * k + i) mod 3 = i) as Hmod
    by (intros i k Hi; rewrite Nat.add_comm, Nat.mul_comm, Nat.Div0.mod_add; by apply Nat.mod_small).
  unfold fair, turns. split.
  - intros i k Hi. exists (3 * k + i). split; [lia|]. rewrite Hmod by lia. by destruct i as [|[]]; try lia.
  - intros k. exists (3 * k + 2), (10 * 10 ^ 6)%N. split; [lia|]. by rewrite Hmod by lia.
Qed.
Lemma turns_up m : redis_up (turns m).
Proof. unfold turns. by repeat case_match. Qed.

(** The first call of the first caller fails; a probe brings Redis back. *)
Definition outage : list action := [Run 0 true; Run 0 true; Run 0 false; Run 0 true; Tick (5 * 10 ^ 9); ProbeTick true].

Example callers_return_witness :
  ∃ n, let w := after (run exact_print (initial (10 ^ 18) 1000%Q 1000%Q true "s" None [1500; 700]%Z) outage) turns n in
    Forall (λ x, w_pc x = WDone) (waiters w) ∧ served w = 2200%Z.
Proof.
  apply (callers_return 1000 1000 (10 ^ 18) true "s" None [1500; 700]%Z outage turns);
    [by vm_compute|by vm_compute|lra|lra|exact I|exact turns_up|exact turns_fair].
Defined.
