(* ===== verification/HybridBucketFleet.v ===== *)
(** * One session, many buckets

    The buckets of a session multiply: every pod of the deployment has its own,
    and a pod makes a new one when the pool has forgotten the old while callers
    still wait on it.  They share the key in Redis.  A fleet is the key, the
    clock and any number of buckets with their callers; an action is one of
    [HybridBucket.exec] at one bucket, or a new bucket. *)

From Stdlib Require Import QArith Qround Lqa.
From S2P Require Import Prelude GoStrings GoFloat Claims LazyMap HybridBucket HybridBucketSpec.

#[local] Existing Instance rational.

(** ** Fleets *)

(** A bucket, its probe goroutines, and the calls of [Wait] on it. *)
Record pod := mkPod {
  p_hb : HybridBucket (F := Q);
  p_probes : nat;
  p_waiters : list (waiter (F := Q))
}.

Record fleet := mkFleet {
  f_key : redis_key (F := Q);
  f_clock : Z;
  pods : list pod
}.

Inductive fleet_action :=
  | At (j : nat) (a : action)
  | NewBucket (counts : list Z).

(** The world of one bucket. *)
Definition view (f : fleet) (p : pod) : world :=
  mkWorld (p_hb p) (f_key f) (f_clock f) (p_probes p) (p_waiters p).

Section fleet.
Context (tostr : Q → Q) (r cap : Q) (sid : string).

(** A bucket that is made now for the session, with its callers. *)
Definition new_pod (now : Z) (counts : list Z) : pod :=
  let w := initial now r cap true sid None counts in mkPod (hb w) (probes w) (waiters w).

Definition fleet_exec (f : fleet) (x : fleet_action) : fleet :=
  match x with
  | At j a =>
      match pods f !! j with
      | None => f
      | Some p =>
          let w := exec tostr (view f p) a in
          mkFleet (key w) (clock w) (<[j := mkPod (hb w) (probes w) (waiters w)]> (pods f))
      end
  | NewBucket counts => mkFleet (f_key f) (f_clock f) (pods f ++ [new_pod (f_clock f) counts])
  end.
Definition fleet_run (f : fleet) (xs : list fleet_action) : fleet := foldl fleet_exec f xs.

Definition fleet_up (x : fleet_action) : Prop := match x with At _ a => redis_up a | _ => True end.
Definition fleet_ms (f : fleet) : Z := f_clock f / millisecond.

(** What the calls of the script in a run set the account back, and how long they
    took from reading the clock to running the script. *)
Definition fleet_on_call (f : world → action → Z) (x : fleet) (a : fleet_action) : Z :=
  match a with
  | At j a => match pods x !! j with Some p => f (view x p) a | None => 0%Z end
  | NewBucket _ => 0%Z
  end.
Fixpoint fleet_sum (f : world → action → Z) (x : fleet) (xs : list fleet_action) : Z :=
  match xs with
  | [] => 0
  | a :: xs => fleet_on_call f x a + fleet_sum f (fleet_exec x a) xs
  end.
Definition setbacks : fleet → list fleet_action → Z := fleet_sum call_setback.
Definition delays : fleet → list fleet_action → Z := fleet_sum call_delay.

(** What all callers of all buckets have been let through. *)
Definition fleet_served (f : fleet) : Z := foldr Z.add 0%Z (map (λ p, served (view f p)) (pods f)).

(** ** The ledger of the session *)

Context (eps : Q) `{!LuaNumbers tostr eps}.
Context (Hr : (0 <= r)%Q) (Hcap : (0 <= cap)%Q) (Hcr : (to_int cap ≤ 300 * to_int r)%Z).

Definition pod_spent (p : pod) : Q := (local (p_hb p) + sumQ taken (p_waiters p))%Q.
Definition fleet_spent (f : fleet) : Q := sumQ pod_spent (pods f).

Definition pod_ok (p : pod) : Prop :=
  (redisOK (p_hb p) = true ∧ rc (p_hb p) = true) ∧ (rate (p_hb p) = r ∧ capacity (p_hb p) = cap) ∧
  (0 <= local (p_hb p))%Q ∧ Forall waiter_ok (p_waiters p) ∧ p_probes p = 0.

Record fleet_ledger (T0 : Z) (n : nat) (B : Z) (f : fleet) : Prop := mkFleetLedger {
  fl_pods : Forall pod_ok (pods f);
  fl_calls : Forall (λ p, Forall (call_within T0 (fleet_ms f)) (p_waiters p)) (pods f);
  fl_clock : (0 ≤ T0 ≤ fleet_ms f)%Z;
  fl_setbacks : (0 ≤ B)%Z;
  fl_spent :
    match f_key f with
    | None => (fleet_spent f <= 2 * eps * inject_Z (Z.of_nat n))%Q
    | Some (h, expires) => (0 <= tokens h)%Q ∧ ∃ t, (last_tick h == inject_Z t)%Q ∧
        (T0 ≤ t)%Z ∧ (t + ttl_ms ≤ expires ≤ fleet_ms f + ttl_ms)%Z ∧
        (fleet_spent f + tokens h <= inject_Z (to_int cap) +
           inject_Z (to_int r) * (inject_Z (t - T0 + B) / 1000) + 2 * eps * inject_Z (Z.of_nat n))%Q
    end
}.

(** The ledger of the session, seen from one of its buckets. *)
Lemma ledger_view T0 n B f j p :
  pods f !! j = Some p → fleet_ledger T0 n B f →
  ledger eps (fleet_spent f - pod_spent p) r cap T0 n B (view f p).
Proof.
  intros Hj [Hp Hcl Hc HB Hs]. destruct (Forall_lookup_1 _ _ _ _ Hp Hj) as (Hm & Hrc & Hl & Hw & _).
  pose proof (Forall_lookup_1 _ _ _ _ Hcl Hj) as Hcp.
  assert (fleet_spent f - pod_spent p + spent (view f p) == fleet_spent f)%Q as He
    by (unfold spent, pod_spent; cbn [hb waiters view]; ring).
  split; [done|done|done|done|done|done|done|]. cbn [key view]. destruct (f_key f) as [[h ex]|]; [|by rewrite He].
  destruct Hs as (? & t & ? & ? & ? & ?). split; [done|]. exists t. by rewrite He.
Qed.

(** And back, after something happened at that bucket. *)
Lemma fleet_view T0 n n' B B' f j p w :
  pods f !! j = Some p → fleet_ledger T0 n B f → (f_clock f ≤ clock w)%Z →
  ledger eps (fleet_spent f - pod_spent p) r cap T0 n' B' w → probes w = 0 →
  fleet_ledger T0 n' B' (mkFleet (key w) (clock w) (<[j := mkPod (hb w) (probes w) (waiters w)]> (pods f))).
Proof.
  intros Hj [Hp Hcl _ _ _] Hclk [Hm Hrc Hl Hw Hcw Hc HB Hs] Hpr. set (f' := mkFleet _ _ _).
  assert (fleet_spent f' == fleet_spent f - pod_spent p + spent w)%Q as He.
  { unfold fleet_spent. subst f'. cbn [pods]. rewrite (sumQ_insert _ _ _ _ _ Hj). reflexivity. }
  split; [| |done|done|].
  - apply Forall_insert; [done|]. by unfold pod_ok; split_and!; try tauto.
  - apply Forall_insert; [|done]. eapply Forall_impl; [exact Hcl|]. intros q.
    apply calls_later. by apply Z.div_le_mono.
  - subst f'. cbn [f_key] in *. destruct (key w) as [[h ex]|]; [|by rewrite He].
    destruct Hs as (? & t & ? & ? & ? & ?). split; [done|]. exists t. by rewrite He.
Qed.

Lemma new_pod_ledger T0 n B f counts :
  fleet_ledger T0 n B f → fleet_ledger T0 (S n) B (fleet_exec f (NewBucket counts)).
Proof.
  intros [Hp Hcl Hc HB Hs]. destruct (eps_mono tostr eps n) as [_ Hmono].
  assert (pod_spent (new_pod (f_clock f) counts) == 0)%Q as H0.
  { unfold pod_spent, new_pod. cbn [p_hb p_waiters initial NewHybridBucket hb waiters local].
    change (@f0 Q rational) with 0%Q. induction counts as [|c cs IH]; [reflexivity|].
    cbn [map sumQ]. change (taken (mkWaiter c WStart)) with 0%Q. lra. }
  assert (fleet_spent (fleet_exec f (NewBucket counts)) == fleet_spent f)%Q as He.
  { unfold fleet_spent. cbn [fleet_exec pods].
    assert (∀ l : list pod, sumQ pod_spent (l ++ [new_pod (f_clock f) counts]) == sumQ pod_spent l)%Q as Hl.
    { induction l as [|q l IH]; cbn [sumQ app]; [rewrite H0; reflexivity|]. by rewrite IH. }
    apply Hl. }
  split; cbn [fleet_exec pods f_key]; [| |done|done|].
  - apply Forall_app. split; [done|]. constructor; [|done].
    unfold new_pod. split_and!; try done. by apply Forall_map, Forall_true.
  - apply Forall_app. split; [done|]. constructor; [|done]. by apply Forall_map, Forall_true.
  - destruct (f_key f) as [[h ex]|]; [|rewrite He; lra].
    destruct Hs as (? & t & ? & ? & ? & ?). split; [done|]. exists t. rewrite He.
    split; [done|]. split; [done|]. split; [done|]. lra.
Qed.

Lemma fleet_step T0 n B f x :
  (fleet_ms f < 10 ^ 14)%Z → fleet_ledger T0 n B f → fleet_up x →
  fleet_ledger T0 (S n) (B + fleet_on_call call_setback f x) (fleet_exec f x) ∧
  (0 ≤ fleet_on_call call_setback f x ≤ fleet_on_call call_delay f x)%Z.
Proof.
  intros Hms L Hx. destruct x as [j a|counts].
  2:{ cbn [fleet_on_call]. rewrite Z.add_0_r. split; [by apply new_pod_ledger|done]. }
  cbn [fleet_exec fleet_on_call]. destruct (pods f !! j) as [p|] eqn:Hj.
  - pose proof (ledger_view _ _ _ _ _ _ Hj L) as Lv.
    destruct (Forall_lookup_1 _ _ _ _ (fl_pods _ _ _ _ L) Hj) as (_ & _ & _ & _ & Hpr).
    destruct (ledger_exec tostr eps _ r cap T0 n B (view f p) a Hr Hcap Hcr Hms Lv Hpr Hx) as (L' & Hpr' & Hsb).
    split; [|done]. apply (fleet_view _ n _ B _ f j p); [done|done| |done|done].
    exact (exec_clock tostr (view f p) a).
  - rewrite Z.add_0_r. split; [|done].
    destruct L as [Hp Hcl Hc HB Hs]. split; [done|done|done|done|]. destruct (eps_mono tostr eps n) as [_ Hmono].
    destruct (f_key f) as [[h ex]|]; [|lra].
    destruct Hs as (? & t & ? & ? & ? & ?). split; [done|]. exists t.
    split; [done|]. split; [done|]. split; [done|]. lra.
Qed.

Lemma fleet_clock f xs : (f_clock f ≤ f_clock (fleet_run f xs))%Z.
Proof.
  revert f. induction xs as [|x xs IH]; intros f; [done|]. etrans; [|apply IH].
  destruct x as [j a|counts]; cbn [fleet_exec]; [|done]. destruct (pods f !! j) as [p|]; [|done].
  cbn [f_clock]. apply (exec_clock tostr (view f p) a).
Qed.

Lemma fleet_reach T0 n B f xs :
  (fleet_ms (fleet_run f xs) < 10 ^ 14)%Z → fleet_ledger T0 n B f → Forall fleet_up xs →
  fleet_ledger T0 (n + length xs) (B + setbacks f xs) (fleet_run f xs) ∧
  (0 ≤ setbacks f xs ≤ delays f xs)%Z.
Proof.
  unfold setbacks, delays. revert n B f.
  induction xs as [|x xs IH]; intros n B f Hms L Hup; [by rewrite Nat.add_0_r, Z.add_0_r|].
  apply Forall_cons in Hup as [Hx Hup]. cbn [length fleet_sum]. rewrite Nat.add_succ_r, Z.add_assoc.
  assert (fleet_ms f < 10 ^ 14)%Z as Hf.
  { eapply Z.le_lt_trans; [|exact Hms]. apply Z.div_le_mono; [unfold millisecond; lia|]. apply fleet_clock. }
  destruct (fleet_step T0 n B f x Hf L Hx) as [L' Hb].
  destruct (IH (S n) _ (fleet_exec f x) Hms L' Hup) as [L2 Hb2]. split; [done|lia].
Qed.

Lemma fleet_served_spent f : Forall pod_ok (pods f) → (inject_Z (fleet_served f) <= fleet_spent f)%Q.
Proof.
  unfold fleet_served, fleet_spent. induction 1 as [|p l (_ & _ & Hl & Hw & _) _ IH]; [done|].
  cbn [map foldr sumQ]. rewrite inject_Z_plus. pose proof (served_taken (view f p) Hw) as Hs.
  unfold pod_spent at 1. cbn [waiters view] in Hs. lra.
Qed.

(** What is left in Redis is not negative. *)
Lemma fleet_budget T0 n B f :
  fleet_ledger T0 n B f →
  (fleet_spent f <= budget eps r cap (fleet_ms f - T0 + B) n)%Q.
Proof.
  intros [Hp _ Hc HB Hs]. destruct (f_key f) as [[h ex]|].
  - destruct Hs as (? & t & ? & Ht & He & Hsp).
    change (fleet_spent f + tokens h <= budget eps r cap (t - T0 + B) n)%Q in Hsp.
    pose proof (budget_mono eps r cap (t - T0 + B) (fleet_ms f - T0 + B) n Hr ltac:(lia)). lra.
  - pose proof (to_int_bounds cap Hcap) as [HC _].
    pose proof (budget_mono eps r cap 0 (fleet_ms f - T0 + B) n Hr ltac:(lia)) as Hb.
    unfold budget at 1 in Hb. assert (inject_Z 0 / 1000 == 0)%Q as E0 by reflexivity. rewrite E0 in Hb. lra.
Qed.

End fleet.

(** C7: the limit is the session's.  However many buckets a session has, on any
    number of pods, made at any time, however many callers wait on each and
    however all of them interleave, between reading the clock and running the
    script too: while Redis answers and the pods agree on the time, all callers
    together are let through no more than one capacity plus what the rate gives
    in the time since the start and in the setbacks (both as Redis is told them,
    in whole bytes), up to the printing of the script's numbers.  Setbacks are
    what calls cause that overtake each other on their way to Redis; they are at
    most the time the calls took.  Neither a new bucket nor the expiry of the key
    gives anything away. *)
Theorem fleet_limit tostr eps `{!LuaNumbers tostr eps} r cap sid now xs f :
  (0 ≤ now)%Z → (0 <= r)%Q → (0 <= cap)%Q → (to_int cap ≤ 300 * to_int r)%Z →
  Forall fleet_up xs → fleet_run tostr r cap sid (mkFleet None now []) xs = f →
  (fleet_ms f < 10 ^ 14)%Z →
  let B := setbacks tostr r cap sid (mkFleet None now []) xs in
  (inject_Z (fleet_served f) <= inject_Z (to_int cap)
     + inject_Z (to_int r) * (inject_Z (fleet_ms f - now / millisecond + B) / 1000)
     + 2 * eps * inject_Z (Z.of_nat (length xs)))%Q ∧
  (0 ≤ B ≤ delays tostr r cap sid (mkFleet None now []) xs)%Z.
Proof.
  intros Hnow Hr Hcap Hcr Hup <- Hms B. set (f0 := mkFleet None now []) in *.
  assert (fleet_ledger r cap eps (now / millisecond) 0 0 f0) as L0.
  { split; [constructor|constructor| |done|].
    - unfold fleet_ms. cbn [f_clock f0]. split; [|done]. apply Z.div_pos; unfold millisecond; lia.
    - cbn [f_key f0]. unfold fleet_spent. cbn [pods f0 sumQ]. pose proof (ln_eps (tostr := tostr)).
      change (inject_Z (Z.of_nat 0)) with 0%Q. lra. }
  destruct (fleet_reach tostr r cap sid eps Hr Hcap Hcr _ 0 0 f0 xs Hms L0 Hup) as [L HB].
  rewrite Nat.add_0_l, Z.add_0_l in L. fold B in L, HB. split; [|done].
  pose proof (fleet_budget r cap eps Hr Hcap _ _ _ _ L) as Hb.
  pose proof (fleet_served_spent r cap _ (fl_pods _ _ _ _ _ _ _ L)) as Hs. unfold budget in Hb. lra.
Qed.

(** ** Concrete fleets *)

(** Two pods, one caller on each, 1500 bytes each at 1000 bytes a second: nothing
    is set back. *)
Definition demo_fleet_acts : list fleet_action :=
  [NewBucket [1500]; NewBucket [1500]; At 0 (Run 0 true); At 1 (Run 0 true);
   At 0 (Run 0 true); At 0 (Run 0 true); At 1 (Run 0 true); At 1 (Run 0 true);
   At 0 (Run 0 true); At 1 (Run 0 true); At 0 (Tick (600 * 10 ^ 6));
   At 0 (Run 0 true); At 0 (Run 0 true); At 0 (Run 0 true); At 0 (Run 0 true); At 1 (Run 0 true);
   At 1 (Run 0 true); At 1 (Run 0 true)]%Z.
Definition fleet_start : fleet := mkFleet None (10 ^ 18) [].
Abbreviation demo_fleet_run := (fleet_run exact_print 1000%Q 1000%Q "s" fleet_start).
Abbreviation demo_setbacks := (setbacks exact_print 1000%Q 1000%Q "s" fleet_start).
Definition demo_fleet : fleet := demo_fleet_run demo_fleet_acts.

Example fleet_limit_witness :
  fleet_served demo_fleet = 1500%Z ∧ demo_setbacks demo_fleet_acts = 0%Z ∧
  (inject_Z (fleet_served demo_fleet) <= 1000 + inject_Z 1000 * (inject_Z (600 + 0) / 1000)
    + 2 * 0 * inject_Z (Z.of_nat 18))%Q.
Proof.
  split; [by vm_compute|]. split; [by vm_compute|].
  assert (Forall fleet_up demo_fleet_acts) as Hup by (by repeat constructor).
  assert (fleet_ms demo_fleet < 10 ^ 14)%Z as Hms by (by vm_compute).
  assert (0 ≤ 10 ^ 18)%Z as H0 by lia. assert (0 <= 1000)%Q as H1 by lra.
  assert (to_int 1000%Q ≤ 300 * to_int 1000%Q)%Z as H2 by (by vm_compute).
  pose proof (@fleet_limit exact_print 0 exact_numbers 1000 1000 "s" (10 ^ 18) demo_fleet_acts
    demo_fleet H0 H1 H1 H2 Hup eq_refl Hms) as [Hlim _].
  assert (fleet_ms demo_fleet - 10 ^ 18 / millisecond = 600)%Z as Hn by (by vm_compute).
  rewrite Hn in Hlim. assert (demo_setbacks demo_fleet_acts = 0%Z) as HB by (by vm_compute).
  unfold fleet_start in HB. rewrite HB in Hlim. exact Hlim.
Defined.

(** Calls that overtake each other.  On one pod, at 1000 bytes a second: the first
    caller takes the full bucket; the second one reads the clock; 100 ms later
    the third one reads it too and gets the 100 bytes that have accrued; now the
    call of the second one arrives and sets the last tick back by 100 ms, so the
    fourth one is granted the same 100 ms again.  1200 bytes have gone through in
    100 ms, and the bound with its setback is reached. *)
Definition overtaking : list fleet_action :=
  map (At 0) ([Run 0 true; Run 0 true; Run 0 true; Run 0 true; Run 1 true; Run 1 true; Tick (100 * 10 ^ 6);
    Run 2 true; Run 2 true; Run 2 true; Run 2 true; Run 1 true;
    Run 3 true; Run 3 true; Run 3 true; Run 3 true])%Z.
Example overtaken_call_refills :
  let acts := NewBucket [1000; 100; 100; 100]%Z :: overtaking in
  let f := demo_fleet_run acts in
  fleet_served f = 1200%Z ∧ (fleet_ms f - 10 ^ 18 / millisecond)%Z = 100%Z ∧ demo_setbacks acts = 100%Z.
Proof. by vm_compute. Qed.

(** Calls of the script for 1000 bytes, at the milliseconds that the callers'
    clocks show: what is granted. *)
Fixpoint script_calls (h : option (redis_hash (F := Q))) (nows : list Z) : list Z :=
  match nows with
  | [] => []
  | now :: nows =>
      let '(g, h) := luaTokenBucket exact_print h 1000 1000 1000 now in
      Qfloor g :: script_calls (Some h) nows
  end.

(** The script takes the time from its callers and lets it go back: two pods
    whose clocks are a second apart get a second's worth again and again, at
    one moment. *)
Example clock_skew_refills :
  script_calls None [10000; 9000; 10000; 9000; 10000]%Z = [1000; 0; 1000; 0; 1000]%Z ∧
  script_calls None [10000; 10000; 10000; 10000; 10000]%Z = [1000; 0; 0; 0; 0]%Z.
Proof. by vm_compute. Qed.

(** ** The pool *)

Section pool.
Context {F : Type} `{GoFloat F} {M : Type → Type} `{LazyMap M} (ToBytes : string → outcome Z).
(** Session ids have this length. *)
Context (len : nat).

(** A bucket on the key of a session, with the given rate and no burst. *)
Definition bucket_for (sid rt : string) (b : HybridBucket (F := F)) : Prop :=
  redisKey b = "bw:limit:" +:+ sid ∧
  ∃ n, ToBytes rt = Ok n ∧ rate b = bytes_per_sec n ∧ capacity b = bytes_per_sec n.

Definition pool_inv (s : poolState (F := F) (M := M)) : Prop :=
  ∀ now k i, lm_peek now (pool_map s) k = Some (Ok i) →
    ∃ b sid rt, buckets s !! i = Some b ∧ slen sid = len ∧ k = sid +:+ rt ∧ bucket_for sid rt b.

(** Whatever the times and the claims of the calls before: the throttler that the
    pool hands out is a bucket on the key of the claims' session, with their
    rate, as [fleet_limit] supposes of the buckets of a session. *)
Theorem Pool_Get_bucket now rc mc s v s' :
  pool_inv s → (∀ sid, claim_string mc "sessionID" = Some sid → slen sid = len) →
  Pool_Get ToBytes now rc mc s = (v, s') →
  pool_inv s' ∧ ∀ i, v = Ok (Some i) →
    ∃ sid rt b, claim_string mc "sessionID" = Some sid ∧ claim_string mc "rate" = Some rt ∧
      buckets s' !! i = Some b ∧ bucket_for sid rt b.
Proof.
  intros Hs Hlen. unfold Pool_Get. destruct (claim_string mc "sessionID") as [sid|]; [|by intros [= <- <-]].
  specialize (Hlen sid eq_refl).
  destruct (claim_string mc "rate") as [rt|]; [|by intros [= <- <-]].
  destruct (ToBytes rt) as [n| |] eqn:En; [|by intros [= <- <-]..].
  unfold lm_get. destruct (lm_peek now (pool_map s) (sid +:+ rt)) as [x|] eqn:Ep.
  - intros [= <- <-]. split; [done|]. intros i Hi. destruct x as [j| |]; simplify_eq/=.
    destruct (Hs _ _ _ Ep) as (b & sid' & rt' & Hb & Hl & E & Hfor).
    apply str_app_inj_len in E as [<- <-]; [|congruence]. by exists sid, rt, b.
  - cbn [pool_map buckets]. set (b := NewHybridBucket now _ _ rc sid). intros [= <- <-].
    assert (bucket_for sid rt b) as Hfor by (split; [done|]; by exists n).
    split.
    + intros now' k i Hk. cbn [pool_map buckets] in *.
      apply lm_store_honest in Hk as [[-> [= ->]]|Hk].
      * exists b, sid, rt. split; [|by split]. by rewrite list_lookup_middle.
      * destruct (Hs _ _ _ Hk) as (b' & sid' & rt' & Hb & Hl & E & Hf'). exists b', sid', rt'.
        split; [|by split]. by apply lookup_app_l_Some.
    + intros i [= <-]. exists sid, rt, b. cbn [buckets]. split_and!; try done.
      by rewrite list_lookup_middle.
Qed.

End pool.

(** Session ids of different lengths can share a name in the pool, and then one
    session is throttled by the bucket of the other. *)
Definition demo_mc (sid rt : string) : MapClaims (F := Q) := Some {["sessionID" := JStr sid; "rate" := JStr rt]}.
Example pool_name_collision :
  let s0 := mkPool (F := Q) (timed_empty (300 * 10 ^ 9) false) [] in
  let '(v1, s1) := Pool_Get (λ _, Ok 8000%Z) 0 true (demo_mc "u1" "0M") s0 in
  let '(v2, s2) := Pool_Get (λ _, Ok 8000%Z) 1 true (demo_mc "u" "10M") s1 in
  v1 = Ok (Some 0) ∧ v2 = Ok (Some 0) ∧ map redisKey (buckets s2) = ["bw:limit:u1"].
Proof. by vm_compute. Qed.
