(* ===== verification/ClickHouse.v ===== *)
(** * services/clickhouse.go: request statistics

    [store], and [Add] and [Close] as the steps that request goroutines
    interleave: [Add] holds its mutex only while it appends and while it
    resets, and reads the batch without it in between. *)

From S2P Require Import Prelude GoStrings.

(** ** Records and rows *)

(** Numbers are [uint64]; the timestamp is in the database's seconds. *)
Record StatRecord := mkStat {
  Timestamp : Z;
  st_ApiKey : string;
  BytesWritten : Z;
  TTFB : Z;
  Duration : Z;
  st_Path : string;
  st_InfoHash : string;
  OriginalPath : string;
  SessionID : string;
  Domain : string;
  Status : Z;
  GroupedStatus : Z;
  Edge : string;
  st_Source : string;
  Role : string;
  Ads : bool
}.

#[export] Instance StatRecord_eq_dec : EqDecision StatRecord.
Proof. solve_decision. Defined.

(** The arguments of [stmt.Exec]. *)
Record row := mkRow {
  c_timestamp : Z;
  c_api_key : string;
  c_bytes_written : Z;
  c_ttfb : Z;
  c_duration : Z;
  c_path : string;
  c_infohash : string;
  c_original_path : string;
  c_session_id : string;
  c_domain : string;
  c_status : Z;
  c_grouped_status : Z;
  c_edge : string;
  c_source : string;
  c_role : string;
  c_ads : Z;
  c_node : string
}.

#[export] Instance row_eq_dec : EqDecision row.
Proof. solve_decision. Defined.

Definition to_row (nodeName : string) (r : StatRecord) : row :=
  mkRow (Timestamp r) (st_ApiKey r) (BytesWritten r) (wrap_u 32 (TTFB r)) (wrap_u 32 (Duration r))
    (st_Path r) (st_InfoHash r) (OriginalPath r) (SessionID r) (Domain r)
    (wrap_u 16 (Status r)) (wrap_u 16 (GroupedStatus r)) (Edge r) (st_Source r) (Role r)
    (if Ads r then 1 else 0) nodeName.

(** ** The configuration and the tables *)

Record chConfig := mkChConfig {
  batchSize : nat;
  nodeName : string;
  replicated : bool;
  sharded : bool
}.

Definition table : string := "proxy_stat".

(** The tables that [makeTable] creates, in order. *)
Definition created_tables (c : chConfig) : list string :=
  if sharded c then [table; table +:+ "_all"] else [table].

(** The table that [store] inserts into. *)
Definition insert_table (c : chConfig) : string :=
  if replicated c then table +:+ "_all" else table.

(** ** Storing a batch *)

(** What the database answers during a call of [store].  Whether the commit
    takes effect ([commit_done]) is one thing, whether [Commit] reports success
    ([commit_ok]) another. *)
Record dbEnv := mkDbEnv {
  get_ok : bool;
  create_ok : string → bool;
  ping_ok : bool;
  begin_ok : bool;
  prepare_ok : bool;
  exec_ok : nat → bool;
  commit_done : bool;
  commit_ok : bool
}.

(** What database/sql documents of a transaction: [Commit] fails exactly when
    the transaction is not committed. *)
Definition tx_law (e : dbEnv) : Prop := commit_ok e = commit_done e.

(** The rows that a transaction has inserted; nobody else sees them before the
    commit. *)
Abbreviation transaction := (list (string * row)).

(** The store mutex, the [sync.Once], the tables asked for, the transactions
    left open, and the committed rows. *)
Record dbState := mkDb {
  storeMux : bool;
  init : bool;
  tables : list string;
  open_tx : list transaction;
  rows : list (string * row)
}.

(** [makeTable]: the first failing statement ends it. *)
Fixpoint create_loop (e : dbEnv) (ts : list string) : bool * list string :=
  match ts with
  | [] => (true, [])
  | t :: ts => if create_ok e t then let '(ok, done) := create_loop e ts in (ok, t :: done)
               else (false, [])
  end.
Definition makeTable (c : chConfig) (e : dbEnv) : bool * list string :=
  create_loop e (created_tables c).

Definition fail (what : string) : outcome unit := Err (ErrWrap what (ErrNew "database")).

(** [store] leaves a transaction open: it neither commits nor rolls back. *)
Definition leak (tx : transaction) (s : dbState) : dbState :=
  mkDb (storeMux s) (init s) (tables s) (open_tx s ++ [tx]) (rows s).

(** The rows of a transaction become visible when its commit takes effect. *)
Definition commit (e : dbEnv) (tx : transaction) (s : dbState) : dbState :=
  if commit_done e then mkDb (storeMux s) (init s) (tables s) (open_tx s) (rows s ++ tx) else s.

(** The loop over the batch: the [i]th [stmt.Exec] inserts one row into the
    transaction, or ends the loop. *)
Fixpoint exec_loop (c : chConfig) (e : dbEnv) (i : nat) (tx : transaction) (sr : list StatRecord)
    : bool * transaction :=
  match sr with
  | [] => (true, tx)
  | r :: sr =>
      if exec_ok e i
      then exec_loop c e (S i) (tx ++ [(insert_table c, to_row (nodeName c) r)]) sr
      else (false, tx)
  end.

(** The body of [store] with the mutex held; the deferred unlock is in
    [store]. *)
Definition store_tx (c : chConfig) (e : dbEnv) (sr : list StatRecord) (s : dbState)
    : outcome unit * dbState :=
  if negb (ping_ok e) then (fail "failed to ping", s) else
  if negb (begin_ok e) then (fail "failed to begin", s) else
  if negb (prepare_ok e) then (fail "failed to prepare", leak [] s) else
  let '(ok, tx) := exec_loop c e 0 [] sr in
  if negb ok then (fail "failed to exec", leak tx s) else
  let s := commit e tx s in
  if negb (commit_ok e) then (fail "failed to commit", s) else (Ok tt, s).

Definition store_locked (c : chConfig) (e : dbEnv) (sr : list StatRecord) (s : dbState)
    : outcome unit * dbState :=
  if negb (get_ok e) then (fail "failed to get ClickHouse DB", s) else
  if init s then store_tx c e sr s else
  let '(ok, ts) := makeTable c e in
  let s := mkDb (storeMux s) true (tables s ++ ts) (open_tx s) (rows s) in
  if ok then store_tx c e sr s else (fail "failed to create table", s).

(** [store]: [None] while the mutex is held by somebody else. *)
Definition store (c : chConfig) (e : dbEnv) (sr : list StatRecord) (s : dbState)
    : option (outcome unit * dbState) :=
  if storeMux s then None else
  let lock b s := mkDb b (init s) (tables s) (open_tx s) (rows s) in
  match sr with
  | [] => Some (Ok tt, lock true s)
  | _ => let '(r, s) := store_locked c e sr (lock true s) in Some (r, lock false s)
  end.

(** ** Goroutines *)

(** Where a call of [Add(sr)] is: before the append; before reading the length
    of the batch; before the [go] statement; before the reset; returned. *)
Inductive add_pc := AAppend | ACheck | AGo | AReset | ADone.
#[export] Instance add_pc_eq_dec : EqDecision add_pc.
Proof. solve_decision. Defined.

(** The batch, the calls of [Add], the batches that store goroutines have been
    started for, those whose store has failed (the goroutine logs a warning, and
    that is all), and the database. *)
Record chState := mkCh {
  batch : list StatRecord;
  adders : list (StatRecord * add_pc);
  stores : list (list StatRecord);
  warned : list (list StatRecord);
  db : dbState
}.

(** The next section of an [Add]: the batch after it, the store goroutine it
    starts, and where it is then. *)
Definition add_step (c : chConfig) (b : list StatRecord) (sr : StatRecord) (p : add_pc)
    : list StatRecord * list (list StatRecord) * add_pc :=
  match p with
  | AAppend => (b ++ [sr], [], ACheck)
  | ACheck => (b, [], if batchSize c <=? length b then AGo else ADone)
  | AGo => (b, [b], AReset)
  | AReset => ([], [], ADone)
  | ADone => (b, [], ADone)
  end.

(** A step: the [i]th [Add] runs its next section, or the [i]th store goroutine
    runs against the database. *)
Inductive ch_action :=
  | RunAdd (i : nat)
  | RunStore (i : nat) (e : dbEnv).

Definition ch_exec (c : chConfig) (s : chState) (a : ch_action) : chState :=
  match a with
  | RunAdd i =>
      match adders s !! i with
      | None => s
      | Some (sr, p) =>
          let '(b, new, p) := add_step c (batch s) sr p in
          mkCh b (<[i := (sr, p)]> (adders s)) (stores s ++ new) (warned s) (db s)
      end
  | RunStore i e =>
      match stores s !! i with
      | None => s
      | Some b =>
          match store c e b (db s) with
          | None => s
          | Some (r, d) =>
              mkCh (batch s) (adders s) (delete i (stores s))
                (warned s ++ if is_ok r then [] else [b]) d
          end
      end
  end.

Definition ch_run (c : chConfig) (s : chState) (acts : list ch_action) : chState :=
  foldl (ch_exec c) s acts.

Definition db_empty : dbState := mkDb false false [] [] [].
Definition ch_initial (rs : list StatRecord) : chState :=
  mkCh [] (map (λ r, (r, AAppend)) rs) [] [] db_empty.

(** [Add] on its own: the sections in order. *)
Definition Add (c : chConfig) (sr : StatRecord) (s : list StatRecord * list (list StatRecord))
    : list StatRecord * list (list StatRecord) :=
  let '(b, started) := s in
  let b := b ++ [sr] in
  if batchSize c <=? length b then ([], started ++ [b]) else (b, started).

(** [Close] *)
Definition Close (c : chConfig) (e : dbEnv) (b : list StatRecord) (s : dbState)
    : option (list StatRecord * dbState) :=
  '(_, s) ← store c e b s; Some ([], s).

(** ** One request after another *)

Lemma Add_fold c rs :
  (0 < batchSize c)%nat →
  let '(b, started) := foldl (λ s r, Add c r s) ([], []) rs in
  concat started ++ b = rs ∧ Forall (λ x, length x = batchSize c) started ∧
  (length b < batchSize c)%nat.
Proof.
  intros Hn.
  assert (∀ rs b started, (length b < batchSize c)%nat → Forall (λ x, length x = batchSize c) started →
    let '(b', started') := foldl (λ s r, Add c r s) (b, started) rs in
    concat started' ++ b' = concat started ++ b ++ rs ∧
    Forall (λ x, length x = batchSize c) started' ∧ (length b' < batchSize c)%nat) as Hgen.
  { clear rs. induction rs as [|r rs IH]; intros b started Hb Hs; cbn [foldl].
    - by rewrite app_nil_r.
    - unfold Add at 2. destruct (Nat.leb_spec (batchSize c) (length (b ++ [r]))) as [Hl|Hl].
      + rewrite length_app in Hl. simpl in Hl.
        specialize (IH [] (started ++ [b ++ [r]]) Hn).
        destruct (foldl _ _ rs) as [b' started']. destruct IH as (E & ?).
        { apply Forall_app. split; [done|]. constructor; [rewrite length_app; simpl; lia|done]. }
        split; [|done]. rewrite E, concat_app. simpl. by rewrite app_nil_r, <-!app_assoc.
      + specialize (IH (b ++ [r]) started Hl Hs).
        destruct (foldl _ _ rs) as [b' started']. destruct IH as (E & ?).
        split; [|done]. rewrite E. by rewrite <-!app_assoc. }
  specialize (Hgen rs [] [] Hn (Forall_nil_2 _)).
  by destruct (foldl _ _ rs) as [b started].
Qed.

(** C30: statistics of requests that end one after another.  Every record goes
    to exactly one store, in order, in batches of exactly the batch size; what
    is left waits in the batch, which stays below the batch size. *)
Theorem Add_batches c rs :
  (0 < batchSize c)%nat →
  let '(b, started) := foldl (λ s r, Add c r s) ([], []) rs in
  concat started ++ b = rs ∧ Forall (λ x, length x = batchSize c) started ∧
  (length b < batchSize c)%nat.
Proof. apply Add_fold. Qed.

(** ** Storing *)

(** The rows of a batch. *)
Definition batch_rows (c : chConfig) (sr : list StatRecord) : transaction :=
  map (λ r, (insert_table c, to_row (nodeName c) r)) sr.

(** Every statement that [store] makes for the batch succeeds. *)
Definition all_ok (c : chConfig) (e : dbEnv) (sr : list StatRecord) (s : dbState) : bool :=
  get_ok e && (init s || forallb (create_ok e) (created_tables c)) && ping_ok e && begin_ok e &&
  prepare_ok e && forallb (exec_ok e) (seq 0 (length sr)) && commit_ok e.

Lemma exec_loop_spec c e sr : ∀ i tx,
  let '(ok, tx') := exec_loop c e i tx sr in
  ok = forallb (exec_ok e) (seq i (length sr)) ∧
  ∃ n, n ≤ length sr ∧ tx' = tx ++ batch_rows c (take n sr) ∧ (ok = true → n = length sr).
Proof.
  induction sr as [|r sr IH]; intros i tx; simpl.
  - split; [done|]. exists 0. by rewrite app_nil_r.
  - destruct (exec_ok e i); simpl.
    + specialize (IH (S i) (tx ++ [(insert_table c, to_row (nodeName c) r)])).
      destruct (exec_loop _ _ _ _ _) as [ok tx']. destruct IH as (Hok & n & Hn & -> & Hall).
      split; [done|]. exists (S n). simpl. rewrite <-app_assoc. split; [lia|]. split; [done|].
      intros ?. by rewrite Hall.
    + split; [done|]. exists 0. split; [lia|]. by rewrite app_nil_r.
Qed.

Lemma create_loop_ok e ts : (create_loop e ts).1 = forallb (create_ok e) ts.
Proof.
  induction ts as [|t ts IH]; [done|]. simpl. destruct (create_ok e t); [|done].
  rewrite <-IH. by destruct (create_loop e ts).
Qed.

(** The outcome of a store: all rows, or none and at most one transaction left
    open with a part of them. *)
Definition stored_or_not (c : chConfig) (sr : list StatRecord) (s : dbState) (r : outcome unit)
    (s' : dbState) : Prop :=
  match r with
  | Ok _ => rows s' = rows s ++ batch_rows c sr ∧ open_tx s' = open_tx s
  | Err _ => rows s' = rows s ∧
      (open_tx s' = open_tx s ∨
       ∃ n, n ≤ length sr ∧ open_tx s' = open_tx s ++ [batch_rows c (take n sr)])
  | Panic _ => False
  end.

Lemma store_tx_spec c e sr s r s' :
  tx_law e → store_tx c e sr s = (r, s') →
  stored_or_not c sr s r s' ∧
  is_ok r = ping_ok e && begin_ok e && prepare_ok e && forallb (exec_ok e) (seq 0 (length sr)) && commit_ok e.
Proof.
  unfold tx_law, store_tx, fail. intros Hlaw.
  destruct (ping_ok e); simpl; [|intros [= <- <-]; simpl; auto].
  destruct (begin_ok e); simpl; [|intros [= <- <-]; simpl; auto].
  destruct (prepare_ok e); simpl.
  2:{ intros [= <- <-]. simpl. split; [|done]. split; [done|]. right. exists 0. split; [lia|done]. }
  pose proof (exec_loop_spec c e sr 0 []) as Hl.
  destruct (exec_loop c e 0 [] sr) as [ok tx]. destruct Hl as (<- & n & Hn & -> & Hall).
  destruct ok; simpl.
  2:{ intros [= <- <-]. simpl. eauto 6. }
  rewrite Hall, take_ge by done. unfold commit. rewrite <-Hlaw.
  destruct (commit_ok e); intros [= <- <-]; simpl; auto.
Qed.

Lemma store_locked_spec c e sr s r s' :
  tx_law e → store_locked c e sr s = (r, s') → stored_or_not c sr s r s' ∧ is_ok r = all_ok c e sr s.
Proof.
  unfold store_locked, all_ok, fail. intros Hlaw.
  destruct (get_ok e); simpl; [|intros [= <- <-]; simpl; auto].
  destruct (init s); simpl; [by apply store_tx_spec|].
  pose proof (create_loop_ok e (created_tables c)) as Hc. unfold makeTable.
  destruct (create_loop e (created_tables c)) as [ok ts]. simpl in Hc. rewrite <-Hc.
  destruct ok; simpl; [|intros [= <- <-]; simpl; auto].
  intros Hs. by apply store_tx_spec in Hs.
Qed.

(** [store] on a batch that is not empty. *)
Lemma store_spec c e sr s r s' :
  sr ≠ [] → tx_law e → store c e sr s = Some (r, s') →
  storeMux s = false ∧ storeMux s' = false ∧ stored_or_not c sr s r s' ∧ is_ok r = all_ok c e sr s.
Proof.
  intros Hsr Hlaw. unfold store. destruct (storeMux s); [done|].
  destruct sr as [|x sr]; [done|]. destruct (store_locked _ _ _ _) as [r1 s1] eqn:E.
  intros [= <- <-]. by apply store_locked_spec in E as [? ?].
Qed.

(** C28: [store] is all or nothing, and says which.  On a batch that is not
    empty, whatever the database answers: [store] returns without an error
    exactly when every statement succeeded; then every row of the batch has been
    added, in order, to the insert table, and no transaction is left open.  On
    an error no row has been added, but a transaction may be left open with some
    of them.  The mutex is free again in any case. *)
Theorem store_atomic c e sr s r s' :
  sr ≠ [] → tx_law e → store c e sr s = Some (r, s') →
  storeMux s' = false ∧ is_ok r = all_ok c e sr s ∧
  match r with
  | Ok _ => rows s' = rows s ++ map (λ x, (insert_table c, to_row (nodeName c) x)) sr ∧
      open_tx s' = open_tx s
  | Err _ => rows s' = rows s ∧
      (open_tx s' = open_tx s ∨
       ∃ n, n ≤ length sr ∧ open_tx s' = open_tx s ++ [batch_rows c (take n sr)])
  | Panic _ => False
  end.
Proof.
  intros Hsr Hlaw Hs. by destruct (store_spec c e sr s r s' Hsr Hlaw Hs) as (_ & ? & ? & ?).
Qed.

(** ** Where every record is *)

(** Calls of [Add] that do not overlap each other, with the store goroutines
    they started running at any time in between, in any order. *)
Inductive serial_action :=
  | AddOne (i : nat)
  | StoreOne (i : nat) (e : dbEnv).
Definition sections (a : serial_action) : list ch_action :=
  match a with AddOne i => replicate 4 (RunAdd i) | StoreOne i e => [RunStore i e] end.
Definition serial_law (a : serial_action) : Prop :=
  match a with AddOne _ => True | StoreOne _ e => tx_law e end.

(** The records whose [Add] has returned. *)
Fixpoint added (l : list (StatRecord * add_pc)) : list StatRecord :=
  match l with
  | [] => []
  | (r, ADone) :: l => r :: added l
  | _ :: l => added l
  end.

Lemma added_insert l : ∀ i r,
  l !! i = Some (r, AAppend) → added (<[i := (r, ADone)]> l) ≡ₚ r :: added l.
Proof.
  induction l as [|[x p] l IH]; intros [|i] r; simpl; try done.
  - by intros [= -> ->].
  - intros Hi. specialize (IH i r Hi). destruct p; try done. rewrite IH. apply Permutation_swap.
Qed.

Lemma concat_Permutation {A} (l l' : list (list A)) : l ≡ₚ l' → concat l ≡ₚ concat l'.
Proof.
  induction 1; simpl; [done|by f_equiv| |by etrans].
  by rewrite !app_assoc, (Permutation_app_comm x).
Qed.

Record accounted (c : chConfig) (s : chState) : Prop := mkAccounted {
  ac_pcs : Forall (λ x, x.2 = AAppend ∨ x.2 = ADone) (adders s);
  ac_rows : ∃ stored, rows (db s) = batch_rows c stored ∧
    added (adders s) ≡ₚ stored ++ concat (warned s) ++ concat (stores s) ++ batch s;
  ac_batches : Forall (λ b, length b = batchSize c) (warned s ++ stores s);
  ac_batch : length (batch s) < batchSize c;
  ac_mutex : storeMux (db s) = false
}.

(** A whole [Add] is [Add]. *)
Lemma add_sections c s i r :
  adders s !! i = Some (r, AAppend) →
  ch_run c s (sections (AddOne i)) =
    let '(b, new) := Add c r (batch s, []) in
    mkCh b (<[i := (r, ADone)]> (adders s)) (stores s ++ new) (warned s) (db s).
Proof.
  intros Hi. pose proof (lookup_lt_Some _ _ _ Hi) as Hlt. unfold ch_run, Add.
  cbn [sections replicate foldl ch_exec]. rewrite Hi. cbn [add_step]. cbn [ch_exec adders batch stores warned db].
  rewrite list_lookup_insert_eq by done. cbn [add_step].
  destruct (batchSize c <=? length (batch s ++ [r])); cbn [ch_exec adders batch stores warned db];
    rewrite ?list_insert_insert_eq, list_lookup_insert_eq by done; cbn [add_step ch_exec adders batch stores warned db];
    rewrite ?list_insert_insert_eq, list_lookup_insert_eq by done; cbn [add_step ch_exec adders batch stores warned db];
    rewrite ?list_insert_insert_eq, ?app_nil_r; done.
Qed.

Lemma accounted_add c s i : accounted c s → accounted c (ch_run c s (sections (AddOne i))).
Proof.
  intros Ha. pose proof Ha as [Hp (stored & Hrows & Hadd) Hbs Hb Hm].
  destruct (adders s !! i) as [[r p]|] eqn:Hi.
  2:{ unfold ch_run. simpl. by rewrite !Hi. }
  rewrite Forall_forall in Hp. destruct (Hp _ (list_elem_of_lookup_2 _ _ _ Hi)) as [Hq|Hq]; simpl in Hq; subst p.
  2:{ unfold ch_run. destruct s. cbn [sections replicate foldl ch_exec adders add_step batch stores warned db] in *.
      rewrite !Hi. cbn [ch_exec adders add_step batch stores warned db]. rewrite !list_insert_id, !app_nil_r by done.
      rewrite !Hi. cbn [ch_exec adders add_step batch stores warned db]. rewrite !list_insert_id, !app_nil_r by done.
      rewrite !Hi. cbn [ch_exec adders add_step batch stores warned db]. rewrite !list_insert_id, !app_nil_r by done.
      rewrite !Hi. cbn [ch_exec adders add_step batch stores warned db]. by rewrite !list_insert_id, !app_nil_r by done. }
  rewrite add_sections with (r := r) by done. unfold Add.
  assert (Forall (λ x, x.2 = AAppend ∨ x.2 = ADone) (<[i := (r, ADone)]> (adders s))) as Hp'.
  { apply Forall_insert; [by rewrite Forall_forall|by right]. }
  destruct (Nat.leb_spec (batchSize c) (length (batch s ++ [r]))) as [Hl|Hl]; rewrite length_app in Hl; simpl in Hl.
  - split; cbn [adders db warned stores batch app]; [done| | |simpl; lia|done].
    + exists stored. split; [done|]. rewrite added_insert, Hadd by done. rewrite concat_app. simpl.
      rewrite !app_nil_r, (app_assoc _ _ [r]), !app_assoc, <-(Permutation_cons_append _ r). by rewrite <-!app_assoc.
    + rewrite app_assoc. apply Forall_app. split; [done|]. constructor; [rewrite length_app; simpl; lia|done].
  - split; cbn [adders db warned stores batch]; rewrite ?app_nil_r; [done| |done|rewrite length_app; simpl; lia|done].
    exists stored. split; [done|]. rewrite added_insert, Hadd by done.
    rewrite !app_assoc, <-(Permutation_cons_append _ r). by rewrite <-!app_assoc.
Qed.

Lemma accounted_store c s i e :
  0 < batchSize c → tx_law e → accounted c s → accounted c (ch_run c s (sections (StoreOne i e))).
Proof.
  intros Hpos Hlaw Ha. pose proof Ha as [Hp (stored & Hrows & Hadd) Hbs Hb Hm].
  unfold ch_run. cbn [sections foldl ch_exec]. destruct (stores s !! i) as [b|] eqn:Hi; [|done].
  apply Forall_app in Hbs as [Hw Hs].
  assert (length b = batchSize c) as Hlen by (eapply (Forall_lookup_1 _ _ _ _ Hs Hi)).
  destruct (store c e b (db s)) as [[r d]|] eqn:E; [|done].
  apply store_spec in E as (_ & Hmux & Hr & _); [|by intros ->; simpl in Hlen; lia|done].
  assert (stores s ≡ₚ b :: delete i (stores s)) as Hd by (by apply delete_Permutation).
  pose proof (concat_Permutation _ _ Hd) as Hcat. cbn [concat] in Hcat.
  split; cbn [adders db warned stores batch]; [done| | |done|done].
  - destruct r as [[]|err|p]; [| |done]; destruct Hr as [Hr _]; rewrite Hr, Hrows; cbn [is_ok].
    + exists (stored ++ b). unfold batch_rows. split; [by rewrite map_app|].
      rewrite Hadd, Hcat, !app_nil_r. rewrite <-!app_assoc.
      apply Permutation_app_head. by rewrite !app_assoc, (Permutation_app_comm b).
    + exists stored. split; [done|]. rewrite Hadd, Hcat, concat_app. simpl. rewrite app_nil_r. by rewrite <-!app_assoc.
  - rewrite Hd in Hs. apply Forall_cons in Hs as [Hb1 Hs]. apply Forall_app. split; [|done].
    apply Forall_app. split; [done|]. destruct (is_ok r); by repeat constructor.
Qed.

Lemma ch_run_app c s a b : ch_run c s (a ++ b) = ch_run c (ch_run c s a) b.
Proof. apply foldl_app. Qed.

Lemma accounted_run c acts : ∀ s,
  0 < batchSize c → Forall serial_law acts → accounted c s →
  accounted c (ch_run c s (concat (map sections acts))).
Proof.
  induction acts as [|a acts IH]; intros s Hpos Hlaw Ha; [done|].
  apply Forall_cons in Hlaw as [Hl Hlaw]. simpl. rewrite ch_run_app. apply IH; [done|done|].
  destruct a; [by apply accounted_add|by apply accounted_store].
Qed.

Lemma accounted_initial c rs : 0 < batchSize c → accounted c (ch_initial rs).
Proof.
  intros Hpos. split; cbn [ch_initial adders batch stores warned db]; [|exists []|done..].
  - apply Forall_fmap. apply Forall_true. by left.
  - split; [done|]. simpl. by induction rs.
Qed.

(** C29: no record is lost, doubled or made up.  While the calls of [Add] do not
    overlap each other (concurrent ones do all three, see [add_races]), and
    whatever the store goroutines do in between, in any order and with any
    failures: every record whose [Add] has returned is exactly one of a row of
    the insert table, in a batch whose store failed, in a batch whose store has
    not run, or in the batch; batches are of the configured size, the one that
    is filling is smaller; and the store mutex is free, so every store can run. *)
Theorem records_accounted c rs acts :
  0 < batchSize c → Forall serial_law acts →
  let s := ch_run c (ch_initial rs) (concat (map sections acts)) in
  (∃ stored, rows (db s) = map (λ r, (insert_table c, to_row (nodeName c) r)) stored ∧
     added (adders s) ≡ₚ stored ++ concat (warned s) ++ concat (stores s) ++ batch s) ∧
  Forall (λ b, length b = batchSize c) (warned s ++ stores s) ∧
  length (batch s) < batchSize c ∧
  storeMux (db s) = false.
Proof.
  intros Hpos Hlaw s.
  by destruct (accounted_run c acts _ Hpos Hlaw (accounted_initial c rs Hpos)).
Qed.

(** The inserts go to a table that was created exactly when a replicated
    installation is also sharded: [makeTable] makes the distributed table for
    [sharded], [store] inserts into it for [replicated]. *)
Theorem insert_table_created c :
  insert_table c ∈ created_tables c ↔ (replicated c = true → sharded c = true).
Proof. destruct c as [n nn [] []]; unfold insert_table, created_tables; simpl; set_solver. Qed.

(** ** What concurrent requests do to the statistics *)

Definition demo_stat (path : string) : StatRecord :=
  mkStat 0 "" 10 5 20 path "" path "" "default" 200 200 "svc" "external" "nobody" false.
Definition demo_db : dbEnv := mkDbEnv true (λ _, true) true true true (λ _, true) true true.
Definition demo_ch : chConfig := mkChConfig 2 "n1" false false.
Definition ch_paths (s : chState) : list string * bool :=
  (map (λ x, c_path x.2) (rows (db s)), storeMux (db s)).
Definition demo_run (acts : list ch_action) : list string * bool :=
  ch_paths (ch_run demo_ch (ch_initial (map demo_stat ["a"; "b"; "c"])) acts).
Definition drain : list ch_action := [RunStore 0 demo_db; RunStore 0 demo_db].

(** Concurrent [Add]s with a batch size of two.  A record that is appended
    between another call's [go] statement and its reset is lost; two calls that
    both read a full batch store it twice; and a call that reads the batch
    after another one has reset it starts a store of an empty batch, which
    returns with the store mutex locked, so that nothing is stored any more. *)
Example add_races :
  demo_run ([RunAdd 0; RunAdd 0; RunAdd 1; RunAdd 1; RunAdd 1; RunAdd 2; RunAdd 1; RunAdd 2] ++ drain)
    = (["a"; "b"], false) ∧
  demo_run ([RunAdd 0; RunAdd 1; RunAdd 0; RunAdd 1; RunAdd 0; RunAdd 1; RunAdd 0; RunAdd 1] ++ drain)
    = (["a"; "b"; "a"; "b"], false) ∧
  demo_run ([RunAdd 0; RunAdd 1; RunAdd 0; RunAdd 1; RunAdd 0; RunAdd 0; RunAdd 1; RunAdd 1] ++
            [RunStore 1 demo_db; RunStore 0 demo_db]) = ([], true).
Proof. by vm_compute. Qed.

Example Add_batches_witness :
  foldl (λ s r, Add demo_ch r s) ([], []) (map demo_stat ["a"; "b"; "c"])
    = ([demo_stat "c"], [[demo_stat "a"; demo_stat "b"]]) ∧ (length [demo_stat "c"] < 2)%nat.
Proof.
  assert (0 < batchSize demo_ch)%nat as Hn by (by vm_compute; lia).
  pose proof (Add_batches demo_ch (map demo_stat ["a"; "b"; "c"]) Hn) as Hb.
  destruct (foldl _ _ _) as [b started] eqn:E. vm_compute in E. injection E as <- <-.
  split; [done|]. exact (proj2 (proj2 Hb)).
Defined.

Definition demo_broken : dbEnv := mkDbEnv true (λ _, true) true true true (λ i, i =? 0) true true.

(** The second insert of two fails: no row is visible, and the transaction with
    the first stays open. *)
Example store_atomic_witness :
  ∃ r s', store demo_ch demo_broken [demo_stat "a"; demo_stat "b"] db_empty = Some (r, s') ∧
    rows s' = [] ∧ is_ok r = false ∧ open_tx s' = [[("proxy_stat", to_row "n1" (demo_stat "a"))]].
Proof.
  destruct (store demo_ch demo_broken [demo_stat "a"; demo_stat "b"] db_empty) as [[r s']|] eqn:E;
    [|by vm_compute in E].
  exists r, s'. split; [done|].
  destruct (store_atomic demo_ch demo_broken [demo_stat "a"; demo_stat "b"] db_empty r s' ltac:(done)
    eq_refl E) as (_ & Ho & Hr).
  vm_compute in E. injection E as <- <-. split; [exact (proj1 Hr)|]. by split.
Defined.

(** Five records in batches of two: one batch stored, one failed, one record
    waiting. *)
Definition demo_acts : list serial_action :=
  [AddOne 0; AddOne 1; AddOne 2; AddOne 3; StoreOne 1 demo_broken; StoreOne 0 demo_db; AddOne 4].

Example records_accounted_witness :
  let s := ch_run demo_ch (ch_initial (map demo_stat ["a"; "b"; "c"; "d"; "e"]))
             (concat (map sections demo_acts)) in
  ch_paths s = (["a"; "b"], false) ∧ warned s = [[demo_stat "c"; demo_stat "d"]] ∧ batch s = [demo_stat "e"] ∧
  (∃ stored, rows (db s) = map (λ r, (insert_table demo_ch, to_row "n1" r)) stored ∧
     added (adders s) ≡ₚ stored ++ concat (warned s) ++ concat (stores s) ++ batch s).
Proof.
  assert (0 < batchSize demo_ch) as Hn by (vm_compute; lia).
  pose proof (records_accounted demo_ch (map demo_stat ["a"; "b"; "c"; "d"; "e"]) demo_acts Hn
    ltac:(by repeat constructor)) as Ha.
  cbv zeta in *. split; [by vm_compute|]. split; [by vm_compute|]. split; [by vm_compute|].
  exact (proj1 Ha).
Defined.
