(* ===== verification/ResponseWriters.v ===== *)
(** * services/response_writer_interceptor.go and
    services/throttled_request_writer.go

    The two writers that [proxyHTTP] puts around the client's
    [http.ResponseWriter], as functions on the calls they are given: a handler
    makes a list of timed calls, and each writer turns a call into the calls it
    makes on the writer below. *)

From S2P Require Import Prelude GoStrings.

Inductive call :=
  | WriteHeader (statusCode : Z)
  | Write (p : string)
  | Flush.

#[export] Instance call_eq_dec : EqDecision call.
Proof. solve_decision. Defined.

(** ** The interceptor *)

(** [ttfb] and [size_label] are what the first write sets: the time since the
    start, and the status code that [resolveSize] was called with. [counted] is
    what was added to [sizeCounter]. *)
Record ResponseWriterInterceptor := mkInterceptor {
  statusCode : Z;
  bytesWritten : Z;
  start : Z;
  ttfb : Z;
  size_label : option Z;
  counted : Z
}.

Definition NewResponseWrtierInterceptor (now : Z) : ResponseWriterInterceptor :=
  mkInterceptor 200 0 now 0 None 0.

(** [resolve] says whether [resolveSize] is set. *)
Definition wi_write (resolve : bool) (now : Z) (p : string) (w : ResponseWriterInterceptor)
    : ResponseWriterInterceptor :=
  let w :=
    if (bytesWritten w =? 0)%Z
    then mkInterceptor (statusCode w) (bytesWritten w) (start w) (now - start w)
           (if resolve then Some (statusCode w) else size_label w) (counted w)
    else w in
  let n := Z.of_nat (slen p) in
  mkInterceptor (statusCode w) (int64 (bytesWritten w + n)) (start w) (ttfb w) (size_label w)
    (match size_label w with Some _ => counted w + n | None => counted w end)%Z.

Definition wi_call (resolve : bool) (w : ResponseWriterInterceptor) (c : Z * call)
    : ResponseWriterInterceptor :=
  match c.2 with
  | WriteHeader code =>
      mkInterceptor code (bytesWritten w) (start w) (ttfb w) (size_label w) (counted w)
  | Write p => wi_write resolve c.1 p w
  | Flush => w
  end.

Definition wi_run (resolve : bool) (w : ResponseWriterInterceptor) (cs : list (Z * call))
    : ResponseWriterInterceptor := foldl (wi_call resolve) w cs.

(** [w.statusCode / 100 * 100], of a positive status code *)
Definition GroupedStatusCode (w : ResponseWriterInterceptor) : Z := Z.quot (statusCode w) 100 * 100.

(** ** The throttled writer *)

(** What the throttled writer does for a call: [Wait] for the length of a write,
    and the call below. *)
Definition throttled (c : call) : option Z * call :=
  match c with
  | Write p => (Some (Z.of_nat (slen p)), c)
  | _ => (None, c)
  end.

(** ** What the writer below can do

    Both writers offer [Hijack] and [Flush] whether or not the writer they wrap
    is an [http.Hijacker] and an [http.Flusher]. *)

Record below (Conn : Type) := mkBelow { hijacker : option (outcome Conn); flusher : bool }.
Arguments mkBelow {Conn}.
Arguments hijacker {Conn}.
Arguments flusher {Conn}.

Definition Hijack {Conn} (w : below Conn) : outcome Conn :=
  match hijacker w with
  | Some h => h
  | None => Err (ErrNew "type assertion failed http.ResponseWriter not a http.Hijacker")
  end.

(** The calls on the writer below for a call on either writer. *)
Definition passed {Conn} (w : below Conn) (c : call) : list call :=
  match c with Flush => if flusher w then [Flush] else [] | _ => [c] end.

(** Either writer, seen from the one around it. *)
Definition wrapped {Conn} (w : below Conn) : below Conn := mkBelow (Some (Hijack w)) true.

(** Two writers around the client's pass on what one would. *)
Lemma wrapped_passed {Conn} (w : below Conn) c : (passed (wrapped w) c ≫= passed w) = passed w c.
Proof. destruct c as [| |]; try done. unfold passed at 1 2. simpl. by rewrite app_nil_r. Qed.
Lemma wrapped_Hijack {Conn} (w : below Conn) : Hijack (wrapped w) = Hijack w.
Proof. done. Qed.

(** ** What they record *)

Definition written (cs : list (Z * call)) : list (Z * string) :=
  omap (λ c, match c.2 with Write p => Some (c.1, p) | _ => None end) cs.
Definition total_written (cs : list (Z * call)) : Z :=
  foldr Z.add 0%Z (map (λ x, Z.of_nat (slen x.2)) (written cs)).
Definition last_status (cs : list (Z * call)) : Z :=
  foldl (λ s c, match c.2 with WriteHeader code => code | _ => s end) 200%Z cs.

Lemma written_app cs ds : written (cs ++ ds) = written cs ++ written ds.
Proof. unfold written. apply omap_app. Qed.

Lemma total_written_snoc cs c :
  total_written (cs ++ [c]) =
    (total_written cs + match c.2 with Write p => Z.of_nat (slen p) | _ => 0 end)%Z.
Proof.
  unfold total_written. rewrite written_app, map_app, foldr_app.
  destruct c as [t []]; simpl; try lia.
  - assert (∀ l a, foldr Z.add a l = foldr Z.add 0 l + a)%Z as E
      by (induction l as [|x l IH]; intros a; simpl; [done|]; rewrite IH; lia).
    by rewrite E, Z.add_0_r.
Qed.

Lemma total_written_nonneg cs : (0 ≤ total_written cs)%Z.
Proof. unfold total_written. induction (written cs) as [|x l IH]; simpl; lia. Qed.

Lemma total_written_prefix cs ds : (total_written cs ≤ total_written (cs ++ ds))%Z.
Proof.
  unfold total_written. rewrite written_app, map_app, foldr_app.
  assert (∀ l a, (0 ≤ a → foldr Z.add 0 l ≤ foldr Z.add a l)%Z) as E
    by (induction l as [|x l IH]; intros a Ha; simpl; [done|]; specialize (IH a Ha); lia).
  apply E. apply (total_written_nonneg ds).
Qed.

(** What the interceptor has recorded after the calls of a handler. *)
Lemma wi_run_spec now cs :
  (total_written cs < 2 ^ 63)%Z →
  let w := wi_run true (NewResponseWrtierInterceptor now) cs in
  bytesWritten w = total_written cs ∧ statusCode w = last_status cs ∧ start w = now ∧
  counted w = total_written cs ∧
  (total_written cs ≠ 0%Z → is_Some (size_label w)) ∧
  (∀ pre t p post, cs = pre ++ (t, Write p) :: post → total_written pre = 0%Z → p ≠ "" →
     ttfb w = (t - now)%Z ∧ size_label w = Some (last_status pre)).
Proof.
  intros Hsz w. subst w. induction cs as [|[t c] cs IH] using rev_ind.
  - repeat (split; [done|]). intros [] ? ? ?; simpl; discriminate.
  - pose proof (total_written_prefix cs [(t, c)]) as Hle.
    pose proof (total_written_nonneg cs) as Hnn.
    destruct IH as (I1 & I2 & I3 & I4 & I5 & I6); [lia|].
    unfold wi_run, last_status in *. rewrite !foldl_app. cbn [foldl].
    rewrite total_written_snoc in Hsz |- *. cbn [snd] in *.
    set (w := foldl (wi_call true) _ cs) in *.
    (* where an earlier first write is *)
    assert (∀ pre t0 p post, cs ++ [(t, c)] = pre ++ (t0, Write p) :: post →
      (post = [] ∧ pre = cs ∧ (t, c) = (t0, Write p)) ∨
      ∃ post', cs = pre ++ (t0, Write p) :: post') as Hsplit.
    { intros pre t0 p post E. destruct post as [|y post _] using rev_ind.
      - apply app_inj_tail in E as [-> ->]. by left.
      - right. exists post. rewrite app_comm_cons, app_assoc in E. by apply app_inj_tail in E as [-> _]. }
    destruct c as [code|p|]; cbn [wi_call snd fst].
    + cbn [bytesWritten statusCode start counted size_label ttfb].
      rewrite Z.add_0_r. repeat (split; [done|]).
      intros pre t0 p post E Hp Hne. destruct (Hsplit _ _ _ _ E) as [(_ & _ & [=])|[post' E']].
      by eapply I6.
    + unfold wi_write. rewrite I1.
      destruct (Z.eqb_spec (total_written cs) 0) as [E0|E0];
        cbn [bytesWritten statusCode start counted size_label ttfb].
      * rewrite I2, I3, I4, wrap_s_small by (split; simpl; lia).
        repeat (split; [done|]).
        intros pre t0 q post E Hp Hne. destruct (Hsplit _ _ _ _ E) as [(-> & -> & [= <- <-])|[post' ->]];
          [done|].
        exfalso. pose proof (total_written_prefix (pre ++ [(t0, Write q)]) post') as Hc.
        rewrite <-app_assoc in Hc. simpl in Hc. rewrite total_written_snoc in Hc. simpl in Hc.
        destruct q; [done|]. simpl in Hc. lia.
      * destruct (I5 E0) as [lbl Hl]. rewrite Hl, I1, I4, wrap_s_small by (split; simpl; lia).
        repeat (split; [done|]).
        intros pre t0 q post E Hp Hne. destruct (Hsplit _ _ _ _ E) as [(_ & -> & _)|[post' E']]; [done|].
        rewrite <-Hl. by eapply I6.
    + rewrite Z.add_0_r. repeat (split; [done|]).
      intros pre t0 p post E Hp Hne. destruct (Hsplit _ _ _ _ E) as [(_ & _ & [=])|[post' E']].
      by eapply I6.
Qed.

(** C37: what a request is accounted for.  For every sequence of calls a handler
    makes (below 2^63 bytes): the byte count is the number of bytes of its
    writes, the status is the last one written (200 without any), the time to
    first byte is the time of the first non-empty write, the size metric gets
    the same bytes under the status of that write, and a throttled handler
    waits for exactly these bytes. *)
Theorem interceptor_spec now cs :
  (total_written cs < 2 ^ 63)%Z →
  let w := wi_run true (NewResponseWrtierInterceptor now) cs in
  bytesWritten w = total_written cs ∧ statusCode w = last_status cs ∧ start w = now ∧
  counted w = total_written cs ∧
  (∀ pre t p post, cs = pre ++ (t, Write p) :: post → total_written pre = 0%Z → p ≠ "" →
     ttfb w = (t - now)%Z ∧ size_label w = Some (last_status pre)) ∧
  foldr Z.add 0%Z (omap (λ c, (throttled c.2).1) cs) = total_written cs.
Proof.
  intros Hsz w. destruct (wi_run_spec now cs Hsz) as (H1 & H2 & H3 & H4 & _ & H5).
  repeat (split; [done|]). clear. unfold total_written, written.
  induction cs as [|[t []] cs IH]; [done|done| |done]. simpl. f_equal. exact IH.
Qed.

Example interceptor_spec_witness :
  let w := wi_run true (NewResponseWrtierInterceptor 100)
             [(105, WriteHeader 206); (107, Write "abc"); (109, Flush); (120, Write "de")]%Z in
  bytesWritten w = 5%Z ∧ (ttfb w, size_label w) = (7, Some 206)%Z.
Proof.
  intros w.
  destruct (interceptor_spec 100 [(105, WriteHeader 206); (107, Write "abc"); (109, Flush); (120, Write "de")]%Z
    ltac:(by vm_compute)) as (H1 & _ & _ & _ & H5 & _).
  split; [exact H1|].
  destruct (H5 [(105, WriteHeader 206)]%Z 107%Z "abc" [(109, Flush); (120, Write "de")]%Z eq_refl eq_refl
    ltac:(done)) as [Ht Hl].
  unfold w. by rewrite Ht, Hl.
Defined.
