(* ===== verification/AccessHistory.v ===== *)
(** * services/access_history.go

    Which clients a session has been seen from: [Store] and the timers that
    forget a key.  Keys are hexadecimal SHA-1 digests (crypto/sha1). *)

From S2P Require Import Prelude GoStrings.

(** ** crypto/sha1 *)

Definition w32 (x : N) : N := (x mod 2 ^ 32)%N.
Definition rotl (n x : N) : N := N.lor (w32 (N.shiftl x n)) (N.shiftr x (32 - n)).
Definition not32 (x : N) : N := N.lxor x (2 ^ 32 - 1).

Fixpoint str_bytes (s : string) : list N :=
  match s with "" => [] | String c s => byte c :: str_bytes s end.

Definition be_bytes (n : nat) (x : N) : list N :=
  reverse (map (λ i, (x / 256 ^ N.of_nat i) mod 256)%N (seq 0 n)).

(** The message, a one bit, zeros, and the length in bits. *)
Definition sha1_pad (m : list N) : list N :=
  let l := length m in
  m ++ [128%N] ++ replicate ((119 - l mod 64) mod 64) 0%N ++ be_bytes 8 (8 * N.of_nat l).

Definition be_word (b : list N) : N := foldl (λ a x, a * 256 + x)%N 0%N b.
Fixpoint chunks {A} (fuel n : nat) (l : list A) : list (list A) :=
  match fuel, l with
  | 0, _ | _, [] => []
  | S fuel, l => take n l :: chunks fuel n (drop n l)
  end.

(** The message schedule, latest word first. *)
Fixpoint sha1_schedule (k : nat) (ws : list N) : list N :=
  match k with
  | 0 => ws
  | S k =>
      let w i := default 0%N (ws !! i) in
      sha1_schedule k (rotl 1 (N.lxor (N.lxor (w 2) (w 7)) (N.lxor (w 13) (w 15))) :: ws)
  end.

Definition sha1_f (t : nat) (b c d : N) : N * N :=
  if t <? 20 then (N.lor (N.land b c) (N.land (not32 b) d), 0x5A827999%N)
  else if t <? 40 then (N.lxor (N.lxor b c) d, 0x6ED9EBA1%N)
  else if t <? 60 then (N.lor (N.lor (N.land b c) (N.land b d)) (N.land c d), 0x8F1BBCDC%N)
  else (N.lxor (N.lxor b c) d, 0xCA62C1D6%N).

Definition sha1_block (h : N * N * N * N * N) (block : list N) : N * N * N * N * N :=
  let ws := reverse (sha1_schedule 64 (reverse (map be_word (chunks 16 4 block)))) in
  let step '(t, (a, b, c, d, e)) w :=
    let '(f, k) := sha1_f t b c d in
    (S t, (w32 (rotl 5 a + f + e + w + k), a, rotl 30 b, c, d)) in
  let '(_, (a, b, c, d, e)) := foldl step (0, h) ws in
  let '(h0, h1, h2, h3, h4) := h in
  (w32 (h0 + a), w32 (h1 + b), w32 (h2 + c), w32 (h3 + d), w32 (h4 + e)).

Definition hex_byte (b : N) : string :=
  let d n := ascii_of_N (if (n <? 10)%N then 48 + n else 87 + n) in
  String (d (b / 16)%N) (String (d (b mod 16)%N) "").

(** [fmt.Sprintf("%x", sha1.Sum([]byte(s)))] *)
Definition sha1_hex (s : string) : string :=
  let m := sha1_pad (str_bytes s) in
  let '(h0, h1, h2, h3, h4) :=
    foldl sha1_block (0x67452301, 0xEFCDAB89, 0x98BADCFE, 0x10325476, 0xC3D2E1F0)%N
      (chunks (length m) 64 m) in
  concat_str (map hex_byte ([h0; h1; h2; h3; h4] ≫= be_bytes 4)).

Example sha1_vectors :
  map sha1_hex [""; "abc"; "abcdbcdecdefdefgefghfghighijhijkijkljklmklmnlmnomnopnopq"] =
  ["da39a3ee5e6b4b0d3255bfef95601890afd80709"; "a9993e364706816aba3e25717850c26c9cd0d89d";
   "84983e441c3bd26ebaae4aa1f95129e5e54670f1"].
Proof. by vm_compute. Qed.

(** ** The history *)

(** [timers] are the goroutines that will delete a key. *)
Record AccessHistory := mkHistory {
  ah_m : gmap string (list string);
  limit : nat;
  timers : list string
}.

Definition accessHistoryLimit : nat := 5.
Definition NewAccessHistory : AccessHistory := mkHistory ∅ accessHistoryLimit [].

(** The clients of a key, with a new entry and its timer when there is none. *)
Definition ensure (s : AccessHistory) (okey : string) : AccessHistory :=
  match ah_m s !! okey with
  | Some _ => s
  | None => mkHistory (<[okey := []]> (ah_m s)) (limit s) (okey :: timers s)
  end.

Definition Store (oip oua nip nua : string) (s : AccessHistory) : (bool * Z) * AccessHistory :=
  let okey := sha1_hex (oip +:+ oua) in
  let nkey := sha1_hex (nip +:+ nua) in
  let s := ensure s okey in
  let l := default [] (ah_m s !! okey) in
  if decide (nkey ∈ l) then ((true, Z.of_nat (limit s) - Z.of_nat (length l))%Z, s)
  else if limit s <=? length l then ((false, 0%Z), s)
  else let l := l ++ [nkey] in
       ((true, Z.of_nat (limit s) - Z.of_nat (length l))%Z,
        mkHistory (<[okey := l]> (ah_m s)) (limit s) (timers s)).

(** The [i]th timer fires. *)
Definition expire (i : nat) (s : AccessHistory) : AccessHistory :=
  match timers s !! i with
  | Some k => mkHistory (delete k (ah_m s)) (limit s) (delete i (timers s))
  | None => s
  end.

Inductive ah_step : AccessHistory → AccessHistory → Prop :=
  | ah_store oip oua nip nua s : ah_step s (Store oip oua nip nua s).2
  | ah_expire i s : ah_step s (expire i s).

(** ** Its invariant *)

Record ah_inv (s : AccessHistory) : Prop := mkAhInv {
  ai_lists k l : ah_m s !! k = Some l → NoDup l ∧ (length l ≤ limit s)%nat;
  ai_timers : NoDup (timers s);
  ai_timed k : is_Some (ah_m s !! k) ↔ k ∈ timers s
}.

Lemma ensure_inv s k : ah_inv s → ah_inv (ensure s k).
Proof.
  intros [Hl Ht Hk]. unfold ensure. destruct (ah_m s !! k) as [l|] eqn:E; [by split|].
  split; simpl.
  - intros k' l. rewrite lookup_insert. case_decide; [|by apply Hl].
    intros [= <-]. split; [constructor|simpl; lia].
  - constructor; [|done]. rewrite <-Hk, E. by intros [? ?].
  - intros k'. rewrite lookup_insert, elem_of_cons, <-Hk. case_decide as D.
    { subst. split; [by left|by eexists]. }
    split; [by right|]. intros [->|?]; [done|done].
Qed.

Lemma Store_inv oip oua nip nua s : ah_inv s → ah_inv (Store oip oua nip nua s).2.
Proof.
  intros Hs. unfold Store. set (okey := sha1_hex (oip +:+ oua)). set (nkey := sha1_hex (nip +:+ nua)).
  pose proof (ensure_inv s okey Hs) as Hi. set (s' := ensure s okey) in *.
  pose proof Hi as [Hl Ht Hk]. case_decide as Hin; [done|].
  destruct (Nat.leb_spec (limit s') (length (default [] (ah_m s' !! okey)))) as [|Hlt]; [done|].
  split; simpl; [|done|].
  - intros k l. rewrite lookup_insert. case_decide; [|by apply Hl]. intros [= <-].
    destruct (ah_m s' !! okey) as [l|] eqn:E; simpl in *.
    + destruct (Hl _ _ E) as [Hn _]. rewrite length_app. simpl. split; [|lia].
      apply NoDup_app. split; [done|]. split; [|by apply NoDup_singleton]. set_solver.
    + split; [by apply NoDup_singleton|lia].
  - intros k. rewrite lookup_insert, <-Hk. case_decide as E; [|done]. subst k.
    split; [intros _|by eexists]. unfold s', ensure. destruct (ah_m s !! okey) eqn:E; [by rewrite E|].
    simpl. by rewrite lookup_insert_eq.
Qed.

Lemma expire_inv i s : ah_inv s → ah_inv (expire i s).
Proof.
  intros Hs. unfold expire. destruct (timers s !! i) as [k|] eqn:E; [|done].
  destruct Hs as [Hl Ht Hk]. pose proof (delete_Permutation _ _ _ E) as Hp.
  rewrite Hp in Ht. apply NoDup_cons in Ht as [Hnk Hnd].
  split; simpl; [| done |].
  - intros k' l. rewrite lookup_delete. case_decide; [done|]. apply Hl.
  - intros k'. specialize (Hk k'). rewrite Hp, elem_of_cons in Hk. rewrite lookup_delete.
    case_decide as D; [subst; split; [by intros [? ?]|done]|]. naive_solver.
Qed.

Definition ah_reachable (s : AccessHistory) : Prop := rtc ah_step NewAccessHistory s.

Lemma ah_reach_inv s : ah_reachable s → ah_inv s.
Proof.
  assert (∀ a b, rtc ah_step a b → ah_inv a → ah_inv b) as Hr.
  { induction 1 as [|a b c [] _ IH]; [done| |]; intros Ha; apply IH; [by apply Store_inv|by apply expire_inv]. }
  intros Hs. apply (Hr _ _ Hs). split; simpl; [done|by constructor|].
  intros k. split; [by intros [? ?]|by intros ?%not_elem_of_nil].
Qed.

(** The access history.  At every moment an entry lists at most five
    different clients and has exactly one timer, so it will be forgotten; and
    [Store] admits a client exactly when it is listed already or a place is
    left, lists it then, and answers the number of places left. *)
Theorem access_history_spec s oip oua nip nua :
  ah_reachable s →
  (∀ k l, ah_m s !! k = Some l → NoDup l ∧ (length l ≤ 5)%nat) ∧
  NoDup (timers s) ∧ (∀ k, is_Some (ah_m s !! k) ↔ k ∈ timers s) ∧
  let okey := sha1_hex (oip +:+ oua) in
  let nkey := sha1_hex (nip +:+ nua) in
  let seen := default [] (ah_m s !! okey) in
  let '((ok, left_), s') := Store oip oua nip nua s in
  (ok = true ↔ nkey ∈ seen ∨ (length seen < 5)%nat) ∧
  (if ok then nkey ∈ default [] (ah_m s' !! okey) ∧
     left_ = (5 - Z.of_nat (length (default [] (ah_m s' !! okey))))%Z ∧ (0 ≤ left_)%Z
   else left_ = 0%Z ∧ ah_m s' = ah_m s).
Proof.
  intros Hs. pose proof (ah_reach_inv _ Hs) as Hi.
  assert (limit s = 5) as Hlim.
  { clear Hi. assert (∀ a b, rtc ah_step a b → limit a = 5 → limit b = 5) as Hr; [|by apply (Hr _ _ Hs)].
    induction 1 as [|a b c [] _ IH]; [done| |]; intros Ha; apply IH.
    - unfold Store, ensure. by repeat case_match.
    - unfold expire. by case_match. }
  destruct Hi as [Hl Ht Hk]. rewrite Hlim in Hl. split; [done|]. split; [done|]. split; [done|].
  unfold Store in *. set (okey := sha1_hex (oip +:+ oua)) in *. set (nkey := sha1_hex (nip +:+ nua)) in *. cbv zeta in *.
  assert (limit (ensure s okey) = 5) as Hlim' by (unfold ensure; by destruct (ah_m s !! okey)).
  assert (default [] (ah_m (ensure s okey) !! okey) = default [] (ah_m s !! okey)) as Hseen.
  { unfold ensure. destruct (ah_m s !! okey) eqn:E; [by rewrite E|]. simpl. by rewrite lookup_insert_eq. }
  rewrite Hseen, Hlim' in *. set (seen := default [] (ah_m s !! okey)) in *.
  assert (length seen ≤ 5)%nat as Hlen.
  { subst seen. destruct (ah_m s !! okey) eqn:E; simpl; [by eapply Hl|lia]. }
  case_decide as Hin.
  - rewrite Hseen. split; [by split; [left|]|]. split; [done|]. split; [done|lia].
  - destruct (Nat.leb_spec 5 (length seen)) as [Hf|Hf].
    + split; [split; [done|intros [?|?]; [done|lia]]|]. split; [done|].
      unfold ensure. destruct (ah_m s !! okey) eqn:E; [done|]. subst seen. simpl in Hf. lia.
    + simpl. rewrite lookup_insert_eq. simpl. rewrite length_app. simpl.
      split; [split; [by right|done]|]. split; [set_solver|]. split; [done|lia].
Qed.

Definition demo_history : AccessHistory :=
  foldl (λ s ua, (Store "1.2.3.4" "UA" "1.2.3.4" ua s).2) NewAccessHistory ["a"; "b"; "c"; "d"; "e"].

Example access_history_spec_witness :
  (Store "1.2.3.4" "UA" "1.2.3.4" "f" demo_history).1 = (false, 0%Z) ∧
  (Store "1.2.3.4" "UA" "1.2.3.4" "b" demo_history).1 = (true, 0%Z) ∧
  length (timers demo_history) = 1 ∧ NoDup (timers demo_history).
Proof.
  split; [by vm_compute|]. split; [by vm_compute|]. split; [by vm_compute|].
  assert (ah_reachable demo_history) as Hr.
  { unfold demo_history. cbn [foldl]. repeat (eapply rtc_r; [|apply ah_store]). apply rtc_refl. }
  exact (proj1 (proj2 (access_history_spec demo_history "1.2.3.4" "UA" "1.2.3.4" "f" Hr))).
Defined.
