(* ===== verification/Web.v ===== *)
(** * services/web.go and services/speedtest.go: the request handlers

    The handler of the server's mux, [proxyHTTP] and [handleSpeedtest], composed
    from the other components as the code composes them.  [serve] stands for
    [httputil.ReverseProxy.ServeHTTP] with the chosen proxy. *)

From S2P Require Import Prelude GoStrings GoUrl GoNet GoFloat GoHttp Claims LazyMap K8s.
From S2P Require Import ServicesConfig UrlParser ServiceLocation ClientIP FileSizeCache.
From S2P Require Import SessionLimiter HybridBucket ClickHouse ManifestRewriter HttpProxy.
From S2P Require Import ResponseWriters.

(** A received request: [in_remote] is [r.RemoteAddr]. *)
Record in_request := mkIn {
  in_method : string;
  in_url : URL;
  in_header : Header;
  in_remote : string
}.

Section web.
Context {F : Type} `{GoFloat F} `{GoUnicode} {M : Type → Type} `{LazyMap M}.
Context (jwt_Parse : string → (jwt_head → outcome string) → outcome (jwt_token (F := F))).
Context (ToBytes : string → outcome Z).

Abbreviation MapClaims := (MapClaims (F := F)).

(** ** Configuration and state *)

Record Web := mkWeb {
  baseURL : string;
  bandwidthLimit : bool;
  enforceSessionIP : bool;
  w_claims : Claims;
  w_configs : ServicesConfig;
  w_limiter : option SessionLimiter;
  w_clickHouse : option chConfig;
  w_maxRetries : Z;
  w_redis : bool
}.

(** [ws_stats] is the batch of the statistics with the stores started. *)
Record webState := mkWebState {
  ws_heap : heap;
  ws_sizes : FileSizeCache;
  ws_pool : poolState (F := F) (M := M);
  ws_proxy : proxyState (M := M);
  ws_stats : list StatRecord * list (list StatRecord)
}.

Definition set_heap (s : webState) (h : heap) : webState :=
  mkWebState h (ws_sizes s) (ws_pool s) (ws_proxy s) (ws_stats s).
Definition set_pool (s : webState) (p : poolState) : webState :=
  mkWebState (ws_heap s) (ws_sizes s) p (ws_proxy s) (ws_stats s).
Definition set_proxy (s : webState) (p : proxyState) : webState :=
  mkWebState (ws_heap s) (ws_sizes s) (ws_pool s) p (ws_stats s).
Definition set_stats (s : webState) (x : list StatRecord * list (list StatRecord)) : webState :=
  mkWebState (ws_heap s) (ws_sizes s) (ws_pool s) (ws_proxy s) x.

(** What the reverse proxy is given: itself, the request with its context (the
    rules, the file key, the source in the retry context if one is attached) and
    the bucket the writer is throttled by. *)
Record proxied := mkProxied {
  pq_proxy : ReverseProxy;
  pq_request : in_request;
  pq_rules : RulesContext (F := F);
  pq_key : FileKey;
  pq_retry : option Source;
  pq_bucket : option nat
}.

(** What a handler does: the timed calls it makes on the writer, and the panic
    it ends with, if any. *)
Definition result : Type := list (Z * call) * option string.
Context (serve : proxied → webState → result * webState).

(** ** What the claims say *)

Definition hash_mismatch (claims : MapClaims) (src : Source) : bool :=
  let boundHash := default "" (claim_string claims "hash") in
  bool_decide (boundHash ≠ "") && bool_decide (boundHash ≠ InfoHash src).

Definition external (r : in_request) : bool :=
  bool_decide (h_get (in_header r) "X-FORWARDED-FOR" ≠ "").
Definition source_name (r : in_request) : string := if external r then "external" else "internal".

Definition req_ip (r : in_request) : string :=
  getIP (h_get (in_header r) "X-FORWARDED-FOR") (in_remote r).

Definition session_of (claims : MapClaims) : string := default "" (claim_string claims "sessionID").

Definition ip_mismatch (w : Web) (claims : MapClaims) (r : in_request) : bool :=
  enforceSessionIP w && external r && bool_decide (session_of claims ≠ "") &&
  match claim_string claims "remoteAddress" with
  | Some bound => bool_decide (bound ≠ "") && negb (sameSubnet bound (req_ip r))
  | None => false
  end.

(** ** The limiter *)

Definition limit_request (claims : MapClaims) (src : Source) (r : in_request) : req :=
  mkReq (session_of claims) (InfoHash src) (src_Path src) (req_ip r).

(** [None] when the limiter is not asked. *)
Definition acquire (w : Web) (now : Z) (claims : MapClaims) (src : Source) (r : in_request)
    (s : webState) : option (heap * (release + string)) :=
  match w_limiter w with
  | Some l =>
      if Enabled l && external r
      then Some (Acquire l (Some (FileSizeCache.Get (ws_sizes s))) now (ws_heap s)
                   (limit_request claims src r))
      else None
  | None => None
  end.

(** ** The request that is proxied *)

(** The headers that are set, as [map[string]string] lists them. *)
Definition trusted_headers (w : Web) (claims : MapClaims) (apiKey : string) (src : Source)
    : list (string * string) :=
  [("X-Source-Url", baseURL w +:+ "/" +:+ InfoHash src +:+ src_Path src +:+ "?" +:+ Query src);
   ("X-Proxy-Url", baseURL w);
   ("X-Info-Hash", InfoHash src);
   ("X-Path", src_Path src);
   ("X-Origin-Path", OriginPath src);
   ("X-Full-Path", "/" +:+ InfoHash src +:+ "/" +:+ path_escape (trim_prefix (src_Path src) "/"));
   ("X-Token", UrlParser.Token src);
   ("X-Api-Key", apiKey);
   ("X-Session-ID", session_of claims)] ++
  match claim_string claims "rate" with Some rate => [("X-Download-Rate", rate)] | None => [] end.

Definition with_headers (r : in_request) (hs : list (string * string)) : in_request :=
  mkIn (in_method r) (in_url r) (foldl (λ h kv, h_set h kv.1 kv.2) (in_header r) hs) (in_remote r).

Definition reply (e : slEnv) (code : Z) : result := ([(ServiceLocation.now e, WriteHeader code)], None).

(** From the bucket to [pr.ServeHTTP]; the replies of this part.  [HttpProxy.Get]
    returns a proxy or an error, never both nil, so the 501 that answers a nil
    proxy has no case here. *)
Definition forward (w : Web) (e : slEnv) (claims : MapClaims) (apiKey : string) (r : in_request)
    (src : Source) (s : webState) : result * webState :=
  let '(bucket, s) :=
    if bandwidthLimit w && external r then
      let '(b, p) := Pool_Get ToBytes (ServiceLocation.now e) (w_redis w) claims (ws_pool s) in
      (b, set_pool s p)
    else (Ok None, s) in
  match bucket with
  | Panic p => (([], Some p), s)
  | Err _ => (reply e StatusInternalServerError, s)
  | Ok bucket =>
      let r := with_headers r (trusted_headers w claims apiKey src) in
      let '(pr, p) := HttpProxy.Get e (w_configs w) (w_maxRetries w) src claims (ws_proxy s) in
      let s := set_proxy s p in
      match pr with
      | Panic p => (([], Some p), s)
      | Err _ => (reply e StatusInternalServerError, s)
      | Ok pr =>
          serve (mkProxied pr r
                   (mkRulesContext claims (query_get (in_url r) "token") (InfoHash src))
                   (mkFileKey (InfoHash src) (src_Path src))
                   (if (0 <? w_maxRetries w)%Z then Some src else None) bucket) s
      end
  end.

(** ** Statistics *)

Definition stat_record (claims : MapClaims) (apiKey : string) (r : in_request) (src : Source)
    (end_ : Z) (wi : ResponseWriterInterceptor) : StatRecord :=
  let ms d := wrap_u 64 (Z.quot d (10 ^ 6)) in
  mkStat (Z.div end_ (10 ^ 9)) apiKey (wrap_u 64 (bytesWritten wi)) (ms (ttfb wi))
    (ms (end_ - ResponseWriters.start wi)%Z) (src_Path src) (InfoHash src) (OriginPath src)
    (session_of claims) (default "default" (claim_string claims "domain"))
    (wrap_u 64 (statusCode wi)) (wrap_u 64 (GroupedStatusCode wi)) (GetEdgeName src)
    (source_name r) (default "nobody" (claim_string claims "role"))
    (default false (claim_bool claims "ads")).

(** The deferred statistics of a request whose writer saw [calls]. *)
Definition record_stat (w : Web) (claims : MapClaims) (apiKey : string) (r : in_request)
    (src : Source) (start end_ : Z) (calls : list (Z * call)) (s : webState) : webState :=
  let wi := wi_run true (NewResponseWrtierInterceptor start) calls in
  match w_clickHouse w with
  | Some c =>
      if (0 <? bytesWritten wi)%Z && (GroupedStatusCode wi =? 200)%Z
      then set_stats s (Add c (stat_record claims apiKey r src end_ wi) (ws_stats s))
      else s
  | None => s
  end.

(** ** [proxyHTTP] *)

(** [end_] is the time when the handler returns. The deferred functions run
    whatever becomes of the request, the statistics before the release. *)
Definition proxyHTTP (w : Web) (e : slEnv) (end_ : Z) (r : in_request) (src : Source) (s : webState)
    : result * webState :=
  let apiKey := query_get (in_url r) "api-key" in
  match Claims.Get jwt_Parse (w_claims w) (query_get (in_url r) "token") apiKey with
  | Err _ => (reply e StatusForbidden, s)
  | Panic p => (([], Some p), s)
  | Ok claims =>
      if hash_mismatch claims src then (reply e StatusForbidden, s) else
      if ip_mismatch w claims r then (reply e StatusTooManyRequests, s) else
      let admitted s :=
        let '(res, s) := forward w e claims apiKey r src s in
        (res, record_stat w claims apiKey r src (ServiceLocation.now e) end_ res.1 s) in
      match acquire w (ServiceLocation.now e) claims src r s with
      | None => admitted s
      | Some (h, inr _) => (reply e StatusTooManyRequests, set_heap s h)
      | Some (h, inl rel) =>
          let '(res, s) := admitted (set_heap s h) in
          (res, set_heap s (run_release (ws_heap s) rel))
      end
  end.

(** ** The mux handler *)

Inductive handled :=
  | Static (code : Z)
  | Proxy (res : result).

Definition static_path (p : string) : bool :=
  bool_decide (p = "/") || has_prefix p "/favicon" || has_prefix p "/ads.txt"
  || has_prefix p "/robots.txt".

(** The headers that the handler has set on the writer. *)
Definition handler_header : Header := h_set ∅ "Access-Control-Allow-Origin" "*".

Definition with_path (r : in_request) (p : string) : in_request :=
  mkIn (in_method r) (mkURL p (url_raw_query (in_url r))) (in_header r) (in_remote r).

Definition handle (w : Web) (e : slEnv) (o : parse_orders) (end_ : Z) (r : in_request)
    (s : webState) : handled * webState :=
  if static_path (url_path (in_url r)) then (Static 200, s) else
  match Parse (w_configs w) o (in_url r) with
  | Err _ => (Static 500, s)
  | Panic p => (Proxy ([], Some p), s)
  | Ok src =>
      let newPath := match src_Mod src with Some m => mod_Path m | None => src_Path src end in
      let '(res, s) := proxyHTTP w e end_ (with_path r newPath) src s in
      (Proxy res, s)
  end.

(** ** [handleSpeedtest] *)

Definition speedtestDefaultSize : Z := 10 * 1024 * 1024.
Definition speedtestMinSize : Z := 1 * 1024 * 1024.
Definition speedtestMaxSize : Z := 50 * 1024 * 1024.

Definition speedtest_size (sizeStr : string) : Z :=
  let size := if decide (sizeStr = "") then speedtestDefaultSize
              else default speedtestDefaultSize (atoi sizeStr) in
  let size := if (size <? speedtestMinSize)%Z then speedtestMinSize else size in
  if (speedtestMaxSize <? size)%Z then speedtestMaxSize else size.

(** [zeroReader.Read] into a buffer of the given length *)
Fixpoint zeros (n : nat) : string :=
  match n with 0 => "" | S n => String Ascii.zero (zeros n) end.

Definition handleSpeedtest (w : Web) (u : URL) : Header * list call :=
  match Claims.Get jwt_Parse (w_claims w) (query_get u "token") (query_get u "api-key") with
  | Ok _ =>
      let size := speedtest_size (query_get u "size") in
      (foldl (λ h kv, h_set h kv.1 kv.2) ∅
         [("Access-Control-Allow-Origin", "*"); ("Content-Type", "application/octet-stream");
          ("Content-Length", itoa size); ("Cache-Control", "no-store")],
       [WriteHeader StatusOK; Write (zeros (Z.to_nat size))])
  | _ => (∅, [WriteHeader StatusForbidden])
  end.

End web.
