(* ===== verification/WebSpec.v ===== *)
(** * What the request handlers guarantee

    Which requests reach the reverse proxy and with what, that the limiter's
    counts are given back whatever becomes of a request, when statistics are
    recorded, and the answers of the speed test. *)

From S2P Require Import Prelude GoStrings GoUrl GoNet GoFloat GoHttp Claims LazyMap K8s.
From S2P Require Import ServicesConfig UrlParser ServiceLocation ClientIP FileSizeCache.
From S2P Require Import SessionLimiter SessionLimiterConc SessionLimiterSeq.
From S2P Require Import RetryReader.
From S2P Require Import HybridBucket ClickHouse ManifestRewriter HttpProxy ResponseWriters Web.

Section spec.
Context {F : Type} `{GoFloat F} `{GoUnicode} {M : Type → Type} `{LazyMap M}.
Context (jwt_Parse : string → (jwt_head → outcome string) → outcome (jwt_token (F := F))).
Context (ToBytes : string → outcome Z).

Abbreviation webState := (webState (F := F) (M := M)).
Abbreviation proxied := (proxied (F := F)).
Abbreviation MapClaims := (MapClaims (F := F)).
Abbreviation proxyHTTP := (proxyHTTP jwt_Parse ToBytes).

(** ** Headers of the proxied request *)

Lemma set_all_get (hs : list (string * string)) h k v :
  NoDup (canonical <$> hs.*1) → (k, v) ∈ hs → h_get (foldl (λ h kv, h_set h kv.1 kv.2) h hs) k = v.
Proof.
  revert h. induction hs as [|[k0 v0] hs IH]; intros h Hnd Hin; [by apply not_elem_of_nil in Hin|].
  apply NoDup_cons in Hnd as [Hk Hnd]. simpl. apply elem_of_cons in Hin as [[= -> ->]|Hin]; [|by apply IH].
  assert (∀ (l : list (string * string)) h, canonical k0 ∉ canonical <$> l.*1 →
    h_get (foldl (λ h kv, h_set h kv.1 kv.2) h l) k0 = h_get h k0) as Hskip.
  { clear. induction l as [|[k v] l IH]; intros h Hn; [done|]. simpl in *.
    apply not_elem_of_cons in Hn as [Hne Hn]. rewrite IH by done. rewrite h_get_set.
    by rewrite decide_False. }
  rewrite Hskip by done. by rewrite h_get_set, decide_True.
Qed.

Lemma trusted_distinct w (claims : MapClaims) apiKey src :
  NoDup (canonical <$> (trusted_headers w claims apiKey src).*1).
Proof.
  unfold trusted_headers. destruct (claim_string claims "rate");
    apply (bool_decide_unpack _); by vm_compute.
Qed.

(** ** Which requests reach the proxy *)

(** What is true of a request that is handed to the reverse proxy. *)
Record admitted_request (w : Web) (e : slEnv) (r : in_request) (src : Source) (s : webState)
    (claims : MapClaims) (q : proxied) : Prop := mkAdmitted {
  ar_claims : Claims.Get jwt_Parse (w_claims w) (query_get (in_url r) "token")
                (query_get (in_url r) "api-key") = Ok claims;
  ar_hash : ∀ h, claim_string claims "hash" = Some h → h ≠ "" → h = InfoHash src;
  ar_subnet : ∀ bound, enforceSessionIP w = true → external r = true → session_of claims ≠ "" →
    claim_string claims "remoteAddress" = Some bound → bound ≠ "" →
    sameSubnet bound (req_ip r) = true;
  ar_limit : ∀ l, w_limiter w = Some l → Enabled l = true → external r = true →
    ∃ h rel, Acquire l (Some (FileSizeCache.Get (ws_sizes s))) (ServiceLocation.now e) (ws_heap s)
               (limit_request claims src r) = (h, inl rel);
  ar_headers : ∀ k v, (k, v) ∈ trusted_headers w claims (query_get (in_url r) "api-key") src →
    h_get (in_header (pq_request q)) k = v;
  ar_url : in_url (pq_request q) = in_url r;
  ar_key : pq_key q = mkFileKey (InfoHash src) (src_Path src);
  ar_rules : rc_Claims (pq_rules q) = claims;
  ar_bucket : bandwidthLimit w = true → external r = true →
    is_Some (claim_string claims "sessionID") → is_Some (claim_string claims "rate") →
    is_Some (pq_bucket q)
}.

Lemma forward_spec serve w e claims apiKey r src (s s' : webState) res :
  forward ToBytes serve w e claims apiKey r src s = (res, s') →
  (∀ serve', forward ToBytes serve' w e claims apiKey r src s = (res, s')) ∨
  ∃ q s1, (res, s') = serve q s1 ∧
    (∀ k v, (k, v) ∈ trusted_headers w claims apiKey src → h_get (in_header (pq_request q)) k = v) ∧
    in_url (pq_request q) = in_url r ∧ pq_key q = mkFileKey (InfoHash src) (src_Path src) ∧
    rc_Claims (pq_rules q) = claims ∧
    (bandwidthLimit w = true → external r = true → is_Some (claim_string claims "sessionID") →
     is_Some (claim_string claims "rate") → is_Some (pq_bucket q)).
Proof.
  unfold forward. set (pool := if bandwidthLimit w && external r then _ else _).
  assert (∀ b s1, pool = (Ok b, s1) → bandwidthLimit w = true → external r = true →
    is_Some (claim_string claims "sessionID") → is_Some (claim_string claims "rate") → is_Some b) as Hb.
  { subst pool. intros b s1 E Hbw Hx [sid Hsid] [rate Hrate]. rewrite Hbw, Hx in E. cbn [andb] in E.
    destruct (Pool_Get _ _ _ _ _) as [b' p] eqn:Ep. simplify_eq.
    unfold Pool_Get in Ep. rewrite Hsid, Hrate in Ep.
    destruct (ToBytes rate) as [n| |]; [|done..].
    destruct (lm_get _ _ _ _ _ _) as [[v| |] p1]; simplify_eq/=. by eexists. }
  destruct pool as [[b| |] s1] eqn:Ep; [|intros E; by left..].
  destruct (HttpProxy.Get _ _ _ _ _ _) as [[pr| |] p]; [|intros E; by left..].
  intros E. right. eexists _, _. split; [symmetry; exact E|]. cbn [pq_request pq_key pq_rules pq_bucket].
  split; [|split; [done|]; split; [done|]; split; [done|]; by eapply Hb].
  intros k v Hin. cbn [with_headers in_header]. apply set_all_get; [apply trusted_distinct|done].
Qed.

Lemma proxied_request_cases serve w e end_ r src (s : webState) :
  (∀ serve', proxyHTTP serve' w e end_ r src s = proxyHTTP serve w e end_ r src s) ∨
  ∃ claims q s1, admitted_request w e r src s claims q ∧
    (proxyHTTP serve w e end_ r src s).1 = (serve q s1).1.
Proof.
  unfold proxyHTTP, Web.proxyHTTP.
  destruct (Claims.Get _ _ _ _) as [claims| |] eqn:Ec; [|by left..].
  destruct (hash_mismatch claims src) eqn:Eh; [by left|].
  destruct (ip_mismatch w claims r) eqn:Ei; [by left|].
  assert (∀ s2, acquire w (ServiceLocation.now e) claims src r s = None ∨
      (∃ h rel, acquire w (ServiceLocation.now e) claims src r s = Some (h, inl rel)) →
    (∀ serve', forward ToBytes serve' w e claims (query_get (in_url r) "api-key") r src s2
               = forward ToBytes serve w e claims (query_get (in_url r) "api-key") r src s2) ∨
    ∃ q s1, admitted_request w e r src s claims q ∧
      forward ToBytes serve w e claims (query_get (in_url r) "api-key") r src s2 = serve q s1) as Hfwd.
  { intros s2 Hacq. destruct (forward _ serve _ _ _ _ _ _ s2) as [res s3] eqn:Ef.
    destruct (forward_spec _ _ _ _ _ _ _ _ _ _ Ef) as [Hall|(q & s1 & Hq & Hh & Hu & Hk & Hr & Hb)];
      [by left|].
    right. exists q, s1. split; [|by rewrite Hq]. split; try done.
    - intros h Hh' Hne. unfold hash_mismatch in Eh. rewrite Hh' in Eh. simpl in Eh.
      rewrite bool_decide_eq_true_2 in Eh by done. by apply bool_decide_eq_false, dec_stable in Eh.
    - intros bound He Hx Hs Hbound Hne. unfold ip_mismatch in Ei.
      rewrite He, Hx, Hbound, !bool_decide_eq_true_2 in Ei by done. simpl in Ei.
      by destruct (sameSubnet _ _).
    - intros l Hl He Hx. unfold acquire in Hacq. rewrite Hl, He, Hx in Hacq. cbn [andb] in Hacq.
      destruct (Acquire _ _ _ _ _) as [h [rel|why]]; [by eauto|].
      destruct Hacq as [|(? & ? & ?)]; simplify_eq. }
  destruct (acquire w (ServiceLocation.now e) claims src r s) as [[h [rel|why]]|] eqn:Ea; [|by left|].
  - destruct (Hfwd (set_heap s h)) as [Hall|(q & s1 & Hq & E)]; [right; eauto| |].
    + left. intros serve'. by rewrite Hall.
    + right. exists claims, q, s1. split; [done|]. rewrite E. by destruct (serve q s1).
  - destruct (Hfwd s) as [Hall|(q & s1 & Hq & E)]; [by left| |].
    + left. intros serve'. by rewrite Hall.
    + right. exists claims, q, s1. split; [done|]. rewrite E. by destruct (serve q s1).
Qed.

(** C2: what reaches the upstream.  A request is either answered without the
    reverse proxy (then its outcome does not depend on the proxy at all), or
    the proxy is given it once, and then: its claims are accepted; a bound hash
    is the requested torrent; an external session comes from the subnet it is
    bound to when that is enforced; the limiter admitted it; the trusted
    headers have the values of the parsed source and the claims whatever the
    client sent; the response rules get the same claims and the size cache the
    same file; and a throttled session has its bucket. *)
Theorem proxied_request_spec serve w e end_ r src (s : webState) :
  (∀ serve', proxyHTTP serve' w e end_ r src s = proxyHTTP serve w e end_ r src s) ∨
  ∃ claims q s1, admitted_request w e r src s claims q ∧
    (proxyHTTP serve w e end_ r src s).1 = (serve q s1).1.
Proof. apply proxied_request_cases. Qed.

(** ** What becomes of the limiter and the statistics *)

(** The reverse proxy leaves the limiter and the statistics of this request
    alone. *)
Class ServeLaws (serve : proxied → webState → result * webState) : Prop := {
  sv_heap q s : ws_heap (serve q s).2 = ws_heap s;
  sv_stats q s : ws_stats (serve q s).2 = ws_stats s
}.

Lemma forward_frame serve `{!ServeLaws serve} w e claims apiKey r src (s : webState) :
  ws_heap (forward ToBytes serve w e claims apiKey r src s).2 = ws_heap s ∧
  ws_stats (forward ToBytes serve w e claims apiKey r src s).2 = ws_stats s.
Proof.
  unfold forward.
  assert (∀ pool : outcome (option nat) * webState,
    pool = (if bandwidthLimit w && external r then
      let '(b, p) := Pool_Get ToBytes (ServiceLocation.now e) (w_redis w) claims (ws_pool s) in
      (b, set_pool s p) else (Ok None, s)) →
    ws_heap pool.2 = ws_heap s ∧ ws_stats pool.2 = ws_stats s) as Hpool.
  { intros pool ->. destruct (bandwidthLimit w && external r); [|done].
    by destruct (Pool_Get _ _ _ _ _). }
  destruct (if bandwidthLimit w && external r then _ else _) as [b s1].
  destruct (Hpool _ eq_refl) as [Hp1 Hp2]. simpl in Hp1, Hp2.
  destruct b as [b| |]; [|done..].
  destruct (HttpProxy.Get _ _ _ _ _ _) as [[pr| |] p]; [|done..].
  rewrite sv_heap, sv_stats. done.
Qed.

Lemma record_stat_heap w claims apiKey r src st end_ calls (s : webState) :
  ws_heap (record_stat w claims apiKey r src st end_ calls s) = ws_heap s.
Proof. unfold record_stat. by repeat case_match. Qed.

(** C18: every count is given back.  Whatever becomes of a request (refused,
    failed, served, or ended by a panic of the proxy), the limiter is left with
    the requests in flight that it had before. *)
Theorem limiter_released serve w e end_ r src (s : webState) l ts :
  ServeLaws serve → w_limiter w = Some l → (Z.of_nat (length ts) < 2 ^ 31 - 3)%Z →
  history l (ws_heap s) ts →
  history l (ws_heap (proxyHTTP serve w e end_ r src s).2) ts.
Proof.
  intros Hserve Hl Hts Hh. unfold proxyHTTP, Web.proxyHTTP.
  destruct (Claims.Get _ _ _ _) as [claims| |]; [|done..].
  destruct (hash_mismatch claims src); [done|]. destruct (ip_mismatch w claims r); [done|].
  set (k := query_get (in_url r) "api-key").
  assert (∀ s0 : webState, ws_heap (let '(res, s) := forward ToBytes serve w e claims k r src s0 in
    (res, record_stat w claims k r src (ServiceLocation.now e) end_ res.1 s)).2 = ws_heap s0) as Hadm.
  { intros s0. pose proof (proj1 (forward_frame serve w e claims k r src s0)) as Hf.
    destruct (forward _ _ _ _ _ _ _ _ s0) as [res s1]. cbn [snd] in *.
    by rewrite record_stat_heap. }
  unfold acquire. rewrite Hl. destruct (Enabled l && external r); [|by rewrite Hadm].
  destruct (Acquire _ _ _ _ _) as [h out] eqn:Ea. destruct out as [rel|why].
  - specialize (Hadm (set_heap s h)).
    destruct (let '(res, s) := _ in _) as [res s2]. cbn [snd ws_heap set_heap] in *. rewrite Hadm.
    destruct rel as [|tk]; [by eapply hist_free|].
    apply (hist_release l h (tk :: ts) ts tk); [|done].
    eapply hist_admit; [exact Hh| |exact Ea]. unfold few. simpl. lia.
  - by eapply hist_reject.
Qed.

(** C31: when a request is counted.  With statistics on, a served request adds
    exactly one record when it wrote at least one byte and its last status is a
    2xx, and none otherwise; the record has the bytes that were written, the
    torrent, file, session and role of the request. *)
Theorem stat_recorded serve w e end_ r src (s : webState) c claims :
  ServeLaws serve → w_clickHouse w = Some c →
  Claims.Get jwt_Parse (w_claims w) (query_get (in_url r) "token") (query_get (in_url r) "api-key")
    = Ok claims →
  hash_mismatch claims src = false → ip_mismatch w claims r = false →
  (∀ h why, acquire w (ServiceLocation.now e) claims src r s ≠ Some (h, inr why)) →
  let '((calls, _), s') := proxyHTTP serve w e end_ r src s in
  (total_written calls < 2 ^ 63)%Z →
  if bool_decide (0 < total_written calls ∧ 200 ≤ last_status calls < 300)%Z
  then ∃ st, ws_stats s' = Add c st (ws_stats s) ∧ BytesWritten st = total_written calls ∧
         st_InfoHash st = InfoHash src ∧ ClickHouse.st_Path st = src_Path src ∧
         ClickHouse.SessionID st = session_of claims ∧
         Role st = default "nobody" (claim_string claims "role")
  else ws_stats s' = ws_stats s.
Proof.
  intros Hserve Hc Hclaims Hhash Hip Hacq.
  assert (∀ (s0 : webState) res s1, ws_stats s0 = ws_stats s →
    forward ToBytes serve w e claims (query_get (in_url r) "api-key") r src s0 = (res, s1) →
    ∀ s2 : webState, ws_stats s2 = ws_stats (record_stat w claims (query_get (in_url r) "api-key") r src
            (ServiceLocation.now e) end_ res.1 s1) →
    (total_written res.1 < 2 ^ 63)%Z →
    if bool_decide (0 < total_written res.1 ∧ 200 ≤ last_status res.1 < 300)%Z
    then ∃ st, ws_stats s2 = Add c st (ws_stats s) ∧ BytesWritten st = total_written res.1 ∧
         st_InfoHash st = InfoHash src ∧ ClickHouse.st_Path st = src_Path src ∧
         ClickHouse.SessionID st = session_of claims ∧
         Role st = default "nobody" (claim_string claims "role")
    else ws_stats s2 = ws_stats s) as Hrec.
  { intros s0 res s1 Hs0 Hf s2 Hs2 Hsz. rewrite Hs2. clear Hs2.
    pose proof (proj2 (forward_frame serve w e claims (query_get (in_url r) "api-key") r src s0)) as Hst.
    rewrite Hf in Hst. cbn [snd] in Hst. unfold record_stat. rewrite Hc.
    destruct (wi_run_spec (ServiceLocation.now e) res.1 Hsz) as (Hb & Hs & _).
    set (wi := wi_run _ _ _) in *. unfold GroupedStatusCode. rewrite Hb, Hs.
    assert ((0 <? total_written res.1)%Z && (Z.quot (last_status res.1) 100 * 100 =? 200)%Z
            = bool_decide (0 < total_written res.1 ∧ 200 ≤ last_status res.1 < 300)%Z) as ->.
    { apply eq_true_iff_eq. rewrite andb_true_iff, Z.ltb_lt, Z.eqb_eq, bool_decide_eq_true.
      split; intros [? Hq]; (split; [done|]).
      - pose proof (Z.quot_rem (last_status res.1) 100).
        pose proof (Z.rem_bound_abs (last_status res.1) 100).
        destruct (Z.le_gt_cases 0 (last_status res.1)).
        + pose proof (Z.rem_bound_pos (last_status res.1) 100). lia.
        + pose proof (Z.quot_opp_l (- last_status res.1) 100). 
          rewrite Z.opp_involutive in *. pose proof (Z.quot_pos (- last_status res.1) 100). lia.
      - assert (Z.quot (last_status res.1) 100 = 2)%Z as -> by
          (rewrite Z.quot_div_nonneg by lia; symmetry; apply (Z.div_unique _ _ _ (last_status res.1 - 200)); lia).
        done. }
    case_bool_decide as Hd; [|by rewrite Hst].
    eexists. split; [cbn [ws_stats set_stats]; by rewrite Hst, Hs0|].
    split; [|done]. cbn [BytesWritten stat_record]. rewrite Hb. unfold wrap_u.
    rewrite Z.mod_small; [done|]. lia. }
  unfold proxyHTTP, Web.proxyHTTP. rewrite Hclaims, Hhash, Hip.
  destruct (acquire w _ claims src r s) as [[h [rel|why]]|] eqn:Ea; [|by destruct (Hacq h why)|].
  - destruct (forward ToBytes serve _ _ _ _ _ _ (set_heap s h)) as [[calls p] s1] eqn:Ef.
    by apply (Hrec (set_heap s h) (calls, p) s1 eq_refl Ef).
  - destruct (forward ToBytes serve _ _ _ _ _ _ s) as [[calls p] s1] eqn:Ef.
    by apply (Hrec s (calls, p) s1 eq_refl Ef).
Qed.

(** ** The speed test *)

Lemma slen_zeros n : slen (zeros n) = n.
Proof. induction n as [|n IH]; simpl; [done|]. by rewrite IH. Qed.

(** C39: the speed test.  Without accepted claims it answers 403 with no body;
    otherwise it sends between 1 MiB and 50 MiB of zeros, exactly as many as
    the Content-Length it announces, and exactly as many as asked for when that
    is within the limits. *)
Theorem speedtest_spec w u :
  let '(h, calls) := handleSpeedtest jwt_Parse w u in
  let size := speedtest_size (query_get u "size") in
  (1048576 ≤ size ≤ 52428800)%Z ∧
  (∀ n, query_get u "size" = itoa n → (1048576 ≤ n ≤ 52428800)%Z → size = n) ∧
  (if is_ok (Claims.Get jwt_Parse (w_claims w) (query_get u "token") (query_get u "api-key"))
   then ∃ body, calls = [WriteHeader 200; Write body] ∧ Z.of_nat (slen body) = size ∧
          h_get h "Content-Length" = itoa size
   else calls = [WriteHeader 403]).
Proof.
  assert (∀ x, 1048576 ≤ speedtest_size x ≤ 52428800)%Z as Hsize.
  { intros x. unfold speedtest_size, speedtestMinSize, speedtestMaxSize.
    set (a := if decide (x = "") then _ else _).
    destruct (Z.ltb_spec a (1 * 1024 * 1024)); [simpl; lia|].
    destruct (Z.ltb_spec (50 * 1024 * 1024) a); lia. }
  unfold handleSpeedtest. pose proof (Hsize (query_get u "size")) as Hs.
  assert (∀ n, query_get u "size" = itoa n → (1048576 ≤ n ≤ 52428800)%Z →
               speedtest_size (query_get u "size") = n) as Hexact.
  { intros n -> Hn. unfold speedtest_size, atoi.
    rewrite (decide_False (P := itoa n = "")) by (by apply itoa_nonneg_digits; lia).
    rewrite parse_int_itoa by (split; simpl; lia). simpl.
    unfold speedtestMinSize, speedtestMaxSize.
    rewrite (proj2 (Z.ltb_ge n _)) by lia. by rewrite (proj2 (Z.ltb_ge _ n)) by lia. }
  set (size := speedtest_size _) in *.
  destruct (Claims.Get _ _ _ _); simpl; (split; [exact Hs|]); (split; [exact Hexact|]); [|done..].
  eexists. split; [done|]. rewrite slen_zeros. split; [lia|].
  rewrite !h_get_set. by rewrite (decide_False (P := canonical "Cache-Control" = _)), decide_True by done.
Qed.

End spec.

(** ** A concrete server *)

#[local] Existing Instance binary64.
#[local] Existing Instance demo_unicode.

Definition demo_limiter : SessionLimiter := mkLimiter 2 2 100 ∅ 5 0.
Definition demo_web : Web :=
  mkWeb "http://thp:8080" false true (mkClaims "k" "s3cret")
    {["default" := mkServiceConfig "svc" Hash Environment false ∅]}
    (Some demo_limiter) (Some (mkChConfig 10 "n1" false false)) 0 false.
Definition demo_slenv : slEnv :=
  ServiceLocation.mkEnv (10 ^ 18) "" "" (Ok tt) (Ok []) (λ _, Ok (mkEndpoints []))
    (λ k, if decide (k = "SVC_SERVICE_PORT") then "8080" else "10.0.0.9") 0 (λ _, Ok 200%Z).
Definition demo_in : in_request :=
  mkIn "GET" (mkURL "/08ada5a7a6183aae1e09d831df6748d566095a10/f.mp4" "token=HS256.s3cret.u1&api-key=k")
    {["X-Forwarded-For" := ["1.2.3.4, 10.0.0.1"]; "X-Info-Hash" := ["forged"]]} "10.0.0.1:5555".
Definition demo_source : Source :=
  mkSource "default" "svc" "08ada5a7a6183aae1e09d831df6748d566095a10" "/f.mp4" "/f.mp4"
    "HS256.s3cret.u1" "k" "" None.
Definition demo_web_state : webState (F := SpecFloat.spec_float) (M := timed) :=
  mkWebState empty_heap (NewFileSizeCache 0)
    (mkPool (timed_empty 300 false) [])
    (mkProxyState (ServiceLocation.mkState (timed_empty 15 false) (timed_empty 30 false) (timed_empty 30 true)
                     (timed_empty 60 false) (timed_empty 60 false)) (timed_empty 60 false))
    ([], []).
(** A proxy that sends the address and the torrent it was asked for. *)
Definition demo_serve (q : proxied (F := SpecFloat.spec_float)) (s : webState (F := SpecFloat.spec_float) (M := timed))
    : result * webState :=
  (([(10 ^ 18 + 5, WriteHeader 206);
     (10 ^ 18 + 7 * 10 ^ 6, Write (px_host (pq_proxy q)))]%Z, None), s).

Lemma demo_serve_laws : ServeLaws demo_serve.
Proof. by split. Qed.

Definition demo_out :=
  proxyHTTP toy_Parse (λ _, Ok 8000%Z) demo_serve demo_web demo_slenv (10 ^ 18 + 10 ^ 9) demo_in
    demo_source demo_web_state.

Example limiter_released_witness :
  total_written demo_out.1.1 = 13%Z ∧ history demo_limiter (ws_heap demo_out.2) [].
Proof.
  split; [by vm_compute|].
  apply (limiter_released toy_Parse (λ _, Ok 8000%Z) demo_serve demo_web demo_slenv
    (10 ^ 18 + 10 ^ 9) demo_in demo_source demo_web_state demo_limiter []);
    [exact demo_serve_laws|done|by vm_compute|apply hist_init].
Defined.

Example stat_recorded_witness :
  ∃ st, ws_stats demo_out.2 = ([st], []) ∧ BytesWritten st = 13%Z ∧ ClickHouse.SessionID st = "u1".
Proof.
  assert (Claims.Get toy_Parse (w_claims demo_web) (query_get (in_url demo_in) "token")
    (query_get (in_url demo_in) "api-key") = Ok (Some {["sessionID" := JStr "u1"]})) as Hc
    by (by vm_compute).
  assert (∀ h why, acquire demo_web (ServiceLocation.now demo_slenv) (Some {["sessionID" := JStr "u1"]})
    demo_source demo_in demo_web_state ≠ Some (h, inr why)) as Ha
    by (intros h why E; by vm_compute in E).
  assert (total_written demo_out.1.1 < 2 ^ 63)%Z as Hsz by (by vm_compute).
  assert (bool_decide (0 < total_written demo_out.1.1 ∧ 200 ≤ last_status demo_out.1.1 < 300)%Z = true)
    as Hd by (by vm_compute).
  pose proof (stat_recorded toy_Parse (λ _, Ok 8000%Z) demo_serve demo_web demo_slenv
    (10 ^ 18 + 10 ^ 9) demo_in demo_source demo_web_state (mkChConfig 10 "n1" false false)
    (Some {["sessionID" := JStr "u1"]}) demo_serve_laws eq_refl Hc eq_refl eq_refl Ha) as Hs.
  fold demo_out in Hs. destruct demo_out as [[calls p] s'] eqn:E. cbn [fst snd] in *.
  specialize (Hs Hsz). rewrite Hd in Hs. destruct Hs as (st & Hst & Hb & _ & _ & Hsid & _).
  assert (calls = demo_out.1.1) as Hcalls by (by rewrite E).
  assert (total_written calls = 13%Z) as Ht by (rewrite Hcalls; by vm_compute).
  exists st. rewrite Hst, Hb, Ht. split; [done|]. split; [done|]. rewrite Hsid. by vm_compute.
Defined.
