(* ===== verification/Server.v ===== *)
(** * The server: [Web.Serve] and [Web.Close]

    The handlers that [Serve] registers, what listening and closing do, and what
    any of the handlers does for a request without accepted claims. *)

From S2P Require Import Prelude GoStrings GoUrl GoNet GoFloat GoHttp Claims LazyMap K8s.
From S2P Require Import ServicesConfig UrlParser ServiceLocation ClientIP FileSizeCache.
From S2P Require Import SessionLimiter.
From S2P Require Import RetryReader.
From S2P Require Import HybridBucket ClickHouse ManifestRewriter HttpProxy ResponseWriters Web WebSpec.

(** ** Listening *)

(** What [s.ln] holds, what [net.Listen] answers for the address, and how
    [http.Server.Serve] ends. *)
Record listener := mkListener { l_addr : string; l_open : bool }.

Definition Serve (listen : string → outcome unit) (serve_ln : string → outcome unit)
    (host : string) (port : Z) : outcome unit * option listener :=
  let addr := host +:+ ":" +:+ itoa port in
  match wrap_err "failed to web listen to tcp connection" (listen addr) with
  | Ok _ => (serve_ln addr, Some (mkListener addr true))
  | r => (r, None)
  end.

(** [Close] before [Serve], or after a failed one, does nothing. *)
Definition Close (ln : option listener) : option listener :=
  match ln with Some l => Some (mkListener (l_addr l) false) | None => None end.

(** ** The debug page *)

(** [net.Addr] of an interface. *)
Inductive net_addr :=
  | IPNet (ip : IP)
  | IPAddr (ip : IP)
  | OtherAddr.

(** The last address of all interfaces. *)
Definition last_ip (ifaces : list (list net_addr)) : option IP :=
  foldl (λ ip addr, match addr with IPNet v | IPAddr v => Some v | OtherAddr => ip end)
    None (concat ifaces).

Definition tab_line (name value : string) : string :=
  name +:+ ":" +:+ String (ascii_of_nat 9) value +:+ String (ascii_of_nat 10) "".

Definition debug (ifaces : list (list net_addr)) (r : in_request) : list call :=
  [Write (tab_line "Current ip" (IP_String (last_ip ifaces))); Write (tab_line "Remote addr" (in_remote r))].

Section server.
Context {F : Type} `{GoFloat F} `{GoUnicode} {M : Type → Type} `{LazyMap M}.
Context (jwt_Parse : string → (jwt_head → outcome string) → outcome (jwt_token (F := F))).
Context (ToBytes : string → outcome Z).

Abbreviation webState := (webState (F := F) (M := M)).
Abbreviation proxied := (proxied (F := F)).
Abbreviation Claims_Get w r :=
  (Claims.Get jwt_Parse (w_claims w) (query_get (in_url r) "token") (query_get (in_url r) "api-key")).

Context (serve : proxied → webState → result * webState).

(** ** The handlers *)

(** The patterns that [Serve] registers with the mux. *)
Inductive pattern := PDebug | PSpeedtest | PRoot.

(** The calls that the handler of a pattern makes on the writer. *)
Definition dispatch (w : Web) (ifaces : list (list net_addr)) (e : slEnv) (o : parse_orders) (end_ : Z)
    (p : pattern) (r : in_request) (s : webState) : list call * webState :=
  match p with
  | PDebug => (debug ifaces r, s)
  | PSpeedtest => ((handleSpeedtest jwt_Parse w (in_url r)).2, s)
  | PRoot =>
      match handle jwt_Parse ToBytes serve w e o end_ r s with
      | (Static code, s) => ([WriteHeader code], s)
      | (Proxy res, s) => (res.1.*2, s)
      end
  end.

Definition is_write (c : call) : bool := match c with Write _ => true | _ => false end.

(** C26: nothing without claims.  Whatever handler the mux chooses for a request
    whose claims are not accepted: no byte of a body is sent, and nothing of the
    server's state changes (no admission, no bucket, no location, no statistics).
    The debug page is the exception: it answers anybody, with the server's last
    address and the caller's own. *)
Theorem nothing_without_claims w ifaces e o end_ p r (s : webState) :
  is_ok (Claims_Get w r) = false →
  let '(calls, s') := dispatch w ifaces e o end_ p r s in
  s' = s ∧
  match p with
  | PDebug => calls = debug ifaces r
  | _ => Forall (λ c, is_write c = false) calls
  end.
Proof.
  intros Hc. destruct p; cbn [dispatch].
  - done.
  - unfold handleSpeedtest. destruct (Claims.Get _ _ _ _); [done|..]; (split; [done|]); by repeat constructor.
  - unfold handle. destruct (static_path _); [split; [done|]; by repeat constructor|].
    destruct (Parse _ _ _) as [src|x|x]; [|split; [done|]; by repeat constructor..].
    unfold Web.proxyHTTP. cbn [with_path in_url query_get url_raw_query].
    change (query_get (mkURL _ (url_raw_query (in_url r)))) with (query_get (in_url r)).
    destruct (Claims.Get _ _ _ _); [done|..]; (split; [done|]); by repeat constructor.
Qed.

End server.

(** ** A concrete server *)

#[local] Existing Instance binary64.
#[local] Existing Instance demo_unicode.

Definition demo_anonymous : in_request := mkIn "GET" (mkURL "/speedtest" "token=none.x.u1&api-key=k") ∅ "10.0.0.1:5555".
Example nothing_without_claims_witness :
  Forall (λ c, is_write c = false)
    (dispatch toy_Parse (λ _, Ok 8000%Z) demo_serve demo_web [] demo_slenv
       (mkOrders [] (λ _, []) (λ _ _, [])) 0 PSpeedtest demo_anonymous demo_web_state).1.
Proof.
  pose proof (nothing_without_claims toy_Parse (λ _, Ok 8000%Z) demo_serve demo_web [] demo_slenv
    (mkOrders [] (λ _, []) (λ _ _, [])) 0 PSpeedtest demo_anonymous demo_web_state ltac:(by vm_compute)) as Hn.
  destruct (dispatch _ _ _ _ _ _ _ _ _ _ _) as [calls s']. exact (proj2 Hn).
Defined.
