(* ===== verification/ReverseProxy.v ===== *)
(** * What [pr.ServeHTTP] does: the reverse proxy with the program's transports

    [httputil.ReverseProxy] as [HTTPProxy.get] configures it: the outgoing
    request, the round trip through the transport chosen for the location, the
    response hook, and the copy of the body to the client.  Left out of
    net/http/httputil: protocol upgrades, 1xx responses, trailers, and the
    timer of the first flush. *)

From S2P Require Import Prelude GoStrings GoUrl GoNet GoFloat GoHttp Claims LazyMap K8s.
From S2P Require Import ServicesConfig UrlParser ServiceLocation FileSizeCache ManifestRewriter.
From S2P Require Import HttpProxy RetryReader RetryTransport ResponseWriters Web.

(** ** The outgoing request *)

(** A header list value: the trimmed elements that are not empty. *)
Definition list_blanks : string := String "009" (String "010" (String "013" " ")).
Definition list_elems (v : string) : list string :=
  filter (λ x, x ≠ "") (map (λ x, trim_right (trim_left x list_blanks) list_blanks) (split v ",")).
Definition values_elems (h : Header) (k : string) : list string := default [] (h !! k) ≫= list_elems.

(** [httpguts.HeaderValuesContainsToken] *)
Definition has_token (h : Header) (k tok : string) : bool :=
  existsb (λ x, bool_decide (str_map lower_byte x = str_map lower_byte tok)) (values_elems h k).

Definition hop_headers : list string :=
  ["Connection"; "Proxy-Connection"; "Keep-Alive"; "Proxy-Authenticate"; "Proxy-Authorization";
   "Te"; "Trailer"; "Transfer-Encoding"; "Upgrade"].

(** [removeHopByHopHeaders] *)
Definition remove_hop_by_hop (h : Header) : Header :=
  foldl h_del (foldl h_del h (values_elems h "Connection")) hop_headers.

(** [upgradeType] *)
Definition upgrade_type (h : Header) : string :=
  if has_token h "Connection" "Upgrade" then h_get h "Upgrade" else "".

Definition outgoing_header (h : Header) (remote : string) : Header :=
  let up := upgrade_type h in
  let out := remove_hop_by_hop h in
  let out := if has_token h "Te" "trailers" then h_set out "Te" "trailers" else out in
  let out := if decide (up = "") then out
             else h_set (h_set out "Connection" "Upgrade") "Upgrade" up in
  let out :=
    match SplitHostPort remote with
    | Some (clientIP, _) =>
        let prior := default [] (out !! "X-Forwarded-For") in
        h_set out "X-Forwarded-For"
          (if decide (prior = []) then clientIP else join ", " prior +:+ ", " +:+ clientIP)
    | None => out
    end in
  if decide (is_Some (out !! "User-Agent")) then out else h_set out "User-Agent" "".

(** [joinURLPath] with a target that has no path *)
Definition target_path (p : string) : string := if has_prefix p "/" then p else "/" +:+ p.

(** The request after the directors; [None] when its upgrade type cannot be
    printed. *)
Definition outgoing (px : ReverseProxy) (r : in_request) : option request :=
  let u := in_url r in
  let q := director (mkRequest (in_method r)
             (mkFull "http" (px_host px) (mkURL (target_path (url_path u)) (url_raw_query u)))
             (in_header r)) in
  if all_bytes (in_range 32 126) (upgrade_type (rq_Header q))
  then Some (mkRequest (Method q) (rq_URL q) (outgoing_header (rq_Header q) (in_remote r)))
  else None.

(** [copyHeader] *)
Definition copy_header (dst src : Header) : Header := union_with (λ a b, Some (a ++ b)) dst src.

Section serve.
Context {F : Type} `{GoFloat F} `{GoUnicode} {M : Type → Type} `{LazyMap M}.
Context {B Net : Type}.

Abbreviation webState := (webState (F := F) (M := M)).
Abbreviation proxied := (proxied (F := F)).

(** The network: the two transports of the program, reading and closing a body
    of theirs; the environment of the resolver, the services, [maxRetries]. *)
Context (upstream external : Net → request → outcome (response B) * Net).
Context (body_read : B → nat → string * option ioerr * B).
Context (body_close : B → option ioerr * B).
Context (net_close : Net → B → Net).
Context (e : slEnv) (configs : ServicesConfig) (retryLimit : Z).

(** ** The transports *)

(** The network, the resolver's state, and the requests that were sent, latest
    first. *)
Definition transport_world : Type := (Net * slState (M := M)) * list request.

Definition dial (rt : Net → request → outcome (response B) * Net) (w : transport_world) (q : request)
    : outcome (response B) * transport_world :=
  let '((n, sl), log) := w in
  let '(r, n) := rt n q in (r, ((n, sl), q :: log)).
Definition close_in (w : transport_world) (b : B) : transport_world :=
  let '((n, sl), log) := w in ((net_close n b, sl), log).

(** The [RetryContext] of [proxyHTTP]. *)
Definition retry_context (q : proxied) : option (RetryContext (F := F) (B := B) (W := transport_world)) :=
  src ← pq_retry q;
  Some (mkRetryContext src (rc_Claims (pq_rules q)) configs
          (λ cfg src ip claims w,
             let '((n, sl), log) := w in
             let '(loc, sl) := GetFallback e cfg src ip claims sl in (loc, ((n, sl), log)))
          (dial upstream) (dial external) retryLimit).

(** A body as the reverse proxy sees it: of the network, wrapped with its
    current [failedHost] and start, or the bytes of a rewritten manifest. *)
Inductive pbody :=
  | PUp (b : B)
  | PRetry (failedHost : string) (start : Z) (r : retryingReadCloser B)
  | PBytes (s : string).

Definition map_body {X Y} (f : X → Y) (r : response X) : response Y :=
  mkResponse (StatusCode r) (rs_Header r) (ContentLength r) (f <$> Body r).

Definition to_pbody (host : string) (b : out_body (B := B)) : pbody :=
  match b with
  | PlainBody b => PUp b
  | RetryingBody start r => PRetry host start r
  end.

Definition out_map {X Y} (f : X → Y) (x : outcome (response X) * transport_world)
    : outcome (response Y) * transport_world := (map_body f <$> x.1, x.2).

Definition follow : transport_world → request → outcome (response B) * transport_world :=
  redirect_RoundTrip close_in (dial upstream) (dial external).

Definition transport (kind : transport_kind) (q : proxied) (w : transport_world) (out : request)
    : outcome (response pbody) * transport_world :=
  match kind with
  | StubTransport => stub_RoundTrip (PBytes "") w out
  | RedirectTransport => out_map PUp (follow w out)
  | RetryTransport =>
      out_map (to_pbody (u_host (rq_URL out))) (RoundTrip follow (retry_context q) out w)
  end.

(** ** Reading bodies

    Bodies are closed when they have been read, which only the network sees; it
    is not looked at afterwards. *)

Definition pread (q : proxied) (out : request) (w : transport_world) (b : pbody) (n : nat)
    : string * option ioerr * pbody * transport_world :=
  match b with
  | PUp b => let '(d, err, b) := body_read b n in (d, err, PUp b, w)
  | PRetry host start r =>
      match retry_context q with
      | Some rc =>
          let '(d, err, r, (host, w)) :=
            Read body_read body_close (reconnectFn close_in rc out start) r (host, w) n in
          (d, err, PRetry host start r, w)
      | None => ("", Some ErrClosedPipe, b, w)
      end
  | PBytes s =>
      if decide (s = "") then ("", Some EOF, b, w)
      else (str_take n s, None, PBytes (str_drop n s), w)
  end.

(** [io.ReadAll] with the lengths its buffers have; [None] when the fuel runs
    out. *)
Context (bufs : nat → nat).
Fixpoint drain (fuel i : nat) (q : proxied) (out : request) (acc : string) (w : transport_world)
    (b : pbody) : option (outcome string * transport_world) :=
  match fuel with
  | 0 => None
  | S fuel =>
      let '(d, err, b, w) := pread q out w b (bufs i) in
      match err with
      | None => drain fuel (S i) q out (acc +:+ d) w b
      | Some EOF => Some (Ok (acc +:+ d), w)
      | Some (Panicked p) => Some (Panic p, w)
      | Some x => Some (Err (ErrNew (ioerr_text x)), w)
      end
  end.

Definition abort_handler : string := "net/http: abort Handler".

(** How [ServeHTTP] panics after a copy that ended with an error: it aborts the
    handler, if it was not a panic already. *)
Definition copy_panic (err : ioerr) : option string :=
  match err with
  | EOF => None
  | Panicked p => Some p
  | _ => Some abort_handler
  end.

(** [copyResponse] with a flush after every write; [accepts i] says whether the
    client takes the [i]th write.  Returns the calls on the client's writer, and
    how [ServeHTTP] then panics, if it does. *)
Context (accepts : nat → bool).
Definition copy_size : nat := 32 * 1024.
Fixpoint copyResponse (fuel i : nat) (q : proxied) (out : request) (w : transport_world) (b : pbody)
    : option (list call * option string * transport_world) :=
  match fuel with
  | 0 => None
  | S fuel =>
      let '(d, err, b, w) := pread q out w b copy_size in
      let here := if decide (d = "") then [] else [Write d; Flush] in
      if negb (bool_decide (d = "")) && negb (accepts i) then Some (here, Some abort_handler, w) else
      match err with
      | None => '(more, p, w) ← copyResponse fuel (S i) q out w b; Some (here ++ more, p, w)
      | Some x => Some (here, copy_panic x, w)
      end
  end.

(** ** [ServeHTTP] *)

(** The calls on the client's writer and the panic, the response header, and
    the requests that were sent upstream, latest first. *)
Record answer := mkAnswer {
  an_calls : list call;
  an_panic : option string;
  an_header : Header;
  an_sent : list request
}.

Definition after (s : webState) (c : FileSizeCache) (w : transport_world) : webState :=
  mkWebState (ws_heap s) c (ws_pool s) (mkProxyState w.1.2 (ps_proxies (ws_proxy s))) (ws_stats s).

Definition StatusBadGateway : Z := 502.

(** [order] is how Go ranges over the size cache when it evicts. [None]: out of
    fuel. *)
Definition ServeHTTP (fuel : nat) (order : list string) (n : Net) (q : proxied) (s : webState)
    : option (answer * webState) :=
  let bad_gateway c w :=
    Some (mkAnswer [WriteHeader StatusBadGateway] None handler_header w.2, after s c w) in
  let w := ((n, ps_loc (ws_proxy s)), []) in
  match outgoing (pq_proxy q) (pq_request q) with
  | None => bad_gateway (ws_sizes s) w
  | Some out =>
      match transport (px_transport (pq_proxy q)) q w out with
      | (Err _, w) => bad_gateway (ws_sizes s) w
      | (Panic p, w) => Some (mkAnswer [] (Some p) handler_header w.2, after s (ws_sizes s) w)
      | (Ok resp, w) =>
          let resp := set_header resp (remove_hop_by_hop (rs_Header resp)) in
          let path := url_path (u_url (rq_URL (default out (head w.2)))) in
          let drained b := drain fuel 0 q out "" w b in
          let read_all b := match drained b with Some (r, _) => r | None => Panic "" end in
          match modifyResponse read_all PBytes (Some (ws_sizes s)) order (Some (pq_key q))
                  (Some (mkRuleRequest path (Some (pq_rules q)))) resp with
          | (Panic _, c) =>
              (* the hook panics only when reading the body did, or has no fuel *)
              match Body resp ≫= drained with
              | Some (Panic p, w) =>
                  Some (mkAnswer [] (Some p) handler_header w.2, after s (default (ws_sizes s) c) w)
              | _ => None
              end
          | (Err _, c) =>
              let w := match Body resp ≫= drained with Some (_, w) => w | None => w end in
              bad_gateway (default (ws_sizes s) c) w
          | (Ok resp', c) =>
              let w := match Body resp, Body resp' with
                       | Some b, Some (PBytes _) =>
                           match drained b with Some (_, w) => w | None => w end
                       | _, _ => w
                       end in
              match copyResponse fuel 0 q out w (default (PBytes "") (Body resp')) with
              | None => None
              | Some (calls, p, w) =>
                  Some (mkAnswer (WriteHeader (StatusCode resp') :: calls) p
                          (copy_header handler_header (rs_Header resp')) w.2,
                        after s (default (ws_sizes s) c) w)
              end
          end
      end
  end.

(** The times of the calls. *)
Definition timed_calls (clk : nat → Z) (a : answer) : result :=
  (imap (λ i c, (clk i, c)) (an_calls a), an_panic a).

End serve.
