(* ===== verification/ReverseProxySpec.v ===== *)
(** * What the reverse proxy sends, and what the client receives

    The headers that reach the upstream and the client, termination of the
    copy, and the file a client receives through the retrying transport. *)

From Stdlib Require SpecFloat.
From Stdlib Require Import Wellfounded Relation_Operators.
From S2P Require Import Prelude GoStrings GoUrl GoNet GoFloat GoHttp Claims LazyMap K8s.
From S2P Require Import ServicesConfig UrlParser ServiceLocation FileSizeCache ManifestRewriter.
From S2P Require Import SessionLimiter ClientIP HttpProxy RetryReader RetryTransport RetryTransportSpec ResponseWriters.
From S2P Require Import HybridBucket ClickHouse Web WebSpec ReverseProxy.

(** ** Headers *)

Lemma del_all_get ks h k :
  h_get (foldl h_del h ks) k = if decide (canonical k ∈ canonical <$> ks) then "" else h_get h k.
Proof.
  revert h. induction ks as [|k0 ks IH]; intros h; cbn [foldl fmap list_fmap].
  - by rewrite decide_False by apply not_elem_of_nil.
  - rewrite IH, h_get_del. destruct (decide (canonical k ∈ canonical <$> ks)) as [Hin|Hin].
    + by rewrite decide_True by (by right).
    + destruct (decide (canonical k0 = canonical k)) as [E|E].
      * by rewrite decide_True by (rewrite E; left).
      * rewrite decide_False; [done|]. rewrite elem_of_cons. naive_solver.
Qed.

(** The headers the client's [Connection] header names. *)
Definition connection_names (h : Header) : list string := canonical <$> values_elems h "Connection".

Lemma remove_hop_by_hop_get h k :
  h_get (remove_hop_by_hop h) k =
    if decide (canonical k ∈ connection_names h ∨ canonical k ∈ canonical <$> hop_headers)
    then "" else h_get h k.
Proof.
  unfold remove_hop_by_hop, connection_names. rewrite !del_all_get.
  repeat case_decide; try done; tauto.
Qed.

(** Headers with a treatment of their own. *)
Definition special_headers : list string :=
  ["X-Forwarded-For"; "User-Agent"; "Accept-Encoding"] ++ hop_headers.

Lemma special_canonical : canonical <$> special_headers = special_headers.
Proof. by vm_compute. Qed.

Lemma h_get_set_other h k0 v k :
  canonical k0 = k0 → canonical k ≠ k0 → h_get (h_set h k0 v) k = h_get h k.
Proof. intros E Hne. rewrite h_get_set, decide_False; [done|]. by rewrite E. Qed.

Lemma outgoing_header_get h remote k :
  canonical k ∉ special_headers → canonical k ∉ connection_names h →
  h_get (outgoing_header h remote) k = h_get h k.
Proof.
  intros Hsp Hc.
  assert (∀ k0 v h, bool_decide (k0 ∈ special_headers) = true → h_get (h_set h k0 v) k = h_get h k) as Hset.
  { intros k0 v h' Hin%bool_decide_eq_true. apply h_get_set_other; [|by intros E; rewrite E in Hsp].
    revert k0 Hin. apply Forall_forall, (bool_decide_unpack _). by vm_compute. }
  unfold outgoing_header. cbv zeta.
  assert (h_get (remove_hop_by_hop h) k = h_get h k) as E0.
  { rewrite remove_hop_by_hop_get, decide_False; [done|]. intros [?|Hh]; [done|].
    apply Hsp. rewrite <-special_canonical. unfold special_headers. rewrite fmap_app.
    apply elem_of_app. by right. }
  set (h1 := if has_token h "Te" "trailers" then _ else _).
  assert (h_get h1 k = h_get h k) as E1
    by (subst h1; destruct (has_token _ _ _); [rewrite Hset by (by vm_compute)|]; exact E0).
  set (h2 := if decide _ then h1 else _).
  assert (h_get h2 k = h_get h k) as E2
    by (subst h2; case_decide; [|rewrite !Hset by (by vm_compute)]; exact E1).
  set (h3 := match SplitHostPort remote with Some _ => _ | None => _ end).
  assert (h_get h3 k = h_get h k) as E3
    by (subst h3; destruct (SplitHostPort remote) as [[ip ?]|]; [rewrite Hset by (by vm_compute)|]; exact E2).
  case_decide; [|rewrite Hset by (by vm_compute)]; exact E3.
Qed.

Lemma director_spec q :
  Method (director q) = Method q ∧ rq_URL (director q) = rq_URL q ∧
  connection_names (rq_Header (director q)) = connection_names (rq_Header q) ∧
  (∀ k, canonical k ∉ special_headers → h_get (rq_Header (director q)) k = h_get (rq_Header q) k).
Proof.
  unfold director. case_match; [|done]. cbn [Method rq_URL rq_Header]. split; [done|]. split; [done|].
  split.
  - unfold connection_names, values_elems, h_del.
    change (canonical "Accept-Encoding") with "Accept-Encoding". by rewrite lookup_delete_ne.
  - intros k Hk. rewrite h_get_del, decide_False; [done|].
    change (canonical "Accept-Encoding") with "Accept-Encoding". intros E. apply Hk. rewrite <-E.
    by apply (bool_decide_unpack _).
Qed.

(** What a pod is asked.  The outgoing request goes to the chosen pod over
    http for the same path (rooted) and query; no header that belongs to the
    client's connection goes with it; and every other header is the client's
    or the trusted one, unless the client's own Connection header names it. *)
Lemma upstream_request px r out :
  outgoing px r = Some out →
  u_scheme (rq_URL out) = "http" ∧ u_host (rq_URL out) = px_host px ∧ Method out = in_method r ∧
  has_prefix (url_path (u_url (rq_URL out))) "/" = true ∧
  (has_prefix (url_path (in_url r)) "/" = true → url_path (u_url (rq_URL out)) = url_path (in_url r)) ∧
  url_raw_query (u_url (rq_URL out)) = url_raw_query (in_url r) ∧
  (∀ k, canonical k ∉ special_headers → canonical k ∉ connection_names (in_header r) →
        h_get (rq_Header out) k = h_get (in_header r) k) ∧
  (∀ k, k ∈ ["Proxy-Connection"; "Keep-Alive"; "Proxy-Authenticate"; "Proxy-Authorization";
             "Trailer"; "Transfer-Encoding"] → h_get (rq_Header out) k = "").
Proof.
  unfold outgoing. set (q0 := mkRequest _ _ _). case_match; [|done]. intros [= <-].
  cbn [rq_URL Method rq_Header]. destruct (director_spec q0) as (-> & -> & Hc & Hh).
  split; [done|]. split; [done|]. split; [done|]. cbn [rq_URL u_url url_path url_raw_query q0].
  split; [unfold target_path; case_match; [done|apply has_prefix_app]|].
  split; [by unfold target_path; intros ->|]. split; [done|]. split.
  - intros k Hk Hn. rewrite outgoing_header_get; [by apply Hh|done|by rewrite Hc].
  - intros k Hk. unfold outgoing_header. cbv zeta.
    assert (canonical k ∈ canonical <$> hop_headers ∧
      Forall (λ k0, canonical k0 ≠ canonical k) ["Te"; "Connection"; "Upgrade"; "X-Forwarded-For"; "User-Agent"])
      as [Hhop Hne].
    { revert k Hk. apply Forall_forall, (bool_decide_unpack _). by vm_compute. }
    rewrite !Forall_cons in Hne. destruct Hne as (N1 & N2 & N3 & N4 & N5 & _).
    assert (h_get (remove_hop_by_hop (rq_Header (director q0))) k = "") as E
      by (by rewrite remove_hop_by_hop_get, decide_True by (by right)).
    repeat case_match; rewrite ?h_get_set, ?decide_False by done; done.
Qed.

(** ** The header of the answer *)

Lemma copy_header_lookup dst src k :
  copy_header dst src !! k =
    match dst !! k, src !! k with
    | Some a, Some b => Some (a ++ b)
    | Some a, None => Some a
    | None, b => b
    end.
Proof. unfold copy_header. rewrite lookup_union_with. by destruct (dst !! k), (src !! k). Qed.

Lemma delCORSHeaders_lookup h k :
  k ∈ corsHeaders → delCORSHeaders h !! k = None.
Proof.
  unfold delCORSHeaders, corsHeaders. simpl. unfold h_del.
  change (canonical "Access-Control-Allow-Credentials") with "Access-Control-Allow-Credentials".
  change (canonical "Access-Control-Allow-Origin") with "Access-Control-Allow-Origin".
  rewrite !elem_of_cons. intros [->|[->|[]%not_elem_of_nil]]; [|by rewrite lookup_delete_eq].
  by rewrite lookup_delete_ne, lookup_delete_eq.
Qed.

Section hook.
Context {F : Type} `{GoFloat F} {B : Type}.

(** What the response hook makes of a response. *)
Lemma rules_frame (read_all : B → outcome string) of_bytes (rq : option (rule_request (F := F))) r r' :
  applyResponseRules read_all of_bytes rq r = Ok r' →
  StatusCode r' = StatusCode r ∧
  (∀ k, k ≠ "Content-Length" → rs_Header r' !! k = rs_Header r !! k) ∧
  (r' = r ∨ ∃ q, rq = Some q ∧ has_suffix (rr_path q) ".m3u8" = true).
Proof.
  unfold applyResponseRules. intros Ho.
  destruct (rq ≫= rr_rules) as [rc|]; [|by simplify_eq; auto].
  destruct (rc_Claims rc); [|by simplify_eq; auto]. simpl in Ho.
  unfold rewriteManifestForGrace in Ho. destruct rq as [[path rules]|]; [|by simplify_eq; auto].
  destruct (has_suffix _ _) eqn:Hsuf; [|by simplify_eq/=; auto].
  destruct (findGraceRule _); [|by simplify_eq/=; auto].
  destruct (Body r) as [b|]; [|by simplify_eq/=; auto]. simpl in Ho.
  apply bind_ok in Ho as (body & Hb & Ho). simplify_eq. simpl. split; [done|]. split; [|by eauto].
  intros k Hk. unfold h_set. change (canonical "Content-Length") with "Content-Length".
  by rewrite lookup_insert_ne.
Qed.

Lemma rules_body (read_all : B → outcome string) of_bytes (rq : option (rule_request (F := F))) r r' :
  applyResponseRules read_all of_bytes rq r = Ok r' → r = r' ∨ ∃ s, Body r' = Some (of_bytes s).
Proof.
  unfold applyResponseRules. intros Ho.
  destruct (rq ≫= rr_rules) as [rc|]; [|by simplify_eq; auto].
  destruct (rc_Claims rc); [|by simplify_eq; auto]. simpl in Ho.
  unfold rewriteManifestForGrace in Ho. destruct rq as [[path rules]|]; [|by simplify_eq; auto].
  destruct (negb _); [by simplify_eq/=; auto|].
  destruct (findGraceRule _); [|by simplify_eq/=; auto].
  destruct (Body r) as [b|]; [|by simplify_eq/=; auto]. simpl in Ho.
  apply bind_ok in Ho as (body & Hb & Ho). simplify_eq. right. by eexists.
Qed.

(** The hook reads the body of its response, if any, and nothing else. *)
Lemma modifyResponse_ext (read1 read2 : B → outcome string) of_bytes cache order key
    (rq : option (rule_request (F := F))) r :
  (∀ b, Body r = Some b → read1 b = read2 b) →
  modifyResponse read1 of_bytes cache order key rq r = modifyResponse read2 of_bytes cache order key rq r.
Proof.
  intros Hr. unfold modifyResponse. f_equal. unfold applyResponseRules.
  destruct (rq ≫= rr_rules) as [rc|]; [|done]. destruct (rc_Claims rc); [|done]. simpl.
  unfold rewriteManifestForGrace. destruct rq; [|done]. destruct (negb _); [done|].
  destruct (findGraceRule _); [|done]. cbn [set_header Body]. destruct (Body r) as [b|]; [|done].
  by rewrite (Hr b).
Qed.

Lemma modifyResponse_no_panic (read_all : B → outcome string) of_bytes cache order key
    (rq : option (rule_request (F := F))) r w :
  (∀ b w, Body r = Some b → read_all b ≠ Panic w) →
  (modifyResponse read_all of_bytes cache order key rq r).1 ≠ Panic w.
Proof.
  intros Hr. unfold modifyResponse. simpl. unfold applyResponseRules.
  destruct (rq ≫= rr_rules) as [rc|]; [|done]. destruct (rc_Claims rc); [|done]. simpl.
  unfold rewriteManifestForGrace. destruct rq; [|done]. destruct (negb _); [done|].
  destruct (findGraceRule _); [|done]. cbn [set_header Body]. destruct (Body r) as [b|]; [|done].
  specialize (Hr b). destruct (read_all b) as [x|x|x]; simpl; [done|done|by specialize (Hr x eq_refl)].
Qed.

Lemma modifyResponse_cors (read_all : B → outcome string) of_bytes cache order key
    (rq : option (rule_request (F := F))) r r' c k :
  modifyResponse read_all of_bytes cache order key rq r = (Ok r', c) → k ∈ corsHeaders →
  rs_Header r' !! k = None.
Proof.
  unfold modifyResponse. intros [= Hr _] Hk. apply rules_frame in Hr as (_ & Hh & _).
  rewrite Hh by (intros ->; by apply (bool_decide_eq_true _) in Hk).
  by apply delCORSHeaders_lookup.
Qed.

(** The hook on anything but a manifest. *)
Lemma modifyResponse_plain (read_all : B → outcome string) of_bytes cache order key path rules r :
  has_suffix path ".m3u8" = false →
  (modifyResponse read_all of_bytes cache order key (Some (mkRuleRequest (F := F) path rules)) r).1
    = Ok (set_header r (delCORSHeaders (rs_Header r))).
Proof.
  intros Hp. unfold modifyResponse, applyResponseRules. cbn [fst option_bind mbind rr_rules].
  destruct rules as [rc|]; [|done]. destruct (rc_Claims rc); [|done].
  cbn [responseRuleHandlers foldl mbind outcome_bind]. unfold rewriteManifestForGrace.
  cbn [rr_path]. by rewrite Hp.
Qed.

End hook.

Section serve.
Context {F : Type} `{GoFloat F} `{GoUnicode} {M : Type → Type} `{LazyMap M}.
Context {B Net : Type}.
Context (upstream external : Net → request → outcome (response B) * Net).
Context (body_read : B → nat → string * option ioerr * B).
Context (body_close : B → option ioerr * B).
Context (net_close : Net → B → Net).
Context (e : slEnv) (configs : ServicesConfig) (retryLimit : Z).
Context (bufs : nat → nat) (accepts : nat → bool).

Abbreviation proxied := (proxied (F := F)).
Abbreviation webState := (webState (F := F) (M := M)).
Abbreviation serve_http :=
  (ServeHTTP upstream external body_read body_close net_close e configs retryLimit bufs accepts).
Abbreviation transport_ := (transport (F := F) (M := M) upstream external net_close e configs retryLimit).
Abbreviation follow_ := (follow (M := M) upstream external net_close).
Abbreviation context_ := (retry_context (F := F) (M := M) upstream external e configs retryLimit).
Abbreviation pread_ := (pread (F := F) (M := M) upstream external body_read body_close net_close e configs retryLimit).
Abbreviation drain_ := (drain (F := F) (M := M) upstream external body_read body_close net_close e configs retryLimit bufs).
Abbreviation copy_ :=
  (copyResponse (F := F) (M := M) upstream external body_read body_close net_close e configs retryLimit accepts).

(** What [ServeHTTP] leaves alone. *)
Lemma ServeHTTP_frame fuel order n q (s s' : webState) a :
  serve_http fuel order n q s = Some (a, s') →
  ws_heap s' = ws_heap s ∧ ws_stats s' = ws_stats s ∧ ws_pool s' = ws_pool s ∧
  ps_proxies (ws_proxy s') = ps_proxies (ws_proxy s).
Proof. unfold ServeHTTP. intros Hs. repeat (case_match; simplify_eq/=; try done). Qed.

(** C36: the client's CORS headers.  Whatever the upstream sends, and whatever
    becomes of the request, the answer allows every origin exactly once and
    never carries credentials. *)
Theorem answer_cors fuel order n q (s s' : webState) a :
  serve_http fuel order n q s = Some (a, s') →
  an_header a !! "Access-Control-Allow-Origin" = Some ["*"] ∧
  an_header a !! "Access-Control-Allow-Credentials" = None.
Proof.
  assert (∀ r : response (pbody (B := B)), (∀ k, k ∈ corsHeaders → rs_Header r !! k = None) →
    copy_header handler_header (rs_Header r) !! "Access-Control-Allow-Origin" = Some ["*"] ∧
    copy_header handler_header (rs_Header r) !! "Access-Control-Allow-Credentials" = None) as Hok.
  { intros r Hr. rewrite !copy_header_lookup, !Hr by (by apply (bool_decide_unpack _)). done. }
  unfold ServeHTTP. intros Hs.
  destruct (outgoing _ _) as [out|]; [|by simplify_eq].
  destruct (transport_ _ _ _ _) as [[resp|x|x] w]; [|by simplify_eq..].
  cbv zeta in Hs.
  destruct (modifyResponse _ _ _ _ _ _ _) as [[r'|x|x] c] eqn:Em;
    [|by simplify_eq|by repeat case_match; simplify_eq].
  destruct (copy_ _ _ _ _ _ _) as [[[calls pan] w']|]; [|done]. injection Hs as <- _.
  apply Hok. intros k. exact (modifyResponse_cors _ _ _ _ _ _ _ _ _ k Em).
Qed.

(** ** The copy ends *)

(** Bodies that end: each read that brings something, or no error, leaves less
    to read. *)
Context (size : B → nat).
Class FiniteBodies : Prop := {
  fb_read b n d err b' :
    0 < n → body_read b n = (d, err, b') → err = None ∨ d ≠ "" → size b' < size b
}.

(** The reconnects that are left, and what is left to read before the next. *)
Definition steps_left (b : pbody (B := B)) : nat * nat :=
  match b with
  | PUp b => (0, size b)
  | PRetry _ _ r => (Z.to_nat (maxRetries r - retries r), size (rrc_body r))
  | PBytes s => (0, slen s)
  end.
Definition nearer (b' b : pbody (B := B)) : Prop :=
  slexprod nat nat lt lt (steps_left b') (steps_left b).
Lemma nearer_wf : well_founded nearer.
Proof. unfold nearer. apply wf_inverse_image, wf_slexprod; apply lt_wf. Qed.

Definition sane (b : pbody (B := B)) : Prop :=
  match b with
  | PRetry _ _ r => (0 ≤ retries r)%Z ∧ (maxRetries r < 2 ^ 63)%Z
  | _ => True
  end.

Lemma Read_progress `{FiniteBodies} {world} (dialer : world → Z → (B + reconn_err) * world) r w n d r' w' h st :
  0 < n → sane (PRetry h st r) → Read body_read body_close dialer r w n = (d, None, r', w') →
  sane (PRetry h st r') ∧ nearer (PRetry h st r') (PRetry h st r).
Proof.
  intros Hn [Hr0 Hm]. unfold Read. destruct (closed r); [done|].
  destruct (read_body body_read r n) as [[d1 e1] r1] eqn:E1. unfold read_body in E1.
  destruct (body_read (rrc_body r) n) as [[d0 e0] b0] eqn:E0. injection E1 as <- <- <-.
  pose proof (fb_read _ _ _ _ _ Hn E0) as Hsz.
  destruct e0 as [err|].
  2:{ intros [= <- <- <-]. specialize (Hsz (or_introl eq_refl)). split; [done|by right]. }
  case_decide; [done|]. case_decide as Hd.
  { intros [= <- <- <-]. specialize (Hsz (or_intror Hd)). split; [done|by right]. }
  destruct (negb _); [done|]. destruct (_ && _); [done|]. cbn [maxRetries retries].
  destruct (Z.leb_spec (maxRetries r) (retries r)); [done|].
  destruct (dialer w _) as [[b|[| |why]] w1]; [|done..].
  unfold read_body. cbn [rrc_body set_body].
  destruct (body_read b n) as [[d2 e2] b2] eqn:E2. intros [= <- -> <- <-].
  assert (int64 (retries r + 1) = retries r + 1)%Z as Hi by (apply wrap_s_small; [lia|split; lia]).
  split; [split; simpl; [rewrite Hi; lia|done]|]. left. simpl. rewrite Hi. lia.
Qed.

Lemma pread_progress `{FiniteBodies} q out w b n d b' w' :
  0 < n → sane b → pread_ q out w b n = (d, None, b', w') → sane b' ∧ nearer b' b.
Proof.
  intros Hn Hs. unfold pread. destruct b as [b|h st r|s].
  - destruct (body_read b n) as [[d0 e0] b0] eqn:E. intros [= <- -> <- <-].
    split; [done|]. right. exact (fb_read _ _ _ _ _ Hn E (or_introl eq_refl)).
  - destruct (context_ q) as [rc|]; [|done].
    destruct (Read _ _ _ r (h, w) n) as [[[d0 e0] r0] [h0 w0]] eqn:E. intros [= <- -> <- <-].
    by apply (Read_progress _ _ _ _ _ _ _ h st Hn Hs) in E.
  - case_decide as E; [done|]. intros [= <- <- <-]. split; [done|]. right. rewrite slen_drop.
    destruct s; [done|simpl; lia].
Qed.

(** From some fuel on the loops give a result, always the same. *)
Lemma copy_ends `{FiniteBodies} q out i w b :
  sane b → ∃ r fuel0, ∀ fuel, fuel0 ≤ fuel → copy_ fuel i q out w b = Some r.
Proof.
  revert i w. induction (nearer_wf b) as [b _ IH]. intros i w Hs.
  destruct (pread_ q out w b copy_size) as [[[d err] b'] w'] eqn:E.
  destruct (negb (bool_decide (d = "")) && negb (accepts i)) eqn:Eacc.
  { eexists _, 1. intros [|fuel] Hf; [lia|]. cbn [copyResponse]. rewrite E, Eacc. done. }
  destruct err as [err|].
  { eexists _, 1. intros [|fuel] Hf; [lia|]. cbn [copyResponse]. rewrite E, Eacc. done. }
  assert (0 < copy_size) as Hc by (apply Nat.ltb_lt; by vm_compute).
  destruct (pread_progress _ _ _ _ _ _ _ _ Hc Hs E) as [Hs' Hlt].
  destruct (IH _ Hlt (S i) w' Hs') as ([[more ok] w2] & fuel0 & Hr).
  eexists (_, ok, w2), (S fuel0). intros [|fuel] Hf; [lia|]. cbn [copyResponse]. rewrite E, Eacc.
  rewrite Hr by lia. done.
Qed.

Lemma drain_ends `{FiniteBodies} q out i acc w b :
  (∀ i, 0 < bufs i) → sane b →
  ∃ r fuel0, ∀ fuel, fuel0 ≤ fuel → drain_ fuel i q out acc w b = Some r.
Proof.
  intros Hb. revert i acc w. induction (nearer_wf b) as [b _ IH]. intros i acc w Hs.
  destruct (pread_ q out w b (bufs i)) as [[[d err] b'] w'] eqn:E.
  destruct err as [err|].
  { exists (match err with
            | EOF => Ok (acc +:+ d) | Panicked p => Panic p | x => Err (ErrNew (ioerr_text x))
            end, w'), 1.
    intros [|fuel] Hf; [lia|]. cbn [drain]. rewrite E. by destruct err. }
  destruct (pread_progress _ _ _ _ _ _ _ _ (Hb i) Hs E) as [Hs' Hlt].
  destruct (IH _ Hlt (S i) (acc +:+ d) w' Hs') as (r & fuel0 & Hr).
  exists r, (S fuel0). intros [|fuel] Hf; [lia|]. cbn [drain]. rewrite E. apply Hr. lia.
Qed.

Lemma transport_sane kind q w out resp w' b :
  (retryLimit < 2 ^ 63)%Z →
  transport_ kind q w out = (Ok resp, w') → Body resp = Some b → sane b.
Proof.
  intros Hl. unfold transport, out_map. destruct kind.
  - intros [= <- _]. simpl. by intros [= <-].
  - destruct (follow_ w out) as [[r|x|x] w1]; simpl; [|done..]. intros [= <- _]. simpl.
    destruct (Body r); simpl; [by intros [= <-]|done].
  - unfold RoundTrip. destruct (follow_ w out) as [[r|x|x] w1]; simpl; [|done..].
    intros [= <- _]. unfold keep_body. destruct (context_ q) as [rc|] eqn:Erc; simpl.
    2:{ destruct (Body r); simpl; [by intros [= <-]|done]. }
    unfold retry_context in Erc. apply bind_Some in Erc as (src & _ & [= <-]).
    destruct (Body r) as [b0|]; simpl; [|done].
    repeat (case_match; simpl); by intros [= <-].
Qed.

(** C20: every request is served to an end.  When every body of the network
    comes to an end, [ServeHTTP] returns, whatever connections break and
    wherever the client gives up: from some fuel on the result is there and is
    always the same. *)
Theorem ServeHTTP_returns order n q (s : webState) :
  FiniteBodies → (∀ i, 0 < bufs i) → (retryLimit < 2 ^ 63)%Z →
  ∃ r fuel0, ∀ fuel, fuel0 ≤ fuel → serve_http fuel order n q s = Some r.
Proof.
  intros Hfb Hbufs Hl. unfold ServeHTTP.
  destruct (outgoing _ _) as [out|]; [|by eexists _, 0].
  destruct (transport_ _ _ _ _) as [[resp|x|x] w] eqn:Et; [|by eexists _, 0..].
  cbv zeta. cbn [set_header Body]. set (resp1 := set_header resp _).
  set (rq := Some (mkRuleRequest _ _)).
  (* reading the body for the hook *)
  assert (∃ fuel1 (rd : pbody (B := B) → option (outcome string * transport_world (M := M) (Net := Net))),
    (∀ b, Body resp = Some b → is_Some (rd b)) ∧
    ∀ fuel b, fuel1 ≤ fuel → Body resp = Some b → drain_ fuel 0 q out "" w b = rd b)
    as (fuel1 & rd & Hrd1 & Hrd2).
  { destruct (Body resp) as [b|] eqn:Eb; [|by exists 0, (λ _, None)].
    destruct (drain_ends q out 0 "" w b Hbufs (transport_sane _ _ _ _ _ _ _ Hl Et Eb)) as (r & fuel0 & Hr).
    exists fuel0, (λ _, Some r). split; [by intros b' [= <-]; exists r|].
    intros fuel b' Hf [= <-]. by apply Hr. }
  set (read0 := λ b, match rd b with Some (r, _) => r | None => Panic "" end).
  assert (∀ fuel, fuel1 ≤ fuel →
    modifyResponse (λ b, match drain_ fuel 0 q out "" w b with Some (r, _) => r | None => Panic "" end)
      PBytes (Some (ws_sizes s)) order (Some (pq_key q)) rq resp1 =
    modifyResponse read0 PBytes (Some (ws_sizes s)) order (Some (pq_key q)) rq resp1) as Hmod.
  { intros fuel Hf. apply modifyResponse_ext. intros b Hb. unfold read0. by rewrite (Hrd2 fuel b Hf Hb). }
  destruct (modifyResponse read0 _ _ _ _ _ _) as [[r'|x|x] c] eqn:Em.
  3:{ assert (∃ b p w1, Body resp = Some b ∧ rd b = Some (Panic p, w1)) as (b & p & w1 & Hb & Hrd).
      { destruct (Body resp) as [b|] eqn:Eb.
        - destruct (Hrd1 b eq_refl) as [[[o|o|p] w1] Hrd]; [..|by exists b, p, w1];
            exfalso; eapply (modifyResponse_no_panic read0 PBytes (Some (ws_sizes s)) order (Some (pq_key q)) rq resp1 x);
            (try by rewrite Em); intros b' p Hb'; unfold read0; simpl in Hb'; rewrite Eb in Hb';
            injection Hb' as <-; by rewrite Hrd.
        - exfalso. eapply (modifyResponse_no_panic read0 PBytes (Some (ws_sizes s)) order (Some (pq_key q)) rq resp1 x);
            [|by rewrite Em]. intros b p Hb. simpl in Hb. congruence. }
      exists (mkAnswer [] (Some p) handler_header w1.2, after s (default (ws_sizes s) c) w1), fuel1.
      intros fuel Hf. rewrite Hmod, Hb by done. simpl. by rewrite (Hrd2 fuel b), Hrd. }
  2:{ set (w1 := match Body resp ≫= rd with Some (_, w) => w | None => w end).
      exists (mkAnswer [WriteHeader StatusBadGateway] None handler_header w1.2,
              after s (default (ws_sizes s) c) w1), fuel1.
      intros fuel Hf. rewrite Hmod by done. subst w1. destruct (Body resp) as [b|]; [simpl|done].
      by rewrite (Hrd2 fuel b). }
  set (w1 := match Body resp, Body r' with
             | Some b, Some (PBytes _) => match rd b with Some (_, w) => w | None => w end
             | _, _ => w end).
  assert (sane (default (PBytes "") (Body r'))) as Hs'.
  { unfold modifyResponse in Em. injection Em as Em _.
    destruct (Body r') as [b|] eqn:Eb; [simpl|done].
    destruct b as [b|h st r|b]; [done| |done].
    assert (Body resp = Some (PRetry h st r)) as Er; [|by apply (transport_sane _ _ _ _ _ _ _ Hl Et Er)].
    apply rules_body in Em as [<-|[y Hy]]; [exact Eb|congruence]. }
  destruct (copy_ends q out 0 w1 _ Hs') as ([[calls ok] w2] & fuel2 & Hcopy).
  eexists _, (fuel1 + fuel2).
  intros fuel Hf. rewrite Hmod by lia.
  replace (match Body resp with Some b => _ | None => w end) with w1.
  - rewrite Hcopy by lia. reflexivity.
  - subst w1. destruct (Body resp) as [b|] eqn:Eb; [|done]. by rewrite (Hrd2 fuel b) by (done || lia).
Qed.

(** ** The file a client receives *)

Definition body_bytes (calls : list call) : string :=
  concat_str (omap (λ c, match c with Write p => Some p | _ => None end) calls).

Lemma body_bytes_app a b : body_bytes (a ++ b) = body_bytes a +:+ body_bytes b.
Proof. unfold body_bytes. by rewrite omap_app, concat_str_app. Qed.

Section file.
Context (q : proxied) (out : request) (rc : RetryContext (F := F) (B := B) (W := transport_world (M := M) (Net := Net))).
Context (file : string) (serves : B → nat → Prop) (start : nat).
Context (Hrc : context_ q = Some rc) (Hu : plain_url (u_url (rq_URL out))) (Hstart : start ≤ slen file).
Context `{!HonestPods body_read body_close (close_in net_close) rc out file serves}.

Abbreviation rest := (str_drop start file).

Lemma copy_file total fuel i w host r k calls ok w' :
  (0 ≤ total → total = Z.of_nat (slen file - start))%Z →
  at_offset rest (λ b k, serves b (start + k)) r k → expected r = total →
  copy_ fuel i q out w (PRetry host (Z.of_nat start) r) = Some (calls, ok, w') →
  has_prefix (str_drop k rest) (body_bytes calls) = true ∧
  (ok = None → str_drop k rest = body_bytes calls).
Proof.
  intros Ht. pose proof (pods_upstream _ _ _ _ _ _ _ _ Hstart Hu) as Hup.
  pose proof (pods_honest _ _ _ _ _ _ _ _ Hstart Hu total Ht) as Hhon.
  revert i w host r k calls ok w'. induction fuel as [|fuel IH]; intros i w host r k calls ok w' Ha He;
    [done|]. cbn [copyResponse pread]. rewrite Hrc.
  destruct (Read _ _ _ r (host, w) copy_size) as [[[d err] r1] [h1 w1]] eqn:E.
  destruct (Read_at _ _ _ _ _ _ _ _ _ _ _ _ _ Ha E) as (Hp & Ha1 & He1 & Hend).
  rewrite He in Hend. specialize (Hend Hhon).
  set (here := if decide (d = "") then [] else [Write d; Flush]).
  assert (body_bytes here = d) as Hhere.
  { subst here. case_decide as Hd; [by rewrite Hd|]. unfold body_bytes. simpl. by rewrite str_app_nil_r. }
  destruct (_ && _).
  { intros [= <- <- _]. by rewrite Hhere. }
  apply has_prefix_spec in Hp as [t Hp].
  destruct err as [err|].
  - intros [= <- <- _]. rewrite Hhere. split; [rewrite Hp; apply has_prefix_app|].
    intros Hc. assert (err = EOF) as -> by (by destruct err). specialize (Hend eq_refl). rewrite Hp.
    assert (t = "") as ->; [|by rewrite str_app_nil_r]. apply slen_zero.
    apply (f_equal slen) in Hp. rewrite slen_app, slen_drop in Hp. lia.
  - destruct (copy_ fuel (S i) q out w1 _) as [[[more ok1] w2]|] eqn:Ec; [|done].
    intros [= <- <- _]. rewrite body_bytes_app, Hhere, Hp.
    destruct (IH _ _ _ _ (k + slen d) _ _ _ Ha1 ltac:(congruence) Ec) as [IH1 IH2].
    rewrite str_drop_add, Hp, str_drop_app in IH1, IH2.
    split; [|by intros Ho; rewrite (IH2 Ho)].
    apply has_prefix_spec in IH1 as [u ->]. rewrite str_app_assoc. apply has_prefix_app.
Qed.

End file.

(** A download that can be resumed: the request [out] of a proxied request was
    answered, by a pod or after redirects, with a body that serves the file from
    [start], and the other pods keep to what HTTP says of [bytes=n-]. *)
Record download (n : Net) (q : proxied) (s : webState) (file : string) (serves : B → nat → Prop)
    (start : nat) (out : request) (resp : response B) (w : transport_world (M := M)) : Prop := mkDownload {
  dl_out : outgoing (pq_proxy q) (pq_request q) = Some out;
  dl_kind : px_transport (pq_proxy q) = RetryTransport;
  dl_retries : (0 < retryLimit)%Z;
  dl_pods : ∃ rc, context_ q = Some rc ∧
    HonestPods body_read body_close (close_in net_close) rc out file serves;
  dl_url : plain_url (u_url (rq_URL out));
  dl_answer : follow_ ((n, ps_loc (ws_proxy s)), []) out = (Ok resp, w);
  dl_body : ∃ b, Body resp = Some b ∧ serves b start;
  dl_start : start ≤ slen file;
  dl_status : StatusCode resp = 200%Z ∧ start = 0 ∨
              StatusCode resp = 206%Z ∧ orig_start out resp = Some (Z.of_nat start);
  dl_length : (0 ≤ ContentLength resp → ContentLength resp = Z.of_nat (slen file - start))%Z;
  dl_plain : has_suffix (url_path (u_url (rq_URL (default out (head w.2))))) ".m3u8" = false
}.

Lemma download_transport n q (s : webState) file serves start out resp w :
  download n q s file serves start out resp w →
  ∃ b, serves b start ∧
    transport_ RetryTransport q ((n, ps_loc (ws_proxy s)), []) out =
      (Ok (mkResponse (StatusCode resp) (rs_Header resp) (ContentLength resp)
             (Some (PRetry (u_host (rq_URL out)) (Z.of_nat start)
                      (mkRrc b 0 (ContentLength resp) retryLimit 0 false)))), w).
Proof.
  intros [_ _ Hl (rc & Hrc & _) _ Ha (b & Hb & Hs) _ Hst _ _]. exists b. split; [done|].
  unfold transport, RoundTrip, out_map. rewrite Ha, Hb, Hrc.
  assert (MaxRetries rc = retryLimit) as ->.
  { unfold retry_context in Hrc. by apply bind_Some in Hrc as (src & _ & [= <-]). }
  rewrite (proj2 (Z.leb_gt _ 0)) by done.
  assert (orig_start out resp = Some (Z.of_nat start)) as Ho.
  { destruct Hst as [[H2 ->]|[_ Ho]]; [|done]. unfold orig_start. by rewrite H2. }
  rewrite Ho. by destruct Hst as [[-> _]|[-> _]].
Qed.

(** C5: end to end.  What the client of such a download receives is the file
    from [start] on, byte for byte, over whatever connections break and however
    the retries find other pods; and when the handler ends without aborting
    the connection, the client has the file to its end. *)
Theorem client_receives_file fuel order n q (s s' : webState) a file serves start out resp w :
  download n q s file serves start out resp w →
  serve_http fuel order n q s = Some (a, s') →
  ∃ body, an_calls a = WriteHeader (StatusCode resp) :: body ∧
    let got := body_bytes body in
    file = str_take start file +:+ got +:+ str_drop (start + slen got) file ∧
    (an_panic a = None → file = str_take start file +:+ got).
Proof.
  intros Hd Hs. destruct (download_transport _ _ _ _ _ _ _ _ _ Hd) as (b & Hb & Ht).
  destruct Hd as [Hout Hk Hl (rc & Hrc & Hp) Hu Ha _ Hst Hcode Hlen Hpath].
  unfold ServeHTTP in Hs. rewrite Hout, Hk, Ht in Hs. cbv zeta in Hs.
  pose proof (modifyResponse_plain (F := F) (B := pbody (B := B))) as Hmod.
  destruct (modifyResponse _ _ _ _ _ _ _) as [r' c] eqn:Em.
  apply (f_equal fst) in Em. rewrite (Hmod _ _ _ _ _ _ _ _ Hpath) in Em. cbn [fst] in Em. subst r'.
  cbn [set_header Body StatusCode default] in Hs.
  destruct (copy_ _ _ _ _ _ _) as [[[calls ok] w']|] eqn:Ec; [|done].
  injection Hs as <- _. cbn [an_calls an_panic]. exists calls. split; [done|].
  assert (at_offset (str_drop start file) (λ b k, serves b (start + k))
    (mkRrc b 0 (ContentLength resp) retryLimit 0 false) 0) as Hat
    by (split; [by rewrite Nat.add_0_r|done|lia]).
  destruct (copy_file q out rc file serves start Hrc Hu Hst _ _ _ _ _ _ _ _ _ _ Hlen Hat eq_refl Ec)
    as [Hpre Hend].
  rewrite str_drop_0 in Hpre, Hend. cbv zeta. apply has_prefix_spec in Hpre as [t Hpre].
  split.
  - rewrite str_drop_add, Hpre, str_drop_app, <-Hpre. by rewrite take_drop_str.
  - intros Hok. by rewrite <-(Hend Hok), take_drop_str.
Qed.

End serve.

(** ** A concrete download

    Pods that break connections serve a file of ten bytes; the client asks for
    it from byte 2, and names a trusted header in its Connection header. *)

#[local] Existing Instance binary64.
#[local] Existing Instance demo_unicode.

Definition demo_range_in : in_request :=
  mkIn "GET" (mkURL "/f.mp4" "token=t")
    {["Range" := ["bytes=2-"]; "Connection" := ["keep-alive, X-Session-ID"]; "X-Session-Id" := ["u1"];
      "X-Token" := ["t"]; "X-Forwarded-For" := ["1.2.3.4"]]} "10.0.0.1:5555".
Definition demo_proxied : proxied (F := SpecFloat.spec_float) :=
  mkProxied (mkProxy "10.0.0.9:8080" HttpProxy.RetryTransport) demo_range_in
    (mkRulesContext None "t" (InfoHash demo_source)) (mkFileKey (InfoHash demo_source) "/f.mp4")
    (Some demo_source) None.
Definition demo_services : ServicesConfig :=
  {["default" := mkServiceConfig "svc" Hash Environment false ∅]}.

Definition demo_outgoing : request :=
  default demo_request (outgoing (pq_proxy demo_proxied) demo_range_in).
Definition demo_close (n : list nat) (_ : flaky) : list nat := n.

Abbreviation demo_serve_http :=
  (ServeHTTP pod pod flaky_read flaky_close demo_close demo_slenv demo_services 3 (λ _, 4)).
Abbreviation demo_follow := (follow (M := timed) pod pod demo_close).

Lemma dial_direct w q : demo_follow w q = dial (M := timed) pod w q.
Proof.
  unfold follow, redirect_RoundTrip, dial. destruct w as [[n sl] log].
  unfold pod. repeat (case_match; simplify_eq/=); done.
Qed.

Lemma demo_honest rc out :
  rt_Transport rc = dial (M := timed) pod → rt_ExternalTransport rc = dial (M := timed) pod →
  HonestPods (F := SpecFloat.spec_float) flaky_read flaky_close (close_in demo_close) rc out
    demo_obj flaky_serves.
Proof.
  intros Ht He. split.
  - by vm_compute.
  - intros b k n d err b' Hs Hr. pose proof flaky_upstream as Hup. by eapply (up_read _ _ _ _ _ _).
  - intros b k n d b' Hs Hr.
    pose proof (flaky_honest (-1) (or_introl eq_refl)) as Hh. by eapply (he_read _ _ _ _ _).
  - done.
  - intros w q resp w' n b Hi _ Hn Hr H2 Hb. rewrite Ht, He in Hi.
    change (demo_follow w q = (Ok resp, w')) in Hi. rewrite dial_direct in Hi.
    unfold dial in Hi. destruct w as [[net sl] log]. unfold pod in Hi.
    simpl in Hn. rewrite Hr, parseRange_open in Hi by lia.
    destruct (Z.of_nat n <? 10)%Z; simplify_eq/=. split; [by rewrite Nat2Z.id|done].
  - intros w q resp w' t Hi _ H4 Hp. rewrite Ht, He in Hi.
    change (demo_follow w q = (Ok resp, w')) in Hi. rewrite dial_direct in Hi.
    unfold dial in Hi. destruct w as [[net sl] log]. unfold pod in Hi.
    repeat case_match; simplify_eq/=. by vm_compute in Hp; simplify_eq.
Qed.

(** The first connection breaks after three bytes, the second after one. *)
Definition demo_breaks : list nat := [3; 1].
Definition demo_answer :=
  demo_serve_http (λ _, true) 20 [] demo_breaks demo_proxied demo_web_state.

(** The first answer, and the world after it. *)
Definition demo_first_answer : response flaky :=
  mkResponse 206 ∅ 8 (Some (mkFlaky (str_drop 2 demo_obj) (Some 3))).
Definition demo_first_world : transport_world (M := timed) (Net := list nat) :=
  (([1], ps_loc (ws_proxy demo_web_state)), [demo_outgoing]).

Lemma pod_from_two q :
  parseRange (h_get (rq_Header q) "Range") = Some (2, None)%Z →
  pod demo_breaks q = (Ok demo_first_answer, [1]).
Proof. unfold pod. by intros ->. Qed.

Lemma demo_download :
  download pod pod flaky_read flaky_close demo_close demo_slenv demo_services 3
    demo_breaks demo_proxied demo_web_state demo_obj flaky_serves 2 demo_outgoing
    demo_first_answer demo_first_world.
Proof.
  assert (parseRange (h_get (rq_Header demo_outgoing) "Range") = Some (2, None)%Z) as Hr by (by vm_compute).
  assert (2 ≤ slen demo_obj) as Hlen by (by apply Nat.leb_le; vm_compute).
  split.
  - by vm_compute.
  - done.
  - done.
  - eexists. split; [reflexivity|]. by apply demo_honest.
  - by apply (bool_decide_unpack _); vm_compute.
  - rewrite dial_direct. unfold dial. rewrite pod_from_two by done. reflexivity.
  - eexists. split; [reflexivity|]. split; [done|exact Hlen].
  - exact Hlen.
  - right. split; [done|]. unfold orig_start. by rewrite Hr.
  - intros _. by vm_compute.
  - by vm_compute.
Qed.

Example client_receives_file_witness :
  ∃ a s', demo_answer = Some (a, s') ∧ an_panic a = None ∧
    demo_obj = "01" +:+ body_bytes (tail (an_calls a)).
Proof.
  assert (an_panic <$> (fst <$> demo_answer) = Some None) as Hp by (by vm_compute).
  unfold demo_answer in *.
  destruct (ServeHTTP _ _ _ _ _ _ _ _ _ _ _ _ _ _ _) as [[a s']|] eqn:E; [|done].
  exists a, s'. split; [done|]. injection Hp as Hp. split; [done|].
  destruct (client_receives_file pod pod flaky_read flaky_close demo_close demo_slenv demo_services 3
    (λ _, 4) (λ _, true) 20 [] demo_breaks demo_proxied demo_web_state s' a demo_obj flaky_serves 2
    demo_outgoing demo_first_answer demo_first_world demo_download E) as (body & Hb & _ & Hend).
  rewrite Hb. exact (Hend Hp).
Defined.

Example upstream_request_witness :
  h_get (rq_Header demo_outgoing) "X-Token" = "t" ∧
  u_host (rq_URL demo_outgoing) = "10.0.0.9:8080".
Proof.
  assert (outgoing (pq_proxy demo_proxied) demo_range_in = Some demo_outgoing) as E by (by vm_compute).
  destruct (upstream_request _ _ _ E) as (_ & Hhost & _ & _ & _ & _ & Hkeep & _).
  split; [|exact Hhost].
  rewrite (Hkeep "X-Token"); [done|..]; by apply (bool_decide_unpack _); vm_compute.
Defined.

Example answer_cors_witness :
  ∃ a s', demo_answer = Some (a, s') ∧ an_header a !! "Access-Control-Allow-Origin" = Some ["*"].
Proof.
  assert (an_panic <$> (fst <$> demo_answer) = Some None) as Hp by (by vm_compute).
  unfold demo_answer in *.
  destruct (ServeHTTP _ _ _ _ _ _ _ _ _ _ _ _ _ _ _) as [[a s']|] eqn:E; [|done].
  exists a, s'. split; [done|].
  exact (proj1 (answer_cors pod pod flaky_read flaky_close demo_close demo_slenv demo_services 3
    (λ _, 4) (λ _, true) 20 [] demo_breaks demo_proxied demo_web_state s' a E)).
Defined.

Lemma flaky_finite : FiniteBodies flaky_read (λ b, slen (fl_data b)).
Proof.
  split. intros [data left] n d err b' Hn. unfold flaky_read. cbn [fl_data fl_left].
  case_decide as E1; [intros [= <- <- <-]; by intros []|].
  case_decide as E2; [intros [= <- <- <-]; by intros []|].
  intros [= <- <- <-] _. cbn [fl_data]. rewrite slen_drop.
  destruct data as [|c data]; [done|]. destruct left as [[|k]|]; simpl; [done|lia|lia].
Qed.

Example ServeHTTP_returns_witness :
  ∃ r fuel0, ∀ fuel, fuel0 ≤ fuel →
    demo_serve_http (λ i, i <? 2) fuel [] [3; 1; 1; 1; 1; 1; 1] demo_proxied demo_web_state = Some r.
Proof.
  exact (ServeHTTP_returns pod pod flaky_read flaky_close demo_close demo_slenv demo_services 3
    (λ _, 4) (λ i, i <? 2) (λ b, slen (fl_data b)) [] [3; 1; 1; 1; 1; 1; 1] demo_proxied demo_web_state
    flaky_finite (λ _, Nat.lt_0_succ 3) eq_refl).
Defined.

(** A client chooses which trusted headers reach the pods: a header that its
    Connection header names is removed after [proxyHTTP] has set it.  Here the
    session id was set, and is not in the request that is sent. *)
Example connection_strips_trusted :
  (h_get (in_header demo_range_in) "X-Session-ID",
   (λ q, h_get (rq_Header q) "X-Session-ID") <$> outgoing (pq_proxy demo_proxied) demo_range_in)
    = ("u1", Some "").
Proof. by vm_compute. Qed.
