(* ===== verification/SentRequests.v ===== *)
(** * The requests a proxied request causes

    Everything that [ServeHTTP] sends while it serves one request: the outgoing
    request, redirect hops and retries.  Their number is bounded, and which
    headers they carry is known. *)

From Stdlib Require SpecFloat.
From S2P Require Import Prelude GoStrings GoUrl GoNet GoFloat GoHttp Claims LazyMap K8s.
From S2P Require Import ServicesConfig UrlParser ServiceLocation FileSizeCache ManifestRewriter.
From S2P Require Import SessionLimiter HttpProxy RetryReader RetryTransport RetryTransportSpec ResponseWriters.
From S2P Require Import HybridBucket ClickHouse Web WebSpec ReverseProxy ReverseProxySpec.

(** Nothing but a range, and the headers of [out] that a retry copies. *)
Definition carries_only (out r : request) : Prop :=
  ∀ k, canonical k ≠ "Range" → h_get (rq_Header r) k = "" ∨
    (canonical k ∈ canonical <$> copied_headers ∧ h_get (rq_Header r) k = h_get (rq_Header out) k).

Lemma hop_carries out req hop : hop_of req hop → carries_only out hop.
Proof.
  intros [_ Hh] k Hk. left. rewrite Hh. cbv zeta. case_decide; [done|]. unfold h_get.
  by rewrite lookup_singleton_ne.
Qed.

Lemma retry_carries out host n r : retry_request out host n = Some r → carries_only out r.
Proof.
  unfold retry_request. intros (nr & Hn & Hr)%bind_Some k Hk. apply Some_inj in Hr as <-.
  unfold NewRequest in Hn. apply bind_Some in Hn as (u & _ & [= <-]). cbn [rq_Header].
  rewrite h_get_set, decide_False by (by intros E; apply Hk; rewrite <-E).
  rewrite (copy_headers_get (rq_Header out) copied_headers ∅ k).
  case_decide as D; [right; split; [apply D|done]|by left].
Qed.

(** ** A reader and what its reconnects do to the world *)

Section reader.
Context {body world : Type}.
Context (body_read : body → nat → string * option ioerr * body).
Context (body_close : body → option ioerr * body).
Context (reconnectFn : world → Z → (body + reconn_err) * world).
Context (Inv : Z → world → Prop).
Context (HInv : ∀ z w k, Inv z w → Inv (z + 1) (reconnectFn w k).2).

Definition spent (r : retryingReadCloser body) (w : world) : Prop :=
  (0 ≤ retries r ≤ Z.max 0 (maxRetries r))%Z ∧ (maxRetries r < 2 ^ 63)%Z ∧ Inv (retries r) w.

Lemma Read_spent r w n d e r' w' :
  spent r w → Read body_read body_close reconnectFn r w n = (d, e, r', w') →
  spent r' w' ∧ maxRetries r' = maxRetries r.
Proof using HInv.
  intros Hs. unfold Read. destruct (closed r); [by intros [= <- <- <- <-]|].
  destruct (read_body body_read r n) as [[d1 e1] r1] eqn:E1.
  assert (spent r1 w ∧ maxRetries r1 = maxRetries r) as [Hs1 <-].
  { unfold read_body in E1. destruct (body_read (rrc_body r) n) as [[]]. by simplify_eq. }
  destruct e1 as [err|]; [|by intros [= <- <- <- <-]].
  case_decide; [by intros [= <- <- <- <-]|]. case_decide; [by intros [= <- <- <- <-]|].
  destruct (negb _); [by intros [= <- <- <- <-]|]. destruct (_ && _); [by intros [= <- <- <- <-]|].
  destruct (Z.leb_spec (maxRetries r1) (retries r1)); [by intros [= <- <- <- <-]|].
  set (r2 := set_body r1 _).
  destruct Hs1 as (Hr & Hm & Hi). pose proof (HInv _ _ (bytesRead r2) Hi) as Hi'.
  destruct (reconnectFn w (bytesRead r2)) as [res w1]. cbn [snd] in Hi'.
  assert (∀ b, spent (set_body (bump_retries r2) b) w1) as Hs2.
  { intros b. unfold spent. cbn [set_body bump_retries retries maxRetries r2].
    rewrite wrap_s_small by (try lia; split; lia). split; [lia|]. by split. }
  destruct res as [b|[| |why]].
  - unfold read_body. destruct (body_read (rrc_body _) n) as [[d3 e3] b3].
    intros [= <- <- <- <-]. split; [|done]. apply (Hs2 b).
  - intros [= <- <- <- <-]. split; [|done]. apply (Hs2 (rrc_body r2)).
  - intros [= <- <- <- <-]. split; [|done]. apply (Hs2 (rrc_body r2)).
  - intros [= <- <- <- <-]. split; [|done]. apply (Hs2 (rrc_body r2)).
Qed.

End reader.

Section sent.
Context {F : Type} `{GoFloat F} `{GoUnicode} {M : Type → Type} `{LazyMap M}.
Context {B Net : Type}.
Context (upstream external : Net → request → outcome (response B) * Net).
Context (body_read : B → nat → string * option ioerr * B).
Context (body_close : B → option ioerr * B).
Context (net_close : Net → B → Net).
Context (e : slEnv) (configs : ServicesConfig) (retryLimit : Z).
Context (bufs : nat → nat) (accepts : nat → bool).

Abbreviation proxied := (proxied (F := F)).
Abbreviation webState := (webState (F := F) (M := M)).
Abbreviation world := (transport_world (M := M) (Net := Net)).
Abbreviation serve_http :=
  (ServeHTTP upstream external body_read body_close net_close e configs retryLimit bufs accepts).
Abbreviation transport_ := (transport (F := F) (M := M) upstream external net_close e configs retryLimit).
Abbreviation follow_ := (follow (M := M) upstream external net_close).
Abbreviation context_ := (retry_context (F := F) (M := M) upstream external e configs retryLimit).
Abbreviation pread_ := (pread (F := F) (M := M) upstream external body_read body_close net_close e configs retryLimit).
Abbreviation drain_ := (drain (F := F) (M := M) upstream external body_read body_close net_close e configs retryLimit bufs).
Abbreviation copy_ :=
  (copyResponse (F := F) (M := M) upstream external body_read body_close net_close e configs retryLimit accepts).

(** ** One round trip *)

Lemma redirect_loop_sent hops req resp (w w' : world) x :
  redirect_loop (close_in net_close) hops (dial external) req resp w = (x, w') →
  ∃ new, w'.2 = new ++ w.2 ∧ length new ≤ hops ∧ Forall (hop_of req) new.
Proof.
  revert resp w. induction hops as [|hops IH]; intros resp w; cbn [redirect_loop].
  - intros [= _ <-]. by exists [].
  - destruct (negb (is_redirect resp)); [intros [= _ <-]; exists []; split; [done|]; split; [simpl; lia|done]|].
    case_decide; [intros [= _ <-]; exists []; split; [done|]; split; [simpl; lia|done]|].
    set (w1 := match Body resp with Some b => _ | None => w end).
    assert (w1.2 = w.2) as <-
      by (subst w1; destruct (Body resp); [unfold close_in; by destruct w as [[]]|done]).
    destruct (redirect_request req _) as [nr|] eqn:En.
    2:{ intros [= _ <-]. exists []. split; [done|]. split; [simpl; lia|done]. }
    apply redirect_request_hop in En. unfold dial at 1. destruct w1 as [[n sl] log].
    destruct (external n nr) as [[resp2|y|y] n2]; cbn [snd].
    + intros (new & Hn & Hl & Hf)%IH. exists (new ++ [nr]). rewrite <-app_assoc.
      split; [done|]. rewrite length_app. split; [simpl; lia|]. apply Forall_app. auto.
    + intros [= _ <-]. exists [nr]. split; [done|]. split; [simpl; lia|auto].
    + intros [= _ <-]. exists [nr]. split; [done|]. split; [simpl; lia|auto].
Qed.

Lemma follow_sent (w w' : world) req x :
  follow_ w req = (x, w') →
  ∃ new, w'.2 = new ++ req :: w.2 ∧ length new ≤ 10 ∧ Forall (hop_of req) new.
Proof.
  unfold follow, redirect_RoundTrip. unfold dial at 1. destruct w as [[n sl] log].
  destruct (upstream n req) as [[resp|y|y] n2].
  - apply redirect_loop_sent.
  - intros [= _ <-]. exists []. split; [done|]. split; [simpl; lia|done].
  - intros [= _ <-]. exists []. split; [done|]. split; [simpl; lia|done].
Qed.

(** ** The whole request *)

(** After [z] reconnects: the outgoing request was sent first, what came later
    carries only what it may, and each reconnect made at most eleven requests. *)
Definition sent_after (out : request) (z : Z) (w : world) : Prop :=
  ∃ later, w.2 = later ++ [out] ∧ Forall (carries_only out) later ∧
    (Z.of_nat (length later) ≤ 10 + 11 * z)%Z.

Lemma reconnect_sent rc q out start z host (w : world) k :
  context_ q = Some rc → sent_after out z w →
  sent_after out (z + 1) (reconnectFn (close_in net_close) rc out start (host, w) k).2.2.
Proof.
  intros Hrc (later & Hw & Hf & Hl).
  unfold retry_context in Hrc. apply bind_Some in Hrc as (src & _ & [= <-]).
  assert (∀ w1 : world, w1.2 = w.2 → sent_after out (z + 1) w1) as Hsame.
  { intros w1 E. exists later. rewrite E. split; [done|]. split; [done|lia]. }
  unfold reconnectFn. cbn [rt_Src rt_Claims rt_Cfg rt_GetFallback rt_Transport rt_ExternalTransport].
  destruct (retry_config _) as [cfg|]; [|by apply Hsame].
  destruct w as [[n sl] log]. destruct (GetFallback _ _ _ _ _ sl) as [[loc|y|y] sl2]; [|by apply Hsame..].
  cbv zeta. destruct (retry_request out _ _) as [nr|] eqn:En; [|by apply Hsame].
  fold follow_. change (redirect_RoundTrip _ _ _ ?w ?q) with (follow_ w q).
  destruct (follow_ ((n, sl2), log) nr) as [res w2] eqn:Ef.
  apply follow_sent in Ef as (new & Hn & Hln & Hfn). cbn [snd] in *.
  assert (∀ w3 : world, w3.2 = w2.2 → sent_after out (z + 1) w3) as Hnext.
  { intros w3 E. exists (new ++ nr :: later). rewrite E, Hn, Hw, <-app_assoc. split; [done|]. split.
    - apply Forall_app. split; [|constructor; [by eapply retry_carries|done]].
      eapply Forall_impl; [done|]. intros hop. apply hop_carries.
    - rewrite length_app. simpl. lia. }
  destruct res as [resp|y|y]; cbn [snd]; [|by apply Hnext..].
  assert (∀ b, (close_in net_close w2 b).2 = w2.2) as Hc by (intros b; by destruct w2 as [[]]).
  repeat (case_match; cbn [snd]; try apply Hnext; try done).
Qed.

(** Nothing was sent, or what the retries allow. *)
Definition whole (out : request) (w : world) : Prop :=
  w.2 = [] ∨ ∃ z, (0 ≤ z ≤ Z.max 0 retryLimit)%Z ∧ sent_after out z w.

(** What a body in use has spent. *)
Definition body_sent (out : request) (b : pbody (B := B)) (w : world) : Prop :=
  match b with
  | PRetry _ _ r => maxRetries r = retryLimit ∧ spent (sent_after out) r w
  | _ => whole out w
  end.

Lemma body_sent_whole out b w : body_sent out b w → whole out w.
Proof.
  destruct b as [b|h st r|s]; simpl; [done| |done]. intros (Hm & Hr & _ & Hi). right.
  exists (retries r). split; [by rewrite <-Hm|done].
Qed.

Lemma pread_sent q out w b n d err b' w' :
  body_sent out b w → pread_ q out w b n = (d, err, b', w') → body_sent out b' w'.
Proof.
  intros Hb. unfold pread. destruct b as [b|h st r|s].
  - destruct (body_read b n) as [[]]. by intros [= <- <- <- <-].
  - destruct (context_ q) as [rc|] eqn:Erc; [|by intros [= <- <- <- <-]].
    destruct (Read _ _ _ r (h, w) n) as [[[d0 e0] r0] [h0 w0]] eqn:E. intros [= <- <- <- <-].
    destruct Hb as [Hm Hs].
    apply (Read_spent _ _ _ (λ z (hw : string * world), sent_after out z hw.2)) in E as [Hs' Hm'].
    + split; [by rewrite Hm'|done].
    + intros z [h1 w1] k Hi. by eapply reconnect_sent.
    + done.
  - case_decide; by intros [= <- <- <- <-].
Qed.

Lemma drain_sent fuel i q out acc w b r w' :
  body_sent out b w → drain_ fuel i q out acc w b = Some (r, w') →
  whole out w'.
Proof.
  revert i acc w b. induction fuel as [|fuel IH]; intros i acc w b Hb; [done|]. cbn [drain].
  destruct (pread_ q out w b (bufs i)) as [[[d err] b1] w1] eqn:E.
  apply (pread_sent _ _ _ _ _ _ _ _ _ Hb) in E.
  destruct err as [err|]; [|by apply IH].
  assert (w' = w1 → whole out w') as Hd by (intros ->; by eapply body_sent_whole).
  destruct err; intros [= _ <-]; by apply Hd.
Qed.

Lemma copy_sent fuel i q out w b calls ok w' :
  body_sent out b w → copy_ fuel i q out w b = Some (calls, ok, w') →
  whole out w'.
Proof.
  revert i w b calls ok. induction fuel as [|fuel IH]; intros i w b calls ok Hb; [done|].
  cbn [copyResponse]. destruct (pread_ q out w b copy_size) as [[[d err] b1] w1] eqn:E.
  apply (pread_sent _ _ _ _ _ _ _ _ _ Hb) in E.
  destruct (_ && _); [intros [= _ _ <-]; by eapply body_sent_whole|].
  destruct err as [err|]; [intros [= _ _ <-]; by eapply body_sent_whole|].
  destruct (copy_ fuel (S i) q out w1 b1) as [[[more ok1] w2]|] eqn:Ec; [|done].
  intros [= _ _ <-]. by eapply IH.
Qed.

Lemma follow_whole out (w w' : world) x :
  w.2 = [] → follow_ w out = (x, w') → sent_after out 0 w' ∧ whole out w'.
Proof.
  intros Hw Hf. apply follow_sent in Hf as (new & Hn & Hln & Hfn). rewrite Hw in Hn.
  assert (sent_after out 0 w') as Hs.
  { exists new. split; [done|]. split; [|lia]. eapply Forall_impl; [done|]. intros hop. apply hop_carries. }
  split; [done|]. right. exists 0%Z. split; [lia|done].
Qed.

Lemma transport_sent kind q w out x w' :
  (retryLimit < 2 ^ 63)%Z → w.2 = [] → transport_ kind q w out = (x, w') →
  whole out w' ∧ ∀ resp b, x = Ok resp → Body resp = Some b → body_sent out b w'.
Proof.
  intros Hl Hw. unfold transport, out_map. destruct kind.
  - unfold stub_RoundTrip. intros [= <- <-]. split; [by left|]. intros resp b [= <-] [= <-]. by left.
  - destruct (follow_ w out) as [r w1] eqn:Ef. apply (follow_whole _ _ _ _ Hw) in Ef as [_ Hs].
    intros [= <- <-]. split; [done|]. intros resp b Hr Hb. destruct r as [r|y|y]; [|done..].
    injection Hr as <-. cbn [map_body Body] in Hb. destruct (Body r); [|done]. by injection Hb as <-.
  - unfold RoundTrip. destruct (follow_ w out) as [r w1] eqn:Ef.
    apply (follow_whole _ _ _ _ Hw) in Ef as [H0s Hs].
    destruct r as [r|y|y]; intros [= <- <-]; (split; [done|]); [|done..].
    intros resp b [= <-]. cbn [map_body Body]. unfold keep_body.
    destruct (context_ q) as [rc|] eqn:Erc; [|by destruct (Body r); [intros [= <-]|]].
    assert (MaxRetries rc = retryLimit) as Hm.
    { unfold retry_context in Erc. by apply bind_Some in Erc as (src & _ & [= <-]). }
    destruct (Body r) as [b0|] eqn:Eb; [|done].
    repeat (case_match; cbn [Body option_fmap fmap option_map to_pbody]; rewrite ?Eb);
      intros [= <-]; try exact Hs.
    split; [done|]. rewrite Hm. split; [cbn [retries maxRetries]; lia|]. by split.
Qed.

Lemma requests_sent_cases fuel order n q (s s' : webState) a out :
  (retryLimit < 2 ^ 63)%Z →
  outgoing (pq_proxy q) (pq_request q) = Some out →
  serve_http fuel order n q s = Some (a, s') →
  an_sent a = [] ∨
  ∃ later, an_sent a = later ++ [out] ∧ Forall (carries_only out) later ∧
    (Z.of_nat (length (an_sent a)) ≤ 11 * (1 + Z.max 0 retryLimit))%Z.
Proof.
  intros Hl Hout Hs. unfold ServeHTTP in Hs. rewrite Hout in Hs.
  assert (∀ (w : world) (x : answer), whole out w → an_sent x = w.2 →
    an_sent x = [] ∨ ∃ later, an_sent x = later ++ [out] ∧ Forall (carries_only out) later ∧
      (Z.of_nat (length (an_sent x)) ≤ 11 * (1 + Z.max 0 retryLimit))%Z) as Hdone.
  { intros w x [Hw|(z & Hz & later & Hw & Hf & Hll)] ->; [by left|]. right. exists later.
    split; [done|]. split; [done|]. rewrite Hw, length_app. simpl. lia. }
  destruct (transport_ _ _ _ _) as [x w] eqn:Et.
  apply transport_sent in Et as [Hw Hb]; [|done|done].
  destruct x as [resp|y|y]; [|injection Hs as <- _; by apply (Hdone w)..].
  specialize (Hb resp). cbv zeta in Hs. cbn [set_header Body] in Hs.
  assert (∀ b r w1, Body resp = Some b → drain_ fuel 0 q out "" w b = Some (r, w1) → whole out w1) as Hdrain.
  { intros b r w1 Hbody. apply drain_sent. by apply Hb. }
  destruct (modifyResponse _ _ _ _ _ _ _) as [[r'|y|y] c] eqn:Em.
  3:{ destruct (Body resp) as [b|] eqn:Eb; cbn [mbind option_bind] in Hs; [|done].
      destruct (drain_ fuel 0 q out "" w b) as [[[r|r|r] w1]|] eqn:Ed; [done|done| |done].
      injection Hs as <- _. apply (Hdone w1); [by eapply Hdrain|done]. }
  2:{ injection Hs as <- _. destruct (Body resp) as [b|] eqn:Eb; cbn [mbind option_bind]; [|by apply (Hdone w)].
      destruct (drain_ fuel 0 q out "" w b) as [[r w1]|] eqn:Ed; [|by apply (Hdone w)].
      apply (Hdone w1); [by eapply Hdrain|done]. }
  unfold modifyResponse in Em. injection Em as Em _. apply rules_body in Em.
  set (w1 := match Body resp with Some _ => _ | None => w end) in Hs.
  assert (body_sent out (default (PBytes "") (Body r')) w1) as Hb1.
  { assert (whole out w1) as Hw1.
    { subst w1. destruct (Body resp) as [b|] eqn:Eb; [|done]. destruct (Body r') as [[]|]; try done.
      destruct (drain_ fuel 0 q out "" w b) as [[r w2]|] eqn:Ed; [by eapply Hdrain|done]. }
    destruct Em as [Em|[y Hy]]; [|by rewrite Hy].
    assert (Body r' = Body resp) as Er by (by rewrite <-Em).
    destruct (Body r') as [[b|h st r|b]|] eqn:Er'; try done. simpl.
    subst w1. rewrite <-Er in Hb |- *. exact (Hb _ eq_refl eq_refl). }
  destruct (copy_ _ _ _ _ _ _) as [[[calls ok] w2]|] eqn:Ec; [|done].
  injection Hs as <- _. apply (Hdone w2); [|done]. by eapply copy_sent.
Qed.

(** C15: what one client request can cause.  It is sent to the chosen pod first
    (or nowhere, when there is none); everything sent later, redirect hops and
    retries with theirs, carries no header of it but a Range and the trusted
    headers that a retry copies; and there are at most eleven requests for each
    connection made. *)
Theorem requests_sent fuel order n q (s s' : webState) a out :
  (retryLimit < 2 ^ 63)%Z →
  outgoing (pq_proxy q) (pq_request q) = Some out →
  serve_http fuel order n q s = Some (a, s') →
  an_sent a = [] ∨
  ∃ later, an_sent a = later ++ [out] ∧ Forall (carries_only out) later ∧
    (Z.of_nat (length (an_sent a)) ≤ 11 * (1 + Z.max 0 retryLimit))%Z.
Proof. apply requests_sent_cases. Qed.

End sent.

#[local] Existing Instance binary64.
#[local] Existing Instance demo_unicode.

Example requests_sent_witness :
  ∃ a s', demo_answer = Some (a, s') ∧ length (an_sent a) = 3 ∧
    last (an_sent a) = Some demo_outgoing.
Proof.
  assert ((λ x, length (an_sent x.1)) <$> demo_answer = Some 3) as Hn by (by vm_compute).
  assert (outgoing (pq_proxy demo_proxied) (pq_request demo_proxied) = Some demo_outgoing) as Ho
    by (by vm_compute).
  unfold demo_answer in *.
  destruct (ServeHTTP _ _ _ _ _ _ _ _ _ _ _ _ _ _ _) as [[a s']|] eqn:E; [|done].
  exists a, s'. split; [done|]. injection Hn as Hn. split; [exact Hn|].
  destruct (requests_sent pod pod flaky_read flaky_close demo_close demo_slenv demo_services 3
    (λ _, 4) (λ _, true) 20 [] demo_breaks demo_proxied demo_web_state s' a demo_outgoing eq_refl Ho E)
    as [Hs|(later & Hs & _)].
  - rewrite Hs in Hn. discriminate Hn.
  - rewrite Hs. apply last_snoc.
Defined.
