(* ===== verification/EndToEnd.v ===== *)
(** * A request from the mux to the pods

    The reverse proxy of [ReverseProxy] takes the place that [Web] leaves open,
    and the guarantees of the URL parser, the request handler and the outgoing
    request are put together. *)

From S2P Require Import Prelude GoStrings GoUrl GoNet GoFloat GoHttp Claims LazyMap K8s.
From S2P Require Import ServicesConfig UrlParser ServiceLocation ClientIP FileSizeCache ManifestRewriter.
From S2P Require Import SessionLimiter HttpProxy RetryReader RetryTransport RetryTransportSpec ResponseWriters.
From S2P Require Import HybridBucket ClickHouse Web WebSpec ReverseProxy ReverseProxySpec SentRequests.

Section request.
Context {F : Type} `{GoFloat F} `{GoUnicode} {M : Type → Type} `{LazyMap M}.
Context {B Net : Type}.
Context (jwt_Parse : string → (jwt_head → outcome string) → outcome (jwt_token (F := F))).
Context (ToBytes : string → outcome Z).
Context (upstream external : Net → request → outcome (response B) * Net).
Context (body_read : B → nat → string * option ioerr * B).
Context (body_close : B → option ioerr * B).
Context (net_close : Net → B → Net).

Abbreviation proxied := (proxied (F := F)).
Abbreviation webState := (webState (F := F) (M := M)).

(** [serve] is what [ServeHTTP] computes, on some network, for some client and
    clock. *)
Class Serves (w : Web) (e : slEnv) (serve : proxied → webState → result * webState) : Prop :=
  serves q s : ∃ bufs accepts fuel order n clk a s',
    ServeHTTP upstream external body_read body_close net_close e (w_configs w) (w_maxRetries w)
      bufs accepts fuel order n q s = Some (a, s') ∧
    serve q s = (timed_calls clk a, s').

(** So [ServeHTTP] keeps the laws that [WebSpec] asks of the proxy. *)
#[export] Instance serves_laws w e serve : Serves w e serve → ServeLaws serve.
Proof.
  intros Hs. split; intros q s;
    destruct (Hs q s) as (bufs & accepts & fuel & order & n & clk & a & s' & Ha & ->);
    apply ServeHTTP_frame in Ha; cbn [snd]; tauto.
Qed.

(** The path a request is proxied with: the modifier's or the file's. *)
Definition served_path (src : Source) : string :=
  match src_Mod src with Some m => mod_Path m | None => src_Path src end.

Lemma served_path_rooted configs o url src :
  valid_orders configs o → Parse configs o url = Ok src → has_prefix (served_path src) "/" = true.
Proof.
  intros Hv Hp. destruct (Parse_shape _ _ _ _ Hv Hp) as (Hr & _ & _ & _ & _ & Hm).
  unfold served_path. destruct (src_Mod src) as [m|]; [|done].
  destruct Hm as (_ & _ & es & -> & _). apply has_prefix_app.
Qed.

(** The trusted headers have no treatment of their own on the way. *)
Lemma trusted_not_special w (claims : MapClaims (F := F)) apiKey src k v :
  (k, v) ∈ trusted_headers w claims apiKey src → canonical k ∉ special_headers.
Proof.
  assert (Forall (λ k, canonical k ∉ special_headers) (trusted_headers w claims apiKey src).*1) as Hf.
  { unfold trusted_headers. destruct (claim_string claims "rate");
      apply (bool_decide_unpack _); by vm_compute. }
  intros Hin. rewrite Forall_forall in Hf. apply (Hf k). apply list_elem_of_fmap. by exists (k, v).
Qed.

(** C3: a request from the mux to the pods.  Whatever URL and headers a client
    sends: a path of the proxy's own or an unreadable URL is answered at once
    and changes nothing; any other request is for the torrent its URL names, and
    is either answered without the reverse proxy or proxied once, with the
    client's claims accepted and the session admitted.  What the proxy then
    sends first, if anything, is for the rooted path of the file or its
    modifier, with the client's query, and with every trusted header as the
    server set it unless the client's Connection header names it; and nothing
    that it sends later carries more. *)
Theorem request_end_to_end w e o serve end_ r (s : webState) :
  valid_orders (w_configs w) o → is_Some (w_configs w !! "default") → (w_maxRetries w < 2 ^ 63)%Z →
  match handle jwt_Parse ToBytes serve w e o end_ r s with
  | (Static code, s') => s' = s ∧
      (code = 200%Z ∧ static_path (url_path (in_url r)) = true ∨
       code = 500%Z ∧ is_ok (Parse (w_configs w) o (in_url r)) = false)
  | (Proxy res, _) =>
      ∃ src, Parse (w_configs w) o (in_url r) = Ok src ∧
      ((∀ serve', (handle jwt_Parse ToBytes serve' w e o end_ r s).1 = Proxy res) ∨
       ∃ claims q s1,
         admitted_request jwt_Parse w e (with_path r (served_path src)) src s claims q ∧
         res = (serve q s1).1 ∧
         ∀ bufs accepts fuel order n a s2,
           ServeHTTP upstream external body_read body_close net_close e (w_configs w)
             (w_maxRetries w) bufs accepts fuel order n q s1 = Some (a, s2) →
           an_sent a = [] ∨
           ∃ out later, an_sent a = later ++ [out] ∧ Forall (carries_only out) later ∧
             url_path (u_url (rq_URL out)) = served_path src ∧
             has_prefix (served_path src) "/" = true ∧
             url_raw_query (u_url (rq_URL out)) = url_raw_query (in_url r) ∧
             ∀ k v, (k, v) ∈ trusted_headers w claims (query_get (in_url r) "api-key") src →
               canonical k ∉ connection_names (in_header (pq_request q)) →
               h_get (rq_Header out) k = v)
  end.
Proof.
  intros Hv Hd Hl. unfold handle.
  destruct (static_path (url_path (in_url r))) eqn:Est; [by auto|].
  destruct (Parse (w_configs w) o (in_url r)) as [src|x|p] eqn:Ep; [|by auto|].
  2:{ by destruct (Parse_no_panic _ _ _ p Hv Hd Ep). }
  change (match src_Mod src with Some m => mod_Path m | None => src_Path src end) with (served_path src).
  pose proof (served_path_rooted _ _ _ _ Hv Ep) as Hroot.
  destruct (proxyHTTP _ _ serve w e end_ (with_path r (served_path src)) src s) as [res s'] eqn:E.
  exists src. split; [done|].
  destruct (proxied_request_cases jwt_Parse ToBytes serve w e end_ (with_path r (served_path src)) src s)
    as [Hall|(claims & q & s1 & Hq & Hres)].
  { left. intros serve'. by rewrite Hall, E. }
  right. exists claims, q, s1. split; [done|]. split; [by rewrite E in Hres|].
  intros bufs accepts fuel order n a s2 Ha.
  destruct (outgoing (pq_proxy q) (pq_request q)) as [out|] eqn:Hout.
  2:{ left. unfold ServeHTTP in Ha. rewrite Hout in Ha. by simplify_eq. }
  destruct (requests_sent_cases _ _ _ _ _ _ _ _ _ _ _ _ _ _ _ _ _ _ Hl Hout Ha)
    as [?|(later & Hs & Hf & _)]; [by left|right].
  exists out, later. split; [done|]. split; [done|].
  destruct (upstream_request _ _ _ Hout) as (_ & _ & _ & _ & Hpath & Hquery & Hkeep & _).
  rewrite (ar_url _ _ _ _ _ _ _ _ Hq) in *. cbn [with_path in_url url_path url_raw_query] in *.
  split; [by apply Hpath|]. split; [done|]. split; [done|]. intros k v Hin Hk.
  rewrite Hkeep; [|by eapply trusted_not_special|done].
  exact (ar_headers _ _ _ _ _ _ _ _ Hq _ _ Hin).
Qed.

End request.

(** ** A concrete request *)

#[local] Existing Instance binary64.
#[local] Existing Instance demo_unicode.

Definition map_orders (configs : ServicesConfig) : parse_orders :=
  let l := (map_to_list configs).*1 in mkOrders l (λ _, l) (λ _ _, l).
Lemma map_orders_valid configs : valid_orders configs (map_orders configs).
Proof. split; [|split]; intros; apply ranges_canonical. Qed.

Definition demo_handled : handled * _ :=
  handle toy_Parse (λ _, Ok 8000%Z) demo_serve demo_web demo_slenv (map_orders (w_configs demo_web))
    (10 ^ 18 + 10 ^ 9) demo_in demo_web_state.

Example request_end_to_end_witness :
  ∃ res src, demo_handled.1 = Proxy res ∧ length res.1 = 2 ∧
    Parse (w_configs demo_web) (map_orders (w_configs demo_web)) (in_url demo_in) = Ok src.
Proof.
  assert (is_Some (w_configs demo_web !! "default")) as Hd by (by vm_compute; eexists).
  assert ((w_maxRetries demo_web < 2 ^ 63)%Z) as Hl by (by vm_compute).
  pose proof (request_end_to_end toy_Parse (λ _, Ok 8000%Z) pod pod flaky_read flaky_close demo_close
    demo_web demo_slenv (map_orders (w_configs demo_web)) demo_serve (10 ^ 18 + 10 ^ 9) demo_in
    demo_web_state (map_orders_valid _) Hd Hl) as He.
  fold demo_handled in He.
  assert (match demo_handled.1 with Static _ => None | Proxy res => Some (length res.1) end = Some 2)
    as Hn by (by vm_compute).
  destruct demo_handled as [[code|res] s']; [discriminate Hn|]. injection Hn as Hn.
  destruct He as (src & Hsrc & _). exists res, src.
  split; [reflexivity|]. split; [exact Hn|exact Hsrc].
Defined.
