(* ===== verification/Flags.v ===== *)
(** * Command line flags

    The flags that configure.go registers, from every Register function of the
    program, in its order.  github.com/urfave/cli turns them into a context; its
    code is not part of the repository, so the parsing is a parameter with what
    it documents as the laws of a class.  [toy_cli] is an instance. *)

From S2P Require Import Prelude GoStrings SessionLimiter.

(** ** cli.Flag and cli.Context *)

(** A string flag may be required. *)
Inductive Flag :=
  | StringFlag (Name Value EnvVar : string) (Required : bool)
  | IntFlag (Name : string) (Value : Z) (EnvVar : string)
  | Int64Flag (Name : string) (Value : Z) (EnvVar : string)
  | BoolFlag (Name EnvVar : string)
  | BoolTFlag (Name EnvVar : string).

Definition flag_name (f : Flag) : string :=
  match f with
  | StringFlag n _ _ _ | IntFlag n _ _ | Int64Flag n _ _ | BoolFlag n _ | BoolTFlag n _ => n
  end.
Definition required (f : Flag) : bool := match f with StringFlag _ _ _ r => r | _ => false end.

(** [c.String], [c.Int] and [c.Int64], [c.Bool]. *)
Record cli_Context := mkContext {
  c_String : string → string;
  c_Int : string → Z;
  c_Int64 : string → Z;
  c_Bool : string → bool
}.

(** The value that an argument or the environment gives to a flag, if any. *)
Definition given : Type := string → option string.

(** What urfave/cli documents of a run that gets to the action: a value that is
    given is used, else the default; a required flag has a value; a boolean
    flag is false by default, and a [BoolT] one true. *)
Class UrfaveCli (parse : list Flag → given → outcome cli_Context) : Prop := {
  uc_string flags g c n v env req :
    parse flags g = Ok c → StringFlag n v env req ∈ flags → c_String c n = default v (g n);
  uc_required flags g c n v env :
    parse flags g = Ok c → StringFlag n v env true ∈ flags → is_Some (g n);
  uc_int flags g c n v env :
    parse flags g = Ok c → IntFlag n v env ∈ flags → g n = None → c_Int c n = v;
  uc_int64 flags g c n v env :
    parse flags g = Ok c → Int64Flag n v env ∈ flags → g n = None → c_Int64 c n = v;
  uc_bool flags g c n env :
    parse flags g = Ok c → BoolFlag n env ∈ flags → g n = None → c_Bool c n = false;
  uc_boolT flags g c n env :
    parse flags g = Ok c → BoolTFlag n env ∈ flags → g n = None → c_Bool c n = true;
  (** a name registered twice panics *)
  uc_parses flags g :
    NoDup (flag_name <$> flags) →
    (∀ f, f ∈ flags → if required f then is_Some (g (flag_name f)) else g (flag_name f) = None) →
    is_ok (parse flags g)
}.

(** ** The flags of the program *)

Definition webHostFlag : string := "host".
Definition webPortFlag : string := "port".
Definition torrentHTTPProxyHostFlag : string := "torrent-http-proxy-host".
Definition torrentHTTPProxyPortFlag : string := "torrent-http-proxy-port".
Definition useBandwidthLimitFlag : string := "use-bandwidth-limit".
Definition enforceSessionIPFlag : string := "enforce-session-ip".
Definition RegisterWebFlags (f : list Flag) : list Flag :=
  f ++ [StringFlag webHostFlag "" "WEB_HOST" false;
        IntFlag webPortFlag 8080 "WEB_PORT";
        StringFlag torrentHTTPProxyHostFlag "" "TORRENT_HTTP_PROXY_SERVICE_HOST" false;
        IntFlag torrentHTTPProxyPortFlag 8080 "TORRENT_HTTP_PROXY_SERVICE_PORT";
        BoolFlag useBandwidthLimitFlag "USE_BANDWIDTH_LIMIT";
        BoolTFlag enforceSessionIPFlag "ENFORCE_SESSION_IP"].

Definition clickhouseBatchSizeFlag : string := "clickhouse-batch-size".
Definition clickhouseReplicatedFlag : string := "clickhouse-replicated".
Definition clickhouseShardedFlag : string := "clickhouse-sharded".
Definition RegisterClickHouseFlags (f : list Flag) : list Flag :=
  f ++ [IntFlag clickhouseBatchSizeFlag 1000 "CLICKHOUSE_BATCH_SIZE";
        BoolFlag clickhouseReplicatedFlag "CLICKHOUSE_REPLICATED";
        BoolFlag clickhouseShardedFlag "CLICKHOUSE_SHARDED"].

Definition ClickhouseDSNFlag : string := "clickhouse-dsn".
Definition RegisterClickHouseDBFlags (f : list Flag) : list Flag :=
  f ++ [StringFlag ClickhouseDSNFlag "" "CLICKHOUSE_DSN" false].

Definition myNodeNameFlag : string := "my-node-name".
Definition RegisterCommonFlags (f : list Flag) : list Flag :=
  f ++ [StringFlag myNodeNameFlag "" "MY_NODE_NAME" false].

Definition endpointsNamespaceFlag : string := "endpoints-namespace".
Definition RegisterEndpointsFlags (f : list Flag) : list Flag :=
  f ++ [StringFlag endpointsNamespaceFlag "webtor" "ENDPOINTS_NAMESPACE" false].

Definition nodeLabelPrefixFlag : string := "node-label-prefix".
Definition RegisterNodesStatFlags (f : list Flag) : list Flag :=
  f ++ [StringFlag nodeLabelPrefixFlag "webtor.io/" "NODE_LABEL_PREFIX" false].

Definition apiKeyFlag : string := "api-key".
Definition apiSecretFlag : string := "api-secret".
Definition RegisterAPIFlags (f : list Flag) : list Flag :=
  f ++ [StringFlag apiKeyFlag "" "API_KEY" false; StringFlag apiSecretFlag "" "API_SECRET" false].

Definition configFlag : string := "config".
Definition RegisterServicesConfigFlags (f : list Flag) : list Flag :=
  f ++ [StringFlag configFlag "" "CONFIG_PATH" true].

Definition proxyReadBufferSizeFlag : string := "proxy-read-buffer-size".
Definition proxyWriteBufferSizeFlag : string := "proxy-write-buffer-size".
Definition retryMaxAttemptsFlag : string := "retry-max-attempts".
Definition retryDelayFlag : string := "retry-delay".
Definition RegisterHTTPProxyFlags (f : list Flag) : list Flag :=
  f ++ [IntFlag proxyReadBufferSizeFlag (Z.shiftl 512 10) "PROXY_READ_BUFFER_SIZE";
        IntFlag proxyWriteBufferSizeFlag (Z.shiftl 512 10) "PROXY_WRITE_BUFFER_SIZE";
        IntFlag retryMaxAttemptsFlag 3 "RETRY_MAX_ATTEMPTS";
        IntFlag retryDelayFlag 1000 "RETRY_DELAY_MS"].

Definition MaxConcPerPathFlag : string := "max-conc-per-path".
Definition MaxBigFilesPerHashFlag : string := "max-big-files-per-hash".
Definition BigFileThresholdFlag : string := "big-file-threshold-bytes".
Definition LightExtsFlag : string := "light-exts".
Definition MaxConcTotalFlag : string := "max-conc-total".
Definition MaxIPsPerSessionFlag : string := "max-ips-per-session".
Definition RegisterSessionLimiterFlags (f : list Flag) : list Flag :=
  f ++ [IntFlag MaxConcPerPathFlag 10 "MAX_CONC_PER_PATH";
        IntFlag MaxBigFilesPerHashFlag 5 "MAX_BIG_FILES_PER_HASH";
        Int64Flag BigFileThresholdFlag (10 * 1024 * 1024) "BIG_FILE_THRESHOLD_BYTES";
        StringFlag LightExtsFlag defaultLightExts "LIGHT_EXTS" false;
        IntFlag MaxConcTotalFlag 30 "MAX_CONC_TOTAL";
        IntFlag MaxIPsPerSessionFlag 5 "MAX_IPS_PER_SESSION"].

Definition FileSizeCacheCapacityFlag : string := "file-size-cache-capacity".
Definition RegisterFileSizeCacheFlags (f : list Flag) : list Flag :=
  f ++ [IntFlag FileSizeCacheCapacityFlag 100000 "FILE_SIZE_CACHE_CAPACITY"].

(** [configure]: [cs_flags] are the flags of github.com/webtor-io/common-services,
    which come first. *)
Definition configure (cs_flags : list Flag) : list Flag :=
  let f := RegisterWebFlags cs_flags in
  let f := RegisterClickHouseFlags f in
  let f := RegisterClickHouseDBFlags f in
  let f := RegisterCommonFlags f in
  let f := RegisterEndpointsFlags f in
  let f := RegisterNodesStatFlags f in
  let f := RegisterAPIFlags f in
  let f := RegisterServicesConfigFlags f in
  let f := RegisterHTTPProxyFlags f in
  let f := RegisterSessionLimiterFlags f in
  RegisterFileSizeCacheFlags f.

(** The flags of the program itself. *)
Definition program_flags : list Flag := configure [].

Lemma configure_app cs_flags : configure cs_flags = cs_flags ++ program_flags.
Proof.
  unfold program_flags, configure, RegisterWebFlags, RegisterClickHouseFlags, RegisterClickHouseDBFlags,
    RegisterCommonFlags, RegisterEndpointsFlags, RegisterNodesStatFlags, RegisterAPIFlags,
    RegisterServicesConfigFlags, RegisterHTTPProxyFlags, RegisterSessionLimiterFlags,
    RegisterFileSizeCacheFlags.
  by rewrite <-!app_assoc.
Qed.

Lemma program_flags_distinct : NoDup (flag_name <$> program_flags).
Proof. apply (bool_decide_unpack _). by vm_compute. Qed.

#[export] Instance Flag_eq_dec : EqDecision Flag.
Proof. solve_decision. Defined.

Lemma program_flag cs_flags f : bool_decide (f ∈ program_flags) = true → f ∈ configure cs_flags.
Proof. rewrite bool_decide_eq_true, configure_app. set_solver. Qed.

(** ** An implementation of the parsing *)

Definition toy_find (flags : list Flag) (n : string) : option Flag :=
  list_find (λ f, flag_name f = n) flags ≫= λ x, Some x.2.

Definition toy_cli (flags : list Flag) (g : given) : outcome cli_Context :=
  if negb (bool_decide (NoDup (flag_name <$> flags))) then Panic "flag redefined" else
  if existsb (λ f, required f && bool_decide (g (flag_name f) = None)) flags
  then Err (ErrNew "Required flag not set") else
  let number n v := match g n with Some s => default 0%Z (atoi s) | None => v end in
  Ok (mkContext
    (λ n, match toy_find flags n with Some (StringFlag _ v _ _) => default v (g n) | _ => "" end)
    (λ n, match toy_find flags n with Some (IntFlag _ v _) => number n v | _ => 0%Z end)
    (λ n, match toy_find flags n with Some (Int64Flag _ v _) => number n v | _ => 0%Z end)
    (λ n, match toy_find flags n with
          | Some (BoolFlag _ _) => bool_decide (g n = Some "true")
          | Some (BoolTFlag _ _) => negb (bool_decide (g n = Some "false"))
          | _ => false
          end)).

Lemma toy_find_elem flags f :
  NoDup (flag_name <$> flags) → f ∈ flags → toy_find flags (flag_name f) = Some f.
Proof.
  unfold toy_find. intros Hn Hf. apply list_elem_of_lookup in Hf as [i Hi].
  enough (list_find (λ f', flag_name f' = flag_name f) flags = Some (i, f)) as -> by done.
  apply list_find_Some. split; [done|]. split; [done|]. intros j y Hj Hlt Hy.
  assert (j = i); [|lia]. eapply NoDup_lookup; [exact Hn| |].
  - rewrite list_lookup_fmap, Hj. simpl. by rewrite Hy.
  - by rewrite list_lookup_fmap, Hi.
Qed.

Lemma toy_cli_ok flags g c :
  toy_cli flags g = Ok c →
  NoDup (flag_name <$> flags) ∧ (∀ f, f ∈ flags → required f = true → is_Some (g (flag_name f))).
Proof.
  unfold toy_cli. case_bool_decide as Hn; [|done]. cbn [negb].
  destruct (existsb _ _) eqn:E; [done|]. intros _. split; [done|]. intros f Hf Hr.
  destruct (g (flag_name f)) eqn:Eg; [by eexists|]. exfalso. apply not_true_iff_false in E. apply E.
  apply existsb_exists. exists f. split; [by apply list_elem_of_In|]. by rewrite Hr, Eg.
Qed.

(** A context of [toy_cli] looks a registered flag up. *)
Ltac toy_lookup f :=
  intros Hp Hf; destruct (toy_cli_ok _ _ _ Hp) as [Hn _]; pose proof (toy_find_elem _ f Hn Hf) as Hfind;
  unfold toy_cli in Hp; case_match; [done|]; case_match; [done|]; injection Hp as <-; simpl in *;
  rewrite Hfind; intros; simplify_option_eq; try done.

#[export] Instance toy_cli_laws : UrfaveCli toy_cli.
Proof.
  split.
  - intros flags g c n v env req. by toy_lookup (StringFlag n v env req).
  - intros flags g c n v env Hp Hf. by apply (proj2 (toy_cli_ok _ _ _ Hp) _ Hf).
  - intros flags g c n v env. toy_lookup (IntFlag n v env).
  - intros flags g c n v env. toy_lookup (Int64Flag n v env).
  - intros flags g c n env. toy_lookup (BoolFlag n env).
  - intros flags g c n env. toy_lookup (BoolTFlag n env).
  - intros flags g Hn Hg. unfold toy_cli. rewrite bool_decide_eq_true_2 by done. cbn [negb].
    destruct (existsb _ _) eqn:E; [|done]. apply existsb_exists in E as (f & Hf & Hx).
    apply list_elem_of_In in Hf. specialize (Hg f Hf). apply andb_true_iff in Hx as [Hr Hx].
    rewrite Hr in Hg. apply bool_decide_eq_true in Hx. rewrite Hx in Hg. by destruct Hg.
Qed.
