(* ===== verification/Startup.v ===== *)
(** * configure.go and main.go: start-up

    The constructors that read flags, and [run]: which components are made, in
    which order, what is deferred, and the servers that are served.  A trace
    records what is made, served and closed.  The servers of
    github.com/webtor-io/common-services, YAML and the file system are
    arguments. *)

From S2P Require Import Prelude GoStrings GoUrl GoNet GoFloat Claims LazyMap K8s.
From S2P Require Import ServicesConfig UrlParser ServiceLocation FileSizeCache.
From S2P Require Import SessionLimiter HybridBucket ClickHouse HttpProxy ResponseWriters Web Flags.

(** ** Constructors *)

Definition NewSessionLimiter `{GoUnicode} (c : cli_Context) : SessionLimiter :=
  mkLimiter (c_Int c MaxConcPerPathFlag) (c_Int c MaxBigFilesPerHashFlag)
    (c_Int64 c BigFileThresholdFlag) (parseLightExts (c_String c LightExtsFlag))
    (c_Int c MaxConcTotalFlag) (c_Int c MaxIPsPerSessionFlag).

Definition NewClaims (c : cli_Context) : Claims :=
  mkClaims (c_String c apiKeyFlag) (c_String c apiSecretFlag).

(** [make] panics for a negative capacity. *)
Definition NewClickHouse (c : cli_Context) : outcome chConfig :=
  let n := c_Int c clickhouseBatchSizeFlag in
  if (n <? 0)%Z then Panic "makeslice: cap out of range" else
  Ok (mkChConfig (Z.to_nat n) (c_String c myNodeNameFlag) (c_Bool c clickhouseReplicatedFlag)
        (c_Bool c clickhouseShardedFlag)).

(** The fields of [http.Transport] that are set; times in nanoseconds. *)
Record Transport := mkTransport {
  MaxIdleConns : Z;
  MaxIdleConnsPerHost : Z;
  IdleConnTimeout : Z;
  WriteBufferSize : Z;
  ReadBufferSize : Z
}.
Record HTTPProxy := mkHTTPProxy {
  hp_transport : Transport;
  hp_externalTransport : Transport;
  hp_maxRetries : Z;
  hp_retryDelay : Z
}.
Definition second : Z := 10 ^ 9.
Definition NewHTTPProxy (c : cli_Context) (retryDelay : Z) : HTTPProxy :=
  let readBuf := c_Int c proxyReadBufferSizeFlag in
  let writeBuf := c_Int c proxyWriteBufferSizeFlag in
  mkHTTPProxy (mkTransport 200 10 (30 * second) writeBuf readBuf)
    (mkTransport 200 20 (90 * second) writeBuf readBuf)
    (c_Int c retryMaxAttemptsFlag) retryDelay.

(** The views of Kubernetes: the flag each reads, and its empty cache. *)
Definition NewEndpoints (c : cli_Context) : string * timed Endpoints :=
  (c_String c endpointsNamespaceFlag, timed_empty (60 * second) false).
Definition NewNodesStat (c : cli_Context) : string * timed (list NodeStat) :=
  (c_String c nodeLabelPrefixFlag, timed_empty (60 * second) false).

(** The name of the node, and the caches of the resolver. *)
Definition NewServiceLocationPool (c : cli_Context) (nodes : timed (list NodeStat)) (ep : timed Endpoints)
    : string * slState (M := timed) :=
  (c_String c myNodeNameFlag,
   ServiceLocation.mkState (timed_empty (15 * second) false) (timed_empty (30 * second) false)
     (timed_empty (30 * second) true) nodes ep).

Definition NewHybridBucketPool {F} : poolState (F := F) (M := timed) :=
  mkPool (timed_empty (5 * 60 * second) false) [].

(** The state that the server starts with. *)
Definition start_state {F} (c : cli_Context) : webState (F := F) (M := timed) :=
  mkWebState empty_heap (NewFileSizeCache (c_Int c FileSizeCacheCapacityFlag)) NewHybridBucketPool
    (mkProxyState (NewServiceLocationPool c (NewNodesStat c).2 (NewEndpoints c).2).2
       (timed_empty (60 * second) false)) ([], []).

(** The web server: where it listens, and what its handlers use. *)
Record WebServer := mkWebServer { ws_host : string; ws_port : Z; ws_web : Web }.

Definition NewWeb (c : cli_Context) (config : ServicesConfig) (pr : HTTPProxy) (claims : Claims)
    (redis : bool) (ch : option chConfig) (sl : SessionLimiter) : WebServer :=
  mkWebServer (c_String c webHostFlag) (c_Int c webPortFlag)
    (mkWeb ("http://" +:+ c_String c torrentHTTPProxyHostFlag +:+ ":"
            +:+ itoa (c_Int c torrentHTTPProxyPortFlag))
       (c_Bool c useBandwidthLimitFlag) (c_Bool c enforceSessionIPFlag) claims config (Some sl) ch
       (hp_maxRetries pr) redis).

(** ** Traces and deferred calls *)

Inductive resource := RRedis | RProbe | RProm | RPprof | RClickHouseDB | RClickHouse | RWeb.
#[export] Instance resource_eq_dec : EqDecision resource.
Proof. solve_decision. Defined.

Inductive server := SProbe | SProm | SPprof | SWeb (w : WebServer).

Inductive event :=
  | Made (r : resource)
  | Serving (servers : list server)
  | Closed (r : resource).

(** What has happened in a function, and its deferred calls, latest first. *)
Record frame := mkFrame { trace : list event; deferred : list resource }.
Definition go (A : Type) : Type := frame → outcome A * frame.

Definition go_lift {A} (m : outcome A) : go A := λ f, (m, f).
Definition go_bind {A B} (m : go A) (k : A → go B) : go B := λ f,
  match m f with
  | (Ok a, f) => k a f
  | (Err e, f) => (Err e, f)
  | (Panic w, f) => (Panic w, f)
  end.
Definition emit (ev : event) : go unit := λ f, (Ok tt, mkFrame (trace f ++ [ev]) (deferred f)).
Definition defer_close (r : resource) : go unit := λ f, (Ok tt, mkFrame (trace f) (r :: deferred f)).

#[local] Notation "'do*' x := m 'in' k" := (go_bind m (λ x, k)) (at level 10, x name, m at level 200, k at level 200, right associativity).

(** The deferred calls run when the function returns, or panics. *)
Definition with_defers {A} (m : go A) : outcome A * list event :=
  let '(r, f) := m (mkFrame [] []) in (r, trace f ++ map Closed (deferred f)).

(** ** [run] *)

(** What start-up finds: the file system and YAML; which servers
    common-services makes; how serving ends. *)
Record startEnv := mkStartEnv {
  read_file : string → outcome string;
  unmarshal : string → outcome (gmap string (option ServiceConfig));
  range_order : gmap string (option ServiceConfig) → list string;
  NewProbe : cli_Context → bool;
  NewProm : cli_Context → bool;
  NewPprof : cli_Context → bool;
  Serve : list server → outcome unit
}.

Definition use_redis (c : cli_Context) : bool :=
  let host := c_String c "redis-host" in
  negb (bool_decide (host = "")) && negb (bool_decide (host = "localhost")).

Section run.
Context `{GoUnicode} (e : startEnv) (c : cli_Context).

(** A component that is made when the condition holds, and closed at the end
    when [closes] names what the deferred call closes. *)
Definition optional (b : bool) (r : resource) (closes : option resource) : go unit :=
  if b then
    do* _ := emit (Made r) in
    match closes with Some r => defer_close r | None => go_lift (Ok tt) end
  else go_lift (Ok tt).

Definition make_clickHouse : go (option chConfig) :=
  if decide (c_String c ClickhouseDSNFlag = "") then go_lift (Ok None) else
  do* _ := optional true RClickHouseDB (Some RClickHouseDB) in
  do* ch := go_lift (NewClickHouse c) in
  do* _ := optional true RClickHouse (Some RClickHouse) in
  go_lift (Ok (Some ch)).

Definition run_body : go unit :=
  do* config := go_lift (LoadServicesConfigFromYAML (read_file e) (unmarshal e) (range_order e)
                           (c_String c configFlag)) in
  do* _ := optional (use_redis c) RRedis (Some RRedis) in
  do* _ := optional (NewProbe e c) RProbe (Some RProbe) in
  do* _ := optional (NewProm e c) RProm None in
  do* _ := optional (NewPprof e c) RPprof (Some RProm) in
  let retryDelay := int64 (c_Int c retryDelayFlag * 10 ^ 6) in
  let httpProxy := NewHTTPProxy c retryDelay in
  let claims := NewClaims c in
  do* clickHouse := make_clickHouse in
  let sessionLimiter := NewSessionLimiter c in
  let web := NewWeb c (omap id config) httpProxy claims (use_redis c) clickHouse sessionLimiter in
  do* _ := optional true RWeb (Some RWeb) in
  let servers :=
    (if NewProbe e c then [SProbe] else []) ++ (if NewProm e c then [SProm] else []) ++
    (if NewPprof e c then [SPprof] else []) ++ [SWeb web] in
  do* _ := emit (Serving servers) in
  go_lift (Serve e servers).

Definition run : outcome unit * list event := with_defers run_body.

End run.

(** [main]: whether the process ends with the fatal log of an error. *)
Definition main `{GoUnicode} (parse : list Flag → given → outcome cli_Context) (cs_flags : list Flag)
    (e : startEnv) (g : given) : outcome unit * list event :=
  match parse (configure cs_flags) g with
  | Ok c => run e c
  | Err x => (Err x, [])
  | Panic w => (Panic w, [])
  end.

(** ** What start-up guarantees *)

(** Components whose constructor has a deferred [Close] of its own. *)
Definition owned (r : resource) : bool := negb (bool_decide (r = RProm ∨ r = RPprof)).

Definition server_resource (s : server) : resource :=
  match s with SProbe => RProbe | SProm => RProm | SPprof => RPprof | SWeb _ => RWeb end.
Definition serves (r : resource) : bool := bool_decide (r ∈ [RProbe; RProm; RPprof; RWeb]).

Section guarantees.
Context `{GoUnicode} (e : startEnv) (c : cli_Context).

Definition config_of : outcome (gmap string (option ServiceConfig)) :=
  LoadServicesConfigFromYAML (read_file e) (unmarshal e) (range_order e) (c_String c configFlag).

(** What is made before the statistics, and the closings it defers. *)
Definition made_first : list resource :=
  (if use_redis c then [RRedis] else []) ++ (if NewProbe e c then [RProbe] else []) ++
  (if NewProm e c then [RProm] else []) ++ (if NewPprof e c then [RPprof] else []).
Definition closed_last : list resource :=
  (if NewPprof e c then [RProm] else []) ++ (if NewProbe e c then [RProbe] else []) ++
  (if use_redis c then [RRedis] else []).

Definition served_by (w : WebServer) : list server :=
  (if NewProbe e c then [SProbe] else []) ++ (if NewProm e c then [SProm] else []) ++
  (if NewPprof e c then [SPprof] else []) ++ [SWeb w].

(** The components that statistics need: made, and what comes of it. *)
Definition statistics : list resource * outcome (option chConfig) :=
  if decide (c_String c ClickhouseDSNFlag = "") then ([], Ok None) else
  match NewClickHouse c with
  | Ok ch => ([RClickHouseDB; RClickHouse], Ok (Some ch))
  | Err x => ([RClickHouseDB], Err x)
  | Panic x => ([RClickHouseDB], Panic x)
  end.

Definition new_web (config : gmap string (option ServiceConfig)) (ch : option chConfig) : WebServer :=
  NewWeb c (omap id config) (NewHTTPProxy c (int64 (c_Int c retryDelayFlag * 10 ^ 6))) (NewClaims c)
    (use_redis c) ch (NewSessionLimiter c).

(** [run], written out. *)
Lemma run_spec :
  run e c =
    match config_of with
    | Ok config =>
        let '(rs, ch) := statistics in
        match ch with
        | Ok ch =>
            let ss := served_by (new_web config ch) in
            (Serve e ss, map Made (made_first ++ rs ++ [RWeb]) ++ [Serving ss] ++
               map Closed (RWeb :: reverse rs ++ closed_last))
        | Err x => (Err x, map Made (made_first ++ rs) ++ map Closed (reverse rs ++ closed_last))
        | Panic x => (Panic x, map Made (made_first ++ rs) ++ map Closed (reverse rs ++ closed_last))
        end
    | Err x => (Err x, [])
    | Panic x => (Panic x, [])
    end.
Proof.
  unfold run, with_defers, run_body, make_clickHouse, statistics, made_first, closed_last, served_by, new_web.
  unfold go_bind at 1, go_lift at 1. fold config_of. destruct config_of as [config|x|x]; [|done..].
  destruct (decide (c_String c ClickhouseDSNFlag = "")); [|destruct (NewClickHouse c)];
    by destruct (use_redis c), (NewProbe e c), (NewProm e c), (NewPprof e c).
Qed.

(** C25: start-up and shutdown.  However the program is configured and whatever
    fails: components are made first, then served (at most once), then closed;
    what was made is closed exactly once and in reverse order, so the
    statistics are flushed before their database is closed and after the web
    server stopped; every server that was made is served, the web server last;
    and the program ends with what serving returned.  When the configuration
    cannot be read nothing is made.  The exceptions are Prom and Pprof: Pprof
    is never closed, and Prom is closed exactly when there is a Pprof. *)
Theorem startup_order :
  let '(res, tr) := run e c in
  ∃ rs served cs, tr = map Made rs ++ served ++ map Closed cs ∧
    NoDup rs ∧ filter owned cs = reverse (filter owned rs) ∧
    (RPprof ∉ cs) ∧ (RProm ∈ cs ↔ RPprof ∈ rs) ∧
    match served with
    | [] => is_ok res = false ∧ (is_ok config_of = false → rs = [])
    | [Serving ss] => res = Serve e ss ∧ is_ok config_of = true ∧
        server_resource <$> ss = filter serves rs ∧ ∃ w, last ss = Some (SWeb w)
    | _ => False
    end.
Proof.
  rewrite run_spec. destruct config_of as [config|x|x].
  2,3: exists [], [], []; split_and!; try done; [constructor|set_solver..].
  assert (∀ rs ch, statistics = (rs, ch) →
    rs = [] ∨ rs = [RClickHouseDB; RClickHouse] ∨ rs = [RClickHouseDB] ∧ is_ok ch = false) as Hst.
  { unfold statistics. intros rs ch. case_decide; [|destruct (NewClickHouse c)]; intros [= <- <-]; auto. }
  destruct statistics as [rs ch]. specialize (Hst rs ch eq_refl).
  unfold made_first, closed_last, served_by.
  destruct ch as [ch|x|x]; [eexists _, [Serving _], _; split; [reflexivity|]|
    eexists _, [], _; split; [reflexivity|]..];
  destruct Hst as [->|[->|[-> ?]]]; try done;
  destruct (use_redis c), (NewProbe e c), (NewProm e c), (NewPprof e c);
    (split; [apply (bool_decide_unpack _); by vm_compute|]);
    (split; [reflexivity|]);
    (split; [apply (bool_decide_unpack _); by vm_compute|]);
    (split; [apply (bool_decide_unpack _); by vm_compute|]); split_and!; try done; by eexists.
Qed.

End guarantees.

(** ** The defaults *)

(** Only the configuration file is given. *)
Definition only_config (path : string) : given := λ n, if decide (n = configFlag) then Some path else None.

Definition default_limiter `{GoUnicode} : SessionLimiter :=
  mkLimiter 10 5 10485760 (parseLightExts defaultLightExts) 30 5.

(** A configuration file is all that the flags require. *)
Lemma only_config_parses parse `{!UrfaveCli parse} cs_flags path :
  NoDup (flag_name <$> cs_flags ++ program_flags) →
  Forall (λ f, required f = false) cs_flags →
  is_ok (parse (configure cs_flags) (only_config path)).
Proof.
  intros Hnd Hreq. apply uc_parses; rewrite configure_app; [done|]. intros f Hf.
  assert (Forall (λ g, required g = true ↔ flag_name g = configFlag) program_flags) as Hr
    by (apply (bool_decide_unpack _); by vm_compute).
  assert (configFlag ∈ flag_name <$> program_flags) as Hin by (apply (bool_decide_unpack _); by vm_compute).
  rewrite Forall_forall in Hr, Hreq. unfold only_config. apply elem_of_app in Hf as [Hf|Hf].
  - rewrite (Hreq f Hf), decide_False; [done|]. intros Hn.
    rewrite fmap_app in Hnd. apply NoDup_app in Hnd as (_ & Hnd & _).
    apply (Hnd (flag_name f)); [by apply list_elem_of_fmap_2|by rewrite Hn].
  - specialize (Hr f Hf). destruct (required f).
    + rewrite decide_True by naive_solver. by eexists.
    + rewrite decide_False; [done|]. intros Hn. by apply Hr in Hn.
Qed.

Section defaults.
Context `{GoUnicode} parse `{!UrfaveCli parse} cs_flags path c
  (Hc : parse (configure cs_flags) (only_config path) = Ok c).

Lemma unset n : n ≠ configFlag → only_config path n = None.
Proof. intros. unfold only_config. by rewrite decide_False. Qed.
Lemma default_string n v env :
  bool_decide (StringFlag n v env false ∈ program_flags) = true → n ≠ configFlag → c_String c n = v.
Proof. intros Hf Hn. rewrite (uc_string _ _ _ _ _ _ _ Hc (program_flag _ _ Hf)). by rewrite unset. Qed.
Lemma default_int n v env :
  bool_decide (IntFlag n v env ∈ program_flags) = true → n ≠ configFlag → c_Int c n = v.
Proof. intros Hf Hn. apply (uc_int _ _ _ _ _ _ Hc (program_flag _ _ Hf)). by apply unset. Qed.

Lemma default_config : c_String c configFlag = path.
Proof.
  rewrite (uc_string _ _ c configFlag "" "CONFIG_PATH" true Hc); [done|]. by apply program_flag; vm_compute.
Qed.

Lemma default_web config :
  new_web c config None =
    mkWebServer "" 8080 (mkWeb "http://:8080" false true (mkClaims "" "") (omap id config)
                           (Some default_limiter) None 3 (use_redis c)).
Proof.
  unfold new_web, NewWeb, NewSessionLimiter, NewClaims. cbn [hp_maxRetries NewHTTPProxy].
  rewrite (default_string webHostFlag "" "WEB_HOST"), (default_int webPortFlag 8080%Z "WEB_PORT"),
    (default_string torrentHTTPProxyHostFlag "" "TORRENT_HTTP_PROXY_SERVICE_HOST"),
    (default_int torrentHTTPProxyPortFlag 8080%Z "TORRENT_HTTP_PROXY_SERVICE_PORT"),
    (default_string apiKeyFlag "" "API_KEY"), (default_string apiSecretFlag "" "API_SECRET"),
    (default_int retryMaxAttemptsFlag 3%Z "RETRY_MAX_ATTEMPTS"),
    (default_int MaxConcPerPathFlag 10%Z "MAX_CONC_PER_PATH"),
    (default_int MaxBigFilesPerHashFlag 5%Z "MAX_BIG_FILES_PER_HASH"),
    (default_int MaxConcTotalFlag 30%Z "MAX_CONC_TOTAL"),
    (default_int MaxIPsPerSessionFlag 5%Z "MAX_IPS_PER_SESSION"),
    (default_string LightExtsFlag defaultLightExts "LIGHT_EXTS") by done.
  rewrite (uc_int64 _ _ _ BigFileThresholdFlag (10 * 1024 * 1024) "BIG_FILE_THRESHOLD_BYTES" Hc),
    (uc_bool _ _ _ useBandwidthLimitFlag "USE_BANDWIDTH_LIMIT" Hc),
    (uc_boolT _ _ _ enforceSessionIPFlag "ENFORCE_SESSION_IP" Hc)
    by (done || by apply program_flag; vm_compute).
  done.
Qed.

End defaults.

(** C38: the server by default.  Started with nothing but a configuration file,
    that can be read and decoded, the program serves: on port 8080, with the
    session limiter on (10 requests per file, 5 big files of at least 10 MiB per
    torrent, 30 requests per session, 5 subnets), sessions bound to their
    subnet, three retries, no statistics and no throttling.  No API key and
    secret are set, so every request is accepted, with empty claims. *)
Theorem default_server `{GoUnicode} {F} (jwt_Parse : string → (jwt_head → outcome string) → outcome (jwt_token (F := F)))
    parse `{!UrfaveCli parse} cs_flags e path config :
  NoDup (flag_name <$> cs_flags ++ program_flags) →
  Forall (λ f, required f = false) cs_flags →
  LoadServicesConfigFromYAML (read_file e) (unmarshal e) (range_order e) path = Ok config →
  ∃ ss w redis, (main parse cs_flags e (only_config path)).1 = Serve e (ss ++ [SWeb w]) ∧
    Serving (ss ++ [SWeb w]) ∈ (main parse cs_flags e (only_config path)).2 ∧
    w = mkWebServer "" 8080
          (mkWeb "http://:8080" false true (mkClaims "" "") (omap id config) (Some default_limiter) None 3 redis) ∧
    Enabled default_limiter = true ∧
    ∀ token key, Claims.Get jwt_Parse (w_claims (ws_web w)) token key = Ok (Some ∅).
Proof.
  intros Hnd Hreq Hconfig. unfold main.
  pose proof (only_config_parses parse cs_flags path Hnd Hreq) as Hok.
  destruct (parse _ _) as [c| |] eqn:Hc; [|done..].
  rewrite run_spec. unfold config_of. rewrite (default_config parse _ _ _ Hc), Hconfig. unfold statistics.
  rewrite (default_string parse _ _ _ Hc ClickhouseDSNFlag "" "CLICKHOUSE_DSN") by done.
  rewrite decide_True by done. cbv beta iota zeta.
  rewrite (default_web parse _ _ _ Hc).
  set (w := mkWebServer _ _ _).
  exists ((if NewProbe e c then [SProbe] else []) ++ (if NewProm e c then [SProm] else []) ++
    (if NewPprof e c then [SPprof] else [])), w, (use_redis c).
  assert (∀ l1 l2 l3 : list server, l1 ++ l2 ++ l3 ++ [SWeb w] = (l1 ++ l2 ++ l3) ++ [SWeb w]) as Hl
    by (intros; by rewrite <-!app_assoc).
  unfold served_by. rewrite Hl. split; [done|]. split; [|split; [done|split; [reflexivity|intros; reflexivity]]].
  cbn [fst snd]. set_solver.
Qed.

(** A start with a Redis host, a probe, profiling and statistics, and what
    follows from it: the profiler is left open, and Prom is closed without
    having been made. *)
Definition demo_given : given := λ n,
  if decide (n = "config") then Some "/etc/thp.yaml" else
  if decide (n = "redis-host") then Some "redis.webtor" else
  if decide (n = "clickhouse-dsn") then Some "tcp://ch" else None.
Definition demo_services_yaml : gmap string (option ServiceConfig) :=
  {["default" := Some (mkServiceConfig "torrent-web-seeder" "" "" false ∅)]}.
Definition demo_start : startEnv :=
  mkStartEnv (λ _, Ok "yaml") (λ _, Ok demo_services_yaml) (λ _, ["default"]) (λ _, true) (λ _, false) (λ _, true)
    (λ _, Err (ErrNew "signal")).
Definition demo_cs_flags : list Flag :=
  [StringFlag "redis-host" "localhost" "REDIS_SERVICE_HOST" false; BoolFlag "use-probe" "USE_PROBE"].

#[local] Existing Instance demo_unicode.
Definition resources (tr : list event) : list (bool * resource) :=
  omap (λ ev, match ev with Made r => Some (true, r) | Closed r => Some (false, r) | _ => None end) tr.
Example pprof_left_open :
  let '(res, tr) := main toy_cli demo_cs_flags demo_start demo_given in
  res = Err (ErrNew "signal") ∧
  resources tr =
    [(true, RRedis); (true, RProbe); (true, RPprof); (true, RClickHouseDB); (true, RClickHouse); (true, RWeb);
     (false, RWeb); (false, RClickHouse); (false, RClickHouseDB); (false, RProm); (false, RProbe);
     (false, RRedis)].
Proof. by vm_compute. Qed.

#[local] Existing Instance binary64.
Example default_server_witness :
  ∃ ss w redis, (main toy_cli demo_cs_flags demo_start (only_config "/etc/thp.yaml")).1 = Serve demo_start (ss ++ [SWeb w]) ∧
    Serving (ss ++ [SWeb w]) ∈ (main toy_cli demo_cs_flags demo_start (only_config "/etc/thp.yaml")).2 ∧
    w = mkWebServer "" 8080
          (mkWeb "http://:8080" false true (mkClaims "" "")
             (omap id ({["default" := Some (mkServiceConfig "torrent-web-seeder" Hash Kubernetes false ∅)]} :
                gmap string (option ServiceConfig)))
             (Some default_limiter) None 3 redis) ∧
    Enabled default_limiter = true ∧
    ∀ token key, Claims.Get toy_Parse (w_claims (ws_web w)) token key = Ok (Some ∅).
Proof.
  apply (default_server toy_Parse toy_cli demo_cs_flags demo_start "/etc/thp.yaml");
    [apply (bool_decide_unpack _); by vm_compute|by repeat constructor|by vm_compute].
Defined.
